(* ===== verification/_CoqProject ===== *)
-Q . S2P
Prelude.v
Text.v
SensorData.v
Synchronizer.v
Simulators.v
PairIndex.v
DataBuffer.v
RouterPolicy.v
TriggerPolicy.v
Watchdog.v
Config.v
FileSystem.v
EventState.v
RecordIo.v
StorageWorker.v
DiskSpace.v
Readback.v
JobReadback.v
Monitor.v
Captures.v
Upload.v
Transfer.v
Uploads.v
Intake.v
Node.v
Lifecycles.v
Service.v
RouterNode.v
TriggerNode.v
Keyboard.v
Signals.v
RecordReader.v
Receiver.v
Delivery.v
Acceptance.v
Handover.v
UploadThread.v
Digest.v
