(* ===== verification/Prelude.v ===== *)
(** * A verification library for the sensor data cache

    The program under src/ is a ROS 2 package that keeps the last seconds of
    camera and lidar messages in memory, and on a trigger stores what lies around
    the event as a directory of records, guards that directory against crashes,
    reclaims old ones and uploads finished ones.  This library models its C++
    sources and the Python receiver of the uploads, and proves what makes each
    part correct.  This file holds the outcome
    type of C++ code, loops with fuel, lemmas on lists, sorted insertion and
    machine integers; it is the root of the library.

    ** How the program works, and where it is modelled

    Sensor messages reach the data cache node (src/src/datacache_node.cpp; Node.v)
    and go through the intake: into the approximate synchronizer
    (src/include/approximate_synchronizer.hpp; Synchronizer.v), which pairs images
    and clouds, into the time-ordered buffer (databuffer.hpp; DataBuffer.v) and,
    as pairs and single messages, into the pair index (pair_index.hpp;
    PairIndex.v).  Intake.v puts the three together the way event_monitor.hpp and
    the node do.  SensorData.v has the data of data.hpp, Watchdog.v the watchdog
    for silent sensors (sensor_watchdog.hpp).  The messages may come from the two
    nodes of Simulators.v (camera_node.cpp, lidar_sim_node.cc).

    A trigger comes from a key press (src/src/keyboard_trigger_node.cc;
    Keyboard.v), from another node by way of event_trigger_node.cc
    (TriggerNode.v), or as a signal to the router (event_router_node.cc;
    RouterNode.v), which applies the policies of event_router_policy.hpp
    (RouterPolicy.v) and event_trigger_policy.hpp (TriggerPolicy.v).  Signals.v
    composes these nodes with the data cache node.

    The trigger service of the node asks the event monitor (event_monitor.hpp;
    Monitor.v) for a capture: a directory with a .pending marker
    (event_state.hpp; EventState.v), a job for what lies before the event and one
    for what comes after it.  Captures.v has the runs of the monitor.  The storage
    worker (raw_storage_worker.hpp; StorageWorker.v) takes the jobs from a bounded
    queue, writes records, tables and the checksum manifest and settles the event
    as .complete or .failed; before each job the disk space manager
    (disk_space_manager.hpp; DiskSpace.v) applies the retention limits.  The node
    follows the markers and publishes the status of the event (Lifecycles.v), and
    Service.v has the runs of the whole node with its storage thread.

    The upload worker (upload_worker.hpp; Upload.v) finds completed directories,
    takes a lease, describes their files and sends them in chunks to the receiving
    service.  Transfer.v and Uploads.v reason about what is sent and changed;
    UploadThread.v has the thread that repeats the scan and retries.  The receiver
    (src/tools/receiver_node.py; Receiver.v) collects the chunks of a transfer in a
    staging directory and, when the checksum manifest is right, puts it in the place
    of the event's directory in its inbox.  Delivery.v and
    Acceptance.v put worker and receiver together: [receiver_service] is the
    receiver as the service the worker calls, with restarts and lost answers.
    Handover.v adds the storage worker.

    The record reader library (record_io.hpp; RecordIo.v) reads event directories
    back and verifies them; RecordReader.v is the command line tool
    (src/src/record_reader.cpp).  Readback.v and JobReadback.v prove that what the
    storage worker has written is what the reader finds.  Both take checksums of
    files at once; Digest.v has the loops over blocks and contexts they really are,
    and shows that this makes no difference.

    Config.v has the configuration (config_keys.hpp, config_manager.hpp and
    config_manager.cpp), Text.v the string functions of the C++ library that the
    program uses, FileSystem.v the calls to the file system.

    Functions keep their C++ names; a class is a record of its members, a method
    a function from the record to the new one.  Steady and wall clock readings are
    arguments, a handler reading each clock once; times are nanosecond counts
    unless a comment says otherwise.  A C++ exception is [Err Exception] or, in
    the monad of FileSystem.v, [Threw]; undefined behaviour is [Err Undefined].
    A signed 64-bit result that overflows is undefined, unsigned ones wrap.

    ** Faults

    A computation on files is given the list of what happens at its successive
    calls: nothing, an I/O error after some of the work, or a crash of the process.
    [wp m Q E C w] states what holds when it returns, when an exception leaves it
    and when the process dies in it, for every such list; most theorems about
    stored data hold for all faults and crash points, the remaining ones state
    the result without faults.

    ** What is shown

    - Sensor path: any sequence of synchronizer calls runs without exception or
      undefined pop and loses no message (sync_run_safe, sync_run_conserves), the
      front-to-front pairing finds a maximum set of pairs (tryMatch_maximum),
      addData refines insertion followed by the limits and keeps the bounds
      (addData_refines, buffer_bounded), the three agree on every message
      (intake_accounts), and pictures and clouds published in turns are paired as
      they were published (simulated_pairs); that windows split the data without
      loss and that the pair index is the newest part of its history are plain
      theorems (window_query, pair_index_history); reports of the watchdog alternate
      (watchdog_alternates).
    - Triggers: the router paces requests (requests_paced); presses are debounced
      (keyboard_presses) and learn the answer of the data cache (press_to_capture);
      that failed requests are rolled back, that presses reach the data cache and
      that they stay pending until they are closed are plain theorems
      (release_rolls_back, keyboard_signals_routed, pending_until_closed).
    - Captures: every accepted event has exactly one final job or an active
      capture with a reservation (capture_accounting), it is finished in time
      (capture_finishes) with exactly the data of its window (finish_window), and
      every way a call can go is known, with what it leaves in memory and on disk
      (capture_outcome).
    - Storage: markers are written atomically (writeAtomically_atomic), a restart
      gives every pending event a verdict (reconcile_settles), settling never
      completes an event with missing data (settle_verdict), the queue keeps its
      limit and reservations (queue_protocol), what is stored reads back
      (writeJob_readback), the reader accepts a stored checksum manifest exactly when
      the traversal left no file out of it, which a failing status query can cause
      (checksum_manifest_roundtrip), and digesting files block by block leaks nothing
      and changes nothing (sha256File_streamed, streamed_manifest_refines).
    - Reading: the tool ends and, when no sensor name of the manifest has a slash,
      stays in its directory (record_reader_ends); it accepts exactly the directories
      whose checksum manifest, manifest.csv and records are consistent, or ends with
      an exception on the records that are named (record_reader_verdict); accepted
      paths stay inside the event (safe_path_contained).
    - Retention: only events with a verdict are deleted, and of those that may be,
      exactly as many as the limits require (retention_safe, retention_exact).
    - Upload: a directory is marked only when every described file has been sent
      whole and acknowledged (upload_transcript), and then exactly these files are
      in the inbox of the receiver (upload_delivers); when nothing fails, a
      directory that is in order is accepted (upload_accepted), and what the storage
      worker has completed with a manifest that misses no file is in order
      (completed_event_delivered); only completed
      directories are uploaded (candidates_finished), one upload at a time
      (upload_exclusive, a plain theorem), and the thread that repeats the scan
      spaces and limits its attempts (retries_paced) and, when nothing fails, uploads
      all that is due in one round (round_uploads).
    - The node: its components stay well-formed and its reports agree with its
      captures (node_invariant), a trigger is acted upon once (trigger_idempotent),
      and the reports on an event follow the protocol and end (lifecycle_protocol,
      lifecycle_ends).
    - Configuration: strict mode refuses exactly the files with a problem
      (strict_mode).

    ** Loops and fuel

    Loops over a queue use [while] below with fuel computed from the length of the
    queues, and the theorems show that it never runs out.  The search for a free
    file name has as many extra rounds as there are files, which
    JobReadback.freeName_total shows to be enough.  The decompression loop needs
    one round for each byte of input and output; two times kMaxRecordBytes suffices
    for every record (RecordIo.decompressZstd_ends, RecordReader.load_ends), and
    digesting a file one for each of its blocks and one more (Digest.enough).  All
    other recursion is structural.

    ** Parameters

    The capture device, OpenCV and PCL, Zstandard, SHA-256 and the calls of OpenSSL,
    and the ROS serialisation are functions given to the model, as are the orders in
    which directories and hash containers are traversed, the free space the system
    reports, the working directory and, except in Delivery.v, Acceptance.v and
    Handover.v, the receiving service.  Hypotheses about them state documented
    behaviour; the witnesses of the theorems instantiate them.

    ** What is left out

    - fsync has no effect that a process crash could show; power failures are not
      modelled.  Symbolic links are opaque, and .. in a path is not resolved.
    - Log output, topics, quality of service and the wiring of callbacks; the data
      cache node spins on one thread, the storage thread is interleaved with its
      handlers, and a round of the upload thread is one step that others do not
      interrupt; the counter of upload attempts is unbounded.
    - The mode of the terminal in the keyboard node; the printing of the reader.
    - main.cc starts the node; the functions [main] of the other programs do no more.
    - The receiver serves one request after the other, of one upload worker; names
      are ASCII, and it reads its clock once for each request.
    - Tests, launch, build and documentation files.

    ** What modelling showed

    Some theorems state behaviour that the code or its comments do not intend:
    Lifecycles.stored_then_failed and long_window_fails (a timeout that overrides a
    stored event or a long window), Captures.one_job_queue (a queue of one job
    rejects every event with data after it), DiskSpace.cutoff_overflow,
    Synchronizer.late_arrival_unmatched, RecordIo.parseU64_signed,
    RecordReader.export_escapes, export_overwrites and export_beyond_limit,
    torn_pairs_pass (the verification does not read pairs.csv) and
    negative_stamp_throws, Readback.omitted_file_refused (a status query that fails
    leaves a file out of a manifest that is then stored as complete),
    DiskSpace.unmarked_events_stay (the tests expect retention to delete events
    without a verdict), Delivery.staging_shared. *)

From stdpp Require Export base list gmap strings pretty sorting.
From Stdlib Require Export ZArith Lia ZifyBool.

#[global] Open Scope Z_scope.

(** ** Outcomes of C++ code *)

(** Why an evaluation has no value: a C++ exception left the function, the
    standard gives the program no meaning (undefined behaviour), or the fuel
    of a modelled loop ran out. *)
Inductive failure := Exception | Undefined | OutOfFuel.

Inductive res (A : Type) :=
| Ok (a : A)
| Err (e : failure).
Arguments Ok {A} a.
Arguments Err {A} e.

#[export] Instance res_ret : MRet res := fun A a => Ok a.
#[export] Instance res_bind : MBind res :=
  fun A B k m => match m with Ok a => k a | Err e => Err e end.
#[export] Instance res_fmap : FMap res :=
  fun A B f m => match m with Ok a => Ok (f a) | Err e => Err e end.

(** A value that may be missing because the call that computes it throws. *)
Definition throwing {A} (o : option A) : res A :=
  match o with Some a => Ok a | None => Err Exception end.

(** [while (cond) body] with an iteration budget. *)
Fixpoint while {S} (fuel : nat) (cond : S -> bool) (body : S -> res S) (s : S) : res S :=
  if cond s then
    match fuel with
    | O => Err OutOfFuel
    | S fuel' => s' ← body s; while fuel' cond body s'
    end
  else Ok s.

(** [deque::pop_front], undefined on an empty deque. *)
Definition pop_front {A} (l : list A) : res (list A) :=
  match l with [] => Err Undefined | _ :: l' => Ok l' end.

(** [for (const auto& x : l) if (cond) result.push_back(x)]. *)
Definition select {A} (cond : A -> bool) (l : list A) : list A :=
  fold_left (fun result x => if cond x then result ++ [x] else result) l [].

(** ** Machine integers *)

Definition int64_min : Z := - 2 ^ 63.
Definition int64_max : Z := 2 ^ 63 - 1.
Definition int32_min : Z := - 2 ^ 31.
Definition int32_max : Z := 2 ^ 31 - 1.
Definition uint64_max : Z := 2 ^ 64 - 1.
Definition uint32_max : Z := 2 ^ 32 - 1.

Definition int64 (z : Z) : Prop := int64_min <= z <= int64_max.
Definition int64b (z : Z) : bool := (int64_min <=? z) && (z <=? int64_max).
Definition uint64 (z : Z) : Prop := 0 <= z <= uint64_max.

(** Wrap-around of unsigned 64-bit arithmetic. *)
Definition u64 (z : Z) : Z := z mod 2 ^ 64.

(** ** The clock library *)

Definition ns_per_s : Z := 1000000000.
Definition ns_per_ms : Z := 1000000.

(** [rclcpp::Time] and [rclcpp::Duration] are 64-bit nanosecond counts of a
    library outside the repository: a time is its [nanoseconds()], and the
    arithmetic the code uses is a parameter.  [None] is a thrown exception. *)
Class RclTime := {
  time_diff : Z -> Z -> option Z;      (* Time - Time, in nanoseconds *)
  time_minus : Z -> Z -> option Z;     (* Time - Duration *)
  time_plus : Z -> Z -> option Z;      (* Time + Duration *)
  from_seconds : Z -> Z                (* Duration::from_seconds *)
}.

(** What the code relies on: the operators are exact while the result fits. *)
Class RclTimeSpec `{RclTime} := {
  time_diff_exact a b : int64 a -> int64 b -> int64 (a - b) -> time_diff a b = Some (a - b);
  time_minus_exact a b : int64 a -> int64 b -> int64 (a - b) -> time_minus a b = Some (a - b);
  time_plus_exact a b : int64 a -> int64 b -> int64 (a + b) -> time_plus a b = Some (a + b);
  from_seconds_exact s : int32_min <= s <= int32_max -> from_seconds s = s * ns_per_s
}.

(** A concrete clock library, used to run the model. *)
Definition checked (z : Z) : option Z := if int64b z then Some z else None.

#[export] Instance checked_time : RclTime := {
  time_diff a b := checked (a - b);
  time_minus a b := checked (a - b);
  time_plus a b := checked (a + b);
  from_seconds s := s * ns_per_s
}.

(** Times that come from a message header: non-negative 32-bit seconds plus
    32-bit nanoseconds. *)
Definition stamp_max : Z := int32_max * ns_per_s + uint32_max.
Definition valid_stamp (t : Z) : Prop := 0 <= t <= stamp_max.

(** ** Queues ordered by a key *)

Section ordered.
Context {A : Type} (key : A -> Z).

Definition key_le (a b : A) : Prop := key a <= key b.

(** [std::upper_bound] on a range ordered by [key]. *)
Fixpoint upper_bound (v : Z) (l : list A) : nat :=
  match l with
  | [] => O
  | x :: l' => if v <? key x then O else S (upper_bound v l')
  end.

(** [container.insert(begin + i, x)]. *)
Definition insert_at (i : nat) (x : A) (l : list A) : list A := take i l ++ x :: drop i l.

Definition insert_by_key (x : A) (l : list A) : list A :=
  match last l with
  | None => l ++ [x]
  | Some b => if key b <=? key x then l ++ [x] else insert_at (upper_bound (key x) l) x l
  end.

End ordered.

(** ** Automation *)

Create HintDb datacache discriminated.

(** Inversion of bindings that produced a value. *)
Ltac res_inv :=
  repeat match goal with
  | H : Err _ = Ok _ |- _ => discriminate H
  | H : Ok _ = Err _ |- _ => discriminate H
  | H : Ok _ = Ok _ |- _ => injection H as H
  | H : mbind _ ?m = Ok _ |- _ =>
      let E := fresh "E" in destruct m eqn:E; simpl in H; [| discriminate H]
  | H : throwing ?o = Ok _ |- _ =>
      let E := fresh "E" in destruct o eqn:E; simpl in H; [| discriminate H]
  end; simplify_eq.

(** Rewriting the goal with what the bindings of the context evaluate to. *)
Ltac res_simpl :=
  repeat match goal with
  | H : ?m = Ok _ |- context [ mbind _ ?m ] => rewrite H; simpl
  | H : ?o = Some _ |- context [ throwing ?o ] => rewrite H; simpl
  end.

(** Turn boolean comparisons in the context into propositions. *)
Ltac bool_to_prop :=
  repeat match goal with
  | H : _ && _ = true |- _ => apply andb_prop in H as [? ?]
  | H : _ || _ = false |- _ => apply orb_false_elim in H as [? ?]
  | H : negb _ = true |- _ => apply negb_true_iff in H
  | H : negb _ = false |- _ => apply negb_false_iff in H
  | H : (_ <? _) = true |- _ => apply Z.ltb_lt in H
  | H : (_ <? _) = false |- _ => apply Z.ltb_ge in H
  | H : (_ <=? _) = true |- _ => apply Z.leb_le in H
  | H : (_ <=? _) = false |- _ => apply Z.leb_gt in H
  | H : (_ >? _) = true |- _ => rewrite Z.gtb_lt in H
  | H : (_ >? _) = false |- _ => rewrite Z.gtb_ltb in H; apply Z.ltb_ge in H
  | H : (_ >=? _) = true |- _ => rewrite Z.geb_le in H
  | H : (_ >=? _) = false |- _ => rewrite Z.geb_leb in H; apply Z.leb_gt in H
  | H : (_ =? _) = true |- _ => apply Z.eqb_eq in H
  | H : (_ =? _) = false |- _ => apply Z.eqb_neq in H
  | H : Is_true _ |- _ => apply Is_true_true in H
  end.

(** ** Loops *)

Section loops.
Context {S : Type} (cond : S -> bool) (body : S -> res S).

(** A loop whose body keeps [I] and decreases [m] ends within [m s] rounds,
    in a state where [I] holds and the condition is false. *)
Lemma while_total (I : S -> Prop) (m : S -> nat) :
  (forall s, I s -> cond s = true ->
     exists s', body s = Ok s' /\ I s' /\ (m s' < m s)%nat) ->
  forall fuel s, I s -> (m s <= fuel)%nat ->
  exists s', while fuel cond body s = Ok s' /\ I s' /\ cond s' = false.
Proof.
  intros Hstep fuel. induction fuel as [|fuel IH]; intros s HI Hm; simpl;
    destruct (cond s) eqn:Hc; eauto.
  - destruct (Hstep s HI Hc) as (s' & _ & _ & ?). lia.
  - destruct (Hstep s HI Hc) as (s' & -> & HI' & ?). simpl. apply IH; [done|lia].
Qed.

(** Relating the state a loop starts from to the state it ends in. *)
Lemma while_rel (P : S -> S -> Prop) :
  (forall s, cond s = false -> P s s) ->
  (forall s s' t, cond s = true -> body s = Ok s' -> P s' t -> P s t) ->
  forall fuel s t, while fuel cond body s = Ok t -> P s t.
Proof.
  intros Hdone Hstep fuel. induction fuel as [|fuel IH]; intros s t; simpl;
    destruct (cond s) eqn:Hc; intros H; res_inv; eauto.
Qed.

(** Unfolding one round. *)
Lemma while_step fuel s s' :
  cond s = true -> body s = Ok s' ->
  while (Datatypes.S fuel) cond body s = while fuel cond body s'.
Proof. intros Hc Hb. simpl. by rewrite Hc, Hb. Qed.

Lemma while_done fuel s : cond s = false -> while fuel cond body s = Ok s.
Proof. intros Hc. destruct fuel; simpl; by rewrite Hc. Qed.

Lemma while_exit fuel s t : while fuel cond body s = Ok t -> cond t = false.
Proof. apply (while_rel (fun _ t => cond t = false)); auto. Qed.

End loops.

Lemma select_acc {A} (cond : A -> bool) l acc :
  fold_left (fun result x => if cond x then result ++ [x] else result) l acc =
    acc ++ List.filter cond l.
Proof.
  revert acc. induction l as [|x l IH]; intros acc; simpl; [by rewrite app_nil_r|].
  rewrite IH. destruct (cond x); [|done]. by rewrite <- (assoc_L (++)).
Qed.

Lemma select_filter {A} (cond : A -> bool) l : select cond l = List.filter cond l.
Proof. unfold select. by rewrite select_acc. Qed.

#[export] Instance List_filter_perm {A} (cond : A -> bool) :
  Proper (Permutation ==> Permutation) (List.filter cond).
Proof.
  induction 1 as [|x l l' _ IH|x y l|l l' l'' _ IH1 _ IH2]; simpl; [done|..].
  - destruct (cond x); [by rewrite IH|done].
  - destruct (cond x), (cond y); try done. apply perm_swap.
  - by rewrite IH1.
Qed.

(** What is selected from a table under distinct keys is distinct. *)
Lemma NoDup_omap_keys {K V B} (f : K * V -> option B) (l : list (K * V)) :
  NoDup l.*1 -> (forall e1 e2 y, f e1 = Some y -> f e2 = Some y -> e1.1 = e2.1) ->
  NoDup (omap f l).
Proof.
  intros Hnd Hf. induction l as [|e l IH]; [constructor|].
  apply NoDup_cons in Hnd as [He Hl]. csimpl. destruct (f e) as [y|] eqn:E; [|by apply IH].
  constructor; [|by apply IH]. rewrite list_elem_of_omap. intros (e' & Hin & E').
  apply He. rewrite (Hf e e' y E E'). apply list_elem_of_fmap. by exists e'.
Qed.

Lemma elem_of_select {A} (cond : A -> bool) l x :
  x ∈ select cond l <-> x ∈ l /\ cond x = true.
Proof. rewrite select_filter, !list_elem_of_In. apply filter_In. Qed.

(** Popping the front while the size exceeds a bound keeps the last elements. *)
Lemma pop_while_size {A} (bound : Z) (l : list A) :
  0 <= bound ->
  while (length l) (fun r => bound <? Z.of_nat (length r)) pop_front l =
    Ok (drop (length l - Z.to_nat bound) l).
Proof.
  intros Hb.
  assert (Hgen : forall fuel (r : list A), (length r <= fuel)%nat ->
    while fuel (fun r => bound <? Z.of_nat (length r)) pop_front r =
      Ok (drop (length r - Z.to_nat bound) r)); [|by apply Hgen].
  induction fuel as [|fuel IH]; intros r Hr.
  - destruct r; simpl in *; [|lia]. by destruct (Z.ltb_spec bound (Z.of_nat 0)); [lia|].
  - simpl. destruct (Z.ltb_spec bound (Z.of_nat (length r))) as [Hlt|Hge].
    + destruct r as [|x r]; simpl in *; [lia|]. rewrite IH by lia.
      replace (S (length r) - Z.to_nat bound)%nat
        with (S (length r - Z.to_nat bound)) by lia. done.
    + by replace (length r - Z.to_nat bound)%nat with 0%nat by lia.
Qed.

Lemma drop_seqZ n a m :
  drop n (seqZ a (Z.of_nat m)) = seqZ (a + Z.of_nat n) (Z.of_nat (m - n)).
Proof.
  revert a m. induction n as [|n IH]; intros a [|m].
  - done.
  - rewrite drop_0. f_equal; lia.
  - done.
  - rewrite seqZ_cons by lia. simpl drop. replace (Z.pred (Z.of_nat (S m))) with (Z.of_nat m) by lia.
    rewrite IH. f_equal; lia.
Qed.

(** ** Ordered queues *)

Section ordered_lemmas.
Context {A : Type} (key : A -> Z).
Abbreviation sorted := (StronglySorted (key_le key)).

Lemma upper_bound_spec v l :
  sorted l ->
  take (upper_bound key v l) l = filter (fun y => key y <= v) l /\
  drop (upper_bound key v l) l = filter (fun y => v < key y) l.
Proof.
  induction 1 as [|x l Hs IH Hx]; [done|]. simpl.
  destruct (Z.ltb_spec v (key x)).
  - rewrite !filter_cons, decide_False, decide_True by lia. simpl.
    assert (Hall : Forall (fun y => v < key y) l).
    { eapply Forall_impl; [exact Hx|]. unfold key_le. intros; lia. }
    split.
    + symmetry. clear -Hall. induction Hall; [done|].
      rewrite filter_cons, decide_False by lia. done.
    + f_equal. symmetry. clear -Hall. induction Hall; [done|].
      rewrite filter_cons, decide_True by lia. by f_equal.
  - rewrite !filter_cons, decide_True, decide_False by lia. simpl.
    destruct IH as [-> ->]. done.
Qed.

Lemma sorted_last l b x : sorted l -> last l = Some b -> x ∈ l -> key x <= key b.
Proof.
  intros Hs Hl Hx. apply last_Some in Hl as [l' ->].
  induction l' as [|y l' IH]; simpl in *.
  - apply list_elem_of_singleton in Hx as ->. lia.
  - inversion_clear Hs as [|?? Hs' Hy]. rewrite Forall_forall in Hy.
    apply elem_of_cons in Hx as [->|Hx]; [|auto]. apply Hy. set_solver.
Qed.

(** Insertion keeps what is at most the new key before it, in order, and what
    is larger after it: equal keys stay in arrival order. *)
Lemma insert_by_key_spec x l :
  sorted l ->
  insert_by_key key x l =
    filter (fun y => key y <= key x) l ++ x :: filter (fun y => key x < key y) l.
Proof.
  intros Hs. unfold insert_by_key, insert_at.
  destruct (upper_bound_spec (key x) l Hs) as [Ht Hd]. rewrite Ht, Hd.
  destruct (last l) as [b|] eqn:Hl.
  - destruct (Z.leb_spec (key b) (key x)); [|done].
    assert (Hall : Forall (fun y => key y <= key x) l).
    { apply Forall_forall. intros y Hy. pose proof (sorted_last l b y Hs Hl Hy). lia. }
    clear -Hall. induction Hall; simpl; [done|].
    rewrite !filter_cons, decide_True, decide_False by lia. simpl. by f_equal.
  - by apply last_None in Hl as ->.
Qed.

Lemma insert_by_key_perm x l : insert_by_key key x l ≡ₚ x :: l.
Proof.
  assert (Hat : forall i, insert_at i x l ≡ₚ x :: l).
  { intros i. unfold insert_at. rewrite <- Permutation_middle. by rewrite take_drop. }
  unfold insert_by_key. destruct (last l); [case_match; [|apply Hat]|];
    by rewrite Permutation_app_comm.
Qed.

Lemma sorted_filter (P : A -> Prop) `{!forall x, Decision (P x)} l :
  sorted l -> sorted (filter P l).
Proof.
  induction 1 as [|x l Hs IH Hx]; [constructor|]. rewrite filter_cons.
  case_decide; [|done]. constructor; [done|].
  apply Forall_forall. intros y Hy. apply list_elem_of_filter in Hy as [_ Hy].
  rewrite Forall_forall in Hx. auto.
Qed.

Lemma sorted_app l1 l2 :
  sorted l1 -> sorted l2 -> (forall x y, x ∈ l1 -> y ∈ l2 -> key x <= key y) ->
  sorted (l1 ++ l2).
Proof.
  induction 1 as [|x l1 Hs IH Hx]; intros H2 H12; simpl; [done|].
  constructor; [apply IH; set_solver|].
  apply Forall_app. split; [done|]. apply Forall_forall. intros y Hy.
  apply H12; set_solver.
Qed.

Lemma sorted_tail x l : sorted (x :: l) -> sorted l.
Proof. by inversion 1. Qed.

Lemma sorted_drop n l : sorted l -> sorted (drop n l).
Proof.
  intros Hs. revert n. induction Hs as [|x l Hs IH Hx]; intros [|n]; simpl; try constructor; auto.
Qed.

Lemma sorted_head x l y : sorted (x :: l) -> y ∈ l -> key x <= key y.
Proof. inversion_clear 1 as [|?? ? Hx]. rewrite Forall_forall in Hx. apply Hx. Qed.

Lemma insert_by_key_sorted x l : sorted l -> sorted (insert_by_key key x l).
Proof.
  intros Hs. rewrite insert_by_key_spec by done.
  apply sorted_app; [by apply sorted_filter| |].
  - constructor; [by apply sorted_filter|].
    apply Forall_forall. intros y Hy. apply list_elem_of_filter in Hy as [? _].
    unfold key_le. lia.
  - intros y z Hy Hz. apply list_elem_of_filter in Hy as [? _].
    apply elem_of_cons in Hz as [->|Hz]; [done|].
    apply list_elem_of_filter in Hz as [? _]. lia.
Qed.

Lemma insert_by_key_length x l : length (insert_by_key key x l) = S (length l).
Proof. by rewrite insert_by_key_perm. Qed.

Lemma insert_by_key_Forall (P : A -> Prop) x l :
  P x -> Forall P l -> Forall P (insert_by_key key x l).
Proof. intros. rewrite insert_by_key_perm. by constructor. Qed.

End ordered_lemmas.

#[export] Hint Resolve insert_by_key_sorted insert_by_key_Forall sorted_tail sorted_drop : datacache.

(** ** Integers *)

Lemma u64_small z : 0 <= z < 2 ^ 64 -> u64 z = z.
Proof. apply Z.mod_small. Qed.

Lemma int64b_spec z : int64b z = true <-> int64 z.
Proof. unfold int64b, int64. rewrite andb_true_iff, !Z.leb_le. done. Qed.

Lemma checked_in z : int64 z -> checked z = Some z.
Proof. intros H. unfold checked. by rewrite (proj2 (int64b_spec z) H). Qed.

#[export] Instance checked_time_spec : RclTimeSpec.
Proof. split; intros; [by apply checked_in..|done]. Qed.

Ltac unfold_int64 :=
  unfold valid_stamp, stamp_max, int64, uint64, int64_min, int64_max, uint64_max, int32_min,
    int32_max, uint32_max, ns_per_s, ns_per_ms in *.

(** The difference of two header stamps never overflows. *)
Lemma stamp_diff `{RclTimeSpec} a b :
  valid_stamp a -> valid_stamp b -> time_diff a b = Some (a - b).
Proof. intros Ha Hb. apply time_diff_exact; unfold_int64; lia. Qed.

Lemma stamp_minus `{RclTimeSpec} a d :
  valid_stamp a -> 0 <= d <= int32_max * ns_per_s -> time_minus a d = Some (a - d).
Proof. intros Ha Hd. apply time_minus_exact; unfold_int64; lia. Qed.

Lemma stamp_plus `{RclTimeSpec} a d :
  valid_stamp a -> 0 <= d <= int32_max * ns_per_s -> time_plus a d = Some (a + d).
Proof. intros Ha Hd. apply time_plus_exact; unfold_int64; lia. Qed.
