(* ===== verification/Text.v ===== *)
(** * Text: the parts of the C++ string library the program uses

    [std::string] is a Coq string, a sequence of bytes.  Character classes are
    those of the "C" locale. *)

From S2P Require Import Prelude.
From Stdlib Require Export Ascii.

(** Let [simpl] unfold concatenation on a constructor. *)
#[global] Arguments String.append !s1 s2 : simpl nomatch.

(** ** Characters *)

Definition LF : ascii := "010"%char.
Definition CR : ascii := "013"%char.

Definition code (c : ascii) : N := N_of_ascii c.

(** [std::isspace], [std::isalnum], [std::toupper]. *)
Definition isspace (c : ascii) : bool :=
  (code c =? 32)%N || ((9 <=? code c)%N && (code c <=? 13)%N).
Definition isdigit (c : ascii) : bool := (48 <=? code c)%N && (code c <=? 57)%N.
Definition isupper (c : ascii) : bool := (65 <=? code c)%N && (code c <=? 90)%N.
Definition islower (c : ascii) : bool := (97 <=? code c)%N && (code c <=? 122)%N.
Definition isalnum (c : ascii) : bool := isdigit c || isupper c || islower c.
Definition toupper (c : ascii) : ascii :=
  if islower c then ascii_of_N (code c - 32) else c.

(** ** Searching and cutting *)

Fixpoint str_all (p : ascii -> bool) (s : string) : bool :=
  match s with EmptyString => true | String c s' => p c && str_all p s' end.

Definition str_any (p : ascii -> bool) (s : string) : bool := negb (str_all (fun c => negb (p c)) s).

Definition has_char (c : ascii) : string -> bool := str_any (Ascii.eqb c).

Fixpoint str_map (f : ascii -> ascii) (s : string) : string :=
  match s with EmptyString => EmptyString | String c s' => String (f c) (str_map f s') end.

(** [find(c)] with the two [substr] around it; [None] is [npos]. *)
Fixpoint cut_at (c : ascii) (s : string) : option (string * string) :=
  match s with
  | EmptyString => None
  | String x s' =>
      if Ascii.eqb x c then Some (EmptyString, s')
      else (fun p => (String x p.1, p.2)) <$> cut_at c s'
  end.

(** The pieces between the occurrences of [c]; there is always at least one. *)
Fixpoint split_on (c : ascii) (s : string) : list string :=
  match s with
  | EmptyString => [EmptyString]
  | String x s' =>
      if Ascii.eqb x c then EmptyString :: split_on c s'
      else match split_on c s' with
           | [] => [String x EmptyString]
           | piece :: pieces => String x piece :: pieces
           end
  end.

(** The lines [std::getline] reads from a stream, to the end of it. *)
Fixpoint lines (s : string) : list string :=
  match s with
  | EmptyString => []
  | String x s' =>
      if Ascii.eqb x LF then EmptyString :: lines s'
      else match lines s' with
           | [] => [String x EmptyString]
           | line :: rest => String x line :: rest
           end
  end.

(** Without the leading and trailing characters of a class. *)
Fixpoint strip_left (p : ascii -> bool) (s : string) : string :=
  match s with
  | EmptyString => EmptyString
  | String c s' => if p c then strip_left p s' else s
  end.

Fixpoint strip_right (p : ascii -> bool) (s : string) : string :=
  match s with
  | EmptyString => EmptyString
  | String c s' =>
      match strip_right p s' with
      | EmptyString => if p c then EmptyString else String c EmptyString
      | r => String c r
      end
  end.

Definition strip (p : ascii -> bool) (s : string) : string := strip_right p (strip_left p s).

Fixpoint str_last (s : string) : option ascii :=
  match s with
  | EmptyString => None
  | String c EmptyString => Some c
  | String _ s' => str_last s'
  end.

Definition str_front (s : string) : option ascii :=
  match s with EmptyString => None | String c _ => Some c end.

Definition str_starts (p s : string) : bool := String.prefix p s.

(** ** Numerals *)

(** [std::to_string] of an integer. *)
Definition to_string (z : Z) : string := pretty z.

Definition digit (c : ascii) : Z := Z.of_N (code c) - 48.

(** The digits at the front: their value after [acc] and how many there are. *)
Fixpoint read_digits (acc : Z) (s : string) : Z * nat :=
  match s with
  | EmptyString => (acc, O)
  | String c s' =>
      if isdigit c then
        let '(v, n) := read_digits (10 * acc + digit c) s' in (v, S n)
      else (acc, O)
  end.

(** [strtoll]/[strtoull] in base ten: white space, an optional sign, digits;
    the sign, the magnitude and the number of characters consumed. *)
Definition strto (s : string) : option (bool * Z * nat) :=
  let rest := strip_left isspace s in
  let skipped := (String.length s - String.length rest)%nat in
  let '(negative, signs, body) :=
    match rest with
    | String c s' =>
        if Ascii.eqb c "-" then (true, 1%nat, s')
        else if Ascii.eqb c "+" then (false, 1%nat, s') else (false, 0%nat, rest)
    | EmptyString => (false, 0%nat, rest)
    end in
  let '(v, n) := read_digits 0 body in
  if (n =? 0)%nat then None else Some (negative, v, (skipped + signs + n)%nat).

(** [std::stoll(text, &consumed)] and [std::stoi]: [None] is
    [std::invalid_argument] or [std::out_of_range]. *)
Definition stoll (s : string) : option (Z * nat) :=
  '(negative, v, n) ← strto s;
  let z := if negative : bool then - v else v in
  if int64b z then Some (z, n) else None.

Definition stoi (s : string) : option (Z * nat) :=
  '(z, n) ← stoll s;
  if (int32_min <=? z) && (z <=? int32_max) then Some (z, n) else None.

(** [std::stoull]: a minus sign is accepted and negates modulo 2^64. *)
Definition stoull (s : string) : option (Z * nat) :=
  '(negative, v, n) ← strto s;
  if v <=? uint64_max then Some (if negative : bool then u64 (- v) else v, n) else None.

(** ** Lemmas *)

Lemma str_all_app p s t : str_all p (s +:+ t) = str_all p s && str_all p t.
Proof. induction s as [|c s IH]; simpl; [done|]. by rewrite IH, andb_assoc. Qed.

Lemma str_all_impl (p q : ascii -> bool) s :
  (forall c, p c = true -> q c = true) -> str_all p s = true -> str_all q s = true.
Proof.
  intros Hpq. induction s as [|c s IH]; simpl; [done|]. rewrite !andb_true_iff. naive_solver.
Qed.

(** [c] does not occur in [s]. *)
Definition lacks (c : ascii) (s : string) : Prop := str_all (fun x => negb (Ascii.eqb x c)) s = true.

Lemma lacks_cons c x s : lacks c (String x s) <-> x <> c /\ lacks c s.
Proof.
  unfold lacks. simpl. rewrite andb_true_iff, negb_true_iff, Ascii.eqb_neq. done.
Qed.

Lemma lacks_app c s t : lacks c (s +:+ t) <-> lacks c s /\ lacks c t.
Proof. unfold lacks. by rewrite str_all_app, andb_true_iff. Qed.

Lemma lacks_of_class p c s : p c = false -> str_all p s = true -> lacks c s.
Proof.
  intros Hc. apply str_all_impl. intros x Hx. apply negb_true_iff, Ascii.eqb_neq. congruence.
Qed.

Lemma app_assoc_str (a b c : string) : (a +:+ b) +:+ c = a +:+ (b +:+ c).
Proof. induction a as [|x a IH]; simpl; [done|]. by rewrite IH. Qed.

Lemma app_nil_r_str (a : string) : a +:+ "" = a.
Proof. induction a as [|x a IH]; simpl; [done|]. by rewrite IH. Qed.

Lemma length_app_str (a b : string) :
  String.length (a +:+ b) = (String.length a + String.length b)%nat.
Proof. induction a; simpl; auto. Qed.

Lemma cut_at_app c a b : lacks c a -> cut_at c (a +:+ String c b) = Some (a, b).
Proof.
  induction a as [|x a IH]; simpl.
  - by rewrite Ascii.eqb_refl.
  - intros [Hx Ha]%lacks_cons. apply Ascii.eqb_neq in Hx. rewrite Hx, IH by done. done.
Qed.

Lemma cut_at_none c a : lacks c a -> cut_at c a = None.
Proof.
  induction a as [|x a IH]; simpl; [done|].
  intros [Hx Ha]%lacks_cons. apply Ascii.eqb_neq in Hx. rewrite Hx, IH by done. done.
Qed.

Lemma split_on_lacks c a : lacks c a -> split_on c a = [a].
Proof.
  induction a as [|x a IH]; simpl; [done|].
  intros [Hx Ha]%lacks_cons. apply Ascii.eqb_neq in Hx. rewrite Hx, IH by done. done.
Qed.

Lemma split_on_app c a b : lacks c a -> split_on c (a +:+ String c b) = a :: split_on c b.
Proof.
  induction a as [|x a IH]; simpl.
  - by rewrite Ascii.eqb_refl.
  - intros [Hx Ha]%lacks_cons. apply Ascii.eqb_neq in Hx. rewrite Hx, IH by done. done.
Qed.

Lemma split_on_pieces c s piece : piece ∈ split_on c s -> lacks c piece.
Proof.
  revert piece. induction s as [|x s IH]; intros piece; simpl.
  - intros ->%list_elem_of_singleton. done.
  - destruct (Ascii.eqb x c) eqn:E.
    + intros [->|?]%elem_of_cons; [done|auto].
    + apply Ascii.eqb_neq in E. destruct (split_on c s) as [|p ps] eqn:Es.
      * intros ->%list_elem_of_singleton. by apply lacks_cons.
      * intros [->|?]%elem_of_cons; [apply lacks_cons; split; [done|apply IH; set_solver]|].
        apply IH. set_solver.
Qed.

Lemma lines_app a b : lacks LF a -> lines (a +:+ String LF b) = a :: lines b.
Proof.
  induction a as [|x a IH]; simpl; [done|].
  intros [Hx Ha]%lacks_cons. apply Ascii.eqb_neq in Hx. rewrite Hx, IH by done. done.
Qed.

(** [lines] of a text made of terminated lines. *)
Definition unlines (ls : list string) : string :=
  foldr (fun l s => l +:+ String LF s) "" ls.

Lemma lines_unlines_app ls s : Forall (lacks LF) ls -> lines (unlines ls +:+ s) = ls ++ lines s.
Proof.
  induction 1 as [|l ls Hl Hls IH]; [done|]. simpl. rewrite app_assoc_str. simpl.
  rewrite lines_app by done. by rewrite IH.
Qed.

Lemma lines_unlines ls : Forall (lacks LF) ls -> lines (unlines ls) = ls.
Proof.
  intros Hls. rewrite <- (app_nil_r_str (unlines ls)), lines_unlines_app by done.
  apply app_nil_r.
Qed.

Lemma unlines_app ls ls' : unlines (ls ++ ls') = unlines ls +:+ unlines ls'.
Proof. induction ls as [|l ls IH]; simpl; [done|]. by rewrite IH, app_assoc_str. Qed.

Lemma strip_left_id p s : str_all (fun c => negb (p c)) s = true -> strip_left p s = s.
Proof. destruct s as [|c s]; simpl; [done|]. by destruct (p c). Qed.

Lemma strip_right_id p s : str_all (fun c => negb (p c)) s = true -> strip_right p s = s.
Proof.
  induction s as [|c s IH]; simpl; [done|]. rewrite andb_true_iff, negb_true_iff.
  intros [Hc Hs]. rewrite IH by done. destruct s; [by rewrite Hc|done].
Qed.

Lemma strip_id p s : str_all (fun c => negb (p c)) s = true -> strip p s = s.
Proof. intros Hs. unfold strip. by rewrite strip_left_id, strip_right_id. Qed.

(** ** Numerals round-trip *)

Fixpoint digits_value (acc : Z) (s : string) : Z :=
  match s with EmptyString => acc | String c s' => digits_value (10 * acc + digit c) s' end.

Lemma read_digits_all acc s :
  str_all isdigit s = true -> read_digits acc s = (digits_value acc s, String.length s).
Proof.
  revert acc. induction s as [|c s IH]; intros acc; simpl; [done|].
  intros [Hc Hs]%andb_true_iff. by rewrite Hc, IH.
Qed.

Lemma pretty_N_char_digit x :
  (x < 10)%N -> isdigit (pretty_N_char x) = true /\ digit (pretty_N_char x) = Z.of_N x.
Proof.
  intros Hx.
  assert (x = 0 \/ x = 1 \/ x = 2 \/ x = 3 \/ x = 4 \/ x = 5 \/ x = 6 \/ x = 7 \/ x = 8 \/ x = 9)%N
    as Hcases by lia.
  repeat (destruct Hcases as [->|Hcases]; [vm_compute; done|]). subst. vm_compute. done.
Qed.

Lemma pretty_N_go_spec x s :
  str_all isdigit (pretty_N_go x s) = str_all isdigit s /\
  digits_value 0 (pretty_N_go x s) = digits_value (Z.of_N x) s /\
  (pretty_N_go x s <> "" \/ x = 0%N).
Proof.
  revert s. induction (N.lt_wf_0 x) as [x _ IH]; intros s.
  destruct (decide (x = 0)%N) as [->|Hx]; [by rewrite pretty_N_go_0; auto|].
  rewrite pretty_N_go_step by lia.
  destruct (pretty_N_char_digit (x mod 10)) as [Hd Hv]; [by apply N.mod_lt|].
  destruct (IH (x `div` 10)%N) with (s := String (pretty_N_char (x `mod` 10)) s)
    as (E1 & E2 & E3); [by apply N.div_lt; lia|].
  split; [rewrite E1; simpl; by rewrite Hd|]. split.
  - rewrite E2. simpl. rewrite Hv. f_equal. rewrite (N.div_mod x 10) at 3 by done. lia.
  - left. destruct E3 as [|E3]; [done|]. by rewrite E3, pretty_N_go_0.
Qed.

Lemma to_string_nonneg z :
  0 <= z ->
  str_all isdigit (to_string z) = true /\ digits_value 0 (to_string z) = z /\ to_string z <> "".
Proof.
  intros Hz. unfold to_string, pretty, pretty_Z. destruct z as [|p|p]; [by vm_compute| |lia].
  unfold pretty, pretty_positive, pretty, pretty_N. case_decide; [done|].
  destruct (pretty_N_go_spec (N.pos p) "") as (E1 & E2 & E3).
  split; [done|]. split; [by rewrite E2|]. by destruct E3.
Qed.

Lemma to_string_neg z : z < 0 -> to_string z = "-" +:+ to_string (- z).
Proof. by destruct z. Qed.

Lemma isdigit_not_space c : isdigit c = true -> isspace c = false.
Proof. unfold isdigit, isspace. lia. Qed.

Lemma isdigit_not_sign c : isdigit c = true -> Ascii.eqb c "-" = false /\ Ascii.eqb c "+" = false.
Proof.
  intros Hc. split; apply Ascii.eqb_neq; intros ->; by vm_compute in Hc.
Qed.

Lemma strto_digits s :
  str_all isdigit s = true -> s <> "" ->
  strto s = Some (false, digits_value 0 s, String.length s).
Proof.
  intros Hs Hne. unfold strto. destruct s as [|c s]; [done|].
  pose proof Hs as [Hc _]%andb_true_iff.
  simpl strip_left. rewrite (isdigit_not_space c Hc). destruct (isdigit_not_sign c Hc) as [-> ->].
  rewrite read_digits_all by done. simpl. by rewrite Nat.sub_diag.
Qed.

Lemma strto_minus_digits s :
  str_all isdigit s = true -> s <> "" ->
  strto ("-" +:+ s) = Some (true, digits_value 0 s, S (String.length s)).
Proof.
  intros Hs Hne. change ("-" +:+ s) with (String "-" s). unfold strto.
  change (strip_left isspace (String "-" s)) with (String "-" s). cbv iota zeta beta.
  change (Ascii.eqb "-" "-") with true. cbv iota zeta beta.
  rewrite read_digits_all by done. destruct s; [done|]. simpl. by rewrite Nat.sub_diag.
Qed.

Lemma strto_to_string z :
  strto (to_string z) = Some (z <? 0, Z.abs z, String.length (to_string z)).
Proof.
  destruct (Z.ltb_spec z 0) as [Hz|Hz].
  - destruct (to_string_nonneg (- z)) as (H1 & H2 & H3); [lia|].
    rewrite to_string_neg, strto_minus_digits, H2 by done. by replace (- z) with (Z.abs z) by lia.
  - destruct (to_string_nonneg z) as (H1 & H2 & H3); [done|].
    rewrite strto_digits, H2 by done. by rewrite Z.abs_eq.
Qed.

Lemma stoll_to_string z : int64 z -> stoll (to_string z) = Some (z, String.length (to_string z)).
Proof.
  intros Hz. unfold stoll. rewrite strto_to_string. simpl.
  replace (if z <? 0 then - Z.abs z else Z.abs z) with z by (destruct (Z.ltb_spec z 0); lia).
  by rewrite (proj2 (int64b_spec z) Hz).
Qed.

Lemma stoi_to_string z :
  int32_min <= z <= int32_max -> stoi (to_string z) = Some (z, String.length (to_string z)).
Proof.
  intros Hz. unfold stoi. rewrite stoll_to_string by (unfold_int64; lia). simpl.
  by replace ((int32_min <=? z) && (z <=? int32_max)) with true by lia.
Qed.

Lemma stoull_to_string z :
  0 <= z <= uint64_max -> stoull (to_string z) = Some (z, String.length (to_string z)).
Proof.
  intros Hz. unfold stoull. rewrite strto_to_string. simpl.
  replace (z <? 0) with false by lia. rewrite Z.abs_eq by lia.
  by replace (z <=? uint64_max) with true by lia.
Qed.

(** A numeral has only digits and possibly a minus sign in front. *)
Lemma to_string_chars z :
  str_all (fun c => isdigit c || Ascii.eqb c "-") (to_string z) = true.
Proof.
  destruct (Z.lt_ge_cases z 0) as [Hz|Hz].
  - destruct (to_string_nonneg (- z)) as (H1 & _); [lia|]. rewrite to_string_neg by done.
    rewrite str_all_app, andb_true_iff. split; [done|].
    eapply str_all_impl; [|exact H1]. by intros c ->.
  - destruct (to_string_nonneg z) as (H1 & _); [done|].
    eapply str_all_impl; [|exact H1]. by intros c ->.
Qed.

Lemma to_string_lacks c z : isdigit c || Ascii.eqb c "-" = false -> lacks c (to_string z).
Proof.
  intros Hc. apply (lacks_of_class (fun x => isdigit x || Ascii.eqb x "-")); [done|].
  apply to_string_chars.
Qed.

Lemma to_string_ne z : to_string z <> "".
Proof.
  destruct (Z.lt_ge_cases z 0) as [Hz|Hz]; [by rewrite to_string_neg|].
  by apply to_string_nonneg.
Qed.

Lemma to_string_inj i j : 0 <= i -> 0 <= j -> to_string i = to_string j -> i = j.
Proof.
  intros Hi Hj E. destruct (to_string_nonneg i Hi) as (_ & <- & _).
  destruct (to_string_nonneg j Hj) as (_ & <- & _). by rewrite E.
Qed.

(** ** The last occurrence of a character *)

(** [find_last_of] and the two parts around it. *)
Fixpoint cut_last (c : ascii) (s : string) : option (string * string) :=
  match s with
  | EmptyString => None
  | String x s' =>
      match cut_last c s' with
      | Some (a, b) => Some (String x a, b)
      | None => if Ascii.eqb x c then Some (EmptyString, s') else None
      end
  end.

Lemma cut_last_none c s : lacks c s <-> cut_last c s = None.
Proof.
  induction s as [|x s IH]; [done|]. rewrite lacks_cons, IH. simpl.
  destruct (cut_last c s) as [[]|]; [naive_solver|]. destruct (Ascii.eqb_spec x c); naive_solver.
Qed.

Lemma cut_last_app c a b : lacks c b -> cut_last c (a +:+ String c b) = Some (a, b).
Proof.
  intros Hb%cut_last_none. induction a as [|x a IH]; simpl; [by rewrite Hb, Ascii.eqb_refl|].
  by rewrite IH.
Qed.

Lemma cut_last_Some c s a b : cut_last c s = Some (a, b) -> s = a +:+ String c b /\ lacks c b.
Proof.
  revert a. induction s as [|x s IH]; intros a; simpl; [done|].
  destruct (cut_last c s) as [[a' b']|] eqn:E.
  - intros [= <- ->]. by destruct (IH a' eq_refl) as [-> Hl].
  - destruct (Ascii.eqb_spec x c) as [->|]; [|done]. intros [= <- <-].
    split; [done|by apply cut_last_none].
Qed.

(** ** Parts of a string *)

Lemma substring_all s : String.substring 0 (String.length s) s = s.
Proof. induction s as [|c s IH]; simpl; [done|]. by rewrite IH. Qed.

Lemma length_substring n m s :
  (n + m <= String.length s)%nat -> String.length (String.substring n m s) = m.
Proof.
  revert n m. induction s as [|c s IH]; intros [|n] [|m] Hl; simpl in *; try lia; try done.
  - by rewrite IH by lia.
  - apply IH. lia.
  - apply IH. lia.
Qed.

Lemma substring_length n m s :
  String.length (String.substring n m s) = Nat.min m (String.length s - n).
Proof.
  revert n m. induction s as [|c s IH]; intros [|n] [|m]; cbn [String.substring String.length];
    try rewrite IH; lia.
Qed.

Lemma substring_past n m s : (String.length s <= n)%nat -> String.substring n m s = "".
Proof.
  revert n m. induction s as [|c s IH]; intros [|n] [|m] Hn; simpl in *; try done; try lia; apply IH; lia.
Qed.

Lemma substring_split n m k s :
  String.substring n (m + k) s = String.substring n m s +:+ String.substring (n + m) k s.
Proof.
  revert n m. induction s as [|c s IH]; intros [|n] [|m]; simpl; try done.
  - f_equal. apply (IH 0%nat).
  - apply (IH n 0%nat).
  - apply (IH n (S m)).
Qed.

Lemma substring_nil n s : String.substring n 0 s = "".
Proof. revert n. induction s as [|c s IH]; intros [|n]; simpl; done. Qed.

Lemma substring_more n m k s :
  (String.length s <= n + m)%nat -> (m <= k)%nat -> String.substring n k s = String.substring n m s.
Proof.
  intros Hl Hk. replace k with (m + (k - m))%nat by lia.
  rewrite substring_split, (substring_past (n + m)) by lia. apply app_nil_r_str.
Qed.

(** Reading less than asked for, but to the end. *)
Lemma substring_cut n m k s :
  (Nat.min m (String.length s - n) <= k)%nat -> String.substring n (Nat.min k m) s = String.substring n m s.
Proof.
  intros Hk. destruct (Nat.le_gt_cases m k); [by rewrite Nat.min_r|].
  rewrite Nat.min_l by lia. symmetry. apply substring_more; lia.
Qed.

(** A number at the start of a line. *)
Lemma read_digits_line acc s rest :
  str_all isdigit s = true -> read_digits acc (s +:+ String LF rest) = (digits_value acc s, String.length s).
Proof.
  revert acc. induction s as [|c s IH]; intros acc; [done|].
  intros [Hc Hs]%andb_true_iff. change (String c s +:+ ?t) with (String c (s +:+ t)). simpl. by rewrite Hc, IH.
Qed.

Lemma stoll_line z rest : 0 <= z -> int64 z -> fst <$> stoll (to_string z +:+ String LF rest) = Some z.
Proof.
  intros Hz Hi. destruct (to_string_nonneg z Hz) as (Hd & Hv & Hne).
  destruct (to_string z) as [|c s]; [done|]. pose proof Hd as [Hc _]%andb_true_iff.
  unfold stoll, strto. change (String c s +:+ ?t) with (String c (s +:+ t)). cbn [strip_left].
  rewrite (isdigit_not_space c Hc). destruct (isdigit_not_sign c Hc) as [-> ->].
  change (String c (s +:+ ?t)) with (String c s +:+ t). rewrite read_digits_line, Hv by done.
  cbn. by rewrite (proj2 (int64b_spec z) Hi).
Qed.

(** The last character of a text with a suffix. *)
Lemma str_last_app a c s : str_last (a +:+ String c s) = str_last (String c s).
Proof.
  induction a as [|x a IH]; [done|]. simpl. destruct (a +:+ String c s) eqn:E; [|by rewrite IH].
  by destruct a.
Qed.
