(* ===== verification/SensorData.v ===== *)
(** * Sensor data ([include/data.hpp])

    The envelope [SensorData] pairs a sensor tag with a variant that carries the
    header time and a shared pointer to the message.  The message types are
    generated by ROS; the records below hold the fields the program reads. *)

From S2P Require Import Prelude.

(** [sensor_msgs::msg::Image]: [header.stamp] in nanoseconds, the unsigned 32-bit
    geometry, and the pixel bytes.  A stamp whose seconds are negative, which
    [rclcpp::Time] refuses with an exception, is a negative number. *)
Record Image := mkImage {
  image_stamp : Z;
  image_height : Z;
  image_width : Z;
  image_encoding : string;
  image_step : Z;
  image_data : string
}.

(** [sensor_msgs::msg::PointCloud2]; [cloud_fields] lists the names of its fields. *)
Record PointCloud2 := mkCloud {
  cloud_stamp : Z;
  cloud_height : Z;
  cloud_width : Z;
  cloud_fields : list string;
  cloud_point_step : Z;
  cloud_data : string
}.

(** A [SharedPtr] may be null. *)
Record CameraData := mkCamera { camera_timestamp : Z; camera_image : option Image }.
Record LidarData := mkLidar { lidar_timestamp : Z; lidar_cloud : option PointCloud2 }.

Inductive SensorType := CAMERA | LIDAR.

Inductive SensorDataVariant :=
| VCamera (c : CameraData)
| VLidar (l : LidarData).

Record SensorData := mkSensorData { sd_type : SensorType; sd_data : SensorDataVariant }.

#[export] Instance SensorType_eq_dec : EqDecision SensorType.
Proof. solve_decision. Defined.

#[export] Instance SensorType_countable : Countable SensorType.
Proof.
  refine {| encode t := match t with CAMERA => 1 | LIDAR => 2 end%positive;
            decode p := match p with 1 => Some CAMERA | 2 => Some LIDAR | _ => None end%positive |}.
  by intros [].
Defined.

#[export] Instance Image_eq_dec : EqDecision Image.
Proof. solve_decision. Defined.
#[export] Instance PointCloud2_eq_dec : EqDecision PointCloud2.
Proof. solve_decision. Defined.
#[export] Instance CameraData_eq_dec : EqDecision CameraData.
Proof. solve_decision. Defined.
#[export] Instance LidarData_eq_dec : EqDecision LidarData.
Proof. solve_decision. Defined.
#[export] Instance SensorDataVariant_eq_dec : EqDecision SensorDataVariant.
Proof. solve_decision. Defined.
#[export] Instance SensorData_eq_dec : EqDecision SensorData.
Proof. solve_decision. Defined.

(** [std::visit([](const auto& value) { return value.timestamp; }, data.data)],
    the accessor that DataBuffer, RawStorageWorker and EventMonitor each declare. *)
Definition timestampOf (data : SensorData) : Z :=
  match sd_data data with
  | VCamera c => camera_timestamp c
  | VLidar l => lidar_timestamp l
  end.

(** The tag agrees with the alternative the variant holds; [std::get] throws
    otherwise. *)
Definition tagged (data : SensorData) : Prop :=
  match sd_type data, sd_data data with
  | CAMERA, VCamera _ => True
  | LIDAR, VLidar _ => True
  | _, _ => False
  end.

#[export] Instance tagged_dec data : Decision (tagged data).
Proof. unfold tagged. destruct (sd_type data), (sd_data data); simpl; apply _. Defined.

(** [vector::size] of the payload bytes. *)
Definition byte_size (s : string) : Z := Z.of_nat (String.length s).

Lemma byte_size_nonneg s : 0 <= byte_size s.
Proof. unfold byte_size. lia. Qed.

#[export] Hint Resolve byte_size_nonneg : datacache.
