(* ===== verification/Synchronizer.v ===== *)
(** * Approximate synchronizer ([include/approximate_synchronizer.hpp])

    Two time-ordered queues, one per sensor, are paired front to front.  The
    mutex makes each public call atomic, so a call is a function from the state
    to the new state and the callbacks [dispatch] runs after unlocking, in
    order.  Times are nanoseconds; the time difference is the clock library's
    and may throw. *)

From S2P Require Import Prelude SensorData.

Record MatchResult := mkMatch {
  match_image : Image;
  match_cloud : PointCloud2;
  match_difference : Z
}.

Record DropResult := mkDrop {
  drop_sensor : string;
  drop_timestamp : Z;
  drop_count : Z;
  drop_reason : string
}.

Record PendingResults := mkPending { matches : list MatchResult; drops : list DropResult }.

(** [tolerance_] is a 64-bit count of nanoseconds other than the least one, so that
    [-tolerance] does not overflow; the node sets it from a number of milliseconds
    that is not negative. *)
Record ApproximateSynchronizer := mkSync {
  queueSize_ : nat;
  tolerance_ : Z;
  hasDropCallback_ : bool;
  images_ : list Image;
  clouds_ : list PointCloud2;
  droppedImages_ : Z;
  droppedClouds_ : Z
}.

Definition set_images (s : ApproximateSynchronizer) (l : list Image) : ApproximateSynchronizer :=
  mkSync (queueSize_ s) (tolerance_ s) (hasDropCallback_ s) l (clouds_ s)
    (droppedImages_ s) (droppedClouds_ s).

Definition set_clouds (s : ApproximateSynchronizer) (l : list PointCloud2)
    : ApproximateSynchronizer :=
  mkSync (queueSize_ s) (tolerance_ s) (hasDropCallback_ s) (images_ s) l
    (droppedImages_ s) (droppedClouds_ s).

(** The constructor; [dropCallback] tells whether a drop callback was given. *)
Definition newSynchronizer (queueSize : nat) (tolerance : Z) (dropCallback : bool)
    : ApproximateSynchronizer :=
  mkSync (Nat.max 1 queueSize) tolerance dropCallback [] [] 0 0.

(** What a call hands to the callbacks. *)
Inductive Callback :=
| OnMatch (image : Image) (cloud : PointCloud2) (difference : Z)
| OnDrop (sensor : string) (timestamp : Z) (count : Z) (reason : string).

(** The state under the lock together with the results collected so far. *)
Abbreviation locked := (ApproximateSynchronizer * PendingResults)%type.

Definition recordDrop (sensor : string) (timestamp : Z) (reason : string) (l : locked) : locked :=
  let '(s, r) := l in
  let camera := bool_decide (sensor = "camera"%string) in
  let count := u64 ((if camera then droppedImages_ s else droppedClouds_ s) + 1) in
  (mkSync (queueSize_ s) (tolerance_ s) (hasDropCallback_ s) (images_ s) (clouds_ s)
     (if camera then count else droppedImages_ s)
     (if camera then droppedClouds_ s else count),
   mkPending (matches r) (drops r ++ [mkDrop sensor timestamp count reason])).

(** [images_.front()] recorded as dropped, then [images_.pop_front()]. *)
Definition dropImage (reason : string) (l : locked) : res locked :=
  match images_ l.1 with
  | [] => Err Undefined
  | image :: rest =>
      let '(s, r) := recordDrop "camera" (image_stamp image) reason l in
      Ok (set_images s rest, r)
  end.

Definition dropCloud (reason : string) (l : locked) : res locked :=
  match clouds_ l.1 with
  | [] => Err Undefined
  | cloud :: rest =>
      let '(s, r) := recordDrop "lidar" (cloud_stamp cloud) reason l in
      Ok (set_clouds s rest, r)
  end.

Section with_clock.
Context `{RclTime}.

Definition bothNonEmpty (l : locked) : bool :=
  match images_ l.1, clouds_ l.1 with _ :: _, _ :: _ => true | _, _ => false end.

(** One round of the loop of [tryMatchLocked]. *)
Definition tryMatchStep (l : locked) : res locked :=
  match images_ l.1, clouds_ l.1 with
  | image :: images, cloud :: clouds =>
      difference ← throwing (time_diff (image_stamp image) (cloud_stamp cloud));
      let tolerance := tolerance_ l.1 in
      if (- tolerance <=? difference) && (difference <=? tolerance) then
        let magnitude := if difference <? 0 then - difference else difference in
        Ok (set_clouds (set_images l.1 images) clouds,
            mkPending (matches l.2 ++ [mkMatch image cloud magnitude]) (drops l.2))
      else if difference <? 0 then
        dropImage "outside synchronization tolerance" l
      else
        dropCloud "outside synchronization tolerance" l
  | _, _ => Err Undefined
  end.

Definition queued (s : ApproximateSynchronizer) : nat := (length (images_ s) + length (clouds_ s))%nat.

(** Each round removes a message, so the number of queued messages is fuel enough. *)
Definition tryMatchLocked (l : locked) : res locked :=
  while (queued l.1) bothNonEmpty tryMatchStep l.

Definition dispatch (s : ApproximateSynchronizer) (r : PendingResults) : list Callback :=
  map (fun m => OnMatch (match_image m) (match_cloud m) (match_difference m)) (matches r) ++
  (if hasDropCallback_ s then
     map (fun d => OnDrop (drop_sensor d) (drop_timestamp d) (drop_count d) (drop_reason d))
       (drops r)
   else []).

Definition insertOrderedImage (queue : list Image) (image : Image) : list Image :=
  insert_by_key image_stamp image queue.
Definition insertOrderedCloud (queue : list PointCloud2) (cloud : PointCloud2)
    : list PointCloud2 :=
  insert_by_key cloud_stamp cloud queue.

(** [addImage] up to the unlocking: the results are still to be dispatched. *)
Definition addImageLocked (s : ApproximateSynchronizer) (image : Image) : res locked :=
  let s1 := set_images s (insertOrderedImage (images_ s) image) in
  l ← while (length (images_ s1))
        (fun l => bool_decide (queueSize_ l.1 < length (images_ l.1))%nat)
        (dropImage "synchronizer queue full") (s1, mkPending [] []);
  tryMatchLocked l.

Definition addPointCloudLocked (s : ApproximateSynchronizer) (cloud : PointCloud2)
    : res locked :=
  let s1 := set_clouds s (insertOrderedCloud (clouds_ s) cloud) in
  l ← while (length (clouds_ s1))
        (fun l => bool_decide (queueSize_ l.1 < length (clouds_ l.1))%nat)
        (dropCloud "synchronizer queue full") (s1, mkPending [] []);
  tryMatchLocked l.

Definition flushLocked (s : ApproximateSynchronizer) (reason : string) : res locked :=
  l ← while (length (images_ s)) (fun l => bool_decide (images_ l.1 <> []))
        (dropImage reason) (s, mkPending [] []);
  while (length (clouds_ l.1)) (fun l => bool_decide (clouds_ l.1 <> []))
    (dropCloud reason) l.

Definition dispatching (r : res locked) : res (ApproximateSynchronizer * list Callback) :=
  l ← r; Ok (l.1, dispatch l.1 l.2).

Definition addImage (s : ApproximateSynchronizer) (image : Image) :=
  dispatching (addImageLocked s image).
Definition addPointCloud (s : ApproximateSynchronizer) (cloud : PointCloud2) :=
  dispatching (addPointCloudLocked s cloud).
Definition flushUnmatched (s : ApproximateSynchronizer) (reason : string) :=
  dispatching (flushLocked s reason).

(** The calls a client makes, one after the other. *)
Inductive sync_call :=
| AddImage (image : Image)
| AddPointCloud (cloud : PointCloud2)
| FlushUnmatched (reason : string).

Definition call_sync (s : ApproximateSynchronizer) (c : sync_call) :=
  match c with
  | AddImage image => addImage s image
  | AddPointCloud cloud => addPointCloud s cloud
  | FlushUnmatched reason => flushUnmatched s reason
  end.

Fixpoint run_sync (s : ApproximateSynchronizer) (cs : list sync_call)
    : res (ApproximateSynchronizer * list Callback) :=
  match cs with
  | [] => Ok (s, [])
  | c :: cs' =>
      p ← call_sync s c;
      q ← run_sync p.1 cs';
      Ok (q.1, p.2 ++ q.2)
  end.

Lemma run_sync_app s l1 l2 :
  run_sync s (l1 ++ l2) =
    (p ← run_sync s l1; q ← run_sync p.1 l2; Ok (q.1, p.2 ++ q.2)).
Proof.
  revert s. induction l1 as [|c l1 IH]; intros s; simpl.
  - by destruct (run_sync s l2) as [[]|].
  - destruct (call_sync s c) as [[s1 c1]|]; simpl; [|done]. rewrite IH.
    destruct (run_sync s1 l1) as [[s2 c2]|]; simpl; [|done].
    destruct (run_sync s2 l2) as [[s3 c3]|]; simpl; [|done]. by rewrite (assoc_L (++)).
Qed.

End with_clock.

(** ** Invariant *)

Definition image_sorted := StronglySorted (key_le image_stamp).
Definition cloud_sorted := StronglySorted (key_le cloud_stamp).

Record queues_ok (s : ApproximateSynchronizer) : Prop := {
  qs_images_sorted : image_sorted (images_ s);
  qs_clouds_sorted : cloud_sorted (clouds_ s);
  qs_images_valid : Forall (fun i => valid_stamp (image_stamp i)) (images_ s);
  qs_clouds_valid : Forall (fun c => valid_stamp (cloud_stamp c)) (clouds_ s)
}.

(** Between calls the queues are bounded and at most one of them is in use. *)
Record sync_ok (s : ApproximateSynchronizer) : Prop := {
  sk_queues : queues_ok s;
  sk_images_bound : (length (images_ s) <= queueSize_ s)%nat;
  sk_clouds_bound : (length (clouds_ s) <= queueSize_ s)%nat;
  sk_one_side : images_ s = [] \/ clouds_ s = [];
  sk_size : (1 <= queueSize_ s)%nat
}.

Definition call_valid (c : sync_call) : Prop :=
  match c with
  | AddImage i => valid_stamp (image_stamp i)
  | AddPointCloud c => valid_stamp (cloud_stamp c)
  | FlushUnmatched _ => True
  end.

(** What the calls receive and what the callbacks deliver. *)
Definition received_images (cs : list sync_call) : list Image :=
  omap (fun c => match c with AddImage i => Some i | _ => None end) cs.
Definition received_clouds (cs : list sync_call) : list PointCloud2 :=
  omap (fun c => match c with AddPointCloud c => Some c | _ => None end) cs.
Definition matched_images (cbs : list Callback) : list Image :=
  omap (fun c => match c with OnMatch i _ _ => Some i | _ => None end) cbs.
Definition matched_clouds (cbs : list Callback) : list PointCloud2 :=
  omap (fun c => match c with OnMatch _ c _ => Some c | _ => None end) cbs.
Definition dropped_stamps (camera : bool) (cbs : list Callback) : list Z :=
  omap (fun c => match c with
                 | OnDrop sensor t _ _ =>
                     if bool_decide (sensor = "camera"%string) then
                       if camera then Some t else None
                     else if camera then None else Some t
                 | _ => None
                 end) cbs.

(** ** One round *)

Section step.
Context `{RclTimeSpec}.

(** The three outcomes of a round on two non-empty queues. *)
Lemma tryMatchStep_cases l image images cloud clouds :
  images_ l.1 = image :: images -> clouds_ l.1 = cloud :: clouds ->
  valid_stamp (image_stamp image) -> valid_stamp (cloud_stamp cloud) ->
  let d := image_stamp image - cloud_stamp cloud in
  (- tolerance_ l.1 <= d <= tolerance_ l.1 /\
     tryMatchStep l = Ok (set_clouds (set_images l.1 images) clouds,
       mkPending (matches l.2 ++ [mkMatch image cloud (Z.abs d)]) (drops l.2))) \/
  (~ (- tolerance_ l.1 <= d <= tolerance_ l.1) /\ d < 0 /\
     tryMatchStep l = dropImage "outside synchronization tolerance" l) \/
  (~ (- tolerance_ l.1 <= d <= tolerance_ l.1) /\ 0 <= d /\
     tryMatchStep l = dropCloud "outside synchronization tolerance" l).
Proof.
  intros Hi Hc Vi Vc d. unfold tryMatchStep. rewrite Hi, Hc, stamp_diff by done. simpl. fold d.
  destruct (_ && _) eqn:Hin.
  - bool_to_prop. left. split; [lia|].
    replace (if d <? 0 then - d else d) with (Z.abs d); [done|].
    destruct (Z.ltb_spec d 0); lia.
  - right. apply andb_false_iff in Hin.
    destruct (Z.ltb_spec d 0); [left|right]; (split; [|split; [done|done]]);
      destruct Hin; bool_to_prop; lia.
Qed.

End step.

Lemma dropImage_ok reason l image images :
  images_ l.1 = image :: images ->
  dropImage reason l =
    Ok (mkSync (queueSize_ l.1) (tolerance_ l.1) (hasDropCallback_ l.1) images (clouds_ l.1)
          (u64 (droppedImages_ l.1 + 1)) (droppedClouds_ l.1),
        mkPending (matches l.2) (drops l.2 ++
          [mkDrop "camera" (image_stamp image) (u64 (droppedImages_ l.1 + 1)) reason])).
Proof. intros E. unfold dropImage. rewrite E. by destruct l. Qed.

Lemma dropCloud_ok reason l cloud clouds :
  clouds_ l.1 = cloud :: clouds ->
  dropCloud reason l =
    Ok (mkSync (queueSize_ l.1) (tolerance_ l.1) (hasDropCallback_ l.1) (images_ l.1) clouds
          (droppedImages_ l.1) (u64 (droppedClouds_ l.1 + 1)),
        mkPending (matches l.2) (drops l.2 ++
          [mkDrop "lidar" (cloud_stamp cloud) (u64 (droppedClouds_ l.1 + 1)) reason])).
Proof. intros E. unfold dropCloud. rewrite E. by destruct l. Qed.

Lemma bothNonEmpty_true l :
  bothNonEmpty l = true ->
  exists i il c cl, images_ l.1 = i :: il /\ clouds_ l.1 = c :: cl.
Proof. unfold bothNonEmpty. destruct (images_ l.1), (clouds_ l.1); naive_solver. Qed.

Lemma bothNonEmpty_false l :
  bothNonEmpty l = false -> images_ l.1 = [] \/ clouds_ l.1 = [].
Proof. unfold bothNonEmpty. destruct (images_ l.1), (clouds_ l.1); naive_solver. Qed.

(** ** What every piece of the locked section preserves *)

(** [s'] is reached from [s] by taking messages off the fronts of the queues. *)
Record shrinks (s s' : ApproximateSynchronizer) : Prop := {
  sh_size : queueSize_ s' = queueSize_ s;
  sh_tolerance : tolerance_ s' = tolerance_ s;
  sh_callback : hasDropCallback_ s' = hasDropCallback_ s;
  sh_images : (length (images_ s') <= length (images_ s))%nat;
  sh_clouds : (length (clouds_ s') <= length (clouds_ s))%nat
}.

Lemma shrinks_refl s : shrinks s s.
Proof. by constructor. Qed.

Lemma shrinks_trans s1 s2 s3 : shrinks s1 s2 -> shrinks s2 s3 -> shrinks s1 s3.
Proof. intros [] []. constructor; congruence || lia. Qed.

#[export] Hint Resolve shrinks_refl : datacache.

(** Messages taken off or kept: images and camera drops account for the images,
    clouds and lidar drops for the clouds. *)
Definition image_account (l : locked) : list Z :=
  (image_stamp <$> images_ l.1) ++ ((fun m => image_stamp (match_image m)) <$> matches l.2) ++
  omap (fun d => if bool_decide (drop_sensor d = "camera"%string)
                 then Some (drop_timestamp d) else None) (drops l.2).

Definition cloud_account (l : locked) : list Z :=
  (cloud_stamp <$> clouds_ l.1) ++ ((fun m => cloud_stamp (match_cloud m)) <$> matches l.2) ++
  omap (fun d => if bool_decide (drop_sensor d = "camera"%string)
                 then None else Some (drop_timestamp d)) (drops l.2).

(** Every recorded match is within tolerance and carries its exact distance. *)
Definition match_close (tol : Z) (m : MatchResult) : Prop :=
  match_difference m = Z.abs (image_stamp (match_image m) - cloud_stamp (match_cloud m)) /\
  match_difference m <= tol.

Record progress (l l' : locked) : Prop := {
  pg_shrinks : shrinks l.1 l'.1;
  pg_queues : queues_ok l'.1;
  pg_images : image_account l ≡ₚ image_account l';
  pg_clouds : cloud_account l ≡ₚ cloud_account l';
  pg_close : Forall (match_close (tolerance_ l.1)) (matches l.2) ->
             Forall (match_close (tolerance_ l.1)) (matches l'.2)
}.

Lemma progress_refl l : queues_ok l.1 -> progress l l.
Proof. constructor; auto with datacache. Qed.

Lemma progress_trans l1 l2 l3 : progress l1 l2 -> progress l2 l3 -> progress l1 l3.
Proof.
  intros [] [Hs ? ? ? Hc]. constructor; [by eapply shrinks_trans|done|by etrans..|].
  intros. destruct pg_shrinks0 as [_ Ht _ _ _]. rewrite Ht in Hc. auto.
Qed.

Lemma queues_ok_tail s image images :
  queues_ok s -> images_ s = image :: images ->
  image_sorted images /\ Forall (fun i => valid_stamp (image_stamp i)) images /\
  valid_stamp (image_stamp image).
Proof.
  intros [Hs _ Hv _] E. rewrite E in *. inversion_clear Hs. inversion_clear Hv. done.
Qed.

Lemma queues_ok_tail_cloud s cloud clouds :
  queues_ok s -> clouds_ s = cloud :: clouds ->
  cloud_sorted clouds /\ Forall (fun c => valid_stamp (cloud_stamp c)) clouds /\
  valid_stamp (cloud_stamp cloud).
Proof.
  intros [_ Hs _ Hv] E. rewrite E in *. inversion_clear Hs. inversion_clear Hv. done.
Qed.

Lemma dropImage_progress reason l :
  queues_ok l.1 -> images_ l.1 <> [] ->
  exists l', dropImage reason l = Ok l' /\ progress l l' /\
    images_ l'.1 = tail (images_ l.1) /\ clouds_ l'.1 = clouds_ l.1.
Proof.
  intros Hok Hne. destruct (images_ l.1) as [|i il] eqn:E; [done|].
  rewrite (dropImage_ok reason l i il E). eexists. split; [done|].
  destruct (queues_ok_tail _ _ _ Hok E) as (? & ? & ?). destruct Hok.
  split; [|done]. constructor; simpl; [|by constructor|..|done].
  - constructor; simpl; try done. rewrite E. simpl. lia.
  - unfold image_account. simpl. rewrite E, omap_app. simpl.
    rewrite !(assoc_L (++)). rewrite <- Permutation_cons_append. by rewrite <- !(assoc_L (++)).
  - unfold cloud_account. simpl. rewrite omap_app. simpl. by rewrite app_nil_r.
Qed.

Lemma dropCloud_progress reason l :
  queues_ok l.1 -> clouds_ l.1 <> [] ->
  exists l', dropCloud reason l = Ok l' /\ progress l l' /\
    clouds_ l'.1 = tail (clouds_ l.1) /\ images_ l'.1 = images_ l.1.
Proof.
  intros Hok Hne. destruct (clouds_ l.1) as [|i il] eqn:E; [done|].
  rewrite (dropCloud_ok reason l i il E). eexists. split; [done|].
  destruct (queues_ok_tail_cloud _ _ _ Hok E) as (? & ? & ?). destruct Hok.
  split; [|done]. constructor; simpl; [|by constructor|..|done].
  - constructor; simpl; try done. rewrite E. simpl. lia.
  - unfold image_account. simpl. rewrite omap_app. simpl. by rewrite app_nil_r.
  - unfold cloud_account. simpl. rewrite E, omap_app. simpl.
    rewrite !(assoc_L (++)). rewrite <- Permutation_cons_append. by rewrite <- !(assoc_L (++)).
Qed.

Section loops.
Context `{RclTimeSpec}.

Lemma tryMatchStep_progress l :
  queues_ok l.1 -> bothNonEmpty l = true ->
  exists l', tryMatchStep l = Ok l' /\ progress l l' /\ (queued l'.1 < queued l.1)%nat.
Proof.
  intros Hok (i & il & c & cl & Ei & Ec)%bothNonEmpty_true.
  destruct (queues_ok_tail _ _ _ Hok Ei) as (Si & Fi & Vi).
  destruct (queues_ok_tail_cloud _ _ _ Hok Ec) as (Sc & Fc & Vc).
  unfold queued.
  destruct (tryMatchStep_cases l i il c cl Ei Ec Vi Vc) as [[Hin ->]|[(_ & _ & ->)|(_ & _ & ->)]].
  - eexists. split; [done|]. split; [|simpl; rewrite Ei, Ec; simpl; lia].
    constructor; simpl.
    + constructor; simpl; try done; rewrite ?Ei, ?Ec; simpl; lia.
    + constructor; done.
    + unfold image_account. simpl. rewrite Ei, fmap_app. simpl. solve_Permutation.
    + unfold cloud_account. simpl. rewrite Ec, fmap_app. simpl. solve_Permutation.
    + intros Hm. apply Forall_app. split; [done|]. constructor; [|done].
      split; simpl; lia.
  - destruct (dropImage_progress "outside synchronization tolerance" l) as (l' & -> & Hp & E1 & E2);
      [done|by rewrite Ei|]. eexists. split; [done|]. split; [done|].
    rewrite E1, E2, Ei. simpl. lia.
  - destruct (dropCloud_progress "outside synchronization tolerance" l) as (l' & -> & Hp & E1 & E2);
      [done|by rewrite Ec|]. eexists. split; [done|]. split; [done|].
    rewrite E1, E2, Ec. simpl. lia.
Qed.

Lemma tryMatch_progress l :
  queues_ok l.1 ->
  exists l', tryMatchLocked l = Ok l' /\ progress l l' /\ bothNonEmpty l' = false.
Proof.
  intros Hok. unfold tryMatchLocked.
  destruct (while_total bothNonEmpty tryMatchStep (fun l' => progress l l')
              (fun l => queued l.1)) with (fuel := queued l.1) (s := l) as (l' & E & Hp & Hc).
  - intros l1 Hp Hc. destruct (tryMatchStep_progress l1) as (l2 & ? & ? & ?); [apply Hp|done|].
    exists l2. eauto using progress_trans.
  - by apply progress_refl.
  - done.
  - eauto.
Qed.

(** A loop that only takes messages off the front of one queue. *)
Lemma drop_loop_progress cond reason (m : ApproximateSynchronizer -> nat) step l :
  (step = dropImage reason /\ m = (fun s => length (images_ s)) \/
   step = dropCloud reason /\ m = (fun s => length (clouds_ s))) ->
  (forall l, cond l = true -> m l.1 <> O) ->
  queues_ok l.1 ->
  exists l', while (m l.1) cond step l = Ok l' /\ progress l l' /\ cond l' = false.
Proof.
  intros Hstep Hcond Hok.
  destruct (while_total cond step (fun l' => progress l l') (fun l => m l.1))
    with (fuel := m l.1) (s := l) as (l' & E & Hp & Hc); eauto.
  - intros l1 Hp Hc. apply Hcond in Hc.
    destruct Hstep as [[-> ->]|[-> ->]].
    + destruct (images_ l1.1) eqn:E; [done|].
      destruct (dropImage_progress reason l1) as (l2 & ? & ? & E1 & E2); [apply Hp|by rewrite E|].
      exists l2. rewrite E1, E. simpl. eauto using progress_trans with lia.
    + destruct (clouds_ l1.1) eqn:E; [done|].
      destruct (dropCloud_progress reason l1) as (l2 & ? & ? & E1 & E2); [apply Hp|by rewrite E|].
      exists l2. rewrite E1, E. simpl. eauto using progress_trans with lia.
  - by apply progress_refl.
Qed.

Lemma full_cond_images (l : locked) :
  bool_decide (queueSize_ l.1 < length (images_ l.1))%nat = true -> length (images_ l.1) <> O.
Proof. intros ?%bool_decide_eq_true. lia. Qed.
Lemma full_cond_clouds (l : locked) :
  bool_decide (queueSize_ l.1 < length (clouds_ l.1))%nat = true -> length (clouds_ l.1) <> O.
Proof. intros ?%bool_decide_eq_true. lia. Qed.

Lemma queues_ok_insert_image s image :
  queues_ok s -> valid_stamp (image_stamp image) ->
  queues_ok (set_images s (insertOrderedImage (images_ s) image)).
Proof.
  intros [] Hv. unfold insertOrderedImage. constructor; simpl; try done.
  - by apply insert_by_key_sorted.
  - by apply insert_by_key_Forall.
Qed.

Lemma queues_ok_insert_cloud s cloud :
  queues_ok s -> valid_stamp (cloud_stamp cloud) ->
  queues_ok (set_clouds s (insertOrderedCloud (clouds_ s) cloud)).
Proof.
  intros [] Hv. unfold insertOrderedCloud. constructor; simpl; try done.
  - by apply insert_by_key_sorted.
  - by apply insert_by_key_Forall.
Qed.

Lemma addImageLocked_progress s image :
  sync_ok s -> valid_stamp (image_stamp image) ->
  exists l, addImageLocked s image = Ok l /\ sync_ok l.1 /\
    progress (set_images s (insertOrderedImage (images_ s) image), mkPending [] []) l.
Proof.
  intros [Hq Hbi Hbc H1 Hz] Hv. unfold addImageLocked.
  pose proof (queues_ok_insert_image s image Hq Hv) as Hq1.
  set (s1 := set_images s _) in *. cbv zeta.
  destruct (drop_loop_progress
    (fun l => bool_decide (queueSize_ l.1 < length (images_ l.1))%nat)
    "synchronizer queue full" (fun s => length (images_ s)) (dropImage "synchronizer queue full")
    (s1, mkPending [] [])) as (l1 & E1 & P1 & C1);
    [by left|apply full_cond_images|done|].
  cbn [fst] in E1. rewrite E1. simpl.
  destruct (tryMatch_progress l1) as (l2 & E2 & P2 & C2); [apply P1|].
  exists l2. split; [done|]. split; [|by eapply progress_trans].
  apply bool_decide_eq_false in C1. apply bothNonEmpty_false in C2.
  destruct P1 as [[Z1 _ _ B1 D1] _ _ _ _], P2 as [[Z2 _ _ B2 D2] Q2 _ _ _]. simpl in *.
  constructor; [done| | |done|]; rewrite ?Z2, ?Z1; simpl; lia.
Qed.

Lemma addPointCloudLocked_progress s cloud :
  sync_ok s -> valid_stamp (cloud_stamp cloud) ->
  exists l, addPointCloudLocked s cloud = Ok l /\ sync_ok l.1 /\
    progress (set_clouds s (insertOrderedCloud (clouds_ s) cloud), mkPending [] []) l.
Proof.
  intros [Hq Hbi Hbc H1 Hz] Hv. unfold addPointCloudLocked.
  pose proof (queues_ok_insert_cloud s cloud Hq Hv) as Hq1.
  set (s1 := set_clouds s _) in *. cbv zeta.
  destruct (drop_loop_progress
    (fun l => bool_decide (queueSize_ l.1 < length (clouds_ l.1))%nat)
    "synchronizer queue full" (fun s => length (clouds_ s)) (dropCloud "synchronizer queue full")
    (s1, mkPending [] [])) as (l1 & E1 & P1 & C1);
    [by right|apply full_cond_clouds|done|].
  cbn [fst] in E1. rewrite E1. simpl.
  destruct (tryMatch_progress l1) as (l2 & E2 & P2 & C2); [apply P1|].
  exists l2. split; [done|]. split; [|by eapply progress_trans].
  apply bool_decide_eq_false in C1. apply bothNonEmpty_false in C2.
  destruct P1 as [[Z1 _ _ B1 D1] _ _ _ _], P2 as [[Z2 _ _ B2 D2] Q2 _ _ _]. simpl in *.
  constructor; [done| | |done|]; rewrite ?Z2, ?Z1; simpl; lia.
Qed.

Lemma nonempty_exit {A} `{EqDecision A} (l : list A) : bool_decide (l <> []) = false -> l = [].
Proof. destruct l; [done|]. intros Hl%bool_decide_eq_false. by destruct Hl. Qed.

Lemma flushLocked_progress s reason :
  sync_ok s ->
  exists l, flushLocked s reason = Ok l /\ sync_ok l.1 /\ progress (s, mkPending [] []) l /\
    images_ l.1 = [] /\ clouds_ l.1 = [].
Proof.
  intros [Hq Hbi Hbc H1 Hz]. unfold flushLocked.
  destruct (drop_loop_progress (fun l => bool_decide (images_ l.1 <> [])) reason
    (fun s => length (images_ s)) (dropImage reason) (s, mkPending [] []))
    as (l1 & E1 & P1 & C1);
    [by left|intros l Hl%bool_decide_eq_true; by destruct (images_ l.1)|done|].
  simpl in E1. rewrite E1. simpl.
  destruct (drop_loop_progress (fun l => bool_decide (clouds_ l.1 <> [])) reason
    (fun s => length (clouds_ s)) (dropCloud reason) l1) as (l2 & E2 & P2 & C2);
    [by right|intros l Hl%bool_decide_eq_true; by destruct (clouds_ l.1)|apply P1|].
  pose proof P1 as [[Z1 _ _ B1 D1] _ _ _ _]. pose proof P2 as [[Z2 _ _ B2 D2] Q2 _ _ _].
  apply nonempty_exit in C1 as Hi. apply nonempty_exit in C2 as Hc.
  rewrite Hi in B2. simpl in *. apply Nat.le_0_r, length_zero_iff_nil in B2.
  assert (sync_ok l2.1); [|exists l2; split; [exact E2|]; split; [done|]; split; [by eapply progress_trans|done]].
  constructor; [done|..]; rewrite ?B2, ?Hc, ?Z2, ?Z1; simpl; lia || auto.
Qed.

End loops.

(** ** Traces of calls *)

Lemma sync_ok_new q tol cb : sync_ok (newSynchronizer q tol cb).
Proof. repeat constructor; simpl; auto; lia. Qed.

Lemma dispatch_images s r :
  matched_images (dispatch s r) = match_image <$> matches r.
Proof.
  unfold dispatch, matched_images. rewrite omap_app.
  replace (omap _ (if hasDropCallback_ s then _ else [])) with (@nil Image).
  - rewrite app_nil_r. induction (matches r); csimpl; congruence.
  - destruct (hasDropCallback_ s); [|done]. by induction (drops r).
Qed.

Lemma dispatch_clouds s r :
  matched_clouds (dispatch s r) = match_cloud <$> matches r.
Proof.
  unfold dispatch, matched_clouds. rewrite omap_app.
  replace (omap _ (if hasDropCallback_ s then _ else [])) with (@nil PointCloud2).
  - rewrite app_nil_r. induction (matches r); csimpl; congruence.
  - destruct (hasDropCallback_ s); [|done]. by induction (drops r).
Qed.

Lemma dispatch_drops s r (camera : bool) :
  hasDropCallback_ s = true ->
  dropped_stamps camera (dispatch s r) =
    omap (fun d => if bool_decide (drop_sensor d = "camera"%string)
                   then if camera then Some (drop_timestamp d) else None
                   else if camera then None else Some (drop_timestamp d)) (drops r).
Proof.
  intros Hcb. unfold dispatch, dropped_stamps. rewrite Hcb, omap_app.
  replace (omap _ (map (fun m => OnMatch _ _ _) _)) with (@nil Z)
    by (by induction (matches r)). simpl.
  induction (drops r) as [|d ds IH]; csimpl; [done|]. by rewrite IH; destruct camera; case_bool_decide.
Qed.

(** What one call does to the accounts, in terms of its callbacks. *)
Definition cb_image_account (s : ApproximateSynchronizer) (cbs : list Callback) : list Z :=
  (image_stamp <$> images_ s) ++ (image_stamp <$> matched_images cbs) ++ dropped_stamps true cbs.
Definition cb_cloud_account (s : ApproximateSynchronizer) (cbs : list Callback) : list Z :=
  (cloud_stamp <$> clouds_ s) ++ (cloud_stamp <$> matched_clouds cbs) ++ dropped_stamps false cbs.

Definition cb_close (tol : Z) (c : Callback) : Prop :=
  match c with
  | OnMatch i c d => d = Z.abs (image_stamp i - cloud_stamp c) /\ d <= tol
  | OnDrop _ _ _ _ => True
  end.

Lemma dispatch_close tol s r :
  Forall (match_close tol) (matches r) -> Forall (cb_close tol) (dispatch s r).
Proof.
  intros Hm. unfold dispatch. apply Forall_app. split.
  - apply Forall_fmap. eapply Forall_impl; [exact Hm|done].
  - destruct (hasDropCallback_ s); [|done]. apply Forall_fmap. by apply Forall_true.
Qed.

Lemma dispatch_image_account l :
  hasDropCallback_ l.1 = true -> cb_image_account l.1 (dispatch l.1 l.2) = image_account l.
Proof.
  intros H. unfold cb_image_account, image_account.
  rewrite dispatch_images, dispatch_drops by done. by rewrite <- list_fmap_compose.
Qed.

Lemma dispatch_cloud_account l :
  hasDropCallback_ l.1 = true -> cb_cloud_account l.1 (dispatch l.1 l.2) = cloud_account l.
Proof.
  intros H. unfold cb_cloud_account, cloud_account.
  rewrite dispatch_clouds, dispatch_drops by done. by rewrite <- list_fmap_compose.
Qed.

Record call_effect (s : ApproximateSynchronizer) (cs : list sync_call)
    (s' : ApproximateSynchronizer) (cbs : list Callback) : Prop := {
  ce_ok : sync_ok s';
  ce_size : queueSize_ s' = queueSize_ s;
  ce_tolerance : tolerance_ s' = tolerance_ s;
  ce_callback : hasDropCallback_ s' = hasDropCallback_ s;
  ce_close : Forall (cb_close (tolerance_ s)) cbs;
  ce_images : hasDropCallback_ s = true ->
    (image_stamp <$> images_ s ++ received_images cs) ≡ₚ cb_image_account s' cbs;
  ce_clouds : hasDropCallback_ s = true ->
    (cloud_stamp <$> clouds_ s ++ received_clouds cs) ≡ₚ cb_cloud_account s' cbs
}.

(** From a locked section that made progress to the effect of the whole call. *)
Lemma call_effect_of_progress s c s1 l :
  sync_ok l.1 -> progress (s1, mkPending [] []) l -> 
  queueSize_ s1 = queueSize_ s -> tolerance_ s1 = tolerance_ s ->
  hasDropCallback_ s1 = hasDropCallback_ s ->
  images_ s1 ≡ₚ images_ s ++ received_images [c] ->
  clouds_ s1 ≡ₚ clouds_ s ++ received_clouds [c] ->
  call_effect s [c] l.1 (dispatch l.1 l.2).
Proof.
  intros Hok [[Z1 T1 C1 _ _] _ Hi Hc Hm] Hz Ht Hd Pi Pc. simpl in *.
  constructor; try congruence.
  - apply dispatch_close. rewrite <- Ht. by apply Hm.
  - intros Hcb. rewrite dispatch_image_account by congruence. rewrite <- Hi.
    unfold image_account. simpl. by rewrite app_nil_r, Pi.
  - intros Hcb. rewrite dispatch_cloud_account by congruence. rewrite <- Hc.
    unfold cloud_account. simpl. by rewrite app_nil_r, Pc.
Qed.

Section traces.
Context `{RclTimeSpec}.

Lemma call_sync_effect s c :
  sync_ok s -> call_valid c ->
  exists s' cbs, call_sync s c = Ok (s', cbs) /\ call_effect s [c] s' cbs.
Proof.
  intros Hok Hv. destruct c as [i|c|reason]; simpl in *.
  - destruct (addImageLocked_progress s i Hok Hv) as (l & E & Ho & Hp).
    unfold addImage, dispatching. rewrite E. simpl. do 2 eexists. split; [done|].
    eapply call_effect_of_progress; try done; simpl.
    + unfold insertOrderedImage. rewrite insert_by_key_perm. solve_Permutation.
    + by rewrite app_nil_r.
  - destruct (addPointCloudLocked_progress s c Hok Hv) as (l & E & Ho & Hp).
    unfold addPointCloud, dispatching. rewrite E. simpl. do 2 eexists. split; [done|].
    eapply call_effect_of_progress; try done; simpl.
    + by rewrite app_nil_r.
    + unfold insertOrderedCloud. rewrite insert_by_key_perm. solve_Permutation.
  - destruct (flushLocked_progress s reason Hok) as (l & E & Ho & Hp & _).
    unfold flushUnmatched, dispatching. rewrite E. simpl. do 2 eexists. split; [done|].
    eapply call_effect_of_progress; try done; simpl; by rewrite app_nil_r.
Qed.

Lemma matched_images_app a b : matched_images (a ++ b) = matched_images a ++ matched_images b.
Proof. apply omap_app. Qed.
Lemma matched_clouds_app a b : matched_clouds (a ++ b) = matched_clouds a ++ matched_clouds b.
Proof. apply omap_app. Qed.
Lemma dropped_stamps_app camera a b :
  dropped_stamps camera (a ++ b) = dropped_stamps camera a ++ dropped_stamps camera b.
Proof. apply omap_app. Qed.

Lemma call_effect_nil s : sync_ok s -> call_effect s [] s [].
Proof.
  constructor; try done; intros _.
  - unfold received_images, cb_image_account, matched_images, dropped_stamps. simpl.
    by rewrite !app_nil_r.
  - unfold received_clouds, cb_cloud_account, matched_clouds, dropped_stamps. simpl.
    by rewrite !app_nil_r.
Qed.

Lemma call_effect_app s1 s2 s3 cs1 cs2 cb1 cb2 :
  call_effect s1 cs1 s2 cb1 -> call_effect s2 cs2 s3 cb2 ->
  call_effect s1 (cs1 ++ cs2) s3 (cb1 ++ cb2).
Proof.
  intros [O1 Z1 T1 C1 L1 I1 D1] [O2 Z2 T2 C2 L2 I2 D2].
  constructor; try congruence.
  - apply Forall_app. split; [done|]. by rewrite <- T1.
  - intros Hcb. specialize (I1 Hcb). rewrite C1 in I2. specialize (I2 Hcb).
    unfold cb_image_account, received_images in *. rewrite omap_app in *.
    rewrite matched_images_app, dropped_stamps_app, !fmap_app in *.
    rewrite (assoc_L (++)), I1. transitivity
      ((image_stamp <$> images_ s2 ++ received_images cs2) ++
       (image_stamp <$> matched_images cb1) ++ dropped_stamps true cb1);
      [rewrite fmap_app; solve_Permutation|].
    rewrite fmap_app. unfold received_images. rewrite I2. solve_Permutation.
  - intros Hcb. specialize (D1 Hcb). rewrite C1 in D2. specialize (D2 Hcb).
    unfold cb_cloud_account, received_clouds in *. rewrite omap_app in *.
    rewrite matched_clouds_app, dropped_stamps_app, !fmap_app in *.
    rewrite (assoc_L (++)), D1. transitivity
      ((cloud_stamp <$> clouds_ s2 ++ received_clouds cs2) ++
       (cloud_stamp <$> matched_clouds cb1) ++ dropped_stamps false cb1);
      [rewrite fmap_app; solve_Permutation|].
    rewrite fmap_app. unfold received_clouds. rewrite D2. solve_Permutation.
Qed.

Lemma run_sync_effect cs s :
  sync_ok s -> Forall call_valid cs ->
  exists s' cbs, run_sync s cs = Ok (s', cbs) /\ call_effect s cs s' cbs.
Proof.
  revert s. induction cs as [|c cs IH]; intros s Hok Hv.
  - do 2 eexists. split; [done|]. by apply call_effect_nil.
  - inversion_clear Hv as [|?? Hc Hcs].
    destruct (call_sync_effect s c Hok Hc) as (s1 & cb1 & E1 & F1).
    destruct (IH s1 (ce_ok _ _ _ _ F1) Hcs) as (s2 & cb2 & E2 & F2).
    simpl. rewrite E1. simpl. rewrite E2. simpl. do 2 eexists. split; [done|].
    by apply (call_effect_app s s1 s2 [c] cs cb1 cb2).
Qed.

End traces.

(** ** Matchings *)

(** A set of disjoint camera/lidar pairs within the tolerance. *)
Definition matching (tol : Z) (xs ys : list Z) (ps : list (Z * Z)) : Prop :=
  Forall (fun p => Z.abs (p.1 - p.2) <= tol) ps /\ ps.*1 ⊆+ xs /\ ps.*2 ⊆+ ys.

Lemma matching_sym tol xs ys ps :
  matching tol xs ys ps -> matching tol ys xs ((fun p => (p.2, p.1)) <$> ps).
Proof.
  intros (Hc & Hx & Hy). split; [|split].
  - apply Forall_fmap. eapply Forall_impl; [exact Hc|]. intros [a b]; simpl; lia.
  - by rewrite <- list_fmap_compose.
  - by rewrite <- list_fmap_compose.
Qed.

Lemma matching_skip tol x xs ys ps :
  Forall (fun y => tol < Z.abs (x - y)) ys ->
  matching tol (x :: xs) ys ps -> matching tol xs ys ps.
Proof.
  intros Hfar (Hc & Hx & Hy). split; [done|]. split; [|done].
  apply submseteq_cons_r in Hx as [Hx|(l & Hl & Hx)]; [done|exfalso].
  assert (Hin : x ∈ ps.*1) by (rewrite Hl; set_solver).
  apply list_elem_of_fmap in Hin as ([x' y] & -> & Hp).
  rewrite Forall_forall in Hc. rewrite Forall_forall in Hfar. specialize (Hc _ Hp). simpl in *.
  assert (y ∈ ys).
  { eapply elem_of_submseteq; [|exact Hy]. apply list_elem_of_fmap. by exists (x', y). }
  specialize (Hfar y ltac:(done)). lia.
Qed.

(** The pair that uses [x], if there is one, comes off. *)
Lemma matching_take tol x xs ys ps :
  matching tol (x :: xs) ys ps ->
  matching tol xs ys ps \/
  exists y ps', ps ≡ₚ (x, y) :: ps' /\ Z.abs (x - y) <= tol /\ y ∈ ys /\
    Forall (fun p => Z.abs (p.1 - p.2) <= tol) ps' /\ ps'.*1 ⊆+ xs /\ y :: ps'.*2 ⊆+ ys.
Proof.
  intros (Hc & Hx & Hy).
  apply submseteq_cons_r in Hx as [Hx|(l & Hl & Hx)]; [by left|right].
  assert (Hin : x ∈ ps.*1) by (rewrite Hl; set_solver).
  apply list_elem_of_fmap in Hin as ([x' y] & -> & Hp). simpl in *.
  apply list_elem_of_split in Hp as (l1 & l2 & ->).
  exists y, (l1 ++ l2). assert (HP : l1 ++ (x', y) :: l2 ≡ₚ (x', y) :: l1 ++ l2) by solve_Permutation.
  rewrite HP in Hc, Hl, Hy. simpl in *. inversion_clear Hc.
  split; [done|]. split; [done|]. split.
  { eapply elem_of_submseteq; [|exact Hy]. set_solver. }
  split; [done|]. split; [|done].
  apply (inj (cons x')) in Hl. by rewrite Hl.
Qed.

Lemma matching_perm tol xs ys ps ps' :
  ps ≡ₚ ps' -> matching tol xs ys ps -> matching tol xs ys ps'.
Proof. intros HP (?&?&?). split; [by rewrite <- HP|]. by rewrite <- !HP. Qed.

(** Freeing [y] as well costs at most the one pair that [x] or [y] is in. *)
Lemma matching_fronts tol x xs y ys ps :
  Forall (fun z => x <= z) xs -> Forall (fun z => y <= z) ys -> Z.abs (x - y) <= tol ->
  matching tol (x :: xs) (y :: ys) ps ->
  exists ps', matching tol xs ys ps' /\ (length ps <= S (length ps'))%nat.
Proof.
  intros Hxs Hys Hxy HM. rewrite Forall_forall in Hxs. rewrite Forall_forall in Hys.
  destruct (matching_take _ _ _ _ _ HM) as [HM1|(y1 & ps1 & P1 & C1 & I1 & F1 & X1 & Y1)].
  - destruct (matching_take _ _ _ _ _ (matching_sym _ _ _ _ HM1))
      as [HM2|(x1 & ps2 & P2 & _ & _ & F2 & Y2 & X2)].
    + eexists. split; [by apply matching_sym|]. rewrite !length_fmap. lia.
    + exists ((fun p => (p.2, p.1)) <$> ps2). apply Permutation_length in P2.
      rewrite !length_fmap in *. simpl in P2. split; [|lia].
      apply matching_sym. split; [done|]. split; [done|].
      etrans; [|exact X2]. by apply submseteq_cons.
  - assert (HM1 : matching tol xs (y :: ys) ps1).
    { split; [done|]. split; [done|]. etrans; [|exact Y1]. by apply submseteq_cons. }
    destruct (matching_take _ _ _ _ _ (matching_sym _ _ _ _ HM1))
      as [HM2|(x2 & ps2 & P2 & C2 & I2 & F2 & Y2 & X2)].
    + eexists. split; [by apply matching_sym|]. rewrite P1. simpl. rewrite !length_fmap. lia.
    + pose proof (Permutation_length P2) as HL. rewrite length_fmap in HL. simpl in HL.
      exists ((x2, y1) :: ((fun p => (p.2, p.1)) <$> ps2)).
      split; [|rewrite P1; simpl; rewrite length_fmap; lia].
      assert (Hy : y1 :: (ps2.*1) ⊆+ ys).
      { apply (submseteq_app_inv_l _ _ [y]). simpl. etrans; [|exact Y1].
        assert (HP : ps1.*2 ≡ₚ y :: ps2.*1).
        { transitivity (((fun p : Z * Z => (p.2, p.1)) <$> ps1).*1);
            [by rewrite <- list_fmap_compose|by rewrite P2]. }
        rewrite HP. by rewrite Permutation_swap. }
      assert (x <= x2) by (apply Hxs, I2).
      assert (y <= y1) by (apply elem_of_cons in I1 as [->|I1]; [lia|auto]).
      split; [|split].
      * constructor; [simpl; lia|]. apply Forall_fmap.
        eapply Forall_impl; [exact F2|]. intros []; simpl; lia.
      * simpl. rewrite <- list_fmap_compose. exact X2.
      * simpl. rewrite <- list_fmap_compose. exact Hy.
Qed.

Definition result_pairs (r : PendingResults) : list (Z * Z) :=
  (fun m => (image_stamp (match_image m), cloud_stamp (match_cloud m))) <$> matches r.

Definition image_stamps (s : ApproximateSynchronizer) : list Z := image_stamp <$> images_ s.
Definition cloud_stamps (s : ApproximateSynchronizer) : list Z := cloud_stamp <$> clouds_ s.

Lemma sorted_stamps {A} (key : A -> Z) x l :
  StronglySorted (key_le key) (x :: l) -> Forall (fun z => key x <= z) (key <$> l).
Proof. inversion_clear 1. by apply Forall_fmap. Qed.

Section optimality.
Context `{RclTimeSpec}.

(** No matching of what a round leaves is worth giving up the round. *)
Lemma tryMatchStep_optimal l l' ps :
  queues_ok l.1 -> bothNonEmpty l = true -> tryMatchStep l = Ok l' ->
  matching (tolerance_ l.1) (image_stamps l.1) (cloud_stamps l.1) ps ->
  exists ps', matching (tolerance_ l'.1) (image_stamps l'.1) (cloud_stamps l'.1) ps' /\
    (length (matches l.2) + length ps <= length (matches l'.2) + length ps')%nat.
Proof.
  intros Hok (i & il & c & cl & Ei & Ec)%bothNonEmpty_true Hstep HM.
  destruct (queues_ok_tail _ _ _ Hok Ei) as (_ & _ & Vi).
  destruct (queues_ok_tail_cloud _ _ _ Hok Ec) as (_ & _ & Vc).
  pose proof (qs_images_sorted _ Hok) as Si. pose proof (qs_clouds_sorted _ Hok) as Sc.
  rewrite Ei in Si. rewrite Ec in Sc. apply sorted_stamps in Si, Sc.
  unfold image_stamps, cloud_stamps in *. rewrite Ei, Ec in HM. simpl in HM.
  destruct (tryMatchStep_cases l i il c cl Ei Ec Vi Vc) as [[Hin E]|[(Hout & Hd & E)|(Hout & Hd & E)]];
    rewrite E in Hstep.
  - simplify_eq. simpl.
    destruct (matching_fronts (tolerance_ l.1) (image_stamp i) _ (cloud_stamp c) _ ps
                Si Sc ltac:(lia) HM) as (ps' & HM' & Hlen).
    exists ps'. split; [done|]. rewrite length_app. simpl. lia.
  - rewrite (dropImage_ok _ _ _ _ Ei) in Hstep. simplify_eq. simpl. rewrite Ec.
    exists ps. split; [|lia]. eapply matching_skip; [|exact HM].
    simpl. constructor; [lia|]. eapply Forall_impl; [exact Sc|]. simpl; lia.
  - rewrite (dropCloud_ok _ _ _ _ Ec) in Hstep. simplify_eq. simpl. rewrite Ei.
    exists ((fun p => (p.2, p.1)) <$> ((fun p => (p.2, p.1)) <$> ps)).
    rewrite !length_fmap. split; [|lia]. apply matching_sym.
    eapply matching_skip; [|apply matching_sym, HM].
    simpl. constructor; [lia|]. eapply Forall_impl; [exact Si|]. simpl; lia.
Qed.

Lemma tryMatch_optimal fuel l l' :
  while fuel bothNonEmpty tryMatchStep l = Ok l' ->
  queues_ok l.1 ->
  forall ps, matching (tolerance_ l.1) (image_stamps l.1) (cloud_stamps l.1) ps ->
  (length (matches l.2) + length ps <= length (matches l'.2))%nat.
Proof.
  revert fuel l l'.
  apply (while_rel bothNonEmpty tryMatchStep (fun l l' => queues_ok l.1 -> forall ps, _ -> _)).
  - intros l Hc Hok ps (_ & Hx & Hy).
    unfold image_stamps, cloud_stamps in *.
    destruct (bothNonEmpty_false l Hc) as [E|E]; rewrite E in *; simpl in *.
    + apply submseteq_nil_r in Hx. apply fmap_nil_inv in Hx as ->. simpl; lia.
    + apply submseteq_nil_r in Hy. apply fmap_nil_inv in Hy as ->. simpl; lia.
  - intros l l1 l' Hc Hstep IH Hok ps HM.
    destruct (tryMatchStep_progress l Hok Hc) as (l1' & E & Hp & _). rewrite E in Hstep.
    simplify_eq. destruct (tryMatchStep_optimal l l1 ps Hok Hc E HM) as (ps' & HM' & Hlen).
    specialize (IH (pg_queues _ _ Hp) ps' HM'). lia.
Qed.

End optimality.

(** ** Properties *)

Section properties.
Context `{RclTimeSpec}.

(** C18. Starting from a fresh synchronizer, any sequence of calls whose messages
    carry header stamps runs to the end: no time arithmetic throws, no empty
    queue is popped, every loop stops.  Afterwards both queues are ordered and
    within the configured size, at most one of them holds messages, and every
    pair delivered to the match callback lies within the tolerance and is
    delivered with its exact distance. *)
Theorem sync_run_safe q tol cb cs :
  Forall call_valid cs ->
  exists s' cbs, run_sync (newSynchronizer q tol cb) cs = Ok (s', cbs) /\
    sync_ok s' /\ queueSize_ s' = Nat.max 1 q /\ Forall (cb_close tol) cbs.
Proof.
  intros Hv.
  destruct (run_sync_effect cs (newSynchronizer q tol cb)) as (s' & cbs & E & []);
    [apply sync_ok_new|done|]. eauto 10.
Qed.

(** C19. No message is lost or duplicated: the stamps of the images received are,
    with multiplicity, the stamps of the images still queued, of the images
    delivered in pairs, and of the camera drops reported; likewise for the clouds. *)
Theorem sync_run_conserves q tol cs s' cbs :
  Forall call_valid cs ->
  run_sync (newSynchronizer q tol true) cs = Ok (s', cbs) ->
  image_stamp <$> received_images cs ≡ₚ
    (image_stamp <$> images_ s') ++ (image_stamp <$> matched_images cbs) ++
    dropped_stamps true cbs /\
  cloud_stamp <$> received_clouds cs ≡ₚ
    (cloud_stamp <$> clouds_ s') ++ (cloud_stamp <$> matched_clouds cbs) ++
    dropped_stamps false cbs.
Proof.
  intros Hv E.
  destruct (run_sync_effect cs (newSynchronizer q tol true)) as (s1 & cb1 & E1 & []);
    [apply sync_ok_new|done|]. rewrite E1 in E. simplify_eq. auto.
Qed.

(** C20. Front-to-front pairing is optimal: on ordered queues of any contents the
    pairs that [tryMatchLocked] forms are disjoint pairs of queued messages
    within the tolerance, and no set of such pairs is larger. *)
Theorem tryMatch_maximum s :
  queues_ok s ->
  exists l', tryMatchLocked (s, mkPending [] []) = Ok l' /\
    matching (tolerance_ s) (image_stamps s) (cloud_stamps s) (result_pairs l'.2) /\
    forall ps, matching (tolerance_ s) (image_stamps s) (cloud_stamps s) ps ->
      (length ps <= length (result_pairs l'.2))%nat.
Proof.
  intros Hok. destruct (tryMatch_progress (s, mkPending [] [])) as (l' & E & Hp & _); [done|].
  exists l'. split; [done|]. unfold result_pairs. split.
  - destruct Hp as [_ _ Hi Hc Hm]. unfold image_account, cloud_account in *. simpl in *.
    rewrite app_nil_r in Hi, Hc. split; [|split].
    + apply Forall_fmap. eapply Forall_impl; [by apply Hm|]. intros m [? ?]; simpl; lia.
    + rewrite <- list_fmap_compose. unfold image_stamps. rewrite Hi.
      etrans; [|apply submseteq_inserts_l; reflexivity]. by apply submseteq_inserts_r.
    + rewrite <- list_fmap_compose. unfold cloud_stamps. rewrite Hc.
      etrans; [|apply submseteq_inserts_l; reflexivity]. by apply submseteq_inserts_r.
  - intros ps HM. rewrite length_fmap.
    apply (tryMatch_optimal _ _ _ E Hok ps) in HM. simpl in HM. done.
Qed.

End properties.

(** ** Concrete runs *)

Definition image_at (t : Z) : Image := mkImage t 2 3 "bgr8" 9 "".
Definition cloud_at (t : Z) : PointCloud2 := mkCloud t 1 1 ["x"%string] 16 "".

Definition sample_calls : list sync_call :=
  [AddImage (image_at 100); AddPointCloud (cloud_at 103); AddImage (image_at 200);
   AddImage (image_at 190); AddPointCloud (cloud_at 260); FlushUnmatched "event window closed"].

Lemma sync_run_safe_witness :
  Forall call_valid sample_calls /\
  exists s' cbs, run_sync (newSynchronizer 2 10 true) sample_calls = Ok (s', cbs) /\
    sync_ok s' /\ queueSize_ s' = 2%nat /\ Forall (cb_close 10) cbs.
Proof.
  split; [repeat constructor; vm_compute; congruence|].
  apply (sync_run_safe 2 10 true sample_calls). repeat constructor; vm_compute; congruence.
Defined.

Lemma sync_run_conserves_witness :
  exists s' cbs, run_sync (newSynchronizer 2 10 true) sample_calls = Ok (s', cbs) /\
    [100; 200; 190] ≡ₚ (image_stamp <$> images_ s') ++ (image_stamp <$> matched_images cbs) ++
      dropped_stamps true cbs /\
    [103; 260] ≡ₚ (cloud_stamp <$> clouds_ s') ++ (cloud_stamp <$> matched_clouds cbs) ++
      dropped_stamps false cbs.
Proof.
  do 2 eexists. split; [vm_compute; reflexivity|].
  apply (sync_run_conserves 2 10 sample_calls); [|vm_compute; reflexivity].
  repeat constructor; vm_compute; congruence.
Defined.

Lemma tryMatch_maximum_witness :
  exists l', tryMatchLocked (mkSync 5 10 true [image_at 1; image_at 20] [cloud_at 15; cloud_at 28]
      0 0, mkPending [] []) = Ok l' /\
    matching 10 [1; 20] [15; 28] (result_pairs l'.2) /\
    forall ps, matching 10 [1; 20] [15; 28] ps -> (length ps <= length (result_pairs l'.2))%nat.
Proof.
  apply (tryMatch_maximum (mkSync 5 10 true [image_at 1; image_at 20] [cloud_at 15; cloud_at 28] 0 0)).
  constructor; simpl; repeat constructor; vm_compute; congruence.
Defined.

(** The comment on [tryMatchLocked] says that a message that trails the other
    side's front by more than the tolerance can never match.  The queues accept
    late messages, and one that arrives after the drop would have matched. *)
Example late_arrival_unmatched :
  (match run_sync (newSynchronizer 5 10 true)
     [AddImage (image_at 0); AddPointCloud (cloud_at 100); AddPointCloud (cloud_at 5)] with
   | Ok (_, cbs) => length (matched_images cbs) | Err _ => 9%nat end) = 0%nat /\
  (match run_sync (newSynchronizer 5 10 true)
     [AddImage (image_at 0); AddPointCloud (cloud_at 5); AddPointCloud (cloud_at 100)] with
   | Ok (_, cbs) => length (matched_images cbs) | Err _ => 9%nat end) = 1%nat.
Proof. vm_compute. split; reflexivity. Qed.
