(* ===== verification/Simulators.v ===== *)
(** * Simulators: the camera and the simulated lidar

    Models src/src/camera_node.cpp and src/src/lidar_sim_node.cc, the two nodes
    that publish sensor messages, and what the synchroniser of the data cache makes
    of them.  The camera device, the conversion of its frames and the point cloud
    library are parameters; [now()] is an argument of each tick. *)

From S2P Require Import Prelude Text SensorData Synchronizer.

(** ** Libraries *)

(** [cv::VideoCapture], [cv::Mat] and [cv_bridge]; reading a frame may fail. *)
Class VideoCapture := {
  capture : Type;
  Mat : Type;
  open_device : Z -> option capture;
  set_frame_size : Z -> Z -> capture -> capture;
  read_frame : capture -> option Mat * capture;
  mat_empty : Mat -> bool;
  toImageMsg : string -> Mat -> Image
}.

(** The point cloud library and its conversion to a message. *)
Class PointClouds := {
  PointCloud : Type;
  loadPCDFile : string -> option PointCloud;
  toROSMsg : PointCloud -> PointCloud2
}.

(** ** Parameters *)

(** The 64-bit value of a parameter as an [int]. *)
Definition to_int (z : Z) : Z := (z + 2 ^ 31) mod 2 ^ 32 - 2 ^ 31.

(** [std::chrono::milliseconds(1000 / rate)] as the period of a wall timer, which
    must not be negative. *)
Definition timer_period (rate : Z) : res Z :=
  if rate =? 0 then Err Undefined
  else let period := Z.quot 1000 rate in if period <? 0 then Err Exception else Ok period.

Record CameraParameters := { fps : Z; device : Z; width : Z; height : Z }.

Definition default_camera : CameraParameters := {| fps := 30; device := 0; width := 640; height := 480 |}.

Record LidarParameters := { pcd_path : string; hz : Z }.

Definition default_lidar : LidarParameters := {| pcd_path := "pcd/sample.pcd"; hz := 10 |}.

(** ** The nodes *)

Section nodes.
Context `{VideoCapture} `{PointClouds}.

Record CameraNode := { capture_ : capture; camera_period : Z }.

Definition newCameraNode (p : CameraParameters) : res CameraNode :=
  match open_device (to_int (device p)) with
  | None => Err Exception
  | Some c =>
      let c := set_frame_size (to_int (width p)) (to_int (height p)) c in
      period ← timer_period (to_int (fps p));
      Ok {| capture_ := c; camera_period := period |}
  end.

Definition stamp_image (now : Z) (i : Image) : Image :=
  {| image_stamp := now; image_height := image_height i; image_width := image_width i;
     image_encoding := image_encoding i; image_step := image_step i; image_data := image_data i |}.

(** What it publishes, if anything. *)
Definition captureAndPublish (now : Z) (n : CameraNode) : option Image * CameraNode :=
  let '(frame, c) := read_frame (capture_ n) in
  let n := {| capture_ := c; camera_period := camera_period n |} in
  match frame with
  | Some frame => if mat_empty frame then (None, n) else (Some (stamp_image now (toImageMsg "bgr8" frame)), n)
  | None => (None, n)
  end.

Record LidarSimNode := { cloudMsg_ : PointCloud2; lidar_period : Z }.

Definition newLidarSimNode (p : LidarParameters) : res LidarSimNode :=
  match loadPCDFile (pcd_path p) with
  | None => Err Exception
  | Some cloud =>
      period ← timer_period (to_int (hz p));
      Ok {| cloudMsg_ := toROSMsg cloud; lidar_period := period |}
  end.

Definition stamp_cloud (now : Z) (c : PointCloud2) : PointCloud2 :=
  {| cloud_stamp := now; cloud_height := cloud_height c; cloud_width := cloud_width c;
     cloud_fields := cloud_fields c; cloud_point_step := cloud_point_step c; cloud_data := cloud_data c |}.

Definition publishCloud (now : Z) (n : LidarSimNode) : PointCloud2 * LidarSimNode :=
  let cloud := stamp_cloud now (cloudMsg_ n) in
  (cloud, {| cloudMsg_ := cloud; lidar_period := lidar_period n |}).

(** ** Both at once *)

(** A turn: when each node reads its clock, and whose message comes first. *)
Record Turn := { camera_now : Z; lidar_now : Z; camera_first : bool }.

(** What comes of a turn. *)
Record Tick := { tick_image : option Image; tick_cloud : PointCloud2; tick_camera_first : bool }.

Fixpoint simulate (turns : list Turn) (camera : CameraNode) (lidar : LidarSimNode) : list Tick :=
  match turns with
  | [] => []
  | t :: rest =>
      let '(image, camera) := captureAndPublish (camera_now t) camera in
      let '(cloud, lidar) := publishCloud (lidar_now t) lidar in
      {| tick_image := image; tick_cloud := cloud; tick_camera_first := camera_first t |} :: simulate rest camera lidar
  end.

End nodes.

(** The messages of a tick on their way to the synchroniser. *)
Definition tick_calls (t : Tick) : list sync_call :=
  let images := match tick_image t with Some i => [AddImage i] | None => [] end in
  if tick_camera_first t then images ++ [AddPointCloud (tick_cloud t)] else AddPointCloud (tick_cloud t) :: images.

(** The clouds of the ticks with a picture. *)
Definition seen_cloud (t : Tick) : option PointCloud2 := (fun _ => tick_cloud t) <$> tick_image t.

(** ** The synchroniser on such messages *)

(** The messages of a tick are within the tolerance. *)
Definition tick_close (tolerance : Z) (t : Tick) : Prop :=
  valid_stamp (cloud_stamp (tick_cloud t)) /\
  match tick_image t with
  | Some i => valid_stamp (image_stamp i) /\ Z.abs (image_stamp i - cloud_stamp (tick_cloud t)) <= tolerance
  | None => True
  end.

(** A later tick: its picture is out of reach of the earlier cloud. *)
Definition tick_apart (tolerance : Z) (t t' : Tick) : Prop :=
  cloud_stamp (tick_cloud t) <= cloud_stamp (tick_cloud t') /\
  match tick_image t' with Some i => cloud_stamp (tick_cloud t) + tolerance < image_stamp i | None => True end.

(** Same limits and callback. *)
Definition same_setup (s s' : ApproximateSynchronizer) : Prop :=
  queueSize_ s' = queueSize_ s /\ tolerance_ s' = tolerance_ s.

Section pairing.
Context `{RclTimeSpec}.

Definition out_of_reach (tolerance : Z) (i : Image) (c : PointCloud2) : Prop :=
  valid_stamp (cloud_stamp c) /\ cloud_stamp c + tolerance < image_stamp i.

(** One image and old clouds, then possibly the one it belongs to. *)
Lemma tryMatch_past i olds rest l :
  0 <= tolerance_ l.1 -> valid_stamp (image_stamp i) -> images_ l.1 = [i] -> clouds_ l.1 = olds ++ rest ->
  Forall (out_of_reach (tolerance_ l.1) i) olds -> (length rest <= 1)%nat ->
  Forall (fun c => valid_stamp (cloud_stamp c) /\ Z.abs (image_stamp i - cloud_stamp c) <= tolerance_ l.1) rest ->
  exists l', tryMatchLocked l = Ok l' /\ same_setup l.1 l'.1 /\ clouds_ l'.1 = [] /\
    images_ l'.1 = (if rest is [] then [i] else []) /\
    (fun m => (match_image m, match_cloud m)) <$> matches l'.2 =
      ((fun m => (match_image m, match_cloud m)) <$> matches l.2) ++ ((fun c => (i, c)) <$> rest).
Proof.
  intros Htol Hi Himages Hclouds Holds Hlen Hrest. unfold tryMatchLocked.
  set (pairs := fun l : locked => (fun m => (match_image m, match_cloud m)) <$> matches l.2).
  destruct (while_total bothNonEmpty tryMatchStep (fun l' => same_setup l.1 l'.1 /\
    ((exists olds', images_ l'.1 = [i] /\ clouds_ l'.1 = olds' ++ rest /\
        Forall (out_of_reach (tolerance_ l.1) i) olds' /\ pairs l' = pairs l) \/
     (exists c, rest = [c] /\ images_ l'.1 = [] /\ clouds_ l'.1 = [] /\ pairs l' = pairs l ++ [(i, c)])))
    (fun l => queued l.1)) with (fuel := queued l.1) (s := l) as (l' & E & (Hsame & Hcases) & Hend).
  - intros l1 [[Hq Ht] Hcases] (i1 & il & c1 & cl & Ei & Ec)%bothNonEmpty_true.
    destruct Hcases as [(olds' & Hi1 & Hc1 & Ho & Hp)|(c & _ & Hi1 & _)]; [|congruence].
    rewrite Hi1 in Ei. injection Ei as <- <-. rewrite Hc1 in Ec.
    destruct olds' as [|old olds'].
    + destruct rest as [|c []]; cbn in Ec, Hlen; [done| |lia]. injection Ec as <- <-.
      apply Forall_cons in Hrest as [[Hvc Hclose] _].
      destruct (tryMatchStep_cases l1 i [] c []) as [[_ ->]|[(Hnot & _)|(Hnot & _)]]; try done; try (exfalso; lia).
      eexists. split; [done|]. split; [|unfold queued; cbn; rewrite Hi1, Hc1; cbn; lia].
      split; [done|]. right. exists c. split; [done|]. split; [done|]. split; [done|].
      unfold pairs. cbn [snd matches]. rewrite fmap_app. cbn. f_equal. exact Hp.
    + cbn in Ec. injection Ec as <- <-. apply Forall_cons in Ho as [[Hvo Hfar] Ho].
      destruct (tryMatchStep_cases l1 i [] old (olds' ++ rest)) as [[Hin _]|[(_ & Hneg & _)|(_ & _ & ->)]];
        try done; try (exfalso; lia).
      rewrite (dropCloud_ok _ l1 old (olds' ++ rest)) by done. eexists. split; [done|].
      split; [|unfold queued; cbn; rewrite Hi1, Hc1; cbn; lia]. split; [done|]. left. by exists olds'.
  - split; [done|]. left. by exists olds.
  - done.
  - exists l'. split; [done|]. split; [done|]. destruct (bothNonEmpty_false l' Hend) as [Hi'|Hc'];
      destruct Hcases as [(olds' & Hi1 & Hc1 & _ & Hp)|(c & -> & Hi1 & Hc1 & Hp)]; try congruence; try done.
    destruct olds', rest; cbn in Hc1; try congruence. split; [done|]. split; [done|]. rewrite app_nil_r. exact Hp.
Qed.

Definition matched_pairs (cbs : list Callback) : list (Image * PointCloud2) :=
  omap (fun c => match c with OnMatch i c _ => Some (i, c) | _ => None end) cbs.

Lemma dispatch_pairs s r : matched_pairs (dispatch s r) = (fun m => (match_image m, match_cloud m)) <$> matches r.
Proof.
  unfold dispatch, matched_pairs. rewrite omap_app.
  replace (omap _ (if hasDropCallback_ s then _ else [])) with (@nil (Image * PointCloud2)).
  - rewrite app_nil_r. induction (matches r); csimpl; congruence.
  - destruct (hasDropCallback_ s); [|done]. by induction (drops r).
Qed.

Lemma insert_latest (l : list PointCloud2) c :
  Forall (fun b => cloud_stamp b <= cloud_stamp c) l -> insertOrderedCloud l c = l ++ [c].
Proof.
  intros Hl. unfold insertOrderedCloud, insert_by_key. destruct (last l) as [b|] eqn:E; [|done].
  apply last_Some_elem_of in E. rewrite Forall_forall in Hl. specialize (Hl b E).
  by rewrite (proj2 (Z.leb_le _ _)).
Qed.

(** A picture when no picture is waiting. *)
Lemma picture_arrives s i olds rest :
  0 <= tolerance_ s -> (1 <= queueSize_ s)%nat -> valid_stamp (image_stamp i) ->
  images_ s = [] -> clouds_ s = olds ++ rest ->
  Forall (out_of_reach (tolerance_ s) i) olds -> (length rest <= 1)%nat ->
  Forall (fun c => valid_stamp (cloud_stamp c) /\ Z.abs (image_stamp i - cloud_stamp c) <= tolerance_ s) rest ->
  exists s' cbs, addImage s i = Ok (s', cbs) /\ same_setup s s' /\ clouds_ s' = [] /\
    images_ s' = (if rest is [] then [i] else []) /\ matched_pairs cbs = (fun c => (i, c)) <$> rest.
Proof.
  intros Htol Hq Hi Himages Hclouds Holds Hlen Hrest. unfold addImage, addImageLocked. rewrite Himages.
  change (insertOrderedImage [] i) with [i]. set (s1 := set_images s [i]).
  rewrite while_done by (apply bool_decide_eq_false; cbn; lia). cbn [mbind res_bind].
  destruct (tryMatch_past i olds rest (s1, mkPending [] [])) as (l & E & Hsame & Hc & Him & Hp); try done.
  eexists l.1, _. cbn [dispatching]. rewrite E. split; [done|]. split; [done|]. split; [done|]. split; [done|].
  by rewrite dispatch_pairs, Hp.
Qed.

(** A cloud when no picture is waiting. *)
Lemma cloud_waits s c :
  (1 <= queueSize_ s)%nat -> images_ s = [] -> Forall (fun b => cloud_stamp b <= cloud_stamp c) (clouds_ s) ->
  exists s' cbs k, addPointCloud s c = Ok (s', cbs) /\ same_setup s s' /\ images_ s' = [] /\
    clouds_ s' = drop k (clouds_ s) ++ [c] /\ matched_pairs cbs = [].
Proof.
  intros Hq Himages Hall. unfold addPointCloud, addPointCloudLocked. rewrite insert_latest by done.
  set (s1 := set_clouds s (clouds_ s ++ [c])).
  destruct (while_total (fun l => bool_decide (queueSize_ l.1 < length (clouds_ l.1))%nat)
    (dropCloud "synchronizer queue full")
    (fun l => same_setup s l.1 /\ images_ l.1 = [] /\ matches l.2 = [] /\ exists k, clouds_ l.1 = drop k (clouds_ s) ++ [c])
    (fun l => length (clouds_ l.1))) with (fuel := length (clouds_ s1)) (s := (s1, mkPending [] []))
    as (l & -> & (Hsame & Hi & Hm & k & Hc) & _).
  - intros l ([Hs Ht] & Hi & Hm & k & Hc) Hfull%bool_decide_eq_true. rewrite Hc, length_app in Hfull. cbn in Hfull.
    destruct (drop k (clouds_ s)) as [|b bs] eqn:Edrop; [cbn in Hfull; lia|].
    rewrite (dropCloud_ok _ l b (bs ++ [c])) by (by rewrite Hc). eexists. split; [done|].
    split; [|cbn; rewrite Hc; cbn; lia]. split; [done|]. split; [done|]. split; [done|]. exists (S k). cbn [fst clouds_].
    f_equal. by rewrite <- (drop_drop _ k 1), Edrop || (rewrite <- Nat.add_1_r, <- drop_drop, Edrop).
  - split; [done|]. split; [done|]. split; [done|]. by exists 0%nat.
  - done.
  - cbn [mbind res_bind dispatching]. unfold tryMatchLocked.
    rewrite while_done by (unfold bothNonEmpty; by rewrite Hi). exists l.1. eexists. exists k.
    split; [done|]. split; [done|]. split; [done|]. split; [done|]. rewrite dispatch_pairs, Hm. done.
Qed.

(** A cloud when the picture it belongs to is waiting. *)
Lemma cloud_meets s i c :
  0 <= tolerance_ s -> (1 <= queueSize_ s)%nat -> valid_stamp (image_stamp i) -> valid_stamp (cloud_stamp c) ->
  Z.abs (image_stamp i - cloud_stamp c) <= tolerance_ s -> images_ s = [i] -> clouds_ s = [] ->
  exists s' cbs, addPointCloud s c = Ok (s', cbs) /\ same_setup s s' /\ images_ s' = [] /\ clouds_ s' = [] /\
    matched_pairs cbs = [(i, c)].
Proof.
  intros Htol Hq Hi Hc Hclose Himages Hclouds. unfold addPointCloud, addPointCloudLocked. rewrite Hclouds.
  change (insertOrderedCloud [] c) with [c]. set (s1 := set_clouds s [c]).
  rewrite while_done by (apply bool_decide_eq_false; cbn; lia). cbn [mbind res_bind].
  destruct (tryMatch_past i [] [c] (s1, mkPending [] [])) as (l & E & Hsame & Hcl & Him & Hp); try done; [by apply Forall_singleton|].
  eexists l.1, _. cbn [dispatching]. rewrite E. split; [done|]. split; [done|]. split; [done|]. split; [done|].
  by rewrite dispatch_pairs, Hp.
Qed.

Definition tick_pair (t : Tick) : option (Image * PointCloud2) := (fun i => (i, tick_cloud t)) <$> tick_image t.

(** No picture is waiting, and only clouds that no later picture reaches. *)
Definition between_ticks (tolerance : Z) (s : ApproximateSynchronizer) (t : Tick) : Prop :=
  Forall (fun c => valid_stamp (cloud_stamp c) /\ cloud_stamp c <= cloud_stamp (tick_cloud t) /\
    match tick_image t with Some i => cloud_stamp c + tolerance < image_stamp i | None => True end) (clouds_ s).

Lemma run_two s c1 c2 s1 cbs1 s2 cbs2 :
  call_sync s c1 = Ok (s1, cbs1) -> call_sync s1 c2 = Ok (s2, cbs2) -> run_sync s [c1; c2] = Ok (s2, cbs1 ++ cbs2 ++ []).
Proof. intros E1 E2. cbn [run_sync]. rewrite E1. cbn. by rewrite E2. Qed.

Lemma tick_paired s t :
  0 <= tolerance_ s -> (1 <= queueSize_ s)%nat -> images_ s = [] -> tick_close (tolerance_ s) t ->
  between_ticks (tolerance_ s) s t ->
  exists s' cbs, run_sync s (tick_calls t) = Ok (s', cbs) /\ same_setup s s' /\ images_ s' = [] /\
    (forall c, c ∈ clouds_ s' -> c ∈ clouds_ s \/ c = tick_cloud t) /\
    matched_pairs cbs = (if tick_pair t is Some p then [p] else []).
Proof.
  intros Htol Hq Himages [Hvc Hclose] Hall. unfold tick_calls, tick_pair. unfold between_ticks in Hall.
  assert (Hlater : Forall (fun b => cloud_stamp b <= cloud_stamp (tick_cloud t)) (clouds_ s))
    by (eapply Forall_impl; [exact Hall|]; intros c Hc; apply Hc).
  destruct (cloud_waits s (tick_cloud t) Hq Himages Hlater) as (s1 & cbs1 & k & E1 & [Eq1 Et1] & Hi1 & Hc1 & Hp1).
  assert (Hwait : forall c, c ∈ clouds_ s1 -> c ∈ clouds_ s \/ c = tick_cloud t).
  { intros c. rewrite Hc1, elem_of_app, list_elem_of_singleton. intros [Hc|]; [left|by right]. apply (subseteq_drop k), Hc. }
  destruct (tick_image t) as [i|].
  2: { exists s1, (cbs1 ++ []). replace (if tick_camera_first t then [] ++ [AddPointCloud (tick_cloud t)] else [AddPointCloud (tick_cloud t)])
         with [AddPointCloud (tick_cloud t)] by (by destruct (tick_camera_first t)).
       cbn [run_sync call_sync]. rewrite E1. split; [done|]. split; [done|]. split; [done|]. split; [done|]. by rewrite app_nil_r. }
  destruct Hclose as [Hvi Hclose].
  assert (Hfar : forall tolerance, tolerance = tolerance_ s -> Forall (out_of_reach tolerance i) (clouds_ s)).
  { intros tolerance ->. eapply Forall_impl; [exact Hall|]. intros c (Hv & _ & Hc). by split. }
  destruct (tick_camera_first t); cbn [app fmap option_fmap option_map].
  - destruct (picture_arrives s i (clouds_ s) []) as (s2 & cbs2 & E2 & [Eq2 Et2] & Hc2 & Hi2 & Hp2);
      try done; [by rewrite app_nil_r|by apply Hfar|cbn; lia|].
    destruct (cloud_meets s2 i (tick_cloud t)) as (s3 & cbs3 & E3 & [Eq3 Et3] & Hi3 & Hc3 & Hp3);
      rewrite ?Et2, ?Eq2; try done.
    exists s3, (cbs2 ++ cbs3 ++ []). split; [by eapply run_two|]. split; [split; congruence|]. split; [done|].
    split; [rewrite Hc3; by intros c ?%elem_of_nil|]. unfold matched_pairs in *. by rewrite !omap_app, Hp2, Hp3.
  - destruct (picture_arrives s1 i (drop k (clouds_ s)) [tick_cloud t]) as (s2 & cbs2 & E2 & [Eq2 Et2] & Hc2 & Hi2 & Hp2);
      rewrite ?Et1, ?Eq1; try done; [by apply Forall_drop, Hfar|by apply Forall_singleton|].
    exists s2, (cbs1 ++ cbs2 ++ []). split; [by eapply run_two|]. split; [split; congruence|]. split; [done|].
    split; [rewrite Hc2; by intros c ?%elem_of_nil|]. unfold matched_pairs in *. by rewrite !omap_app, Hp1, Hp2.
Qed.

Lemma ticks_paired ticks s :
  0 <= tolerance_ s -> (1 <= queueSize_ s)%nat -> images_ s = [] ->
  Forall (tick_close (tolerance_ s)) ticks -> StronglySorted (tick_apart (tolerance_ s)) ticks ->
  Forall (between_ticks (tolerance_ s) s) ticks ->
  exists s' cbs, run_sync s (concat (tick_calls <$> ticks)) = Ok (s', cbs) /\ images_ s' = [] /\
    matched_pairs cbs = omap tick_pair ticks.
Proof.
  intros Htol Hq Hi Hclose Hsorted Hbetween. revert s Htol Hq Hi Hclose Hsorted Hbetween.
  induction ticks as [|t ticks IH]; intros s Htol Hq Hi Hclose Hsorted Hbetween; [by exists s, []|].
  apply Forall_cons in Hclose as [Ht Hclose]. apply Forall_cons in Hbetween as [Hbt Hbetween].
  inversion Hsorted as [|x l Hsorted' Hapart Ex]; subst x l.
  destruct (tick_paired s t) as (s1 & cbs1 & E1 & [Eq Et] & Hi1 & Hc1 & Hp1); [done..|].
  destruct (IH s1) as (s2 & cbs2 & E2 & Hi2 & Hp2); rewrite ?Et, ?Eq; try done.
  - rewrite Forall_forall in Hbetween, Hapart |- *. intros t' Ht'. apply Forall_forall. intros c Hc.
    destruct (Hc1 c Hc) as [Hold| ->]; [|split; [apply Ht|by apply Hapart]].
    specialize (Hbetween t' Ht'). unfold between_ticks in Hbetween. rewrite Forall_forall in Hbetween. by apply Hbetween.
  - exists s2, (cbs1 ++ cbs2). cbn [fmap list_fmap concat]. rewrite run_sync_app, E1. cbn. rewrite E2. split; [done|].
    split; [done|]. unfold matched_pairs in *. rewrite omap_app, Hp1, Hp2. cbn [omap list_omap].
    by destruct (tick_pair t).
Qed.

End pairing.

(** ** Both nodes *)

Section both.
Context `{VideoCapture} `{PointClouds} `{RclTimeSpec}.

Lemma timer_period_ok rate period : timer_period rate = Ok period -> 0 <= period <= 1000.
Proof.
  unfold timer_period. destruct (Z.eqb_spec rate 0) as [|Hr]; [done|]. destruct (Z.ltb_spec (Z.quot 1000 rate) 0); [done|].
  intros [= <-]. split; [done|]. pose proof (Z.quot_rem' 1000 rate) as Hdiv. set (q := Z.quot 1000 rate) in *.
  pose proof (Z.rem_bound_abs 1000 rate Hr). pose proof (Z.rem_nonneg 1000 rate Hr ltac:(lia)).
  destruct (Z.lt_ge_cases rate 0); nia.
Qed.

(** The clocks of the turns: close within a turn, apart between turns. *)
Definition turn_close (tolerance : Z) (t : Turn) : Prop :=
  valid_stamp (camera_now t) /\ valid_stamp (lidar_now t) /\ Z.abs (camera_now t - lidar_now t) <= tolerance.

Definition turn_apart (tolerance : Z) (t t' : Turn) : Prop :=
  lidar_now t <= lidar_now t' /\ lidar_now t + tolerance < camera_now t'.

Lemma simulate_stamps turns camera lidar :
  Forall2 (fun u t => cloud_stamp (tick_cloud t) = lidar_now u /\
    forall i, tick_image t = Some i -> image_stamp i = camera_now u) turns (simulate turns camera lidar).
Proof.
  revert camera lidar. induction turns as [|u turns IH]; intros camera lidar; cbn [simulate]; [constructor|].
  destruct (captureAndPublish (camera_now u) camera) as [image camera'] eqn:E. cbn [publishCloud].
  constructor; [|apply IH]. split; [done|]. cbn [tick_image]. intros i ->. unfold captureAndPublish in E.
  destruct (read_frame _) as [[frame|] c]; [|done]. destruct (mat_empty frame); [done|]. by injection E as <- _.
Qed.

Lemma simulate_clouds turns camera lidar :
  tick_cloud <$> simulate turns camera lidar = (fun u => stamp_cloud (lidar_now u) (cloudMsg_ lidar)) <$> turns.
Proof.
  revert camera lidar. induction turns as [|u turns IH]; intros camera lidar; cbn [simulate]; [done|].
  destruct (captureAndPublish _ _) as [image camera']. cbn [publishCloud fmap list_fmap tick_cloud]. by rewrite IH.
Qed.

Lemma turns_sorted tolerance turns ticks :
  Forall2 (fun u t => cloud_stamp (tick_cloud t) = lidar_now u /\
    forall i, tick_image t = Some i -> image_stamp i = camera_now u) turns ticks ->
  StronglySorted (turn_apart tolerance) turns -> StronglySorted (tick_apart tolerance) ticks.
Proof.
  induction 1 as [|u t turns ticks [Ec Ei] Hrest IH]; intros Hs; [constructor|].
  inversion Hs as [|x l Hs' Hall Ex]; subst x l. constructor; [by apply IH|].
  clear -Hrest Hall Ec. induction Hrest as [|u' t' turns ticks [Ec' Ei'] _ IH]; [constructor|].
  apply Forall_cons in Hall as [[H1 H2] Hall]. constructor; [|by apply IH].
  split; [lia|]. destruct (tick_image t') as [i|]; [|done]. rewrite (Ei' i) by done. lia.
Qed.

(** C17. Started successfully the two nodes keep a period of at most a second, and
    when they take turns, with clocks that agree within the tolerance in each turn
    and lie further apart between turns, the synchroniser pairs every captured
    picture with the cloud of its turn and makes no other pair, also when some
    frames cannot be captured. *)
Theorem simulated_pairs p p' camera lidar queueSize tolerance dropCallback turns :
  newCameraNode p = Ok camera -> newLidarSimNode p' = Ok lidar -> 0 <= tolerance ->
  Forall (turn_close tolerance) turns -> StronglySorted (turn_apart tolerance) turns ->
  let ticks := simulate turns camera lidar in
  0 <= camera_period camera <= 1000 /\ 0 <= lidar_period lidar <= 1000 /\
  tick_cloud <$> ticks = (fun u => stamp_cloud (lidar_now u) (cloudMsg_ lidar)) <$> turns /\
  exists s cbs,
    run_sync (newSynchronizer queueSize tolerance dropCallback) (concat (tick_calls <$> ticks)) = Ok (s, cbs) /\
    images_ s = [] /\ matched_pairs cbs = omap tick_pair ticks.
Proof.
  intros Hcamera Hlidar Htol Hclose Hsorted ticks. split; [|split; [|split; [apply simulate_clouds|]]].
  - unfold newCameraNode in Hcamera. destruct (open_device _); [|done].
    destruct (timer_period _) as [period|] eqn:E; [|done]. injection Hcamera as <-. by eapply timer_period_ok.
  - unfold newLidarSimNode in Hlidar. destruct (loadPCDFile _); [|done].
    destruct (timer_period _) as [period|] eqn:E; [|done]. injection Hlidar as <-. by eapply timer_period_ok.
  - pose proof (simulate_stamps turns camera lidar) as Hstamps. fold ticks in Hstamps.
    apply ticks_paired; cbn; [done|lia|done| |by eapply turns_sorted|].
    + clear -Hstamps Hclose. induction Hstamps as [|u t turns' ticks' [Ec Ei] _ IH]; [constructor|].
      apply Forall_cons in Hclose as [(Hv & Hv' & Habs) Hclose]. constructor; [|by apply IH]. split; [by rewrite Ec|].
      destruct (tick_image t) as [i|]; [|done]. rewrite (Ei i), Ec by done. done.
    + apply Forall_forall. intros t _. constructor.
Qed.

End both.

(** A rate of zero divides by zero, and a negative one ends the node; above one
    thousand the timer has no period. *)
Example rates : timer_period 0 = Err Undefined /\ timer_period (-1) = Err Exception /\ timer_period 1001 = Ok 0.
Proof. split; [reflexivity|]. split; reflexivity. Qed.

(** ** Samples *)

(** A camera whose second frame is lost, and a cloud of one point. *)
#[local] Instance counting_camera : VideoCapture := {
  capture := nat; Mat := nat;
  open_device d := if d =? 0 then Some 0%nat else None;
  set_frame_size _ _ c := c;
  read_frame c := (if (c =? 1)%nat then None else Some c, S c);
  mat_empty _ := false;
  toImageMsg encoding m := mkImage 0 1 1 encoding 3 "BGR" }.

#[local] Instance one_point : PointClouds := {
  PointCloud := unit;
  loadPCDFile file := if String.eqb file "" then None else Some tt;
  toROSMsg _ := mkCloud 0 1 1 ["x"; "y"; "z"]%string 16 "0123456789abcdef" }.

Definition sample_turns : list Turn :=
  [{| camera_now := 100; lidar_now := 105; camera_first := true |};
   {| camera_now := 130; lidar_now := 125; camera_first := true |};
   {| camera_now := 140; lidar_now := 145; camera_first := false |}].

Definition sample_ticks : list Tick :=
  match newCameraNode default_camera, newLidarSimNode default_lidar with
  | Ok camera, Ok lidar => simulate sample_turns camera lidar
  | _, _ => []
  end.

Lemma simulated_pairs_witness :
  exists s cbs, run_sync (newSynchronizer 4 10 true) (concat (tick_calls <$> sample_ticks)) = Ok (s, cbs) /\
    (fun p => (image_stamp p.1, cloud_stamp p.2)) <$> matched_pairs cbs = [(100, 105); (140, 145)].
Proof.
  destruct (simulated_pairs default_camera default_lidar (@Build_CameraNode counting_camera 0%nat 33)
    {| cloudMsg_ := mkCloud 0 1 1 ["x"; "y"; "z"]%string 16 "0123456789abcdef"; lidar_period := 100 |} 4 10 true sample_turns)
    as (_ & _ & _ & s & cbs & Hrun & _ & Hpairs).
  - reflexivity.
  - reflexivity.
  - lia.
  - repeat (apply Forall_cons; split; [split; [|split]; unfold_int64; cbn; lia|]). constructor.
  - repeat (constructor; [|repeat (apply Forall_cons; split; [split; cbn; lia|]); constructor]). constructor.
  - exists s, cbs. split; [exact Hrun|]. rewrite Hpairs. reflexivity.
Defined.
