(* ===== verification/PairIndex.v ===== *)
(** * Pair index ([include/pair_index.hpp])

    The ledger of synchronisation results: one record per matched pair and per
    single-sided message, numbered in order of arrival, the newest 100000 kept. *)

From S2P Require Import Prelude.

Record PairRecord := mkPair {
  pairId : Z;
  hasCamera : bool;
  hasLidar : bool;
  cameraTimestamp : Z;
  lidarTimestamp : Z;
  difference : Z;
  status : string;
  reason : string
}.

#[export] Instance PairRecord_eq_dec : EqDecision PairRecord.
Proof. solve_decision. Defined.

Record PairIndex := mkIndex { records_ : list PairRecord; nextId_ : Z }.

Definition newPairIndex : PairIndex := mkIndex [] 1.

Definition maxRecords : Z := 100000.

Definition trim (p : PairIndex) : res PairIndex :=
  r ← while (length (records_ p)) (fun r => maxRecords <? Z.of_nat (length r)) pop_front
        (records_ p);
  Ok (mkIndex r (nextId_ p)).

(** [records_.push_back(record(nextId_++)); trim();] *)
Definition push_record (p : PairIndex) (record : Z -> PairRecord) : res PairIndex :=
  trim (mkIndex (records_ p ++ [record (nextId_ p)]) (u64 (nextId_ p + 1))).

Definition matched_record (camera lidar difference : Z) (id : Z) : PairRecord :=
  mkPair id true true camera lidar difference "matched" "".

(** [rclcpp::Time()] and [rclcpp::Duration(0, 0)] are zero. *)
Definition single_record (sensor : string) (timestamp : Z) (reason : string) (id : Z)
    : PairRecord :=
  let camera := bool_decide (sensor = "camera"%string) in
  mkPair id camera (negb camera) (if camera then timestamp else 0)
    (if camera then 0 else timestamp) 0
    (if camera then "camera_only" else "lidar_only") reason.

Definition addMatched (p : PairIndex) (camera lidar difference : Z) : res PairIndex :=
  push_record p (matched_record camera lidar difference).

Definition addSingle (p : PairIndex) (sensor : string) (timestamp : Z) (reason : string)
    : res PairIndex :=
  push_record p (single_record sensor timestamp reason).

(** The time that places a record in a window. *)
Definition pair_time (r : PairRecord) : Z :=
  if hasCamera r then cameraTimestamp r else lidarTimestamp r.

Definition getPairsWithinTimeRange (p : PairIndex) (start end_ : Z) : list PairRecord :=
  select (fun r => (start <=? pair_time r) && (pair_time r <=? end_)) (records_ p).

(** The two ways records come in. *)
Inductive add_call :=
| AddMatched (camera lidar difference : Z)
| AddSingle (sensor : string) (timestamp : Z) (reason : string).

Definition call_add (p : PairIndex) (c : add_call) : res PairIndex :=
  match c with
  | AddMatched camera lidar d => addMatched p camera lidar d
  | AddSingle sensor t reason => addSingle p sensor t reason
  end.

Fixpoint run_adds (p : PairIndex) (cs : list add_call) : res PairIndex :=
  match cs with [] => Ok p | c :: cs' => p' ← call_add p c; run_adds p' cs' end.

(** ** Specification: the whole history, numbered, cut to its newest part *)

Definition record_of (c : add_call) (id : Z) : PairRecord :=
  match c with
  | AddMatched camera lidar d => matched_record camera lidar d id
  | AddSingle sensor t reason => single_record sensor t reason id
  end.

Fixpoint history (id : Z) (cs : list add_call) : list PairRecord :=
  match cs with [] => [] | c :: cs' => record_of c id :: history (id + 1) cs' end.

Definition newest {A} (n : nat) (l : list A) : list A := drop (length l - n) l.

(** A record names the sides it has and its status says the same. *)
Definition record_ok (r : PairRecord) : Prop :=
  match hasCamera r, hasLidar r with
  | true, true => status r = "matched"%string /\ reason r = ""%string
  | true, false => status r = "camera_only"%string
  | false, true => status r = "lidar_only"%string
  | false, false => False
  end.

(** ** Lemmas *)

Lemma trim_newest p :
  trim p = Ok (mkIndex (newest (Z.to_nat maxRecords) (records_ p)) (nextId_ p)).
Proof. unfold trim. by rewrite pop_while_size. Qed.

Lemma newest_app {A} n (l k : list A) : newest n (newest n l ++ k) = newest n (l ++ k).
Proof.
  unfold newest. rewrite !length_app, length_drop.
  destruct (decide (length l <= n)%nat).
  - replace (length l - n)%nat with 0%nat by lia. rewrite drop_0. f_equal; lia.
  - rewrite <- (drop_app_le l k (length l - n)) by lia. rewrite drop_drop. f_equal. lia.
Qed.

Lemma newest_length {A} n (l : list A) : length (newest n l) = Nat.min n (length l).
Proof. unfold newest. rewrite length_drop. lia. Qed.

Lemma call_add_record p c : call_add p c = push_record p (record_of c).
Proof. by destruct c. Qed.

Lemma history_length id cs : length (history id cs) = length cs.
Proof. revert id. induction cs; simpl; auto. Qed.

Lemma history_ids id cs : pairId <$> history id cs = seqZ id (Z.of_nat (length cs)).
Proof.
  revert id. induction cs as [|c cs IH]; intros id; simpl; [done|].
  rewrite IH, Nat2Z.inj_succ, (seqZ_cons id) by lia. f_equal; [by destruct c|]. f_equal; lia.
Qed.

Lemma history_ok id cs : Forall record_ok (history id cs).
Proof.
  revert id. induction cs as [|c cs IH]; intros id; simpl; constructor; auto.
  destruct c as [|sensor t r]; [done|]. unfold record_ok. simpl.
  by destruct (bool_decide _).
Qed.

Lemma newest_ids n id cs :
  pairId <$> newest n (history id cs) =
    seqZ (id + Z.of_nat (length cs - n)) (Z.of_nat (Nat.min n (length cs))).
Proof.
  unfold newest. rewrite fmap_drop, history_ids, drop_seqZ, history_length. f_equal; lia.
Qed.

Lemma run_adds_history cs p :
  1 <= nextId_ p -> nextId_ p + Z.of_nat (length cs) < 2 ^ 64 ->
  newest (Z.to_nat maxRecords) (records_ p) = records_ p ->
  run_adds p cs =
    Ok (mkIndex (newest (Z.to_nat maxRecords) (records_ p ++ history (nextId_ p) cs))
          (nextId_ p + Z.of_nat (length cs))).
Proof.
  revert p. induction cs as [|c cs IH]; intros p Hid Hbig Hnew; simpl in *.
  - rewrite app_nil_r, Hnew, Z.add_0_r. by destruct p.
  - rewrite call_add_record. unfold push_record. rewrite trim_newest. simpl.
    rewrite u64_small by lia. rewrite IH; simpl; [|lia|lia|].
    + rewrite newest_app, <- (assoc_L (++)). simpl. f_equal. f_equal. lia.
    + rewrite <- (app_nil_r (newest _ (_ ++ _))) at 1. rewrite newest_app. by rewrite app_nil_r.
Qed.

(** ** Properties *)

(** After any number of additions (fewer than 2^64) the index holds exactly
    the newest 100000 records of the whole history, in order; their identifiers
    are consecutive and end at the number of additions, so an identifier is
    never reused; and every record names a side, with the matching status. *)
Theorem pair_index_history cs :
  Z.of_nat (length cs) < 2 ^ 64 - 1 ->
  exists p, run_adds newPairIndex cs = Ok p /\
    records_ p = newest (Z.to_nat maxRecords) (history 1 cs) /\
    Z.of_nat (length (records_ p)) <= maxRecords /\
    pairId <$> records_ p =
      seqZ (1 + Z.of_nat (length cs) - Z.of_nat (length (records_ p)))
        (Z.of_nat (length (records_ p))) /\
    Forall record_ok (records_ p).
Proof.
  intros Hlen. rewrite run_adds_history by (simpl; lia || done).
  eexists. split; [done|]. cbn [records_ newPairIndex nextId_ app].
  rewrite newest_length, history_length. split; [done|]. split; [unfold maxRecords; lia|]. split.
  - rewrite newest_ids. f_equal; lia.
  - apply Forall_drop, history_ok.
Qed.

Lemma pair_index_history_witness :
  Z.of_nat (length [AddMatched 100 103 3; AddSingle "lidar" 7 "late"]) < 2 ^ 64 - 1 /\
  exists p, run_adds newPairIndex [AddMatched 100 103 3; AddSingle "lidar" 7 "late"] = Ok p /\
    pairId <$> records_ p = seqZ 1 2.
Proof.
  split; [simpl; lia|].
  destruct (pair_index_history [AddMatched 100 103 3; AddSingle "lidar" 7 "late"]) as (p & E & _);
    [simpl; lia|].
  exists p. split; [exact E|]. vm_compute in E. injection E as <-. reflexivity.
Defined.
