(* ===== verification/DataBuffer.v ===== *)
(** * Sensor buffer ([include/databuffer.hpp])

    One time-ordered queue per sensor type, bounded by a number of messages, by
    the age of a message against the newest header time seen, and by the bytes
    of the payloads.  [std::map] over the two sensor types is a [gmap] iterated
    in the order of the enumeration. *)

From S2P Require Import Prelude SensorData.

Record DataBuffer := mkBuffer {
  queues_ : gmap SensorType (list SensorData);
  queueBytes_ : gmap SensorType Z;
  maxSize_ : Z;
  maxAge_ : Z;
  maxBytesPerSensor_ : Z;
  latestTimestamp_ : Z;
  hasLatestTimestamp_ : bool
}.

(** [size_t] has 64 bits. *)
Definition size_max : Z := uint64_max.

Definition newDataBuffer (maxSize maxAge maxBytesPerSensor : Z) : DataBuffer :=
  mkBuffer ∅ ∅ maxSize maxAge maxBytesPerSensor 0 false.

Definition set_queue (b : DataBuffer) (k : SensorType) (q : list SensorData) (bytes : Z)
    : DataBuffer :=
  mkBuffer (<[k:=q]> (queues_ b)) (<[k:=bytes]> (queueBytes_ b)) (maxSize_ b) (maxAge_ b)
    (maxBytesPerSensor_ b) (latestTimestamp_ b) (hasLatestTimestamp_ b).

Definition set_latest (b : DataBuffer) (t : Z) : DataBuffer :=
  mkBuffer (queues_ b) (queueBytes_ b) (maxSize_ b) (maxAge_ b) (maxBytesPerSensor_ b) t true.

(** [queues_[k]] and [queueBytes_[k]]: absent entries are value-initialised. *)
Definition queue (b : DataBuffer) (k : SensorType) : list SensorData :=
  default [] (queues_ b !! k).
Definition bytes (b : DataBuffer) (k : SensorType) : Z := default 0 (queueBytes_ b !! k).

(** Iteration over the map: the keys present, in the order of [SensorType]. *)
Definition entries (b : DataBuffer) : list (SensorType * list SensorData) :=
  omap (fun k => pair k <$> queues_ b !! k) [CAMERA; LIDAR].

(** [std::get] throws when the tag names the other alternative; a null message
    counts as empty. *)
Definition payloadBytes (data : SensorData) : res Z :=
  match sd_type data, sd_data data with
  | CAMERA, VCamera c => Ok (from_option (fun i => byte_size (image_data i)) 0 (camera_image c))
  | LIDAR, VLidar l => Ok (from_option (fun c => byte_size (cloud_data c)) 0 (lidar_cloud l))
  | _, _ => Err Exception
  end.

Definition popFront (s : list SensorData * Z) : res (list SensorData * Z) :=
  match s.1 with
  | [] => Err Undefined
  | front :: rest =>
      removed ← payloadBytes front;
      Ok (rest, if s.2 <? removed then 0 else s.2 - removed)
  end.

Definition over_limits (b : DataBuffer) (s : list SensorData * Z) : bool :=
  (maxSize_ b <? Z.of_nat (length s.1)) ||
  ((0 <? maxBytesPerSensor_ b) && (maxBytesPerSensor_ b <? s.2)).

Definition expired (oldestAllowed : Z) (s : list SensorData * Z) : bool :=
  match s.1 with [] => false | front :: _ => timestampOf front <? oldestAllowed end.

(** The saturating addition of the byte counter. *)
Definition add_bytes (current added : Z) : Z :=
  if size_max - current <? added then size_max else current + added.

Section with_clock.
Context `{RclTime}.

(** One entry of the loop of [evictExpiredLocked]. *)
Definition evict_entry (oldestAllowed : Z) (b : DataBuffer) (k : SensorType) : res DataBuffer :=
  match queues_ b !! k with
  | None => Ok b
  | Some q =>
      s ← while (length q) (expired oldestAllowed) popFront (q, bytes b k);
      Ok (set_queue b k s.1 s.2)
  end.

Definition evictExpiredLocked (b : DataBuffer) : res DataBuffer :=
  if (maxAge_ b <=? 0) || negb (hasLatestTimestamp_ b) then Ok b else
  oldestAllowed ← throwing (time_minus (latestTimestamp_ b) (maxAge_ b));
  b1 ← evict_entry oldestAllowed b CAMERA;
  evict_entry oldestAllowed b1 LIDAR.

(** [maxAge_ > 0 && timestamp < latestTimestamp_ - maxAge_]. *)
Definition too_old (b : DataBuffer) (timestamp : Z) : res bool :=
  if 0 <? maxAge_ b then
    oldest ← throwing (time_minus (latestTimestamp_ b) (maxAge_ b));
    Ok (timestamp <? oldest)
  else Ok false.

Definition addData (b : DataBuffer) (data : SensorData) : res DataBuffer :=
  if maxSize_ b =? 0 then Ok b else
  let timestamp := timestampOf data in
  let b := if negb (hasLatestTimestamp_ b) || (latestTimestamp_ b <? timestamp)
           then set_latest b timestamp else b in
  old ← too_old b timestamp;
  if old : bool then Ok b else
  let k := sd_type data in
  addedBytes ← payloadBytes data;
  let q := insert_by_key timestampOf data (queue b k) in
  s ← while (length q) (over_limits b) popFront (q, add_bytes (bytes b k) addedBytes);
  evictExpiredLocked (set_queue b k s.1 s.2).

End with_clock.

Definition getDataWithinTimeRange (b : DataBuffer) (start end_ : Z) : list SensorData :=
  concat (map (fun e => select
    (fun d => (start <=? timestampOf d) && (timestampOf d <=? end_)) e.2) (entries b)).

Definition getAllData (b : DataBuffer) : list SensorData := concat (map snd (entries b)).

Definition latestSensorTimestamp (b : DataBuffer) : option Z :=
  if hasLatestTimestamp_ b then Some (latestTimestamp_ b) else None.

(** ** Invariant and specification *)

Definition payload (d : SensorData) : Z :=
  match payloadBytes d with Ok n => n | Err _ => 0 end.

Definition payload_sum (q : list SensorData) : Z := foldr (fun d n => payload d + n) 0 q.

(** Data as the node builds it: the tag fits, the time is a header stamp, and the
    payload is at most [M] bytes. *)
Definition data_ok (M : Z) (d : SensorData) : Prop :=
  tagged d /\ valid_stamp (timestampOf d) /\ payload d <= M.

(** Configurations whose byte counter cannot saturate. *)
Record limits_ok (M : Z) (b : DataBuffer) : Prop := {
  lk_size : 0 <= maxSize_ b;
  lk_payload : 0 <= M;
  lk_bytes : (maxSize_ b + 1) * M <= size_max;
  lk_age : 0 <= maxAge_ b <= int32_max * ns_per_s
}.

Record queue_ok (M : Z) (b : DataBuffer) (k : SensorType) : Prop := {
  qk_sorted : StronglySorted (key_le timestampOf) (queue b k);
  qk_data : Forall (fun d => data_ok M d /\ sd_type d = k) (queue b k);
  qk_length : Z.of_nat (length (queue b k)) <= maxSize_ b;
  qk_counter : bytes b k = payload_sum (queue b k);
  qk_cap : 0 < maxBytesPerSensor_ b -> payload_sum (queue b k) <= maxBytesPerSensor_ b;
  qk_latest : Forall (fun d => timestampOf d <= latestTimestamp_ b) (queue b k);
  qk_age : 0 < maxAge_ b ->
    Forall (fun d => latestTimestamp_ b - maxAge_ b <= timestampOf d) (queue b k);
  qk_none : hasLatestTimestamp_ b = false -> queue b k = []
}.

Record buffer_ok (M : Z) (b : DataBuffer) : Prop := {
  bk_limits : limits_ok M b;
  bk_latest : hasLatestTimestamp_ b = true -> valid_stamp (latestTimestamp_ b);
  bk_queues : forall k, queue_ok M b k
}.

(** The longest suffix that satisfies a predicate on queues. *)
Fixpoint drop_until (bad : list SensorData -> bool) (q : list SensorData) : list SensorData :=
  match q with
  | [] => []
  | _ :: q' => if bad q then drop_until bad q' else q
  end.

Definition too_big (b : DataBuffer) (q : list SensorData) : bool :=
  (maxSize_ b <? Z.of_nat (length q)) ||
  ((0 <? maxBytesPerSensor_ b) && (maxBytesPerSensor_ b <? payload_sum q)).

Definition newest_stamp (b : DataBuffer) (t : Z) : Z :=
  if hasLatestTimestamp_ b then Z.max (latestTimestamp_ b) t else t.

Definition front_expired (b : DataBuffer) (latest : Z) (q : list SensorData) : bool :=
  (0 <? maxAge_ b) && expired (latest - maxAge_ b) (q, 0).

(** What the queue of sensor [k] holds after [data] came in. *)
Definition queue_after (b : DataBuffer) (data : SensorData) (k : SensorType)
    : list SensorData :=
  let latest := newest_stamp b (timestampOf data) in
  if (maxSize_ b =? 0) || ((0 <? maxAge_ b) && (timestampOf data <? latest - maxAge_ b))
  then queue b k
  else drop_until (front_expired b latest)
         (if bool_decide (sd_type data = k)
          then drop_until (too_big b) (insert_by_key timestampOf data (queue b k))
          else queue b k).

(** ** Payloads and suffixes *)

Lemma tagged_payload d : tagged d -> payloadBytes d = Ok (payload d).
Proof.
  unfold tagged, payload, payloadBytes. by destruct (sd_type d), (sd_data d).
Qed.

Lemma payload_nonneg d : 0 <= payload d.
Proof.
  unfold payload, payloadBytes.
  destruct (sd_type d), (sd_data d) as [[? []]|[? []]]; simpl; auto with datacache; lia.
Qed.

Lemma payload_sum_nonneg q : 0 <= payload_sum q.
Proof. induction q as [|d q IH]; simpl; [lia|]. pose proof (payload_nonneg d). lia. Qed.

Lemma payload_sum_bound M q :
  Forall (fun d => payload d <= M) q -> payload_sum q <= Z.of_nat (length q) * M.
Proof. induction 1; simpl; lia. Qed.

Lemma payload_sum_perm q q' : q ≡ₚ q' -> payload_sum q = payload_sum q'.
Proof. induction 1; simpl; lia. Qed.

Section drop_until.
Context (bad : list SensorData -> bool).

Lemma drop_until_drop q : exists n, drop_until bad q = drop n q.
Proof.
  induction q as [|d q [n IH]]; simpl; [by exists 0%nat|].
  destruct (bad (d :: q)); [by exists (S n)|by exists 0%nat].
Qed.

Lemma drop_until_good q : bad [] = false -> bad (drop_until bad q) = false.
Proof.
  intros H0. induction q as [|d q IH]; simpl; [done|]. by destruct (bad (d :: q)) eqn:E.
Qed.

Lemma drop_until_length q : (length (drop_until bad q) <= length q)%nat.
Proof. destruct (drop_until_drop q) as [n ->]. rewrite length_drop. lia. Qed.

Lemma drop_until_Forall (P : SensorData -> Prop) q : Forall P q -> Forall P (drop_until bad q).
Proof. destruct (drop_until_drop q) as [n ->]. apply Forall_drop. Qed.

Lemma drop_until_sorted q :
  StronglySorted (key_le timestampOf) q -> StronglySorted (key_le timestampOf) (drop_until bad q).
Proof. destruct (drop_until_drop q) as [n ->]. apply sorted_drop. Qed.

Lemma drop_until_sum q : payload_sum (drop_until bad q) <= payload_sum q.
Proof.
  induction q as [|d q IH]; simpl; [lia|]. pose proof (payload_nonneg d).
  destruct (bad (d :: q)); simpl; lia.
Qed.

End drop_until.

Lemma drop_until_ext bad bad' q :
  (forall q, bad q = bad' q) -> drop_until bad q = drop_until bad' q.
Proof. intros E. induction q as [|d q IH]; simpl; [done|]. by rewrite E, IH. Qed.

Lemma drop_until_never q : drop_until (fun _ => false) q = q.
Proof. by destruct q. Qed.

(** Popping with an exact byte counter: the loop never meets an empty queue,
    stops, and leaves the longest suffix that passes the condition. *)
Lemma pop_loop cond q fuel :
  Forall tagged q -> cond ([], 0) = false -> (length q <= fuel)%nat ->
  let r := drop_until (fun q => cond (q, payload_sum q)) q in
  while fuel cond popFront (q, payload_sum q) = Ok (r, payload_sum r).
Proof.
  intros Ht H0. revert fuel. induction Ht as [|d q Hd Ht IH]; intros fuel Hf; simpl in *.
  - by apply while_done.
  - destruct (cond (d :: q, payload d + payload_sum q)) eqn:Hc; [|by apply while_done].
    destruct fuel as [|fuel]; [lia|].
    erewrite while_step; [|done|].
    2: { unfold popFront. simpl. rewrite (tagged_payload d Hd). simpl.
         pose proof (payload_sum_nonneg q).
         destruct (Z.ltb_spec (payload d + payload_sum q) (payload d)); [lia|].
         by replace (payload d + payload_sum q - payload d) with (payload_sum q) by lia. }
    apply IH. lia.
Qed.

Lemma queue_set b k q n k' :
  queue (set_queue b k q n) k' = if bool_decide (k = k') then q else queue b k'.
Proof. unfold queue, set_queue. simpl. case_bool_decide; by simplify_map_eq. Qed.

Lemma bytes_set b k q n k' :
  bytes (set_queue b k q n) k' = if bool_decide (k = k') then n else bytes b k'.
Proof. unfold bytes, set_queue. simpl. case_bool_decide; by simplify_map_eq. Qed.

(** Everything but the queues. *)
Record same_config (b b' : DataBuffer) : Prop := {
  sc_size : maxSize_ b' = maxSize_ b;
  sc_age : maxAge_ b' = maxAge_ b;
  sc_cap : maxBytesPerSensor_ b' = maxBytesPerSensor_ b;
  sc_latest : latestTimestamp_ b' = latestTimestamp_ b;
  sc_has : hasLatestTimestamp_ b' = hasLatestTimestamp_ b
}.

Lemma same_config_set b k q n : same_config b (set_queue b k q n).
Proof. done. Qed.

Lemma same_config_trans b1 b2 b3 :
  same_config b1 b2 -> same_config b2 b3 -> same_config b1 b3.
Proof. intros [] []. constructor; congruence. Qed.

(** The queues whose counter is exact and whose data the accessors accept. *)
Definition counted (b : DataBuffer) : Prop :=
  forall k, Forall tagged (queue b k) /\ bytes b k = payload_sum (queue b k).

(** [b'] is [b] with the queue of each sensor cut by [f]. *)
Definition cut (f : SensorType -> list SensorData -> list SensorData) (b b' : DataBuffer) : Prop :=
  same_config b b' /\ counted b' /\ forall k, queue b' k = f k (queue b k).

Lemma counted_set b k q :
  counted b -> Forall tagged q -> counted (set_queue b k q (payload_sum q)).
Proof.
  intros Hb Hq k'. rewrite queue_set, bytes_set. case_bool_decide; [done|apply Hb].
Qed.

Section eviction.
Context `{RclTimeSpec}.

Lemma evict_entry_cut oldest b k :
  counted b ->
  exists b', evict_entry oldest b k = Ok b' /\
    cut (fun k' q => if bool_decide (k = k') then drop_until (fun q => expired oldest (q, 0)) q
                     else q) b b'.
Proof.
  intros Hb. unfold evict_entry. destruct (queues_ b !! k) as [q|] eqn:E.
  - assert (Eq : queue b k = q) by (unfold queue; by rewrite E).
    destruct (Hb k) as [Ht Hn]. rewrite Eq in Ht, Hn. rewrite Hn.
    rewrite (pop_loop (expired oldest) q (length q)) by done. simpl.
    eexists. split; [done|]. split; [done|]. split.
    + apply counted_set; [done|]. by apply drop_until_Forall.
    + intros k'. rewrite queue_set. case_bool_decide; [|done]. subst k'. by rewrite Eq.
  - exists b. split; [done|]. split; [done|]. split; [done|].
    intros k'. case_bool_decide; [|done]. subst k'. unfold queue. by rewrite E.
Qed.

Lemma evictExpired_cut b :
  counted b -> 0 <= maxAge_ b <= int32_max * ns_per_s ->
  hasLatestTimestamp_ b = true -> valid_stamp (latestTimestamp_ b) ->
  exists b', evictExpiredLocked b = Ok b' /\
    cut (fun _ => drop_until (front_expired b (latestTimestamp_ b))) b b'.
Proof.
  intros Hb Hage Hhas Hv. unfold evictExpiredLocked. rewrite Hhas. simpl.
  destruct (Z.leb_spec (maxAge_ b) 0) as [Hle|Hgt]; simpl.
  - exists b. split; [done|]. split; [done|]. split; [done|]. intros k.
    rewrite <- (drop_until_never (queue b k)) at 1. apply drop_until_ext. intros q.
    unfold front_expired. by replace (0 <? maxAge_ b) with false by lia.
  - rewrite stamp_minus by done. simpl.
    destruct (evict_entry_cut (latestTimestamp_ b - maxAge_ b) b CAMERA Hb)
      as (b1 & -> & C1 & N1 & Q1). simpl.
    destruct (evict_entry_cut (latestTimestamp_ b - maxAge_ b) b1 LIDAR N1)
      as (b2 & -> & C2 & N2 & Q2).
    exists b2. split; [done|]. split; [by eapply same_config_trans|]. split; [done|].
    intros k. rewrite Q2, Q1.
    assert (He : forall q, expired (latestTimestamp_ b - maxAge_ b) (q, 0) =
                 front_expired b (latestTimestamp_ b) q).
    { intros q. unfold front_expired. by replace (0 <? maxAge_ b) with true by lia. }
    destruct k; simpl; by apply drop_until_ext.
Qed.

Lemma newest_stamp_valid b d :
  (hasLatestTimestamp_ b = true -> valid_stamp (latestTimestamp_ b)) ->
  valid_stamp (timestampOf d) -> valid_stamp (newest_stamp b (timestampOf d)).
Proof.
  intros Hb Hd. unfold newest_stamp. destruct (hasLatestTimestamp_ b); [|done].
  specialize (Hb eq_refl). unfold valid_stamp in *. lia.
Qed.

(** [addData] step by step: the watermark, the age test, the insertion with its
    two limits, the eviction. *)
Lemma addData_spec M b d :
  buffer_ok M b -> data_ok M d ->
  exists b', addData b d = Ok b' /\
    cut (fun k _ => queue_after b d k)
      (if maxSize_ b =? 0 then b else set_latest b (newest_stamp b (timestampOf d))) b'.
Proof.
  intros [[Hs HM Hbig Ha] Hlat Hq] (Ht & Hv & HpM).
  assert (Hcnt : counted b).
  { intros k. destruct (Hq k) as [_ Hd _ Hc _ _ _ _]. split; [|done].
    eapply Forall_impl; [exact Hd|]. by intros x [[? _] _]. }
  pose proof (newest_stamp_valid b d Hlat Hv) as Hnew.
  unfold addData, queue_after. destruct (Z.eqb_spec (maxSize_ b) 0) as [|Hsz]; simpl.
  { exists b. split; [done|]. split; [done|]. split; [done|]. done. }
  set (b1 := set_latest b (newest_stamp b (timestampOf d))).
  assert (Hb1 : (if negb (hasLatestTimestamp_ b) || (latestTimestamp_ b <? timestampOf d)
                 then set_latest b (timestampOf d) else b) = b1).
  { unfold b1, newest_stamp. destruct (hasLatestTimestamp_ b) eqn:Eh; simpl; [|done].
    destruct (Z.ltb_spec (latestTimestamp_ b) (timestampOf d)).
    - by rewrite Z.max_r by lia.
    - rewrite Z.max_l by lia. destruct b; simpl in *. by subst. }
  rewrite Hb1. clear Hb1.
  assert (Hold : too_old b1 (timestampOf d) =
    Ok ((0 <? maxAge_ b) && (timestampOf d <? newest_stamp b (timestampOf d) - maxAge_ b))).
  { unfold too_old. simpl. destruct (0 <? maxAge_ b); [|done]. by rewrite stamp_minus. }
  rewrite Hold. simpl. destruct (_ && _).
  { exists b1. split; [done|]. split; [done|]. split; [exact Hcnt|]. done. }
  rewrite (tagged_payload d Ht). simpl.
  set (q := insert_by_key timestampOf d (queue b1 (sd_type d))).
  destruct (Hq (sd_type d)) as [_ Hd Hlen Hc _ _ _ _].
  assert (Hsum : add_bytes (bytes b1 (sd_type d)) (payload d) = payload_sum q).
  { unfold q. rewrite (payload_sum_perm _ _ (insert_by_key_perm timestampOf d _)). simpl.
    change (bytes b1 (sd_type d)) with (bytes b (sd_type d)).
    change (queue b1 (sd_type d)) with (queue b (sd_type d)). rewrite Hc.
    assert (payload_sum (queue b (sd_type d)) <= maxSize_ b * M).
    { etrans; [apply (payload_sum_bound M)|nia].
      eapply Forall_impl; [exact Hd|]. by intros x [(_ & _ & ?) _]. }
    unfold add_bytes. destruct (Z.ltb_spec (size_max - payload_sum (queue b (sd_type d))) (payload d));
      [nia|lia]. }
  assert (Htq : Forall tagged q).
  { unfold q. apply insert_by_key_Forall; [done|]. apply (Hcnt (sd_type d)). }
  rewrite Hsum, (pop_loop (over_limits b1) q (length q)); [|done| |done].
  2: { unfold over_limits, b1. cbn. lia. }
  simpl.
  destruct (evictExpired_cut (set_queue b1 (sd_type d)
      (drop_until (too_big b) q) (payload_sum (drop_until (too_big b) q))))
    as (b2 & E2 & C2 & N2 & Q2); [|exact Ha|done|exact Hnew|].
  { apply counted_set; [exact Hcnt|]. by apply drop_until_Forall. }
  exists b2. split; [exact E2|]. split; [exact (same_config_trans _ _ _ (same_config_set b1 _ _ _) C2)|].
  split; [done|].
  intros k. rewrite Q2, queue_set. unfold q. case_bool_decide; [subst k|]; done.
Qed.

End eviction.

(** ** Preservation of the invariant *)

Section preservation.
Context (M : Z) (b : DataBuffer) (d : SensorData).
Hypothesis (Hb : buffer_ok M b) (Hd : data_ok M d).

Let latest := newest_stamp b (timestampOf d).

Lemma too_big_nil : too_big b [] = false.
Proof. pose proof (lk_size _ _ (bk_limits _ _ Hb)). unfold too_big. cbn. lia. Qed.

Lemma latest_ge k : Forall (fun x => timestampOf x <= latest) (queue b k).
Proof.
  pose proof (qk_latest _ _ _ (bk_queues _ _ Hb k)) as Hl.
  destruct (hasLatestTimestamp_ b) eqn:Eh.
  - eapply Forall_impl; [exact Hl|]. unfold latest, newest_stamp. rewrite Eh. lia.
  - by rewrite (qk_none _ _ _ (bk_queues _ _ Hb k) Eh).
Qed.

(** Eviction by age removes exactly the data older than the limit. *)
Lemma drop_expired_age q :
  StronglySorted (key_le timestampOf) q -> 0 < maxAge_ b ->
  Forall (fun x => latest - maxAge_ b <= timestampOf x)
    (drop_until (front_expired b latest) q).
Proof.
  intros Hs Hage. induction Hs as [|x q Hs IH Hx]; simpl; [constructor|].
  destruct (front_expired b latest (x :: q)) eqn:E; [done|].
  unfold front_expired, expired in E. simpl in E. constructor; [lia|].
  eapply Forall_impl; [exact Hx|]. unfold key_le. lia.
Qed.

Definition inserted k :=
  if bool_decide (sd_type d = k) then drop_until (too_big b) (insert_by_key timestampOf d (queue b k))
  else queue b k.

Lemma inserted_ok k :
  StronglySorted (key_le timestampOf) (inserted k) /\
  Forall (fun x => data_ok M x /\ sd_type x = k) (inserted k) /\
  Forall (fun x => timestampOf x <= latest) (inserted k) /\
  Z.of_nat (length (inserted k)) <= maxSize_ b /\
  (0 < maxBytesPerSensor_ b -> payload_sum (inserted k) <= maxBytesPerSensor_ b).
Proof.
  destruct (bk_queues _ _ Hb k) as [Hs Hdata Hlen _ Hcap _ _ _]. pose proof (latest_ge k) as Hl.
  unfold inserted. case_bool_decide as Hk; [|done].
  assert (Hb' : too_big b (drop_until (too_big b) (insert_by_key timestampOf d (queue b k))) = false)
    by apply drop_until_good, too_big_nil.
  unfold too_big in Hb' at 1. split; [|split; [|split; [|lia]]].
  - by apply drop_until_sorted, insert_by_key_sorted.
  - by apply drop_until_Forall, insert_by_key_Forall.
  - apply drop_until_Forall, insert_by_key_Forall; [|done].
    unfold latest, newest_stamp. destruct (hasLatestTimestamp_ b); lia.
Qed.

End preservation.

Lemma addData_preserves M b d b' :
  buffer_ok M b -> data_ok M d ->
  cut (fun k _ => queue_after b d k)
    (if maxSize_ b =? 0 then b else set_latest b (newest_stamp b (timestampOf d))) b' ->
  buffer_ok M b'.
Proof.
  intros Hb Hd (Hc & Hn & Hq). pose proof Hb as [Hlim Hlat Hqs].
  pose proof (newest_stamp_valid b d Hlat (proj1 (proj2 Hd))) as Hnew.
  destruct (Z.eqb_spec (maxSize_ b) 0) as [Hz|Hz].
  - destruct Hc as [E1 E2 E3 E4 E5]. constructor.
    + destruct Hlim. constructor; congruence.
    + by rewrite E4, E5.
    + intros k. destruct (Hqs k) as [? ? ? ? ? ? ? ?]. destruct (Hn k) as [_ Hcnt].
      assert (Hk : queue b' k = queue b k).
      { rewrite Hq. unfold queue_after. by rewrite Hz. }
      constructor; rewrite ?Hk, ?E1, ?E2, ?E3, ?E4, ?E5; try done. by rewrite Hcnt, Hk.
  - destruct Hc as [E1 E2 E3 E4 E5]. simpl in E1, E2, E3, E4, E5. constructor.
    + destruct Hlim. constructor; congruence.
    + by rewrite E4.
    + intros k. destruct (Hn k) as [_ Hcnt].
      pose proof (latest_ge M b d Hb k) as Hl.
      assert (Hk : StronglySorted (key_le timestampOf) (queue b' k) /\
        Forall (fun x => data_ok M x /\ sd_type x = k) (queue b' k) /\
        Forall (fun x => timestampOf x <= newest_stamp b (timestampOf d)) (queue b' k) /\
        Z.of_nat (length (queue b' k)) <= maxSize_ b /\
        (0 < maxBytesPerSensor_ b -> payload_sum (queue b' k) <= maxBytesPerSensor_ b) /\
        (0 < maxAge_ b -> Forall (fun x => newest_stamp b (timestampOf d) - maxAge_ b <=
           timestampOf x) (queue b' k))).
      { rewrite Hq. unfold queue_after. replace (maxSize_ b =? 0) with false by lia. simpl.
        destruct (_ && _) eqn:Hold.
        - assert (Hh : hasLatestTimestamp_ b = true /\
            newest_stamp b (timestampOf d) = latestTimestamp_ b).
          { unfold newest_stamp in *. destruct (hasLatestTimestamp_ b); split; try done; lia. }
          destruct Hh as [Hh ->]. by destruct (Hqs k).
        - destruct (inserted_ok M b d Hb Hd k) as (I1 & I2 & I3 & I4 & I5).
          fold (inserted b d k). split; [by apply drop_until_sorted|].
          split; [by apply drop_until_Forall|]. split; [by apply drop_until_Forall|].
          split; [|split].
          + pose proof (drop_until_length (front_expired b (newest_stamp b (timestampOf d)))
              (inserted b d k)). lia.
          + intros Hcap. etrans; [apply drop_until_sum|auto].
          + intros Hage. by apply (drop_expired_age b d). }
      destruct Hk as (K1 & K2 & K3 & K4 & K5 & K6).
      constructor; rewrite ?E1, ?E2, ?E3, ?E4; try done. by rewrite E5.
Qed.

Lemma new_buffer_ok M maxSize maxAge cap :
  limits_ok M (newDataBuffer maxSize maxAge cap) ->
  buffer_ok M (newDataBuffer maxSize maxAge cap).
Proof.
  intros Hl. constructor; [done|done|]. intros k. destruct Hl. simpl in *.
  assert (Hq : queue (newDataBuffer maxSize maxAge cap) k = []) by by destruct k.
  assert (Hn : bytes (newDataBuffer maxSize maxAge cap) k = 0) by by destruct k.
  constructor; rewrite ?Hq, ?Hn; simpl; try done; [apply SSorted_nil|lia].
Qed.

Fixpoint add_all `{RclTime} (b : DataBuffer) (ds : list SensorData) : res DataBuffer :=
  match ds with [] => Ok b | d :: ds' => b' ← addData b d; add_all b' ds' end.

Lemma add_all_ok `{RclTimeSpec} M b ds :
  buffer_ok M b -> Forall (data_ok M) ds ->
  exists b', add_all b ds = Ok b' /\ buffer_ok M b' /\ maxSize_ b' = maxSize_ b /\
    maxAge_ b' = maxAge_ b /\ maxBytesPerSensor_ b' = maxBytesPerSensor_ b.
Proof.
  intros Hb Hds. revert b Hb. induction Hds as [|d ds Hd Hds IH]; intros b Hb; simpl; [by exists b|].
  destruct (addData_spec M b d Hb Hd) as (b1 & -> & Hcut). simpl.
  pose proof (addData_preserves M b d b1 Hb Hd Hcut) as Hb1.
  destruct (IH b1 Hb1) as (b2 & -> & Hb2 & F1 & F2 & F3). destruct Hcut as [[E1 E2 E3 _ _] _].
  exists b2. split; [done|]. split; [done|]. rewrite F1, F2, F3.
  destruct (maxSize_ b =? 0); simpl in *; by rewrite E1, E2, E3.
Qed.

(** ** Properties *)

Section properties.
Context `{RclTimeSpec}.

(** C21. Adding well-formed data to a buffer in its invariant never throws, never
    pops an empty queue and stops; the queue of each sensor becomes
    [queue_after]: data older than the age limit are not stored at all,
    otherwise the new data take their place in time order (after equal stamps),
    the sensor's queue is cut to the longest suffix within the message and byte
    limits, and both sensors' queues lose what the newest header time makes too
    old.  The byte counters stay exact and the watermark is the maximum seen. *)
Theorem addData_refines M b d :
  buffer_ok M b -> data_ok M d ->
  exists b', addData b d = Ok b' /\ buffer_ok M b' /\
    (forall k, queue b' k = queue_after b d k /\ bytes b' k = payload_sum (queue_after b d k)) /\
    (maxSize_ b <> 0 -> latestSensorTimestamp b' = Some (newest_stamp b (timestampOf d))).
Proof.
  intros Hb Hd. destruct (addData_spec M b d Hb Hd) as (b' & E & Hcut).
  exists b'. split; [done|]. split; [by apply (addData_preserves M b d)|].
  destruct Hcut as ([_ _ _ E4 E5] & Hn & Hq). split.
  - intros k. destruct (Hn k) as [_ Hc]. by rewrite Hc, Hq.
  - intros Hz. unfold latestSensorTimestamp.
    replace (maxSize_ b =? 0) with false in * by lia. by rewrite E4, E5.
Qed.

(** C22. Memory bounds over any history: starting empty and fed with data whose
    payloads are at most [M] bytes (with [(maxSize + 1) * M] within [size_t]),
    the buffer never fails, and each sensor's queue is ordered in time, holds at
    most [maxSize] messages and, when the cap is enabled, at most
    [maxBytesPerSensor] payload bytes, none older than [maxAge] before the newest
    header time. *)
Theorem buffer_bounded M maxSize maxAge cap ds :
  limits_ok M (newDataBuffer maxSize maxAge cap) -> Forall (data_ok M) ds ->
  exists b, add_all (newDataBuffer maxSize maxAge cap) ds = Ok b /\
    forall k,
      StronglySorted (key_le timestampOf) (queue b k) /\
      Z.of_nat (length (queue b k)) <= maxSize /\
      (0 < cap -> payload_sum (queue b k) <= cap) /\
      (0 < maxAge -> Forall (fun d => latestTimestamp_ b - maxAge <= timestampOf d) (queue b k)).
Proof.
  intros Hl Hds. destruct (add_all_ok M _ ds (new_buffer_ok M _ _ _ Hl) Hds)
    as (b & E & Hb & Z1 & Z2 & Z3). simpl in *.
  exists b. split; [done|]. intros k. destruct (bk_queues _ _ Hb k).
  rewrite Z1, Z2, Z3 in *. auto.
Qed.

End properties.

Lemma range_concat (P : SensorData -> bool) (es : list (SensorType * list SensorData)) :
  concat (map (fun e => select P e.2) es) = List.filter P (concat (map snd es)).
Proof.
  induction es as [|e es IH]; simpl; [done|].
  by rewrite IH, select_filter, List.filter_app.
Qed.

(** A window query returns exactly the buffered data whose header time lies
    in the closed interval, in buffer order, and adjacent windows tile: a query
    over [[start, end_]] has the same data as the query up to [m] followed by
    the query from [m] without the data stamped [m]. *)
Theorem window_query b start m end_ :
  start <= m <= end_ ->
  getDataWithinTimeRange b start end_ =
    List.filter (fun d => (start <=? timestampOf d) && (timestampOf d <=? end_)) (getAllData b) /\
  getDataWithinTimeRange b start end_ ≡ₚ
    getDataWithinTimeRange b start m ++
    List.filter (fun d => negb (timestampOf d =? m)) (getDataWithinTimeRange b m end_).
Proof.
  intros Hm. unfold getDataWithinTimeRange, getAllData. rewrite !range_concat. split; [done|].
  induction (concat (map snd (entries b))) as [|d l IH]; [done|]. simpl.
  destruct (Z.leb_spec start (timestampOf d)), (Z.leb_spec (timestampOf d) end_),
    (Z.leb_spec (timestampOf d) m), (Z.leb_spec m (timestampOf d)); simpl; try lia; try done;
    destruct (Z.eqb_spec (timestampOf d) m); simpl; try lia; try done;
    try (by constructor); rewrite <- ?Permutation_middle; by constructor.
Qed.

(** ** Concrete runs *)

Definition camera_data (t : Z) (pixels : string) : SensorData :=
  mkSensorData CAMERA (VCamera (mkCamera t (Some (mkImage t 1 1 "mono8" 1 pixels)))).
Definition lidar_data (t : Z) : SensorData :=
  mkSensorData LIDAR (VLidar (mkLidar t None)).

Definition sample_buffer : DataBuffer := newDataBuffer 3 100 10.

Lemma sample_limits : limits_ok 8 sample_buffer.
Proof. constructor; vm_compute; done || (split; discriminate). Qed.

Lemma sample_data_ok : data_ok 8 (camera_data 50 "abcd").
Proof. repeat split; vm_compute; congruence. Qed.

Lemma addData_refines_witness :
  exists b', addData sample_buffer (camera_data 50 "abcd") = Ok b' /\ buffer_ok 8 b' /\
    (forall k, queue b' k = queue_after sample_buffer (camera_data 50 "abcd") k /\
       bytes b' k = payload_sum (queue_after sample_buffer (camera_data 50 "abcd") k)) /\
    (3 <> 0 -> latestSensorTimestamp b' = Some 50).
Proof.
  apply (addData_refines 8 sample_buffer (camera_data 50 "abcd")).
  - apply new_buffer_ok, sample_limits.
  - apply sample_data_ok.
Defined.

Lemma buffer_bounded_witness :
  exists b, add_all sample_buffer [camera_data 50 "abcd"; lidar_data 60; camera_data 55 "12345678"]
      = Ok b /\
    forall k,
      StronglySorted (key_le timestampOf) (queue b k) /\
      Z.of_nat (length (queue b k)) <= 3 /\
      (0 < 10 -> payload_sum (queue b k) <= 10) /\
      (0 < 100 -> Forall (fun d => latestTimestamp_ b - 100 <= timestampOf d) (queue b k)).
Proof.
  apply (buffer_bounded 8 3 100 10); [apply sample_limits|].
  repeat constructor; vm_compute; congruence.
Defined.

Lemma window_query_witness :
  0 <= 55 <= 60 /\
  getDataWithinTimeRange (set_queue sample_buffer CAMERA [camera_data 50 "a"; camera_data 55 "b"] 2)
    0 60 ≡ₚ [camera_data 50 "a"; camera_data 55 "b"].
Proof.
  split; [lia|].
  destruct (window_query (set_queue sample_buffer CAMERA [camera_data 50 "a"; camera_data 55 "b"] 2)
    0 55 60) as [_ E]; [lia|]. exact E.
Defined.
