(* ===== verification/RouterPolicy.v ===== *)
(** * Event router policy ([include/event_router_policy.hpp])

    Idempotence by trigger identifier and cool-down by event name.  Times are
    steady-clock nanoseconds, supplied by the caller; the three
    [unordered_map]s are finite maps. *)

From S2P Require Import Prelude.

Inductive Decision := Accept | Duplicate | CoolingDown.

#[export] Instance Decision_eq_dec : EqDecision Decision.
Proof. solve_decision. Defined.

Record EventRouterPolicy := mkPolicy {
  dedupeTtl_ : Z;
  cooldown_ : Z;
  seenTriggers_ : gmap string Z;
  lastAccepted_ : gmap string Z;
  acceptedByTrigger_ : gmap string (string * Z)
}.

(** The durations are given in milliseconds.  The code converts them to the 64-bit
    nanoseconds of the clock wherever it uses them, which overflows above
    9223372036854 ms (292 years) less the reading of the clock; the model stands
    for durations below that. *)
Definition newPolicy (dedupeTtl cooldown : Z) : EventRouterPolicy :=
  mkPolicy (dedupeTtl * ns_per_ms) (cooldown * ns_per_ms) ∅ ∅ ∅.

Definition with_seen (p : EventRouterPolicy) (m : gmap string Z) : EventRouterPolicy :=
  mkPolicy (dedupeTtl_ p) (cooldown_ p) m (lastAccepted_ p) (acceptedByTrigger_ p).
Definition with_last (p : EventRouterPolicy) (m : gmap string Z) : EventRouterPolicy :=
  mkPolicy (dedupeTtl_ p) (cooldown_ p) (seenTriggers_ p) m (acceptedByTrigger_ p).
Definition with_accepted (p : EventRouterPolicy) (m : gmap string (string * Z))
    : EventRouterPolicy :=
  mkPolicy (dedupeTtl_ p) (cooldown_ p) (seenTriggers_ p) (lastAccepted_ p) m.

(** One round of the loop of [prune]. *)
Definition prune_item (now : Z) (trigger : string) (expiry : Z) (p : EventRouterPolicy)
    : EventRouterPolicy :=
  if expiry <=? now then
    let p := with_accepted p (delete trigger (acceptedByTrigger_ p)) in
    with_seen p (delete trigger (seenTriggers_ p))
  else p.

Definition prune (now : Z) (p : EventRouterPolicy) : EventRouterPolicy :=
  map_fold (prune_item now) p (seenTriggers_ p).

Definition cooling (cooldown now : Z) (previous : option Z) : bool :=
  match previous with Some t => now - t <? cooldown | None => false end.

Definition evaluate (eventName triggerId : string) (now : Z) (p : EventRouterPolicy)
    : Decision * EventRouterPolicy :=
  let p := prune now p in
  match seenTriggers_ p !! triggerId with
  | Some _ => (Duplicate, p)
  | None =>
      let p := with_seen p (<[triggerId := now + dedupeTtl_ p]> (seenTriggers_ p)) in
      if cooling (cooldown_ p) now (lastAccepted_ p !! eventName) then
        (CoolingDown, with_seen p (delete triggerId (seenTriggers_ p)))
      else
        let p := with_last p (<[eventName := now]> (lastAccepted_ p)) in
        (Accept, with_accepted p (<[triggerId := (eventName, now)]> (acceptedByTrigger_ p)))
  end.

Definition release (triggerId : string) (p : EventRouterPolicy) : EventRouterPolicy :=
  let p := with_seen p (delete triggerId (seenTriggers_ p)) in
  match acceptedByTrigger_ p !! triggerId with
  | None => p
  | Some (eventName, acceptedAt) =>
      let p :=
        match lastAccepted_ p !! eventName with
        | Some latest =>
            if latest =? acceptedAt then with_last p (delete eventName (lastAccepted_ p)) else p
        | None => p
        end in
      with_accepted p (delete triggerId (acceptedByTrigger_ p))
  end.

(** What the router node does with its policy over time. *)
Inductive router_call :=
| Evaluate (eventName triggerId : string) (now : Z)
| Release (triggerId : string).

Definition call_router (p : EventRouterPolicy) (c : router_call) : EventRouterPolicy :=
  match c with
  | Evaluate e t now => (evaluate e t now p).2
  | Release t => release t p
  end.

Definition run_router (p : EventRouterPolicy) (cs : list router_call) : EventRouterPolicy :=
  fold_left call_router cs p.

(** The decisions a sequence of calls gets. *)
Fixpoint decisions (p : EventRouterPolicy) (cs : list router_call) : list Decision :=
  match cs with
  | [] => []
  | Evaluate e t now as c :: cs' => (evaluate e t now p).1 :: decisions (call_router p c) cs'
  | Release _ as c :: cs' => decisions (call_router p c) cs'
  end.

(** The clock never goes back: every call happens at [t] or later, in order. *)
Fixpoint monotone (t : Z) (cs : list router_call) : Prop :=
  match cs with
  | [] => True
  | Evaluate _ _ now :: cs' => t <= now /\ monotone now cs'
  | Release _ :: cs' => monotone t cs'
  end.

(** The time after a sequence that starts at [t]. *)
Fixpoint end_time (t : Z) (cs : list router_call) : Z :=
  match cs with
  | [] => t
  | Evaluate _ _ now :: cs' => end_time now cs'
  | Release _ :: cs' => end_time t cs'
  end.

Definition never_releases (triggerId : string) (cs : list router_call) : Prop :=
  Release triggerId ∉ cs.

(** ** Pruning *)

Definition live (now : Z) (o : option Z) : option Z :=
  match o with Some e => if e <=? now then None else Some e | None => None end.

(** [q] is [p] without the entries of [m] that expired by [now]. *)
Record pruned_by (now : Z) (p q : EventRouterPolicy) (m : gmap string Z) : Prop := {
  pb_ttl : dedupeTtl_ q = dedupeTtl_ p;
  pb_cooldown : cooldown_ q = cooldown_ p;
  pb_last : lastAccepted_ q = lastAccepted_ p;
  pb_seen k : seenTriggers_ q !! k =
    match m !! k with Some _ => live now (m !! k) | None => seenTriggers_ p !! k end;
  pb_accepted k : acceptedByTrigger_ q !! k =
    match m !! k with
    | Some e => if e <=? now then None else acceptedByTrigger_ p !! k
    | None => acceptedByTrigger_ p !! k
    end
}.

Lemma prune_fold now p m :
  m ⊆ seenTriggers_ p -> pruned_by now p (map_fold (prune_item now) p m) m.
Proof.
  apply (map_fold_weak_ind (fun q m => m ⊆ seenTriggers_ p -> pruned_by now p q m)).
  - intros _. constructor; try done; intros k; by rewrite lookup_empty.
  - intros k e m' q Hk IH Hsub.
    assert (Hm : m' ⊆ seenTriggers_ p) by (etrans; [|exact Hsub]; by apply insert_subseteq).
    assert (Hp : seenTriggers_ p !! k = Some e).
    { eapply lookup_weaken; [|exact Hsub]. by simplify_map_eq. }
    destruct (IH Hm) as [E1 E2 E3 E4 E5]. unfold prune_item.
    destruct (Z.leb_spec e now) as [Hle|Hgt]; constructor; try done; simpl; intros k';
      destruct (decide (k = k')) as [<-|Hne]; simplify_map_eq; rewrite ?E4, ?E5, ?Hk, ?Hp;
      simpl; rewrite ?(proj2 (Z.leb_le e now)) by done;
      rewrite ?(proj2 (Z.leb_gt e now)) by done; done.
Qed.

Lemma prune_spec now p : pruned_by now p (prune now p) (seenTriggers_ p).
Proof. by apply prune_fold. Qed.

Lemma prune_seen now p k : seenTriggers_ (prune now p) !! k = live now (seenTriggers_ p !! k).
Proof. rewrite (pb_seen _ _ _ _ (prune_spec now p)). by destruct (seenTriggers_ p !! k). Qed.

Lemma prune_accepted_some now p k v :
  acceptedByTrigger_ (prune now p) !! k = Some v -> acceptedByTrigger_ p !! k = Some v.
Proof. rewrite (pb_accepted _ _ _ _ (prune_spec now p)). repeat case_match; congruence. Qed.

(** ** One call *)

(** The decision, and each map after the call. *)
Lemma evaluate_spec e t now p :
  let d :=
    match live now (seenTriggers_ p !! t) with
    | Some _ => Duplicate
    | None => if cooling (cooldown_ p) now (lastAccepted_ p !! e) then CoolingDown else Accept
    end in
  let r := evaluate e t now p in
  r.1 = d /\ dedupeTtl_ r.2 = dedupeTtl_ p /\ cooldown_ r.2 = cooldown_ p /\
  (forall k, seenTriggers_ r.2 !! k =
     if bool_decide (d = Accept /\ k = t) then Some (now + dedupeTtl_ p)
     else live now (seenTriggers_ p !! k)) /\
  (forall k, lastAccepted_ r.2 !! k =
     if bool_decide (d = Accept /\ k = e) then Some now else lastAccepted_ p !! k) /\
  (forall k, acceptedByTrigger_ r.2 !! k =
     if bool_decide (d = Accept /\ k = t) then Some (e, now)
     else acceptedByTrigger_ (prune now p) !! k).
Proof.
  cbv zeta. destruct (prune_spec now p) as [E1 E2 E3 _ _]. unfold evaluate.
  pose proof (prune_seen now p) as Hs. rewrite Hs.
  destruct (live now (seenTriggers_ p !! t)) eqn:Hd; cbn [fst snd].
  { rewrite E1, E2, E3. split_and!; try done; intros k;
      rewrite bool_decide_eq_false_2 by (by intros [? _]); rewrite ?Hs; done. }
  cbn [with_seen with_last with_accepted dedupeTtl_ cooldown_ seenTriggers_ lastAccepted_
       acceptedByTrigger_].
  rewrite E1, E2, E3. destruct (cooling (cooldown_ p) now (lastAccepted_ p !! e)) eqn:Hc;
    cbn [fst snd with_seen with_last with_accepted dedupeTtl_ cooldown_ seenTriggers_ lastAccepted_
         acceptedByTrigger_]; (split_and!; [done..| | |]); intros k.
  - rewrite bool_decide_eq_false_2 by (by intros [? _]).
    destruct (decide (t = k)) as [<-|]; simplify_map_eq; [done|by rewrite Hs].
  - rewrite bool_decide_eq_false_2 by (by intros [? _]). by rewrite E3.
  - by rewrite bool_decide_eq_false_2 by (by intros [? _]).
  - case_bool_decide as Hk.
    + destruct Hk as [_ ->]. by simplify_map_eq.
    + assert (t <> k) by (intros ->; by destruct Hk). simplify_map_eq. by rewrite Hs.
  - case_bool_decide as Hk.
    + destruct Hk as [_ ->]. by simplify_map_eq.
    + assert (e <> k) by (intros ->; by destruct Hk). by simplify_map_eq.
  - case_bool_decide as Hk.
    + destruct Hk as [_ ->]. by simplify_map_eq.
    + assert (t <> k) by (intros ->; by destruct Hk). by simplify_map_eq.
Qed.

Lemma release_spec t p :
  let r := release t p in
  dedupeTtl_ r = dedupeTtl_ p /\ cooldown_ r = cooldown_ p /\
  seenTriggers_ r = delete t (seenTriggers_ p) /\
  acceptedByTrigger_ r = delete t (acceptedByTrigger_ p) /\
  (forall k, lastAccepted_ r !! k =
     match acceptedByTrigger_ p !! t with
     | Some (e, x) => if bool_decide (k = e /\ lastAccepted_ p !! e = Some x) then None
                      else lastAccepted_ p !! k
     | None => lastAccepted_ p !! k
     end).
Proof.
  cbv zeta. unfold release.
  cbn [with_seen with_last with_accepted dedupeTtl_ cooldown_ seenTriggers_ lastAccepted_
       acceptedByTrigger_].
  destruct (acceptedByTrigger_ p !! t) as [[e x]|] eqn:Ha; simpl.
  - destruct (lastAccepted_ p !! e) as [y|] eqn:Hl; [destruct (Z.eqb_spec y x) as [->|]|]; simpl;
      (split_and!; [done..|]); intros k; case_bool_decide as Hk;
      try (destruct Hk as [_ ?]; congruence); try done.
    + destruct Hk as [-> _]. by simplify_map_eq.
    + assert (e <> k) by (intros ->; by destruct Hk). by simplify_map_eq.
  - split_and!; try done. by rewrite delete_id.
Qed.

(** ** Deduplication *)

Lemma live_some now o e : live now o = Some e <-> o = Some e /\ now < e.
Proof.
  destruct o as [x|]; simpl; [|by split; [|intros [? _]]].
  destruct (Z.leb_spec x now); split; [done|intros [? ?]; simplify_eq; lia| |by intros [? _]].
  intros. simplify_eq. done.
Qed.

Lemma live_later now now' o e : now <= now' -> live now' o = Some e -> live now o = Some e.
Proof. rewrite !live_some. intros ? [? ?]. split; [done|lia]. Qed.

Lemma call_router_ttl p c : dedupeTtl_ (call_router p c) = dedupeTtl_ p.
Proof. destruct c as [e t now|t]; simpl; [apply (evaluate_spec e t now p)|apply (release_spec t p)]. Qed.
Lemma call_router_cooldown p c : cooldown_ (call_router p c) = cooldown_ p.
Proof. destruct c as [e t now|t]; simpl; [apply (evaluate_spec e t now p)|apply (release_spec t p)]. Qed.

Lemma never_releases_cons t c cs :
  never_releases t (c :: cs) -> c <> Release t /\ never_releases t cs.
Proof. unfold never_releases. set_solver. Qed.

Lemma end_time_ge t cs : monotone t cs -> t <= end_time t cs.
Proof.
  revert t. induction cs as [|[e t' now|t'] cs IH]; intros t Hm; simpl in *; [lia| |auto].
  destruct Hm as [? Hm]. apply IH in Hm. lia.
Qed.

Lemma run_router_cooldown cs p : cooldown_ (run_router p cs) = cooldown_ p.
Proof.
  unfold run_router. revert p. induction cs as [|c cs IH]; intros p; simpl; [done|].
  by rewrite IH, call_router_cooldown.
Qed.

Lemma run_router_ttl cs p : dedupeTtl_ (run_router p cs) = dedupeTtl_ p.
Proof.
  unfold run_router. revert p. induction cs as [|c cs IH]; intros p; simpl; [done|].
  by rewrite IH, call_router_ttl.
Qed.

(** A trigger that is remembered until [expiry] stays remembered before that. *)
Lemma seen_stays t0 p cs t expiry :
  seenTriggers_ p !! t = Some expiry -> never_releases t cs -> monotone t0 cs ->
  t0 < expiry -> end_time t0 cs < expiry ->
  seenTriggers_ (run_router p cs) !! t = Some expiry.
Proof.
  unfold run_router. revert t0 p. induction cs as [|[e t' now|t'] cs IH];
    intros t0 p Hs Hr Hm H0 He; simpl in *; [done|..];
    apply never_releases_cons in Hr as [Hne Hr].
  - destruct Hm as [Hm1 Hm2].
    pose proof (end_time_ge now cs Hm2) as Hend.
    apply (IH now); try done; [|lia].
    destruct (evaluate_spec e t' now p) as (_ & _ & _ & Es & _). rewrite Es, Hs. clear Es.
    assert (Hl : live now (Some expiry) = Some expiry) by (apply live_some; split; [done|lia]).
    case_bool_decide as Hk; [|done]. destruct Hk as [Hk ->]. rewrite Hs, Hl in Hk. done.
  - apply (IH t0); try done.
    destruct (release_spec t' p) as (_ & _ & Es & _). rewrite Es.
    rewrite lookup_delete_ne; [done|]. congruence.
Qed.

(** ** Cool-down *)

(** Between an acceptance of [e] at [x] and its cool-down, [lastAccepted_] names
    it; a trigger on record for [(e, x)] is the only one. *)
Record accounted (now : Z) (p : EventRouterPolicy) : Prop := {
  ac_last t e x : acceptedByTrigger_ p !! t = Some (e, x) ->
    x <= now /\ (lastAccepted_ p !! e = Some x \/ x + cooldown_ p <= now);
  ac_unique t t' e x : acceptedByTrigger_ p !! t = Some (e, x) ->
    acceptedByTrigger_ p !! t' = Some (e, x) -> t = t' \/ x + cooldown_ p <= now
}.

Lemma accounted_new ttl cooldown now : accounted now (newPolicy ttl cooldown).
Proof. constructor; simpl; intros *; by rewrite lookup_empty. Qed.

Lemma cooling_false cooldown now x : cooling cooldown now (Some x) = false -> x + cooldown <= now.
Proof. simpl. lia. Qed.

Lemma evaluate_accept e t now p :
  (evaluate e t now p).1 = Accept -> cooling (cooldown_ p) now (lastAccepted_ p !! e) = false.
Proof.
  destruct (evaluate_spec e t now p) as (-> & _). repeat case_match; done.
Qed.

Lemma evaluate_accounted t0 e t now p :
  accounted t0 p -> t0 <= now -> accounted now (evaluate e t now p).2.
Proof.
  intros [Hl Hu] Hn.
  destruct (evaluate_spec e t now p) as (Ed & _ & Ec & _ & El & Ea). rewrite <- Ed in El, Ea.
  assert (Hacc : (evaluate e t now p).1 = Accept -> forall k x,
    acceptedByTrigger_ p !! k = Some (e, x) -> x + cooldown_ p <= now).
  { intros Hc k x Hk. apply evaluate_accept in Hc. destruct (Hl k e x Hk) as [? [Hx|?]]; [|lia].
    rewrite Hx in Hc. by apply cooling_false. }
  constructor; rewrite ?Ec.
  - intros k e' x. rewrite Ea, El. case_bool_decide as Hk.
    + intros. simplify_eq. rewrite bool_decide_eq_true_2 by naive_solver. split; [lia|auto].
    + intros Hx%prune_accepted_some. destruct (Hl _ _ _ Hx) as [? Hor]. split; [lia|].
      case_bool_decide as He; [|destruct Hor; [auto|right; lia]].
      destruct He as [He ->]. right. eauto.
  - intros k k' e' x. rewrite !Ea. case_bool_decide as Hk; case_bool_decide as Hk'.
    + destruct Hk as [_ ->], Hk' as [_ ->]. auto.
    + intros ? Hx%prune_accepted_some. simplify_eq. right. destruct Hk. eauto.
    + intros Hx%prune_accepted_some ?. simplify_eq. right. destruct Hk'. eauto.
    + intros Hx%prune_accepted_some Hx'%prune_accepted_some.
      destruct (Hu _ _ _ _ Hx Hx'); [auto|right; lia].
Qed.

Lemma release_accounted now t p : accounted now p -> accounted now (release t p).
Proof.
  intros [Hl Hu]. destruct (release_spec t p) as (_ & Ec & _ & Ea & El).
  constructor; rewrite Ec, Ea.
  - intros k e x Hk. apply lookup_delete_Some in Hk as [Hne Hk].
    destruct (Hl _ _ _ Hk) as [? Hor]. split; [done|]. rewrite El.
    destruct (acceptedByTrigger_ p !! t) as [[e' x']|] eqn:Ht; [|done].
    case_bool_decide as Hd; [|done]. destruct Hd as [-> Hx'].
    destruct Hor as [Hx|]; [|auto]. rewrite Hx' in Hx. simplify_eq.
    destruct (Hu _ _ _ _ Ht Hk); [done|auto].
  - intros k k' e x Hk Hk'. apply lookup_delete_Some in Hk as [_ Hk].
    apply lookup_delete_Some in Hk' as [_ Hk']. eauto.
Qed.

Lemma run_router_accounted cs t0 p :
  accounted t0 p -> monotone t0 cs -> accounted (end_time t0 cs) (run_router p cs).
Proof.
  unfold run_router. revert t0 p. induction cs as [|[e t now|t] cs IH]; intros t0 p Ha Hm;
    simpl in *; [done|..].
  - destruct Hm. apply IH; [by eapply evaluate_accounted|done].
  - apply IH; [by apply release_accounted|done].
Qed.

(** The acceptance of [e] at [x] by [t] still blocks, or its cool-down is over. *)
Definition blocks (now x : Z) (e t : string) (p : EventRouterPolicy) : Prop :=
  (lastAccepted_ p !! e = Some x /\
     forall k, acceptedByTrigger_ p !! k = Some (e, x) -> k = t) \/
  x + cooldown_ p <= now.

Lemma run_router_blocks cs now x e t p :
  blocks now x e t p -> x <= now -> monotone now cs -> never_releases t cs ->
  blocks (end_time now cs) x e t (run_router p cs).
Proof.
  unfold run_router. revert now p. induction cs as [|[e' t' now'|t'] cs IH];
    intros now p Hb Hx Hm Hr; simpl in *; [done|..];
    apply never_releases_cons in Hr as [Hne Hr].
  - destruct Hm as [Hm1 Hm2]. apply IH; [|lia|done|done].
    destruct (evaluate_spec e' t' now' p) as (Ed & _ & Ec & _ & El & Ea). rewrite <- Ed in El, Ea.
    destruct Hb as [[Hl Hk]|Hb]; [|right; rewrite Ec; lia].
    destruct (decide ((evaluate e' t' now' p).1 = Accept /\ e = e')) as [[Hacc ->]|Hno].
    + right. rewrite Ec. apply evaluate_accept in Hacc. rewrite Hl in Hacc.
      by apply cooling_false.
    + left. rewrite El, bool_decide_eq_false_2 by done. split; [done|].
      intros k. rewrite Ea. case_bool_decide as Hd; [naive_solver|].
      intros ?%prune_accepted_some. auto.
  - apply IH; [|done|done|done].
    destruct (release_spec t' p) as (_ & Ec & _ & Ea & El).
    destruct Hb as [[Hl Hk]|Hb]; [left|right; by rewrite Ec].
    assert (t' <> t) by congruence. rewrite El, Ea. split.
    + destruct (acceptedByTrigger_ p !! t') as [[e1 x1]|] eqn:Ht; [|done].
      rewrite bool_decide_eq_false_2; [done|]. intros [<- Hx1]. rewrite Hl in Hx1. simplify_eq.
      by apply Hk in Ht.
    + intros k Hd. apply lookup_delete_Some in Hd as [_ Hd]. auto.
Qed.

(** ** Observational equivalence *)

(** Two policies agree from [now] on: they differ at most in the names they
    remember as last accepted whose cool-down is already over. *)
Record policy_equiv (now : Z) (p q : EventRouterPolicy) : Prop := {
  pe_ttl : dedupeTtl_ p = dedupeTtl_ q;
  pe_cooldown : cooldown_ p = cooldown_ q;
  pe_seen : seenTriggers_ p = seenTriggers_ q;
  pe_accepted : acceptedByTrigger_ p = acceptedByTrigger_ q;
  pe_last e : lastAccepted_ p !! e = lastAccepted_ q !! e \/
    cooling (cooldown_ p) now (lastAccepted_ p !! e) = false /\
    cooling (cooldown_ q) now (lastAccepted_ q !! e) = false
}.

#[export] Instance policy_equiv_equivalence now : Equivalence (policy_equiv now).
Proof.
  split.
  - intros p. by constructor; auto.
  - intros p q []. constructor; try done. intros e. destruct (pe_last0 e) as [|[]]; auto.
  - intros p q r [] []. constructor; try congruence. intros e.
    destruct (pe_last0 e) as [E|[]], (pe_last1 e) as [E'|[]]; rewrite ?E, ?E', ?pe_cooldown0,
      ?pe_cooldown1 in *; auto; right; rewrite <- ?E'; auto.
Qed.

Lemma cooling_later cooldown now now' o :
  now <= now' -> cooling cooldown now o = false -> cooling cooldown now' o = false.
Proof. destruct o; simpl; [lia|done]. Qed.

Lemma policy_equiv_later now now' p q :
  now <= now' -> policy_equiv now p q -> policy_equiv now' p q.
Proof.
  intros Hn []. constructor; try done. intros e.
  destruct (pe_last0 e) as [|[]]; [auto|right; eauto using cooling_later].
Qed.

Lemma prune_equiv now p q :
  seenTriggers_ p = seenTriggers_ q -> acceptedByTrigger_ p = acceptedByTrigger_ q ->
  acceptedByTrigger_ (prune now p) = acceptedByTrigger_ (prune now q).
Proof.
  intros Hs Ha. apply map_eq. intros k.
  rewrite !(pb_accepted _ _ _ _ (prune_spec now _)). by rewrite Hs, Ha.
Qed.

Lemma policy_equiv_cooling now p q e :
  policy_equiv now p q ->
  cooling (cooldown_ p) now (lastAccepted_ p !! e) =
  cooling (cooldown_ q) now (lastAccepted_ q !! e).
Proof. intros []. destruct (pe_last0 e) as [->|[-> ->]]; congruence. Qed.

#[export] Instance evaluate_proper e t now :
  Proper (policy_equiv now ==> prod_relation eq (policy_equiv now)) (evaluate e t now).
Proof.
  intros p q Hpq. pose proof (policy_equiv_cooling now p q e Hpq) as Hc.
  destruct (evaluate_spec e t now p) as (Ed & Et & Ec & Es & El & Ea).
  destruct (evaluate_spec e t now q) as (Ed' & Et' & Ec' & Es' & El' & Ea').
  rewrite <- Ed in Es, El, Ea. rewrite <- Ed' in Es', El', Ea'.
  assert (Hd : (evaluate e t now p).1 = (evaluate e t now q).1)
    by (rewrite Ed, Ed', (pe_seen _ _ _ Hpq), Hc; done).
  split; [exact Hd|]. rewrite <- Hd in Es', El', Ea'. destruct Hpq. constructor.
  - congruence.
  - congruence.
  - apply map_eq. intros k. rewrite Es, Es'. by rewrite pe_ttl0, pe_seen0.
  - apply map_eq. intros k. rewrite Ea, Ea'. by rewrite (prune_equiv now p q).
  - intros e'. rewrite El, El', Ec, Ec'. case_bool_decide; auto.
Qed.

#[export] Instance release_proper t now :
  Proper (policy_equiv now ==> policy_equiv now) (release t).
Proof.
  intros p q Hpq. destruct (release_spec t p) as (Et & Ec & Es & Ea & El).
  destruct (release_spec t q) as (Et' & Ec' & Es' & Ea' & El').
  destruct Hpq. constructor; try congruence.
  intros e. rewrite El, El', Ec, Ec', <- pe_accepted0.
  destruct (acceptedByTrigger_ p !! t) as [[e' x]|]; [|done].
  destruct (pe_last0 e) as [E|[E1 E2]].
  - destruct (decide (e = e')) as [<-|Hne].
    + rewrite E. by left.
    + rewrite !bool_decide_eq_false_2 by (by intros [? _]). by left.
  - right. repeat case_bool_decide; done.
Qed.

(** Every trigger on record as accepted is still remembered. *)
Definition tracked (p : EventRouterPolicy) : Prop :=
  forall t, seenTriggers_ p !! t = None -> acceptedByTrigger_ p !! t = None.

Lemma prune_tracked now p : tracked p -> tracked (prune now p).
Proof.
  intros Hp t. rewrite prune_seen, (pb_accepted _ _ _ _ (prune_spec now p)).
  destruct (seenTriggers_ p !! t) as [e|] eqn:E; simpl; [by destruct (e <=? now)|auto].
Qed.

Lemma run_router_tracked cs p : tracked p -> tracked (run_router p cs).
Proof.
  unfold run_router. revert p. induction cs as [|[e t now|t] cs IH]; intros p Hp; simpl; [done|..];
    apply IH.
  - destruct (evaluate_spec e t now p) as (Ed & _ & _ & Es & _ & Ea). rewrite <- Ed in Es, Ea.
    intros k. rewrite Es, Ea. case_bool_decide; [done|]. rewrite <- prune_seen.
    apply prune_tracked, Hp.
  - destruct (release_spec t p) as (_ & _ & Es & Ea & _). intros k. rewrite Es, Ea.
    destruct (decide (t = k)) as [<-|]; simplify_map_eq; auto.
Qed.

Lemma tracked_new ttl cooldown : tracked (newPolicy ttl cooldown).
Proof. intros t _. apply lookup_empty. Qed.

Lemma release_undoes e t now p :
  tracked p -> (evaluate e t now p).1 = Accept ->
  policy_equiv now (release t (evaluate e t now p).2) (prune now p).
Proof.
  intros Hp Hacc. pose proof (evaluate_accept _ _ _ _ Hacc) as Hc.
  destruct (prune_spec now p) as [P1 P2 P3 _ _].
  destruct (evaluate_spec e t now p) as (Ed & Et & Ec & Es & El & Ea).
  destruct (live now (seenTriggers_ p !! t)) eqn:Hlive; [congruence|].
  rewrite <- Ed, Hacc in Es, El, Ea.
  destruct (release_spec t (evaluate e t now p).2) as (Rt & Rc & Rs & Ra & Rl).
  assert (Hnone : acceptedByTrigger_ (prune now p) !! t = None).
  { apply prune_tracked; [done|]. by rewrite prune_seen. }
  constructor.
  - congruence.
  - congruence.
  - rewrite Rs. apply map_eq. intros k. rewrite prune_seen.
    destruct (decide (t = k)) as [<-|Hne]; [by simplify_map_eq|].
    rewrite lookup_delete_ne by done. rewrite Es, bool_decide_eq_false_2; [done|]. by intros [_ ->].
  - rewrite Ra. apply map_eq. intros k.
    destruct (decide (t = k)) as [<-|Hne]; [by simplify_map_eq|].
    rewrite lookup_delete_ne by done. rewrite Ea, bool_decide_eq_false_2; [done|]. by intros [_ ->].
  - intros e'. rewrite Rl, Ea, bool_decide_eq_true_2 by done. rewrite !El, P3, P2.
    rewrite (bool_decide_eq_true_2 (Accept = Accept /\ e = e)) by done.
    destruct (decide (e' = e)) as [->|Hne].
    + rewrite bool_decide_eq_true_2 by done. right. by rewrite Hc.
    + rewrite !bool_decide_eq_false_2 by (by intros [? ?]). by left.
Qed.

Lemma decisions_equiv now cs p q :
  policy_equiv now p q -> monotone now cs -> decisions p cs = decisions q cs.
Proof.
  revert now p q. induction cs as [|[e t n|t] cs IH]; intros now p q Hpq Hm; simpl in *; [done|..].
  - destruct Hm as [Hn Hm]. apply (policy_equiv_later _ n) in Hpq; [|done].
    destruct (evaluate_proper e t n p q Hpq) as [Ed Hr]. f_equal; [exact Ed|].
    by apply (IH n).
  - apply (IH now); [|done]. by apply release_proper.
Qed.

(** ** Properties *)

(** Idempotence: once a trigger is accepted, every further request with the
    same identifier within the deduplication time is answered [Duplicate],
    whatever events and triggers are evaluated or released in between, unless
    the trigger itself is released. *)
Theorem accepted_trigger_deduplicated p e t now cs e' now' :
  (evaluate e t now p).1 = Accept ->
  monotone now cs -> never_releases t cs ->
  end_time now cs <= now' < now + dedupeTtl_ p ->
  (evaluate e' t now' (run_router (evaluate e t now p).2 cs)).1 = Duplicate.
Proof.
  intros Hacc Hm Hr Hn.
  destruct (evaluate_spec e t now p) as (Ed & _ & _ & Es & _). rewrite <- Ed, Hacc in Es.
  specialize (Es t). rewrite bool_decide_eq_true_2 in Es by done.
  pose proof (end_time_ge _ _ Hm).
  pose proof (seen_stays now _ cs t _ Es Hr Hm ltac:(lia) ltac:(lia)) as Hs.
  destruct (evaluate_spec e' t now' (run_router (evaluate e t now p).2 cs)) as (-> & _).
  rewrite Hs. simpl. by replace (now + dedupeTtl_ p <=? now') with false by lia.
Qed.

(** Cool-down: along any history of a fresh policy with a clock that does not
    go back, two accepted requests for the same event are at least the cool-down
    apart, unless the first one's trigger was released in between. *)
Theorem accepted_events_spaced ttl cooldown t0 pre e t1 now1 cs t2 now2 :
  let p := run_router (newPolicy ttl cooldown) pre in
  let p1 := (evaluate e t1 now1 p).2 in
  monotone t0 pre -> end_time t0 pre <= now1 ->
  (evaluate e t1 now1 p).1 = Accept ->
  monotone now1 cs -> never_releases t1 cs -> end_time now1 cs <= now2 ->
  (evaluate e t2 now2 (run_router p1 cs)).1 = Accept ->
  cooldown * ns_per_ms <= now2 - now1.
Proof.
  intros p p1 Hm0 H01 Hacc Hm Hr Hn Hacc2.
  assert (Hp : accounted (end_time t0 pre) p) by (apply run_router_accounted; [apply accounted_new|done]).
  assert (Hc : cooldown_ p = cooldown * ns_per_ms) by (unfold p; by rewrite run_router_cooldown).
  destruct (evaluate_spec e t1 now1 p) as (Ed & _ & Ec & _ & El & Ea).
  rewrite <- Ed, Hacc in El, Ea. fold p1 in Ec, El, Ea.
  pose proof (evaluate_accept _ _ _ _ Hacc) as Hnc.
  assert (Hb : blocks now1 now1 e t1 p1).
  { destruct (Z.le_gt_cases (cooldown_ p1) 0); [right; lia|left]. split.
    - by rewrite El, bool_decide_eq_true_2.
    - intros k. rewrite Ea. case_bool_decide as Hk; [by destruct Hk|].
      intros Hx%prune_accepted_some. exfalso. rewrite Ec in *.
      destruct (ac_last _ _ Hp _ _ _ Hx) as [? [Hx'|?]]; [|lia].
      rewrite Hx' in Hnc. apply cooling_false in Hnc. lia. }
  apply (run_router_blocks cs _ _ _ _ _ Hb) in Hr; [|lia|done].
  apply evaluate_accept in Hacc2. rewrite run_router_cooldown, Ec in Hacc2.
  destruct Hr as [[Hl _]|Hr]; [|rewrite run_router_cooldown, Ec in Hr; lia].
  rewrite Hl in Hacc2. apply cooling_false in Hacc2. lia.
Qed.

(** A failed trigger costs nothing: when an accepted request is released (the
    trigger call failed), every later decision is the one the policy would give
    had the request never been evaluated; in particular it can be retried. *)
Theorem release_rolls_back ttl cooldown pre e t now cs :
  let p := run_router (newPolicy ttl cooldown) pre in
  (evaluate e t now p).1 = Accept -> monotone now cs ->
  decisions (release t (evaluate e t now p).2) cs = decisions (prune now p) cs.
Proof.
  intros p Hacc Hm. apply (decisions_equiv now); [|done].
  apply release_undoes; [|done]. apply run_router_tracked, tracked_new.
Qed.

(** ** Concrete runs *)

Definition sample_history : list router_call :=
  [Evaluate "crash" "t1" 10; Evaluate "brake" "t2" 20; Release "t2"].

Lemma accepted_trigger_deduplicated_witness :
  (evaluate "crash" "t9" 5 (newPolicy 1 2)).1 = Accept /\
  (evaluate "other" "t9" 900000
    (run_router (evaluate "crash" "t9" 5 (newPolicy 1 2)).2 sample_history)).1 = Duplicate.
Proof.
  split; [vm_compute; reflexivity|].
  apply accepted_trigger_deduplicated; [vm_compute; reflexivity| | |vm_compute; split; congruence].
  - vm_compute. repeat split; congruence.
  - unfold never_releases, sample_history. set_solver.
Defined.

Lemma accepted_events_spaced_witness :
  2 * ns_per_ms <= 2000100 - 100.
Proof.
  apply (accepted_events_spaced 1 2 0 sample_history "door" "t5" 100
    [Evaluate "door" "t6" 300] "t7" 2000100).
  - vm_compute. repeat split; congruence.
  - vm_compute. congruence.
  - vm_compute. reflexivity.
  - vm_compute. split; [congruence|done].
  - unfold never_releases. set_solver.
  - vm_compute. congruence.
  - vm_compute. reflexivity.
Defined.

Lemma release_rolls_back_witness :
  decisions (release "t5" (evaluate "door" "t5" 100
      (run_router (newPolicy 1 2) sample_history)).2)
    [Evaluate "door" "t5" 110; Evaluate "crash" "t8" 120] =
  decisions (prune 100 (run_router (newPolicy 1 2) sample_history))
    [Evaluate "door" "t5" 110; Evaluate "crash" "t8" 120].
Proof.
  apply release_rolls_back; [vm_compute; reflexivity|]. vm_compute. repeat split; congruence.
Defined.
