(* ===== verification/TriggerPolicy.v ===== *)
(** * TriggerPolicy: event names, key bindings and key debouncing

    Models src/include/event_trigger_policy.hpp.  A [std::map] or
    [std::unordered_map] from characters is a finite map; a steady-clock time is
    its nanosecond count. *)

From S2P Require Import Prelude Text.

(** ** Event names *)

Definition trim (value : string) : string := strip isspace value.

Definition validEventChar (c : ascii) : bool :=
  isalnum c || Ascii.eqb c "_" || Ascii.eqb c "-" || Ascii.eqb c ".".

Definition validEventName (name : string) : bool :=
  match name with
  | EmptyString => false
  | String front _ =>
      (String.length name <=? 96)%nat && isalnum front && str_all validEventChar name
  end.

(** One round of the loop of [parseEventNames]: [events] and [seen]. *)
Definition parseEventNamesStep (acc : list string * gset string) (piece : string)
    : list string * gset string :=
  let '(events, seen) := acc in
  let name := trim piece in
  if validEventName name && bool_decide (name ∉ seen) then (events ++ [name], {[name]} ∪ seen)
  else (events, seen).

Definition parseEventNames (configured : string) : list string :=
  (fold_left parseEventNamesStep (split_on "," configured) ([], ∅)).1.

Definition parseKeyBindingsStep (bindings : gmap ascii string) (entry : string)
    : gmap ascii string :=
  match cut_at "=" entry with
  | None => bindings
  | Some (before, after) =>
      let key := trim before in
      let event := trim after in
      match key with
      | String c EmptyString => if validEventName event then <[c := event]> bindings else bindings
      | _ => bindings
      end
  end.

Definition parseKeyBindings (configured : list string) : gmap ascii string :=
  fold_left parseKeyBindingsStep configured ∅.

(** ** The debouncer *)

Record QuietPeriodDebouncer := {
  quietPeriod : Z;                     (* milliseconds *)
  lastInput : gmap ascii Z
}.

Definition newDebouncer (quiet : Z) : QuietPeriodDebouncer :=
  {| quietPeriod := quiet; lastInput := ∅ |}.

Definition accept (key : ascii) (now : Z) (d : QuietPeriodDebouncer) : bool * QuietPeriodDebouncer :=
  let accepted :=
    match lastInput d !! key with
    | None => true
    | Some found => now - found >=? quietPeriod d * ns_per_ms
    end in
  (accepted, {| quietPeriod := quietPeriod d; lastInput := <[key := now]> (lastInput d) |}).

(** The answers to a sequence of key presses. *)
Fixpoint accept_all (inputs : list (ascii * Z)) (d : QuietPeriodDebouncer) : list bool :=
  match inputs with
  | [] => []
  | (key, now) :: rest => let '(accepted, d') := accept key now d in accepted :: accept_all rest d'
  end.

(** ** Lemmas on event names *)

Lemma validEventName_spec name :
  validEventName name = true <->
    exists c s, name = String c s /\ (String.length name <= 96)%nat /\ isalnum c = true /\
      str_all validEventChar name = true.
Proof.
  destruct name as [|c s]; unfold validEventName.
  - split; [done|]. by intros (? & ? & ? & _).
  - rewrite !andb_true_iff, Nat.leb_le. naive_solver.
Qed.

Lemma validEventName_chars name : validEventName name = true -> str_all validEventChar name = true.
Proof. rewrite validEventName_spec. naive_solver. Qed.

Lemma validEventName_lacks c name :
  validEventName name = true -> validEventChar c = false -> lacks c name.
Proof. intros Hn Hc. eapply lacks_of_class; [exact Hc|by apply validEventName_chars]. Qed.

Lemma validEventChar_not_space c : validEventChar c = true -> isspace c = false.
Proof.
  unfold validEventChar. rewrite !orb_true_iff, !Ascii.eqb_eq.
  intros [[[Hc| ->]| ->]| ->]; [|done..].
  unfold isalnum, isdigit, isupper, islower, isspace in *. lia.
Qed.

Lemma trim_valid name : validEventName name = true -> trim name = name.
Proof.
  intros Hn. apply strip_id. eapply str_all_impl; [|by apply validEventName_chars].
  intros c Hc. by rewrite validEventChar_not_space.
Qed.

(** The first occurrences, in order, of the valid names. *)
Fixpoint first_occurrences (seen : gset string) (names : list string) : list string :=
  match names with
  | [] => []
  | name :: rest =>
      if bool_decide (name ∈ seen) then first_occurrences seen rest
      else name :: first_occurrences ({[name]} ∪ seen) rest
  end.

Definition valid_names (pieces : list string) : list string :=
  List.filter validEventName (trim <$> pieces).

Lemma parseEventNames_fold pieces events seen :
  (fold_left parseEventNamesStep pieces (events, seen)).1 =
    events ++ first_occurrences seen (valid_names pieces).
Proof.
  unfold valid_names. revert events seen.
  induction pieces as [|piece pieces IH]; intros events seen; simpl; [by rewrite app_nil_r|].
  destruct (validEventName (trim piece)); simpl; [|apply IH].
  destruct (decide (trim piece ∈ seen)) as [Hs|Hs].
  - rewrite bool_decide_false, bool_decide_true by auto. apply IH.
  - rewrite bool_decide_true, bool_decide_false by auto. rewrite IH. by rewrite <- (assoc_L (++)).
Qed.

Lemma first_occurrences_spec seen names :
  NoDup (first_occurrences seen names) /\
  (forall n, n ∈ first_occurrences seen names <-> n ∈ names /\ n ∉ seen) /\
  first_occurrences seen names `sublist_of` names.
Proof.
  revert seen. induction names as [|name names IH]; intros seen; simpl.
  - split; [constructor|]. split; [set_solver|done].
  - case_bool_decide as Hs.
    + destruct (IH seen) as (H1 & H2 & H3). split; [done|]. split; [set_solver|].
      by apply sublist_cons.
    + destruct (IH ({[name]} ∪ seen)) as (H1 & H2 & H3).
      split; [constructor; [rewrite H2; set_solver|done]|]. split; [|by apply sublist_skip].
      intros n. rewrite !elem_of_cons, H2.
      destruct (decide (n = name)) as [->|Hn]; set_solver.
Qed.

Lemma first_occurrences_NoDup seen names :
  NoDup names -> (forall n, n ∈ names -> n ∉ seen) -> first_occurrences seen names = names.
Proof.
  intros Hnd. revert seen. induction Hnd as [|name names Hn Hnd IH]; intros seen Hs; [done|].
  simpl. rewrite bool_decide_false by set_solver. f_equal. apply IH.
  intros n Hin. assert (n <> name) by (by intros ->). set_solver.
Qed.

(** The configuration text of a list of names. *)
Fixpoint join (sep : ascii) (names : list string) : string :=
  match names with
  | [] => EmptyString
  | [name] => name
  | name :: rest => name +:+ String sep (join sep rest)
  end.

Lemma split_on_join sep names :
  names <> [] -> Forall (lacks sep) names -> split_on sep (join sep names) = names.
Proof.
  intros Hne Hall. induction Hall as [|name names Hn Hall IH]; [done|].
  destruct names as [|name' names]; [by apply split_on_lacks|].
  change (join sep (name :: name' :: names)) with (name +:+ String sep (join sep (name' :: names))).
  rewrite split_on_app by done. by rewrite IH.
Qed.

Lemma valid_names_id names :
  Forall (fun n => validEventName n = true) names -> valid_names names = names.
Proof.
  unfold valid_names. induction 1 as [|n ns Hn Hns IH]; [done|]. simpl.
  rewrite trim_valid by done. rewrite Hn. by f_equal.
Qed.

(** ** What the parsers return *)

(** [parseEventNames] returns exactly the valid names among the trimmed
    comma-separated pieces, each once and in the order of the text. *)
Theorem parseEventNames_spec configured :
  NoDup (parseEventNames configured) /\
  (forall name, name ∈ parseEventNames configured <->
     validEventName name = true /\ exists piece, piece ∈ split_on "," configured /\ trim piece = name) /\
  parseEventNames configured `sublist_of` (trim <$> split_on "," configured).
Proof.
  unfold parseEventNames. rewrite parseEventNames_fold. simpl.
  destruct (first_occurrences_spec ∅ (valid_names (split_on "," configured))) as (H1 & H2 & H3).
  split; [done|]. split.
  - intros name. rewrite H2. unfold valid_names.
    rewrite list_elem_of_In, filter_In, <- list_elem_of_In, list_elem_of_fmap. set_solver.
  - etrans; [exact H3|]. unfold valid_names. clear.
    induction (trim <$> split_on "," configured) as [|x l IH]; simpl; [done|].
    destruct (validEventName x); [by apply sublist_skip|by apply sublist_cons].
Qed.

(** Names written with commas between them, as the parameter is documented,
    are read back unchanged. *)
Theorem parseEventNames_join names :
  names <> [] -> NoDup names -> Forall (fun n => validEventName n = true) names ->
  parseEventNames (join "," names) = names.
Proof.
  intros Hne Hnd Hv. unfold parseEventNames. rewrite parseEventNames_fold. simpl.
  rewrite split_on_join; [|done|].
  - rewrite valid_names_id by done. apply first_occurrences_NoDup; [done|set_solver].
  - eapply Forall_impl; [exact Hv|]. intros n Hn. by apply validEventName_lacks.
Qed.

Lemma parseEventNames_join_witness :
  parseEventNames (join "," ["brake"; "lane-change"; "v2.cut_in"]%string) =
    ["brake"; "lane-change"; "v2.cut_in"]%string.
Proof.
  apply parseEventNames_join; [done| |].
  - apply NoDup_ListNoDup. repeat constructor; simpl; intuition discriminate.
  - repeat constructor.
Defined.

(** ** Key bindings *)

(** The binding an entry of the parameter states, if it is well formed. *)
Definition entry_binding (entry : string) : option (ascii * string) :=
  match cut_at "=" entry with
  | None => None
  | Some (before, after) =>
      match trim before with
      | String c EmptyString =>
          if validEventName (trim after) then Some (c, trim after) else None
      | _ => None
      end
  end.

Lemma parseKeyBindingsStep_eq bindings entry :
  parseKeyBindingsStep bindings entry =
    match entry_binding entry with Some (c, e) => <[c := e]> bindings | None => bindings end.
Proof.
  unfold parseKeyBindingsStep, entry_binding. destruct (cut_at "=" entry) as [[b a]|]; [|done].
  destruct (trim b) as [|c [|]]; try done. by destruct (validEventName (trim a)).
Qed.

(** A key is bound to the event of the last well-formed entry for it, and
    to nothing when there is none; malformed entries have no effect. *)
Theorem parseKeyBindings_last configured key :
  parseKeyBindings configured !! key =
    last (omap (fun entry => '(c, e) ← entry_binding entry; if Ascii.eqb c key then Some e else None)
            configured).
Proof.
  unfold parseKeyBindings.
  induction configured as [|entry configured IH] using rev_ind; [done|].
  rewrite fold_left_app. simpl. rewrite parseKeyBindingsStep_eq, omap_app. simpl.
  destruct (entry_binding entry) as [[c e]|] eqn:E; csimpl.
  - destruct (Ascii.eqb_spec c key) as [->|Hc].
    + by rewrite lookup_insert_eq, last_snoc.
    + rewrite app_nil_r. by rewrite lookup_insert_ne.
  - by rewrite app_nil_r.
Qed.

(** ** Debouncing *)

Definition earlier_inputs (key : ascii) (before : list (ascii * Z)) : list Z :=
  (fun input => input.2) <$> List.filter (fun input => Ascii.eqb input.1 key) before.

(** The debouncer after the inputs [before] remembers the last one of each key. *)
Definition remembers (d : QuietPeriodDebouncer) (before : list (ascii * Z)) : Prop :=
  forall key, lastInput d !! key = last (earlier_inputs key before).

Lemma accept_remembers key now d before :
  remembers d before -> remembers (accept key now d).2 (before ++ [(key, now)]).
Proof.
  intros Hd k. unfold earlier_inputs. rewrite List.filter_app. simpl.
  rewrite fmap_app. destruct (Ascii.eqb_spec key k) as [->|Hk]; simpl.
  - by rewrite lookup_insert_eq, last_snoc.
  - rewrite lookup_insert_ne, app_nil_r by done. apply Hd.
Qed.

Definition input_le (a b : ascii * Z) : Prop := a.2 <= b.2.

Lemma accept_iff key now d before :
  remembers d before -> StronglySorted input_le before ->
  (accept key now d).1 = true <->
    forall t, (key, t) ∈ before -> now - t >= quietPeriod d * ns_per_ms.
Proof.
  intros Hd Hs. unfold accept. simpl. rewrite Hd.
  assert (Hmem : forall t, (key, t) ∈ before <-> t ∈ earlier_inputs key before).
  { intros t. unfold earlier_inputs. rewrite list_elem_of_fmap. split.
    - intros Ht. exists (key, t). split; [done|]. rewrite list_elem_of_In, filter_In. simpl.
      rewrite Ascii.eqb_refl, <- list_elem_of_In. done.
    - intros ([k u] & -> & Hin). rewrite list_elem_of_In, filter_In in Hin. simpl in Hin.
      destruct Hin as [Hin ->%Ascii.eqb_eq]. by rewrite list_elem_of_In. }
  assert (Hso : StronglySorted Z.le (earlier_inputs key before)).
  { clear Hmem Hd. unfold earlier_inputs. induction Hs as [|[k u] l Hl IH Hu]; [constructor|]. simpl.
    destruct (Ascii.eqb k key); [|done]. simpl. constructor; [done|].
    apply Forall_forall. intros v ([k' v'] & -> & Hin)%list_elem_of_fmap. simpl.
    rewrite Forall_forall in Hu. apply (Hu (k', v')).
    rewrite list_elem_of_In, filter_In, <- list_elem_of_In in Hin. apply Hin. }
  destruct (last (earlier_inputs key before)) as [found|] eqn:Hl.
  - rewrite Z.geb_ge. split.
    + intros Hge t Ht%Hmem. enough (t <= found) by lia.
      apply last_Some in Hl as [l' El]. rewrite El in *.
      by apply (sorted_last (fun z => z) (l' ++ [found])); [|apply last_snoc|].
    + intros Hall. apply Hall, Hmem. apply last_Some in Hl as [l' ->]. set_solver.
  - apply last_None in Hl. split; [|done]. intros _ t Ht%Hmem. rewrite Hl in Ht. set_solver.
Qed.

Lemma accept_all_cons key now rest d :
  accept_all ((key, now) :: rest) d = (accept key now d).1 :: accept_all rest (accept key now d).2.
Proof. done. Qed.

Lemma accept_all_from inputs d before i :
  remembers d before -> StronglySorted input_le (before ++ inputs) ->
  forall key now, inputs !! i = Some (key, now) ->
  (accept_all inputs d !! i = Some true <->
   forall t, (key, t) ∈ before ++ take i inputs -> now - t >= quietPeriod d * ns_per_ms).
Proof.
  revert d before i. induction inputs as [|[k0 n0] rest IH]; intros d before i Hd Hs key now; [done|].
  assert (Hsb : StronglySorted input_le before).
  { clear -Hs. induction before as [|x b IH]; [constructor|].
    inversion_clear Hs as [|?? H1 H2]. apply Forall_app in H2 as [H2 _]. constructor; auto. }
  rewrite accept_all_cons. destruct i as [|i].
  - intros [= -> ->]. rewrite app_nil_r. pose proof (accept_iff key now d before Hd Hsb) as Ha.
    etrans; [|exact Ha]. generalize (accept key now d).1. intros a.
    split; [by intros [= ->]|by intros ->].
  - intros Hi. cbn [take]. etrans; [apply (IH (accept k0 n0 d).2 (before ++ [(k0, n0)]) i)
      with (key := key) (now := now);
      [by apply accept_remembers|by rewrite <- (assoc_L (++))|done]|].
    by rewrite <- (assoc_L (++)).
Qed.

(** Along inputs whose times do not go back, a key press is accepted
    exactly when every earlier press of the same key, accepted or not, is at
    least the quiet period older: holding a key down triggers once. *)
Theorem debounce_bursts quiet inputs i key now :
  StronglySorted input_le inputs -> inputs !! i = Some (key, now) ->
  (accept_all inputs (newDebouncer quiet) !! i = Some true <->
   forall t, (key, t) ∈ take i inputs -> now - t >= quiet * ns_per_ms).
Proof.
  intros Hs Hi. apply (accept_all_from inputs (newDebouncer quiet) [] i); [|done|done].
  intros k. apply lookup_empty.
Qed.

Definition burst : list (ascii * Z) :=
  [("a", 0); ("a", 200000000); ("b", 250000000); ("a", 600000000); ("a", 1200000000)]%char.

Lemma debounce_bursts_witness :
  accept_all burst (newDebouncer 500) = [true; false; true; false; true] /\
  (accept_all burst (newDebouncer 500) !! 3%nat = Some true <->
   forall t, ("a"%char, t) ∈ take 3 burst -> 600000000 - t >= 500 * ns_per_ms).
Proof.
  split; [reflexivity|]. apply debounce_bursts; [|reflexivity].
  repeat constructor; vm_compute; discriminate.
Defined.
