(* ===== verification/Watchdog.v ===== *)
(** * Watchdog: receive-time freshness of the sensor streams

    Models src/include/sensor_watchdog.hpp.  The [std::map] of sensors is an
    association list in key order; steady-clock times are nanosecond counts,
    passed to the operations that read the clock; the mutex makes each
    operation one step.  The transition callback is called in the order of the
    list [poll] returns. *)

From S2P Require Import Prelude Text.

Record SensorState := {
  staleTimeout : Z;                    (* milliseconds *)
  lastReceive : Z;
  staleSince : Z;
  stale : bool
}.

Record Transition := {
  sensor : string;
  to_stale : bool;
  elapsed : Z                          (* milliseconds *)
}.

Definition SensorWatchdog : Type := list (string * SensorState).

(** ** [std::map] operations *)

Fixpoint find_sensor (name : string) (w : SensorWatchdog) : option SensorState :=
  match w with
  | [] => None
  | (n, s) :: w' => if String.eqb n name then Some s else find_sensor name w'
  end.

Fixpoint insert_sensor (name : string) (s : SensorState) (w : SensorWatchdog) : SensorWatchdog :=
  match w with
  | [] => [(name, s)]
  | (n, s') :: w' =>
      if String.ltb name n then (name, s) :: w else (n, s') :: insert_sensor name s w'
  end.

Definition emplace (name : string) (s : SensorState) (w : SensorWatchdog) : SensorWatchdog :=
  match find_sensor name w with Some _ => w | None => insert_sensor name s w end.

Fixpoint set_sensor (name : string) (f : SensorState -> SensorState) (w : SensorWatchdog)
    : SensorWatchdog :=
  match w with
  | [] => []
  | (n, s) :: w' => if String.eqb n name then (n, f s) :: w' else (n, s) :: set_sensor name f w'
  end.

(** ** Operations *)

Definition registerSensor (name : string) (timeout now : Z) (w : SensorWatchdog) : SensorWatchdog :=
  emplace name {| staleTimeout := timeout; lastReceive := now; staleSince := 0; stale := false |} w.

Definition received (now : Z) (s : SensorState) : SensorState :=
  {| staleTimeout := staleTimeout s; lastReceive := now; staleSince := staleSince s;
     stale := stale s |}.

Definition noteData (name : string) (now : Z) (w : SensorWatchdog) : SensorWatchdog :=
  match find_sensor name w with
  | Some _ => set_sensor name (received now) w
  | None => w
  end.

(** [std::chrono::duration_cast<milliseconds>] truncates toward zero. *)
Definition to_ms (ns : Z) : Z := Z.quot ns ns_per_ms.

(** The body of the loop of [poll]. *)
Definition pollSensor (now : Z) (name : string) (s : SensorState)
    : SensorState * option Transition :=
  let stale' := now - lastReceive s >? staleTimeout s * ns_per_ms in
  if Bool.eqb stale' (stale s) then (s, None)
  else
    let elapsed := if stale' then now - lastReceive s else now - staleSince s in
    ({| staleTimeout := staleTimeout s; lastReceive := lastReceive s;
        staleSince := if stale' then now else staleSince s; stale := stale' |},
     Some {| sensor := name; to_stale := stale'; elapsed := to_ms elapsed |}).

Fixpoint poll (now : Z) (w : SensorWatchdog) : SensorWatchdog * list Transition :=
  match w with
  | [] => ([], [])
  | (name, s) :: w' =>
      let '(s', t) := pollSensor now name s in
      let '(w'', ts) := poll now w' in
      ((name, s') :: w'', option_list t ++ ts)
  end.

Definition isStale (name : string) (w : SensorWatchdog) : bool :=
  match find_sensor name w with Some s => stale s | None => false end.

Definition formatSeconds (milliseconds : Z) : string :=
  let tenths := Z.quot milliseconds 100 in
  to_string (Z.quot tenths 10) +:+ "." +:+ to_string (Z.rem tenths 10) +:+ "s".

Definition describeSensor (now : Z) (description : string) (entry : string * SensorState) : string :=
  let '(name, s) := entry in
  (match description with EmptyString => "" | _ => description +:+ ", " end) +:+
  name +:+ ": " +:+
  (if stale s then "STALE " +:+ formatSeconds (to_ms (now - lastReceive s)) else "ok").

Definition describeStatus (now : Z) (w : SensorWatchdog) : string :=
  fold_left (describeSensor now) w "".

Example describe_example :
  describeStatus 2345678901
    [("camera", {| staleTimeout := 1000; lastReceive := 2345000000; staleSince := 0; stale := false |});
     ("lidar", {| staleTimeout := 1000; lastReceive := 0; staleSince := 0; stale := true |})]%string
  = "camera: ok, lidar: STALE 2.3s".
Proof. reflexivity. Qed.

(** ** Runs *)

Inductive op :=
| Register (name : string) (timeout now : Z)
| NoteData (name : string) (now : Z)
| Poll (now : Z).

Definition step (o : op) (w : SensorWatchdog) : SensorWatchdog * list (Z * Transition) :=
  match o with
  | Register name timeout now => (registerSensor name timeout now w, [])
  | NoteData name now => (noteData name now w, [])
  | Poll now => let '(w', ts) := poll now w in (w', pair now <$> ts)
  end.

(** The watchdog after the operations and every transition reported, with the
    time of the poll that reported it. *)
Definition run (ops : list op) : SensorWatchdog * list (Z * Transition) :=
  fold_left (fun '(w, log) o => let '(w', ts) := step o w in (w', log ++ ts)) ops ([], []).

(** ** Lemmas *)

Lemma find_sensor_None name w : find_sensor name w = None <-> name ∉ w.*1.
Proof.
  induction w as [|[n s] w IH]; simpl; [set_solver|].
  destruct (String.eqb_spec n name) as [->|Hn]; [set_solver|]. rewrite IH. set_solver.
Qed.

Lemma insert_sensor_perm name s w : insert_sensor name s w ≡ₚ (name, s) :: w.
Proof.
  induction w as [|[n s'] w IH]; simpl; [done|]. case_match; [done|]. rewrite IH. apply perm_swap.
Qed.

Lemma emplace_NoDup name s w : NoDup w.*1 -> NoDup (emplace name s w).*1.
Proof.
  intros Hw. unfold emplace. destruct (find_sensor name w) eqn:E; [done|].
  rewrite insert_sensor_perm. simpl. constructor; [by apply find_sensor_None|done].
Qed.

Lemma find_insert name' name s w :
  name ∉ w.*1 ->
  find_sensor name' (insert_sensor name s w) =
    if String.eqb name name' then Some s else find_sensor name' w.
Proof.
  induction w as [|[n s'] w IH]; simpl; [done|]. intros Hn. destruct (String.ltb name n); simpl; [done|].
  rewrite IH by set_solver. destruct (String.eqb_spec n name') as [->|]; [|done].
  destruct (String.eqb_spec name name') as [->|]; [set_solver|done].
Qed.

Lemma find_emplace name' name s w :
  find_sensor name' (emplace name s w) =
    match find_sensor name' w with
    | Some s' => Some s'
    | None => if String.eqb name name' then Some s else None
    end.
Proof.
  unfold emplace. destruct (find_sensor name w) as [s0|] eqn:E.
  - destruct (find_sensor name' w) eqn:E'; [done|].
    destruct (String.eqb_spec name name') as [->|]; congruence.
  - rewrite find_insert by (by apply find_sensor_None).
    destruct (String.eqb_spec name name') as [->|]; [by rewrite E|].
    by destruct (find_sensor name' w).
Qed.

Lemma set_sensor_keys name f w : (set_sensor name f w).*1 = w.*1.
Proof. induction w as [|[n s] w IH]; [done|]. simpl. destruct (String.eqb n name); csimpl; [done|]. by f_equal. Qed.

Lemma find_set name' name f w :
  find_sensor name' (set_sensor name f w) =
    if String.eqb name name' then f <$> find_sensor name w else find_sensor name' w.
Proof.
  induction w as [|[n s] w IH]; simpl; [by case_match|].
  destruct (String.eqb_spec n name) as [->|Hn]; simpl.
  - by destruct (String.eqb_spec name name').
  - rewrite IH. destruct (String.eqb_spec name name') as [->|]; [|done].
    by destruct (String.eqb_spec n name').
Qed.

Lemma find_noteData name' name now w :
  find_sensor name' (noteData name now w) =
    if String.eqb name name' then received now <$> find_sensor name' w else find_sensor name' w.
Proof.
  unfold noteData. destruct (find_sensor name w) as [s|] eqn:E.
  - rewrite find_set. by destruct (String.eqb_spec name name') as [->|].
  - destruct (String.eqb_spec name name') as [->|]; [by rewrite E|done].
Qed.

Lemma poll_keys now w : (poll now w).1.*1 = w.*1.
Proof.
  induction w as [|[n s] w IH]; simpl; [done|].
  destruct (pollSensor now n s), (poll now w); simpl in *. by f_equal.
Qed.

Lemma pollSensor_sensor now name s tr : (pollSensor now name s).2 = Some tr -> sensor tr = name.
Proof. unfold pollSensor. destruct (Bool.eqb _ _); [done|]. by intros [= <-]. Qed.

(** A poll treats each sensor separately. *)
Lemma find_poll name now w :
  find_sensor name (poll now w).1 = (fun s => (pollSensor now name s).1) <$> find_sensor name w.
Proof.
  induction w as [|[n s] w IH]; simpl; [done|].
  destruct (pollSensor now n s) eqn:E, (poll now w); simpl in *.
  destruct (String.eqb_spec n name) as [->|]; simpl; [by rewrite E|done].
Qed.

Definition about (name : string) (tr : Transition) : bool := String.eqb (sensor tr) name.

Lemma poll_about name now w :
  NoDup w.*1 ->
  List.filter (about name) (poll now w).2 =
    match find_sensor name w with
    | Some s => option_list (pollSensor now name s).2
    | None => []
    end.
Proof.
  induction w as [|[n s] w IH]; simpl; [done|]. intros [Hn Hnd]%NoDup_cons.
  destruct (pollSensor now n s) as [s' t] eqn:E, (poll now w) as [w' ts]; simpl in *.
  assert (Ht : forall tr, t = Some tr -> sensor tr = n).
  { intros tr ->. apply (pollSensor_sensor now n s). by rewrite E. }
  rewrite List.filter_app, IH by done. destruct (String.eqb_spec n name) as [->|Hne].
  - rewrite (proj2 (find_sensor_None _ _) Hn), app_nil_r, E. simpl.
    destruct t as [tr|]; [|done]. simpl. unfold about. by rewrite (Ht tr eq_refl), String.eqb_refl.
  - replace (List.filter (about name) (option_list t)) with (@nil Transition); [done|].
    destruct t as [tr|]; [|done]. simpl. unfold about. rewrite (Ht tr eq_refl).
    by rewrite (proj2 (String.eqb_neq _ _) Hne).
Qed.

(** ** What a run reports about a sensor *)

(** The reports about a sensor, oldest first. *)
Definition reports (name : string) (log : list (Z * Transition)) : list (Z * Transition) :=
  List.filter (fun e => about name e.2) log.

(** The limit of a sensor and the last time it was heard of: its first
    registration, then the data noted since. *)
Definition heard_step (name : string) (h : option (Z * Z)) (o : op) : option (Z * Z) :=
  match o, h with
  | Register n timeout now, None => if String.eqb n name then Some (timeout, now) else None
  | NoteData n now, Some (timeout, _) => if String.eqb n name then Some (timeout, now) else h
  | _, _ => h
  end.

Definition heard (name : string) (ops : list op) : option (Z * Z) :=
  fold_left (heard_step name) ops None.

(** The reports of one sensor are correct: they alternate, beginning with an
    outage, and an end of outage is reported with the length of the outage. *)
Inductive alternating : list (Z * Transition) -> bool -> Z -> Prop :=
| alternating_nil since : alternating [] false since
| alternating_outage l since now tr :
    alternating l false since -> to_stale tr = true ->
    alternating (l ++ [(now, tr)]) true now
| alternating_return l since now tr since' :
    alternating l true since -> to_stale tr = false -> elapsed tr = to_ms (now - since) ->
    alternating (l ++ [(now, tr)]) false since'.

Definition sensor_inv (name : string) (s : option SensorState) (h : option (Z * Z))
    (log : list (Z * Transition)) : Prop :=
  match s with
  | None => h = None /\ log = []
  | Some s => h = Some (staleTimeout s, lastReceive s) /\ alternating log (stale s) (staleSince s)
  end.

Definition watchdog_inv (w : SensorWatchdog) (ops : list op) (log : list (Z * Transition)) : Prop :=
  NoDup w.*1 /\
  forall name, sensor_inv name (find_sensor name w) (heard name ops) (reports name log).

Lemma reports_app name l1 l2 : reports name (l1 ++ l2) = reports name l1 ++ reports name l2.
Proof. apply List.filter_app. Qed.

Lemma reports_poll name now ts :
  reports name (pair now <$> ts) = pair now <$> List.filter (about name) ts.
Proof.
  unfold reports. induction ts as [|t ts IH]; simpl; [done|].
  destruct (about name t); csimpl; [f_equal|]; apply IH.
Qed.

Lemma poll_sensor_inv name s h log now :
  sensor_inv name (Some s) h log ->
  sensor_inv name (Some (pollSensor now name s).1) h
    (log ++ (pair now <$> option_list (pollSensor now name s).2)).
Proof.
  simpl. intros [-> Ha]. unfold pollSensor.
  destruct (now - lastReceive s >? staleTimeout s * ns_per_ms), (stale s) eqn:Es; simpl;
    rewrite ?app_nil_r, ?Es; split; try done.
  - by eapply alternating_outage.
  - by eapply alternating_return.
Qed.

Lemma step_inv o w ops log :
  watchdog_inv w ops log ->
  watchdog_inv (step o w).1 (ops ++ [o]) (log ++ (step o w).2).
Proof.
  intros [Hnd Hs]. destruct o as [n timeout now|n now|now]; simpl.
  - rewrite app_nil_r. split; [by apply emplace_NoDup|]. intros name.
    unfold heard. rewrite fold_left_app. fold (heard name ops). simpl.
    unfold registerSensor. rewrite find_emplace. specialize (Hs name). revert Hs.
    destruct (find_sensor name w) as [s|]; simpl; [by intros [-> ?]|]. intros [-> ->]. simpl.
    destruct (String.eqb n name); simpl; [|done]. split; [done|constructor].
  - rewrite app_nil_r. split.
    { unfold noteData. destruct (find_sensor n w); [by rewrite set_sensor_keys|done]. }
    intros name. unfold heard. rewrite fold_left_app. fold (heard name ops). simpl.
    rewrite find_noteData. specialize (Hs name). revert Hs.
    destruct (find_sensor name w) as [s|]; simpl; intros [-> ?]; destruct (String.eqb n name); done.
  - destruct (poll now w) as [w' ts] eqn:E. simpl. split.
    { replace w' with (poll now w).1 by (by rewrite E). by rewrite poll_keys. }
    intros name. unfold heard. rewrite fold_left_app. fold (heard name ops). simpl.
    rewrite reports_app, reports_poll. specialize (Hs name).
    pose proof (find_poll name now w) as Hf. pose proof (poll_about name now w Hnd) as Ha.
    rewrite E in Hf, Ha. simpl in Hf, Ha. rewrite Hf, Ha. revert Hs.
    destruct (find_sensor name w) as [s|]; simpl fmap; [apply poll_sensor_inv|].
    simpl. intros [-> ->]. done.
Qed.

Lemma run_inv ops : watchdog_inv (run ops).1 ops (run ops).2.
Proof.
  induction ops as [|o ops IH] using rev_ind.
  - split; [constructor|]. intros name. done.
  - unfold run. rewrite fold_left_app. fold (run ops). simpl.
    pose proof (step_inv o _ _ _ IH) as Hi.
    destruct (run ops) as [w log], (step o w) as [w' ts] eqn:E; simpl in *. by rewrite E in Hi.
Qed.

Lemma alternating_flags log b since :
  alternating log b since ->
  (forall i e, log !! i = Some e -> to_stale e.2 = Nat.even i) /\ b = Nat.odd (length log).
Proof.
  induction 1 as [since|l since now tr Ha [IH1 IH2] Ht|l since now tr since' Ha [IH1 IH2] Ht He].
  - split; [intros i e; by rewrite lookup_nil|done].
  - rewrite length_app, Nat.add_comm. simpl. rewrite Nat.odd_succ, <- Nat.negb_odd, <- IH2.
    split; [|done]. intros i e [Hi|[Hi Hl]]%lookup_app_Some; [by apply IH1|].
    destruct (i - length l)%nat eqn:El; simplify_eq/=. replace i with (length l) by lia.
    by rewrite <- Nat.negb_odd, <- IH2.
  - rewrite length_app, Nat.add_comm. simpl. rewrite Nat.odd_succ, <- Nat.negb_odd, <- IH2.
    split; [|done]. intros i e [Hi|[Hi Hl]]%lookup_app_Some; [by apply IH1|].
    destruct (i - length l)%nat eqn:El; simplify_eq/=. replace i with (length l) by lia.
    by rewrite <- Nat.negb_odd, <- IH2.
Qed.

Lemma alternating_durations log b since :
  alternating log b since ->
  (b = true -> exists tr, last log = Some (since, tr)) /\
  forall i t1 tr1 t2 tr2, log !! i = Some (t1, tr1) -> log !! S i = Some (t2, tr2) ->
    to_stale tr2 = false -> elapsed tr2 = to_ms (t2 - t1).
Proof.
  induction 1 as [since|l since now tr Ha [IH1 IH2] Ht|l since now tr since' Ha [IH1 IH2] Ht He].
  - split; [done|]. intros i t1 tr1 t2 tr2. by rewrite lookup_nil.
  - split; [rewrite last_snoc; eauto|]. intros i t1 tr1 t2 tr2 H1 H2 Hf.
    apply lookup_app_Some in H2 as [H2|[Hi H2]].
    + rewrite lookup_app_l in H1 by (apply lookup_lt_Some in H2; lia). eauto.
    + destruct (S i - length l)%nat; simplify_eq/=. congruence.
  - split; [done|]. intros i t1 tr1 t2 tr2 H1 H2 Hf.
    apply lookup_app_Some in H2 as [H2|[Hi H2]].
    + rewrite lookup_app_l in H1 by (apply lookup_lt_Some in H2; lia). eauto.
    + destruct (S i - length l)%nat eqn:El; simplify_eq/=.
      destruct (IH1 eq_refl) as [tr Hl]. rewrite lookup_app_l in H1 by lia.
      rewrite last_lookup in Hl. replace (Nat.pred (length l)) with i in Hl by lia. congruence.
Qed.

(** ** Theorems *)

(** C39. Along any sequence of registrations, data notes and polls, the reports
    about a sensor strictly alternate, the first one being an outage, so there
    is one report per flip and not per poll; the sensor is stale exactly while
    an outage has been reported without its end. *)
Theorem watchdog_alternates ops name :
  (forall i e, reports name (run ops).2 !! i = Some e -> to_stale e.2 = Nat.even i) /\
  isStale name (run ops).1 = Nat.odd (length (reports name (run ops).2)).
Proof.
  destruct (run_inv ops) as [_ Hs]. specialize (Hs name). unfold isStale.
  destruct (find_sensor name (run ops).1) as [s|]; simpl in Hs.
  - destruct Hs as [_ Ha]. apply (alternating_flags _ _ _ Ha).
  - destruct Hs as [_ ->]. split; [intros i e; by rewrite lookup_nil|done].
Qed.

(** The end of an outage is reported with the time since the outage was
    reported, in milliseconds. *)
Theorem watchdog_outage_duration ops name i t1 tr1 t2 tr2 :
  reports name (run ops).2 !! i = Some (t1, tr1) ->
  reports name (run ops).2 !! S i = Some (t2, tr2) ->
  to_stale tr2 = false -> elapsed tr2 = Z.quot (t2 - t1) 1000000.
Proof.
  destruct (run_inv ops) as [_ Hs]. specialize (Hs name).
  destruct (find_sensor name (run ops).1) as [s|]; simpl in Hs.
  - destruct Hs as [_ Ha]. apply (alternating_durations _ _ _ Ha).
  - destruct Hs as [_ ->]. by rewrite lookup_nil.
Qed.

Definition outage : list op :=
  [Register "camera" 1000 0; Register "lidar" 500 0; NoteData "camera" 400000000;
   Poll 700000000; NoteData "lidar" 900000000; Poll 1000000000; Poll 1450000000]%string.

Definition report (name : string) (flag : bool) (ms : Z) : Transition :=
  {| sensor := name; to_stale := flag; elapsed := ms |}.

Example outage_log :
  (run outage).2 =
    [(700000000, report "lidar" true 700); (1000000000, report "lidar" false 300);
     (1450000000, report "camera" true 1050); (1450000000, report "lidar" true 550)]%string.
Proof. reflexivity. Qed.

Lemma watchdog_outage_duration_witness :
  elapsed (report "lidar" false 300) = Z.quot (1000000000 - 700000000) 1000000.
Proof.
  apply (watchdog_outage_duration outage "lidar" 0 700000000 (report "lidar" true 700)
           1000000000 (report "lidar" false 300)); reflexivity.
Defined.

(** A poll right after the operations marks a sensor stale exactly when it
    has been silent for longer than its limit, counted from its registration
    while it never published, and a new outage is reported with the length of
    the silence; sensors that were never registered are never stale. *)
Theorem poll_staleness ops now name :
  match heard name ops with
  | None => isStale name (poll now (run ops).1).1 = false
  | Some (timeout, contact) =>
      isStale name (poll now (run ops).1).1 = (now - contact >? timeout * 1000000) /\
      forall tr, tr ∈ (poll now (run ops).1).2 -> sensor tr = name -> to_stale tr = true ->
        elapsed tr = Z.quot (now - contact) 1000000 /\ isStale name (run ops).1 = false
  end.
Proof.
  destruct (run_inv ops) as [Hnd Hs]. specialize (Hs name). unfold isStale.
  rewrite find_poll. pose proof (poll_about name now _ Hnd) as Ha.
  destruct (find_sensor name (run ops).1) as [s|]; simpl in Hs; destruct Hs as [-> _]; [|done].
  split.
  - simpl. unfold pollSensor. destruct (_ >? _), (stale s) eqn:E; simpl; done.
  - intros tr Htr Hsn Hst. assert (Hin : tr ∈ List.filter (about name) (poll now (run ops).1).2).
    { rewrite list_elem_of_In, filter_In, <- list_elem_of_In. split; [done|].
      unfold about. by rewrite Hsn, String.eqb_refl. }
    rewrite Ha in Hin. revert Hin. unfold pollSensor.
    destruct (_ >? _) eqn:Eg, (stale s) eqn:E; simpl;
      (intros ->%list_elem_of_singleton || intros ?%elem_of_nil); done.
Qed.
