(* ===== verification/Config.v ===== *)
(** * Config: the configuration keys and the configuration manager

    Models src/include/config_keys.hpp and src/src/config_manager.cpp
    (src/include/config_manager.hpp).  The file is its text, or nothing when it
    cannot be opened; the order in which an [unordered_map] is traversed is a
    parameter. *)

From S2P Require Import Prelude Text.

(** ** The key catalogue: src/include/config_keys.hpp *)

Inductive Type_ := TString | TInt | TBool.

#[export] Instance Type_eq_dec : EqDecision Type_.
Proof. solve_decision. Defined.

Definition exactKeys : list (string * Type_) :=
  [("buffer_size", TInt);
   ("buffer_duration_seconds", TInt);
   ("buffer_max_mb", TInt);
   ("sync_enabled", TBool);
   ("sync_queue_size", TInt);
   ("sync_tolerance_ms", TInt);
   ("sync_required_for_recording", TBool);
   ("trigger_dedupe_ttl_ms", TInt);
   ("max_pending_storage_jobs", TInt);
   ("max_active_event_captures", TInt);
   ("event_scheduler_period_ms", TInt);
   ("sensor_stall_grace_ms", TInt);
   ("watchdog_enabled", TBool);
   ("watchdog_check_period_ms", TInt);
   ("watchdog_stale_timeout_ms", TInt);
   ("compression_enabled", TBool);
   ("compression_level", TInt);
   ("keep_raw_after_compression", TBool);
   ("conversion_enabled", TBool);
   ("image_format", TString);
   ("image_quality", TInt);
   ("pointcloud_format", TString);
   ("disk_min_free_mb", TInt);
   ("retention_days", TInt);
   ("retention_max_capacity_mb", TInt);
   ("disk_cleanup_interval_seconds", TInt);
   ("upload_enabled", TBool);
   ("upload_service_name", TString);
   ("upload_scan_period_ms", TInt);
   ("upload_timeout_s", TInt);
   ("upload_max_retries", TInt);
   ("upload_retry_backoff_ms", TInt);
   ("upload_lease_timeout_s", TInt);
   ("upload_failed_rescan_period_ms", TInt);
   ("event_names", TString);
   ("event_pre_time", TInt);
   ("event_post_time", TInt);
   ("record_camera", TBool);
   ("record_lidar", TBool);
   ("record_directory", TString);
   ("config_strict", TBool)]%string.

Definition ends_with (suffix s : string) : bool :=
  String.eqb (String.substring (String.length s - String.length suffix) (String.length suffix) s) suffix.

Definition hasAffixes (key prefix suffix : string) : bool :=
  (String.length prefix + String.length suffix <? String.length key)%nat &&
  str_starts prefix key && ends_with suffix key.

Definition matchesPatternKey (key : string) : option Type_ :=
  if hasAffixes key "enable_" "_event" then Some TBool
  else if hasAffixes key "event_" "_pre_time" || hasAffixes key "event_" "_post_time"
  then Some TInt
  else if hasAffixes key "event_" "_record_camera" || hasAffixes key "event_" "_record_lidar"
  then Some TBool
  else if hasAffixes key "watchdog_" "_stale_timeout_ms" then Some TInt
  else None.

Fixpoint find_exact (key : string) (keys : list (string * Type_)) : option Type_ :=
  match keys with
  | [] => None
  | (name, keyType) :: keys' => if String.eqb key name then Some keyType else find_exact key keys'
  end.

Definition lookupType (key : string) : option Type_ :=
  match find_exact key exactKeys with
  | Some t => Some t
  | None => matchesPatternKey key
  end.

(** ** The manager: src/src/config_manager.cpp *)

Inductive Problem :=
| UnknownKey (key : string)
| InvalidInt (key value : string)
| InvalidBool (key value : string).

Record ConfigManager := {
  config_ : gmap string string;
  validationProblems : list Problem
}.

Definition newConfigManager : ConfigManager := {| config_ := ∅; validationProblems := [] |}.

Definition blank (c : ascii) : bool :=
  Ascii.eqb c " " || Ascii.eqb c "009" || Ascii.eqb c CR || Ascii.eqb c LF.

Definition trim (value : string) : string := strip blank value.

Definition getConfig (key : string) (m : ConfigManager) : string :=
  default EmptyString (config_ m !! key).

Definition getIntConfig (key : string) (defaultValue : Z) (m : ConfigManager) : Z :=
  match config_ m !! key with
  | None => defaultValue
  | Some value => match stoi value with Some (z, _) => z | None => defaultValue end
  end.

Definition getBoolConfig (key : string) (defaultValue : bool) (m : ConfigManager) : bool :=
  match config_ m !! key with
  | None => defaultValue
  | Some value =>
      if String.eqb value "true" || String.eqb value "1" then true
      else if String.eqb value "false" || String.eqb value "0" then false
      else defaultValue
  end.

(** The lambda of [validate]. *)
Definition parseInt (text : string) : bool :=
  match stoi text with Some (_, consumed) => (consumed =? String.length text)%nat | None => false end.

(** The body of the loop of [validate]: the problem with one entry. *)
Definition entryProblem (key value : string) : option Problem :=
  match lookupType key with
  | None => Some (UnknownKey key)
  | Some TInt => if negb (parseInt value) then Some (InvalidInt key value) else None
  | Some TBool =>
      if negb (String.eqb value "true") && negb (String.eqb value "false") &&
         negb (String.eqb value "1") && negb (String.eqb value "0")
      then Some (InvalidBool key value) else None
  | Some TString => None
  end.

(** One line of the file: the comment is erased, the key is what precedes the
    first [=], and the second [getline] fails when nothing follows it. *)
Definition parseLine (line : string) : option (string * string) :=
  let line := match cut_at "#" line with Some (before, _) => before | None => line end in
  match cut_at "=" line with
  | Some (key, value) =>
      if String.eqb value EmptyString then None else Some (trim key, trim value)
  | None => None
  end.

Definition loadLine (config : gmap string string) (line : string) : gmap string string :=
  match parseLine line with Some (key, value) => <[key := value]> config | None => config end.

Section manager.
(** The traversal order of [std::unordered_map]. *)
Context (iteration : gmap string string -> list (string * string)).

Definition validate (m : ConfigManager) : bool * ConfigManager :=
  let strict := getBoolConfig "config_strict" false m in
  let problems :=
    validationProblems m ++ omap (fun '(key, value) => entryProblem key value) (iteration (config_ m)) in
  (negb (strict && negb (length problems =? 0)%nat),
   {| config_ := config_ m; validationProblems := problems |}).

Definition loadConfig (file : option string) (m : ConfigManager) : bool * ConfigManager :=
  match file with
  | None => (false, m)
  | Some text =>
      validate {| config_ := fold_left loadLine (lines text) ∅; validationProblems := [] |}
  end.

(** Every entry is visited once. *)
Hypothesis iteration_perm : forall m, iteration m ≡ₚ map_to_list m.

(** ** What is loaded *)

Lemma loadConfig_config text m :
  config_ (loadConfig (Some text) m).2 = fold_left loadLine (lines text) ∅.
Proof. done. Qed.

Lemma loadLine_fold ls key :
  fold_left loadLine ls ∅ !! key =
    last (omap (fun line => '(k, v) ← parseLine line; if String.eqb k key then Some v else None) ls).
Proof.
  induction ls as [|line ls IH] using rev_ind; [done|].
  rewrite fold_left_app. simpl. unfold loadLine at 1. rewrite omap_app. simpl.
  destruct (parseLine line) as [[k v]|]; csimpl; [|by rewrite app_nil_r].
  destruct (String.eqb_spec k key) as [->|Hk].
  - by rewrite lookup_insert_eq, last_snoc.
  - rewrite app_nil_r. by rewrite lookup_insert_ne.
Qed.

Lemma loadConfig_problems text m p :
  p ∈ validationProblems (loadConfig (Some text) m).2 <->
    exists key value, config_ (loadConfig (Some text) m).2 !! key = Some value /\
      entryProblem key value = Some p.
Proof.
  rewrite loadConfig_config. simpl. rewrite list_elem_of_omap. split.
  - intros ([key value] & Hin & Hp). exists key, value. split; [|done].
    apply elem_of_map_to_list. by rewrite <- iteration_perm.
  - intros (key & value & Hin & Hp). exists (key, value). split; [|done].
    rewrite iteration_perm. by apply elem_of_map_to_list.
Qed.

Lemma entryProblem_none key value :
  entryProblem key value = None ->
  match lookupType key with
  | None => False
  | Some TString => True
  | Some TInt => exists z, stoi value = Some (z, String.length value)
  | Some TBool => value ∈ ["true"; "1"; "false"; "0"]%string
  end.
Proof.
  unfold entryProblem. destruct (lookupType key) as [[]|]; [done| |..|done].
  - unfold parseInt. destruct (stoi value) as [[z n]|]; simpl; [|done].
    destruct (Nat.eqb_spec n (String.length value)) as [->|]; [eauto|done].
  - destruct (String.eqb_spec value "true") as [->|]; [set_solver|].
    destruct (String.eqb_spec value "false") as [->|]; [set_solver|].
    destruct (String.eqb_spec value "1") as [->|]; [set_solver|].
    destruct (String.eqb_spec value "0") as [->|]; [set_solver|done].
Qed.

(** After a load, the value of a key is that of the last line of the file
    that sets it, comments and surrounding blanks removed, and the empty
    string when no line does; lines without a key or a value set nothing. *)
Theorem loadConfig_last_line text m key :
  getConfig key (loadConfig (Some text) m).2 =
    default EmptyString
      (last (omap (fun line => '(k, v) ← parseLine line; if String.eqb k key then Some v else None)
               (lines text))).
Proof. unfold getConfig. by rewrite loadConfig_config, loadLine_fold. Qed.

(** A file that loads without problems never falls back to a default in
    silence: every key it sets is in the catalogue, an integer key yields the
    number its whole value spells and a boolean key the flag it names,
    whatever default the caller passes. *)
Theorem loaded_values_effective text m key value :
  validationProblems (loadConfig (Some text) m).2 = [] ->
  config_ (loadConfig (Some text) m).2 !! key = Some value ->
  match lookupType key with
  | None => False
  | Some TString => getConfig key (loadConfig (Some text) m).2 = value
  | Some TInt => exists z, stoi value = Some (z, String.length value) /\
      forall d, getIntConfig key d (loadConfig (Some text) m).2 = z
  | Some TBool => exists b, (b = true <-> value ∈ ["true"; "1"]%string) /\
      forall d, getBoolConfig key d (loadConfig (Some text) m).2 = b
  end.
Proof.
  intros Hp Hv. unfold getConfig, getIntConfig, getBoolConfig. rewrite Hv.
  destruct (entryProblem key value) as [p|] eqn:E.
  - assert (p ∈ validationProblems (loadConfig (Some text) m).2) as Hin
      by (apply loadConfig_problems; eauto).
    rewrite Hp in Hin. by apply elem_of_nil in Hin.
  - apply entryProblem_none in E. destruct (lookupType key) as [[]|]; [done| |..|done].
    + destruct E as [z Ez]. exists z. by rewrite Ez.
    + apply elem_of_cons in E as [->|E]; [exists true; set_solver|].
      apply elem_of_cons in E as [->|E]; [exists true; set_solver|].
      exists false. split; [split; [done|]; intros Ht; set_solver|].
      apply elem_of_cons in E as [->|E]; [done|]. by apply list_elem_of_singleton in E as ->.
Qed.

(** C40. In strict mode the load succeeds exactly when the file has no problem;
    outside strict mode every file that can be opened loads, with the problems
    recorded; a file that cannot be opened leaves the manager as it was. *)
Theorem strict_mode file m :
  match file with
  | None => loadConfig file m = (false, m)
  | Some text =>
      ((loadConfig file m).1 = true <->
         getBoolConfig "config_strict" false (loadConfig file m).2 = false \/
         forall key value, config_ (loadConfig file m).2 !! key = Some value ->
           entryProblem key value = None)
  end.
Proof.
  destruct file as [text|]; [|done].
  assert (Hnil : (length (validationProblems (loadConfig (Some text) m).2) =? 0)%nat = true <->
    forall key value, config_ (loadConfig (Some text) m).2 !! key = Some value ->
      entryProblem key value = None).
  { rewrite Nat.eqb_eq, length_zero_iff_nil. split.
    - intros Hn key value Hv. destruct (entryProblem key value) as [p|] eqn:E; [|done].
      assert (Hin : p ∈ validationProblems (loadConfig (Some text) m).2)
        by (apply loadConfig_problems; eauto).
      rewrite Hn in Hin. by apply elem_of_nil in Hin.
    - intros Hall. apply elem_of_nil_inv. intros p (key & value & Hv & Hp)%loadConfig_problems.
      by rewrite (Hall _ _ Hv) in Hp. }
  rewrite <- Hnil. change (loadConfig (Some text) m).1 with
    (negb (getBoolConfig "config_strict" false (loadConfig (Some text) m).2 &&
           negb (length (validationProblems (loadConfig (Some text) m).2) =? 0)%nat)).
  destruct (getBoolConfig _ _ _), (length _ =? 0)%nat; simpl; intuition.
Qed.

End manager.

Definition sample : string :=
  unlines ["# cache"; "buffer_size = 200"; "sync_enabled=true"; "buffer_size=50 # newer";
           "config_strict = 1"; "event_brake_pre_time=3"]%string.

Lemma loaded_values_effective_witness :
  getIntConfig "buffer_size" 7 (loadConfig map_to_list (Some sample) newConfigManager).2 = 50 /\
  exists z, stoi "50" = Some (z, String.length "50") /\
    forall d, getIntConfig "buffer_size" d (loadConfig map_to_list (Some sample) newConfigManager).2 = z.
Proof.
  split; [vm_compute; reflexivity|].
  apply (loaded_values_effective map_to_list (fun m => Permutation_refl _) sample newConfigManager
           "buffer_size" "50"); vm_compute; reflexivity.
Defined.

Lemma strict_mode_witness :
  (loadConfig map_to_list (Some sample) newConfigManager).1 = true /\
  (loadConfig map_to_list (Some (sample +:+ "bufer_size=1")) newConfigManager).1 = false /\
  ((loadConfig map_to_list (Some sample) newConfigManager).1 = true <->
     getBoolConfig "config_strict" false (loadConfig map_to_list (Some sample) newConfigManager).2 = false \/
     forall key value, config_ (loadConfig map_to_list (Some sample) newConfigManager).2 !! key = Some value ->
       entryProblem key value = None).
Proof.
  split; [vm_compute; reflexivity|]. split; [vm_compute; reflexivity|].
  apply (strict_mode map_to_list (fun m => Permutation_refl _) (Some sample)).
Defined.

(** ** The catalogue *)

Lemma find_exact_spec key keys t :
  find_exact key keys = Some t -> (key, t) ∈ keys.
Proof.
  induction keys as [|[name t'] keys IH]; simpl; [done|].
  destruct (String.eqb_spec key name) as [->|]; [intros [= ->]; by left|].
  intros Hf. right. auto.
Qed.

Lemma exact_keys_no_pattern :
  Forall (fun e => matchesPatternKey e.1 = None /\ find_exact e.1 exactKeys = Some e.2) exactKeys.
Proof. repeat constructor. Qed.

Lemma prefix_app p s : str_starts p (p +:+ s) = true.
Proof.
  unfold str_starts. induction p as [|c p IH]; simpl; [by destruct s|].
  destruct (ascii_dec c c); [exact IH|done].
Qed.

Lemma ends_with_app s p : ends_with s (p +:+ s) = true.
Proof.
  unfold ends_with. rewrite length_app_str, Nat.add_sub. apply String.eqb_eq.
  induction p as [|c p IH]; simpl; [apply substring_all|done].
Qed.

Lemma hasAffixes_between prefix name suffix :
  name <> "" -> hasAffixes (prefix +:+ name +:+ suffix) prefix suffix = true.
Proof.
  intros Hn. unfold hasAffixes. rewrite prefix_app, <- app_assoc_str, ends_with_app.
  rewrite !length_app_str, !andb_true_r. destruct name; [done|]. apply Nat.ltb_lt. simpl. lia.
Qed.

Lemma lookupType_pattern key t : matchesPatternKey key = Some t -> lookupType key = Some t.
Proof.
  intros Hm. unfold lookupType. destruct (find_exact key exactKeys) as [t'|] eqn:E; [|done].
  apply find_exact_spec in E. pose proof exact_keys_no_pattern as Hall.
  rewrite Forall_forall in Hall. destruct (Hall _ E) as [Hn _]. simpl in Hn. congruence.
Qed.

Lemma ends_with_shorter s p q :
  (String.length s <= String.length q)%nat -> ends_with s (p +:+ q) = ends_with s q.
Proof.
  intros Hl. unfold ends_with. rewrite length_app_str. f_equal.
  replace (String.length p + String.length q - String.length s)%nat
    with (String.length p + (String.length q - String.length s))%nat by lia.
  induction p as [|c p IH]; simpl; [done|exact IH].
Qed.

(** [s] is not at the end of what ends in [q]. *)
Lemma hasAffixes_clash s q p prefix :
  (String.length s <= String.length q)%nat -> ends_with s q = false ->
  hasAffixes (p +:+ q) prefix s = false.
Proof.
  intros Hl Hq. unfold hasAffixes. rewrite ends_with_shorter, Hq by done. apply andb_false_r.
Qed.

Lemma hasAffixes_other_prefix key prefix s :
  str_starts prefix key = false -> hasAffixes key prefix s = false.
Proof. intros Hp. unfold hasAffixes. by rewrite Hp, andb_false_r. Qed.

(** The catalogue is consistent: every listed key has its listed type, no
    listed key is also of a generated form (so the order of the two lookups
    cannot matter), and the keys generated for any non-empty event or sensor
    name are accepted with the type the code reads them with. *)
Theorem key_catalogue :
  (forall key t, (key, t) ∈ exactKeys -> lookupType key = Some t /\ matchesPatternKey key = None) /\
  (forall name, name <> "" ->
     lookupType ("enable_" +:+ name +:+ "_event") = Some TBool /\
     lookupType ("event_" +:+ name +:+ "_pre_time") = Some TInt /\
     lookupType ("event_" +:+ name +:+ "_post_time") = Some TInt /\
     lookupType ("event_" +:+ name +:+ "_record_camera") = Some TBool /\
     lookupType ("event_" +:+ name +:+ "_record_lidar") = Some TBool /\
     lookupType ("watchdog_" +:+ name +:+ "_stale_timeout_ms") = Some TInt).
Proof.
  split.
  - intros key t Hin. pose proof exact_keys_no_pattern as Hall. rewrite Forall_forall in Hall.
    destruct (Hall _ Hin) as [Hm Hf]. unfold lookupType.
    change key with (key, t).1. rewrite Hf. done.
  - intros name Hn. pose proof (fun p s => hasAffixes_between p name s Hn) as Hb.
    assert (Hc : forall s q p prefix, (String.length s <= String.length q)%nat ->
      ends_with s q = false -> hasAffixes (p +:+ name +:+ q) prefix s = false).
    { intros s q p prefix Hl Hq. rewrite <- app_assoc_str. by apply hasAffixes_clash. }
    repeat split; apply lookupType_pattern; unfold matchesPatternKey;
      rewrite ?Hb, ?(hasAffixes_other_prefix _ "enable_"), ?(hasAffixes_other_prefix _ "event_")
        by reflexivity; try done.
    + by rewrite orb_true_r.
    + rewrite !Hc by (reflexivity || (simpl; lia)). done.
    + rewrite !(Hc _ "_record_lidar") by (reflexivity || (simpl; lia)). by rewrite orb_true_r.
Qed.
