(* ===== verification/FileSystem.v ===== *)
(** * FileSystem: the calls to the file system, with faults

    The program reaches its files through [std::filesystem] and file streams.
    A run is given the list of what happens at its successive calls: nothing
    special, an I/O error, or a crash of the process; past the end of the list
    no more faults occur.  A crash keeps what the kernel has been given, so
    [fsync] has no visible effect.  Symbolic links are opaque: the program
    creates none and opening one for writing is taken to fail. *)

From S2P Require Import Prelude Text.

(** ** The state *)

(** The components of a path, the last one first. *)
Abbreviation path := (list string).

(** [directory / name]. *)
Definition child (directory : path) (name : string) : path := name :: directory.

Definition parent_path (p : path) : path := tail p.

Definition filename (p : path) : string := default EmptyString (head p).

(** [path(p.string() + suffix)]. *)
Definition with_suffix (p : path) (suffix : string) : path :=
  match p with [] => [suffix] | name :: d => (name +:+ suffix) :: d end.

Inductive node :=
| File (content : string) (mtime : Z)
| Dir
| Symlink.

#[export] Instance node_eq_dec : EqDecision node.
Proof. solve_decision. Defined.

Record world := {
  files : gmap path node;
  clock : Z                            (* for modification times *)
}.

Definition put (p : path) (n : node) (w : world) : world :=
  {| files := <[p := n]> (files w); clock := clock w |}.

Definition drop_node (p : path) (w : world) : world :=
  {| files := delete p (files w); clock := clock w |}.

(** The root of the file system always exists. *)
Definition is_dir (w : world) (p : path) : bool :=
  match p with
  | [] => true
  | _ => match files w !! p with Some Dir => true | _ => false end
  end.

Definition present (w : world) (p : path) : bool :=
  match p with [] => true | _ => match files w !! p with Some _ => true | None => false end end.

Definition is_file (w : world) (p : path) : bool :=
  match files w !! p with Some (File _ _) => true | _ => false end.

Definition is_symlink (w : world) (p : path) : bool :=
  match files w !! p with Some Symlink => true | _ => false end.

(** ** Runs *)

Inductive fault :=
| NoFault
| IoError (progress : nat)             (* the call fails after this much of its work *)
| Crash (progress : nat).              (* the process dies there *)

Inductive outcome (A : Type) :=
| Done (a : A) (w : world) (o : list fault)
| Threw (w : world) (o : list fault)   (* an exception propagates *)
| Crashed (w : world)
| Stuck (e : failure).                 (* undefined behaviour, or a loop budget ran out *)
Arguments Done {A} a w o.
Arguments Threw {A} w o.
Arguments Crashed {A} w.
Arguments Stuck {A} e.

Definition M (A : Type) : Type := list fault -> world -> outcome A.

#[export] Instance M_ret : MRet M := fun A a o w => Done a w o.
#[export] Instance M_bind : MBind M :=
  fun A B k m o w =>
    match m o w with
    | Done a w' o' => k a o' w'
    | Threw w' o' => Threw w' o'
    | Crashed w' => Crashed w'
    | Stuck e => Stuck e
    end.

Definition throw {A} : M A := fun o w => Threw w o.
Definition spent {A} : M A := fun o w => Stuck OutOfFuel.

(** A computation that touches no file. *)
Definition pure {A} (r : res A) : M A :=
  match r with Ok a => mret a | Err Exception => throw | Err e => fun o w => Stuck e end.

(** [try { m } catch (...) { h }]. *)
Definition catch {A} (m h : M A) : M A := fun o w =>
  match m o w with Threw w' o' => h o' w' | r => r end.

Definition next (o : list fault) : fault * list fault :=
  match o with [] => (NoFault, []) | f :: o' => (f, o') end.

(** A call that reads: an error makes it return [bad]. *)
Definition query {A} (f : world -> A) (bad : A) : M A := fun o w =>
  match next o with
  | (NoFault, o') => Done (f w) w o'
  | (IoError _, o') => Done bad w o'
  | (Crash _, _) => Crashed w
  end.

(** A call that happens at once or not at all; it answers whether it did. *)
Definition atomically (act : world -> option world) : M bool := fun o w =>
  match next o with
  | (NoFault, o') => match act w with Some w' => Done true w' o' | None => Done false w o' end
  | (IoError _, o') => Done false w o'
  | (Crash O, _) => Crashed w
  | (Crash (S _), _) => Crashed (default w (act w))
  end.

(** A call that works step by step: [act n] has done [n] steps of its work. *)
Definition stepwise (act : nat -> world -> world) (all : world -> option world) : M bool :=
  fun o w =>
  match next o with
  | (NoFault, o') => match all w with Some w' => Done true w' o' | None => Done false w o' end
  | (IoError n, o') => Done false (match all w with Some _ => act n w | None => w end) o'
  | (Crash n, _) => Crashed (match all w with Some _ => act n w | None => w end)
  end.

(** ** The calls *)

Definition fs_exists (p : path) : M bool := query (fun w => present w p) false.

(** [exists(p)] without an error code throws. *)
Definition exists_or_throw (p : path) : M bool :=
  answer ← query (fun w => Some (present w p)) None;
  match answer with Some b => mret b | None => throw end.

Definition is_directory (p : path) : M bool := query (fun w => is_dir w p) false.

(** [create_directories(p, error)]: from the root down. *)
Fixpoint make_dirs (p : path) (w : world) : option world :=
  match p with
  | [] => Some w
  | _ :: d =>
      match make_dirs d w with
      | None => None
      | Some w' =>
          match files w' !! p with
          | None => Some (put p Dir w')
          | Some Dir => Some w'
          | Some _ => None
          end
      end
  end.

Definition create_directories (p : path) : M bool :=
  stepwise (fun n w => default w (make_dirs (drop (length p - n) p) w)) (make_dirs p).

(** Opening an [std::ofstream], with [trunc] or with [app]. *)
Definition open_for_writing (truncate : bool) (p : path) (w : world) : option world :=
  if negb (is_dir w (parent_path p)) then None
  else
    match files w !! p with
    | None => Some (put p (File EmptyString (clock w)) w)
    | Some (File content _) =>
        Some (put p (File (if truncate then EmptyString else content) (clock w)) w)
    | Some _ => None
    end.

Definition open_trunc (p : path) : M bool := atomically (open_for_writing true p).
Definition open_append (p : path) : M bool := atomically (open_for_writing false p).

(** Writing at the end of an open stream; data written to a file that has been
    unlinked is lost. *)
Definition append_to (p : path) (data : string) (w : world) : world :=
  match files w !! p with
  | Some (File content _) => put p (File (content +:+ data) (clock w)) w
  | _ => w
  end.

Definition write_stream (p : path) (data : string) : M bool :=
  stepwise (fun n => append_to p (String.substring 0 n data)) (fun w => Some (append_to p data w)).

(** [tellp() == 0] after opening for append; the position of an open regular
    file can always be told. *)
Definition at_start (p : path) : M bool := fun o w =>
  match next o with
  | (Crash _, _) => Crashed w
  | (_, o') =>
      Done (match files w !! p with
            | Some (File content _) => String.eqb content EmptyString
            | _ => true
            end) w o'
  end.

Definition rename_file (from to : path) (w : world) : option world :=
  match files w !! from with
  | Some (File content mtime) =>
      if is_dir w (parent_path to) && negb (is_dir w to) then
        Some (put to (File content mtime) (drop_node from w))
      else None
  | _ => None
  end.

Definition rename (from to : path) : M bool := atomically (rename_file from to).

Definition no_child (p : path) (w : world) : bool :=
  bool_decide (map_Forall (fun q (_ : node) => tail q <> p \/ q = []) (files w)).

(** [remove(p, error)]: a missing file is no error. *)
Definition remove_node (p : path) (w : world) : option world :=
  match files w !! p with
  | None => Some w
  | Some Dir => if no_child p w then Some (drop_node p w) else None
  | Some _ => Some (drop_node p w)
  end.

Definition remove (p : path) : M bool := atomically (remove_node p).

(** [remove(p)] without an error code throws. *)
Definition remove_or_throw (p : path) : M unit :=
  removed ← remove p; if removed : bool then mret tt else throw.

(** [fsync] through a fresh descriptor; its result is ignored. *)
Definition sync (p : path) : M unit := query (fun _ => tt) tt.

(** The content of a file. *)
Definition read_file (p : path) : M (option string) :=
  query (fun w => match files w !! p with Some (File content _) => Some content | _ => None end) None.

(** The order in which a directory is listed is up to the file system. *)
Class Listing := {
  listing : list string -> list string;
  listing_perm l : listing l ≡ₚ l
}.

Definition children (w : world) (p : path) : list string :=
  omap (fun e : path * node => match e.1 with name :: d => if decide (d = p) then Some name else None
                               | [] => None end) (map_to_list (files w)).

(** [directory_iterator]: an error ends the iteration early. *)
Definition list_directory `{Listing} (p : path) : M (list string) := fun o w =>
  let names := if is_dir w p then listing (children w p) else [] in
  match next o with
  | (NoFault, o') => Done names w o'
  | (IoError n, o') => Done (take n names) w o'
  | (Crash _, _) => Crashed w
  end.

(** What lies strictly below a directory. *)
Definition below (d q : path) : Prop := d `suffix_of` q /\ q <> d.

#[export] Instance below_dec d q : Decision (below d q).
Proof. unfold below. apply _. Defined.

Definition descendants (w : world) (d : path) : list path :=
  (map_to_list (filter (fun e : path * node => below d e.1) (files w))).*1.

(** The order in which a tree is walked or deleted is up to the file system. *)
Class Traversal := {
  traversal : list path -> list path;
  traversal_perm l : traversal l ≡ₚ l
}.

#[export] Instance plain_traversal : Traversal :=
  { traversal l := l; traversal_perm l := Permutation_refl l }.

(** [recursive_directory_iterator]; the flag tells whether it went through. *)
Definition walk `{Traversal} (d : path) : M (list path * bool) := fun o w =>
  let entries := if is_dir w d then traversal (descendants w d) else [] in
  match next o with
  | (NoFault, o') => Done (entries, is_dir w d) w o'
  | (IoError n, o') => Done (take n entries, false) w o'
  | (Crash _, _) => Crashed w
  end.

Definition remove_tree (ps : list path) (w : world) : world := foldl (fun w p => drop_node p w) w ps.

(** [remove_all(d, error)] deletes one node after the other. *)
Definition remove_all `{Traversal} (d : path) : M bool :=
  stepwise (fun n w => remove_tree (take n (traversal (d :: descendants w d))) w)
    (fun w => Some (remove_tree (traversal (d :: descendants w d)) w)).

(** A loop over a list that threads an accumulator. *)
Fixpoint for_each {A B} (l : list A) (body : A -> B -> M B) (acc : B) : M B :=
  match l with
  | [] => mret acc
  | x :: l' => acc' ← body x acc; for_each l' body acc'
  end.

(** A listing order, used to run the model. *)
#[export] Instance plain_listing : Listing := { listing l := l; listing_perm l := Permutation_refl l }.

(** ** Reasoning about every fault *)

(** Whatever faults occur, [m] ends in [Q] when it returns, in [E] when an
    exception leaves it and in [C] when the process dies during it. *)
Definition wp {A} (m : M A) (Q : A -> world -> Prop) (E C : world -> Prop) (w : world) : Prop :=
  forall o, match m o w with
            | Done a w' _ => Q a w'
            | Threw w' _ => E w'
            | Crashed w' => C w'
            | Stuck _ => False
            end.

Section rules.
Context {A B : Type}.
Implicit Types (Q : A -> world -> Prop) (E C : world -> Prop).

Lemma wp_ret (a : A) Q E C w : Q a w -> wp (mret a) Q E C w.
Proof. by intros HQ o. Qed.

Lemma wp_bind (m : M B) (k : B -> M A) Q E C w :
  wp m (fun b => wp (k b) Q E C) E C w -> wp (m ≫= k) Q E C w.
Proof.
  intros Hm o. specialize (Hm o). unfold mbind, M_bind. by destruct (m o w); [apply Hm|..].
Qed.

Lemma wp_mono (m : M A) Q Q' E E' C C' w :
  (forall a w', Q a w' -> Q' a w') -> (forall w', E w' -> E' w') -> (forall w', C w' -> C' w') ->
  wp m Q E C w -> wp m Q' E' C' w.
Proof. intros HQ HE HC Hm o. specialize (Hm o). destruct (m o w); auto. Qed.

Lemma wp_post (m : M A) Q Q' E C w :
  (forall a w', Q a w' -> Q' a w') -> wp m Q E C w -> wp m Q' E C w.
Proof. intros HQ. by apply wp_mono. Qed.

Lemma wp_and (m : M A) Q Q' E C w :
  wp m Q E C w -> wp m Q' (fun _ => True) (fun _ => True) w ->
  wp m (fun a w' => Q a w' /\ Q' a w') E C w.
Proof. intros H1 H2 o. specialize (H1 o). specialize (H2 o). by destruct (m o w). Qed.

(** A computation that only reads. *)
Lemma wp_reads (m : M A) Q Q' E C w :
  C w -> (forall a w', Q a w' -> Q' a w') -> wp m Q (fun _ => False) (eq w) w -> wp m Q' E C w.
Proof. intros HC HQ. apply wp_mono; [done|done|by intros ? <-]. Qed.

Lemma wp_catch (m h : M A) Q E C w :
  wp m Q (wp h Q E C) C w -> wp (catch m h) Q E C w.
Proof. intros Hm o. specialize (Hm o). unfold catch. destruct (m o w); [done|apply Hm|done|done]. Qed.

Lemma wp_query (f : world -> A) bad Q E C w :
  Q (f w) w -> Q bad w -> C w -> wp (query f bad) Q E C w.
Proof. intros H1 H2 H3 o. unfold query. destruct (next o) as [[] ?]; done. Qed.

End rules.

Lemma wp_atomically act (Q : bool -> world -> Prop) (E C : world -> Prop) w :
  Q false w -> C w ->
  (forall w', act w = Some w' -> Q true w' /\ C w') ->
  wp (atomically act) Q E C w.
Proof.
  intros H1 H2 H3 o. unfold atomically.
  destruct (next o) as [[|n|[|n]] o']; try done; destruct (act w) as [w'|] eqn:Ea; simpl; try done;
    by apply H3.
Qed.

Lemma wp_stepwise act all (Q : bool -> world -> Prop) (E C : world -> Prop) w :
  Q false w -> C w ->
  (forall w', all w = Some w' -> Q true w' /\ forall n, Q false (act n w) /\ C (act n w)) ->
  wp (stepwise act all) Q E C w.
Proof.
  intros H1 H2 H3 o. unfold stepwise.
  destruct (next o) as [[|n|n] o']; destruct (all w) as [w'|] eqn:Ea; try done;
    by apply (H3 w').
Qed.

Lemma wp_for_each {A B} (l : list A) (body : A -> B -> M B) (I : list A -> B -> world -> Prop)
    (E C : world -> Prop) acc w :
  (forall done x rest acc w, l = done ++ x :: rest -> I done acc w ->
     wp (body x acc) (I (done ++ [x])) E C w) ->
  I [] acc w -> wp (for_each l body acc) (I l) E C w.
Proof.
  intros Hbody. cut (forall rest done acc w, l = done ++ rest -> I done acc w ->
    wp (for_each rest body acc) (I l) E C w); [intros Hgen; by apply (Hgen l [])|].
  induction rest as [|x rest IH]; intros done acc' w' Hl HI; simpl.
  - rewrite app_nil_r in Hl. subst. by apply wp_ret.
  - apply wp_bind. eapply wp_mono; [|done|done|by apply (Hbody done x rest)].
    intros a w'' HI'. apply (IH (done ++ [x])); [|done]. by rewrite <- (assoc_L (++)).
Qed.

Lemma wp_at_start p (Q : bool -> world -> Prop) (E C : world -> Prop) w :
  Q (match files w !! p with Some (File content _) => String.eqb content EmptyString | _ => true end) w ->
  C w -> wp (at_start p) Q E C w.
Proof. intros HQ HC o. unfold at_start. destruct (next o) as [[] ?]; done. Qed.

Lemma wp_throw {A} (Q : A -> world -> Prop) (E C : world -> Prop) w : E w -> wp throw Q E C w.
Proof. by intros HE o. Qed.

(** A check that an error makes negative. *)
Lemma wp_check (f : world -> bool) (Q : bool -> world -> Prop) (E C : world -> Prop) w :
  (f w = true -> Q true w) -> Q false w -> C w -> wp (query f false) Q E C w.
Proof. intros H1 H2 H3. apply wp_query; [|done..]. by destruct (f w); [apply H1|]. Qed.

(** ** Runs with some faults *)

(** No call reports an error; the process may still die. *)
Definition steady (o : list fault) : Prop := forall n, IoError n ∉ o.

Lemma query_steady {A} (f : world -> A) bad o w a w' o' :
  steady o -> query f bad o w = Done a w' o' -> a = f w /\ w' = w /\ steady o'.
Proof.
  intros Ho. unfold query. destruct o as [|[|n|n] o]; cbn [next].
  - by intros [= <- <- <-].
  - intros [= <- <- <-]. split; [done|]. split; [done|]. intros n Hn. apply (Ho n). by right.
  - destruct (Ho n). by left.
  - done.
Qed.

Lemma walk_steady `{Traversal} d o w r w' o' :
  steady o -> walk d o w = Done r w' o' ->
  r = (if is_dir w d then traversal (descendants w d) else [], is_dir w d) /\ w' = w /\ steady o'.
Proof.
  intros Ho. unfold walk. destruct o as [|[|n|n] o]; cbn [next].
  - by intros [= <- <- <-].
  - intros [= <- <- <-]. split; [done|]. split; [done|]. intros n Hn. apply (Ho n). by right.
  - destruct (Ho n). by left.
  - done.
Qed.

Lemma for_each_steady {A B} (l : list A) (body : A -> B -> M B) (f : A -> B -> B) acc w :
  (forall x acc o a w' o', steady o -> body x acc o w = Done a w' o' -> a = f x acc /\ w' = w /\ steady o') ->
  forall o a w' o', steady o -> for_each l body acc o w = Done a w' o' ->
    a = foldl (fun acc x => f x acc) acc l /\ w' = w /\ steady o'.
Proof.
  intros Hbody. revert acc. induction l as [|x l IH]; intros acc o a w' o' Ho; [by intros [= <- <- <-]|].
  cbn [for_each]. unfold mbind, M_bind. destruct (body x acc o w) as [b w1 o1| | |] eqn:E; try done.
  apply Hbody in E as (-> & -> & Ho1); [|done]. by apply IH.
Qed.

(** What a computation does goes on to be met by any later faults. *)
Definition replays {A} (m : M A) : Prop :=
  forall o w a w' o1 o2, m o w = Done a w' o1 -> exists o', m o' w = Done a w' o2.

Lemma replays_ret {A} (a : A) : replays (mret a).
Proof. intros o w b w' o1 o2 [= <- <- <-]. by exists o2. Qed.

Lemma replays_query {A} (f : world -> A) bad : replays (query f bad).
Proof.
  intros o w a w' o1 o2. unfold query. destruct (next o) as [[|n|n] o'] eqn:E; [| |done]; intros [= <- <- <-].
  - by exists (NoFault :: o2).
  - by exists (IoError n :: o2).
Qed.

Lemma replays_walk `{Traversal} d : replays (walk d).
Proof.
  intros o w a w' o1 o2. unfold walk. destruct (next o) as [[|n|n] o'] eqn:E; [| |done]; intros [= <- <- <-].
  - by exists (NoFault :: o2).
  - by exists (IoError n :: o2).
Qed.

Lemma replays_bind {A B} (m : M A) (k : A -> M B) :
  replays m -> (forall a, replays (k a)) -> replays (m ≫= k).
Proof.
  intros Hm Hk o w b w2 o2 o3. unfold mbind, M_bind.
  destruct (m o w) as [a w1 o1| | |] eqn:E; try done. intros Hb.
  destruct (Hk a _ _ _ _ _ o3 Hb) as [o1' Hb']. destruct (Hm _ _ _ _ _ o1' E) as [o' E'].
  exists o'. by rewrite E'.
Qed.

Lemma replays_for_each {A B} (l : list A) (body : A -> B -> M B) acc :
  (forall x acc, replays (body x acc)) -> replays (for_each l body acc).
Proof.
  intros Hbody. revert acc. induction l as [|x l IH]; intros acc; [apply replays_ret|].
  by apply replays_bind.
Qed.

(** The first part of a sequence, and what is required after it. *)
Lemma wp_bind_inv {A B} (m : M B) (k : B -> M A) (Q : A -> world -> Prop) (E C : world -> Prop) w :
  replays m -> wp (m ≫= k) Q E C w -> wp m (fun b => wp (k b) Q E C) E C w.
Proof.
  intros Hm Hw o. pose proof (Hw o) as Ho. unfold mbind, M_bind in Ho.
  destruct (m o w) as [b w' o1| | |] eqn:Em; try done.
  intros o2. destruct (Hm _ _ _ _ _ o2 Em) as [o' Em']. specialize (Hw o').
  unfold mbind, M_bind in Hw. by rewrite Em' in Hw.
Qed.

(** ** What the calls change *)

Lemma lookup_put p n w q : files (put p n w) !! q = if decide (p = q) then Some n else files w !! q.
Proof. simpl. case_decide; [subst; apply lookup_insert_eq|by apply lookup_insert_ne]. Qed.

Lemma lookup_drop p w q : files (drop_node p w) !! q = if decide (p = q) then None else files w !! q.
Proof. simpl. case_decide; [subst; apply lookup_delete_eq|by apply lookup_delete_ne]. Qed.

(** [w'] differs from [w] at most at the paths [ps], and by new directories
    among [d] and its ancestors. *)
Definition touches (ps : list path) (d : path) (w w' : world) : Prop :=
  clock w' = clock w /\
  forall q, q ∉ ps ->
    files w' !! q = files w !! q \/
    (files w !! q = None /\ files w' !! q = Some Dir /\ q `suffix_of` d).

Lemma touches_refl ps d w : touches ps d w w.
Proof. split; [done|]. by left. Qed.

Lemma touches_trans ps d w w' w'' : touches ps d w w' -> touches ps d w' w'' -> touches ps d w w''.
Proof.
  intros [E1 H1] [E2 H2]. split; [congruence|]. intros q Hq.
  destruct (H1 q Hq) as [Ha|(Ha & Hb & Hc)], (H2 q Hq) as [Hd|(Hd & He & Hf)].
  - left. congruence.
  - right. by rewrite <- Ha.
  - right. by rewrite Hd.
  - congruence.
Qed.

#[global] Instance touches_preorder ps d : PreOrder (touches ps d).
Proof. split; [intros w; apply touches_refl|intros ???; apply touches_trans]. Qed.

Lemma touches_put ps d p n w : p ∈ ps -> touches ps d w (put p n w).
Proof. intros Hp. split; [done|]. intros q Hq. left. rewrite lookup_put, decide_False; set_solver. Qed.

Lemma touches_drop ps d p w : p ∈ ps -> touches ps d w (drop_node p w).
Proof. intros Hp. split; [done|]. intros q Hq. left. rewrite lookup_drop, decide_False; set_solver. Qed.

Fixpoint suffixes (d : path) : list path :=
  match d with [] => [[]] | _ :: d' => d :: suffixes d' end.

Lemma elem_of_suffixes q d : q `suffix_of` d -> q ∈ suffixes d.
Proof.
  induction d as [|n d IH]; simpl.
  - intros ->%suffix_nil_inv. set_solver.
  - destruct q as [|x q]; [intros _; right; apply IH, suffix_nil|].
    intros [->|Hq]%suffix_cons_inv; [by left|right; auto].
Qed.

Lemma length_suffixes d : length (suffixes d) = S (length d).
Proof. induction d as [|n d IH]; simpl; [done|]. by rewrite IH. Qed.

(** How many files such a change can add. *)
Lemma touches_size ps d w w' :
  touches ps d w w' -> (size (files w') <= size (files w) + (length ps + S (length d)))%nat.
Proof.
  intros [_ Ht]. rewrite <- !(size_dom (D := gset path)).
  assert (Hsub : dom (files w') ⊆ dom (files w) ∪ list_to_set (ps ++ suffixes d)).
  { intros q Hq. apply elem_of_union. destruct (decide (q ∈ ps)) as [Hp|Hp].
    { right. apply elem_of_list_to_set. set_solver. }
    apply elem_of_dom in Hq as [n Hq]. destruct (Ht q Hp) as [E|(_ & _ & Hs)].
    - left. apply elem_of_dom. rewrite <- E. eauto.
    - right. apply elem_of_list_to_set, elem_of_app. right. by apply elem_of_suffixes. }
  apply subseteq_size in Hsub. etrans; [exact Hsub|].
  rewrite size_union_alt. apply Nat.add_le_mono_l. etrans; [apply subseteq_size, subseteq_difference_l; reflexivity|].
  rewrite <- length_suffixes, <- length_app.
  generalize (ps ++ suffixes d). intros l. induction l as [|x l IH]; [done|].
  rewrite list_to_set_cons, size_union_alt, size_singleton. simpl. apply le_n_S. etrans; [apply subseteq_size, subseteq_difference_l; reflexivity|exact IH].
Qed.

Lemma make_dirs_touches ps d p w w' :
  p `suffix_of` d -> make_dirs p w = Some w' -> touches ps d w w'.
Proof.
  revert w'. induction p as [|n p IH]; intros w' Hp; simpl.
  - intros [= ->]. apply touches_refl.
  - destruct (make_dirs p w) as [w1|] eqn:E; [|done].
    assert (H1 : touches ps d w w1) by (apply IH; [by eapply suffix_cons_l|done]).
    destruct (files w1 !! (n :: p)) as [[]|] eqn:El; try done; intros [= <-]; [done|].
    etrans; [exact H1|]. split; [done|]. intros q Hq. rewrite lookup_put. case_decide; [|by left].
    subst. by right.
Qed.

Lemma make_dirs_is_dir p w w' : make_dirs p w = Some w' -> is_dir w' p = true.
Proof.
  destruct p as [|n p]; [done|]. simpl make_dirs. destruct (make_dirs p w) as [w1|]; [|done].
  unfold is_dir. destruct (files w1 !! (n :: p)) as [[]|] eqn:El; try done; intros [= <-]; [by rewrite El|].
  by rewrite lookup_put, decide_True.
Qed.

Lemma make_dirs_existing p w : (forall q, q `suffix_of` p -> is_dir w q = true) -> make_dirs p w = Some w.
Proof.
  induction p as [|n p IH]; intros Hd; simpl; [done|].
  rewrite IH by (intros q Hq; apply Hd; by apply suffix_cons_r).
  specialize (Hd (n :: p) (reflexivity _)). simpl in Hd. by destruct (files w !! (n :: p)) as [[]|].
Qed.

Lemma create_directories_wp ps d p (Q : bool -> world -> Prop) (E C : world -> Prop) w :
  p `suffix_of` d ->
  (forall w', touches ps d w w' -> C w' /\ Q false w' /\ (is_dir w' p = true -> Q true w')) ->
  wp (create_directories p) Q E C w.
Proof.
  intros Hp H. pose proof (touches_refl ps d w) as Hr.
  apply wp_stepwise; [by apply H|by apply H|]. intros w' Hm.
  split; [apply H; [by eapply make_dirs_touches|by eapply make_dirs_is_dir]|].
  intros n. assert (Ht : touches ps d w (default w (make_dirs (drop (length p - n) p) w))).
  { destruct (make_dirs (drop (length p - n) p) w) as [w1|] eqn:E1; simpl; [|done].
    eapply make_dirs_touches; [|exact E1]. etrans; [apply suffix_drop|done]. }
  split; apply (H _ Ht).
Qed.

Lemma open_trunc_wp ps d p (Q : bool -> world -> Prop) (E C : world -> Prop) w :
  p ∈ ps ->
  (forall w', touches ps d w w' -> C w' /\ Q false w') ->
  (forall w', touches ps d w w' -> (exists t, files w' !! p = Some (File "" t)) -> Q true w') ->
  wp (open_trunc p) Q E C w.
Proof.
  intros Hp Hf Ht. pose proof (touches_refl ps d w) as Hr.
  apply wp_atomically; [by apply Hf|by apply Hf|]. intros w' Ho.
  assert (exists t, w' = put p (File "" t) w) as [t ->].
  { unfold open_for_writing in Ho. destruct (negb _); [done|].
    destruct (files w !! p) as [[]|]; simplify_eq; eauto. }
  pose proof (touches_put ps d p (File "" t) w Hp) as Hw.
  split; [|by apply Hf]. apply Ht; [done|]. exists t. by rewrite lookup_put, decide_True.
Qed.

Lemma append_to_touches ps d p data w : p ∈ ps -> touches ps d w (append_to p data w).
Proof.
  intros Hp. unfold append_to. destruct (files w !! p) as [[]|]; try apply touches_refl.
  by apply touches_put.
Qed.

Lemma write_stream_wp ps d p data (Q : bool -> world -> Prop) (E C : world -> Prop) w :
  p ∈ ps ->
  (forall w', touches ps d w w' -> C w' /\ Q false w') ->
  (touches ps d w (append_to p data w) -> Q true (append_to p data w)) ->
  wp (write_stream p data) Q E C w.
Proof.
  intros Hp Hf Ht. pose proof (touches_refl ps d w) as Hr.
  apply wp_stepwise; [by apply Hf|by apply Hf|]. intros w' [= <-].
  split; [by apply Ht, append_to_touches|]. intros n. split; by apply Hf, append_to_touches.
Qed.

Lemma remove_wp ps d p (Q : bool -> world -> Prop) (E C : world -> Prop) w :
  p ∈ ps ->
  C w /\ Q false w ->
  (forall w', touches ps d w w' -> (forall q, q <> p -> files w' !! q = files w !! q) ->
     files w' !! p = None -> C w' /\ Q true w') ->
  wp (remove p) Q E C w.
Proof.
  intros Hp [HC HQ] Ht. apply wp_atomically; [done..|]. intros w' Hr.
  enough (C w' /\ Q true w') by tauto. unfold remove_node in Hr.
  assert (Hdrop : C (drop_node p w) /\ Q true (drop_node p w)).
  { apply Ht; [by apply touches_drop|..].
    - intros q Hq. rewrite lookup_drop. by rewrite decide_False.
    - by rewrite lookup_drop, decide_True. }
  destruct (files w !! p) as [[]|] eqn:El; simplify_eq; try done.
  - destruct (no_child p w); simplify_eq. done.
  - apply Ht; [apply touches_refl|done|done].
Qed.

Lemma rename_wp ps d from to (Q : bool -> world -> Prop) (E C : world -> Prop) w :
  from ∈ ps -> to ∈ ps -> from <> to ->
  C w /\ Q false w ->
  (forall w' content t, touches ps d w w' ->
     files w !! from = Some (File content t) -> files w' !! to = Some (File content t) ->
     files w' !! from = None -> (forall q, q <> from -> q <> to -> files w' !! q = files w !! q) ->
     C w' /\ Q true w') ->
  wp (rename from to) Q E C w.
Proof.
  intros Hf Hto Hne [HC HQ] Ht. apply wp_atomically; [done..|]. intros w' Hr.
  enough (C w' /\ Q true w') by tauto. unfold rename_file in Hr.
  destruct (files w !! from) as [[content t| |]|] eqn:El; try done.
  destruct (_ && _); [|done]. injection Hr as <-.
  apply (Ht _ content t).
  - apply (touches_trans _ _ _ (drop_node from w)); [by apply touches_drop|by apply touches_put].
  - done.
  - by rewrite lookup_put, decide_True.
  - by rewrite lookup_put, decide_False, lookup_drop, decide_True by done.
  - intros q Hq1 Hq2. by rewrite lookup_put, decide_False, lookup_drop, decide_False by done.
Qed.

(** ** Runs without faults *)

(** [m] returns [a] and leaves [w'] when nothing goes wrong. *)
Definition returns {A} (m : M A) (w : world) (a : A) (w' : world) : Prop := m [] w = Done a w' [].

Lemma returns_bind {A B} (m : M A) (k : A -> M B) w a w' b w'' :
  returns m w a w' -> returns (k a) w' b w'' -> returns (m ≫= k) w b w''.
Proof. unfold returns, mbind, M_bind. intros -> Hk. exact Hk. Qed.

Lemma returns_for_each {A B} (l : list A) (body : A -> B -> M B)
    (I : list A -> B -> world -> Prop) acc w :
  (forall done x rest acc w, l = done ++ x :: rest -> I done acc w ->
     exists acc' w', returns (body x acc) w acc' w' /\ I (done ++ [x]) acc' w') ->
  I [] acc w -> exists acc' w', returns (for_each l body acc) w acc' w' /\ I l acc' w'.
Proof.
  intros Hbody. cut (forall rest done acc w, l = done ++ rest -> I done acc w ->
    exists acc' w', returns (for_each rest body acc) w acc' w' /\ I l acc' w');
    [intros Hgen; by apply (Hgen l [])|].
  induction rest as [|x rest IH]; intros done acc' w' Hl HI; simpl.
  - rewrite app_nil_r in Hl. subst. by exists acc', w'.
  - destruct (Hbody done x rest acc' w' Hl HI) as (acc1 & w1 & Hr & HI1).
    destruct (IH (done ++ [x]) acc1 w1) as (acc2 & w2 & Hr2 & HI2);
      [by rewrite <- (assoc_L (++))|done|].
    exists acc2, w2. split; [|done]. by eapply returns_bind.
Qed.

(** ** Listings *)

Lemma elem_of_children w p name :
  name ∈ children w p <-> exists n, files w !! child p name = Some n.
Proof.
  unfold children, child. rewrite list_elem_of_omap. split.
  - intros ([[|x d] n] & Hin & Hc); [done|]. simpl in Hc. case_decide; simplify_eq.
    exists n. by apply elem_of_map_to_list.
  - intros [n Hn]. exists (name :: p, n). split; [by apply elem_of_map_to_list|].
    simpl. by rewrite decide_True.
Qed.

Lemma children_NoDup w p : NoDup (children w p).
Proof.
  apply NoDup_omap_keys; [apply NoDup_fst_map_to_list|].
  intros [[|x d] n] [[|x' d'] n'] y; simpl; try done. repeat case_decide; naive_solver.
Qed.

Lemma list_directory_returns `{Listing} w p :
  is_dir w p = true -> returns (list_directory p) w (listing (children w p)) w.
Proof. intros Hd. unfold returns, list_directory. simpl. by rewrite Hd. Qed.

Lemma list_directory_wp `{Listing} p (Q : list string -> world -> Prop) (E C : world -> Prop) w :
  (forall names, (forall name, name ∈ names -> name ∈ children w p) -> Q names w) -> C w ->
  wp (list_directory p) Q E C w.
Proof.
  intros HQ HC o. unfold list_directory. cbv zeta.
  assert (Hin : forall name, name ∈ (if is_dir w p then listing (children w p) else []) ->
                             name ∈ children w p).
  { intros name. destruct (is_dir w p); [by rewrite listing_perm|by intros ?%elem_of_nil]. }
  destruct (next o) as [[|n|n] o']; [by apply HQ|apply HQ|done].
  intros name Hn. apply Hin. by eapply (subseteq_take n).
Qed.

(** ** Trees *)

(** Two subdirectories share nothing. *)
Lemma child_below root n m q : child root n `suffix_of` q -> child root m `suffix_of` q -> n = m.
Proof.
  intros [a ->] [b Hb]. assert (Hl : length a = length b).
  { apply (f_equal length) in Hb. rewrite !length_app in Hb. simpl in Hb. lia. }
  apply app_inj_1 in Hb as [_ [= ->]]; done.
Qed.

Lemma elem_of_descendants w d q : q ∈ descendants w d <-> below d q /\ exists n, files w !! q = Some n.
Proof.
  unfold descendants. rewrite list_elem_of_fmap. split.
  - intros ([q' n] & -> & Hin%elem_of_map_to_list). apply map_lookup_filter_Some in Hin as [Hl Hb].
    split; [done|]. by exists n.
  - intros [Hb [n Hn]]. exists (q, n). split; [done|]. apply elem_of_map_to_list.
    by apply map_lookup_filter_Some.
Qed.

Lemma descendants_NoDup w d : NoDup (descendants w d).
Proof. apply NoDup_fst_map_to_list. Qed.

Lemma walk_wp `{Traversal} d w :
  wp (walk d) (fun r w' => w' = w /\ NoDup r.1 /\ forall q, q ∈ r.1 -> below d q) (fun _ => False) (eq w) w.
Proof.
  intros o. unfold walk. cbv zeta.
  assert (Hin : forall q, q ∈ (if is_dir w d then traversal (descendants w d) else []) -> below d q).
  { intros q. destruct (is_dir w d); [|by intros ?%elem_of_nil].
    rewrite traversal_perm, elem_of_descendants. by intros []. }
  assert (Hnd : NoDup (if is_dir w d then traversal (descendants w d) else [])).
  { destruct (is_dir w d); [|constructor]. rewrite traversal_perm. apply NoDup_fst_map_to_list. }
  destruct (next o) as [[|n|n] o']; [done| |done]. split_and!; [done|by eapply sublist_NoDup, sublist_take|].
  intros q Hq. apply Hin. by eapply (subseteq_take n).
Qed.

Lemma descendants_ext w w' d :
  (forall q, below d q -> files w' !! q = files w !! q) -> descendants w' d = descendants w d.
Proof.
  intros He. unfold descendants. do 2 f_equal. apply map_eq. intros q.
  apply option_eq. intros n. rewrite !map_lookup_filter_Some.
  split; intros [Hl Hb]; (split; [|done]); specialize (He q Hb); congruence.
Qed.

Lemma remove_tree_clock ps w : clock (remove_tree ps w) = clock w.
Proof. revert w. induction ps as [|p ps IH]; intros w; simpl; [done|]. by rewrite IH. Qed.

Lemma lookup_remove_tree ps w q :
  files (remove_tree ps w) !! q = if decide (q ∈ ps) then None else files w !! q.
Proof.
  revert w. induction ps as [|p ps IH]; intros w; cbn [remove_tree foldl].
  - rewrite decide_False; [done|]. apply not_elem_of_nil.
  - etrans; [apply IH|]. rewrite lookup_drop. repeat case_decide; set_solver.
Qed.

Lemma remove_all_wp `{Traversal} d (Q : bool -> world -> Prop) (E C : world -> Prop) w :
  (forall w' b, clock w' = clock w ->
     (forall q, files w' !! q = files w !! q \/ files w' !! q = None /\ d `suffix_of` q) ->
     C w' /\ Q b w') ->
  wp (remove_all d) Q E C w.
Proof.
  intros H1.
  assert (Ht : forall ps b, (forall q, q ∈ ps -> q ∈ d :: descendants w d) ->
    C (remove_tree ps w) /\ Q b (remove_tree ps w)).
  { intros ps b Hps. apply H1; [apply remove_tree_clock|]. intros q. rewrite lookup_remove_tree.
    case_decide as Hq; [right|by left]. split; [done|].
    apply Hps, elem_of_cons in Hq as [->|Hq]; [done|].
    by apply elem_of_descendants in Hq as [[]]. }
  apply wp_stepwise; [by apply (Ht [] false); intros q ?%elem_of_nil..|]. intros w' [= <-].
  assert (Hin : forall q, q ∈ traversal (d :: descendants w d) -> q ∈ d :: descendants w d)
    by (intros q; by rewrite traversal_perm).
  split; [by apply Ht|]. intros n.
  assert (Hn : forall q, q ∈ take n (traversal (d :: descendants w d)) -> q ∈ d :: descendants w d)
    by (intros q Hq; apply Hin; by eapply (subseteq_take n)).
  split; by apply (Ht _ false).
Qed.

Lemma remove_all_returns `{Traversal} d w :
  exists w', returns (remove_all d) w true w' /\ clock w' = clock w /\
    forall q, files w' !! q = if decide (d `suffix_of` q) then None else files w !! q.
Proof.
  eexists. split; [reflexivity|]. split; [apply remove_tree_clock|]. intros q.
  rewrite lookup_remove_tree.
  assert (Hin : q ∈ traversal (d :: descendants w d) <->
                q = d \/ below d q /\ exists n, files w !! q = Some n)
    by (rewrite traversal_perm, elem_of_cons, elem_of_descendants; done).
  case_decide as Hq; case_decide as Hs; try done.
  - apply Hin in Hq as [->|[[] ]]; [destruct Hs; reflexivity|done].
  - destruct (files w !! q) as [n|] eqn:El; [|done]. destruct Hq. apply Hin.
    destruct (decide (q = d)); [by left|right]. split; [done|by exists n].
Qed.
