(* ===== verification/EventState.v ===== *)
(** * EventState: the marker files of an event directory

    Models src/include/event_state.hpp.  An event directory carries [.pending]
    from the moment the event is accepted and one of [.complete] and [.failed]
    when it is settled; [reconcile] settles what a crash left pending. *)

From S2P Require Import Prelude Text FileSystem.

(** ** Operations *)

(** Renaming over the target, with the fallback for systems that do not replace
    an existing destination. *)
Definition rename_over (temporary target : path) : M bool :=
  renamed ← rename temporary target;
  if renamed : bool then mret true
  else _ ← remove target; rename temporary target.

Definition writeAtomically (target : path) (content : string) : M bool :=
  created ← create_directories (parent_path target);
  if negb created then mret false else
  let temporary := with_suffix target ".tmp" in
  opened ← open_trunc temporary;
  if negb opened then mret false else
  written ← write_stream temporary content;
  if negb written then (_ ← remove temporary; mret false) else
  _ ← sync temporary;
  replaced ← rename_over temporary target;
  if negb replaced then (_ ← remove temporary; mret false) else
  _ ← sync (parent_path target);
  mret true.

Definition pending (directory : path) : path := child directory ".pending".
Definition completed (directory : path) : path := child directory ".complete".
Definition failed (directory : path) : path := child directory ".failed".

Definition newline : string := String LF EmptyString.

Definition begin_content (eventName : string) (acceptedAtNs : Z) : string :=
  "event=" +:+ eventName +:+ newline +:+ "accepted_at_ns=" +:+ to_string acceptedAtNs +:+ newline.

Definition fail_content (reason : string) (nowNs : Z) : string :=
  "reason=" +:+ reason +:+ newline +:+ "failed_at_ns=" +:+ to_string nowNs +:+ newline.

Definition complete_content (recordCount : Z) : string :=
  "records=" +:+ to_string recordCount +:+ newline.

Definition begin_event (directory : path) (eventName : string) (acceptedAtNs : Z) : M bool :=
  writeAtomically (pending directory) (begin_content eventName acceptedAtNs).

(** [nowNs] is what the system clock reads. *)
Definition fail_event (directory : path) (reason : string) (nowNs : Z) : M bool :=
  written ← writeAtomically (failed directory) (fail_content reason nowNs);
  if written : bool then
    _ ← remove (pending directory);
    _ ← remove (completed directory);
    mret true
  else mret false.

Definition complete_event (directory : path) (recordCount : Z) : M bool :=
  written ← writeAtomically (completed directory) (complete_content recordCount);
  if negb written then mret false else
  _ ← remove (pending directory);
  _ ← remove (failed directory);
  _ ← sync directory;
  mret true.

Record ReconcileResult := { recoveredFailures : Z; clearedPending : Z }.

(** The body of the loop of [reconcile]. *)
Definition reconcileEntry (nowNs : Z) (root : path) (name : string) (result : ReconcileResult)
    : M ReconcileResult :=
  let directory := child root name in
  isDirectory ← is_directory directory;
  if negb isDirectory then mret result else
  isPending ← fs_exists (pending directory);
  if negb isPending then mret result else
  isComplete ← fs_exists (completed directory);
  isSettled ← (if isComplete : bool then mret true else fs_exists (failed directory));
  if isSettled : bool then
    _ ← remove (pending directory);
    mret {| recoveredFailures := recoveredFailures result;
            clearedPending := clearedPending result + 1 |}
  else
    recorded ← fail_event directory "crash_recovery" nowNs;
    mret (if recorded : bool
          then {| recoveredFailures := recoveredFailures result + 1;
                  clearedPending := clearedPending result |}
          else result).

Definition reconcile `{Listing} (nowNs : Z) (root : path) : M ReconcileResult :=
  names ← list_directory root;
  for_each names (reconcileEntry nowNs root) {| recoveredFailures := 0; clearedPending := 0 |}.

(** ** Writing a file at once *)

Abbreviation scratch t := (with_suffix t ".tmp").

Lemma with_suffix_ne p s : s <> "" -> with_suffix p s <> p.
Proof.
  destruct p as [|n d]; [done|]. simpl. intros Hs [= He].
  apply (f_equal String.length) in He. rewrite length_app_str in He. destruct s; simpl in *; [done|lia].
Qed.

Lemma scratch_ne t : scratch t <> t.
Proof. by apply with_suffix_ne. Qed.

(** What [writeAtomically] may have done to the target when it is interrupted,
    and when it reports a failure. *)
Definition target_whole (t : path) (content : string) (w w' : world) : Prop :=
  files w' !! t = files w !! t \/ files w' !! t = None \/
  exists m, files w' !! t = Some (File content m).

Definition written_or_not (t : path) (content : string) (ok : bool) (w w' : world) : Prop :=
  touches [t; scratch t] (parent_path t) w w' /\
  if ok then exists m, files w' !! t = Some (File content m)
  else files w' !! t = files w !! t \/ files w' !! t = None.

(** The same before the rename: the target still is what it was. *)
Definition only_scratch (t : path) (w w' : world) : Prop :=
  touches [scratch t] (parent_path t) w w'.

Lemma only_scratch_touches t w w' :
  only_scratch t w w' -> touches [t; scratch t] (parent_path t) w w'.
Proof. intros [Hc H]. split; [done|]. intros q Hq. apply H. set_solver. Qed.

Lemma only_scratch_target t w w' :
  t <> [] -> only_scratch t w w' -> files w' !! t = files w !! t.
Proof.
  intros Hne [_ H]. destruct (H t) as [|(_ & _ & Hs)]; [pose proof (scratch_ne t); set_solver|done|].
  apply suffix_length in Hs. destruct t; simpl in *; [done|lia].
Qed.

(** A state between the write and the rename, and one after a failed attempt. *)
Lemma rename_over_wp t content w w3 :
  t <> [] -> only_scratch t w w3 ->
  (exists m, files w3 !! scratch t = Some (File content m)) ->
  wp (rename_over (scratch t) t) (fun ok w' => written_or_not t content ok w w') (fun _ => False)
    (fun w' => touches [t; scratch t] (parent_path t) w w' /\ target_whole t content w w') w3.
Proof.
  intros Hne O3 [m Hm]. pose proof (scratch_ne t) as Hsn.
  pose proof (only_scratch_touches _ _ _ O3) as T3. pose proof (only_scratch_target _ _ _ Hne O3) as E3.
  assert (Hok : forall w4 w5 content' m', touches [t; scratch t] (parent_path t) w w4 ->
    files w4 !! scratch t = Some (File content m) -> touches [t; scratch t] (parent_path t) w4 w5 ->
    files w4 !! scratch t = Some (File content' m') -> files w5 !! t = Some (File content' m') ->
    (touches [t; scratch t] (parent_path t) w w5 /\ target_whole t content w w5) /\
    written_or_not t content true w w5).
  { intros w4 w5 c' m' T4 Hs T5 Hs' Ht. rewrite Hs in Hs'. injection Hs' as <- <-.
    assert (touches [t; scratch t] (parent_path t) w w5) by (by etrans).
    unfold target_whole, written_or_not. eauto 8. }
  unfold rename_over. apply wp_bind, (rename_wp [t; scratch t] (parent_path t)); [set_solver..|done| |].
  - split; [unfold target_whole; auto|]. apply wp_bind, (remove_wp [t; scratch t] (parent_path t));
      [set_solver| |].
    + split; [unfold target_whole; auto|].
      apply (rename_wp [t; scratch t] (parent_path t)); [set_solver..|done| |].
      * unfold target_whole, written_or_not. auto.
      * intros w5 c' m' T5 Hs Ht _ _. eapply Hok; eauto.
    + intros w4 T4 Hsame Hnone. rewrite <- (Hsame _ Hsn) in Hm.
      assert (T4' : touches [t; scratch t] (parent_path t) w w4) by (by etrans).
      split; [unfold target_whole; auto|].
      apply (rename_wp [t; scratch t] (parent_path t)); [set_solver..|done| |].
      * unfold target_whole, written_or_not. auto.
      * intros w5 c' m' T5 Hs Ht _ _. eapply Hok; eauto.
  - intros w4 c' m' T4 Hs Ht _ _. destruct (Hok w3 w4 c' m') as [H1 H2]; [done..|].
    split; [done|]. by apply wp_ret.
Qed.

Lemma written_or_not_whole t content ok w w' :
  written_or_not t content ok w w' ->
  touches [t; scratch t] (parent_path t) w w' /\ target_whole t content w w'.
Proof. unfold target_whole. intros [H1 H2]. split; [done|]. destruct ok; [auto|tauto]. Qed.

(** The last steps of [writeAtomically]. *)
Lemma replace_target_wp t content w w3 :
  t <> [] -> only_scratch t w w3 ->
  (exists m, files w3 !! scratch t = Some (File content m)) ->
  wp (replaced ← rename_over (scratch t) t;
      if negb replaced then (_ ← remove (scratch t); mret false) else
      _ ← sync (parent_path t);
      mret true)
    (fun ok w' => written_or_not t content ok w w') (fun _ => False)
    (fun w' => touches [t; scratch t] (parent_path t) w w' /\ target_whole t content w w') w3.
Proof.
  intros Hne O3 F3. pose proof (scratch_ne t) as Hsn.
  apply wp_bind. eapply wp_mono; [..|by apply rename_over_wp]; [|done|done].
  intros [] w4 H4; simpl; pose proof (written_or_not_whole _ _ _ _ _ H4) as C4.
  - apply wp_bind, wp_query; [by apply wp_ret..|done].
  - apply wp_bind, (remove_wp [t; scratch t] (parent_path t)); [set_solver| |].
    + split; [done|by apply wp_ret].
    + intros w5 T5 Hsame _. destruct H4 as [T4 H4].
      assert (H5 : written_or_not t content false w w5).
      { split; [by etrans|]. by rewrite Hsame. }
      split; [by eapply written_or_not_whole|by apply wp_ret].
Qed.

Lemma writeAtomically_wp t content w :
  t <> [] ->
  wp (writeAtomically t content) (fun ok w' => written_or_not t content ok w w')
    (fun _ => False)
    (fun w' => touches [t; scratch t] (parent_path t) w w' /\ target_whole t content w w') w.
Proof.
  intros Hne. pose proof (scratch_ne t) as Hsn.
  assert (Hearly : forall w', only_scratch t w w' ->
    (touches [t; scratch t] (parent_path t) w w' /\ target_whole t content w w') /\
    written_or_not t content false w w').
  { intros w' Hw. pose proof (only_scratch_touches _ _ _ Hw). pose proof (only_scratch_target _ _ _ Hne Hw).
    unfold target_whole, written_or_not. auto. }
  unfold writeAtomically.
  apply wp_bind, (create_directories_wp [scratch t] (parent_path t)); [done|]. intros w1 H1.
  split; [by apply Hearly|]. split; [by apply wp_ret, Hearly|]. intros _. simpl.
  apply wp_bind, (open_trunc_wp [scratch t] (parent_path t)); [set_solver| |].
  { intros w2 H2. assert (only_scratch t w w2) by (by etrans).
    split; [by apply Hearly|by apply wp_ret, Hearly]. }
  intros w2 H2 [m Hm]. assert (O2 : only_scratch t w w2) by (by etrans). simpl.
  apply wp_bind, (write_stream_wp [scratch t] (parent_path t)); [set_solver| |].
  { intros w3 H3. assert (O3 : only_scratch t w w3) by (by etrans).
    split; [by apply Hearly|]. simpl.
    apply wp_bind, (remove_wp [scratch t] (parent_path t)); [set_solver| |].
    - split; [by apply Hearly|by apply wp_ret, Hearly].
    - intros w4 H4 _ _. assert (only_scratch t w w4) by (by etrans).
      split; [by apply Hearly|by apply wp_ret, Hearly]. }
  intros H3. simpl.
  assert (O3 : only_scratch t w (append_to (scratch t) content w2)) by (by etrans).
  assert (F3 : exists m, files (append_to (scratch t) content w2) !! scratch t = Some (File content m)).
  { unfold append_to. rewrite Hm. rewrite lookup_put, decide_True by done. eauto. }
  set (w3 := append_to (scratch t) content w2) in *.
  pose proof (Hearly _ O3) as [C3 _].
  apply wp_bind, wp_query; [by apply replace_target_wp..|done].
Qed.

(** ** Writing a marker and removing the others *)

(** What the operations that write the marker [t] and then remove [a] and [b]
    may have done when they end or are interrupted. *)
Definition marking (t : path) (content : string) (a b : path) (w w' : world) : Prop :=
  touches [t; scratch t; a; b] (parent_path t) w w' /\ target_whole t content w w' /\
  forall q, q = a \/ q = b ->
    files w' !! q = files w !! q \/
    (files w' !! q = None /\ exists m, files w' !! t = Some (File content m)).

Definition marked (t : path) (content : string) (a b : path) (ok : bool) (w w' : world) : Prop :=
  marking t content a b w w' /\
  if ok then exists m, files w' !! t = Some (File content m)
  else (files w' !! t = files w !! t \/ files w' !! t = None) /\
       files w' !! a = files w !! a /\ files w' !! b = files w !! b.

(** Distinct files of one directory. *)
Definition siblings (t a b : path) : Prop :=
  t <> [] /\ a ∉ [t; scratch t; b] /\ b ∉ [t; scratch t] /\
  parent_path a = parent_path t /\ parent_path b = parent_path t /\ a <> [] /\ b <> [].

Lemma touches_weaken ps ps' d w w' :
  (forall q, q ∈ ps -> q ∈ ps') -> touches ps d w w' -> touches ps' d w w'.
Proof. intros Hps [Hc H]. split; [done|]. intros q Hq. apply H. auto. Qed.

Lemma touches_same ps d w w' q :
  touches ps d w w' -> q ∉ ps -> ~ q `suffix_of` d -> files w' !! q = files w !! q.
Proof. intros [_ H] Hq Hs. destruct (H q Hq) as [|(_ & _ & ?)]; [done|by exfalso]. Qed.

Lemma child_not_suffix t a : parent_path a = parent_path t -> a <> [] -> ~ a `suffix_of` parent_path t.
Proof.
  intros Hp Hne Hs. rewrite <- Hp in Hs. apply suffix_length in Hs. destruct a; simpl in *; [done|lia].
Qed.

Lemma interrupted_marking t content a b w w' :
  siblings t a b -> touches [t; scratch t] (parent_path t) w w' /\ target_whole t content w w' ->
  marking t content a b w w' /\ files w' !! a = files w !! a /\ files w' !! b = files w !! b.
Proof.
  intros (Ht & Ha & Hb & Hpa & Hpb & Hna & Hnb) [T Hw].
  assert (Ea : files w' !! a = files w !! a).
  { eapply touches_same; [exact T|set_solver|by apply child_not_suffix]. }
  assert (Eb : files w' !! b = files w !! b).
  { eapply touches_same; [exact T|set_solver|by apply child_not_suffix]. }
  split; [|done]. split; [eapply touches_weaken; [|exact T]; set_solver|]. split; [done|].
  intros q [-> | ->]; auto.
Qed.

Lemma written_marking t content a b ok w w' :
  siblings t a b -> written_or_not t content ok w w' -> marked t content a b ok w w'.
Proof.
  intros Hs Hw. pose proof (written_or_not_whole _ _ _ _ _ Hw) as Hwhole.
  destruct (interrupted_marking _ _ a b _ _ Hs Hwhole) as (Hm & Ea & Eb).
  split; [done|]. destruct Hw as [_ Hw]. by destruct ok.
Qed.

(** Removing the other two markers once the marker is in place. *)
Lemma clear_wp {A} t content a b (k : M A) (Q : A -> world -> Prop) (E C : world -> Prop) w w1 :
  siblings t a b -> marked t content a b true w w1 ->
  (forall w', marking t content a b w w' -> C w') ->
  (forall w', marked t content a b true w w' -> wp k Q E C w') ->
  wp (_ ← remove a; _ ← remove b; k) Q E C w1.
Proof.
  intros (Ht & Ha & Hb & Hpa & Hpb & Hna & Hnb) Hm HC Hk.
  assert (Hstep : forall c w1 w2, c = a \/ c = b -> marked t content a b true w w1 ->
    touches [t; scratch t; a; b] (parent_path t) w1 w2 ->
    (forall q, q <> c -> files w2 !! q = files w1 !! q) -> files w2 !! c = None ->
    marked t content a b true w w2).
  { clear Hm w1. intros c w1 w2 Hc [(T & Hw & Hab) [m Hm]] T2 Hsame Hnone.
    assert (Htc : t <> c) by (destruct Hc as [-> | ->]; set_solver).
    assert (Hm2 : files w2 !! t = Some (File content m)) by (by rewrite Hsame).
    split; [|eauto]. split; [by etrans|]. split; [unfold target_whole; eauto|].
    intros q Hq. destruct (decide (q = c)) as [->|Hqc]; [right; eauto|].
    rewrite Hsame by done. destruct (Hab q Hq) as [|[? _]]; [by left|right; eauto]. }
  apply wp_bind, (remove_wp [t; scratch t; a; b] (parent_path t)); [set_solver| |].
  - split; [apply HC, Hm|].
    apply wp_bind, (remove_wp [t; scratch t; a; b] (parent_path t)); [set_solver| |].
    + split; [apply HC, Hm|by apply Hk].
    + intros w2 T2 Hs Hn. assert (marked t content a b true w w2) as Hm2 by (eapply (Hstep b); eauto).
      split; [apply HC, Hm2|by apply Hk].
  - intros w2 T2 Hs Hn. assert (marked t content a b true w w2) as Hm2 by (eapply (Hstep a); eauto).
    split; [apply HC, Hm2|].
    apply wp_bind, (remove_wp [t; scratch t; a; b] (parent_path t)); [set_solver| |].
    + split; [apply HC, Hm2|by apply Hk].
    + intros w3 T3 Hs3 Hn3. assert (marked t content a b true w w3) as Hm3 by (eapply (Hstep b); eauto).
      split; [apply HC, Hm3|by apply Hk].
Qed.

Lemma siblings_fail d : siblings (failed d) (pending d) (completed d).
Proof. unfold siblings, failed, pending, completed, child. simpl. set_solver. Qed.

Lemma siblings_complete d : siblings (completed d) (pending d) (failed d).
Proof. unfold siblings, failed, pending, completed, child. simpl. set_solver. Qed.

Lemma fail_event_wp d reason now w :
  wp (fail_event d reason now)
    (fun ok w' => marked (failed d) (fail_content reason now) (pending d) (completed d) ok w w')
    (fun _ => False)
    (fun w' => marking (failed d) (fail_content reason now) (pending d) (completed d) w w') w.
Proof.
  pose proof (siblings_fail d) as Hs. unfold fail_event.
  apply wp_bind. eapply wp_mono; [..|by apply writeAtomically_wp]; [|done|].
  - intros [] w1 H1%(written_marking _ _ (pending d) (completed d)); try done.
    + eapply clear_wp; [done|exact H1|done|]. intros w' Hw'. by apply wp_ret.
    + by apply wp_ret.
  - intros w' Hw. by apply (interrupted_marking _ _ _ _ _ _ Hs Hw).
Qed.

Lemma complete_event_wp d count w :
  wp (complete_event d count)
    (fun ok w' => marked (completed d) (complete_content count) (pending d) (failed d) ok w w')
    (fun _ => False)
    (fun w' => marking (completed d) (complete_content count) (pending d) (failed d) w w') w.
Proof.
  pose proof (siblings_complete d) as Hs. unfold complete_event.
  apply wp_bind. eapply wp_mono; [..|by apply writeAtomically_wp]; [|done|].
  - intros [] w1 H1%(written_marking _ _ (pending d) (failed d)); try done; simpl.
    + eapply clear_wp; [done|exact H1|done|]. intros w' Hw'.
      apply wp_bind, wp_query; [by apply wp_ret..|apply Hw'].
    + by apply wp_ret.
  - intros w' Hw. by apply (interrupted_marking _ _ _ _ _ _ Hs Hw).
Qed.

(** ** Theorems *)

(** C14. Whatever goes wrong while a marker is written, and wherever the process
    dies, no reader ever sees a partial marker: the target is what it was, or
    absent, or has the whole new content; it has the new content when the call
    reports success and not when it reports a failure of a new marker, and
    apart from the scratch file and directories created for it nothing else
    changes. *)
Theorem writeAtomically_atomic t content w o :
  t <> [] ->
  match writeAtomically t content o w with
  | Done ok w' _ =>
      touches [t; scratch t] (parent_path t) w w' /\
      if ok then exists m, files w' !! t = Some (File content m)
      else files w' !! t = files w !! t \/ files w' !! t = None
  | Threw _ _ | Stuck _ => False
  | Crashed w' =>
      touches [t; scratch t] (parent_path t) w w' /\
      (files w' !! t = files w !! t \/ files w' !! t = None \/
       exists m, files w' !! t = Some (File content m))
  end.
Proof. intros Hne. exact (writeAtomically_wp t content w Hne o). Qed.

Definition empty_world : world := {| files := ∅; clock := 0 |}.

(** The process dies while the content is being written. *)
Lemma writeAtomically_atomic_witness :
  writeAtomically [".pending"; "brake_1_99"]%string "event=brake" [NoFault; NoFault; Crash 5] empty_world =
    Crashed {| files := {[ ["brake_1_99"]%string := Dir;
                           [".pending.tmp"; "brake_1_99"]%string := File "event" 0 ]}; clock := 0 |} /\
  match writeAtomically [".pending"; "brake_1_99"]%string "event=brake"
          [NoFault; NoFault; Crash 5] empty_world with
  | Done ok w' _ =>
      touches [[".pending"; "brake_1_99"]%string; scratch [".pending"; "brake_1_99"]%string]
        (parent_path [".pending"; "brake_1_99"]%string) empty_world w' /\
      if ok then exists m, files w' !! [".pending"; "brake_1_99"]%string = Some (File "event=brake" m)
      else files w' !! [".pending"; "brake_1_99"]%string =
             files empty_world !! [".pending"; "brake_1_99"]%string \/
           files w' !! [".pending"; "brake_1_99"]%string = None
  | Threw _ _ | Stuck _ => False
  | Crashed w' =>
      touches [[".pending"; "brake_1_99"]%string; scratch [".pending"; "brake_1_99"]%string]
        (parent_path [".pending"; "brake_1_99"]%string) empty_world w' /\
      (files w' !! [".pending"; "brake_1_99"]%string =
         files empty_world !! [".pending"; "brake_1_99"]%string \/
       files w' !! [".pending"; "brake_1_99"]%string = None \/
       exists m, files w' !! [".pending"; "brake_1_99"]%string = Some (File "event=brake" m))
  end.
Proof.
  split; [vm_compute; reflexivity|].
  apply (writeAtomically_atomic [".pending"; "brake_1_99"]%string "event=brake" empty_world
           [NoFault; NoFault; Crash 5]). discriminate.
Defined.

(** ** Runs without faults *)

(** A name that is free or belongs to a regular file. *)
Definition regular (w : world) (p : path) : Prop :=
  files w !! p = None \/ exists content m, files w !! p = Some (File content m).

(** Every directory on the way to [p], and [p] itself, exists. *)
Definition reachable (w : world) (p : path) : Prop := forall q, q `suffix_of` p -> is_dir w q = true.

Lemma remove_regular w p : regular w p -> exists w',
  returns (remove p) w true w' /\ clock w' = clock w /\
  forall q, files w' !! q = if decide (q = p) then None else files w !! q.
Proof.
  intros [Hn|(c & m & Hf)]; unfold returns, remove, atomically, remove_node; simpl.
  - rewrite Hn. exists w. split; [done|]. split; [done|]. intros q. case_decide; congruence.
  - rewrite Hf. exists (drop_node p w). split; [done|]. split; [done|]. intros q.
    rewrite lookup_drop. destruct (decide (p = q)), (decide (q = p)); congruence.
Qed.

Lemma regular_same w w' p : files w' !! p = files w !! p -> regular w p -> regular w' p.
Proof. unfold regular. by intros ->. Qed.

Lemma create_directories_existing w p : reachable w p -> returns (create_directories p) w true w.
Proof.
  intros Hr. unfold returns, create_directories, stepwise. simpl. by rewrite make_dirs_existing.
Qed.

Lemma open_trunc_regular w p :
  is_dir w (parent_path p) = true -> regular w p ->
  returns (open_trunc p) w true (put p (File "" (clock w)) w).
Proof.
  intros Hd Hr. unfold returns, open_trunc, atomically, open_for_writing. simpl. rewrite Hd. simpl.
  destruct Hr as [Hr|(c & m & Hr)]; by rewrite Hr.
Qed.

(** Staging the content in the scratch file and renaming it over the target. *)
Lemma stage_returns w t content :
  t <> [] -> is_dir w (parent_path t) = true -> regular w t -> regular w (scratch t) ->
  exists w1 w2 w3, returns (open_trunc (scratch t)) w true w1 /\
    returns (write_stream (scratch t) content) w1 true w2 /\
    returns (rename (scratch t) t) w2 true w3 /\ clock w3 = clock w /\
    forall q, files w3 !! q =
      if decide (q = t) then Some (File content (clock w))
      else if decide (q = scratch t) then None else files w !! q.
Proof.
  intros Hne Hr Ht Hs. pose proof (scratch_ne t) as Hsn.
  assert (Hsp : parent_path (scratch t) = parent_path t) by (by destruct t).
  set (w1 := put (scratch t) (File "" (clock w)) w).
  set (w2 := put (scratch t) (File content (clock w)) w1).
  set (w3 := put t (File content (clock w)) (drop_node (scratch t) w2)).
  exists w1, w2, w3. split; [|split; [|split; [|split; [done|]]]].
  - apply open_trunc_regular; [by rewrite Hsp|done].
  - unfold returns, write_stream, stepwise, append_to. simpl. by rewrite lookup_insert_eq.
  - assert (Hd : is_dir w2 (parent_path t) = true).
    { unfold is_dir in *. destruct (parent_path t) as [|x l] eqn:E; [done|].
      unfold w2, w1. rewrite !lookup_put, !decide_False; [done|..]; intros Heq;
        rewrite Heq in Hsp; simpl in Hsp; apply (f_equal length) in Hsp; simpl in Hsp; lia. }
    assert (Hf : is_dir w2 t = false).
    { unfold is_dir. destruct t as [|x l]; [done|]. unfold w2, w1.
      rewrite !lookup_put, !decide_False by done.
      destruct Ht as [Ht|(c & m & Ht)]; by rewrite Ht. }
    unfold returns, rename, atomically, rename_file. simpl. rewrite lookup_insert_eq.
    fold w2. by rewrite Hd, Hf.
  - intros q. unfold w3. rewrite lookup_put.
    destruct (decide (t = q)), (decide (q = t)); try congruence.
    rewrite lookup_drop. destruct (decide (scratch t = q)), (decide (q = scratch t)); try congruence.
    unfold w2, w1. by rewrite !lookup_put, !decide_False by congruence.
Qed.

Lemma writeAtomically_returns w t content :
  t <> [] -> reachable w (parent_path t) -> regular w t -> regular w (scratch t) ->
  exists w', returns (writeAtomically t content) w true w' /\ clock w' = clock w /\
    forall q, files w' !! q =
      if decide (q = t) then Some (File content (clock w))
      else if decide (q = scratch t) then None else files w !! q.
Proof.
  intros Hne Hr Ht Hs.
  destruct (stage_returns w t content Hne (Hr _ (reflexivity _)) Ht Hs)
    as (w1 & w2 & w3 & R1 & R2 & R3 & C & F).
  exists w3. split; [|done]. unfold writeAtomically.
  eapply returns_bind; [by apply create_directories_existing|]. simpl.
  eapply returns_bind; [exact R1|]. simpl. eapply returns_bind; [exact R2|]. simpl.
  eapply returns_bind; [reflexivity|]. eapply (returns_bind _ _ _ true w3); [|reflexivity].
  unfold rename_over. eapply returns_bind; [exact R3|reflexivity].
Qed.

(** ** Reconciliation *)

Definition has (w : world) (p : path) : bool :=
  match files w !! p with Some _ => true | None => false end.

Lemma has_false w p : has w p = false -> files w !! p = None.
Proof. unfold has. by destruct (files w !! p). Qed.

Definition settled (w : world) (d : path) : bool := has w (completed d) || has w (failed d).

(** Left behind by a crash before the event was settled, or just after. *)
Definition interrupted (w : world) (d : path) : bool := has w (pending d) && negb (settled w d).
Definition leftover (w : world) (d : path) : bool := has w (pending d) && settled w d.

(** The marker files of a directory and their scratch files are regular files
    where they exist. *)
Definition plain_markers (w : world) (d : path) : Prop :=
  regular w (pending d) /\ regular w (completed d) /\ regular w (failed d) /\
  regular w (scratch (failed d)).

(** The files of an event directory after its reconciliation. *)
Definition reconciled (w : world) (now : Z) (d : path) (leaf : string) : option node :=
  if String.eqb leaf ".pending" then None
  else if interrupted w d && String.eqb leaf ".failed"
  then Some (File (fail_content "crash_recovery" now) (clock w))
  else if interrupted w d && String.eqb leaf ".failed.tmp" then None
  else files w !! child d leaf.

Lemma fail_event_returns w d reason now :
  reachable w d -> plain_markers w d ->
  exists w', returns (fail_event d reason now) w true w' /\ clock w' = clock w /\
    forall q, files w' !! q =
      if decide (q = failed d) then Some (File (fail_content reason now) (clock w))
      else if decide (q = pending d \/ q = completed d \/ q = scratch (failed d)) then None
      else files w !! q.
Proof.
  intros Hr (Hp & Hc & Hf & Hs). unfold fail_event.
  destruct (writeAtomically_returns w (failed d) (fail_content reason now)) as (w1 & R1 & C1 & F1);
    [done..|].
  destruct (remove_regular w1 (pending d)) as (w2 & R2 & C2 & F2).
  { eapply regular_same; [|exact Hp]. by rewrite F1. }
  destruct (remove_regular w2 (completed d)) as (w3 & R3 & C3 & F3).
  { eapply regular_same; [|exact Hc]. by rewrite F2, F1. }
  exists w3. split; [|split; [congruence|]].
  - eapply returns_bind; [exact R1|]. simpl. eapply returns_bind; [exact R2|].
    eapply returns_bind; [exact R3|]. done.
  - intros q. rewrite F3, F2, F1. unfold failed, pending, completed, child in *.
    repeat case_decide; naive_solver.
Qed.

Lemma exists_returns w d leaf b :
  has w (child d leaf) = b -> returns (fs_exists (child d leaf)) w b w.
Proof. by intros <-. Qed.

(** One entry of the root, when nothing goes wrong. *)
Lemma reconcileEntry_returns w now root name result :
  let d := child root name in
  reachable w root -> (is_dir w d = true -> plain_markers w d) ->
  exists result' w', returns (reconcileEntry now root name result) w result' w' /\
    clock w' = clock w /\
    (forall q, files w' !! q =
       if is_dir w d && bool_decide (q <> [] /\ parent_path q = d) then reconciled w now d (filename q)
       else files w !! q) /\
    recoveredFailures result' =
      recoveredFailures result + (if is_dir w d && interrupted w d then 1 else 0) /\
    clearedPending result' = clearedPending result + (if is_dir w d && leftover w d then 1 else 0).
Proof.
  intros d Hroot Hplain. unfold reconcileEntry. fold d.
  destruct (is_dir w d) eqn:Hdir; cycle 1.
  { exists result, w. split; [|rewrite !Z.add_0_r; done].
    eapply returns_bind; [reflexivity|]. by rewrite Hdir. }
  destruct (Hplain eq_refl) as (Hp & Hc & Hf & Hs). simpl andb.
  assert (Hdr : reachable w d).
  { intros [|x q] Hq; [done|]. unfold d, child in Hq.
    apply suffix_cons_inv in Hq as [Heq|Hq]; [by rewrite Heq|by apply Hroot]. }
  clearbody d.
  destruct (has w (pending d)) eqn:Epend; cycle 1.
  { exists result, w. unfold interrupted, leftover. rewrite Epend, !Z.add_0_r.
    split; [|split; [done|]; split; [|done]].
    - eapply returns_bind; [reflexivity|]. rewrite Hdir. simpl.
      eapply returns_bind; [by apply exists_returns|]. done.
    - intros q. case_bool_decide as Hq; [|done]. destruct Hq as [Hq1 Hq2].
      destruct q as [|leaf d']; [done|]. simpl in Hq2. subst d'.
        change (filename (leaf :: d)) with leaf.
      unfold reconciled, interrupted. rewrite Epend. simpl.
      destruct (String.eqb_spec leaf ".pending") as [->|]; [|done].
      by apply has_false. }
  destruct (settled w d) eqn:Eset.
  - destruct (remove_regular w (pending d) Hp) as (w1 & R1 & C1 & F1).
    exists {| recoveredFailures := recoveredFailures result; clearedPending := clearedPending result + 1 |}, w1.
    unfold interrupted, leftover. rewrite Epend, Eset, Z.add_0_r.
    split; [|split; [done|]; split; [|done]].
    + eapply returns_bind; [reflexivity|]. rewrite Hdir. simpl.
      eapply returns_bind; [by apply exists_returns|]. simpl.
      eapply (returns_bind _ _ _ (has w (completed d)) w); [by apply exists_returns|].
      eapply (returns_bind _ _ _ true w); [|eapply returns_bind; [exact R1|done]].
      unfold settled in Eset. destruct (has w (completed d)); [done|]. by apply exists_returns.
    + intros q. rewrite F1. case_bool_decide as Hq.
      * destruct Hq as [Hq1 Hq2]. destruct q as [|leaf d']; [done|]. simpl in Hq2. subst d'.
        change (filename (leaf :: d)) with leaf.
        unfold reconciled, interrupted.
        rewrite Epend, Eset. simpl. unfold pending, child.
        destruct (String.eqb_spec leaf ".pending") as [->|]; case_decide; naive_solver.
      * case_decide; [|done]. subst q. exfalso. by apply Hq.
  - destruct (fail_event_returns w d "crash_recovery" now) as (w1 & R1 & C1 & F1).
    { done. }
    { done. }
    exists {| recoveredFailures := recoveredFailures result + 1; clearedPending := clearedPending result |}, w1.
    unfold interrupted, leftover. rewrite Epend, Eset, Z.add_0_r.
    unfold settled in Eset. apply orb_false_elim in Eset as [Ec Ef].
    split; [|split; [done|]; split; [|done]].
    + eapply returns_bind; [reflexivity|]. rewrite Hdir. simpl.
      eapply returns_bind; [by apply exists_returns|]. simpl.
      eapply returns_bind; [by apply exists_returns|]. simpl.
      eapply returns_bind; [by apply exists_returns|]. simpl.
      eapply returns_bind; [exact R1|done].
    + intros q. rewrite F1. case_bool_decide as Hq.
      * destruct Hq as [Hq1 Hq2]. destruct q as [|leaf d']; [done|]. simpl in Hq2. subst d'.
        change (filename (leaf :: d)) with leaf.
        unfold reconciled, interrupted, settled.
        rewrite Epend, Ec, Ef. simpl. unfold pending, failed, completed, child. simpl.
        apply has_false in Ec. unfold completed, child in Ec.
        destruct (String.eqb_spec leaf ".pending") as [->|];
          [repeat case_decide; naive_solver|].
        destruct (String.eqb_spec leaf ".failed") as [->|];
          [repeat case_decide; naive_solver|].
        destruct (String.eqb_spec leaf ".failed.tmp") as [->|];
          [repeat case_decide; naive_solver|].
        repeat case_decide; naive_solver.
      * repeat case_decide; [subst q; exfalso; by apply Hq| |done].
        exfalso. apply Hq. naive_solver.
Qed.

(** What is expected at a path after the directories [done] of the root have
    been reconciled. *)
Definition reconciled_at (w : world) (now : Z) (root : path) (done : list string) (q : path)
    : option node :=
  match q with
  | leaf :: name :: d =>
      if bool_decide (d = root /\ name ∈ done) && is_dir w (child root name)
      then reconciled w now (child root name) leaf
      else files w !! q
  | _ => files w !! q
  end.

Definition count_dirs (p : path -> bool) (w : world) (root : path) (names : list string) : Z :=
  Z.of_nat (length (List.filter (fun name => is_dir w (child root name) && p (child root name)) names)).

Lemma count_dirs_snoc p w root names name :
  count_dirs p w root (names ++ [name]) =
    count_dirs p w root names + (if is_dir w (child root name) && p (child root name) then 1 else 0).
Proof.
  unfold count_dirs. rewrite List.filter_app, length_app. simpl. destruct (_ && _); simpl; lia.
Qed.

Lemma reconciled_at_other w now root done name leaf :
  name ∉ done -> reconciled_at w now root done (leaf :: child root name) = files w !! (leaf :: child root name).
Proof. intros Hn. simpl. rewrite bool_decide_false by naive_solver. done. Qed.

Lemma reconciled_at_done w now root done name leaf :
  name ∈ done -> is_dir w (child root name) = true ->
  reconciled_at w now root done (child (child root name) leaf) = reconciled w now (child root name) leaf.
Proof.
  intros Hn Hd. unfold reconciled_at. unfold child at 1 2.
  rewrite bool_decide_true by done. by rewrite Hd.
Qed.

Lemma reconciled_at_short w now root done q :
  q `suffix_of` root \/ (exists name, q = child root name) ->
  reconciled_at w now root done q = files w !! q.
Proof.
  intros Hq. unfold reconciled_at. destruct q as [|leaf [|name d]]; [done..|].
  rewrite bool_decide_false; [done|]. intros [-> _]. destruct Hq as [Hq|[n Hq]].
  - apply suffix_length in Hq. simpl in Hq. lia.
  - injection Hq as _ Hq. apply (f_equal length) in Hq. simpl in Hq. lia.
Qed.

Lemma is_dir_same w w' q : files w' !! q = files w !! q -> is_dir w' q = is_dir w q.
Proof. unfold is_dir. by intros ->. Qed.

Lemma markers_same w w1 d :
  (forall leaf, files w1 !! child d leaf = files w !! child d leaf) ->
  interrupted w1 d = interrupted w d /\ leftover w1 d = leftover w d.
Proof.
  intros Hs. unfold interrupted, leftover, settled, has, pending, completed, failed. by rewrite !Hs.
Qed.

(** The state of the loop after the names [done]. *)
Definition reconcile_inv (w : world) (now : Z) (root : path) (done : list string)
    (result : ReconcileResult) (w1 : world) : Prop :=
  clock w1 = clock w /\
  (forall q, files w1 !! q = reconciled_at w now root done q) /\
  recoveredFailures result = count_dirs (interrupted w) w root done /\
  clearedPending result = count_dirs (leftover w) w root done.

Lemma reconcile_step w now root done name result w1 :
  reachable w root -> (forall n, is_dir w (child root n) = true -> plain_markers w (child root n)) ->
  name ∉ done -> reconcile_inv w now root done result w1 ->
  exists result' w2, returns (reconcileEntry now root name result) w1 result' w2 /\
    reconcile_inv w now root (done ++ [name]) result' w2.
Proof.
  intros Hroot Hplain Hn (Hc & Hf & Hr & Hl).
  assert (Hsame : forall leaf, files w1 !! (leaf :: child root name) = files w !! (leaf :: child root name)).
  { intros leaf. by rewrite Hf, reconciled_at_other. }
  assert (Hdir : is_dir w1 (child root name) = is_dir w (child root name)).
  { apply is_dir_same. rewrite Hf. apply reconciled_at_short. eauto. }
  destruct (markers_same w w1 (child root name) Hsame) as [Hint Hleft].
  destruct (reconcileEntry_returns w1 now root name result) as (result' & w2 & R & C2 & F2 & Hr2 & Hl2).
  - intros q Hq. rewrite (is_dir_same w w1 q); [by apply Hroot|].
    rewrite Hf. apply reconciled_at_short. by left.
  - intros Hd. rewrite Hdir in Hd. destruct (Hplain name Hd) as (H1 & H2 & H3 & H4).
    split; [|split; [|split]]; by (eapply regular_same; [apply Hsame|]).
  - exists result', w2. split; [done|]. rewrite Hdir, Hint in Hr2. rewrite Hdir, Hleft in Hl2.
    split; [congruence|]. split; [|by rewrite !count_dirs_snoc, <- Hr, <- Hl].
    intros q. rewrite F2, Hdir, Hf.
    destruct q as [|leaf [|n d]];
      [rewrite bool_decide_false by (unfold child; naive_solver); by rewrite andb_false_r..|].
    unfold reconciled_at. destruct (decide (d = root)) as [->|Hd]; cycle 1.
    { rewrite !bool_decide_false by (unfold child; naive_solver). by rewrite andb_false_r. }
    destruct (decide (n = name)) as [->|Hnn].
    + rewrite (bool_decide_true (leaf :: name :: root <> [] /\ _)) by done.
      rewrite (bool_decide_true (root = root /\ name ∈ done ++ [name])) by set_solver.
      rewrite (bool_decide_false (root = root /\ name ∈ done)) by naive_solver.
      rewrite andb_true_r. rewrite andb_true_l, andb_false_l. destruct (is_dir w (child root name)); [|done].
      unfold reconciled. rewrite Hint, Hc. change (filename (leaf :: name :: root)) with leaf. by rewrite (Hsame leaf : files w1 !! child (child root name) leaf = files w !! child (child root name) leaf).
    + rewrite (bool_decide_false (leaf :: n :: root <> [] /\ _)) by (unfold child; naive_solver).
      rewrite andb_false_r. rewrite (bool_decide_ext _ (root = root /\ n ∈ done ++ [name])); [done|].
      set_solver.
Qed.

(** C2. A reconciliation during which nothing goes wrong settles every event
    directory: no [.pending] is left; a directory that was pending and neither
    complete nor failed becomes failed by crash recovery; one that had been
    settled keeps its verdict; directories that were not pending and every
    other file are as before; and the two counts are the numbers of
    directories of the two kinds. *)
Theorem reconcile_settles `{Listing} w now root :
  reachable w root -> (forall n, is_dir w (child root n) = true -> plain_markers w (child root n)) ->
  exists result w', returns (reconcile now root) w result w' /\
    (forall name, is_dir w (child root name) = true ->
       let d := child root name in
       files w' !! pending d = None /\
       files w' !! completed d = files w !! completed d /\
       (if interrupted w d
        then files w' !! failed d = Some (File (fail_content "crash_recovery" now) (clock w))
        else files w' !! failed d = files w !! failed d)) /\
    (forall q, files w' !! q = files w !! q \/
       exists name leaf, is_dir w (child root name) = true /\ has w (pending (child root name)) = true /\
         q = child (child root name) leaf /\ leaf ∈ [".pending"; ".failed"; ".failed.tmp"]%string) /\
    recoveredFailures result = count_dirs (interrupted w) w root (children w root) /\
    clearedPending result = count_dirs (leftover w) w root (children w root).
Proof.
  intros Hroot Hplain.
  set (names := listing (children w root)).
  assert (Hperm : names ≡ₚ children w root) by apply listing_perm.
  assert (Hnd : NoDup names) by (rewrite Hperm; apply children_NoDup).
  destruct (returns_for_each names (reconcileEntry now root) (reconcile_inv w now root)
    {| recoveredFailures := 0; clearedPending := 0 |} w) as (result & w' & R & Hc & Hf & Hr & Hl).
  - intros done name rest result w1 Hsplit Hinv. apply reconcile_step; [done..| |done].
    rewrite Hsplit in Hnd. apply NoDup_app in Hnd as (_ & Hnd & _). set_solver.
  - split; [done|]. split; [|done]. intros [|? [|??]]; [done..|]. simpl.
    rewrite bool_decide_false by set_solver. done.
  - exists result, w'. split; [|split; [|split; [|split]]].
    + eapply returns_bind; [by apply list_directory_returns, Hroot|exact R].
    + intros name Hd d.
      assert (Hin : name ∈ names).
      { rewrite Hperm. apply elem_of_children. unfold is_dir, child in *.
        destruct (files w !! (name :: root)); [eauto|done]. }
      unfold pending, completed, failed, d. rewrite !Hf, !reconciled_at_done by done.
      unfold reconciled. simpl. rewrite !andb_true_r, !andb_false_r.
      split; [done|]. split; [done|]. by destruct (interrupted w (child root name)).
    + intros q. rewrite Hf. destruct q as [|leaf [|name d]]; [by left..|]. unfold reconciled_at.
      case_bool_decide as Hq; [|by left]. destruct Hq as [-> Hin].
      destruct (is_dir w (child root name)) eqn:Hd; [|by left]. simpl. unfold reconciled.
      destruct (has w (pending (child root name))) eqn:Hp.
      * destruct (String.eqb_spec leaf ".pending") as [->|]; [right; exists name; set_solver|].
        destruct (String.eqb_spec leaf ".failed") as [->|]; [right; exists name; set_solver|].
        destruct (String.eqb_spec leaf ".failed.tmp") as [->|]; [right; exists name; set_solver|].
        rewrite !andb_false_r. by left.
      * left. unfold interrupted. rewrite Hp. simpl.
        destruct (String.eqb_spec leaf ".pending") as [->|]; [|done].
        symmetry. by apply has_false.
    + rewrite Hr. unfold count_dirs. by rewrite Hperm.
    + rewrite Hl. unfold count_dirs. by rewrite Hperm.
Qed.

(** Checking the hypotheses on a given state. *)
Definition marker_names : list string := [".pending"; ".complete"; ".failed"; ".failed.tmp"]%string.

Definition plain_world (w : world) : bool :=
  bool_decide (map_Forall (fun (q : path) n =>
    filename q ∈ marker_names -> n <> Dir /\ n <> Symlink) (files w)).

Lemma plain_world_markers w d : plain_world w = true -> plain_markers w d.
Proof.
  intros Hw%bool_decide_eq_true.
  assert (Hreg : forall leaf, leaf ∈ marker_names -> regular w (leaf :: d)).
  { intros leaf Hl. unfold regular. destruct (files w !! (leaf :: d)) as [[c m| |]|] eqn:E; eauto;
      destruct (Hw _ _ E Hl); done. }
  split; [|split; [|split]]; apply Hreg; set_solver.
Qed.

Fixpoint reachableb (w : world) (p : path) : bool :=
  match p with [] => true | _ :: d => is_dir w p && reachableb w d end.

Lemma reachableb_spec w p : reachableb w p = true -> reachable w p.
Proof.
  induction p as [|n p IH]; intros Hr [|x q] Hq; try done.
  - by apply suffix_nil_inv in Hq.
  - apply andb_prop in Hr as [Hd Hr]. apply suffix_cons_inv in Hq as [->|Hq]; [done|by apply IH].
Qed.

(** One event interrupted by a crash and one that had just been completed. *)
Definition crashed_world : world :=
  {| files := list_to_map
       [(["records"], Dir); (["brake_1_99"; "records"], Dir);
        ([".pending"; "brake_1_99"; "records"], File "event=brake" 1);
        (["door_2_99"; "records"], Dir);
        ([".pending"; "door_2_99"; "records"], File "event=door" 1);
        ([".complete"; "door_2_99"; "records"], File "records=4" 1)]%string;
     clock := 7 |}.

Lemma reconcile_settles_witness :
  exists result w', returns (reconcile 42 ["records"%string]) crashed_world result w' /\
    (forall name, is_dir crashed_world (child ["records"%string] name) = true ->
       let d := child ["records"%string] name in
       files w' !! pending d = None /\
       files w' !! completed d = files crashed_world !! completed d /\
       (if interrupted crashed_world d
        then files w' !! failed d = Some (File (fail_content "crash_recovery" 42) 7)
        else files w' !! failed d = files crashed_world !! failed d)) /\
    (forall q, files w' !! q = files crashed_world !! q \/
       exists name leaf, is_dir crashed_world (child ["records"%string] name) = true /\
         has crashed_world (pending (child ["records"%string] name)) = true /\
         q = child (child ["records"%string] name) leaf /\
         leaf ∈ [".pending"; ".failed"; ".failed.tmp"]%string) /\
    recoveredFailures result =
      count_dirs (interrupted crashed_world) crashed_world ["records"%string]
        (children crashed_world ["records"%string]) /\
    clearedPending result =
      count_dirs (leftover crashed_world) crashed_world ["records"%string]
        (children crashed_world ["records"%string]).
Proof.
  apply (reconcile_settles crashed_world 42 ["records"%string]).
  - apply reachableb_spec. vm_compute. reflexivity.
  - intros n _. apply plain_world_markers. vm_compute. reflexivity.
Defined.

(** [complete] without faults. *)
Lemma complete_event_returns w d count :
  reachable w d -> regular w (pending d) -> regular w (completed d) ->
  regular w (scratch (completed d)) -> regular w (failed d) ->
  exists w', returns (complete_event d count) w true w' /\ clock w' = clock w /\
    forall q, files w' !! q =
      if decide (q = completed d) then Some (File (complete_content count) (clock w))
      else if decide (q = pending d \/ q = failed d \/ q = scratch (completed d)) then None
      else files w !! q.
Proof.
  intros Hr Hp Hc Hs Hf. unfold complete_event.
  destruct (writeAtomically_returns w (completed d) (complete_content count)) as (w1 & R1 & C1 & F1);
    [done..|].
  destruct (remove_regular w1 (pending d)) as (w2 & R2 & C2 & F2).
  { eapply regular_same; [|exact Hp]. by rewrite F1. }
  destruct (remove_regular w2 (failed d)) as (w3 & R3 & C3 & F3).
  { eapply regular_same; [|exact Hf]. by rewrite F2, F1. }
  exists w3. split; [|split; [congruence|]].
  - eapply returns_bind; [exact R1|]. simpl. eapply returns_bind; [exact R2|].
    eapply returns_bind; [exact R3|reflexivity].
  - intros q. rewrite F3, F2, F1. unfold failed, pending, completed, child in *.
    repeat case_decide; naive_solver.
Qed.
