(* ===== verification/RecordIo.v ===== *)
(** * RecordIo: reading event directories back and verifying them

    Models src/include/record_io.hpp.  Reading a file is a function of the state
    of the file system; a directory opened as a stream reads as nothing.  SHA-256
    (OpenSSL), Zstandard and the ROS deserialisation are parameters. *)

From S2P Require Import Prelude Text SensorData FileSystem.

Definition kMaxRecordBytes : Z := 2 ^ 30.

(** ** Paths *)

(** The components [std::filesystem::path] yields for a relative path: runs of
    separators count as one, and a final separator yields an empty component. *)
Definition path_components (text : string) : list string :=
  let pieces := split_on "/" text in
  List.filter (fun piece => negb (String.eqb piece "")) pieces ++
  (match last pieces with Some EmptyString => [EmptyString] | _ => [] end).

(** [path / relative]. *)
Definition resolve (directory : path) (relative : string) : path :=
  rev (path_components relative) ++ directory.

Definition kWindowsDevices : list string :=
  ["CON"; "PRN"; "AUX"; "NUL"; "COM1"; "COM2"; "COM3"; "COM4"; "COM5"; "COM6"; "COM7"; "COM8"; "COM9";
   "LPT1"; "LPT2"; "LPT3"; "LPT4"; "LPT5"; "LPT6"; "LPT7"; "LPT8"; "LPT9"]%string.

Definition before_char (c : ascii) (s : string) : string :=
  match cut_at c s with Some (before, _) => before | None => s end.

(** The body of the loop of [safeRelativePath]. *)
Definition safeComponent (text : string) : bool :=
  negb (String.eqb text "" || String.eqb text "." || String.eqb text ".." ||
        has_char ":" text || has_char "\" text ||
        match str_last text with Some c => Ascii.eqb c "." || Ascii.eqb c " " | None => false end) &&
  negb (existsb (String.eqb (str_map toupper (before_char "." text))) kWindowsDevices).

Definition safeRelativePath (p : string) : bool :=
  match p with
  | EmptyString => false
  | String c _ => negb (Ascii.eqb c "/") && forallb safeComponent (path_components p)
  end.

(** ** Fields and numbers *)

Record ManifestEntry := {
  me_sensor : string;
  timestampNs : Z;
  me_file : string;
  me_encoding : string;
  convertedFile : string
}.

Record PairEntry := {
  pe_pairId : Z;
  pe_status : string;
  cameraTimestampNs : Z;
  lidarTimestampNs : Z;
  timeDiffNs : Z;
  pe_reason : string
}.

Fixpoint splitCsvFrom (fields : list string) (current : string) (line : string) : list string :=
  match line with
  | EmptyString => fields ++ [current]
  | String c rest =>
      if Ascii.eqb c "," then splitCsvFrom (fields ++ [current]) "" rest
      else if negb (Ascii.eqb c CR) then splitCsvFrom fields (current +:+ String c "") rest
      else splitCsvFrom fields current rest
  end.

Definition splitCsvLine (line : string) : list string := splitCsvFrom [] "" line.

Definition parseI64 (text : string) : option Z :=
  '(value, consumed) ← stoll text;
  if (consumed =? String.length text)%nat then Some value else None.

Definition parseU64 (text : string) : option Z :=
  match text with
  | EmptyString => None
  | String front _ =>
      if Ascii.eqb front "-" then None
      else
        '(value, consumed) ← stoull text;
        if (consumed =? String.length text)%nat then Some value else None
  end.

(** ** The two tables *)

Definition read_text (w : world) (p : path) : option string :=
  match files w !! p with Some (File content _) => Some content | _ => None end.

Definition field (fields : list string) (i : nat) : string := default EmptyString (fields !! i).

Definition at_line (file : string) (lineNumber : Z) : string :=
  file +:+ " line " +:+ to_string lineNumber +:+ ": ".

Definition quoted (s : string) : string := "'" +:+ s +:+ "'".

(** What one non-empty line of [manifest.csv] is: an entry or a problem. *)
Definition manifestLine (lineNumber : Z) (line : string) : ManifestEntry + string :=
  let fields := splitCsvLine line in
  if (length fields <? 4)%nat then
    inr (at_line "manifest.csv" lineNumber +:+ "expected at least 4 fields, got " +:+
         to_string (Z.of_nat (length fields)))
  else
    match parseI64 (field fields 1) with
    | None => inr (at_line "manifest.csv" lineNumber +:+ "invalid timestamp " +:+ quoted (field fields 1))
    | Some timestamp =>
        inl {| me_sensor := field fields 0; timestampNs := timestamp; me_file := field fields 2;
               me_encoding := field fields 3;
               convertedFile := if (5 <=? length fields)%nat then field fields 4 else EmptyString |}
    end.

Definition timestampField (text : string) : option Z :=
  if String.eqb text EmptyString then Some 0 else parseI64 text.

Definition pairsLine (lineNumber : Z) (line : string) : PairEntry + string :=
  let fields := splitCsvLine line in
  if (length fields <? 6)%nat then
    inr (at_line "pairs.csv" lineNumber +:+ "expected 6 fields, got " +:+
         to_string (Z.of_nat (length fields)))
  else
    match parseU64 (field fields 0) with
    | None => inr (at_line "pairs.csv" lineNumber +:+ "invalid pair_id " +:+ quoted (field fields 0))
    | Some id =>
        match timestampField (field fields 2), timestampField (field fields 3),
              parseI64 (field fields 4) with
        | Some camera, Some lidar, Some diff =>
            inl {| pe_pairId := id; pe_status := field fields 1; cameraTimestampNs := camera;
                   lidarTimestampNs := lidar; timeDiffNs := diff; pe_reason := field fields 5 |}
        | _, _, _ => inr (at_line "pairs.csv" lineNumber +:+ "invalid numeric field")
        end
    end.

(** The [getline] loop after the header: entries and problems, in order. *)
Fixpoint readRows {E} (parse : Z -> string -> E + string) (lineNumber : Z) (rows : list string)
    : list E * list string :=
  match rows with
  | [] => ([], [])
  | line :: rest =>
      let '(entries, problems) := readRows parse (lineNumber + 1) rest in
      if String.eqb line EmptyString then (entries, problems)
      else
        match parse lineNumber line with
        | inl entry => (entry :: entries, problems)
        | inr problem => (entries, problem :: problems)
        end
  end.

Definition readTable {E} (parse : Z -> string -> E + string) (w : world) (file : path)
    : list E * list string :=
  match read_text w file with
  | None => ([], [])
  | Some text => readRows parse 2 (tail (lines text))
  end.

Definition readManifest (w : world) (eventDirectory : path) : list ManifestEntry * list string :=
  readTable manifestLine w (child eventDirectory "manifest.csv").

Definition readPairs (w : world) (eventDirectory : path) : list PairEntry * list string :=
  readTable pairsLine w (child eventDirectory "pairs.csv").

Definition readFileBytes (w : world) (file : path) : option string :=
  match read_text w file with
  | None => None
  | Some content => if byte_size content >? kMaxRecordBytes then None else Some content
  end.

(** ** Zstandard *)

Inductive FrameSize := SizeError | SizeUnknown | SizeKnown (n : Z).

(** The calls of the library; the right side of a sum is its error.
    [ZSTD_decompress] is given the capacity of the destination, and [ZSTD_decompressStream], which answers its result (zero at
    the end of a frame), the bytes produced and the number consumed. *)
Class Zstd := {
  ZSTD_getFrameContentSize : string -> FrameSize;
  ZSTD_decompress : Z -> string -> string + string;
  DStream : Type;
  ZSTD_initDStream : option DStream;
  ZSTD_decompressStream : DStream -> nat -> string -> (Z * string * nat * DStream) + string
}.

Definition chunk_size : nat := Z.to_nat (2 ^ 16).

(** The streaming loop: what is left of the input and what was produced. *)
Fixpoint decompressStream `{Zstd} (fuel : nat) (stream : DStream) (input out : string)
    : res (string + string) :=
  match fuel with
  | O => Err OutOfFuel
  | S fuel' =>
      match ZSTD_decompressStream stream chunk_size input with
      | inr error => Ok (inr error)
      | inl (result, produced, consumed, stream') =>
          let input' := String.substring consumed (String.length input - consumed) input in
          if byte_size produced >? kMaxRecordBytes - byte_size out then
            Ok (inr "decompressed record exceeds safety limit"%string)
          else
            let out' := out +:+ produced in
            if result =? 0 then Ok (inl out')
            else if String.eqb input' "" && String.eqb produced "" then
              Ok (inr "truncated zstd frame"%string)
            else decompressStream fuel' stream' input' out'
      end
  end.

(** The decompressed bytes, or the error text. *)
Definition decompressZstd `{Zstd} (fuel : nat) (data : string) : res (string + string) :=
  match ZSTD_getFrameContentSize data with
  | SizeKnown contentSize =>
      if contentSize >? kMaxRecordBytes then
        Ok (inr "decompressed record exceeds safety limit"%string)
      else
        match ZSTD_decompress contentSize data with
        | inr error => Ok (inr error)
        | inl decoded => Ok (inl decoded)
        end
  | _ =>
      match ZSTD_initDStream with
      | None => Ok (inr "cannot create zstd decompressor"%string)
      | Some stream => decompressStream fuel stream data ""
      end
  end.

Definition loadRecordBytes `{Zstd} (fuel : nat) (w : world) (directory : path) (entry : ManifestEntry)
    : res (string + string) :=
  if negb (safeRelativePath (me_file entry)) then
    Ok (inr ("unsafe record path: " +:+ me_file entry))
  else
    match readFileBytes w (resolve directory (me_file entry)) with
    | None => Ok (inr ("cannot read " +:+ me_file entry))
    | Some fileBytes =>
        if String.eqb (me_encoding entry) "zstd" then decompressZstd fuel fileBytes
        else Ok (inl fileBytes)
    end.

(** ** Checksums *)

(** [EVP_sha256] over a whole file: the raw digest. *)
Class Sha256 := { sha256 : string -> string }.

Definition hex_digit (n : N) : ascii :=
  if (n <? 10)%N then ascii_of_N (48 + n) else ascii_of_N (87 + n).

Fixpoint to_hex (digest : string) : string :=
  match digest with
  | EmptyString => EmptyString
  | String c rest =>
      String (hex_digit (code c / 16)) (String (hex_digit (code c mod 16)) (to_hex rest))
  end.

Definition sha256File `{Sha256} (w : world) (file : path) : option string :=
  (fun content => to_hex (sha256 content)) <$> read_text w file.

(** [path.extension() == ".tmp"]: what follows the last dot, which is not the
    first character of the name. *)
Fixpoint last_dot (name : string) : option string :=
  match name with
  | EmptyString => None
  | String c rest =>
      match last_dot rest with
      | Some e => Some e
      | None => if Ascii.eqb c "." then Some (String c rest) else None
      end
  end.

Definition extension (name : string) : string :=
  match name with
  | EmptyString => EmptyString
  | String _ rest => if String.eqb name ".." then EmptyString else default EmptyString (last_dot rest)
  end.

(** The files a checksum manifest is about. *)
Definition checksummed (name : string) : bool :=
  negb (String.eqb name "manifest.sha256") &&
  (match str_front name with Some c => negb (Ascii.eqb c ".") | None => true end) &&
  negb (String.eqb (extension name) ".tmp").

Fixpoint strip_prefix (d p : path) : option path :=
  if decide (p = d) then Some []
  else match p with [] => None | name :: p' => cons name <$> strip_prefix d p' end.

Definition generic_string (relative : path) : string :=
  match rev relative with
  | [] => EmptyString
  | name :: rest => foldl (fun s part => s +:+ String "/" part) name rest
  end.

(** The regular files a recursive traversal of the directory finds, links not
    followed, that are to be listed: their relative names. *)
Definition checksum_files (w : world) (directory : path) : list path :=
  omap (fun e : path * node =>
    match e.2 with
    | File _ _ =>
        if checksummed (filename e.1) && negb (bool_decide (e.1 = directory)) then strip_prefix directory e.1
        else None
    | _ => None
    end) (map_to_list (files w)).

(** [line.find("  ")] with the two [substr]. *)
Fixpoint cut_double (s : string) : option (string * string) :=
  match s with
  | String " " (String " " rest) => Some (EmptyString, rest)
  | String c rest => (fun p => (String c p.1, p.2)) <$> cut_double rest
  | EmptyString => None
  end.

Definition hex_char (c : ascii) : bool := has_char c "0123456789abcdef".

Definition sha_line (lineNumber : Z) : string := "manifest.sha256 line " +:+ to_string lineNumber.

(** One line of [manifest.sha256]: [expected] and [problems]. *)
Definition checksumLine (lineNumber : Z) (line : string)
    (acc : gmap string string * list string) : gmap string string * list string :=
  let '(expected, problems) := acc in
  let malformed := (expected, problems ++ [sha_line lineNumber +:+ ": malformed entry"]) in
  match cut_double line with
  | None => malformed
  | Some (digest, relative) =>
      if negb (String.length digest =? 64)%nat || String.eqb relative "" then malformed
      else if str_all hex_char digest && safeRelativePath relative &&
              bool_decide (expected !! relative = None)
      then (<[relative := digest]> expected, problems)
      else (expected, problems ++ [sha_line lineNumber +:+ ": invalid path or digest"])
  end.

Fixpoint checksumLines (lineNumber : Z) (rows : list string)
    (acc : gmap string string * list string) : gmap string string * list string :=
  match rows with
  | [] => acc
  | line :: rest => checksumLines (lineNumber + 1) rest (checksumLine lineNumber line acc)
  end.

Lemma strip_prefix_app d r : strip_prefix d (r ++ d) = Some r.
Proof.
  induction r as [|n r IH]; simpl.
  - destruct d as [|x d]; [done|]. simpl. by rewrite decide_True.
  - rewrite decide_False by (intros Heq; apply (f_equal length) in Heq; simpl in Heq;
      rewrite length_app in Heq; lia). by rewrite IH.
Qed.

Lemma strip_prefix_Some d p r : strip_prefix d p = Some r <-> p = r ++ d.
Proof.
  split; [|intros ->; apply strip_prefix_app].
  revert r. induction p as [|n p IH]; intros r; simpl; case_decide as E; simplify_eq; try done.
  - by intros [= <-].
  - by intros [= <-].
  - destruct (strip_prefix d p) as [r'|]; [|done]. intros [= <-]. simpl. by rewrite (IH r').
Qed.

(** The listed files of a directory are its regular descendants. *)
Lemma elem_of_checksum_files w directory r :
  r ∈ checksum_files w directory <->
    r <> [] /\ (exists c m, files w !! (r ++ directory) = Some (File c m)) /\
    checksummed (filename r) = true.
Proof.
  unfold checksum_files. rewrite list_elem_of_omap. split.
  - intros ([q n] & Hin%elem_of_map_to_list & Hr). simpl in Hr. destruct n as [c m| |]; try done.
    destruct (checksummed (filename q)) eqn:Ec; [|done]. case_bool_decide as Hq; [done|]. simpl in Hr.
    apply strip_prefix_Some in Hr as ->. destruct r as [|x r]; [done|]. eauto.
  - intros (Hr & (c & m & Hf) & Hc). exists (r ++ directory, File c m).
    split; [by apply elem_of_map_to_list|]. simpl.
    replace (filename (r ++ directory)) with (filename r) by (by destruct r).
    rewrite Hc, bool_decide_false, strip_prefix_app; [done|].
    intros Heq. apply (f_equal length) in Heq. rewrite length_app in Heq. destruct r; simpl in *; [done|lia].
Qed.

Lemma checksum_files_NoDup w directory : NoDup (checksum_files w directory).
Proof.
  apply NoDup_omap_keys; [apply NoDup_fst_map_to_list|].
  intros [q [c m| |]] [q' [c' m'| |]] r; simpl; try done.
  destruct (checksummed (filename q) && _), (checksummed (filename q') && _); try done.
  by intros ->%strip_prefix_Some ->%strip_prefix_Some.
Qed.

(** Paths whose status cannot be told, for want of permission or because they are
    too long; [exists] without an error code throws there. *)
Class StatusQuery := { status_fails : path -> bool }.

(** [rclcpp::Time(stamp).nanoseconds()]; the constructor throws on negative seconds. *)
Definition header_nanoseconds (stamp : Z) : res Z := if stamp <? 0 then Err Exception else Ok stamp.

Section verification.
Context `{Sha256} `{Zstd} `{StatusQuery}.
(** The traversal orders of the hash containers. *)
Context (map_order : gmap string string -> list (string * string)).
Context (set_order : gset string -> list string).

Definition checksumProblem (w : world) (directory : path) (entry : string * string) : option string :=
  let '(relative, wanted) := entry in
  match sha256File w (resolve directory relative) with
  | None => Some ("checksum file cannot be read: " +:+ relative)
  | Some actual =>
      if negb (String.eqb actual wanted) then Some ("sha256 mismatch: " +:+ relative) else None
  end.

(** [verifyChecksumManifest]: the answer and [problems]. *)
Definition verifyChecksumManifest (w : world) (directory : path) (problems : list string)
    : bool * list string :=
  match read_text w (child directory "manifest.sha256") with
  | None => (false, problems ++ ["manifest.sha256 missing"%string])
  | Some text =>
      let '(expected, problems) := checksumLines 1 (lines text) (∅, problems) in
      let problems := problems ++ omap (checksumProblem w directory) (map_order expected) in
      let actualFiles : gset string :=
        list_to_set (generic_string <$> checksum_files w directory) in
      let problems :=
        problems ++
        if negb (size actualFiles =? size expected)%nat then
          ["checksum manifest file set mismatch"%string]
        else
          omap (fun relative => match expected !! relative with
                                | None => Some ("checksum manifest missing file: " +:+ relative)
                                | Some _ => None
                                end) (set_order actualFiles) in
      (negb (size expected =? 0)%nat && bool_decide (problems = []), problems)
  end.

(** ** Verification of a directory *)

(** ROS deserialisation of the two message types, or the text of its exception. *)
Context (deserialize_image : string -> Image + string) (deserialize_cloud : string -> PointCloud2 + string).

Record VerifyOptions := { vo_sensor : string; vo_limit : Z }.

Record VerificationReport := {
  totalEntries : Z;
  verifiedEntries : Z;
  failedEntries : Z;
  problems : list string;
  warnings : list string
}.

Definition report_ok (r : VerificationReport) : bool :=
  (failedEntries r =? 0) && (totalEntries r >? 0) && bool_decide (problems r = []).

Definition add_failure (problem : string) (r : VerificationReport) : VerificationReport :=
  {| totalEntries := totalEntries r; verifiedEntries := verifiedEntries r;
     failedEntries := failedEntries r + 1; problems := problems r ++ [problem];
     warnings := warnings r |}.

(** The stamp is looked at last, and only when nothing else is wrong. *)
Definition consistent_image (image : Image) (entry : ManifestEntry) : res bool :=
  if (image_width image =? 0) || (image_height image =? 0) || (image_step image =? 0) ||
     String.eqb (image_encoding image) "" ||
     (image_step image * image_height image >? byte_size (image_data image))
  then Ok false
  else stamp ← header_nanoseconds (image_stamp image); Ok (stamp =? timestampNs entry).

Definition consistent_cloud (cloud : PointCloud2) (entry : ManifestEntry) : res bool :=
  let pointCount := u64 (cloud_width cloud * cloud_height cloud) in
  if bool_decide (cloud_fields cloud = []) || (cloud_point_step cloud =? 0) ||
     (pointCount >? byte_size (cloud_data cloud) / cloud_point_step cloud)
  then Ok false
  else stamp ← header_nanoseconds (cloud_stamp cloud); Ok (stamp =? timestampNs entry).

(** The checks of one record: its bytes deserialise to a consistent message; the
    problem found, if any. *)
Definition checkMessage (label : string) (entry : ManifestEntry) (bytes : string) : res (option string) :=
  if String.eqb bytes "" then Ok (Some (label +:+ ": record is empty"))
  else if String.eqb (me_sensor entry) "camera" then
    match deserialize_image bytes with
    | inr error => Ok (Some (label +:+ ": deserialize failed: " +:+ error))
    | inl image =>
        fine ← consistent_image image entry;
        Ok (if fine : bool then None else Some (label +:+ ": inconsistent image fields"))
    end
  else if String.eqb (me_sensor entry) "lidar" then
    match deserialize_cloud bytes with
    | inr error => Ok (Some (label +:+ ": deserialize failed: " +:+ error))
    | inl cloud =>
        fine ← consistent_cloud cloud entry;
        Ok (if fine : bool then None else Some (label +:+ ": inconsistent point cloud fields"))
    end
  else Ok (Some (label +:+ ": unknown sensor " +:+ quoted (me_sensor entry))).

Definition missing_copy (w : world) (eventDirectory : path) (entry : ManifestEntry) : res bool :=
  if String.eqb (convertedFile entry) "" then Ok false
  else if negb (safeRelativePath (convertedFile entry)) then Ok true
  else if status_fails (resolve eventDirectory (convertedFile entry)) then Err Exception
  else Ok (negb (present w (resolve eventDirectory (convertedFile entry)))).

Definition label (entry : ManifestEntry) : string :=
  me_sensor entry +:+ "@" +:+ to_string (timestampNs entry).

(** The body of the loop of [verifyEventDirectory] for a selected entry. *)
Definition verifyEntry (fuel : nat) (w : world) (eventDirectory : path) (entry : ManifestEntry)
    (report : VerificationReport) : res VerificationReport :=
  let report := {| totalEntries := totalEntries report + 1;
                   verifiedEntries := verifiedEntries report;
                   failedEntries := failedEntries report; problems := problems report;
                   warnings := warnings report |} in
  loaded ← loadRecordBytes fuel w eventDirectory entry;
  match loaded with
  | inr error => Ok (add_failure (label entry +:+ ": " +:+ error) report)
  | inl bytes =>
      problem ← checkMessage (label entry) entry bytes;
      match problem with
      | Some problem => Ok (add_failure problem report)
      | None =>
          missing ← missing_copy w eventDirectory entry;
          Ok {| totalEntries := totalEntries report;
                verifiedEntries := verifiedEntries report + 1;
                failedEntries := failedEntries report; problems := problems report;
                warnings :=
                  if missing : bool
                  then warnings report ++
                       [label entry +:+ ": converted copy missing: " +:+ convertedFile entry]
                  else warnings report |}
      end
  end.

(** The loop of [verifyEventDirectory]. *)
Fixpoint verifyEntries (fuel : nat) (w : world) (eventDirectory : path) (options : VerifyOptions)
    (entries : list ManifestEntry) (report : VerificationReport) : res VerificationReport :=
  match entries with
  | [] => Ok report
  | entry :: rest =>
      if negb (String.eqb (vo_sensor options) "") &&
         negb (String.eqb (me_sensor entry) (vo_sensor options)) then
        verifyEntries fuel w eventDirectory options rest report
      else if negb (vo_limit options =? 0) && (totalEntries report >=? vo_limit options) then Ok report
      else
        report' ← verifyEntry fuel w eventDirectory entry report;
        verifyEntries fuel w eventDirectory options rest report'
  end.

Definition verifyEventDirectory (fuel : nat) (w : world) (eventDirectory : path)
    (options : VerifyOptions) : res VerificationReport :=
  let checks := (verifyChecksumManifest w eventDirectory []).2 in
  let '(entries, malformed) := readManifest w eventDirectory in
  let report := {| totalEntries := 0; verifiedEntries := 0;
                   failedEntries := Z.of_nat (length malformed); problems := checks ++ malformed;
                   warnings := [] |} in
  match entries with
  | [] =>
      Ok {| totalEntries := 0; verifiedEntries := 0; failedEntries := failedEntries report;
            problems := problems report ++ ["manifest.csv missing or has no entries"%string];
            warnings := [] |}
  | _ => verifyEntries fuel w eventDirectory options entries report
  end.

(** ** What an accepted checksum manifest says *)

Hypothesis map_order_perm : forall m, map_order m ≡ₚ map_to_list m.
Hypothesis set_order_perm : forall s, set_order s ≡ₚ elements s.

Definition actual_files (w : world) (directory : path) : gset string :=
  list_to_set (generic_string <$> checksum_files w directory).

Lemma omap_nil {A B} (f : A -> option B) l : omap f l = [] <-> forall x, x ∈ l -> f x = None.
Proof.
  induction l as [|x l IH]; csimpl; [set_solver|]. destruct (f x) eqn:E.
  - split; [done|]. intros Hall. rewrite Hall in E by set_solver. done.
  - rewrite IH. set_solver.
Qed.

(** The manifest text is well formed and states [expected]. *)
Definition states (text : string) (expected : gmap string string) : Prop :=
  checksumLines 1 (lines text) (∅, []) = (expected, []).

(** The event directory is exactly what [expected] says it is. *)
Definition matches (w : world) (directory : path) (expected : gmap string string) : Prop :=
  expected <> ∅ /\ dom expected = actual_files w directory /\
  forall relative digest, expected !! relative = Some digest ->
    sha256File w (resolve directory relative) = Some digest.

#[local] Arguments sha256File : simpl never.

Lemma digests_checked w directory expected :
  omap (checksumProblem w directory) (map_order expected) = [] <->
  forall relative digest, expected !! relative = Some digest ->
    sha256File w (resolve directory relative) = Some digest.
Proof.
  rewrite omap_nil. split.
  - intros Hall relative digest He. specialize (Hall (relative, digest)).
    rewrite map_order_perm, elem_of_map_to_list in Hall. specialize (Hall He). simpl in Hall.
    destruct (sha256File w (resolve directory relative)) as [actual|]; [|done].
    destruct (String.eqb actual digest) eqn:Ea; [|discriminate].
    by apply String.eqb_eq in Ea as ->.
  - intros Hall [relative digest] He. rewrite map_order_perm, elem_of_map_to_list in He. simpl.
    rewrite (Hall _ _ He). by rewrite String.eqb_refl.
Qed.

Lemma file_set_checked (actualFiles : gset string) (expected : gmap string string) :
  (if negb (size actualFiles =? size expected)%nat then ["checksum manifest file set mismatch"%string]
   else omap (fun relative => match expected !! relative with
                              | None => Some ("checksum manifest missing file: " +:+ relative)
                              | Some _ => None
                              end) (set_order actualFiles)) = [] <->
  dom expected = actualFiles.
Proof.
  rewrite <- (size_dom (D := gset string) expected).
  destruct (Nat.eqb_spec (size actualFiles) (size (dom expected))) as [Hs|Hs]; simpl.
  - rewrite omap_nil. split.
    + intros Hall. symmetry. apply set_subseteq_size_eq; [|by rewrite Hs].
      intros relative Hr. specialize (Hall relative).
      rewrite set_order_perm, elem_of_elements in Hall. specialize (Hall Hr).
      apply elem_of_dom. destruct (expected !! relative); [eauto|discriminate].
    + intros <- relative Hr. rewrite set_order_perm, elem_of_elements, elem_of_dom in Hr.
      by destruct Hr as [d ->].
  - split; [done|]. intros <-. done.
Qed.

Lemma verifyChecksumManifest_iff w directory :
  verifyChecksumManifest w directory [] = (true, []) <->
  exists text expected, read_text w (child directory "manifest.sha256") = Some text /\
    states text expected /\ matches w directory expected.
Proof.
  unfold verifyChecksumManifest, states, matches.
  destruct (read_text w (child directory "manifest.sha256")) as [text|];
    [|split; [done|by intros (? & ? & ? & _)]].
  destruct (checksumLines 1 (lines text) (∅, [])) as [expected malformed] eqn:El.
  fold (actual_files w directory).
  split.
  - intros [Hb Hp]%pair_eq. rewrite !app_nil in Hp. destruct Hp as [[-> Hd] Hf%file_set_checked].
    pose proof (proj1 (digests_checked _ _ _) Hd) as Hdig.
    exists text, expected. split; [done|]. split; [done|]. split; [|split; [exact Hf|exact Hdig]].
    intros ->. by rewrite map_size_empty in Hb.
  - intros (text' & expected' & [= <-] & He & Hne & Hdom & Hdig).
    rewrite El in He. injection He as -> ->.
    rewrite (proj2 (digests_checked _ _ _) Hdig), (proj2 (file_set_checked _ _) Hdom).
    apply pair_eq. split; [|done]. destruct (Nat.eqb_spec (size expected') 0) as [Hz|]; [|done].
    by apply map_size_empty_inv in Hz.
Qed.

(** ** What an accepted directory is *)

Definition full : VerifyOptions := {| vo_sensor := ""; vo_limit := 0 |}.

(** The bytes of the record can be loaded and hold a consistent message. *)
Definition record_ok (fuel : nat) (w : world) (directory : path) (entry : ManifestEntry) : Prop :=
  exists bytes, loadRecordBytes fuel w directory entry = Ok (inl bytes) /\
    checkMessage (label entry) entry bytes = Ok None.

Definition clean (r : VerificationReport) : Prop := failedEntries r = 0 /\ problems r = [].

Lemma add_failure_unclean problem r : 0 <= failedEntries r -> ~ clean (add_failure problem r).
Proof. intros Hr [Hf _]. simpl in Hf. lia. Qed.

Lemma verifyEntry_spec fuel w directory entry r r' :
  0 <= failedEntries r -> verifyEntry fuel w directory entry r = Ok r' ->
  totalEntries r' = totalEntries r + 1 /\
  verifiedEntries r' + failedEntries r' = verifiedEntries r + failedEntries r + 1 /\
  0 <= failedEntries r' /\ (clean r' <-> clean r /\ record_ok fuel w directory entry).
Proof.
  unfold verifyEntry, record_ok. intros Hr Hv.
  destruct (loadRecordBytes fuel w directory entry) as [[bytes|error]|]; [| |done].
  - unfold mbind, res_bind in Hv. destruct (checkMessage (label entry) entry bytes) as [[problem|]|] eqn:Ec; [..|done].
    + injection Hv as <-. simpl. split; [lia|]. split; [lia|]. split; [lia|].
      split; [by intros ?%add_failure_unclean|]. intros [_ (b & [= <-] & Hm)]. congruence.
    + destruct (missing_copy w directory entry) as [missing|]; [|done]. injection Hv as <-. simpl.
      split; [lia|]. split; [lia|]. split; [lia|]. unfold clean. simpl. split; [eauto|tauto].
  - injection Hv as <-. simpl. split; [lia|]. split; [lia|]. split; [lia|].
    split; [by intros ?%add_failure_unclean|]. by intros [_ (b & ? & _)].
Qed.

(** The record makes the verification end with an exception: it loads, nothing
    else is wrong with its message, and the header stamp is refused; or all of it
    is right and the status of its converted copy cannot be told. *)
Definition record_throws (fuel : nat) (w : world) (directory : path) (entry : ManifestEntry) : bool :=
  match loadRecordBytes fuel w directory entry with
  | Ok (inl bytes) =>
      match checkMessage (label entry) entry bytes with
      | Err _ => true
      | Ok None => match missing_copy w directory entry with Err _ => true | Ok _ => false end
      | Ok (Some _) => false
      end
  | _ => false
  end.

Lemma header_nanoseconds_cases stamp :
  header_nanoseconds stamp = Err Exception \/ exists t, header_nanoseconds stamp = Ok t.
Proof. unfold header_nanoseconds. destruct (stamp <? 0); eauto. Qed.

Lemma checkMessage_cases name entry bytes :
  checkMessage name entry bytes = Err Exception \/ exists p, checkMessage name entry bytes = Ok p.
Proof.
  unfold checkMessage, consistent_image, consistent_cloud. destruct (String.eqb bytes ""); [eauto|].
  destruct (String.eqb _ "camera"); [|destruct (String.eqb _ "lidar"); [|eauto]].
  - destruct (deserialize_image bytes) as [i|]; [|eauto]. destruct (_ || _); [simpl; eauto|].
    destruct (header_nanoseconds_cases (image_stamp i)) as [-> |[t ->]]; simpl; eauto.
  - destruct (deserialize_cloud bytes) as [c|]; [|eauto]. destruct (_ || _); [simpl; eauto|].
    destruct (header_nanoseconds_cases (cloud_stamp c)) as [-> |[t ->]]; simpl; eauto.
Qed.

Lemma missing_copy_cases w directory entry :
  missing_copy w directory entry = Err Exception \/ exists b, missing_copy w directory entry = Ok b.
Proof. unfold missing_copy. repeat case_match; eauto. Qed.

(** A record that can be loaded at all is counted or throws. *)
Lemma verifyEntry_ends fuel w directory entry r :
  (exists loaded, loadRecordBytes fuel w directory entry = Ok loaded) ->
  if record_throws fuel w directory entry then verifyEntry fuel w directory entry r = Err Exception
  else exists r', verifyEntry fuel w directory entry r = Ok r'.
Proof.
  intros [loaded Hl]. unfold record_throws, verifyEntry. rewrite Hl. unfold mbind, res_bind.
  destruct loaded as [bytes|error]; [|eauto].
  destruct (checkMessage_cases (label entry) entry bytes) as [-> |[p ->]]; [done|]. destruct p; [eauto|].
  destruct (missing_copy_cases w directory entry) as [-> |[b ->]]; [done|eauto].
Qed.

Lemma verifyEntries_ends fuel w directory entries r :
  Forall (fun entry => exists loaded, loadRecordBytes fuel w directory entry = Ok loaded) entries ->
  if existsb (record_throws fuel w directory) entries
  then verifyEntries fuel w directory full entries r = Err Exception
  else exists r', verifyEntries fuel w directory full entries r = Ok r'.
Proof.
  intros Hall. revert r. induction Hall as [|entry rest He Hall IH]; intros r; [by exists r|].
  change (verifyEntries fuel w directory full (entry :: rest) r) with
    (r' ← verifyEntry fuel w directory entry r; verifyEntries fuel w directory full rest r').
  cbn [existsb]. pose proof (verifyEntry_ends fuel w directory entry r He) as Hone. unfold mbind, res_bind.
  destruct (record_throws fuel w directory entry); [by rewrite Hone|]. destruct Hone as [r' ->]. apply IH.
Qed.

Lemma verifyEventDirectory_ends fuel w directory :
  (forall entry, exists loaded, loadRecordBytes fuel w directory entry = Ok loaded) ->
  if existsb (record_throws fuel w directory) (readManifest w directory).1
  then verifyEventDirectory fuel w directory full = Err Exception
  else exists report, verifyEventDirectory fuel w directory full = Ok report.
Proof.
  intros Hall. unfold verifyEventDirectory. destruct (readManifest w directory) as [[|entry rest] malformed]; [by eexists|].
  apply verifyEntries_ends, Forall_forall. auto.
Qed.

Lemma verifyEntries_spec fuel w directory entries r r' :
  0 <= failedEntries r -> verifyEntries fuel w directory full entries r = Ok r' ->
  totalEntries r' = totalEntries r + Z.of_nat (length entries) /\
  verifiedEntries r' + failedEntries r' =
    verifiedEntries r + failedEntries r + Z.of_nat (length entries) /\
  0 <= failedEntries r' /\
  (clean r' <-> clean r /\ Forall (record_ok fuel w directory) entries).
Proof.
  revert r. induction entries as [|entry rest IH]; intros r Hr Hv.
  - injection Hv as <-. simpl. rewrite !Z.add_0_r. rewrite Forall_nil. tauto.
  - change (verifyEntries fuel w directory full (entry :: rest) r) with
      (r' ← verifyEntry fuel w directory entry r; verifyEntries fuel w directory full rest r') in Hv.
    res_inv. destruct (verifyEntry_spec _ _ _ _ _ _ Hr E) as (Ht & Hs & Hf & Hc).
    destruct (IH _ Hf Hv) as (Ht' & Hs' & Hf' & Hc'). simpl length.
    rewrite Hc', Hc, Forall_cons. split; [lia|]. split; [lia|]. tauto.
Qed.

Lemma manifest_listed w directory text :
  read_text w (child directory "manifest.csv") = Some text ->
  "manifest.csv"%string ∈ actual_files w directory.
Proof.
  unfold read_text, child. intros Hr.
  destruct (files w !! ("manifest.csv"%string :: directory)) as [[c m| |]|] eqn:E; try done.
  unfold actual_files. apply elem_of_list_to_set, list_elem_of_fmap. exists ["manifest.csv"%string].
  split; [done|]. apply elem_of_checksum_files. simpl. eauto 6.
Qed.

(** The verification of a whole event directory accepts it exactly when the
    checksum manifest is well formed and lists exactly the regular files of the
    directory, each with its current digest, every row of [manifest.csv]
    parses, there is one at least, and every record can be loaded and holds a
    message consistent with its row; every entry is counted once, as verified
    or as failed. *)
Theorem verifyEventDirectory_sound fuel w directory report :
  verifyEventDirectory fuel w directory full = Ok report ->
  (report_ok report = true <->
     (exists text expected, read_text w (child directory "manifest.sha256") = Some text /\
        states text expected /\ matches w directory expected) /\
     (readManifest w directory).2 = [] /\ (readManifest w directory).1 <> [] /\
     Forall (record_ok fuel w directory) (readManifest w directory).1) /\
  totalEntries report = Z.of_nat (length (readManifest w directory).1) /\
  (totalEntries report <> 0 ->
     verifiedEntries report + failedEntries report =
       totalEntries report + Z.of_nat (length (readManifest w directory).2)).
Proof.
  unfold verifyEventDirectory. destruct (readManifest w directory) as [entries malformed] eqn:Em.
  simpl fst. simpl snd. intros Hv. destruct entries as [|entry rest].
  { injection Hv as <-. unfold report_ok. simpl. rewrite andb_false_r. simpl. intuition done. }
  apply verifyEntries_spec in Hv as (Ht & Hs & Hf & Hc); [|simpl; lia].
  simpl in Ht, Hs. split; [|split; [simpl; lia|intros _; simpl in *; lia]].
  assert (Hok : report_ok report = true <-> clean report).
  { unfold report_ok, clean. rewrite !andb_true_iff, Z.eqb_eq, bool_decide_eq_true.
    split; [tauto|]. intros [? ?]. split; [split; [done|lia]|done]. }
  rewrite Hok, Hc, <- verifyChecksumManifest_iff. unfold clean. simpl.
  destruct (verifyChecksumManifest w directory []) as [b checks] eqn:Ev. simpl.
  rewrite app_nil. assert (Hb : checks = [] -> b = true).
  { intros ->. revert Ev. unfold verifyChecksumManifest.
    destruct (read_text w (child directory "manifest.sha256")) as [text|]; [|done].
    destruct (checksumLines 1 (lines text) (∅, [])) as [expected p]. fold (actual_files w directory).
    intros [Hb Hp]%pair_eq. pose proof Hp as Hnil. rewrite !app_nil in Hp.
    destruct Hp as [_ Hd%file_set_checked].
    assert (Hin : "manifest.csv"%string ∈ dom expected).
    { rewrite Hd. unfold readManifest, readTable in Em.
      destruct (read_text w (child directory "manifest.csv")) eqn:Er; [|done].
      by eapply manifest_listed. }
    rewrite <- Hb. apply andb_true_intro.
    split; [|by apply bool_decide_eq_true].
    destruct (Nat.eqb_spec (size expected) 0) as [Hz|]; [|done].
    apply map_size_empty_inv in Hz as ->. set_solver. }
  split.
  - intros [[Hz [-> ->]] Hall]. rewrite Hb by done. done.
  - intros ([-> ->]%pair_eq & -> & _ & Hall). done.
Qed.

End verification.

(** ** Paths that are accepted *)

Lemma split_on_ne c s : split_on c s <> [].
Proof.
  induction s as [|x s IH]; simpl; [done|]. destruct (Ascii.eqb x c); [done|].
  by destruct (split_on c s).
Qed.

Lemma path_components_ne p : path_components p <> [].
Proof.
  unfold path_components. intros Hn. apply app_nil in Hn as [Hf Hl].
  pose proof (split_on_ne "/" p) as Hne.
  destruct (last (split_on "/" p)) as [x|] eqn:E; [|by apply last_None in E].
  destruct x; [done|]. apply last_Some in E as [l' E]. rewrite E, List.filter_app in Hf.
  apply app_nil in Hf as [_ Hf]. done.
Qed.

Lemma path_components_lacks p c : c ∈ path_components p -> lacks "/" c.
Proof.
  unfold path_components. rewrite elem_of_app. intros [Hc|Hc].
  - rewrite list_elem_of_In, filter_In, <- list_elem_of_In in Hc. destruct Hc as [Hc _].
    by apply (split_on_pieces "/" p).
  - destruct (last (split_on "/" p)) as [[|]|]; set_solver.
Qed.

Lemma has_char_lacks c s : has_char c s = false -> lacks c s.
Proof.
  unfold has_char, str_any. intros Hc%negb_false_iff. unfold lacks.
  eapply str_all_impl; [|exact Hc]. intros x. by rewrite Ascii.eqb_sym.
Qed.

(** C34. An accepted relative path cannot leave the event directory: it names a
    proper descendant of it, through components that are neither empty nor [.]
    nor [..] and contain no separator of either kind and no drive letter. *)
Theorem safe_path_contained p directory :
  safeRelativePath p = true ->
  exists components, components <> [] /\ resolve directory p = rev components ++ directory /\
    Forall (fun c => c <> "" /\ c <> "." /\ c <> ".." /\ lacks "/" c /\ lacks "\" c /\ lacks ":" c)%string
      components.
Proof.
  intros Hs. exists (path_components p). split; [apply path_components_ne|]. split; [done|].
  unfold safeRelativePath in Hs. destruct p as [|c0 p]; [done|]. apply andb_prop in Hs as [_ Hall].
  rewrite forallb_forall in Hall. apply Forall_forall. intros c Hc.
  pose proof (path_components_lacks _ _ Hc) as Hl. apply list_elem_of_In, Hall in Hc.
  unfold safeComponent in Hc. apply andb_prop in Hc as [Hc _]. apply negb_true_iff in Hc.
  rewrite !orb_false_iff, !String.eqb_neq in Hc. destruct Hc as [[[[[H1 H2] H3] H4] H5] _].
  repeat split; try done; by apply has_char_lacks.
Qed.

Lemma safe_path_contained_witness :
  safeRelativePath "../secret" = false /\ safeRelativePath "images/camera_1.jpg" = true /\
  exists components, components <> [] /\
    resolve ["brake_1_99"%string] "images/camera_1.jpg" = rev components ++ ["brake_1_99"%string] /\
    Forall (fun c => c <> "" /\ c <> "." /\ c <> ".." /\ lacks "/" c /\ lacks "\" c /\ lacks ":" c)%string
      components.
Proof.
  split; [reflexivity|]. split; [reflexivity|].
  apply (safe_path_contained "images/camera_1.jpg"). reflexivity.
Defined.

(** ** Decompression *)

Section decompression.
Context `{Zstd}.

(** What the documentation of the library promises. *)
Hypothesis decompress_capacity : forall capacity data decoded,
  ZSTD_decompress capacity data = inl decoded -> byte_size decoded <= capacity.
Hypothesis stream_progress : forall stream input result produced consumed stream',
  ZSTD_decompressStream stream chunk_size input = inl (result, produced, consumed, stream') ->
  (consumed <= String.length input)%nat /\
  (result = 0 \/ (1 <= consumed)%nat \/ produced <> ""%string \/ input = ""%string).

Lemma byte_size_app a b : byte_size (a +:+ b) = byte_size a + byte_size b.
Proof. unfold byte_size. rewrite length_app_str. lia. Qed.

Lemma byte_size_pos s : s <> "" -> 1 <= byte_size s.
Proof. unfold byte_size. destruct s; simpl; [done|lia]. Qed.

Lemma decompressStream_total fuel stream input out :
  byte_size out <= kMaxRecordBytes ->
  byte_size input + (kMaxRecordBytes - byte_size out) < Z.of_nat fuel ->
  exists r, decompressStream fuel stream input out = Ok r /\
    forall o, r = inl o -> byte_size o <= kMaxRecordBytes.
Proof.
  revert stream input out. induction fuel as [|fuel IH]; intros stream input out Ho Hf.
  { pose proof (byte_size_nonneg input). lia. }
  simpl decompressStream.
  destruct (ZSTD_decompressStream stream chunk_size input) as [[[[result produced] consumed] stream']|e]
    eqn:E; [|eexists; split; [done|discriminate]].
  apply stream_progress in E as [Hc Hp].
  destruct (byte_size produced >? kMaxRecordBytes - byte_size out) eqn:El;
    [eexists; split; [done|discriminate]|bool_to_prop].
  pose proof (byte_size_app out produced) as Happ.
  destruct (Z.eqb_spec result 0) as [->|Hr]; [exists (inl (out +:+ produced)); split; [done|];
    intros o [= <-]; lia|].
  set (input' := String.substring consumed (String.length input - consumed) input).
  assert (Hin : byte_size input' = byte_size input - Z.of_nat consumed).
  { unfold byte_size, input'. rewrite length_substring by lia. lia. }
  destruct (String.eqb_spec input' "") as [Hi|Hi]; simpl.
  - destruct (String.eqb_spec produced "") as [Hq|Hq]; [eexists; split; [done|discriminate]|].
    apply byte_size_pos in Hq. apply IH; lia.
  - apply IH; [lia|]. rewrite Hin, Happ. pose proof (byte_size_nonneg produced).
    destruct Hp as [Hp|[Hp|[Hp|Hp]]]; [done|lia|apply byte_size_pos in Hp; lia|].
    exfalso. apply Hi. unfold input'. rewrite Hp. by destruct consumed.
Qed.

(** Decompression always ends, within one round per input byte and per byte of
    the safety limit, whatever the stored file holds, and never yields more than
    the limit of 1 GiB. *)
Theorem decompressZstd_ends fuel data :
  byte_size data + kMaxRecordBytes < Z.of_nat fuel ->
  exists r, decompressZstd fuel data = Ok r /\
    forall out, r = inl out -> byte_size out <= kMaxRecordBytes.
Proof.
  intros Hf. unfold decompressZstd.
  assert (Hstream : exists r, match ZSTD_initDStream with
                       | None => Ok (inr "cannot create zstd decompressor"%string)
                       | Some stream => decompressStream fuel stream data ""
                       end = Ok r /\ forall out, r = inl out -> byte_size out <= kMaxRecordBytes).
  { destruct ZSTD_initDStream as [stream|]; [|eexists; split; [done|discriminate]].
    apply decompressStream_total; unfold byte_size in *; simpl; unfold kMaxRecordBytes in *; lia. }
  destruct (ZSTD_getFrameContentSize data) as [| |n]; [done|done|].
  destruct (n >? kMaxRecordBytes) eqn:En; [eexists; split; [done|discriminate]|]. bool_to_prop.
  destruct (ZSTD_decompress n data) as [decoded|e] eqn:Ed; eexists; (split; [done|]);
    [|discriminate]. intros out [= <-]. apply decompress_capacity in Ed. lia.
Qed.

End decompression.

(** ** Running the model *)

(** Frames that hold their content as it is, and a digest of 32 bytes. *)
#[export] Instance stored_frames : Zstd := {
  ZSTD_getFrameContentSize data := SizeKnown (byte_size data);
  ZSTD_decompress capacity data :=
    if byte_size data <=? capacity then inl data else inr "destination too small"%string;
  DStream := unit;
  ZSTD_initDStream := Some tt;
  ZSTD_decompressStream stream room input :=
    inl (0, String.substring 0 room input, Nat.min room (String.length input), tt)
}.

#[export] Instance padding_digest : Sha256 := {
  sha256 content := String.substring 0 32 (content +:+ "................................")
}.

#[export] Instance no_status_fails : StatusQuery := { status_fails _ := false }.

(** An unsigned number with a sign after white space is read modulo 2^64. *)
Example parseU64_signed : parseU64 " -5" = Some (2 ^ 64 - 5) /\ parseU64 "-5" = None.
Proof. split; reflexivity. Qed.

Definition sample_rows : string :=
  unlines ["sensor,timestamp,file,encoding,converted_file"; "camera,7,camera_7.bin,raw,"]%string.

Definition sample_world : world :=
  {| files := list_to_map
       [(["brake_1_99"], Dir);
        (["manifest.csv"; "brake_1_99"], File sample_rows 0);
        (["camera_7.bin"; "brake_1_99"], File "pixels" 0);
        (["manifest.sha256"; "brake_1_99"],
         File (unlines [to_hex (sha256 sample_rows) +:+ "  manifest.csv";
                        to_hex (sha256 "pixels") +:+ "  camera_7.bin"]) 0)]%string;
     clock := 0 |}.

Definition sample_image (bytes : string) : Image + string :=
  inl (mkImage 7 2 3 "mono8" 3 bytes).

Definition no_cloud (bytes : string) : PointCloud2 + string := inr "not a cloud"%string.

Definition sample_report : VerificationReport :=
  {| totalEntries := 1; verifiedEntries := 1; failedEntries := 0; problems := []; warnings := [] |}.

Lemma verifyEventDirectory_sound_witness :
  report_ok sample_report = true /\
  (report_ok sample_report = true <->
     (exists text expected,
        read_text sample_world (child ["brake_1_99"%string] "manifest.sha256") = Some text /\
        states text expected /\ matches sample_world ["brake_1_99"%string] expected) /\
     (readManifest sample_world ["brake_1_99"%string]).2 = [] /\
     (readManifest sample_world ["brake_1_99"%string]).1 <> [] /\
     Forall (record_ok sample_image no_cloud 1 sample_world ["brake_1_99"%string])
       (readManifest sample_world ["brake_1_99"%string]).1).
Proof.
  split; [reflexivity|].
  apply (verifyEventDirectory_sound map_to_list elements sample_image no_cloud
           (fun m => Permutation_refl _) (fun s => Permutation_refl _)
           1 sample_world ["brake_1_99"%string] sample_report).
  vm_compute. reflexivity.
Defined.
