(* ===== verification/StorageWorker.v ===== *)
(** * StorageWorker: the queue of write jobs and the writing of event directories

    Models src/include/raw_storage_worker.hpp.  Serialisation, compression and
    image and point-cloud encoding are parameters, and so is the disk space
    manager, which the worker reaches through [DiskManager]. *)

From S2P Require Import Prelude Text SensorData PairIndex FileSystem EventState RecordIo.

(** ** Libraries *)

(** What a library function that encodes answers: it may report an error, or
    throw. *)
Inductive encoding := Encoded (bytes : string) | Declined | Raised.

(** Serialisation throws ([None]), compression reports an error ([None]);
    [imencode] is what becomes of an image with one of the known encodings, its
    conversion to BGR included. *)
Class Codec := {
  serialize_image : Image -> option string;
  serialize_cloud : PointCloud2 -> option string;
  ZSTD_compress2 : Z -> string -> option string;         (* compression level *)
  imencode : string -> option Z -> Image -> encoding;    (* extension, JPEG quality *)
  pcl_cloud : Type;
  fromROSMsg : PointCloud2 -> option pcl_cloud;          (* [None] when it throws *)
  pcd_bytes : pcl_cloud -> encoding;                     (* savePCDFileBinaryCompressed *)
  pcd_raises : bool                                      (* whether it throws when the file fails *)
}.

(** What the worker asks of the disk space manager; [None] when it has none. *)
Class DiskManager := {
  disk_state : Type;
  prepareForWrite : disk_state -> M (bool * disk_state);
  enforceRetention : bool -> disk_state -> M disk_state
}.

(** What the worker relies on: the manager deletes nothing outside directories of
    [root] that carry a verdict.  [disk_ok] is the manager's own invariant. *)
Definition has_verdict (w : world) (dir : path) : bool :=
  present w (completed dir) || present w (failed dir).

Definition spares (root : path) (w w' : world) : Prop :=
  clock w' = clock w /\
  forall q, files w' !! q = files w !! q \/
    files w' !! q = None /\ exists name, child root name `suffix_of` q /\
      has_verdict w (child root name) = true.

Class DiskSpec `{DiskManager} (root : path) := {
  disk_ok : disk_state -> Prop;
  prepare_spares d w : disk_ok d ->
    wp (prepareForWrite d) (fun r w' => disk_ok r.2 /\ spares root w w') (fun _ => False)
      (spares root w) w;
  enforce_spares force d w : disk_ok d ->
    wp (enforceRetention force d) (fun d' w' => disk_ok d' /\ spares root w w') (fun _ => False)
      (spares root w) w
}.

(** ** Jobs *)

Record Job := {
  directory : path;
  records : list SensorData;
  recordCamera : bool;
  recordLidar : bool;
  compressionEnabled : bool;
  compressionLevel : Z;
  keepRaw : bool;
  conversionEnabled : bool;
  imageFormat : string;
  imageQuality : Z;
  pointCloudFormat : string;
  job_pairs : list PairRecord;
  finalJob : bool
}.

Record JobOutcome := { ok : bool; persisted : Z; why : string }.

Record EventProgress := { progress_failed : bool; persistedRecords : Z; progress_reason : string }.

Definition no_progress : EventProgress :=
  {| progress_failed := false; persistedRecords := 0; progress_reason := "" |}.

(** ** The queue *)

Record RawStorageWorker := {
  maxPendingJobs : Z;
  reservedJobs : Z;
  jobs : list Job;
  stopping : bool
}.

Definition newWorker (limit : Z) : RawStorageWorker :=
  {| maxPendingJobs := limit; reservedJobs := 0; jobs := []; stopping := false |}.

Definition with_reserved (n : Z) (s : RawStorageWorker) : RawStorageWorker :=
  {| maxPendingJobs := maxPendingJobs s; reservedJobs := n; jobs := jobs s; stopping := stopping s |}.

Definition with_jobs (l : list Job) (s : RawStorageWorker) : RawStorageWorker :=
  {| maxPendingJobs := maxPendingJobs s; reservedJobs := reservedJobs s; jobs := l;
     stopping := stopping s |}.

Definition occupied (s : RawStorageWorker) : Z := Z.of_nat (length (jobs s)) + reservedJobs s.

Definition give_back (reserved : bool) (s : RawStorageWorker) : RawStorageWorker :=
  if reserved && (reservedJobs s >? 0) then with_reserved (reservedJobs s - 1) s else s.

Definition enqueue (job : Job) (reserved : bool) (s : RawStorageWorker) : bool * RawStorageWorker :=
  if stopping s || (negb reserved && (occupied s >=? maxPendingJobs s)) then (false, give_back reserved s)
  else (true, give_back reserved (with_jobs (jobs s ++ [job]) s)).

Definition reserve (s : RawStorageWorker) : bool * RawStorageWorker :=
  if stopping s || (occupied s >=? maxPendingJobs s) then (false, s)
  else (true, with_reserved (reservedJobs s + 1) s).

Definition releaseReservation (s : RawStorageWorker) : RawStorageWorker :=
  if reservedJobs s >? 0 then with_reserved (reservedJobs s - 1) s else s.

(** The destructor asks the thread to stop. *)
Definition stop (s : RawStorageWorker) : RawStorageWorker :=
  {| maxPendingJobs := maxPendingJobs s; reservedJobs := reservedJobs s; jobs := jobs s;
     stopping := true |}.

(** What the thread does when it looks at the queue: wait, take a job, or
    return. *)
Inductive wake := Wait | Take (job : Job) | Return.

Definition look (s : RawStorageWorker) : wake * RawStorageWorker :=
  match jobs s with
  | job :: rest => (Take job, with_jobs rest s)
  | [] => (if stopping s then Return else Wait, s)
  end.

(** ** Writing files *)

Definition storeAtomically (target : path) (data : string) : M bool :=
  let temporary := with_suffix target ".tmp" in
  opened ← open_trunc temporary;
  if negb opened then mret false else
  written ← write_stream temporary data;
  if negb written then (_ ← remove temporary; mret false) else
  _ ← sync temporary;
  renamed ← rename temporary target;
  if negb renamed then (_ ← remove_or_throw temporary; mret false) else
  _ ← sync (parent_path target);
  mret true.

Definition imageExtension (format : string) : string :=
  if String.eqb format "png" then ".png" else ".jpg".

Definition clamp (value low high : Z) : Z := if value <? low then low else if high <? value then high else value.

Definition known_encodings : list string := ["bgr8"; "rgb8"; "mono8"; "bgra8"; "rgba8"]%string.

(** A stream operation after an earlier failure of the stream does nothing. *)
Definition stream_write (good : bool) (p : path) (data : string) : M bool :=
  if good then write_stream p data else mret false.

Section worker.
Context `{Codec} `{DiskManager} `{Sha256} `{Listing} `{Traversal}.
(** Whether [ZSTD_createCCtx] succeeded. *)
Context (has_context : bool).

Definition valid_image_buffer (message : Image) : bool :=
  negb ((image_height message =? 0) || (image_width message =? 0) || (image_step message =? 0) ||
        (image_step message * image_height message >? byte_size (image_data message))).

Definition convertImage (message : Image) (dir : path) (fileName : string) (job : Job) : M bool :=
  if negb (valid_image_buffer message) then mret false
  else if negb (existsb (String.eqb (image_encoding message)) known_encodings) then mret false
  else
    let extension := imageExtension (imageFormat job) in
    let quality := if String.eqb extension ".jpg" then Some (clamp (imageQuality job) 1 100) else None in
    match imencode extension quality message with
    | Raised => throw
    | Declined => mret false
    | Encoded encoded => storeAtomically (child dir (fileName +:+ extension)) encoded
    end.

(** [savePCDFileBinaryCompressed] on a new file; whether it returned zero. *)
Definition savePCD (file : path) (cloud : pcl_cloud) : M bool :=
  opened ← open_trunc file;
  match pcd_bytes cloud with
  | Raised => throw
  | Declined => mret false
  | Encoded bytes =>
      written ← stream_write opened file bytes;
      if negb written && pcd_raises then throw else mret written
  end.

Definition convertPointCloud (message : PointCloud2) (dir : path) (fileName : string) (job : Job)
    : M bool :=
  if negb (String.eqb (pointCloudFormat job) "pcd") then mret false
  else
    match fromROSMsg message with
    | None => throw
    | Some cloud =>
        let target := child dir (fileName +:+ ".pcd") in
        let temporary := with_suffix target ".tmp" in
        saved ← savePCD temporary cloud;
        if negb saved then (_ ← remove temporary; mret false) else
        renamed ← rename temporary target;
        if negb renamed then (_ ← remove_or_throw temporary; mret false) else
        _ ← sync target;
        _ ← sync dir;
        mret true
    end.

(** ** One record *)

(** The message of a record; a tag that disagrees with the variant throws, and
    records always hold a message. *)
Definition serialize (data : SensorData) : option string :=
  match sd_type data, sd_data data with
  | CAMERA, VCamera c => message ← camera_image c; serialize_image message
  | LIDAR, VLidar l => message ← lidar_cloud l; serialize_cloud message
  | _, _ => None
  end.

Definition prefix_of (data : SensorData) : string :=
  match sd_type data with CAMERA => "camera" | LIDAR => "lidar" end.

Definition taken (dir : path) (base : string) : M bool :=
  raw ← exists_or_throw (child dir (base +:+ ".bin"));
  if raw : bool then mret true else exists_or_throw (child dir (base +:+ ".bin.zst")).

(** The loop that looks for a free name. *)
Fixpoint freeName (fuel : nat) (dir : path) (basePrefix candidate : string) (duplicate : Z)
    : M string :=
  used ← taken dir candidate;
  if negb used then mret candidate
  else
    match fuel with
    | O => spent
    | S fuel' =>
        freeName fuel' dir basePrefix (basePrefix +:+ "_" +:+ to_string (duplicate + 1)) (duplicate + 1)
    end.

Definition convertRecord (data : SensorData) (dir : path) (base : string) (job : Job) : M string :=
  let kind := match sd_type data with CAMERA => "images" | LIDAR => "pointclouds" end%string in
  let convertedDirectory := child dir kind in
  created ← create_directories convertedDirectory;
  if negb created then mret EmptyString
  else
    converted ← (match sd_type data, sd_data data with
                 | CAMERA, VCamera c =>
                     match camera_image c with
                     | Some message => convertImage message convertedDirectory base job
                     | None => throw
                     end
                 | LIDAR, VLidar l =>
                     match lidar_cloud l with
                     | Some message => convertPointCloud message convertedDirectory base job
                     | None => throw
                     end
                 | _, _ => throw
                 end);
    let extension := match sd_type data with CAMERA => imageExtension (imageFormat job)
                     | LIDAR => ".pcd" end%string in
    mret (if converted : bool then kind +:+ "/" +:+ base +:+ extension else EmptyString).

(** Storing the bytes: whether a compressed file was written, and whether the
    record is stored at all. *)
Definition storeRecord (dir : path) (base : string) (raw : string) (job : Job) : M (bool * bool) :=
  let rawFileName := base +:+ ".bin" in
  compressed ← (if compressionEnabled job && has_context then
                  match ZSTD_compress2 (compressionLevel job) raw with
                  | Some data => storeAtomically (child dir (rawFileName +:+ ".zst")) data
                  | None => mret false
                  end
                else mret false);
  stored ← (if negb compressed || keepRaw job then storeAtomically (child dir rawFileName) raw
            else mret true);
  mret (compressed, stored).

Definition note_failure (reason : string) (outcome : JobOutcome) : JobOutcome :=
  {| ok := false; persisted := persisted outcome;
     why := if String.eqb (why outcome) "" then reason else why outcome |}.

Definition manifest_header : string := "sensor,timestamp,file,encoding,converted_file".

Definition manifest_row (prefix : string) (timestamp : Z) (stored : string) (compressed : bool)
    (converted : string) : string :=
  prefix +:+ "," +:+ to_string timestamp +:+ "," +:+ stored +:+ "," +:+
  (if compressed then "zstd" else "raw") +:+ "," +:+ converted.

(** How the loop over the records goes on. *)
Inductive control := Next (outcome : JobOutcome) | Break (outcome : JobOutcome).

Definition enabled (job : Job) (data : SensorData) : bool :=
  match sd_type data with CAMERA => recordCamera job | LIDAR => recordLidar job end.

(** The body of the loop of [writeJob] once the name is chosen; [good] is the
    state of the manifest stream. *)
Definition persistRecord (job : Job) (good : bool) (data : SensorData) (raw base : string)
    (outcome : JobOutcome) : M control :=
  let dir := directory job in
  result ← storeRecord dir base raw job;
  let '(compressed, stored) := result in
  if negb stored then mret (Next (note_failure "record_write_failed" outcome))
  else
    converted ← (if conversionEnabled job then convertRecord data dir base job else mret EmptyString);
    let file := base +:+ (if compressed : bool then ".bin.zst" else ".bin") in
    let row := manifest_row (prefix_of data) (timestampOf data) file compressed converted in
    written ← stream_write good (child dir "manifest.csv") (row +:+ newline);
    if negb written then mret (Break (note_failure "manifest_write_failed" outcome))
    else mret (Next {| ok := ok outcome; persisted := persisted outcome + 1; why := why outcome |}).

Definition base_prefix (data : SensorData) : string :=
  prefix_of data +:+ "_" +:+ to_string (timestampOf data).

(** The body of the loop of [writeJob]. *)
Definition writeRecord (fuel : nat) (job : Job) (good : bool) (data : SensorData)
    (outcome : JobOutcome) : M control :=
  if negb (enabled job data) then mret (Next outcome)
  else
    match serialize data with
    | None => throw
    | Some raw =>
        base ← freeName fuel (directory job) (base_prefix data) (base_prefix data) 0;
        persistRecord job good data raw base outcome
    end.

(** The loop; it answers whether the stream is still good. *)
Fixpoint writeRecords (fuel : nat) (job : Job) (good : bool) (l : list SensorData)
    (outcome : JobOutcome) : M (JobOutcome * bool) :=
  match l with
  | [] => mret (outcome, good)
  | data :: rest =>
      next ← writeRecord fuel job good data outcome;
      match next with
      | Next outcome' => writeRecords fuel job good rest outcome'
      | Break outcome' => mret (outcome', false)
      end
  end.

(** ** Pairs *)

Definition pairs_header : string := "pair_id,status,camera_timestamp,lidar_timestamp,time_diff_ns,reason".

Definition pair_row (pair : PairRecord) : string :=
  to_string (pairId pair) +:+ "," +:+ status pair +:+ "," +:+
  (if hasCamera pair then to_string (cameraTimestamp pair) else "") +:+ "," +:+
  (if hasLidar pair then to_string (lidarTimestamp pair) else "") +:+ "," +:+
  to_string (difference pair) +:+ "," +:+ reason pair.

Definition writePairs (dir : path) (pairs : list PairRecord) : M bool :=
  if bool_decide (pairs = []) then mret true
  else
    let file := child dir "pairs.csv" in
    opened ← open_append file;
    if negb opened then mret false else
    start ← at_start file;
    good ← (if start : bool then write_stream file (pairs_header +:+ newline) else mret true);
    for_each pairs (fun pair good => stream_write good file (pair_row pair +:+ newline)) good.

(** ** One job *)

Definition failure (reason : string) : JobOutcome := {| ok := false; persisted := 0; why := reason |}.

(** The part of [writeJob] after the disk check. *)
Definition writeJobFiles (fuel : nat) (job : Job) : M JobOutcome :=
  created ← create_directories (directory job);
  if negb created then mret (failure "create_directory_failed") else
  let manifest := child (directory job) "manifest.csv" in
  opened ← open_append manifest;
  if negb opened then mret (failure "manifest_open_failed") else
  start ← at_start manifest;
  good ← (if start : bool then write_stream manifest (manifest_header +:+ newline) else mret true);
  pairsWritten ← writePairs (directory job) (job_pairs job);
  let outcome :=
    if pairsWritten : bool then {| ok := true; persisted := 0; why := "" |}
    else {| ok := false; persisted := 0; why := "pairs_write_failed" |} in
  result ← writeRecords fuel job good (records job) outcome;
  let '(outcome, good) := result in
  flushed ← stream_write good manifest "";
  let outcome := if negb flushed then note_failure "manifest_flush_failed" outcome else outcome in
  if finalJob job && ok outcome then
    _ ← sync manifest;
    hasPairs ← exists_or_throw (child (directory job) "pairs.csv");
    _ ← (if hasPairs : bool then sync (child (directory job) "pairs.csv") else mret tt);
    mret outcome
  else mret outcome.

(** [try { outcome = writeJob(job); } catch ...]: the disk check does not throw,
    and its effect on the manager survives an exception of the rest. *)
Definition guardedJob (fuel : nat) (job : Job) : M JobOutcome :=
  catch (writeJobFiles fuel job) (mret (failure "storage_exception")).

Definition writeJob (fuel : nat) (job : Job) (disk : option disk_state)
    : M (JobOutcome * option disk_state) :=
  match disk with
  | None => outcome ← guardedJob fuel job; mret (outcome, None)
  | Some d =>
      prepared ← prepareForWrite d;
      let '(room, d') := prepared in
      if negb room then mret (failure "insufficient_disk_space", Some d')
      else outcome ← guardedJob fuel job; mret (outcome, Some d')
  end.

(** ** The checksum manifest *)

(** The order of paths: component by component. *)
Fixpoint component_le (a b : list string) : bool :=
  match a, b with
  | [], _ => true
  | _, [] => false
  | x :: a', y :: b' =>
      match String.compare x y with Lt => true | Gt => false | Eq => component_le a' b' end
  end.

Definition path_le (a b : path) : Prop := component_le (rev a) (rev b) = true.

#[export] Instance path_le_dec a b : Decision (path_le a b).
Proof. unfold path_le. apply _. Defined.

(** One entry of the traversal: a status that cannot be told only leaves it out. *)
Definition checksumFile (dir q : path) (found : list path) : M (list path) :=
  symlink ← query (fun w => Some (is_symlink w q)) None;
  match symlink with
  | Some false =>
      regular ← query (fun w => is_file w q) false;
      mret (if regular && checksummed (filename q)
            then match strip_prefix dir q with Some relative => found ++ [relative] | None => found end
            else found)
  | _ => mret found
  end.

(** The traversal, with the names relative to the directory; an iteration error
    makes it fail. *)
Definition list_checksum_files (dir : path) : M (option (list path)) :=
  entries ← walk dir;
  found ← for_each entries.1 (checksumFile dir) [];
  mret (if entries.2 : bool then Some found else None).

Definition checksum_row (digest : string) (relative : path) : string :=
  digest +:+ "  " +:+ generic_string relative.

(** The loop over the sorted files; [None] when one of them cannot be read or
    its relative name not be told. *)
Fixpoint checksumRows (dir : path) (files : list path) : M (option string) :=
  match files with
  | [] => mret (Some EmptyString)
  | relative :: rest =>
      content ← read_file (relative ++ dir);
      match content with
      | None => mret None
      | Some bytes =>
          named ← query (fun _ => true) false;
          if negb named then mret None else
          rows ← checksumRows dir rest;
          mret ((fun s => checksum_row (to_hex (sha256 bytes)) relative +:+ newline +:+ s) <$> rows)
      end
  end.

Definition writeChecksumManifest (dir : path) : M bool :=
  found ← list_checksum_files dir;
  match found with
  | None => mret false
  | Some found =>
      let files := merge_sort path_le found in
      rows ← checksumRows dir files;
      match rows with
      | None => mret false
      | Some content =>
          if bool_decide (files = []) then mret false
          else storeAtomically (child dir "manifest.sha256") content
      end
  end.

(** ** The thread *)

Definition record_outcome (outcome : JobOutcome) (progress : EventProgress) : EventProgress :=
  {| progress_failed := progress_failed progress || negb (ok outcome);
     persistedRecords := persistedRecords progress + persisted outcome;
     progress_reason :=
       if negb (ok outcome) && String.eqb (progress_reason progress) "" then why outcome
       else progress_reason progress |}.

Definition fail_progress (reason : string) (progress : EventProgress) : EventProgress :=
  {| progress_failed := true; persistedRecords := persistedRecords progress;
     progress_reason := reason |}.

(** Settling an event after its final job. *)
Definition settle (dir : path) (nowNs : Z) (progress : EventProgress) : M unit :=
  let progress :=
    if negb (progress_failed progress) && (persistedRecords progress =? 0)
    then fail_progress "no_records_persisted" progress else progress in
  checked ← (if progress_failed progress then mret true else writeChecksumManifest dir);
  let progress := if negb checked then fail_progress "checksum_manifest_failed" progress else progress in
  if progress_failed progress then
    _ ← fail_event dir (if String.eqb (progress_reason progress) "" then "storage_failed"
                        else progress_reason progress) nowNs;
    mret tt
  else
    completed ← complete_event dir (persistedRecords progress);
    if negb completed then _ ← fail_event dir "complete_marker_write_failed" nowNs; mret tt
    else mret tt.

(** The rest of the round of [run] that handles one job. *)
Definition processJob (fuel : nat) (nowNs : Z) (job : Job)
    (eventProgress : gmap path EventProgress) (disk : option disk_state)
    : M (gmap path EventProgress * option disk_state) :=
  result ← writeJob fuel job disk;
  let '(outcome, disk) := result in
  let key := directory job in
  let progress := record_outcome outcome (default no_progress (eventProgress !! key)) in
  if finalJob job then
    _ ← settle key nowNs progress;
    disk ← (match disk with
            | Some d => d' ← enforceRetention false d; mret (Some d')
            | None => mret None
            end);
    mret (delete key eventProgress, disk)
  else mret (<[key := progress]> eventProgress, disk).

End worker.

(** What the disk manager deletes is never part of an event without a verdict. *)
Lemma spares_undecided root name w w' :
  spares root w w' -> has_verdict w (child root name) = false ->
  (forall q, child root name `suffix_of` q -> files w' !! q = files w !! q) /\
  (size (files w') <= size (files w))%nat.
Proof.
  intros [_ Hs] Hv. split.
  - intros q Hq. destruct (Hs q) as [|(_ & n & Hn & Hvn)]; [done|].
    rewrite (child_below root n name q Hn Hq) in Hvn. congruence.
  - rewrite <- !(size_dom (D := gset path)). apply subseteq_size. intros q [n Hq]%elem_of_dom.
    apply elem_of_dom. destruct (Hs q) as [<-|[Hn _]]; [by eauto|congruence].
Qed.

(** ** The queue and its reservations *)

(** The queue seen from its users: what was accepted and taken so far, and how
    many reservations they hold.  A user that enqueues as [reserved] or
    releases a reservation holds one. *)
Record usage := { queue : RawStorageWorker; held : Z; accepted : list Job; done : list Job }.

Inductive queue_step : usage -> usage -> Prop :=
| step_reserve u s :
    reserve (queue u) = (true, s) ->
    queue_step u {| queue := s; held := held u + 1; accepted := accepted u; done := done u |}
| step_refused u s :
    reserve (queue u) = (false, s) ->
    queue_step u {| queue := s; held := held u; accepted := accepted u; done := done u |}
| step_release u :
    0 < held u ->
    queue_step u {| queue := releaseReservation (queue u); held := held u - 1;
                    accepted := accepted u; done := done u |}
| step_enqueue u job (reserved b : bool) s :
    (reserved = true -> 0 < held u) -> enqueue job reserved (queue u) = (b, s) ->
    queue_step u {| queue := s; held := if reserved then held u - 1 else held u;
                    accepted := if b then accepted u ++ [job] else accepted u; done := done u |}
| step_take u job s :
    look (queue u) = (Take job, s) ->
    queue_step u {| queue := s; held := held u; accepted := accepted u; done := done u ++ [job] |}
| step_stop u :
    queue_step u {| queue := stop (queue u); held := held u; accepted := accepted u; done := done u |}.

Definition fresh (limit : Z) : usage :=
  {| queue := newWorker limit; held := 0; accepted := []; done := [] |}.

(** What holds of every reachable queue. *)
Definition queue_inv (limit : Z) (u : usage) : Prop :=
  maxPendingJobs (queue u) = limit /\ reservedJobs (queue u) = held u /\ 0 <= held u /\
  occupied (queue u) <= limit /\ accepted u = done u ++ jobs (queue u).

Lemma queue_step_inv limit u u' : queue_inv limit u -> queue_step u u' -> queue_inv limit u'.
Proof.
  unfold queue_inv. intros (Hm & Hr & Hh & Ho & Ha) Hstep.
  destruct Hstep as [u s He|u s He|u Hp|u job reserved b s Hp He|u job s He|u].
  - unfold reserve in He. destruct (stopping (queue u)), (occupied (queue u) >=? maxPendingJobs (queue u)) eqn:El;
      simplify_eq/=. bool_to_prop. unfold occupied in *. simpl. rewrite Ha. repeat split; try lia; done.
  - unfold reserve in He. destruct (stopping (queue u) || _); simplify_eq/=. auto.
  - unfold releaseReservation. replace (reservedJobs (queue u) >? 0) with true by lia.
    unfold occupied in *. simpl. repeat split; try lia; done.
  - unfold enqueue in He. unfold give_back, occupied in *.
    destruct reserved; simpl in *; [specialize (Hp eq_refl)|];
      rewrite ?andb_false_l, ?orb_false_r in *.
    + replace (reservedJobs (queue u) >? 0) with true in * by lia.
      destruct (stopping (queue u)); simplify_eq/=; [repeat split; try lia; done|].
      rewrite length_app. simpl. rewrite Ha, <- (assoc_L (++)). repeat split; try lia; done.
    + destruct (stopping (queue u) || _) eqn:E; simplify_eq/=; [repeat split; try lia; done|].
      bool_to_prop. rewrite length_app. simpl. rewrite Ha, <- (assoc_L (++)).
      repeat split; try lia; done.
  - unfold look in He. destruct (jobs (queue u)) as [|j rest] eqn:Ej;
      [by destruct (stopping (queue u))|]. simplify_eq/=.
    unfold occupied in *. rewrite Ej in Ho. simpl in *.
    rewrite Ha, <- (assoc_L (++)). repeat split; try lia; done.
  - unfold occupied in *. simpl. auto.
Qed.

Lemma queue_reachable limit u : 0 <= limit -> rtc queue_step (fresh limit) u -> queue_inv limit u.
Proof.
  intros Hl Hr. assert (H0 : queue_inv limit (fresh limit)).
  { unfold queue_inv, occupied. simpl. repeat split; try lia; done. }
  induction Hr as [|u1 u2 u3 Hs Hr IH]; [done|]. apply IH. by eapply queue_step_inv.
Qed.

(** C15. However the calls of the users and the thread interleave, the queued
    jobs and the reservations together never exceed the limit, the counter of
    reservations is the number held, a job enqueued on a reservation is
    refused only when the worker is stopping, and the jobs taken are the
    accepted ones in order of acceptance, none lost or duplicated. *)
Theorem queue_protocol limit u :
  0 <= limit -> rtc queue_step (fresh limit) u ->
  Z.of_nat (length (jobs (queue u))) + reservedJobs (queue u) <= limit /\
  reservedJobs (queue u) = held u /\
  accepted u = done u ++ jobs (queue u) /\
  (forall job, 0 < held u -> (enqueue job true (queue u)).1 = negb (stopping (queue u))) /\
  (stopping (queue u) = true -> (look (queue u)).1 = Return -> accepted u = done u).
Proof.
  intros Hl Hr. destruct (queue_reachable _ _ Hl Hr) as (Hm & Hres & Hh & Ho & Ha).
  split; [done|]. split; [done|]. split; [done|]. split.
  - intros job Hp. unfold enqueue. simpl. rewrite orb_false_r. by destruct (stopping (queue u)).
  - intros _ Hk. unfold look in Hk. destruct (jobs (queue u)); [by rewrite app_nil_r in Ha|done].
Qed.

Definition some_job (final : bool) : Job :=
  {| directory := ["brake_1_99"; "records"]%string; records := []; recordCamera := true;
     recordLidar := true; compressionEnabled := false; compressionLevel := 3; keepRaw := false;
     conversionEnabled := false; imageFormat := "jpg"; imageQuality := 90; pointCloudFormat := "pcd";
     job_pairs := []; finalJob := final |}.

(** One slot: a reservation is taken, used, and the job is handled. *)
Definition one_slot : usage :=
  {| queue := with_jobs [some_job true] (newWorker 1); held := 0; accepted := [some_job true]; done := [] |}.

Lemma one_slot_reachable : rtc queue_step (fresh 1) one_slot.
Proof.
  eapply rtc_l; [apply step_reserve; reflexivity|].
  eapply rtc_l; [apply (step_enqueue _ (some_job true) true); [by intros _|reflexivity]|].
  apply rtc_refl.
Qed.

Lemma queue_protocol_witness :
  Z.of_nat (length (jobs (queue one_slot))) + reservedJobs (queue one_slot) <= 1 /\
  reservedJobs (queue one_slot) = held one_slot /\
  accepted one_slot = done one_slot ++ jobs (queue one_slot) /\
  (forall job, 0 < held one_slot -> (enqueue job true (queue one_slot)).1 = negb (stopping (queue one_slot))) /\
  (stopping (queue one_slot) = true -> (look (queue one_slot)).1 = Return -> accepted one_slot = done one_slot).
Proof. apply (queue_protocol 1); [lia|apply one_slot_reachable]. Defined.

(** ** What writing one file does *)

Lemma storeAtomically_wp t data w :
  t <> [] ->
  wp (storeAtomically t data)
    (fun ok w' => touches [t; scratch t] (parent_path t) w w' /\
       if ok then exists m, files w' !! t = Some (File data m) else files w' !! t = files w !! t)
    (fun w' => touches [t; scratch t] (parent_path t) w w' /\ files w' !! t = files w !! t)
    (fun w' => touches [t; scratch t] (parent_path t) w w' /\
       (files w' !! t = files w !! t \/ exists m, files w' !! t = Some (File data m))) w.
Proof.
  intros Hne. pose proof (scratch_ne t) as Hsn.
  assert (Hearly : forall w', only_scratch t w w' ->
    touches [t; scratch t] (parent_path t) w w' /\ files w' !! t = files w !! t).
  { intros w' Hw. split; [by apply only_scratch_touches|by apply only_scratch_target]. }
  assert (Hremoved : forall (A : Type) w' (k : bool -> M A) P E, only_scratch t w w' ->
    (forall b w'', only_scratch t w w'' -> wp (k b) P E
       (fun w' => touches [t; scratch t] (parent_path t) w w' /\
          (files w' !! t = files w !! t \/ exists m, files w' !! t = Some (File data m))) w'') ->
    wp (b ← remove (scratch t); k b) P E
      (fun w' => touches [t; scratch t] (parent_path t) w w' /\
         (files w' !! t = files w !! t \/ exists m, files w' !! t = Some (File data m))) w').
  { intros A w' k P E O' Hk. apply wp_bind, (remove_wp [scratch t] (parent_path t)); [set_solver| |].
    - split; [destruct (Hearly _ O'); auto|by apply Hk].
    - intros w'' T _ _. assert (O'' : only_scratch t w w'') by (by etrans).
      split; [destruct (Hearly _ O''); auto|by apply Hk]. }
  unfold storeAtomically.
  apply wp_bind, (open_trunc_wp [scratch t] (parent_path t)); [set_solver| |].
  { intros w1 O1. destruct (Hearly _ O1). split; [auto|]. by apply wp_ret. }
  intros w1 O1 [m Hm]. simpl.
  apply wp_bind, (write_stream_wp [scratch t] (parent_path t)); [set_solver| |].
  { intros w2 T2. assert (O2 : only_scratch t w w2) by (by etrans). destruct (Hearly _ O2).
    split; [auto|]. simpl. apply Hremoved; [done|]. intros b w3 O3. apply wp_ret. by apply Hearly. }
  intros T2. simpl. set (w2 := append_to (scratch t) data w1) in *.
  assert (O2 : only_scratch t w w2) by (by etrans). destruct (Hearly _ O2) as [T2' S2].
  assert (Hc : files w2 !! scratch t = Some (File data (clock w1))).
  { unfold w2, append_to. rewrite Hm. by rewrite lookup_put, decide_True. }
  assert (Hrest : wp (renamed ← rename (scratch t) t;
      if negb renamed then (_ ← remove_or_throw (scratch t); mret false) else
      _ ← sync (parent_path t); mret true)
    (fun ok w' => touches [t; scratch t] (parent_path t) w w' /\
       if ok then exists m, files w' !! t = Some (File data m) else files w' !! t = files w !! t)
    (fun w' => touches [t; scratch t] (parent_path t) w w' /\ files w' !! t = files w !! t)
    (fun w' => touches [t; scratch t] (parent_path t) w w' /\
       (files w' !! t = files w !! t \/ exists m, files w' !! t = Some (File data m))) w2).
  { apply wp_bind, (rename_wp [t; scratch t] (parent_path t)); [set_solver..|done| |].
    - split; [auto|]. simpl. apply wp_bind. unfold remove_or_throw. apply Hremoved; [done|].
      intros [] w3 O3; simpl; [apply wp_ret, wp_ret; by apply Hearly|]. intros o. by apply Hearly.
    - intros w3 content m' T3 Hs Ht _ _. rewrite Hc in Hs. injection Hs as <- <-.
      assert (touches [t; scratch t] (parent_path t) w w3) by (by etrans).
      split; [eauto|]. simpl. apply wp_bind, wp_query; [apply wp_ret; eauto..|eauto]. }
  apply wp_bind, wp_query; [exact Hrest|exact Hrest|auto].
Qed.

Section settling.
Context `{Sha256} `{Traversal}.

(** ** What the manifest lists *)

(** What an entry adds when its status can be told. *)
Definition listed_name (w : world) (d q : path) : option path :=
  if is_file w q && checksummed (filename q) then strip_prefix d q else None.

Lemma filename_below (r d : path) : r <> [] -> filename (r ++ d) = filename r.
Proof. by destruct r. Qed.

Lemma not_below_self (d : path) : ~ below d ([] ++ d).
Proof. by intros []. Qed.

Lemma listed_name_Some w d q r :
  below d q -> listed_name w d q = Some r <-> q = r ++ d /\ r ∈ checksum_files w d.
Proof.
  intros Hb. unfold listed_name. rewrite elem_of_checksum_files. split.
  - destruct (is_file w q && checksummed (filename q)) eqn:E; [|done]. apply andb_prop in E as [Hf Hc].
    intros ->%strip_prefix_Some. assert (Hr : r <> []) by (intros ->; by eapply not_below_self).
    rewrite filename_below in Hc by done. split; [done|]. split; [done|]. split; [|done].
    unfold is_file in Hf. destruct (files w !! (r ++ d)) as [[c m| |]|]; try done. by exists c, m.
  - intros (-> & Hr & (c & m & Hf) & Hc). unfold is_file. rewrite Hf, filename_below, Hc by done.
    apply strip_prefix_app.
Qed.

Lemma checksumFile_wp d q found w :
  wp (checksumFile d q found)
    (fun a w' => w' = w /\ (a = found \/ exists r, listed_name w d q = Some r /\ a = found ++ [r]))
    (fun _ => False) (eq w) w.
Proof.
  unfold checksumFile. apply wp_bind, wp_query; [|apply wp_ret; by auto|done].
  destruct (is_symlink w q); [apply wp_ret; by auto|].
  apply wp_bind, wp_query; [|apply wp_ret; by auto|done]. apply wp_ret. split; [done|]. unfold listed_name.
  destruct (is_file w q && _); [|by left]. destruct (strip_prefix d q); eauto.
Qed.

Lemma checksumFile_steady d q found o w a w' o' :
  steady o -> checksumFile d q found o w = Done a w' o' ->
  a = match listed_name w d q with Some r => found ++ [r] | None => found end /\ w' = w /\ steady o'.
Proof.
  intros Ho. unfold checksumFile, mbind, M_bind.
  destruct (query _ None o w) as [s w1 o1| | |] eqn:E1; try done.
  apply query_steady in E1 as (-> & -> & Ho1); [|done]. unfold listed_name.
  assert (Hl : is_symlink w q = true -> is_file w q = false)
    by (unfold is_symlink, is_file; by destruct (files w !! q) as [[]|]).
  destruct (is_symlink w q); [rewrite Hl by done; by intros [= <- <- <-]|].
  destruct (query _ false o1 w) as [s w1 o2| | |] eqn:E2; try done.
  apply query_steady in E2 as (-> & -> & Ho2); [|done]. intros [= <- <- <-]. split; [|done].
  by destruct (is_file w q && _), (strip_prefix d q).
Qed.

Lemma foldl_listed w d l found :
  foldl (fun acc q => match listed_name w d q with Some r => acc ++ [r] | None => acc end) found l =
    found ++ omap (listed_name w d) l.
Proof.
  revert found. induction l as [|q l IH]; intros found; csimpl; [by rewrite app_nil_r|].
  rewrite IH. destruct (listed_name w d q); [by rewrite <- (assoc_L (++))|done].
Qed.

(** Whatever faults occur, only files of the directory are listed, and each at
    most once. *)
Lemma list_checksum_files_wp d w :
  wp (list_checksum_files d)
    (fun found w' => w' = w /\ forall L, found = Some L -> NoDup L /\ L ⊆ checksum_files w d)
    (fun _ => False) (eq w) w.
Proof.
  unfold list_checksum_files. apply wp_bind. eapply wp_post; [|apply walk_wp].
  intros [entries ok] w1 (-> & Hnd & Hin). cbn [fst snd] in *.
  apply wp_bind. eapply wp_post; [|apply (wp_for_each _ _ (fun before found w' =>
    w' = w /\ NoDup found /\ forall r, r ∈ found -> r ∈ checksum_files w d /\ r ++ d ∈ before))].
  - intros found w1 (-> & Hf & Hsub). apply wp_ret. split; [done|]. intros L HL. destruct ok; simplify_eq.
    split; [done|]. intros r Hr. by apply Hsub.
  - intros before q rest found w1 Hl (-> & Hf & Hsub).
    assert (Hqb : below d q) by (apply Hin; rewrite Hl; set_solver).
    eapply wp_post; [|apply checksumFile_wp]. intros a w' [-> [->|(r & Hr & ->)]].
    + split; [done|]. split; [done|]. intros r Hr. specialize (Hsub r Hr). set_solver.
    + apply listed_name_Some in Hr as [-> Hr]; [|done]. split; [done|]. split.
      * apply NoDup_app. split; [done|]. split; [|apply NoDup_singleton].
        intros x Hx ->%list_elem_of_singleton. rewrite Hl in Hnd. apply NoDup_app in Hnd as (_ & Hnd & _).
        apply (Hnd (r ++ d)); [by apply Hsub|by left].
      * intros x [Hx| ->%list_elem_of_singleton]%elem_of_app; [|set_solver].
        specialize (Hsub x Hx). set_solver.
  - split; [done|]. split; [constructor|]. by intros r ?%elem_of_nil.
Qed.

(** When no call reports an error, nothing is left out. *)
Lemma list_checksum_files_steady d o w L w' o' :
  steady o -> list_checksum_files d o w = Done (Some L) w' o' -> forall r, r ∈ checksum_files w d -> r ∈ L.
Proof.
  intros Ho. unfold list_checksum_files, mbind, M_bind.
  destruct (walk d o w) as [entries w1 o1| | |] eqn:Ew; try done.
  apply walk_steady in Ew as (-> & -> & Ho1); [|done]. cbn [fst snd].
  destruct (for_each _ _ _ _ _) as [found w2 o2| | |] eqn:Ef; try done.
  eapply for_each_steady in Ef as (-> & -> & _); [|intros *; apply checksumFile_steady|done].
  destruct (is_dir w d); [|done]. intros [= <- _ _] r Hr. rewrite foldl_listed. simpl.
  apply list_elem_of_omap. exists (r ++ d). pose proof Hr as (Hne & (c & m & Hf) & _)%elem_of_checksum_files.
  assert (Hb : below d (r ++ d)).
  { split; [by exists r|]. intros E. apply (f_equal length) in E. rewrite length_app in E. destruct r; [done|]. simpl in E. lia. }
  split; [|by apply listed_name_Some]. rewrite traversal_perm. apply elem_of_descendants. eauto.
Qed.

(** The files it lists, when nothing fails. *)
Lemma list_checksum_files_returns d w :
  is_dir w d = true -> exists L, returns (list_checksum_files d) w (Some L) w /\ L ≡ₚ checksum_files w d.
Proof.
  intros Hd. set (L := omap (listed_name w d) (traversal (descendants w d))).
  assert (Hrun : returns (list_checksum_files d) w (Some L) w).
  { unfold list_checksum_files. eapply returns_bind.
    { unfold returns, walk. cbn [next]. rewrite Hd. reflexivity. }
    destruct (returns_for_each (traversal (descendants w d)) (checksumFile d) (fun before found w' =>
      w' = w /\ found = omap (listed_name w d) before) [] w) as (found & w1 & Hr & -> & ->); [|done|].
    - intros before q rest found w1 _ [-> ->]. exists (omap (listed_name w d) (before ++ [q])), w.
      split; [|done]. rewrite omap_app. csimpl. unfold returns, checksumFile, mbind, M_bind, query. cbn [next].
      assert (Hl : is_symlink w q = true -> listed_name w d q = None)
        by (unfold is_symlink, listed_name, is_file; by destruct (files w !! q) as [[]|]).
      destruct (is_symlink w q); [rewrite Hl, app_nil_r by done; done|]. cbn [next].
      unfold listed_name. destruct (is_file w q && _); [destruct (strip_prefix d q)|]; by rewrite ?app_nil_r.
    - eapply returns_bind; [exact Hr|]. done. }
  exists L. split; [done|]. pose proof (list_checksum_files_wp d w []) as Hwp. unfold returns in Hrun.
  rewrite Hrun in Hwp. destruct Hwp as [_ Hwp]. destruct (Hwp L eq_refl) as [Hnd Hsub].
  apply NoDup_Permutation; [done|apply checksum_files_NoDup|]. intros r. split; [apply Hsub|].
  eapply list_checksum_files_steady; [|exact Hrun]. by intros n ?%elem_of_nil.
Qed.

Lemma list_checksum_files_replays d : replays (list_checksum_files d).
Proof.
  apply replays_bind; [apply replays_walk|]. intros entries. apply replays_bind; [|intros; apply replays_ret].
  apply replays_for_each. intros q found. apply replays_bind; [apply replays_query|].
  intros [[]|]; try apply replays_ret. apply replays_bind; [apply replays_query|]. intros; apply replays_ret.
Qed.

(** ** Settling *)

Lemma checksumRows_wp dir l w :
  wp (checksumRows dir l) (fun _ w' => w' = w) (fun _ => False) (fun w' => w' = w) w.
Proof.
  induction l as [|r l IH]; simpl; [by apply wp_ret|].
  apply wp_bind, wp_query; [|by apply wp_ret|done].
  destruct (files w !! (r ++ dir)) as [[c m| |]|]; try by apply wp_ret.
  apply wp_bind, wp_check; [intros _; cbn [negb]|by apply wp_ret|done].
  apply wp_bind. eapply wp_mono; [..|exact IH]; try done. intros a w' ->. by apply wp_ret.
Qed.

Lemma writeChecksumManifest_wp dir w :
  let t := child dir "manifest.sha256" in
  wp (writeChecksumManifest dir) (fun _ w' => touches [t; scratch t] dir w w')
    (fun w' => touches [t; scratch t] dir w w') (fun w' => touches [t; scratch t] dir w w') w.
Proof.
  intros t. pose proof (touches_refl [t; scratch t] dir w) as Hr. unfold writeChecksumManifest.
  apply wp_bind. eapply wp_reads; [done| |apply list_checksum_files_wp].
  intros [found|] w' [-> _]; [|by apply wp_ret].
  apply wp_bind. eapply wp_mono; [..|exact (checksumRows_wp dir _ w)]; [|done|by intros w' ->].
  intros [content|] w' ->; simpl; [|by apply wp_ret].
  case_bool_decide; [by apply wp_ret|].
  eapply wp_mono; [..|by apply (storeAtomically_wp t)];
    [intros okb w' [Ht _]|intros w' [Ht _]|intros w' [Ht _]]; exact Ht.
Qed.

(** The event is still pending, or has a verdict. *)
Definition tracked (w : world) (d : path) : bool := has w (pending d) || settled w d.

(** The event is not lost, has at most one verdict, and is complete only with
    [count] records. *)
Definition verdict (allowed : bool) (count : Z) (d : path) (w : world) : Prop :=
  tracked w d = true /\ (has w (completed d) && has w (failed d) = false) /\
  (has w (completed d) = true ->
     allowed = true /\ exists m, files w !! completed d = Some (File (complete_content count) m)).

Lemma has_same w w' p : files w' !! p = files w !! p -> has w' p = has w p.
Proof. unfold has. by intros ->. Qed.

Lemma has_file w p c m : files w !! p = Some (File c m) -> has w p = true.
Proof. unfold has. by intros ->. Qed.

Lemma has_none w p : files w !! p = None -> has w p = false.
Proof. unfold has. by intros ->. Qed.

(** After a failure is recorded, wholly or in part. *)
Lemma fail_verdict allowed count d reason now w w' :
  has w (pending d) = true -> has w (completed d) = false ->
  marking (failed d) (fail_content reason now) (pending d) (completed d) w w' ->
  verdict allowed count d w'.
Proof.
  intros Hp Hc (_ & Hf & Hab).
  assert (Hc' : has w' (completed d) = false).
  { destruct (Hab (completed d)) as [E|[E _]]; [by right| |by apply has_none].
    by rewrite (has_same _ _ _ E). }
  unfold verdict, tracked, settled. rewrite Hc'. split; [|done]. simpl.
  destruct (Hab (pending d)) as [E|[_ [m E]]]; [by left|by rewrite (has_same _ _ _ E), Hp|].
  rewrite (has_file _ _ _ _ E). apply orb_true_r.
Qed.

Lemma complete_verdict count d w w' :
  has w (pending d) = true -> has w (completed d) = false -> has w (failed d) = false ->
  marking (completed d) (complete_content count) (pending d) (failed d) w w' ->
  verdict true count d w'.
Proof.
  intros Hp Hc Hf (_ & Ht & Hab).
  assert (Hf' : has w' (failed d) = false).
  { destruct (Hab (failed d)) as [E|[E _]]; [by right| |by apply has_none].
    by rewrite (has_same _ _ _ E). }
  unfold verdict, tracked, settled. rewrite Hf', andb_false_r, orb_false_r. split; [|split; [done|]].
  - destruct (Hab (pending d)) as [E|[_ [m E]]]; [by left|by rewrite (has_same _ _ _ E), Hp|].
    rewrite (has_file _ _ _ _ E). apply orb_true_r.
  - intros Hc'. split; [done|]. destruct Ht as [E|[E|E]]; [|by rewrite (has_none _ _ E) in Hc'|done].
    by rewrite (has_same _ _ _ E), Hc in Hc'.
Qed.

(** [settle] from a directory that is pending and has no verdict. *)
Definition undecided (w : world) (d : path) : Prop :=
  has w (pending d) = true /\ has w (completed d) = false /\ has w (failed d) = false.

Lemma undecided_verdict allowed count d w : undecided w d -> verdict allowed count d w.
Proof.
  intros (Hp & Hc & Hf). unfold verdict, tracked, settled. by rewrite Hp, Hc.
Qed.

Lemma undecided_touches d w w' t :
  t = child d "manifest.sha256" -> touches [t; scratch t] d w w' -> undecided w d -> undecided w' d.
Proof.
  intros -> Ht (Hp & Hc & Hf).
  assert (Hs : forall leaf, leaf ∈ [".pending"; ".complete"; ".failed"]%string ->
    files w' !! child d leaf = files w !! child d leaf).
  { intros leaf Hl. eapply touches_same; [exact Ht|unfold child; simpl; set_solver|].
    intros Hsuf. apply suffix_length in Hsuf. unfold child in Hsuf. simpl in Hsuf. lia. }
  unfold undecided, pending, completed, failed.
  rewrite !(has_same w w' (child d _)) by (apply Hs; set_solver). done.
Qed.

Lemma fail_settles allowed count d reason now w :
  undecided w d ->
  wp (_ ← fail_event d reason now; mret tt) (fun _ => verdict allowed count d)
    (verdict allowed count d) (verdict allowed count d) w.
Proof.
  intros (Hp & Hc & Hf). apply wp_bind. eapply wp_mono; [..|apply fail_event_wp]; [|done|].
  - intros okb w' [Hm _]. apply wp_ret. by eapply fail_verdict.
  - intros w' Hm. by eapply fail_verdict.
Qed.

Lemma settle_wp d now progress w :
  undecided w d ->
  let allowed := negb (progress_failed progress) && negb (persistedRecords progress =? 0) in
  let V := verdict allowed (persistedRecords progress) d in
  wp (settle d now progress) (fun _ => V) V V w.
Proof.
  intros Hu allowed V.
  assert (Hal : allowed = negb (progress_failed progress) && negb (persistedRecords progress =? 0)) by done.
  clearbody allowed. unfold settle.
  destruct (progress_failed progress) eqn:Ef; simpl.
  { rewrite Ef. apply wp_bind, wp_ret. simpl. rewrite Ef. by apply fail_settles. }
  destruct (Z.eqb_spec (persistedRecords progress) 0) as [E0|E0]; simpl.
  { apply wp_bind, wp_ret. simpl. by apply fail_settles. }
  rewrite Ef. apply wp_bind. eapply wp_mono; [..|apply writeChecksumManifest_wp].
  2,3: intros w' Ht; eapply undecided_verdict, undecided_touches; [done|exact Ht|done].
  intros checked w1 Ht. pose proof (undecided_touches d w w1 _ eq_refl Ht Hu) as Hu1.
  destruct checked; simpl; [rewrite Ef|by apply fail_settles].
  simpl in Hal. subst allowed.
  destruct Hu1 as (Hp & Hc & Hf). apply wp_bind.
  eapply wp_mono; [..|apply complete_event_wp]; [|done|].
  - intros [] w2 [Hm Hb]; simpl; [apply wp_ret; by eapply complete_verdict|].
    destruct Hb as (Hbc & Hbp & Hbf). apply fail_settles.
    split; [by rewrite (has_same _ _ _ Hbp)|]. split; [|by rewrite (has_same _ _ _ Hbf)].
    destruct Hbc as [E|E]; [by rewrite (has_same _ _ _ E)|by apply has_none].
  - intros w2 Hm. by eapply complete_verdict.
Qed.

(** C3. Settling an event that is pending and has no verdict, with any faults and
    wherever the process dies: the event is never lost (it is still pending or
    has a verdict), it never has both verdicts, and it is marked complete only
    when every job of it succeeded and records were persisted, with their
    number in the marker. *)
Theorem settle_verdict d now progress w o :
  undecided w d ->
  match settle d now progress o w with
  | Done _ w' _ | Threw w' _ | Crashed w' =>
      tracked w' d = true /\ has w' (completed d) && has w' (failed d) = false /\
      (has w' (completed d) = true ->
         progress_failed progress = false /\ persistedRecords progress <> 0 /\
         exists m, files w' !! completed d =
                     Some (File (complete_content (persistedRecords progress)) m))
  | Stuck _ => False
  end.
Proof.
  intros Hu. pose proof (settle_wp d now progress w Hu o) as Hs. cbv zeta in Hs.
  assert (Hv : forall w', verdict (negb (progress_failed progress) && negb (persistedRecords progress =? 0))
                 (persistedRecords progress) d w' ->
    tracked w' d = true /\ has w' (completed d) && has w' (failed d) = false /\
    (has w' (completed d) = true -> progress_failed progress = false /\ persistedRecords progress <> 0 /\
       exists m, files w' !! completed d = Some (File (complete_content (persistedRecords progress)) m))).
  { intros w' (H1 & H2 & H3). split; [done|]. split; [done|]. intros Hc.
    destruct (H3 Hc) as [Ha Hm]. bool_to_prop. done. }
  destruct (settle d now progress o w); try done; by apply Hv.
Qed.

Lemma storeAtomically_returns w t data :
  t <> [] -> is_dir w (parent_path t) = true -> regular w t -> regular w (scratch t) ->
  exists w', returns (storeAtomically t data) w true w' /\ clock w' = clock w /\
    forall q, files w' !! q =
      if decide (q = t) then Some (File data (clock w))
      else if decide (q = scratch t) then None else files w !! q.
Proof.
  intros Hne Hr Ht Hs. destruct (stage_returns w t data Hne Hr Ht Hs) as (w1 & w2 & w3 & R1 & R2 & R3 & F).
  exists w3. split; [|done]. unfold storeAtomically.
  eapply returns_bind; [exact R1|]. simpl. eapply returns_bind; [exact R2|]. simpl.
  eapply returns_bind; [reflexivity|]. eapply returns_bind; [exact R3|reflexivity].
Qed.

Lemma checksumRows_returns d l w :
  (forall r, r ∈ l -> exists c m, files w !! (r ++ d) = Some (File c m)) ->
  exists s, returns (checksumRows d l) w (Some s) w.
Proof.
  induction l as [|r l IH]; intros Hl; [by exists ""|].
  destruct (Hl r) as (c & m & Hr); [set_solver|]. destruct IH as [s Hs]; [set_solver|].
  eexists. simpl. eapply returns_bind; [reflexivity|]. simpl. rewrite Hr.
  eapply returns_bind; [reflexivity|]. eapply returns_bind; [exact Hs|reflexivity].
Qed.

(** Without faults, an event whose jobs all succeeded and persisted records
    becomes complete: its directory then carries the checksum manifest and
    [.complete], and neither [.pending] nor [.failed]. *)
Theorem settle_completes d now progress w :
  progress_failed progress = false -> persistedRecords progress <> 0 ->
  reachable w d -> plain_markers w d -> regular w (scratch (completed d)) ->
  regular w (child d "manifest.sha256") -> regular w (scratch (child d "manifest.sha256")) ->
  checksum_files w d <> [] ->
  exists w', returns (settle d now progress) w tt w' /\
    (exists m, files w' !! completed d = Some (File (complete_content (persistedRecords progress)) m)) /\
    files w' !! pending d = None /\ files w' !! failed d = None /\
    is_file w' (child d "manifest.sha256") = true.
Proof.
  intros Hpf Hn Hr (Hp & Hc & Hf & _) Hcs Hm Hms Hne.
  destruct (list_checksum_files_returns d w) as (L & HL & HLp); [by apply Hr|].
  destruct (checksumRows_returns d (merge_sort path_le L) w) as [s Hs].
  { intros r Hin. rewrite merge_sort_Permutation, HLp in Hin. by apply elem_of_checksum_files in Hin as (_ & ? & _). }
  destruct (storeAtomically_returns w (child d "manifest.sha256") s) as (w1 & R1 & C1 & F1);
    [done|by apply Hr|done|done|].
  assert (Hd1 : forall q, q `suffix_of` d -> files w1 !! q = files w !! q).
  { intros q Hq. apply suffix_length in Hq. rewrite F1, !decide_False; [done|..];
      intros ->; unfold child in Hq; simpl in Hq; lia. }
  assert (Hreg : forall leaf, leaf ∈ [".pending"; ".complete"; ".complete.tmp"; ".failed"]%string ->
    regular w (child d leaf) -> regular w1 (child d leaf)).
  { intros leaf Hl. apply regular_same. rewrite F1, !decide_False; [done|..];
      unfold child; simpl; intros [= ->]; set_solver. }
  destruct (complete_event_returns w1 d (persistedRecords progress)) as (w2 & R2 & C2 & F2).
  - intros q Hq. rewrite (is_dir_same w w1 q); [by apply Hr|by apply Hd1].
  - apply Hreg; [set_solver|done].
  - apply Hreg; [set_solver|done].
  - apply (Hreg ".complete.tmp"); [set_solver|done].
  - apply Hreg; [set_solver|done].
  - exists w2. split; [|split; [|split; [|split]]].
    + unfold settle. rewrite Hpf. simpl. rewrite (proj2 (Z.eqb_neq _ _) Hn). simpl. rewrite Hpf.
      eapply returns_bind.
      { unfold writeChecksumManifest. eapply returns_bind; [exact HL|]. cbv beta iota.
        eapply returns_bind; [exact Hs|]. cbv beta iota.
        rewrite bool_decide_false; [exact R1|]. intros Hnil. apply Hne.
        apply Permutation_nil. rewrite <- HLp, <- Hnil. apply (merge_sort_Permutation path_le). }
      simpl. rewrite Hpf. eapply returns_bind; [exact R2|reflexivity].
    + eexists. by rewrite F2, decide_True.
    + rewrite F2, decide_False, decide_True; [done|by left|done].
    + rewrite F2, decide_False, decide_True; [done|by right; left|done].
    + unfold is_file. rewrite F2, decide_False, decide_False, F1, decide_True; [done|done|naive_solver|done].
Qed.

End settling.

(** An event directory with one record, about to be settled. *)
Definition event_dir : path := ["brake_1_99"; "records"]%string.

Definition recorded_world : world :=
  {| files := list_to_map
       [(["records"], Dir); (event_dir, Dir);
        (".pending" :: event_dir, File "event=brake" 1);
        ("manifest.csv" :: event_dir, File "sensor,timestamp" 2);
        ("camera_7.bin" :: event_dir, File "pixels" 2)]%string;
     clock := 9 |}.

Definition one_record : EventProgress :=
  {| progress_failed := false; persistedRecords := 1; progress_reason := "" |}.

(** The process dies after the checksum manifest is in place. *)
Definition dies_late : list fault := repeat NoFault 16 ++ [Crash 0].

Lemma settle_verdict_witness :
  match settle event_dir 50 one_record dies_late recorded_world with
  | Done _ w' _ | Threw w' _ | Crashed w' =>
      tracked w' event_dir = true /\ has w' (completed event_dir) && has w' (failed event_dir) = false /\
      (has w' (completed event_dir) = true ->
         progress_failed one_record = false /\ persistedRecords one_record <> 0 /\
         exists m, files w' !! completed event_dir =
                     Some (File (complete_content (persistedRecords one_record)) m))
  | Stuck _ => False
  end.
Proof. apply (settle_verdict event_dir 50 one_record recorded_world dies_late). repeat split. Defined.

Lemma settle_completes_witness :
  exists w', returns (settle event_dir 50 one_record) recorded_world tt w' /\
    (exists m, files w' !! completed event_dir =
                 Some (File (complete_content (persistedRecords one_record)) m)) /\
    files w' !! pending event_dir = None /\ files w' !! failed event_dir = None /\
    is_file w' (child event_dir "manifest.sha256") = true.
Proof.
  apply (settle_completes event_dir 50 one_record recorded_world).
  - reflexivity.
  - discriminate.
  - apply reachableb_spec. vm_compute. reflexivity.
  - apply plain_world_markers. vm_compute. reflexivity.
  - left. vm_compute. reflexivity.
  - left. vm_compute. reflexivity.
  - left. vm_compute. reflexivity.
  - vm_compute. discriminate.
Defined.
