(* ===== verification/DiskSpace.v ===== *)
(** * DiskSpace: retention of event directories

    Models src/include/disk_space_manager.hpp.  The free space reported by the
    system is a parameter; the readings of the two clocks are arguments.  The
    manager is what [StorageWorker.DiskManager] asks for, and the laws of
    [StorageWorker.DiskSpec] are proved of it. *)

From S2P Require Import Prelude Text SensorData FileSystem EventState StorageWorker.

(** [space(p, error).available]; [None] is an error. *)
Class Space := { available : world -> path -> option Z }.

Record Policy := {
  minFreeBytes : Z;
  maxCapacityBytes : Z;
  retentionDays : Z;
  cleanupInterval : Z;                 (* seconds *)
  protectUnuploaded : bool
}.

(** [lastSweep_] is in nanoseconds of the steady clock. *)
Record DiskSpaceManager := { recordRoot_ : path; policy_ : Policy; lastSweep_ : Z }.

(** What the clocks read during a call, in nanoseconds. *)
Record Clocks := { steady_now : Z; systemNowNs : Z }.

Definition newDiskSpaceManager (root : path) (policy : Policy) (now : Clocks) : DiskSpaceManager :=
  {| recordRoot_ := root; policy_ := policy;
     lastSweep_ := steady_now now - cleanupInterval policy * ns_per_s |}.

(** ** Names of event directories *)

(** The loop over the digits; [-1] is a refusal. *)
Fixpoint parseDigits (value : Z) (s : string) : Z :=
  match s with
  | EmptyString => value
  | String c s' =>
      if negb (isdigit c) then -1
      else if value >? (int64_max - digit c) / 10 then -1
      else parseDigits (value * 10 + digit c) s'
  end.

Definition parseEventTimestamp (name : string) : Z :=
  match cut_last "_" name with
  | None => -1
  | Some (stem, digits) =>
      if String.eqb stem "" || String.eqb digits "" then -1
      else if (String.length digits <? 9)%nat then -1
      else parseDigits 0 digits
  end.

Record EventDir := { ed_path : path; ed_timestampNs : Z; ed_sizeBytes : Z }.

(** [std::sort] by time stamp; it leaves the order of equal stamps open, and so
    does the order in which the directories are found. *)
Definition sort_dirs (dirs : list EventDir) : list EventDir :=
  fold_left (fun l d => insert_by_key ed_timestampNs d l) dirs [].

Section manager.
Context `{Listing} `{Traversal} `{Space}.

(** ** Operations *)

(** [a || b] on checks that may fail. *)
Definition or_else (a b : M bool) : M bool := x ← a; if x : bool then mret true else b.

(** The checks on one directory of the record root. *)
Definition eventDirEligible (protect : bool) (dir : path) : M bool :=
  busy ← or_else (fs_exists (pending dir))
           (or_else (fs_exists (child dir ".uploading")) (fs_exists (child dir ".uploading.tmp")));
  if busy : bool then mret false else
  complete ← fs_exists (completed dir);
  failure ← fs_exists (failed dir);
  if negb complete && negb failure then mret false
  else if protect && complete then fs_exists (child dir ".uploaded")
  else mret true.

Definition collectEntry (s : DiskSpaceManager) (name : string) (dirs : list EventDir)
    : M (list EventDir) :=
  let dir := child (recordRoot_ s) name in
  isDirectory ← is_directory dir;
  if negb isDirectory then mret dirs else
  eligible ← eventDirEligible (protectUnuploaded (policy_ s)) dir;
  if negb eligible then mret dirs else
  let timestamp := parseEventTimestamp name in
  mret (if 0 <=? timestamp
        then dirs ++ [{| ed_path := dir; ed_timestampNs := timestamp; ed_sizeBytes := 0 |}]
        else dirs).

Definition collectEventDirs (s : DiskSpaceManager) : M (list EventDir) :=
  names ← list_directory (recordRoot_ s);
  dirs ← for_each names (collectEntry s) [];
  mret (sort_dirs dirs).

Definition addFileSize (p : path) (total : Z) : M Z :=
  regular ← query (fun w => is_file w p) false;
  if negb regular then mret total else
  content ← read_file p;
  mret (match content with Some c => u64 (total + byte_size c) | None => total end).

Definition directorySize (dir : path) : M Z :=
  entries ← walk dir;
  for_each entries.1 addFileSize 0.

Definition deleteDir (d : EventDir) : M bool := remove_all (ed_path d).

(** The loop of the age limit; it returns the directories that are left. *)
Fixpoint deleteOld (cutoffNs : Z) (dirs : list EventDir) : M (list EventDir) :=
  match dirs with
  | [] => mret []
  | d :: rest =>
      if ed_timestampNs d <? cutoffNs then
        deleted ← deleteDir d;
        kept ← deleteOld cutoffNs rest;
        mret (if deleted : bool then kept else d :: kept)
      else mret dirs
  end.

(** The loop that measures the directories, and their total. *)
Definition measureDirs (dirs : list EventDir) : M (list EventDir * Z) :=
  for_each dirs (fun d acc =>
    size ← directorySize (ed_path d);
    mret (acc.1 ++ [{| ed_path := ed_path d; ed_timestampNs := ed_timestampNs d;
                       ed_sizeBytes := size |}],
          u64 (acc.2 + size))) ([], 0).

(** The loop of the capacity limit. *)
Fixpoint deleteExcess (capacity : Z) (dirs : list EventDir) (totalBytes : Z) : M unit :=
  match dirs with
  | [] => mret tt
  | d :: rest =>
      if totalBytes <=? capacity then mret tt
      else
        deleted ← deleteDir d;
        deleteExcess capacity rest
          (if deleted : bool then totalBytes - Z.min totalBytes (ed_sizeBytes d) else totalBytes)
  end.

Definition ageEnabled (p : Policy) : bool := retentionDays p >? 0.
Definition capacityEnabled (p : Policy) : bool := maxCapacityBytes p >? 0.

Definition day_ns : Z := 24 * 3600 * ns_per_s.

(** The signed arithmetic of the cutoff. *)
Definition cutoffNs (p : Policy) (now : Clocks) : res Z :=
  match checked (retentionDays p * 24 * 3600 * ns_per_s) with
  | None => Err Undefined
  | Some age => match checked (systemNowNs now - age) with None => Err Undefined | Some c => Ok c end
  end.

(** The sweep itself. *)
Definition sweep (s : DiskSpaceManager) (now : Clocks) : M unit :=
  dirs ← collectEventDirs s;
  kept ← (if ageEnabled (policy_ s) then
            cutoff ← pure (cutoffNs (policy_ s) now); deleteOld cutoff dirs
          else mret dirs);
  if capacityEnabled (policy_ s) then
    measured ← measureDirs kept;
    deleteExcess (maxCapacityBytes (policy_ s)) measured.1 measured.2
  else mret tt.

Definition enforceRetention (force : bool) (now : Clocks) (s : DiskSpaceManager) : M DiskSpaceManager :=
  if negb (ageEnabled (policy_ s)) && negb (capacityEnabled (policy_ s)) then mret s
  else if negb force && (steady_now now - lastSweep_ s <? cleanupInterval (policy_ s) * ns_per_s)
  then mret s
  else
    _ ← sweep s now;
    mret {| recordRoot_ := recordRoot_ s; policy_ := policy_ s; lastSweep_ := steady_now now |}.

(** The nearest ancestor that exists. *)
Fixpoint probe_from (p : path) : M path :=
  found ← fs_exists p;
  match p with
  | [] => mret p
  | _ :: parent => if found : bool then mret p else probe_from parent
  end.

Definition availableBytes (s : DiskSpaceManager) : M Z :=
  probe ← probe_from (recordRoot_ s);
  info ← query (fun w => available w probe) None;
  mret (match info with Some free => free | None => 0 end).

Definition prepareForWrite (now : Clocks) (s : DiskSpaceManager) : M (bool * DiskSpaceManager) :=
  let needed := minFreeBytes (policy_ s) in
  if needed =? 0 then mret (true, s) else
  free ← availableBytes s;
  if free >=? needed then mret (true, s) else
  s' ← enforceRetention true now s;
  free ← availableBytes s;
  mret (free >=? needed, s').

End manager.

Abbreviation by_time := (StronglySorted (key_le ed_timestampNs)).

(** ** What retention may delete *)

Definition expendable_dir (root : path) (w : world) (name : string) : Prop :=
  0 <= parseEventTimestamp name /\ is_dir w (child root name) = true /\
  has_verdict w (child root name) = true.

Definition spares_others (root : path) (w w' : world) : Prop :=
  clock w' = clock w /\
  forall q, files w' !! q = files w !! q \/
    files w' !! q = None /\ exists name, child root name `suffix_of` q /\ expendable_dir root w name.

Lemma spares_others_refl root w : spares_others root w w.
Proof. split; [done|]. by left. Qed.

#[export] Hint Resolve spares_others_refl : datacache.

Definition candidate (root : path) (w : world) (d : EventDir) : Prop :=
  exists name, ed_path d = child root name /\ ed_timestampNs d = parseEventTimestamp name /\
    expendable_dir root w name.

Lemma sort_dirs_fold l acc : fold_left (fun l d => insert_by_key ed_timestampNs d l) l acc ≡ₚ l ++ acc.
Proof.
  revert acc. induction l as [|d l IH]; intros acc; simpl; [done|].
  rewrite IH, (insert_by_key_perm ed_timestampNs). by rewrite Permutation_middle.
Qed.

Lemma sort_dirs_perm l : sort_dirs l ≡ₚ l.
Proof. unfold sort_dirs. by rewrite sort_dirs_fold, app_nil_r. Qed.

Lemma sort_dirs_sorted l : by_time (sort_dirs l).
Proof.
  unfold sort_dirs. cut (forall acc, by_time acc ->
    by_time (fold_left (fun l d => insert_by_key ed_timestampNs d l) l acc)).
  { intros Hc. apply Hc. constructor. }
  induction l as [|d l IH]; intros acc Ha; simpl; [done|]. by apply IH, insert_by_key_sorted.
Qed.

Section safety.
Context `{Listing} `{Traversal} `{Space}.

Lemma eventDirEligible_wp protect dir w :
  wp (eventDirEligible protect dir) (fun b w' => w' = w /\ (b = true -> has_verdict w dir = true))
    (fun _ => False) (eq w) w.
Proof.
  unfold eventDirEligible, or_else.
  assert (Hq : forall (k : bool -> M bool) p,
    (forall b, (b = true -> present w p = true) ->
       wp (k b) (fun b w' => w' = w /\ (b = true -> has_verdict w dir = true)) (fun _ => False) (eq w) w) ->
    wp (x ← fs_exists p; k x) (fun b w' => w' = w /\ (b = true -> has_verdict w dir = true))
      (fun _ => False) (eq w) w).
  { intros k p Hk. apply wp_bind, wp_check; [intros Hp; apply Hk; intros _; exact Hp|by apply Hk|done]. }
  assert (Hb : forall b, wp (if b : bool then mret false else
      (complete ← fs_exists (completed dir); failure ← fs_exists (failed dir);
       if negb complete && negb failure then mret false
       else if protect && complete then fs_exists (child dir ".uploaded") else mret true))
      (fun b w' => w' = w /\ (b = true -> has_verdict w dir = true)) (fun _ => False) (eq w) w).
  { intros [|]; [by apply wp_ret|]. apply Hq. intros c Hc. apply Hq. intros f Hf.
    assert (Hv : c || f = true -> has_verdict w dir = true).
    { unfold has_verdict. intros [->| ->]%orb_prop; apply orb_true_intro; [left|right]; auto. }
    destruct (negb c && negb f) eqn:E; [by apply wp_ret|].
    destruct (protect && c) eqn:Ep.
    - apply wp_check; [intros _; split; [done|intros _; apply Hv; lia]|done|done].
    - apply wp_ret. split; [done|]. intros _. apply Hv. lia. }
  apply wp_bind, wp_bind, wp_check; [intros _; apply wp_ret, (Hb true)| |done].
  apply wp_bind, wp_check; [intros _; apply wp_ret, (Hb true)| |done].
  apply wp_check; [intros _; apply (Hb true)|apply (Hb false)|done].
Qed.

Lemma collectEventDirs_wp s w :
  wp (collectEventDirs s)
    (fun dirs w' => w' = w /\ Forall (candidate (recordRoot_ s) w) dirs) (fun _ => False) (eq w) w.
Proof.
  apply wp_bind, list_directory_wp; [|done]. intros names _. apply wp_bind.
  eapply wp_post; [|
    apply (wp_for_each _ _ (fun _ dirs w' => w' = w /\ Forall (candidate (recordRoot_ s) w) dirs))].
  - intros dirs w' [-> Hd]. apply wp_ret. split; [done|]. by rewrite sort_dirs_perm.
  - intros prev name rest dirs w' _ [-> Hd]. unfold collectEntry.
    apply wp_bind, wp_check; [intros Hdir|by apply wp_ret|done].
    apply wp_bind. eapply wp_post; [|apply eventDirEligible_wp].
    intros b w' [-> Hb]. destruct b; [|by apply wp_ret]. cbn [negb].
    apply wp_ret. split; [done|]. destruct (0 <=? _) eqn:Ep; [|done].
    apply Forall_app. split; [done|]. apply Forall_singleton.
    exists name. repeat split; [lia|done|by apply Hb].
  - by split.
Qed.

Lemma deleteDir_wp root w d w1 :
  candidate root w d -> spares_others root w w1 ->
  wp (deleteDir d) (fun _ => spares_others root w) (fun _ => False) (spares_others root w) w1.
Proof.
  intros (name & Hp & _ & He) [Hc Hs]. apply remove_all_wp. intros w' _ Hc' Hs'.
  assert (spares_others root w w'); [|done]. split; [congruence|]. intros q.
  destruct (Hs' q) as [->|[Hn Hq]]; [apply Hs|]. right. split; [done|].
  exists name. by rewrite <- Hp.
Qed.

Lemma deleteOld_wp root w cutoff dirs w1 :
  Forall (candidate root w) dirs -> spares_others root w w1 ->
  wp (deleteOld cutoff dirs)
    (fun kept w' => Forall (candidate root w) kept /\ spares_others root w w')
    (fun _ => False) (spares_others root w) w1.
Proof.
  revert w1. induction dirs as [|d dirs IH]; intros w1 Hd Hs; simpl; [by apply wp_ret|].
  apply Forall_cons in Hd as [Hd Hds]. case_match; [|by apply wp_ret; auto].
  apply wp_bind. eapply wp_post; [|by eapply deleteDir_wp]. intros b w2 Hs2.
  apply wp_bind. eapply wp_post; [|by apply IH]. intros kept w3 [Hk Hs3].
  apply wp_ret. split; [|done]. destruct b; auto.
Qed.

Lemma directorySize_wp dir w :
  wp (directorySize dir) (fun _ w' => w' = w) (fun _ => False) (eq w) w.
Proof.
  apply wp_bind.
  assert (Hl : forall entries : list path * bool,
    wp (for_each entries.1 addFileSize 0) (fun _ w' => w' = w) (fun _ => False) (eq w) w).
  { intros entries. apply (wp_for_each _ _ (fun _ _ w' => w' = w)); [|done].
    intros prev p rest total w' _ ->. unfold addFileSize.
    apply wp_bind, wp_check; [intros _|by apply wp_ret|done].
    apply wp_bind, wp_query; [by apply wp_ret..|done]. }
  intros o. unfold walk. cbv zeta. by destruct (next o) as [[|n|n] o']; [apply Hl..|].
Qed.

Lemma measureDirs_wp root w dirs w1 :
  Forall (candidate root w) dirs ->
  wp (measureDirs dirs) (fun r w' => w' = w1 /\ Forall (candidate root w) r.1)
    (fun _ => False) (eq w1) w1.
Proof.
  intros Hd. apply (wp_for_each _ _ (fun _ r w' => w' = w1 /\ Forall (candidate root w) r.1));
    [|by split].
  intros prev d rest acc w' -> [-> Ha]. apply wp_bind.
  eapply wp_post; [|apply directorySize_wp]. intros size w' ->.
  apply wp_ret. split; [done|]. apply Forall_app. split; [done|]. apply Forall_singleton.
  rewrite Forall_forall in Hd. by apply (Hd d), elem_of_app; right; left.
Qed.

Lemma deleteExcess_wp root w capacity dirs total w1 :
  Forall (candidate root w) dirs -> spares_others root w w1 ->
  wp (deleteExcess capacity dirs total) (fun _ => spares_others root w) (fun _ => False)
    (spares_others root w) w1.
Proof.
  revert total w1. induction dirs as [|d dirs IH]; intros total w1 Hd Hs; simpl; [by apply wp_ret|].
  apply Forall_cons in Hd as [Hd Hds]. case_match; [by apply wp_ret|].
  apply wp_bind. eapply wp_post; [|by eapply deleteDir_wp]. intros b w2 Hs2. by apply IH.
Qed.

(** Within these limits the arithmetic of the cutoff does not overflow. *)
Definition policy_ok (p : Policy) : Prop := 0 <= retentionDays p <= 106751.
Definition clocks_ok (now : Clocks) : Prop := 0 <= systemNowNs now <= int64_max.

Lemma cutoffNs_ok p now :
  policy_ok p -> clocks_ok now -> cutoffNs p now = Ok (systemNowNs now - retentionDays p * day_ns).
Proof.
  unfold policy_ok, clocks_ok, cutoffNs, day_ns, ns_per_s, int64_max. intros Hp Hc.
  rewrite checked_in by (unfold int64, int64_min, int64_max; lia).
  rewrite checked_in by (unfold int64, int64_min, int64_max; lia). f_equal. lia.
Qed.

Lemma enforceRetention_wp force now s w :
  policy_ok (policy_ s) -> clocks_ok now ->
  wp (enforceRetention force now s)
    (fun s' w' => (recordRoot_ s' = recordRoot_ s /\ policy_ s' = policy_ s) /\
                  spares_others (recordRoot_ s) w w')
    (fun _ => False) (spares_others (recordRoot_ s) w) w.
Proof.
  intros Hp Hc. unfold enforceRetention.
  case_match; [by apply wp_ret; auto with datacache|].
  case_match; [by apply wp_ret; auto with datacache|].
  apply wp_bind. apply (wp_post _ (fun _ => spares_others (recordRoot_ s) w));
    [intros _ w' Hs; by apply wp_ret|].
  apply wp_bind. eapply wp_reads; [auto with datacache| |apply collectEventDirs_wp].
  intros dirs w' [-> Hd]. apply wp_bind.
  apply (wp_post _ (fun kept w' => Forall (candidate (recordRoot_ s) w) kept /\
                                    spares_others (recordRoot_ s) w w')).
  - intros kept w1 [Hk Hs]. destruct (capacityEnabled _); [|by apply wp_ret].
    apply wp_bind. eapply wp_reads; [exact Hs| |by apply measureDirs_wp].
    intros r w2 [-> Hr]. by apply deleteExcess_wp.
  - destruct (ageEnabled _); [|by apply wp_ret; auto with datacache].
    rewrite cutoffNs_ok by done. apply wp_bind, wp_ret. by apply deleteOld_wp; auto with datacache.
Qed.

(** A write is let through only when the system has reported the room. *)
Definition room_for (s : DiskSpaceManager) (w : world) : Prop :=
  minFreeBytes (policy_ s) = 0 \/
  exists probe free, probe `suffix_of` recordRoot_ s /\ available w probe = Some free /\
    minFreeBytes (policy_ s) <= free.

Lemma probe_from_wp p w :
  wp (probe_from p) (fun probe w' => w' = w /\ probe `suffix_of` p) (fun _ => False) (eq w) w.
Proof.
  induction p as [|name p IH]; simpl; apply wp_bind, wp_check; try done; try (intros _);
    try by apply wp_ret.
  eapply wp_post; [|exact IH]. intros probe w' [-> Hs]. split; [done|]. by apply suffix_cons_r.
Qed.

Lemma availableBytes_wp s w :
  0 < minFreeBytes (policy_ s) ->
  wp (availableBytes s)
    (fun free w' => w' = w /\ (minFreeBytes (policy_ s) <= free -> room_for s w))
    (fun _ => False) (eq w) w.
Proof.
  intros Hpos. apply wp_bind. eapply wp_post; [|apply probe_from_wp]. intros probe w' [-> Hp].
  apply wp_bind, wp_query; [apply wp_ret|apply wp_ret|done]; (split; [done|]).
  - destruct (available w probe) as [free|] eqn:Ea; intros Hle; [|lia]. right. by exists probe, free.
  - lia.
Qed.

Lemma prepareForWrite_wp now s w :
  policy_ok (policy_ s) -> clocks_ok now -> 0 <= minFreeBytes (policy_ s) ->
  wp (prepareForWrite now s)
    (fun r w' => (recordRoot_ r.2 = recordRoot_ s /\ policy_ r.2 = policy_ s) /\
                 spares_others (recordRoot_ s) w w' /\ (r.1 = true -> room_for s w'))
    (fun _ => False) (spares_others (recordRoot_ s) w) w.
Proof.
  intros Hp Hc Hm. unfold prepareForWrite.
  destruct (Z.eqb_spec (minFreeBytes (policy_ s)) 0) as [E|E].
  { apply wp_ret. split; [done|]. split; [auto with datacache|]. intros _. by left. }
  apply wp_bind. eapply wp_reads; [auto with datacache| |apply availableBytes_wp; lia].
  intros free w' [-> Hfree]. destruct (free >=? _) eqn:Ef.
  { apply wp_ret. split; [done|]. split; [auto with datacache|]. intros _. apply Hfree. lia. }
  apply wp_bind. eapply wp_post; [|by apply enforceRetention_wp]. intros s' w1 [Hs' Hs].
  apply wp_bind. eapply wp_reads; [exact Hs| |apply availableBytes_wp; lia].
  intros free' w' [-> Hfree']. apply wp_ret. split; [done|]. split; [done|].
  intros Hge. apply Hfree'. simpl in Hge. lia.
Qed.

End safety.

(** ** A sweep without faults *)

(** The directories retention may consider: settled, not in use and, where
    uploads are protected, uploaded or failed. *)
Definition expendable (protect : bool) (w : world) (dir : path) : bool :=
  negb (present w (pending dir) || present w (child dir ".uploading") ||
        present w (child dir ".uploading.tmp")) &&
  has_verdict w dir &&
  (negb (protect && present w (completed dir)) || present w (child dir ".uploaded")).

Definition eligible (protect : bool) (w : world) (root : path) (name : string) : bool :=
  is_dir w (child root name) && expendable protect w (child root name) &&
  (0 <=? parseEventTimestamp name).

Definition event_dir_of (root : path) (name : string) : EventDir :=
  {| ed_path := child root name; ed_timestampNs := parseEventTimestamp name; ed_sizeBytes := 0 |}.

Definition event_dirs `{Listing} (s : DiskSpaceManager) (w : world) : list EventDir :=
  sort_dirs (event_dir_of (recordRoot_ s) <$>
    List.filter (eligible (protectUnuploaded (policy_ s)) w (recordRoot_ s))
      (listing (children w (recordRoot_ s)))).

Definition node_size (w : world) (q : path) : Z :=
  match files w !! q with Some (File c _) => byte_size c | _ => 0 end.

Definition nodes_size (w : world) (qs : list path) : Z := foldr (fun q n => node_size w q + n) 0 qs.

Definition tree_size (w : world) (dir : path) : Z := nodes_size w (descendants w dir).

Definition dirs_size (w : world) (dirs : list EventDir) : Z :=
  foldr (fun d n => tree_size w (ed_path d) + n) 0 dirs.

(** [w'] is [w] without the trees of [victims]. *)
Definition gone (victims : list EventDir) (w w' : world) : Prop :=
  clock w' = clock w /\
  forall q, files w' !! q =
    if decide (Exists (fun d => ed_path d `suffix_of` q) victims) then None else files w !! q.

Lemma gone_nil w : gone [] w w.
Proof. split; [done|]. intros q. rewrite decide_False; [done|]. by intros ?%Exists_nil. Qed.

Lemma gone_app v1 v2 w w1 w2 : gone v1 w w1 -> gone v2 w1 w2 -> gone (v1 ++ v2) w w2.
Proof.
  intros [Hc1 H1] [Hc2 H2]. split; [congruence|]. intros q. rewrite H2, H1.
  destruct (decide (Exists _ v2)) as [E2|E2].
  - rewrite decide_True; [done|]. apply Exists_app. by right.
  - destruct (decide (Exists _ v1)) as [E1|E1].
    + rewrite decide_True; [done|]. apply Exists_app. by left.
    + rewrite decide_False; [done|]. intros [?|?]%Exists_app; done.
Qed.

Lemma node_size_nonneg w q : 0 <= node_size w q.
Proof. unfold node_size. repeat case_match; auto with datacache; lia. Qed.

Lemma nodes_size_nonneg w qs : 0 <= nodes_size w qs.
Proof. induction qs as [|q qs IH]; simpl; [lia|]. pose proof (node_size_nonneg w q). lia. Qed.

Lemma nodes_size_app w l1 l2 : nodes_size w (l1 ++ l2) = nodes_size w l1 + nodes_size w l2.
Proof. induction l1 as [|q l1 IH]; simpl; [lia|]. rewrite IH. lia. Qed.

Lemma nodes_size_perm w l1 l2 : l1 ≡ₚ l2 -> nodes_size w l1 = nodes_size w l2.
Proof. induction 1; simpl; lia. Qed.

Lemma tree_size_nonneg w d : 0 <= tree_size w d.
Proof. apply nodes_size_nonneg. Qed.

Lemma dirs_size_nonneg w dirs : 0 <= dirs_size w dirs.
Proof. induction dirs as [|d dirs IH]; simpl; [lia|]. pose proof (tree_size_nonneg w (ed_path d)). lia. Qed.

Lemma dirs_size_app w l1 l2 : dirs_size w (l1 ++ l2) = dirs_size w l1 + dirs_size w l2.
Proof. induction l1 as [|d l1 IH]; simpl; [lia|]. rewrite IH. lia. Qed.

#[export] Hint Resolve node_size_nonneg nodes_size_nonneg tree_size_nonneg dirs_size_nonneg : datacache.

Definition measured (w : world) (d : EventDir) : EventDir :=
  {| ed_path := ed_path d; ed_timestampNs := ed_timestampNs d; ed_sizeBytes := tree_size w (ed_path d) |}.

Section faultless.
Context `{Listing} `{Traversal} `{Space}.

Lemma eventDirEligible_returns protect w dir :
  returns (eventDirEligible protect dir) w (expendable protect w dir) w.
Proof.
  unfold expendable, returns, eventDirEligible, or_else, has_verdict, fs_exists, query, mbind, M_bind.
  destruct (present w (pending dir)) eqn:E1, (present w (child dir ".uploading")) eqn:E2,
    (present w (child dir ".uploading.tmp")) eqn:E3, (present w (completed dir)) eqn:E4,
    (present w (failed dir)) eqn:E5, protect;
    repeat (progress (cbn [next negb orb andb mret M_ret]; rewrite ?E1, ?E2, ?E3, ?E4, ?E5));
    reflexivity.
Qed.

Lemma collectEntry_returns s w name dirs :
  returns (collectEntry s name dirs) w
    (dirs ++ (event_dir_of (recordRoot_ s) <$>
       List.filter (eligible (protectUnuploaded (policy_ s)) w (recordRoot_ s)) [name])) w.
Proof.
  simpl List.filter. unfold collectEntry, eligible. eapply returns_bind; [reflexivity|].
  destruct (is_dir w (child (recordRoot_ s) name)); cbn [negb andb].
  2: { simpl. by rewrite app_nil_r. }
  eapply returns_bind; [apply eventDirEligible_returns|].
  destruct (expendable _ w _); cbn [negb andb]; [|simpl; by rewrite app_nil_r].
  destruct (0 <=? _); simpl; [done|by rewrite app_nil_r].
Qed.

Lemma collectEventDirs_returns s w :
  is_dir w (recordRoot_ s) = true -> returns (collectEventDirs s) w (event_dirs s w) w.
Proof.
  intros Hd. eapply returns_bind; [by apply list_directory_returns|].
  destruct (returns_for_each (listing (children w (recordRoot_ s))) (collectEntry s)
    (fun names dirs w' => w' = w /\ dirs = event_dir_of (recordRoot_ s) <$>
       List.filter (eligible (protectUnuploaded (policy_ s)) w (recordRoot_ s)) names) [] w)
    as (dirs & w' & Hr & -> & ->); [|by split|].
  - intros prev name rest dirs w' _ [-> ->]. eexists _, w. split; [apply collectEntry_returns|].
    split; [done|]. by rewrite List.filter_app, fmap_app.
  - eapply returns_bind; [exact Hr|]. reflexivity.
Qed.

Lemma directorySize_returns w dir :
  is_dir w dir = true -> tree_size w dir < 2 ^ 64 -> returns (directorySize dir) w (tree_size w dir) w.
Proof.
  intros Hd Hsz. pose proof (nodes_size_perm w _ _ (traversal_perm (descendants w dir))) as Hperm.
  fold (tree_size w dir) in Hperm. set (entries := traversal (descendants w dir)) in *.
  eapply returns_bind; [unfold returns, walk; simpl; by rewrite Hd|]. cbn [fst]. fold entries.
  destruct (returns_for_each entries addFileSize
    (fun qs total w' => w' = w /\ total = nodes_size w qs) 0 w)
    as (total & w' & Hr & -> & ->); [|by split|by rewrite <- Hperm].
  intros prev q rest total w' Hl [-> ->]. exists (nodes_size w (prev ++ [q])), w. split; [|by split].
  assert (Hle : nodes_size w (prev ++ [q]) < 2 ^ 64).
  { rewrite Hl, nodes_size_app in Hperm. simpl in Hperm. rewrite nodes_size_app. simpl.
    pose proof (nodes_size_nonneg w rest). lia. }
  pose proof (nodes_size_nonneg w (prev ++ [q])). rewrite nodes_size_app in *. simpl in *.
  unfold node_size in *. eapply returns_bind; [reflexivity|]. unfold is_file.
  destruct (files w !! q) as [[c t| |]|] eqn:El; cbn [negb]; unfold returns, mret, M_ret;
    [|do 2 f_equal; lia..].
  eapply returns_bind; [unfold returns, read_file, query; simpl; by rewrite El|].
  unfold returns, mret, M_ret. do 2 f_equal. rewrite u64_small; lia.
Qed.

Lemma deleteDir_returns d w :
  exists w', returns (deleteDir d) w true w' /\ gone [d] w w'.
Proof.
  destruct (remove_all_returns (ed_path d) w) as (w' & Hr & Hc & Hl). exists w'. split; [done|].
  split; [done|]. intros q. rewrite Hl. case_decide as H3; case_decide as H4; try done.
  - destruct H4. by apply Exists_cons; left.
  - by apply Exists_cons in H4 as [?|?%Exists_nil].
Qed.

Lemma deleteOld_returns cutoff dirs w :
  by_time dirs ->
  exists victims kept w', returns (deleteOld cutoff dirs) w kept w' /\ dirs = victims ++ kept /\
    gone victims w w' /\ Forall (fun d => ed_timestampNs d < cutoff) victims /\
    Forall (fun d => cutoff <= ed_timestampNs d) kept.
Proof.
  revert w. induction dirs as [|d dirs IH]; intros w Hs; simpl.
  { exists [], [], w. repeat split; try constructor; apply gone_nil. }
  destruct (Z.ltb_spec (ed_timestampNs d) cutoff) as [Hlt|Hge].
  - destruct (deleteDir_returns d w) as (w1 & Hr1 & Hg1).
    destruct (IH w1) as (v & k & w2 & Hr2 & -> & Hg2 & Hv & Hk); [by inversion Hs|].
    exists (d :: v), k, w2. split; [|split; [done|split; [by apply (gone_app [d] v w w1 w2)|by auto]]].
    eapply returns_bind; [exact Hr1|]. eapply returns_bind; [exact Hr2|]. done.
  - exists [], (d :: dirs), w. split; [done|]. split; [done|]. split; [apply gone_nil|]. split; [done|].
    apply StronglySorted_inv in Hs as [_ Hs]. constructor; [done|].
    eapply Forall_impl; [exact Hs|]. unfold key_le. intros; lia.
Qed.

Lemma measureDirs_returns w dirs :
  Forall (fun d => is_dir w (ed_path d) = true) dirs -> dirs_size w dirs < 2 ^ 64 ->
  returns (measureDirs dirs) w (measured w <$> dirs, dirs_size w dirs) w.
Proof.
  intros Hd Hsz.
  destruct (returns_for_each dirs (fun d acc =>
    size ← directorySize (ed_path d);
    mret (acc.1 ++ [{| ed_path := ed_path d; ed_timestampNs := ed_timestampNs d;
                       ed_sizeBytes := size |}], u64 (acc.2 + size)))
    (fun ds acc w' => w' = w /\ acc = (measured w <$> ds, dirs_size w ds)) ([], 0) w)
    as (acc & w' & Hr & -> & ->); [|by split|done].
  intros prev d rest acc w' -> [-> ->]. rewrite dirs_size_app in Hsz. simpl in Hsz.
  pose proof (dirs_size_nonneg w prev). pose proof (dirs_size_nonneg w rest).
  pose proof (tree_size_nonneg w (ed_path d)).
  eexists _, w. split; [eapply returns_bind; [apply directorySize_returns; [|lia]|reflexivity]|].
  - rewrite Forall_forall in Hd. apply Hd, elem_of_app. right. by left.
  - split; [done|]. cbn [fst snd]. rewrite fmap_app, dirs_size_app. simpl. f_equal.
    rewrite u64_small; lia.
Qed.

(** Sizes are those of an earlier state [w0]. *)
Lemma deleteExcess_returns w0 capacity dirs w :
  exists victims kept w',
    returns (deleteExcess capacity (measured w0 <$> dirs) (dirs_size w0 dirs)) w tt w' /\
    dirs = victims ++ kept /\ gone victims w w' /\
    (kept = [] \/ dirs_size w0 kept <= capacity) /\
    (forall v1 d v2, victims = v1 ++ d :: v2 -> capacity < dirs_size w0 (d :: v2 ++ kept)).
Proof.
  revert w. induction dirs as [|d dirs IH]; intros w.
  { exists [], [], w. split; [done|split; [done|split; [apply gone_nil|split; [by left|]]]]. by intros [|] ? ? ?. }
  cbn [fmap list_fmap deleteExcess]. destruct (Z.leb_spec (dirs_size w0 (d :: dirs)) capacity).
  { exists [], (d :: dirs), w. split; [done|split; [done|split; [apply gone_nil|split; [by right|]]]]. by intros [|] ? ? ?. }
  destruct (deleteDir_returns d w) as (w1 & Hr1 & Hg1).
  destruct (IH w1) as (v & k & w2 & Hr2 & -> & Hg2 & Hk & Hv).
  exists (d :: v), k, w2. split; [|split; [done|split; [|split; [done|]]]].
  - eapply returns_bind; [exact Hr1|]. cbn [ed_sizeBytes measured dirs_size foldr] in *.
    fold (dirs_size w0 (v ++ k)) in *. pose proof (dirs_size_nonneg w0 (v ++ k)).
    replace (_ - _) with (dirs_size w0 (v ++ k)) by lia. exact Hr2.
  - apply (gone_app [d] v w w1 w2); [exact Hg1|exact Hg2].
  - intros [|x v1] d' v2 [= -> ->]; [done|]. by apply (Hv v1).
Qed.

(** Deleting some event directories leaves the others alone. *)
Lemma gone_others root victims w w' name :
  Forall (fun d => exists n, ed_path d = child root n /\ n <> name) victims -> gone victims w w' ->
  forall q, child root name `suffix_of` q -> files w' !! q = files w !! q.
Proof.
  intros Hv [_ Hg] q Hq. rewrite Hg, decide_False; [done|]. intros He.
  apply Exists_exists in He as (d & Hd & Hs). rewrite Forall_forall in Hv.
  destruct (Hv d Hd) as (n & Hp & Hne). rewrite Hp in Hs. by apply Hne, (child_below root n name q).
Qed.

Lemma event_dirs_candidates s w :
  Forall (fun d => exists name, d = event_dir_of (recordRoot_ s) name /\
    eligible (protectUnuploaded (policy_ s)) w (recordRoot_ s) name = true) (event_dirs s w).
Proof.
  unfold event_dirs. rewrite sort_dirs_perm. apply Forall_fmap, Forall_forall. intros name Hn.
  apply list_elem_of_In, filter_In in Hn as [_ He]. by exists name.
Qed.

Lemma event_dirs_NoDup s w : NoDup (ed_path <$> event_dirs s w).
Proof.
  unfold event_dirs. rewrite sort_dirs_perm. rewrite <- list_fmap_compose.
  apply NoDup_fmap_2; [by intros ?? [= ->]|].
  apply NoDup_ListNoDup, List.NoDup_filter, NoDup_ListNoDup. rewrite listing_perm. apply children_NoDup.
Qed.

(** After the age limit, what is left is as it was. *)
Lemma kept_untouched s w w1 victims kept d :
  event_dirs s w = victims ++ kept -> gone victims w w1 -> d ∈ kept ->
  is_dir w1 (ed_path d) = true /\ tree_size w1 (ed_path d) = tree_size w (ed_path d).
Proof.
  intros He Hg Hd. pose proof (event_dirs_candidates s w) as Hc. pose proof (event_dirs_NoDup s w) as Hnd.
  rewrite He in Hc, Hnd. rewrite fmap_app in Hnd. apply NoDup_app in Hnd as (_ & Hdis & _).
  apply Forall_app in Hc as [Hcv Hck]. rewrite Forall_forall in Hcv, Hck.
  destruct (Hck d Hd) as (name & -> & Hel). cbn [ed_path event_dir_of].
  assert (Hsame : forall q, child (recordRoot_ s) name `suffix_of` q -> files w1 !! q = files w !! q).
  { apply (gone_others _ victims); [|done]. apply Forall_forall. intros v Hv.
    destruct (Hcv v Hv) as (n & -> & _). exists n. split; [done|]. intros ->.
    apply (Hdis (child (recordRoot_ s) name)); by apply (list_elem_of_fmap_2 ed_path _ (event_dir_of (recordRoot_ s) name)). }
  unfold eligible in Hel. split.
  - unfold is_dir in *. cbn [child] in *. rewrite Hsame by reflexivity. by destruct (files w !! _) as [[]|].
  - unfold tree_size. rewrite (descendants_ext w w1) by (intros q [Hq _]; by apply Hsame).
    assert (Hall : Forall (below (child (recordRoot_ s) name)) (descendants w (child (recordRoot_ s) name))).
    { apply Forall_forall. intros q Hq. by apply elem_of_descendants in Hq as [Hq _]. }
    induction Hall as [|q qs [Hq _] _ IH]; simpl; [done|]. rewrite IH. f_equal.
    unfold node_size. by rewrite Hsame.
Qed.

Lemma dirs_size_ext w w1 dirs :
  (forall d, d ∈ dirs -> tree_size w1 (ed_path d) = tree_size w (ed_path d)) ->
  dirs_size w1 dirs = dirs_size w dirs.
Proof.
  induction dirs as [|d dirs IH]; intros He; simpl; [done|].
  rewrite (He d) by by left. rewrite IH; [done|]. intros x Hx. apply He. by right.
Qed.

(** The age limit of [sweep]. *)
Definition too_old_dir (p : Policy) (now : Clocks) (d : EventDir) : Prop :=
  ageEnabled p = true /\ ed_timestampNs d < systemNowNs now - retentionDays p * day_ns.

Lemma sweep_returns s now w :
  let p := policy_ s in
  policy_ok p -> clocks_ok now -> is_dir w (recordRoot_ s) = true ->
  dirs_size w (event_dirs s w) < 2 ^ 64 ->
  exists victims kept w', returns (sweep s now) w tt w' /\ event_dirs s w = victims ++ kept /\
    gone victims w w' /\
    Forall (fun d => ~ too_old_dir p now d) kept /\
    (capacityEnabled p = true -> kept = [] \/ dirs_size w kept <= maxCapacityBytes p) /\
    (forall v1 d v2, victims = v1 ++ d :: v2 ->
       too_old_dir p now d \/
       capacityEnabled p = true /\ maxCapacityBytes p < dirs_size w (d :: v2 ++ kept)).
Proof.
  intros p Hp Hc Hd Hsz. unfold sweep. fold p.
  assert (Hage : exists v k w1, returns (if ageEnabled p then
      cutoff ← pure (cutoffNs p now); deleteOld cutoff (event_dirs s w) else mret (event_dirs s w)) w k w1 /\
    event_dirs s w = v ++ k /\ gone v w w1 /\ Forall (too_old_dir p now) v /\
    Forall (fun d => ~ too_old_dir p now d) k).
  { unfold too_old_dir. destruct (ageEnabled p).
    - rewrite cutoffNs_ok by done.
      destruct (deleteOld_returns (systemNowNs now - retentionDays p * day_ns) (event_dirs s w) w)
        as (v & k & w1 & Hr & He & Hg & Hv & Hk); [apply sort_dirs_sorted|].
      exists v, k, w1. repeat split; try apply Hg; try done.
      + by eapply Forall_impl.
      + eapply Forall_impl; [exact Hk|]. intros d Hle [_ Hlt]. cbn beta in *. lia.
    - exists [], (event_dirs s w), w. split; [done|]. split; [done|]. split; [apply gone_nil|].
      split; [done|]. apply Forall_true. by intros d []. }
  destruct Hage as (v1 & k1 & w1 & Hr1 & He1 & Hg1 & Hv1 & Hk1).
  assert (Hkeep : forall d, d ∈ k1 -> is_dir w1 (ed_path d) = true /\
    tree_size w1 (ed_path d) = tree_size w (ed_path d)) by (intros d; by apply (kept_untouched s w w1 v1)).
  assert (Hext : forall k, (forall d, d ∈ k -> d ∈ k1) -> dirs_size w1 k = dirs_size w k)
    by (intros k Hk; apply dirs_size_ext; intros d Hdk; by apply Hkeep, Hk).
  destruct (capacityEnabled p) eqn:Ecap.
  2: { exists v1, k1, w1. split; [|split; [done|split; [done|split; [done|split; [done|] ]]]].
    - eapply returns_bind; [by apply collectEventDirs_returns|]. by eapply returns_bind.
    - intros a d b ->. left. rewrite Forall_forall in Hv1. by apply Hv1, elem_of_app; right; left. }
  destruct (deleteExcess_returns w1 (maxCapacityBytes p) k1 w1)
    as (v2 & k2 & w2 & Hr2 & -> & Hg2 & Hk2 & Hv2).
  exists (v1 ++ v2), k2, w2. split; [|split; [by rewrite <- (assoc_L (++))|split; [by eapply gone_app|]]].
  - eapply returns_bind; [by apply collectEventDirs_returns|]. eapply returns_bind; [exact Hr1|].
    eapply returns_bind; [apply measureDirs_returns|exact Hr2].
    + apply Forall_forall. intros d Hd'. by apply Hkeep.
    + rewrite Hext by done. rewrite He1, dirs_size_app in Hsz. pose proof (dirs_size_nonneg w v1). lia.
  - apply Forall_app in Hk1 as [_ Hk1]. split; [done|]. split; [intros _|].
    { destruct Hk2; [by left|right]. rewrite <- Hext; [done|]. set_solver. }
    intros a d b Hab.
    apply app_eq_inv in Hab as [(l & -> & Hab)|(l & -> & Hab)].
    + destruct l as [|x l]; cbn [app] in Hab; [|injection Hab as <- ->].
      * right. split; [done|]. rewrite <- Hext; [by apply (Hv2 [])|]. set_solver.
      * left. rewrite Forall_forall in Hv1. by apply Hv1, elem_of_app; right; left.
    + right. split; [done|]. rewrite <- Hext; [by apply (Hv2 l)|]. set_solver.
Qed.

End faultless.

(** ** Time stamps in names *)

Lemma isdigit_range c : isdigit c = true -> 0 <= digit c <= 9.
Proof. unfold isdigit, digit. lia. Qed.

Lemma digits_value_ge v s : 0 <= v -> str_all isdigit s = true -> v <= digits_value v s.
Proof.
  revert v. induction s as [|c s IH]; intros v Hv; simpl; [lia|].
  intros [Hc%isdigit_range Hs]%andb_true_iff. specialize (IH (10 * v + digit c)). lia.
Qed.

Lemma digits_value_lt v s :
  0 <= v -> str_all isdigit s = true ->
  digits_value v s < (v + 1) * 10 ^ Z.of_nat (String.length s).
Proof.
  revert v. induction s as [|c s IH]; intros v Hv; cbn [digits_value str_all String.length]; [lia|].
  intros [Hc%isdigit_range Hs]%andb_true_iff. specialize (IH (10 * v + digit c) ltac:(lia) Hs).
  replace (Z.of_nat (S (String.length s))) with (Z.succ (Z.of_nat (String.length s))) by lia.
  rewrite Z.pow_succ_r by lia. nia.
Qed.

(** The digit loop computes the number without overflow or refuses it. *)
Lemma parseDigits_spec v s :
  0 <= v <= int64_max ->
  parseDigits v s = if str_all isdigit s && (digits_value v s <=? int64_max) then digits_value v s else -1.
Proof.
  revert v. induction s as [|c s IH]; intros v Hv; simpl.
  { by replace (v <=? int64_max) with true by lia. }
  destruct (isdigit c) eqn:Hc; simpl; [|done]. apply isdigit_range in Hc.
  assert (Hdiv : v > (int64_max - digit c) / 10 <-> int64_max < 10 * v + digit c).
  { pose proof (Z.div_mod (int64_max - digit c) 10). pose proof (Z.mod_pos_bound (int64_max - digit c) 10). lia. }
  destruct (v >? _) eqn:E.
  - destruct (str_all isdigit s) eqn:Hs; [|done].
    pose proof (digits_value_ge (10 * v + digit c) s). replace (_ <=? _) with false by lia. done.
  - rewrite IH by lia. by rewrite (Z.mul_comm v 10).
Qed.

Lemma digit_not_underscore s : str_all isdigit s = true -> lacks "_" s.
Proof. by apply lacks_of_class. Qed.

Lemma parseEventTimestamp_Some name ts :
  0 <= ts ->
  parseEventTimestamp name = ts <->
  exists stem digits, name = stem +:+ "_" +:+ digits /\ stem <> "" /\
    str_all isdigit digits = true /\ (9 <= String.length digits)%nat /\
    digits_value 0 digits = ts /\ ts <= int64_max.
Proof.
  intros Hts. unfold parseEventTimestamp. split.
  - destruct (cut_last "_" name) as [[stem digits]|] eqn:E; [|lia].
    apply cut_last_Some in E as [-> Hl].
    destruct (String.eqb_spec stem ""), (String.eqb_spec digits ""); simpl; try lia.
    destruct (Nat.ltb_spec (String.length digits) 9); [lia|].
    rewrite parseDigits_spec by (unfold int64_max; lia).
    destruct (str_all isdigit digits) eqn:Hd, (Z.leb_spec (digits_value 0 digits) int64_max); simpl;
      intros; try lia.
    exists stem, digits. repeat split; auto; lia.
  - intros (stem & digits & -> & Hs & Hd & Hlen & Hv & Hmax).
    change (stem +:+ "_" +:+ digits) with (stem +:+ String "_" digits).
    rewrite cut_last_app by (by apply digit_not_underscore).
    destruct (String.eqb_spec stem ""), (String.eqb_spec digits ""); simpl; try done; [subst; simpl in Hlen; lia|].
    destruct (Nat.ltb_spec (String.length digits) 9); [lia|].
    rewrite parseDigits_spec by (unfold int64_max; lia). rewrite Hd, Hv.
    by replace (ts <=? int64_max) with true by lia.
Qed.

(** Every time the system clock shows since 1970-01-01T00:00:00.1 has enough
    digits, so the names the program makes are recognised. *)
Lemma parseEventTimestamp_name stem ns :
  stem <> "" -> 10 ^ 8 <= ns <= int64_max -> parseEventTimestamp (stem +:+ "_" +:+ to_string ns) = ns.
Proof.
  intros Hs Hns. apply parseEventTimestamp_Some; [lia|].
  destruct (to_string_nonneg ns) as (Hd & Hv & _); [lia|].
  exists stem, (to_string ns). split; [done|]. split; [done|]. split; [done|].
  split; [|split; [done|lia]]. apply Nat.nlt_ge. intros Hlt.
  pose proof (digits_value_lt 0 (to_string ns) ltac:(lia) Hd) as Hb. rewrite Hv in Hb.
  assert (10 ^ Z.of_nat (String.length (to_string ns)) <= 10 ^ 8) by (apply Z.pow_le_mono_r; lia). lia.
Qed.

(** ** What the manager promises *)

(** The successive readings of the clocks. *)
Class Readings := { reading : nat -> Clocks; reading_ok n : clocks_ok (reading n) }.

Section interface.
Context `{Listing} `{Traversal} `{Space} `{Readings}.

#[export] Instance disk_manager : DiskManager := {
  disk_state := nat * DiskSpaceManager;
  StorageWorker.prepareForWrite d :=
    r ← prepareForWrite (reading d.1) d.2; mret (r.1, (S d.1, r.2));
  StorageWorker.enforceRetention force d :=
    s ← enforceRetention force (reading d.1) d.2; mret (S d.1, s)
}.

Definition manager_ok (root : path) (d : disk_state) : Prop :=
  recordRoot_ d.2 = root /\ policy_ok (policy_ d.2) /\ 0 <= minFreeBytes (policy_ d.2).

Lemma spares_others_spares root w w' : spares_others root w w' -> spares root w w'.
Proof.
  intros [Hc Hs]. split; [done|]. intros q.
  destruct (Hs q) as [?|[? (name & ? & _ & _ & Hv)]]; [by left|right]. eauto.
Qed.

#[export] Instance disk_manager_spec root : DiskSpec root.
Proof.
  refine {| disk_ok := manager_ok root |}.
  - intros [n s] w (Hr & Hp & Hm). apply wp_bind. simpl in *. subst root.
    eapply wp_mono; [| |intros w'; apply spares_others_spares|
      apply prepareForWrite_wp; [done|apply reading_ok|done]]; [|done].
    intros r w' ([Hr' Hp'] & Hs & _). apply wp_ret. split; [|by apply spares_others_spares].
    unfold manager_ok. simpl. by rewrite Hr', Hp'.
  - intros force [n s] w (Hr & Hp & Hm). apply wp_bind. simpl in *. subst root.
    eapply wp_mono; [| |intros w'; apply spares_others_spares|
      apply enforceRetention_wp; [done|apply reading_ok]]; [|done].
    intros s' w' ([Hr' Hp'] & Hs). apply wp_ret. split; [|by apply spares_others_spares].
    unfold manager_ok. simpl. by rewrite Hr', Hp'.
Defined.

(** C23. Whatever I/O errors occur and wherever the process dies, neither a
    sweep nor the check before a write changes anything except by deleting
    from direct subdirectories of the record root whose name ends in a time
    stamp and which carry [.complete] or [.failed], so that a directory without
    a verdict stays however old it is ([unmarked_events_stay] below); and the
    check lets a write through only when the system has reported enough free
    space. *)
Theorem retention_safe force now s w :
  policy_ok (policy_ s) -> clocks_ok now -> 0 <= minFreeBytes (policy_ s) ->
  wp (enforceRetention force now s) (fun _ => spares_others (recordRoot_ s) w) (fun _ => False)
    (spares_others (recordRoot_ s) w) w /\
  wp (prepareForWrite now s)
    (fun r w' => spares_others (recordRoot_ s) w w' /\ (r.1 = true -> room_for s w'))
    (fun _ => False) (spares_others (recordRoot_ s) w) w.
Proof.
  intros Hp Hc Hm. split.
  - eapply wp_post; [|by apply enforceRetention_wp]. by intros s' w' [_ Hs].
  - eapply wp_post; [|by apply prepareForWrite_wp]. by intros r w' [_ Hs].
Qed.

(** C24. When nothing goes wrong, a limit is set and a sweep is due, it deletes a
    first part, in the order of the time stamps, of the eligible event
    directories: those with a verdict that are neither being written nor
    uploaded and need not wait for their upload.  It changes nothing else.
    Afterwards no eligible one is older than the age limit, and the eligible
    ones that are left fit the capacity together or there is none; and each
    deleted one was too old or, with the eligible ones younger than it, exceeded
    the capacity.  What other directories hold counts for neither limit. *)
Theorem retention_exact force now s w :
  let p := policy_ s in
  policy_ok p -> clocks_ok now -> is_dir w (recordRoot_ s) = true ->
  dirs_size w (event_dirs s w) < 2 ^ 64 ->
  ageEnabled p || capacityEnabled p = true ->
  force = true \/ cleanupInterval p * ns_per_s <= steady_now now - lastSweep_ s ->
  exists victims kept w',
    returns (enforceRetention force now s) w
      {| recordRoot_ := recordRoot_ s; policy_ := p; lastSweep_ := steady_now now |} w' /\
    event_dirs s w = victims ++ kept /\ gone victims w w' /\
    Forall (fun d => ~ too_old_dir p now d) kept /\
    (capacityEnabled p = true -> kept = [] \/ dirs_size w kept <= maxCapacityBytes p) /\
    (forall v1 d v2, victims = v1 ++ d :: v2 ->
       too_old_dir p now d \/
       capacityEnabled p = true /\ maxCapacityBytes p < dirs_size w (d :: v2 ++ kept)).
Proof.
  intros p Hp Hc Hd Hsz Hon Hdue.
  destruct (sweep_returns s now w Hp Hc Hd Hsz) as (v & k & w' & Hr & Hrest).
  exists v, k, w'. split; [|exact Hrest]. unfold enforceRetention. fold p.
  destruct (negb (ageEnabled p) && negb (capacityEnabled p)) eqn:E1; [lia|].
  destruct (negb force && _) eqn:E2; [lia|]. by eapply returns_bind.
Qed.

End interface.

(** A directory name carries the time stamp [ts] exactly when it ends in an
    underscore, with something before it, and at least nine digits of value
    [ts] that fits 63 bits; every other name is refused with [-1].  The names
    the program gives to events are recognised. *)
Theorem parseEventTimestamp_names name stem ns :
  (parseEventTimestamp name = -1 \/ 0 <= parseEventTimestamp name) /\
  (forall ts, 0 <= ts -> parseEventTimestamp name = ts <->
     exists stem digits, name = stem +:+ "_" +:+ digits /\ stem <> "" /\
       str_all isdigit digits = true /\ (9 <= String.length digits)%nat /\
       digits_value 0 digits = ts /\ ts <= int64_max) /\
  (stem <> "" -> 10 ^ 8 <= ns <= int64_max ->
     parseEventTimestamp (stem +:+ "_" +:+ to_string ns) = ns).
Proof.
  split; [|split; [by apply parseEventTimestamp_Some|by apply parseEventTimestamp_name]].
  unfold parseEventTimestamp. destruct (cut_last "_" name) as [[a b]|]; [|by left].
  do 2 (case_match; [by left|]). rewrite parseDigits_spec by (unfold int64_max; lia).
  destruct (str_all isdigit b) eqn:E; simpl; [|by left]. case_match; [|by left].
  right. by apply digits_value_ge.
Qed.

Lemma parseEventTimestamp_names_witness :
  parseEventTimestamp ("hard_brake_0" +:+ "_" +:+ to_string 1700000000000000000) = 1700000000000000000.
Proof.
  apply (parseEventTimestamp_names "" "hard_brake_0" 1700000000000000000); [done|].
  vm_compute; by split.
Defined.

(** ** Samples *)

Definition no_space : Space := {| available := fun _ _ => Some 0 |}.

Definition sample_root : path := ["records"%string].

Definition sample_event (stamp marker : string) : list (path * node) :=
  let dir := child sample_root ("brake_0_" +:+ stamp) in
  [(dir, Dir); (child dir marker, File "" 0); (child dir "data.bin", File "0123456789" 0)].

Definition sample_world : world :=
  {| files := list_to_map ((sample_root, Dir) :: sample_event "1700000000000000000" ".complete" ++
       sample_event "1700000000000000001" ".failed" ++ sample_event "1700000000000000002" ".pending");
     clock := 0 |}.

Definition sample_manager : DiskSpaceManager :=
  newDiskSpaceManager sample_root
    {| minFreeBytes := 0; maxCapacityBytes := 15; retentionDays := 30; cleanupInterval := 60;
       protectUnuploaded := false |} {| steady_now := 0; systemNowNs := 0 |}.

Definition sample_now : Clocks := {| steady_now := 1; systemNowNs := 1700000000000000003 |}.

(** One of the two settled directories has to go, and the older one does. *)
Example sample_sweep :
  @enforceRetention plain_listing plain_traversal false sample_now sample_manager [] sample_world =
  Done {| recordRoot_ := sample_root; policy_ := policy_ sample_manager; lastSweep_ := 1 |}
    {| files := list_to_map ((sample_root, Dir) :: sample_event "1700000000000000001" ".failed" ++
         sample_event "1700000000000000002" ".pending"); clock := 0 |} [].
Proof. vm_compute. reflexivity. Qed.

Lemma retention_exact_witness :
  exists victims kept w',
    returns (@enforceRetention plain_listing plain_traversal false sample_now sample_manager) sample_world
      {| recordRoot_ := sample_root; policy_ := policy_ sample_manager; lastSweep_ := 1 |} w' /\
    @event_dirs plain_listing sample_manager sample_world = victims ++ kept /\
    length (victims ++ kept) = 2%nat.
Proof.
  destruct (@retention_exact plain_listing plain_traversal false sample_now sample_manager sample_world)
    as (v & k & w' & Hr & He & _); [by split|by split|done|by vm_compute|done|right; by vm_compute|].
  exists v, k, w'. split; [exact Hr|]. split; [exact He|]. rewrite <- He. by vm_compute.
Defined.

Lemma retention_safe_witness :
  wp (@enforceRetention plain_listing plain_traversal true sample_now sample_manager)
    (fun _ => spares_others sample_root sample_world) (fun _ => False)
    (spares_others sample_root sample_world) sample_world.
Proof.
  apply (@retention_safe plain_listing plain_traversal no_space true sample_now sample_manager sample_world);
    [by split|by split|done].
Defined.

(** [n] copies of a text. *)
Fixpoint repeat_str (n : nat) (s : string) : string :=
  match n with O => EmptyString | S n' => s +:+ repeat_str n' s end.

(** Two old event directories and a young one, of 2048 bytes each and without a
    marker: no limit has an effect on them, although they are older than the age
    limit and larger than the capacity together. *)
Definition unmarked_world : world :=
  let event stamp := let dir := child sample_root ("collision_" +:+ stamp) in
    [(dir, Dir); (child dir "data.bin", File (repeat_str 2048 "x") 0)] in
  {| files := list_to_map ((sample_root, Dir) :: event "1699000000000000000" ++
       event "1699500000000000000" ++ event "1700000000000000000"); clock := 0 |}.

Definition strict_manager (days capacity : Z) : DiskSpaceManager :=
  newDiskSpaceManager sample_root
    {| minFreeBytes := 0; maxCapacityBytes := capacity; retentionDays := days; cleanupInterval := 0;
       protectUnuploaded := false |} {| steady_now := 0; systemNowNs := 0 |}.

Example unmarked_events_stay :
  forallb (fun s : DiskSpaceManager =>
    match @enforceRetention plain_listing plain_traversal true sample_now s [] unmarked_world with
    | Done _ w [] => bool_decide (files w = files unmarked_world)
    | _ => false
    end) [strict_manager 1 0; strict_manager 0 5120] = true.
Proof. vm_compute. reflexivity. Qed.

(** The limit of [policy_ok] is sharp: beyond it the signed multiplication
    overflows. *)
Example cutoff_overflow :
  cutoffNs {| minFreeBytes := 0; maxCapacityBytes := 0; retentionDays := 106752; cleanupInterval := 60;
              protectUnuploaded := false |} sample_now = Err Undefined.
Proof. reflexivity. Qed.
