(* ===== verification/Readback.v ===== *)
(** * Readback: what the storage worker writes, the reader reads back

    Relates StorageWorker.v (src/include/raw_storage_worker.hpp) to RecordIo.v
    (src/include/record_io.hpp): the rows of the tables, and the checksum
    manifest. *)

From S2P Require Import Prelude Text SensorData PairIndex FileSystem EventState RecordIo StorageWorker.

(** ** Comma-separated rows *)

(** A field survives the trip through a table. *)
Definition clean_field (s : string) : Prop := lacks "," s /\ lacks CR s /\ lacks LF s.

Lemma splitCsvFrom_field fields current f rest :
  lacks "," f -> lacks CR f ->
  splitCsvFrom fields current (f +:+ String "," rest) = splitCsvFrom (fields ++ [current +:+ f]) "" rest.
Proof.
  revert current. induction f as [|c f IH]; intros current H1 H2; simpl.
  - by rewrite app_nil_r_str.
  - apply lacks_cons in H1 as [Hc H1], H2 as [Hr H2].
    rewrite (proj2 (Ascii.eqb_neq _ _) Hc), (proj2 (Ascii.eqb_neq _ _) Hr). simpl.
    rewrite IH by done. by rewrite app_assoc_str.
Qed.

Lemma splitCsvFrom_last fields current f :
  lacks "," f -> lacks CR f -> splitCsvFrom fields current f = fields ++ [current +:+ f].
Proof.
  revert current. induction f as [|c f IH]; intros current H1 H2; simpl.
  - by rewrite app_nil_r_str.
  - apply lacks_cons in H1 as [Hc H1], H2 as [Hr H2].
    rewrite (proj2 (Ascii.eqb_neq _ _) Hc), (proj2 (Ascii.eqb_neq _ _) Hr). simpl.
    rewrite IH by done. by rewrite app_assoc_str.
Qed.

(** A row of fields with commas between them. *)
Fixpoint csv_row (fields : list string) : string :=
  match fields with
  | [] => EmptyString
  | [f] => f
  | f :: rest => f +:+ "," +:+ csv_row rest
  end.

Lemma splitCsvFrom_row before fields :
  fields <> [] -> Forall clean_field fields -> splitCsvFrom before "" (csv_row fields) = before ++ fields.
Proof.
  intros Hne Hall. revert before Hne. induction Hall as [|f rest [Hc [Hr _]] Hall IH]; intros before Hne; [done|].
  destruct rest as [|g rest].
  - apply (splitCsvFrom_last before "" f Hc Hr).
  - change (csv_row (f :: g :: rest)) with (f +:+ String "," (csv_row (g :: rest))).
    rewrite splitCsvFrom_field by done. rewrite IH by done. by rewrite <- (assoc_L (++)).
Qed.

Lemma splitCsvLine_row fields :
  fields <> [] -> Forall clean_field fields -> splitCsvLine (csv_row fields) = fields.
Proof. intros Hne Hall. unfold splitCsvLine. by rewrite splitCsvFrom_row. Qed.

Lemma csv_row_lacks c fields : c <> ","%char -> Forall (lacks c) fields -> lacks c (csv_row fields).
Proof.
  intros Hc Hall. induction Hall as [|f rest Hf Hall IH]; [done|].
  destruct rest as [|g rest]; [done|].
  change (csv_row (f :: g :: rest)) with (f +:+ "," +:+ csv_row (g :: rest)).
  rewrite !lacks_app. split; [done|]. split; [by apply lacks_cons|done].
Qed.

Lemma to_string_clean z : clean_field (to_string z).
Proof. unfold clean_field. repeat split; by apply to_string_lacks. Qed.

Lemma parseI64_to_string z : int64 z -> parseI64 (to_string z) = Some z.
Proof. intros Hz. unfold parseI64. rewrite stoll_to_string by done. simpl. by rewrite Nat.eqb_refl. Qed.

Lemma parseU64_to_string z : 0 <= z <= uint64_max -> parseU64 (to_string z) = Some z.
Proof.
  intros Hz. unfold parseU64.
  destruct (to_string_nonneg z) as (Hd & _ & _); [lia|].
  destruct (to_string z) as [|c s] eqn:E; [by destruct (to_string_ne z)|].
  apply andb_prop in Hd as [Hc _]. destruct (isdigit_not_sign c Hc) as [-> _].
  rewrite <- E, stoull_to_string by done. simpl. by rewrite Nat.eqb_refl.
Qed.

Lemma manifest_row_csv prefix timestamp stored compressed converted :
  manifest_row prefix timestamp stored compressed converted =
    csv_row [prefix; to_string timestamp; stored; if compressed then "zstd" else "raw"; converted]%string.
Proof. done. Qed.

Lemma pair_row_csv pair :
  pair_row pair =
    csv_row [to_string (pairId pair); status pair;
             if hasCamera pair then to_string (cameraTimestamp pair) else "";
             if hasLidar pair then to_string (lidarTimestamp pair) else "";
             to_string (difference pair); reason pair]%string.
Proof. done. Qed.

Definition encoding_of (compressed : bool) : string := if compressed then "zstd" else "raw".

(** The row the worker appends to [manifest.csv] for a record is read back
    as the entry it describes, on any line of the table. *)
Theorem manifest_row_roundtrip lineNumber prefix timestamp stored compressed converted :
  clean_field prefix -> int64 timestamp -> clean_field stored -> clean_field converted ->
  manifestLine lineNumber (manifest_row prefix timestamp stored compressed converted) =
    inl {| me_sensor := prefix; timestampNs := timestamp; me_file := stored;
           me_encoding := encoding_of compressed; convertedFile := converted |}.
Proof.
  intros Hp Ht Hs Hc. unfold manifestLine. rewrite manifest_row_csv, splitCsvLine_row; [|done|].
  - unfold field. simpl. by rewrite parseI64_to_string.
  - repeat (apply Forall_cons; split); try done; [apply to_string_clean|by destruct compressed].
Qed.

Lemma manifest_row_roundtrip_witness :
  manifestLine 2 (manifest_row "camera" 1700000000000000123 "camera_1700000000000000123.bin.zst" true
                    "images/camera_1700000000000000123.jpg") =
    inl {| me_sensor := "camera"; timestampNs := 1700000000000000123;
           me_file := "camera_1700000000000000123.bin.zst"; me_encoding := "zstd";
           convertedFile := "images/camera_1700000000000000123.jpg" |}%string.
Proof.
  apply (manifest_row_roundtrip 2 "camera" 1700000000000000123 "camera_1700000000000000123.bin.zst" true);
    try (split; [|split]); reflexivity || (unfold_int64; lia).
Defined.

(** The times a row keeps: an absent side is written as an empty field. *)
Definition entry_of_pair (pair : PairRecord) : PairEntry :=
  {| pe_pairId := pairId pair; pe_status := status pair;
     cameraTimestampNs := if hasCamera pair then cameraTimestamp pair else 0;
     lidarTimestampNs := if hasLidar pair then lidarTimestamp pair else 0;
     timeDiffNs := difference pair; pe_reason := reason pair |}.

Definition writable_pair (pair : PairRecord) : Prop :=
  0 <= pairId pair <= uint64_max /\ int64 (cameraTimestamp pair) /\ int64 (lidarTimestamp pair) /\
  int64 (difference pair) /\ clean_field (status pair) /\ clean_field (reason pair).

Lemma timestampField_side (b : bool) z :
  int64 z -> timestampField (if b then to_string z else "") = Some (if b then z else 0).
Proof.
  intros Hz. unfold timestampField. destruct b; [|done].
  destruct (String.eqb_spec (to_string z) "") as [E|]; [by destruct (to_string_ne z)|].
  by apply parseI64_to_string.
Qed.

(** The row the worker appends to [pairs.csv] is read back as the pair it
    records, whether it has both sides or one. *)
Theorem pair_row_roundtrip lineNumber pair :
  writable_pair pair -> pairsLine lineNumber (pair_row pair) = inl (entry_of_pair pair).
Proof.
  intros (Hi & Hc & Hl & Hd & Hs & Hr). unfold pairsLine. rewrite pair_row_csv, splitCsvLine_row; [|done|].
  - unfold field. simpl. rewrite parseU64_to_string, !timestampField_side, parseI64_to_string by done. done.
  - repeat (apply Forall_cons; split); try done; try apply to_string_clean;
      [destruct (hasCamera pair)|destruct (hasLidar pair)]; (apply to_string_clean || done).
Qed.

Lemma pair_row_roundtrip_witness :
  pairsLine 3 (pair_row (mkPair 5 true false 1700000000000000123 0 0 "camera_only" "queue_overflow")) =
    inl (entry_of_pair (mkPair 5 true false 1700000000000000123 0 0 "camera_only" "queue_overflow")).
Proof.
  apply (pair_row_roundtrip 3 (mkPair 5 true false 1700000000000000123 0 0 "camera_only" "queue_overflow")).
  repeat split; simpl; try (unfold_int64; lia); reflexivity.
Defined.

(** ** The checksum manifest *)

(** A name of the kind the worker gives to files and directories. *)
Definition good_name (c : string) : Prop := safeComponent c = true /\ lacks "/" c /\ lacks LF c.

Definition clean_names (w : world) (directory : path) : Prop :=
  forall r, r ∈ checksum_files w directory -> Forall good_name r.

Lemma generic_string_cons_acc name rest :
  foldl (fun s part => s +:+ String "/" part) name rest =
    name +:+ foldr (fun part s => String "/" part +:+ s) "" rest.
Proof.
  revert name. induction rest as [|part rest IH]; intros name; simpl; [by rewrite app_nil_r_str|].
  rewrite IH. by rewrite app_assoc_str.
Qed.

Lemma split_on_slashes name rest :
  lacks "/" name -> Forall (lacks "/") rest ->
  split_on "/" (name +:+ foldr (fun part s => String "/" part +:+ s) "" rest) = name :: rest.
Proof.
  intros Hn Hr. revert name Hn. induction Hr as [|part rest Hp Hr IH]; intros name Hn; simpl.
  - rewrite app_nil_r_str. by apply split_on_lacks.
  - change (String "/" (part +:+ foldr (fun part s => String "/" (part +:+ s)) "" rest))
      with (String "/" (part +:+ foldr (fun part s => String "/" part +:+ s) "" rest)).
    rewrite split_on_app by done. by rewrite IH.
Qed.

Lemma safeComponent_ne c : safeComponent c = true -> c <> "".
Proof. by intros Hs ->. Qed.

Lemma path_components_generic r :
  r <> [] -> Forall good_name r -> path_components (generic_string r) = rev r.
Proof.
  intros Hne Hall. unfold generic_string. apply Forall_rev in Hall.
  destruct (rev r) as [|name rest] eqn:E.
  { destruct r as [|x r]; [done|]. simpl in E. by destruct (rev r). }
  rewrite generic_string_cons_acc. unfold path_components.
  rewrite split_on_slashes; [| |].
  - assert (Hf : List.filter (fun piece => negb (String.eqb piece "")) (name :: rest) = name :: rest).
    { clear E. induction Hall as [|c l (Hs & _) Hall IH]; [done|]. simpl.
      apply safeComponent_ne in Hs. rewrite (proj2 (String.eqb_neq _ _) Hs). simpl. by f_equal. }
    rewrite Hf. destruct (last (name :: rest)) as [c|] eqn:El; [|by rewrite app_nil_r].
    destruct c; [|by rewrite app_nil_r].
    apply last_Some in El as [l' El]. rewrite El, Forall_app, Forall_singleton in Hall.
    by destruct Hall as [_ (Hs & _)].
  - inversion Hall as [|?? Hn]. apply Hn.
  - inversion Hall as [|?? Hn Hr]. eapply Forall_impl; [exact Hr|]. intros c Hc. apply Hc.
Qed.

Lemma resolve_generic d r : r <> [] -> Forall good_name r -> resolve d (generic_string r) = r ++ d.
Proof. intros Hne Hall. unfold resolve. by rewrite path_components_generic, rev_involutive. Qed.

Lemma generic_string_ne r : r <> [] -> Forall good_name r -> generic_string r <> "".
Proof.
  intros Hne Hall He. pose proof (path_components_generic r Hne Hall) as Hp. rewrite He in Hp.
  apply (f_equal (@rev string)) in Hp. rewrite rev_involutive in Hp. simpl in Hp. subst r.
  rewrite Forall_singleton in Hall. destruct Hall as [Hs _]. by apply safeComponent_ne in Hs.
Qed.

Lemma generic_string_safe r :
  r <> [] -> Forall good_name r -> safeRelativePath (generic_string r) = true.
Proof.
  intros Hne Hall. pose proof (generic_string_ne r Hne Hall) as Hg.
  pose proof (path_components_generic r Hne Hall) as Hp.
  assert (Hfirst : exists c s, generic_string r = String c s /\ Ascii.eqb c "/" = false).
  { unfold generic_string in *. apply Forall_rev in Hall. destruct (rev r) as [|name rest]; [done|].
    inversion Hall as [|?? (Hs & Hl & _) _]; subst. rewrite generic_string_cons_acc.
    destruct name as [|c name]; [done|]. apply lacks_cons in Hl as [Hc _].
    eexists _, _. split; [done|]. by apply Ascii.eqb_neq. }
  destruct Hfirst as (c & s & E & Hc). unfold safeRelativePath. rewrite E, Hc, <- E, Hp. simpl.
  apply forallb_forall. intros x Hx. apply list_elem_of_In in Hx. apply Forall_rev in Hall.
  rewrite Forall_forall in Hall. by apply Hall.
Qed.

Lemma generic_string_LF r : Forall good_name r -> lacks LF (generic_string r).
Proof.
  intros Hall. unfold generic_string. apply Forall_rev in Hall.
  destruct (rev r) as [|name rest]; [done|]. inversion Hall as [|?? (_ & _ & Hn) Hr]; subst.
  rewrite generic_string_cons_acc, lacks_app. split; [done|]. clear Hall.
  induction Hr as [|c l (_ & _ & Hc) Hl IH]; simpl; [done|]. apply lacks_cons. split; [done|].
  by rewrite lacks_app.
Qed.

Lemma generic_string_inj r1 r2 :
  r1 <> [] -> r2 <> [] -> Forall good_name r1 -> Forall good_name r2 ->
  generic_string r1 = generic_string r2 -> r1 = r2.
Proof.
  intros H1 H2 G1 G2 He. pose proof (resolve_generic [] r1 H1 G1) as E1.
  rewrite He, (resolve_generic [] r2 H2 G2), !app_nil_r in E1. done.
Qed.

(** SHA-256 yields 32 bytes. *)
Class Sha256Spec `{Sha256} := { sha256_length content : String.length (sha256 content) = 32%nat }.

Lemma to_hex_length s : String.length (to_hex s) = (2 * String.length s)%nat.
Proof. induction s as [|c s IH]; simpl; [done|]. rewrite IH. lia. Qed.

Lemma hex_digit_hex n : (n < 16)%N -> hex_char (hex_digit n) = true.
Proof.
  intros Hn. destruct n as [|p]; [done|].
  assert (Hcases : Forall (fun k => hex_char (hex_digit (N.of_nat k)) = true) (seq 0 16))
    by (repeat constructor).
  rewrite Forall_forall in Hcases. rewrite <- (N2Nat.id (N.pos p)). apply Hcases, elem_of_seq. lia.
Qed.

Lemma to_hex_hex s : str_all hex_char (to_hex s) = true.
Proof.
  induction s as [|c s IH]; [done|]. simpl. rewrite IH. pose proof (N_ascii_bounded c) as Hb.
  unfold code. rewrite !hex_digit_hex; [done| |].
  - by apply N.mod_lt.
  - apply N.Div0.div_lt_upper_bound. exact Hb.
Qed.

Lemma to_hex_lacks c s : hex_char c = false -> lacks c (to_hex s).
Proof. intros Hc. eapply lacks_of_class; [exact Hc|apply to_hex_hex]. Qed.

Lemma cut_double_cons c s :
  c <> " "%char -> cut_double (String c s) = (fun p => (String c p.1, p.2)) <$> cut_double s.
Proof. intros Hc. destruct c as [[] [] [] [] [] [] [] []]; try done. Qed.

Lemma cut_double_app a b : lacks " " a -> cut_double (a +:+ "  " +:+ b) = Some (a, b).
Proof.
  induction a as [|c a IH]; [done|]. intros [Hc Ha]%lacks_cons.
  change (String c a +:+ "  " +:+ b) with (String c (a +:+ "  " +:+ b)).
  rewrite cut_double_cons by done. by rewrite IH.
Qed.

Section checksums.
Context `{Sha256Spec} `{Traversal}.

Definition digest_of (w : world) (d r : path) : string :=
  to_hex (sha256 (default "" (read_text w (r ++ d)))).

Definition row_of (w : world) (d r : path) : string := checksum_row (digest_of w d r) r.

Lemma checksumRows_result d l w :
  wp (checksumRows d l)
    (fun result w' => w' = w /\ forall s, result = Some s ->
       s = unlines (row_of w d <$> l) /\ forall r, r ∈ l -> is_Some (read_text w (r ++ d)))
    (fun _ => True) (fun _ => True) w.
Proof.
  induction l as [|r l IH]; simpl.
  - apply wp_ret. split; [done|]. intros s [= <-]. split; [done|set_solver].
  - apply wp_bind, wp_query; [|by apply wp_ret|done].
    destruct (files w !! (r ++ d)) as [[c m| |]|] eqn:E; try by apply wp_ret.
    apply wp_bind, wp_check; [intros _; cbn [negb]|by apply wp_ret|done].
    apply wp_bind. eapply wp_mono; [..|exact IH]; [|done|done].
    intros [s|] w' [-> Hs]; apply wp_ret; (split; [done|]); [|done].
    destruct (Hs s eq_refl) as [-> Hall].
    assert (Hr : read_text w (r ++ d) = Some c) by (unfold read_text; by rewrite E).
    intros s' [= <-]. csimpl. unfold row_of at 2, digest_of. rewrite Hr. simpl default.
    split; [done|]. intros x [->|Hx]%elem_of_cons; eauto.
Qed.

Lemma checksumLine_row n w d r e p :
  r <> [] -> Forall good_name r -> e !! generic_string r = None ->
  checksumLine n (row_of w d r) (e, p) = (<[generic_string r := digest_of w d r]> e, p).
Proof.
  intros Hne Hg He. unfold checksumLine, row_of, checksum_row.
  rewrite cut_double_app by (by apply to_hex_lacks). unfold digest_of at 1 2.
  rewrite to_hex_length, sha256_length. simpl.
  rewrite (proj2 (String.eqb_neq _ _) (generic_string_ne r Hne Hg)).
  unfold digest_of at 1. rewrite to_hex_hex, generic_string_safe, bool_decide_true by done. done.
Qed.

Definition expected_of (w : world) (d : path) (l : list path) (e : gmap string string)
    : gmap string string :=
  foldl (fun m r => <[generic_string r := digest_of w d r]> m) e l.

Lemma checksumLines_rows n w d l e p :
  Forall (fun r => r <> [] /\ Forall good_name r) l -> NoDup l ->
  (forall r, r ∈ l -> e !! generic_string r = None) ->
  checksumLines n (row_of w d <$> l) (e, p) = (expected_of w d l e, p).
Proof.
  intros Hall. revert n e. induction Hall as [|r l [Hne Hg] Hall IH]; intros n e Hnd He; [done|].
  apply NoDup_cons in Hnd as [Hr Hnd].
  change (checksumLines n (row_of w d <$> r :: l) (e, p)) with
    (checksumLines (n + 1) (row_of w d <$> l) (checksumLine n (row_of w d r) (e, p))).
  rewrite checksumLine_row; [|done|done|apply He; set_solver].
  rewrite IH; [done|done|]. intros r' Hr'. rewrite Forall_forall in Hall.
  destruct (Hall r' Hr') as [Hne' Hg'].
  rewrite lookup_insert_ne; [apply He; set_solver|]. intros Heq.
  apply generic_string_inj in Heq as ->; done.
Qed.

Lemma lookup_expected w d l e g x :
  expected_of w d l e !! g = Some x ->
  e !! g = Some x \/ exists r, r ∈ l /\ g = generic_string r /\ exists r', r' ∈ l /\
    generic_string r' = generic_string r /\ x = digest_of w d r'.
Proof.
  revert e. induction l as [|r l IH]; intros e Hx; [by left|].
  destruct (IH _ Hx) as [He|(r' & Hr' & -> & r'' & Hr'' & Hg & ->)].
  - destruct (decide (generic_string r = g)) as [<-|Hne].
    + rewrite lookup_insert_eq in He. simplify_eq. right. exists r. set_solver.
    + rewrite lookup_insert_ne in He by done. by left.
  - right. exists r'. set_solver.
Qed.

Lemma dom_expected w d l e :
  dom (expected_of w d l e) = dom e ∪ list_to_set (generic_string <$> l).
Proof.
  revert e. induction l as [|r l IH]; intros e; csimpl; [set_solver|].
  change (expected_of w d (r :: l) e) with (expected_of w d l (<[generic_string r := digest_of w d r]> e)).
  rewrite IH, dom_insert_L. set_solver.
Qed.

(** Writing the checksum manifest does not change what is listed in it. *)
Lemma read_text_touches d w w' r :
  let t := child d "manifest.sha256" in
  touches [t; scratch t] d w w' -> r <> [] -> checksummed (filename r) = true ->
  read_text w' (r ++ d) = read_text w (r ++ d).
Proof.
  intros t [_ Ht] Hne Hc. unfold read_text.
  assert (Hn : r ++ d ∉ [t; scratch t]).
  { destruct r as [|leaf r]; [done|]. unfold t, child. simpl in *.
    intros [Heq|[Heq|?%elem_of_nil]%elem_of_cons]%elem_of_cons; [..|done]; simplify_eq; done. }
  destruct (Ht _ Hn) as [->|(-> & -> & _)]; done.
Qed.

Lemma checksum_files_touches d w w' r :
  let t := child d "manifest.sha256" in
  touches [t; scratch t] d w w' -> r ∈ checksum_files w' d <-> r ∈ checksum_files w d.
Proof.
  intros t Ht. rewrite !elem_of_checksum_files.
  assert (Hfile : forall v, (exists c m, files v !! (r ++ d) = Some (File c m)) <->
    is_Some (read_text v (r ++ d))).
  { intros v. unfold read_text. split; [intros (c & m & ->); eauto|].
    destruct (files v !! (r ++ d)) as [[c m| |]|]; intros [? ?]; simplify_eq; eauto. }
  rewrite !Hfile. split; intros (R1 & R2 & R3); (split; [done|]; split; [|done]).
  - by rewrite (read_text_touches d w w' r Ht) in R2.
  - by rewrite (read_text_touches d w w' r Ht).
Qed.

(** What a run that reports success has listed, read and stored. *)
Lemma writeChecksumManifest_stores d w o w' o' :
  writeChecksumManifest d o w = Done true w' o' ->
  exists L o1 m, list_checksum_files d o w = Done (Some L) w o1 /\ NoDup L /\ L ⊆ checksum_files w d /\ L <> [] /\
    (forall r, r ∈ L -> is_Some (read_text w (r ++ d))) /\
    touches [child d "manifest.sha256"; scratch (child d "manifest.sha256")] d w w' /\
    files w' !! child d "manifest.sha256" = Some (File (unlines (row_of w d <$> merge_sort path_le L)) m).
Proof.
  pose proof (list_checksum_files_wp d w o) as Hlist. unfold writeChecksumManifest. unfold mbind at 1, M_bind at 1.
  destruct (list_checksum_files d o w) as [[L|] w1 o1| | |] eqn:El; try done.
  destruct Hlist as [-> Hlist]. destruct (Hlist L eq_refl) as [Hnd Hsub]. set (l := merge_sort path_le L) in *.
  assert (HlL : l ≡ₚ L) by apply merge_sort_Permutation. cbv zeta.
  match goal with |- ?rest o1 w = _ -> _ => assert (Hwp : wp rest (fun ok w2 => ok = true -> l <> [] /\
    (forall r, r ∈ l -> is_Some (read_text w (r ++ d))) /\
    touches [child d "manifest.sha256"; scratch (child d "manifest.sha256")] d w w2 /\
    exists m, files w2 !! child d "manifest.sha256" = Some (File (unlines (row_of w d <$> l)) m))
    (fun _ => True) (fun _ => True) w) end.
  { apply wp_bind. eapply wp_mono; [..|apply (checksumRows_result d l w)]; [|done|done].
    intros [content|] w2 [-> Hs]; [|by apply wp_ret].
    destruct (Hs content eq_refl) as [-> Hread]. case_bool_decide as Hnil; [by apply wp_ret|].
    eapply wp_mono; [..|by apply storeAtomically_wp]; [|done|done].
    intros okb w2 [Ht Hok] ->. destruct Hok as [m Hm]. split; [done|]. split; [done|]. split; [done|]. by exists m. }
  intros Hrun. specialize (Hwp o1). rewrite Hrun in Hwp. destruct (Hwp eq_refl) as (Hne & Hread & Ht & m & Hm).
  exists L, o1, m. split; [done|]. split; [done|]. split; [done|]. split.
  { intros ->. by apply Hne, Permutation_nil. }
  split; [|done]. intros r Hr. apply Hread. by rewrite HlL.
Qed.

Context (map_order : gmap string string -> list (string * string)) (set_order : gset string -> list string).
Context (map_order_perm : forall m, map_order m ≡ₚ map_to_list m).
Context (set_order_perm : forall s, set_order s ≡ₚ elements s).

Abbreviation accepts w d := (verifyChecksumManifest map_order set_order w d [] = (true, [])).

Lemma clean_listed w d l :
  clean_names w d -> l ⊆ checksum_files w d -> Forall (fun r => r <> [] /\ Forall good_name r) l.
Proof.
  intros Hclean Hsub. apply Forall_forall. intros r Hr%Hsub. split; [|by apply Hclean].
  by apply elem_of_checksum_files in Hr as [? _].
Qed.

(** A manifest of some files, as the reader understands it. *)
Lemma stored_manifest_states w d l :
  clean_names w d -> l ⊆ checksum_files w d -> NoDup l ->
  states (unlines (row_of w d <$> l)) (expected_of w d l ∅).
Proof.
  intros Hclean Hsub Hnd. pose proof (clean_listed w d l Hclean Hsub) as Hgood. unfold states.
  rewrite lines_unlines; [apply checksumLines_rows; [done|done|]; intros r _; apply lookup_empty|].
  apply Forall_fmap. eapply Forall_impl; [exact Hgood|]. intros r [_ Hg]. simpl.
  unfold row_of, checksum_row. rewrite !lacks_app. split; [by apply to_hex_lacks|].
  split; [done|by apply generic_string_LF].
Qed.

Lemma expected_digest w d l g x :
  clean_names w d -> l ⊆ checksum_files w d -> expected_of w d l ∅ !! g = Some x ->
  exists r, r ∈ l /\ g = generic_string r /\ x = digest_of w d r.
Proof.
  intros Hclean Hsub Hx. pose proof (clean_listed w d l Hclean Hsub) as Hgood. rewrite Forall_forall in Hgood.
  apply lookup_expected in Hx as [Hx|(r & Hr & -> & r' & Hr' & Hg & ->)]; [by rewrite lookup_empty in Hx|].
  destruct (Hgood r Hr) as [N1 G1], (Hgood r' Hr') as [N2 G2]. apply generic_string_inj in Hg as ->; eauto.
Qed.

Lemma expected_listed w d l r :
  clean_names w d -> l ⊆ checksum_files w d -> r ∈ l -> expected_of w d l ∅ !! generic_string r = Some (digest_of w d r).
Proof.
  intros Hclean Hsub Hr.
  assert (Hin : generic_string r ∈ dom (expected_of w d l ∅)).
  { rewrite dom_expected. apply elem_of_union_r, elem_of_list_to_set. by apply list_elem_of_fmap_2. }
  apply elem_of_dom in Hin as [x Hx]. rewrite Hx.
  apply expected_digest in Hx as (r' & Hr' & Hg & ->); [|done..].
  pose proof (clean_listed w d l Hclean Hsub) as Hgood. rewrite Forall_forall in Hgood.
  destruct (Hgood r Hr), (Hgood r' Hr'). by apply generic_string_inj in Hg as ->.
Qed.

(** The state [w'] in which a manifest of files of the state [w] has been stored:
    the reader accepts it exactly when no file is missing from the manifest. *)
Lemma stored_manifest_verifies w w' d l m :
  clean_names w d -> l ⊆ checksum_files w d -> NoDup l -> l <> [] ->
  (forall r, r ∈ l -> is_Some (read_text w (r ++ d))) ->
  touches [child d "manifest.sha256"; scratch (child d "manifest.sha256")] d w w' ->
  files w' !! child d "manifest.sha256" = Some (File (unlines (row_of w d <$> l)) m) ->
  accepts w' d <-> checksum_files w d ⊆ l.
Proof.
  intros Hclean Hsub Hnd Hne Hread Ht Hf.
  pose proof (stored_manifest_states w d l Hclean Hsub Hnd) as Hstates.
  assert (Htext : read_text w' (child d "manifest.sha256") = Some (unlines (row_of w d <$> l)))
    by (unfold read_text; by rewrite Hf).
  rewrite (verifyChecksumManifest_iff map_order set_order map_order_perm set_order_perm). split.
  - intros (t & e & Rt & St & _ & Hdom & _) r Hr. rewrite Htext in Rt. injection Rt as <-.
    unfold states in St, Hstates. rewrite Hstates in St. injection St as <-.
    assert (Hin : generic_string r ∈ dom (expected_of w d l ∅)).
    { rewrite Hdom. apply elem_of_list_to_set, list_elem_of_fmap_2. by apply (checksum_files_touches d w w' r Ht). }
    apply elem_of_dom in Hin as [x Hx]. apply expected_digest in Hx as (r' & Hr' & Hg & _); [|done..].
    pose proof (clean_listed w d _ Hclean (reflexivity (R := (⊆)) _)) as Hgood. rewrite Forall_forall in Hgood.
    destruct (Hgood r Hr), (Hgood r' (Hsub _ Hr')). by apply generic_string_inj in Hg as ->.
  - intros Hcov. assert (Hiff : forall r, r ∈ l <-> r ∈ checksum_files w d) by (intros r; split; [apply Hsub|apply Hcov]).
    exists (unlines (row_of w d <$> l)), (expected_of w d l ∅).
    split; [done|]. split; [done|]. split; [|split].
    + intros He. apply (f_equal (dom (D := gset string))) in He. rewrite dom_expected, dom_empty_L in He.
      destruct l as [|r l]; [done|]. csimpl in He. set_solver.
    + rewrite dom_expected, dom_empty_L, union_empty_l_L. unfold actual_files. apply set_eq. intros g.
      rewrite !elem_of_list_to_set, !list_elem_of_fmap.
      split; intros (r & -> & Hr); exists r; (split; [done|]).
      * apply (checksum_files_touches d w w' r Ht). by apply Hiff.
      * apply Hiff. by apply (checksum_files_touches d w w' r Ht).
    + intros g x Hx. apply expected_digest in Hx as (r & Hr & -> & ->); [|done..].
      pose proof (clean_listed w d l Hclean Hsub) as Hgood. rewrite Forall_forall in Hgood. destruct (Hgood r Hr).
      rewrite resolve_generic by done. unfold sha256File. pose proof (Hsub r Hr) as (? & _ & ?)%elem_of_checksum_files.
      rewrite (read_text_touches d w w') by done. unfold digest_of. by destruct (Hread r Hr) as [c ->].
Qed.

(** Whatever the reader accepts with that manifest has those files. *)
Lemma stored_manifest_pins w w' d l :
  clean_names w d -> l ⊆ checksum_files w d -> NoDup l ->
  read_text w' (child d "manifest.sha256") = Some (unlines (row_of w d <$> l)) -> accepts w' d ->
  actual_files w' d = list_to_set (generic_string <$> l) /\
  forall r, r ∈ l -> sha256File w' (r ++ d) = Some (digest_of w d r).
Proof.
  intros Hclean Hsub Hnd Htext Hv.
  pose proof (stored_manifest_states w d l Hclean Hsub Hnd) as Hstates.
  rewrite (verifyChecksumManifest_iff map_order set_order map_order_perm set_order_perm) in Hv.
  destruct Hv as (t & e & Rt & St & _ & Hdom & Hdig). rewrite Htext in Rt. injection Rt as <-.
  unfold states in St, Hstates. rewrite Hstates in St. injection St as <-. split.
  - by rewrite <- Hdom, dom_expected, dom_empty_L, union_empty_l_L.
  - intros r Hr. pose proof (expected_listed w d l r Hclean Hsub Hr) as Hx. apply Hdig in Hx.
    pose proof (clean_listed w d l Hclean Hsub) as Hgood. rewrite Forall_forall in Hgood. destruct (Hgood r Hr).
    by rewrite resolve_generic in Hx.
Qed.

(** C4. Whatever faults occur, once the worker reports that it stored the
    checksum manifest of a directory whose names are of the kind it gives: the
    manifest lists what the traversal found, which are files of the directory;
    the reader accepts the directory exactly if the traversal left none out, and
    it left none out when no call reported an error; and from then on the
    manifest pins the directory down: any later state with the same manifest
    that the reader accepts has exactly the listed files, each with the SHA-256
    digest it had. *)
Theorem checksum_manifest_roundtrip w d o :
  clean_names w d ->
  match writeChecksumManifest d o w with
  | Done true w' _ =>
      exists L o1, list_checksum_files d o w = Done (Some L) w o1 /\
        NoDup L /\ L ⊆ checksum_files w d /\ L <> [] /\
        (verifyChecksumManifest map_order set_order w' d [] = (true, []) <-> checksum_files w d ⊆ L) /\
        (steady o -> verifyChecksumManifest map_order set_order w' d [] = (true, [])) /\
        forall w'', read_text w'' (child d "manifest.sha256") = read_text w' (child d "manifest.sha256") ->
          verifyChecksumManifest map_order set_order w'' d [] = (true, []) ->
          actual_files w'' d = list_to_set (generic_string <$> L) /\
          forall r, r ∈ L -> exists content, read_text w (r ++ d) = Some content /\
            sha256File w'' (r ++ d) = Some (to_hex (sha256 content))
  | _ => True
  end.
Proof.
  intros Hclean. destruct (writeChecksumManifest d o w) as [[] w' o'| | |] eqn:Hrun; try done.
  apply writeChecksumManifest_stores in Hrun as (L & o1 & m & Hlist & Hnd & Hsub & Hne & Hread & Ht & Hm).
  exists L, o1. pose proof (merge_sort_Permutation path_le L) as Hperm. set (l := merge_sort path_le L) in *.
  assert (Hiff : forall r, r ∈ l <-> r ∈ L) by (intros r; by rewrite Hperm).
  assert (Hv : accepts w' d <-> checksum_files w d ⊆ L).
  { rewrite (stored_manifest_verifies w w' d l m); [..|done|done]; [|done| |by rewrite Hperm| |].
    - split; intros Hin r Hr; by apply Hiff, Hin.
    - intros r Hr. by apply Hsub, Hiff.
    - intros E. rewrite E in Hperm. by apply Permutation_nil in Hperm.
    - intros r Hr. by apply Hread, Hiff. }
  split_and!; [done..| |].
  - intros Ho. apply Hv. intros r. by eapply list_checksum_files_steady.
  - intros w'' Htext Hacc. destruct (stored_manifest_pins w w'' d l) as [Hfiles Hdig]; [done| |by rewrite Hperm| |done|].
    + intros r Hr. by apply Hsub, Hiff.
    + rewrite Htext. unfold read_text. by rewrite Hm.
    + split.
      * rewrite Hfiles. apply set_eq. intros g. by rewrite !elem_of_list_to_set, Hperm.
      * intros r Hr. destruct (Hread r Hr) as [content Hc]. exists content. split; [done|].
        rewrite Hdig by (by apply Hiff). unfold digest_of. by rewrite Hc.
Qed.

End checksums.

(** ** A run *)

Lemma length_substring_padded content :
  String.length (String.substring 0 32 (content +:+ "................................")) = 32%nat.
Proof. apply length_substring. rewrite length_app_str. simpl. lia. Qed.

#[export] Instance padding_digest_spec : Sha256Spec := { sha256_length := length_substring_padded }.

Definition good_nameb (c : string) : bool :=
  safeComponent c && str_all (fun x => negb (Ascii.eqb x "/")) c &&
  str_all (fun x => negb (Ascii.eqb x LF)) c.

Lemma clean_namesb w d :
  forallb (forallb good_nameb) (checksum_files w d) = true -> clean_names w d.
Proof.
  intros Hall r Hr. rewrite forallb_forall in Hall. apply list_elem_of_In, Hall in Hr.
  rewrite forallb_forall in Hr. apply Forall_forall. intros c Hc. apply list_elem_of_In, Hr in Hc.
  unfold good_nameb in Hc. apply andb_prop in Hc as [Hc H3]. apply andb_prop in Hc as [H1 H2]. done.
Qed.

(** The status of [manifest.csv] cannot be told. *)
Definition unknown_status : list fault := [NoFault; IoError 0].

Lemma checksum_manifest_roundtrip_witness :
  match writeChecksumManifest event_dir unknown_status recorded_world with
  | Done true w' _ =>
      exists L o1, list_checksum_files event_dir unknown_status recorded_world = Done (Some L) recorded_world o1 /\
        NoDup L /\ L ⊆ checksum_files recorded_world event_dir /\ L <> [] /\
        (verifyChecksumManifest map_to_list elements w' event_dir [] = (true, []) <->
           checksum_files recorded_world event_dir ⊆ L) /\
        (steady unknown_status -> verifyChecksumManifest map_to_list elements w' event_dir [] = (true, [])) /\
        forall w'', read_text w'' (child event_dir "manifest.sha256") =
                    read_text w' (child event_dir "manifest.sha256") ->
          verifyChecksumManifest map_to_list elements w'' event_dir [] = (true, []) ->
          actual_files w'' event_dir = list_to_set (generic_string <$> L) /\
          forall r, r ∈ L -> exists content, read_text recorded_world (r ++ event_dir) = Some content /\
            sha256File w'' (r ++ event_dir) = Some (to_hex (sha256 content))
  | _ => True
  end.
Proof.
  apply (checksum_manifest_roundtrip map_to_list elements (fun m => Permutation_refl _)
           (fun s => Permutation_refl _)).
  apply clean_namesb. vm_compute. reflexivity.
Defined.

(** Without faults the manifest lists everything and is accepted; a status that
    cannot be told leaves a file out, and the directory is then refused although
    the worker has reported success. *)
Example omitted_file_refused :
  match writeChecksumManifest event_dir [] recorded_world, writeChecksumManifest event_dir unknown_status recorded_world with
  | Done true w _, Done true w' _ =>
      (verifyChecksumManifest map_to_list elements w event_dir []).1 &&
      negb (verifyChecksumManifest map_to_list elements w' event_dir []).1
  | _, _ => false
  end = true.
Proof. vm_compute. reflexivity. Qed.
