(* ===== verification/JobReadback.v ===== *)
(** * JobReadback: the records of a job can be read back

    Follows [writeJob] of src/include/raw_storage_worker.hpp (StorageWorker.v)
    through every fault and shows that what it reports as stored is what
    src/include/record_io.hpp (RecordIo.v) reads. *)

From S2P Require Import Prelude Text SensorData PairIndex FileSystem EventState RecordIo StorageWorker Readback.

(** ** Names of records *)

Definition record_char (c : ascii) : bool := isalnum c || Ascii.eqb c "_" || Ascii.eqb c "-".

(** Files that hold records: [.bin] and [.bin.zst]. *)
Definition record_name (name : string) : Prop :=
  str_last name = Some "n"%char \/ str_last name = Some "t"%char.

Lemma record_name_bin base : record_name (base +:+ ".bin").
Proof. left. by rewrite str_last_app. Qed.

Lemma record_name_zst base : record_name (base +:+ ".bin.zst").
Proof. right. by rewrite str_last_app. Qed.

Lemma tmp_not_record name : ~ record_name (name +:+ ".tmp").
Proof. unfold record_name. rewrite str_last_app. by intros [|]. Qed.

(** A base name: the prefix and the time, possibly numbered. *)
Definition base_name (base : string) : Prop :=
  str_all record_char base = true /\ has_char "_" base = true /\ base <> "".

Lemma record_char_field c : record_char c = true ->
  c <> ","%char /\ c <> CR /\ c <> LF /\ c <> "/"%char /\ c <> "."%char /\ c <> ":"%char /\ c <> "\"%char.
Proof. intros Hc. repeat split; intros ->; by vm_compute in Hc. Qed.

Lemma base_lacks base c : base_name base -> record_char c = false -> lacks c base.
Proof. intros [Hb _] Hc. by eapply lacks_of_class. Qed.

Definition file_of (base : string) (compressed : bool) : string :=
  base +:+ (if compressed then ".bin.zst" else ".bin").

Lemma file_of_clean base compressed : base_name base -> clean_field (file_of base compressed).
Proof.
  intros Hb. unfold clean_field, file_of. rewrite !lacks_app.
  repeat split; first [by apply (base_lacks base)|by destruct compressed].
Qed.

Lemma lacks_not_has c s : lacks c s -> has_char c s = false.
Proof.
  intros Hl. unfold has_char, str_any. apply negb_false_iff. eapply str_all_impl; [|exact Hl].
  intros x. by rewrite Ascii.eqb_sym.
Qed.

Lemma str_map_has c f s : f c = c -> has_char c s = true -> has_char c (str_map f s) = true.
Proof.
  intros Hf. unfold has_char, str_any. rewrite !negb_true_iff. intros Hs.
  induction s as [|x s IH]; [done|]. simpl in *. destruct (Ascii.eqb_spec c x) as [<-|]; simpl in *.
  - by rewrite Hf, Ascii.eqb_refl.
  - rewrite IH by done. apply andb_false_r.
Qed.

Lemma devices_lack_underscore : Forall (fun d => has_char "_" d = false) kWindowsDevices.
Proof. repeat constructor. Qed.

Lemma base_not_device base :
  base_name base -> existsb (String.eqb (str_map toupper base)) kWindowsDevices = false.
Proof.
  intros (_ & Hu & _). apply not_true_iff_false. intros (d & Hd & He)%existsb_exists.
  apply String.eqb_eq in He. pose proof devices_lack_underscore as Hdev. rewrite Forall_forall in Hdev.
  apply list_elem_of_In, Hdev in Hd. rewrite <- He, str_map_has in Hd; done.
Qed.

Lemma file_of_good base compressed : base_name base -> good_name (file_of base compressed).
Proof.
  intros Hb. pose proof Hb as (Hall & Hu & Hne). unfold good_name, file_of.
  assert (Hl : forall c, record_char c = false -> c <> "."%char -> str_all (fun x => negb (Ascii.eqb x c)) ".bin.zst" = true ->
    str_all (fun x => negb (Ascii.eqb x c)) ".bin" = true -> lacks c (base +:+ (if compressed then ".bin.zst" else ".bin"))).
  { intros c Hc _ H1 H2. rewrite lacks_app. split; [by apply base_lacks|by destruct compressed]. }
  split; [|split; by apply Hl].
  assert (Hstem : before_char "." (base +:+ (if compressed then ".bin.zst" else ".bin")) = base).
  { unfold before_char. destruct compressed; (rewrite cut_at_app; [done|by apply base_lacks]). }
  unfold safeComponent. rewrite Hstem, base_not_device by done.
  assert (Hlast : exists c, str_last (base +:+ (if compressed then ".bin.zst" else ".bin")) = Some c /\
    (c = "n"%char \/ c = "t"%char)).
  { destruct compressed; rewrite str_last_app; eauto. }
  destruct Hlast as (c & -> & Hc).
  rewrite (lacks_not_has ":"), (lacks_not_has "\") by by apply Hl.
  assert (Hdots : forall s, (s = "" \/ s = "." \/ s = "..")%string ->
    String.eqb (base +:+ (if compressed then ".bin.zst" else ".bin")) s = false).
  { intros s Hs. apply String.eqb_neq. intros E. apply (f_equal String.length) in E.
    rewrite length_app_str in E. destruct base; [done|].
    destruct compressed, Hs as [->|[->| ->]]; simpl in E; lia. }
  rewrite !Hdots by auto. simpl.
  replace (Ascii.eqb c "." || Ascii.eqb c " ") with false by (by destruct Hc as [-> | ->]). simpl.
  done.
Qed.

(** ** Finding a free name *)

(** The [k]-th name the loop tries. *)
Definition numbered (basePrefix : string) (k : nat) : string :=
  match k with O => basePrefix | S _ => basePrefix +:+ "_" +:+ to_string (Z.of_nat k) end.

Lemma app_cancel_l (a b c : string) : a +:+ b = a +:+ c -> b = c.
Proof. induction a as [|x a IH]; simpl; [done|]. intros [= E]. auto. Qed.

Lemma app_cancel_r (a b c : string) : a +:+ c = b +:+ c -> a = b.
Proof.
  revert b. induction a as [|x a IH]; intros [|y b] E; simpl in *; [done|..].
  - apply (f_equal String.length) in E. simpl in E. rewrite length_app_str in E. lia.
  - apply (f_equal String.length) in E. simpl in E. rewrite length_app_str in E. lia.
  - injection E as -> E. f_equal. auto.
Qed.

Lemma numbered_inj b i j : numbered b i = numbered b j -> i = j.
Proof.
  unfold numbered. destruct i as [|i], j as [|j]; intros E; [done| | |].
  - apply (f_equal String.length) in E. rewrite !length_app_str in E. simpl in E. lia.
  - apply (f_equal String.length) in E. rewrite !length_app_str in E. simpl in E. lia.
  - apply app_cancel_l, (app_cancel_l "_"), to_string_inj in E; lia.
Qed.

Lemma numbered_base b k : base_name b -> base_name (numbered b k).
Proof.
  intros Hb. pose proof Hb as (Hc & Hu & Hne). destruct k as [|k]; [done|].
  assert (Hz : str_all record_char (to_string (Z.of_nat (S k))) = true).
  { eapply str_all_impl; [|apply to_string_chars]. intros c Hd. unfold record_char, isalnum.
    apply orb_true_iff in Hd as [-> | ->]; [done|by rewrite !orb_true_r]. }
  unfold base_name, numbered. split; [|split].
  - by rewrite !str_all_app, Hc, Hz.
  - unfold has_char, str_any in *. rewrite !str_all_app. apply negb_true_iff in Hu. by rewrite Hu.
  - by destruct b.
Qed.

Definition is_used (w : world) (dir : path) (base : string) : bool :=
  has w (child dir (base +:+ ".bin")) || has w (child dir (base +:+ ".bin.zst")).

Lemma taken_wp dir base (Q : bool -> world -> Prop) w :
  Q (is_used w dir base) w ->
  wp (taken dir base) Q (fun _ => True) (fun _ => True) w.
Proof.
  intros HQ. unfold taken, exists_or_throw.
  apply wp_bind, wp_bind, wp_query; [|by apply wp_throw|done]. apply wp_ret. unfold is_used in HQ.
  change (present w (child dir (base +:+ ".bin"))) with (has w (child dir (base +:+ ".bin"))).
  destruct (has w (child dir (base +:+ ".bin"))); [by apply wp_ret|].
  apply wp_bind, wp_query; [by apply wp_ret|by apply wp_throw|done].
Qed.

Lemma freeName_from fuel dir b k w :
  (exists j, (k <= j <= k + fuel)%nat /\ is_used w dir (numbered b j) = false) ->
  wp (freeName fuel dir b (numbered b k) (Z.of_nat k))
    (fun base w' => w' = w /\ is_used w dir base = false /\ exists j, base = numbered b j)
    (fun _ => True) (fun _ => True) w.
Proof.
  revert k. induction fuel as [|fuel IH]; intros k (j & Hj & Hu); simpl; apply wp_bind, taken_wp;
    destruct (is_used w dir (numbered b k)) eqn:E; simpl.
  - replace j with k in Hu by lia. congruence.
  - apply wp_ret. eauto.
  - replace (Z.of_nat k + 1) with (Z.of_nat (S k)) by lia. apply (IH (S k)). exists j.
    split; [|done]. destruct (decide (j = k)) as [->|]; [congruence|lia].
  - apply wp_ret. eauto.
Qed.

(** A path that makes the [k]-th name used. *)
Definition used_path (w : world) (dir : path) (base : string) : path :=
  child dir (base +:+ if has w (child dir (base +:+ ".bin")) then ".bin" else ".bin.zst").

Lemma used_path_inj w dir a b : used_path w dir a = used_path w dir b -> a = b.
Proof.
  unfold used_path, child. intros [= E].
  destruct (has w _), (has w _); try by apply app_cancel_r in E.
  - apply (f_equal str_last) in E. by rewrite !str_last_app in E.
  - apply (f_equal str_last) in E. by rewrite !str_last_app in E.
Qed.

Lemma used_path_present w dir b : is_used w dir b = true -> used_path w dir b ∈ dom (files w).
Proof.
  unfold is_used, used_path. intros Hu. apply elem_of_dom.
  destruct (has w (child dir (b +:+ ".bin"))) eqn:E; simpl in Hu; unfold has in *;
    [destruct (files w !! child dir (b +:+ ".bin"))|destruct (files w !! child dir (b +:+ ".bin.zst"))];
    done || eauto.
Qed.

Lemma free_name_exists fuel dir b w :
  (size (files w) <= fuel)%nat ->
  exists j, (0 <= j <= 0 + fuel)%nat /\ is_used w dir (numbered b j) = false.
Proof.
  intros Hf.
  destruct (decide (Exists (fun j => is_used w dir (numbered b j) = false) (seq 0 (S fuel)))) as [He|He].
  - apply Exists_exists in He as (j & Hj & Hu). apply elem_of_seq in Hj. exists j. split; [lia|done].
  - exfalso. set (ps := (fun j => used_path w dir (numbered b j)) <$> seq 0 (S fuel)).
    assert (Hnd : NoDup ps).
    { apply NoDup_fmap_2_strong; [|apply NoDup_seq]. intros i j _ _ E.
      by apply used_path_inj, numbered_inj in E. }
    assert (Hsub : ps ⊆+ elements (dom (files w))).
    { apply NoDup_submseteq; [done|]. intros q (j & -> & Hj)%list_elem_of_fmap.
      apply elem_of_elements, used_path_present. apply not_false_iff_true. intros Hu.
      apply He, Exists_exists. eauto. }
    apply submseteq_length in Hsub. unfold ps in Hsub. rewrite length_fmap, length_seq in Hsub.
    change (length (elements (dom (files w)))) with (size (dom (files w))) in Hsub.
    rewrite size_dom in Hsub. lia.
Qed.

Lemma freeName_wp fuel dir b w :
  (size (files w) <= fuel)%nat ->
  wp (freeName fuel dir b b 0)
    (fun base w' => w' = w /\ files w !! child dir (base +:+ ".bin") = None /\
       files w !! child dir (base +:+ ".bin.zst") = None /\ exists k, base = numbered b k)
    (fun _ => True) (fun _ => True) w.
Proof.
  intros Hf. pose proof (freeName_from fuel dir b 0 w (free_name_exists fuel dir b w Hf)) as Hw.
  change (Z.of_nat 0) with 0 in Hw. change (numbered b 0) with b in Hw.
  eapply wp_mono; [..|exact Hw]; [|done|done]. intros base w' (-> & Hu & Hj). split; [done|].
  unfold is_used in Hu. apply orb_false_elim in Hu as [H1%has_false H2%has_false]. done.
Qed.

(** The search for a free file name always ends: with as many extra rounds
    as there are files, it finds a base name under which neither a raw nor a
    compressed record exists. *)
Theorem freeName_total fuel dir b w o :
  (size (files w) <= fuel)%nat ->
  match freeName fuel dir b b 0 o w with
  | Done base w' _ => w' = w /\ files w !! child dir (base +:+ ".bin") = None /\
      files w !! child dir (base +:+ ".bin.zst") = None /\ exists k, base = numbered b k
  | Stuck _ => False
  | _ => True
  end.
Proof.
  intros Hf. pose proof (freeName_wp fuel dir b w Hf o) as Hw.
  by destruct (freeName fuel dir b b 0 o w).
Qed.

Lemma freeName_total_witness :
  match freeName 6 event_dir "camera_7" "camera_7" 0 [] recorded_world with
  | Done base w' _ => w' = recorded_world /\
      files recorded_world !! child event_dir (base +:+ ".bin") = None /\
      files recorded_world !! child event_dir (base +:+ ".bin.zst") = None /\
      exists k, base = numbered "camera_7" k
  | Stuck _ => False
  | _ => True
  end.
Proof. apply (freeName_total 6 event_dir "camera_7" recorded_world []). vm_compute. lia. Defined.

(** ** What the steps before the manifest row leave alone *)

Abbreviation manifest dir := (child dir "manifest.csv").

(** Only what holds when a call returns matters here. *)
Definition post {A} (m : M A) (Q : A -> world -> Prop) (w : world) : Prop :=
  wp m Q (fun _ => True) (fun _ => True) w.

(** The record files of the directory and its manifest are as they were. *)
Definition quiet (dir : path) (w w' : world) : Prop :=
  (forall name c m, record_name name -> files w !! child dir name = Some (File c m) ->
     files w' !! child dir name = Some (File c m)) /\
  read_text w' (manifest dir) = read_text w (manifest dir).

#[global] Instance quiet_preorder dir : PreOrder (quiet dir).
Proof.
  split; [by intros w; split|]. intros w1 w2 w3 [H1 H2] [H3 H4]. split; [eauto|congruence].
Qed.

(** At most [k] files more. *)
Definition grows (k : nat) (w w' : world) : Prop := (size (files w') <= size (files w) + k)%nat.

(** The files and directories that storing one file can add. *)
Definition room (dir : path) : nat := (length dir + 3)%nat.

Lemma grows_store t d w w' : touches [t; scratch t] d w w' -> grows (room d) w w'.
Proof. intros Ht%touches_size. unfold grows, room. simpl in Ht. lia. Qed.

Lemma quiet_touches dir ps d w w' :
  touches ps d w w' ->
  (forall name, child dir name ∈ ps ->
     (record_name name -> files w !! child dir name = None) /\ name <> "manifest.csv") ->
  quiet dir w w'.
Proof.
  intros [_ Ht] Hps. split.
  - intros name c m Hn Hf. destruct (decide (child dir name ∈ ps)) as [Hin|Hin].
    + apply Hps in Hin as [Hin _]. by rewrite (Hin Hn) in Hf.
    + destruct (Ht _ Hin) as [->|(E & _)]; congruence.
  - unfold read_text. assert (Hin : manifest dir ∉ ps) by (intros Hin; by apply Hps in Hin as [_ ?]).
    destruct (Ht _ Hin) as [->|(-> & -> & _)]; done.
Qed.

(** One file stored under a record name that was free. *)
Lemma store_post dir name data w :
  files w !! child dir name = None -> name <> "manifest.csv" ->
  post (storeAtomically (child dir name) data)
    (fun ok w' => quiet dir w w' /\ touches [child dir name; scratch (child dir name)] dir w w' /\
       (ok = true -> exists m, files w' !! child dir name = Some (File data m))) w.
Proof.
  intros Hf Hn. eapply wp_mono; [..|by apply storeAtomically_wp]; [|done|done].
  intros okb w' [Ht Hok]. change (parent_path (child dir name)) with dir in Ht. split; [|split; [done|]].
  - eapply quiet_touches; [exact Ht|]. unfold child. simpl.
    intros n [E|[E|[]%elem_of_nil]%elem_of_cons]%elem_of_cons; injection E as ->; [done|].
    split; [by intros ?%tmp_not_record|]. intros E. apply (f_equal str_last) in E.
    by rewrite str_last_app in E.
  - intros ->. done.
Qed.

Section jobs.
Context `{Codec} (has_context : bool).

(** How the bytes of a record are on disk. *)
Definition on_disk (w : world) (dir : path) (base raw : string) (level : Z) (compressed : bool) : Prop :=
  if compressed then
    exists c m, ZSTD_compress2 level raw = Some c /\
      files w !! child dir (file_of base true) = Some (File c m)
  else exists m, files w !! child dir (file_of base false) = Some (File raw m).

Lemma on_disk_quiet w w' dir base raw level compressed :
  quiet dir w w' -> on_disk w dir base raw level compressed -> on_disk w' dir base raw level compressed.
Proof.
  intros [Hq _]. destruct compressed.
  - intros (c & m & Hc & Hf). exists c, m. split; [done|]. apply Hq; [apply record_name_zst|done].
  - intros (m & Hf). exists m. apply Hq; [apply record_name_bin|done].
Qed.

Lemma storeRecord_post dir base raw job w :
  files w !! child dir (file_of base false) = None -> files w !! child dir (file_of base true) = None ->
  post (storeRecord has_context dir base raw job)
    (fun result w' => quiet dir w w' /\ grows (2 * room dir) w w' /\
       (result.2 = true -> on_disk w' dir base raw (compressionLevel job) result.1)) w.
Proof.
  intros Hb Hz. unfold storeRecord.
  assert (Hnb : file_of base false <> "manifest.csv").
  { intros E. apply (f_equal str_last) in E. unfold file_of in E. by rewrite str_last_app in E. }
  assert (Hnz : file_of base true <> "manifest.csv").
  { intros E. apply (f_equal str_last) in E. unfold file_of in E. by rewrite str_last_app in E. }
  assert (Hne : file_of base false <> file_of base true).
  { intros E. apply (f_equal str_last) in E. unfold file_of in E. by rewrite !str_last_app in E. }
  (* the second file, after the first one *)
  assert (Hsecond : forall compressed w1, quiet dir w w1 -> grows (room dir) w w1 ->
    files w1 !! child dir (file_of base false) = None ->
    (compressed = true -> on_disk w1 dir base raw (compressionLevel job) true) ->
    post (stored ← (if negb compressed || keepRaw job
                    then storeAtomically (child dir (base +:+ ".bin")) raw else mret true);
          mret (compressed, stored))
      (fun result w' => quiet dir w w' /\ grows (2 * room dir) w w' /\
         (result.2 = true -> on_disk w' dir base raw (compressionLevel job) result.1)) w1).
  { intros compressed w1 Hq1 Hg1 Hb1 Hc. apply wp_bind.
    destruct (negb compressed || keepRaw job) eqn:Ek; cycle 1.
    - apply wp_ret, wp_ret. split; [done|]. split; [unfold grows in *; lia|]. intros _. destruct compressed; [by apply Hc|done].
    - eapply wp_mono; [..|apply (store_post dir (file_of base false) raw w1 Hb1 Hnb)]; [|done|done].
      intros stored w2 (Hq2 & Hg2%grows_store & Hs). apply wp_ret. split; [by etrans|].
      split; [unfold grows in *; lia|]. simpl. intros ->.
      destruct compressed; [by eapply on_disk_quiet, Hc|]. by apply Hs. }
  apply wp_bind. destruct (compressionEnabled job && has_context);
    [|apply wp_ret, Hsecond; try done; unfold grows; lia].
  destruct (ZSTD_compress2 (compressionLevel job) raw) as [c|] eqn:Ec;
    [|apply wp_ret, Hsecond; try done; unfold grows; lia].
  replace ((base +:+ ".bin") +:+ ".zst") with (file_of base true)
    by (unfold file_of; by rewrite app_assoc_str).
  eapply wp_mono; [..|apply (store_post dir (file_of base true) c w Hz Hnz)]; [|done|done].
  intros compressed w1 (Hq1 & Ht & Hs). apply Hsecond; [done|by eapply grows_store| |].
  - rewrite (touches_same _ _ _ _ _ Ht); [done| |].
    + unfold child. simpl. intros [E|[E|[]%elem_of_nil]%elem_of_cons]%elem_of_cons; injection E as E; [done|].
      apply (f_equal str_last) in E. unfold file_of in E. rewrite !str_last_app in E. done.
    + intros Hsuf. apply suffix_length in Hsuf. unfold child in Hsuf. simpl in Hsuf. lia.
  - intros ->. destruct (Hs eq_refl) as [m Hm]. exists c, m. done.
Qed.
(** ** Converted copies *)

Lemma quiet_below dir kind leaf w w' :
  let t := child (child dir kind) leaf in
  touches [t; scratch t] (child dir kind) w w' -> quiet dir w w'.
Proof.
  intros t Ht. eapply quiet_touches; [exact Ht|]. intros n.
  assert (Hne : dir <> child dir kind).
  { intros E. apply (f_equal length) in E. unfold child in E. simpl in E. lia. }
  unfold t, child. simpl. intros [E|[E|[]%elem_of_nil]%elem_of_cons]%elem_of_cons; injection E; done.
Qed.

Lemma convertImage_post message dir kind base job w :
  post (convertImage message (child dir kind) base job)
    (fun _ w' => quiet dir w w' /\ grows (S (room dir)) w w') w.
Proof.
  unfold convertImage.
  assert (Hid : post (mret false) (fun (_ : bool) w' => quiet dir w w' /\ grows (S (room dir)) w w') w).
  { apply wp_ret. split; [done|unfold grows; lia]. }
  destruct (negb _); [done|]. destruct (negb _); [done|].
  destruct (imencode _ _ _) as [encoded| |]; [|done|by apply wp_throw].
  eapply wp_mono; [..|by apply storeAtomically_wp]; [|done|done].
  intros okb w' [Ht _]. split; [exact (quiet_below dir kind _ w w' Ht)|]. apply touches_size in Ht.
  unfold grows, room. unfold child in Ht. simpl in Ht. lia.
Qed.

Lemma convertPointCloud_post message dir kind base job w :
  post (convertPointCloud message (child dir kind) base job)
    (fun _ w' => quiet dir w w' /\ grows (S (room dir)) w w') w.
Proof.
  unfold convertPointCloud. set (t := child (child dir kind) (base +:+ ".pcd")).
  set (ps := [t; scratch t]). set (d := child dir kind).
  assert (Hid : forall w1, touches ps d w w1 -> quiet dir w w1 /\ grows (S (room dir)) w w1).
  { intros w1 Ht. split; [exact (quiet_below dir kind _ w w1 Ht)|]. apply touches_size in Ht.
    unfold grows, room. unfold d, child in Ht. simpl in Ht. lia. }
  pose proof (touches_refl ps d w) as Hr.
  destruct (negb _); [by apply wp_ret, Hid|].
  (* the rename, once the temporary file is written *)
  assert (Hrest : forall w1, touches ps d w w1 ->
    post (renamed ← rename (scratch t) t;
          if negb renamed then (_ ← remove_or_throw (scratch t); mret false) else
          _ ← sync t; _ ← sync d; mret true)
      (fun _ w' => quiet dir w w' /\ grows (S (room dir)) w w') w1).
  { intros w1 H1. apply wp_bind, (rename_wp ps d); [set_solver..|by apply scratch_ne| |].
    - split; [done|]. simpl. unfold remove_or_throw.
      apply wp_bind, wp_bind, (remove_wp ps d); [set_solver|split; [done|by apply wp_throw]|].
      intros w2 H2 _ _. split; [done|]. apply wp_ret, wp_ret, Hid. by etrans.
    - intros w2 c m H2 _ _ _ _. split; [done|]. simpl. assert (touches ps d w w2) by (by etrans).
      apply wp_bind, wp_query; [|apply wp_bind, wp_query; [by apply wp_ret, Hid..|done]|done].
      apply wp_bind, wp_query; [by apply wp_ret, Hid..|done]. }
  assert (Hdrop : forall w1, touches ps d w w1 ->
    post (_ ← remove (scratch t); mret false)
      (fun (_ : bool) w' => quiet dir w w' /\ grows (S (room dir)) w w') w1).
  { intros w1 H1. apply wp_bind, (remove_wp ps d); [set_solver|split; [done|by apply wp_ret, Hid]|].
    intros w2 H2 _ _. split; [done|]. apply wp_ret, Hid. by etrans. }
  destruct (fromROSMsg message) as [cloud|]; [|by apply wp_throw]. fold t.
  assert (Hsaved : forall opened w1, touches ps d w w1 ->
    post (match pcd_bytes cloud with
          | Raised => throw
          | Declined => mret false
          | Encoded bytes =>
              written ← stream_write opened (scratch t) bytes;
              if negb written && pcd_raises then throw else mret written
          end) (fun _ w' => touches ps d w w') w1).
  { intros opened w1 H1. destruct (pcd_bytes cloud) as [bytes| |]; [|by apply wp_ret|by apply wp_throw].
    assert (Hend : forall written w2, touches ps d w w2 ->
      post (if negb written && pcd_raises then throw else mret written) (fun _ w' => touches ps d w w') w2)
      by (intros written w2 H2; destruct (negb written && pcd_raises); [by apply wp_throw|by apply wp_ret]).
    apply wp_bind. unfold stream_write. destruct opened; [|by apply wp_ret, Hend].
    apply (write_stream_wp ps d); [set_solver| |].
    - intros w2 H2. split; [done|]. apply Hend. by etrans.
    - intros H2. apply Hend. by etrans. }
  apply wp_bind. unfold savePCD. apply wp_bind, (open_trunc_wp ps d); [set_solver| |].
  - intros w1 H1. split; [done|]. eapply wp_post; [|by apply Hsaved].
    intros [] w2 H2; [by apply Hrest|by apply Hdrop].
  - intros w1 H1 _. eapply wp_post; [|by apply Hsaved].
    intros [] w2 H2; [by apply Hrest|by apply Hdrop].
Qed.

Lemma imageExtension_clean format : clean_field (imageExtension format).
Proof. unfold imageExtension. by destruct (String.eqb format "png"). Qed.

Lemma clean_app a b : clean_field a -> clean_field b -> clean_field (a +:+ b).
Proof. unfold clean_field. rewrite !lacks_app. tauto. Qed.

Lemma convertRecord_post data dir base job w :
  base_name base ->
  post (convertRecord data dir base job)
    (fun name w' => quiet dir w w' /\ grows (3 * room dir) w w' /\ clean_field name) w.
Proof.
  intros Hb. unfold convertRecord.
  set (kind := match sd_type data with CAMERA => "images" | LIDAR => "pointclouds" end%string).
  assert (Hkind : clean_field kind) by (unfold kind; by destruct (sd_type data)).
  assert (Hbase : clean_field base).
  { unfold clean_field. repeat split; by apply base_lacks. }
  assert (Hext : clean_field (match sd_type data with CAMERA => imageExtension (imageFormat job)
                     | LIDAR => ".pcd" end%string)).
  { destruct (sd_type data); [apply imageExtension_clean|done]. }
  apply wp_bind, (create_directories_wp [] (child dir kind)); [done|]. intros w1 H1. split; [done|].
  assert (Hq1 : quiet dir w w1) by (eapply quiet_touches; [exact H1|set_solver]).
  assert (Hg1 : grows (2 + length dir) w w1).
  { apply touches_size in H1. unfold grows. unfold child in H1. simpl in H1. lia. }
  split; [apply wp_ret; split; [done|]; split; [unfold grows, room in *; lia|done]|]. intros _. simpl.
  assert (Hgoal : forall m : M bool, post m (fun _ w' => quiet dir w1 w' /\ grows (S (room dir)) w1 w') w1 ->
    post (converted ← m;
          mret (if converted : bool then kind +:+ "/" +:+ base +:+
            (match sd_type data with CAMERA => imageExtension (imageFormat job)
             | LIDAR => ".pcd" end)%string else ""))
      (fun name w' => quiet dir w w' /\ grows (3 * room dir) w w' /\ clean_field name) w1).
  { intros m Hm. apply wp_bind. eapply wp_mono; [..|exact Hm]; [|done|done].
    intros converted w2 [Hq2 Hg2]. apply wp_ret. split; [by etrans|].
    split; [unfold grows, room in *; lia|]. destruct converted; [|done]. by repeat apply clean_app. }
  apply Hgoal. destruct (sd_type data), (sd_data data) as [c|l]; try by apply wp_throw.
  - destruct (camera_image c); [apply convertImage_post|by apply wp_throw].
  - destruct (lidar_cloud l); [apply convertPointCloud_post|by apply wp_throw].
Qed.

(** ** The rows of the manifest *)

(** The entry describes the record, and its file holds the record's bytes. *)
Definition stored_as (w : world) (job : Job) (data : SensorData) (e : ManifestEntry) : Prop :=
  exists base raw compressed, serialize data = Some raw /\ base_name base /\
    on_disk w (directory job) base raw (compressionLevel job) compressed /\
    me_sensor e = prefix_of data /\ timestampNs e = timestampOf data /\
    me_file e = file_of base compressed /\ me_encoding e = encoding_of compressed /\
    clean_field (convertedFile e).

Definition entry_row (e : ManifestEntry) : string :=
  csv_row [me_sensor e; to_string (timestampNs e); me_file e; me_encoding e; convertedFile e].

Lemma stored_as_keeps w w' job data e :
  (forall name c m, record_name name -> files w !! child (directory job) name = Some (File c m) ->
     files w' !! child (directory job) name = Some (File c m)) ->
  stored_as w job data e -> stored_as w' job data e.
Proof.
  intros Hk (base & raw & compressed & Hs & Hb & Hd & He). exists base, raw, compressed.
  split; [done|]. split; [done|]. split; [|done]. destruct compressed.
  - destruct Hd as (c & m & Hc & Hf). exists c, m. split; [done|]. apply Hk; [apply record_name_zst|done].
  - destruct Hd as (m & Hf). exists m. apply Hk; [apply record_name_bin|done].
Qed.

(** Record files survive and the manifest text has grown by [rows]. *)
Definition extends (dir : path) (rows : list string) (w w' : world) : Prop :=
  (forall name c m, record_name name -> files w !! child dir name = Some (File c m) ->
     files w' !! child dir name = Some (File c m)) /\
  read_text w' (manifest dir) = (fun text => text +:+ unlines rows) <$> read_text w (manifest dir).

Lemma extends_quiet dir w w' : quiet dir w w' -> extends dir [] w w'.
Proof.
  intros [Hk Hm]. split; [done|]. rewrite Hm. destruct (read_text w (manifest dir)); [|done].
  simpl. by rewrite app_nil_r_str.
Qed.

Lemma extends_trans dir r1 r2 w1 w2 w3 :
  extends dir r1 w1 w2 -> extends dir r2 w2 w3 -> extends dir (r1 ++ r2) w1 w3.
Proof.
  intros [K1 M1] [K2 M2]. split; [eauto|]. rewrite M2, M1. destruct (read_text w1 (manifest dir)); [|done].
  simpl. by rewrite unlines_app, app_assoc_str.
Qed.

Lemma append_extends dir row w :
  is_Some (read_text w (manifest dir)) ->
  extends dir [row] w (append_to (manifest dir) (row +:+ newline) w) /\
  grows 0 w (append_to (manifest dir) (row +:+ newline) w).
Proof.
  unfold read_text. intros [text Hm].
  destruct (files w !! manifest dir) as [[c m| |]|] eqn:E; [|done..]. injection Hm as ->.
  unfold append_to. rewrite E. split; [split|].
  - intros name c' m' Hn Hf. rewrite lookup_put, decide_False; [done|]. unfold child. intros [= <-].
    by destruct Hn.
  - unfold read_text. rewrite lookup_put, decide_True, E by done. done.
  - unfold grows. simpl. rewrite map_size_insert, E. simpl. lia.
Qed.

(** What a round of the loop, or the whole loop over [l], may have done. *)
Definition recorded (job : Job) (l : list SensorData) (before after : JobOutcome) (w w' : world) : Prop :=
  ok after = true -> ok before = true /\
    exists entries, extends (directory job) (entry_row <$> entries) w w' /\
      Forall2 (stored_as w' job) (List.filter (enabled job) l) entries /\
      persisted after = persisted before + Z.of_nat (length entries).

Lemma base_prefix_base data : base_name (base_prefix data).
Proof.
  assert (Hz : str_all record_char (to_string (timestampOf data)) = true).
  { eapply str_all_impl; [|apply to_string_chars]. intros c Hd. unfold record_char, isalnum.
    apply orb_true_iff in Hd as [-> | ->]; [done|by rewrite !orb_true_r]. }
  unfold base_prefix, base_name. rewrite !str_all_app, Hz. split; [|split].
  - unfold prefix_of. by destruct (sd_type data).
  - unfold has_char, str_any. rewrite !str_all_app. simpl. by rewrite andb_false_r.
  - unfold prefix_of. by destruct (sd_type data).
Qed.

Definition round_post (job : Job) (data : SensorData) (outcome : JobOutcome) (w : world)
    (next : control) (w' : world) : Prop :=
  grows (5 * room (directory job)) w w' /\
  match next with
  | Break outcome' => ok outcome' = false
  | Next outcome' =>
      is_Some (read_text w' (manifest (directory job))) /\ recorded job [data] outcome outcome' w w'
  end.

Lemma persistRecord_post job good data raw base outcome w :
  let dir := directory job in
  enabled job data = true -> serialize data = Some raw -> base_name base ->
  files w !! child dir (file_of base false) = None -> files w !! child dir (file_of base true) = None ->
  is_Some (read_text w (manifest dir)) ->
  post (persistRecord has_context job good data raw base outcome) (round_post job data outcome w) w.
Proof.
  intros dir Hen Es Hbp Hb0 Hz0 Hman. unfold persistRecord, round_post. fold dir. apply wp_bind.
  eapply wp_mono; [..|apply (storeRecord_post dir base raw job w Hb0 Hz0)]; [|done|done].
  intros [compressed stored] w1 (Hq1 & Hg1 & Hd1). simpl in Hd1.
  destruct stored; simpl; cycle 1.
  { apply wp_ret. split; [unfold grows in *; lia|]. split; [|done]. by destruct Hq1 as [_ ->]. }
  apply wp_bind.
  assert (Hconv : post (if conversionEnabled job then convertRecord data dir base job else mret EmptyString)
    (fun name w' => quiet dir w1 w' /\ grows (3 * room dir) w1 w' /\ clean_field name) w1).
  { destruct (conversionEnabled job); [by apply convertRecord_post|]. apply wp_ret.
    split; [done|]. split; [unfold grows; lia|done]. }
  eapply wp_mono; [..|exact Hconv]; [|done|done]. intros converted w2 (Hq2 & Hg2 & Hclean).
  assert (Hq : quiet dir w w2) by (by etrans).
  assert (Hm2 : is_Some (read_text w2 (manifest dir))) by (destruct Hq as [_ ->]; done).
  assert (Hbreak : forall w3, (size (files w3) <= size (files w2))%nat ->
    post (mret (Break (note_failure "manifest_write_failed" outcome))) (round_post job data outcome w) w3).
  { intros w3 Hw3. apply wp_ret. split; [unfold grows in *; fold dir; lia|done]. }
  destruct (append_extends dir (manifest_row (prefix_of data) (timestampOf data) (file_of base compressed)
    compressed converted) w2 Hm2) as [Hx Hg3].
  apply wp_bind. unfold stream_write. destruct good; [|apply wp_ret; by apply Hbreak].
  apply wp_stepwise; [by apply Hbreak|done|].
  intros w3 [= <-]. split; [|intros n; split; [|done]; simpl; apply Hbreak].
  - cbn [negb]. fold (file_of base compressed). apply wp_ret. split; [unfold grows, room in *; fold dir; lia|].
    split; [fold dir; destruct Hx as [_ ->]; by destruct Hm2 as [? ->]|]. intros Hok. split; [done|].
    exists [{| me_sensor := prefix_of data; timestampNs := timestampOf data;
               me_file := file_of base compressed; me_encoding := encoding_of compressed;
               convertedFile := converted |}].
    split; [apply (extends_trans dir [] _ w w2); [by apply extends_quiet|exact Hx]|].
    split; [|simpl; lia]. simpl. rewrite Hen. constructor; [|constructor].
    apply (stored_as_keeps w2); [apply Hx|]. exists base, raw, compressed.
    split; [done|]. split; [done|]. split; [|done].
    apply (on_disk_quiet w1); [done|by apply Hd1].
  - unfold append_to. destruct (files w2 !! manifest dir) as [[c m| |]|] eqn:E; try done.
    simpl. rewrite map_size_insert, E. done.
Qed.

(** One round of the loop: a success adds exactly the row of the record. *)
Lemma writeRecord_post fuel job good data outcome w :
  (size (files w) <= fuel)%nat -> is_Some (read_text w (manifest (directory job))) ->
  post (writeRecord has_context fuel job good data outcome) (round_post job data outcome w) w.
Proof.
  intros Hfuel Hman. unfold writeRecord. destruct (enabled job data) eqn:Hen; simpl; cycle 1.
  { apply wp_ret. split; [unfold grows; lia|]. split; [done|]. intros Hok. split; [done|].
    exists []. simpl. rewrite Hen. split; [by apply extends_quiet|]. split; [constructor|lia]. }
  destruct (serialize data) as [raw|] eqn:Es; [|by apply wp_throw].
  apply wp_bind. eapply wp_mono; [..|by apply freeName_wp]; [|done|done].
  intros base w' (-> & Hb & Hz & k & ->). apply persistRecord_post; try done.
  apply numbered_base, base_prefix_base.
Qed.

(** The whole loop. *)
Lemma writeRecords_post fuel job good l outcome w :
  (size (files w) + 5 * room (directory job) * length l <= fuel)%nat ->
  is_Some (read_text w (manifest (directory job))) ->
  post (writeRecords has_context fuel job good l outcome)
    (fun result w' => recorded job l outcome result.1 w w' /\
       (ok result.1 = true -> result.2 = good)) w.
Proof.
  revert outcome w. induction l as [|data l IH]; intros outcome w Hfuel Hman.
  - apply wp_ret. split; [|done]. intros Hok. split; [done|]. exists [].
    split; [by apply extends_quiet|]. split; [constructor|simpl; lia].
  - simpl in Hfuel. cbn [writeRecords]. apply wp_bind.
    eapply wp_mono; [..|apply (writeRecord_post fuel job good data outcome w); [lia|done]]; [|done|done].
    intros [outcome1|outcome1] w1 [Hg1 H1]; [|apply wp_ret; simpl; by split; intros Hok; rewrite Hok in H1].
    destruct H1 as [Hman1 H1].
    eapply wp_mono; [..|apply (IH outcome1 w1); [unfold grows in Hg1; lia|done]]; [|done|done].
    intros [outcome2 good2] w2 [H2 Hgood]. simpl in *. split; [|done]. intros Hok.
    destruct (H2 Hok) as (Hok1 & e2 & Hx2 & Hf2 & Hp2).
    destruct (H1 Hok1) as (Hok0 & e1 & Hx1 & Hf1 & Hp1). split; [done|]. exists (e1 ++ e2).
    rewrite fmap_app, length_app. split; [by eapply extends_trans|]. split; [|lia].
    change (data :: l) with ([data] ++ l). rewrite List.filter_app. apply Forall2_app; [|done].
    eapply Forall2_impl; [exact Hf1|]. intros d e. apply stored_as_keeps. apply Hx2.
Qed.

(** ** Around the loop *)

Lemma open_append_wp p (Q : bool -> world -> Prop) (E C : world -> Prop) w :
  Q false w -> C w ->
  (forall content m, read_text w p = Some content \/ (files w !! p = None /\ content = "") ->
     Q true (put p (File content m) w) /\ C (put p (File content m) w)) ->
  wp (open_append p) Q E C w.
Proof.
  intros Hf Hc Ht. apply wp_atomically; [done..|]. unfold open_for_writing. intros w'.
  destruct (negb _); [done|]. destruct (files w !! p) as [[c m| |]|] eqn:Ep; try done; intros [= <-].
  - apply Ht. left. unfold read_text. by rewrite Ep.
  - apply Ht. by right.
Qed.

Lemma grows_put p n k w w' : grows k w w' -> grows (S k) w (put p n w').
Proof.
  unfold grows. simpl. rewrite map_size_insert. destruct (files w' !! p); simpl; lia.
Qed.

Lemma append_size p data w : size (files (append_to p data w)) = size (files w).
Proof.
  unfold append_to. destruct (files w !! p) as [[c m| |]|] eqn:E; try done.
  simpl. by rewrite map_size_insert, E.
Qed.

Lemma quiet_put_pairs dir n w : quiet dir w (put (child dir "pairs.csv") n w).
Proof.
  apply (quiet_touches dir [child dir "pairs.csv"] dir); [apply touches_put; set_solver|].
  unfold child. intros name [E|[]%elem_of_nil]%elem_of_cons. injection E as ->. split; [by intros [|]|done].
Qed.

Lemma quiet_append_pairs dir data w : quiet dir w (append_to (child dir "pairs.csv") data w).
Proof.
  unfold append_to. destruct (files w !! child dir "pairs.csv") as [[c m| |]|]; try done.
  apply quiet_put_pairs.
Qed.

Lemma stream_write_wp good p data (Q : bool -> world -> Prop) (E C : world -> Prop) w :
  (forall n, Q false (append_to p (String.substring 0 n data) w) /\
             C (append_to p (String.substring 0 n data) w)) ->
  Q false w -> C w -> (good = true -> Q true (append_to p data w)) ->
  wp (stream_write good p data) Q E C w.
Proof.
  intros Hn Hq Hc Ht. unfold stream_write. destruct good; [|by apply wp_ret].
  apply wp_stepwise; [done..|]. intros w' [= <-]. split; [by apply Ht|]. intros n. apply Hn.
Qed.

Lemma writePairs_post dir pairs w :
  post (writePairs dir pairs) (fun _ w' => quiet dir w w' /\ grows 1 w w') w.
Proof.
  unfold writePairs. case_bool_decide; [apply wp_ret; split; [done|unfold grows; lia]|].
  assert (Hloop : forall good w1, quiet dir w w1 -> grows 1 w w1 ->
    post (for_each pairs (fun pair good => stream_write good (child dir "pairs.csv") (pair_row pair +:+ newline)) good)
      (fun _ w' => quiet dir w w' /\ grows 1 w w') w1).
  { intros good w1 Hq1 Hg1.
    apply (wp_for_each pairs _ (fun _ _ w' => quiet dir w w' /\ grows 1 w w')); [|done].
    intros before pair rest good2 w2 _ [Hq2 Hg2].
    assert (Hstep : forall data, quiet dir w (append_to (child dir "pairs.csv") data w2) /\
      grows 1 w (append_to (child dir "pairs.csv") data w2)).
    { intros data. split; [etrans; [exact Hq2|apply quiet_append_pairs]|]. unfold grows.
      by rewrite append_size. }
    by apply stream_write_wp; auto. }
  apply wp_bind, open_append_wp; [apply wp_ret; split; [done|unfold grows; lia]|done|].
  intros content m _. split; [|done]. cbn [negb]. set (w1 := put (child dir "pairs.csv") (File content m) w).
  assert (Hq1 : quiet dir w w1) by apply quiet_put_pairs.
  assert (Hg1 : grows 1 w w1) by (apply grows_put; unfold grows; lia).
  apply wp_bind, wp_at_start; [|done]. apply wp_bind.
  destruct (match files w1 !! _ with Some _ => _ | None => _ end); [|by apply wp_ret, Hloop].
  assert (Hstep : forall data, quiet dir w (append_to (child dir "pairs.csv") data w1) /\
    grows 1 w (append_to (child dir "pairs.csv") data w1)).
  { intros data. split; [etrans; [exact Hq1|apply quiet_append_pairs]|]. unfold grows. by rewrite append_size. }
  change (write_stream (child dir "pairs.csv") (pairs_header +:+ newline)) with
    (stream_write true (child dir "pairs.csv") (pairs_header +:+ newline)).
  apply stream_write_wp; [|by apply Hloop|done|].
  - intros n. split; [|done]. by apply Hloop; apply Hstep.
  - intros _. by apply Hloop; apply Hstep.
Qed.

(** The record files of [w] are still there, and the manifest of the directory
    holds [rows]. *)
Definition holds (dir : path) (rows : list string) (w w' : world) : Prop :=
  (forall name c m, record_name name -> files w !! child dir name = Some (File c m) ->
     files w' !! child dir name = Some (File c m)) /\
  read_text w' (manifest dir) = Some (unlines rows).

Definition with_header (old : list string) : list string :=
  match old with [] => [manifest_header] | _ => old end.

Lemma keeps_put_manifest dir n w w' :
  (forall name c m, record_name name -> files w !! child dir name = Some (File c m) ->
     files w' !! child dir name = Some (File c m)) ->
  forall name c m, record_name name -> files w !! child dir name = Some (File c m) ->
     files (put (manifest dir) n w') !! child dir name = Some (File c m).
Proof.
  intros Hk name c m Hn Hf. rewrite lookup_put, decide_False; [by apply Hk|].
  unfold child. intros [= <-]. by destruct Hn.
Qed.

(** Opening the manifest and writing its header: [good] is whether the stream
    is usable, and then the table has its header. *)
Lemma open_manifest_post dir old w w1 (k : bool -> M JobOutcome) Q :
  (forall name c m, record_name name -> files w !! child dir name = Some (File c m) ->
     files w1 !! child dir name = Some (File c m)) ->
  default "" (read_text w1 (manifest dir)) = unlines old -> Forall (lacks LF) old ->
  (forall good w2, (size (files w2) <= S (size (files w1)))%nat -> is_Some (read_text w2 (manifest dir)) ->
     (good = true -> holds dir (with_header old) w w2) -> post (k good) Q w2) ->
  Q (failure "manifest_open_failed") w1 ->
  post (opened ← open_append (manifest dir);
        if negb opened then mret (failure "manifest_open_failed") else
        start ← at_start (manifest dir);
        good ← (if start : bool then write_stream (manifest dir) (manifest_header +:+ newline) else mret true);
        k good) Q w1.
Proof.
  intros Hk Hold Hlf Hcont Hfail. apply wp_bind, open_append_wp; [by apply wp_ret|done|].
  intros content m Hc. split; [|done]. cbn [negb].
  assert (content = unlines old) as ->.
  { destruct Hc as [Hc|[Hc ->]]; [by rewrite Hc in Hold|]. unfold read_text in Hold. by rewrite Hc in Hold. }
  set (w2 := put (manifest dir) (File (unlines old) m) w1).
  assert (Hs2 : (size (files w2) <= S (size (files w1)))%nat).
  { pose proof (grows_put (manifest dir) (File (unlines old) m) 0 w1 w1) as Hg.
    unfold grows in Hg. unfold w2. lia. }
  assert (Hr2 : read_text w2 (manifest dir) = Some (unlines old)).
  { unfold read_text, w2. by rewrite lookup_put, decide_True. }
  assert (Hf2 : files w2 !! manifest dir = Some (File (unlines old) m)).
  { unfold w2. by rewrite lookup_put, decide_True. }
  apply wp_bind, wp_at_start; [|done]. rewrite Hf2. apply wp_bind.
  assert (Hk2 : forall name c m, record_name name -> files w !! child dir name = Some (File c m) ->
     files w2 !! child dir name = Some (File c m)) by (by apply keeps_put_manifest).
  destruct old as [|line old]; cycle 1.
  - replace (String.eqb (unlines (line :: old)) "") with false.
    2:{ symmetry. apply String.eqb_neq. simpl. by destruct line. }
    apply wp_ret, Hcont; [done|by rewrite Hr2|]. intros _. by split.
  - simpl String.eqb. cbv iota.
    change (write_stream (manifest dir) (manifest_header +:+ newline)) with
      (stream_write true (manifest dir) (manifest_header +:+ newline)).
    assert (Happ : forall data, read_text (append_to (manifest dir) data w2) (manifest dir) = Some data).
    { intros data. unfold append_to, read_text. rewrite Hf2. by rewrite lookup_put, decide_True. }
    assert (Hsz : forall data, (size (files (append_to (manifest dir) data w2)) <= S (size (files w1)))%nat)
      by (intros data; by rewrite append_size).
    apply stream_write_wp; [|apply Hcont; [done|by rewrite Hr2|done]|done|].
    + intros n. split; [|done]. apply Hcont; [done|by rewrite Happ|done].
    + intros _. apply Hcont; [done|by rewrite Happ|]. intros _. split; [|by rewrite Happ].
      unfold append_to. rewrite Hf2. by apply keeps_put_manifest.
Qed.

(** What a job that reports success has done, from a manifest of the lines [old]. *)
Definition job_written (job : Job) (old : list string) (w : world) (outcome : JobOutcome) (w' : world)
    : Prop :=
  ok outcome = true -> exists entries,
    holds (directory job) (with_header old ++ (entry_row <$> entries)) w w' /\
    Forall2 (stored_as w' job) (List.filter (enabled job) (records job)) entries /\
    persisted outcome = Z.of_nat (length entries).

(** The job after the disk check. *)
Lemma writeJobFiles_post fuel job old w :
  let dir := directory job in
  (size (files w) + (length dir + 3) + 5 * room dir * length (records job) <= fuel)%nat ->
  default "" (read_text w (manifest dir)) = unlines old -> Forall (lacks LF) old ->
  post (writeJobFiles has_context fuel job)
    (job_written job old w) w.
Proof.
  intros dir Hfuel Hold Hlf. unfold writeJobFiles. fold dir.
  apply wp_bind, (create_directories_wp [] dir); [done|]. intros w1 T1. split; [done|].
  split; [by apply wp_ret|]. intros _. cbn [negb].
  assert (Hq1 : quiet dir w w1) by (eapply quiet_touches; [exact T1|set_solver]).
  apply touches_size in T1. simpl in T1.
  apply (open_manifest_post dir old w w1); [apply Hq1|by destruct Hq1 as [_ ->]|done| |done].
  intros good w2 Hs2 Hm2 Hh2. apply wp_bind. eapply wp_mono; [..|apply writePairs_post]; [|done|done].
  intros pairsOk w3 [Hq3 Hg3]. cbv zeta. apply wp_bind.
  eapply wp_mono; [..|apply writeRecords_post; [unfold grows in Hg3; fold dir; lia|]]; [|done|done|].
  2:{ fold dir. by destruct Hq3 as [_ ->]. }
  intros [outcome good4] w4 [Hrec Hgood]. simpl in Hrec, Hgood. apply wp_bind.
  assert (Htext : good4 = true -> job_written job old w outcome (append_to (manifest dir) "" w4)).
  { intros Hg Hok. destruct (Hrec Hok) as (Hok0 & entries & [Hk Ht] & Hf2 & Hp).
    specialize (Hgood Hok). rewrite Hg in Hgood. destruct (Hh2 (eq_sym Hgood)) as [Hk2 Ht2].
    destruct Hq3 as [Hk3 Ht3]. fold dir in Hk, Ht.
    rewrite Ht3, Ht2 in Ht. simpl in Ht. rewrite <- unlines_app in Ht.
    assert (Hk4 : forall name c m, record_name name -> files w4 !! child dir name = Some (File c m) ->
      files (append_to (manifest dir) "" w4) !! child dir name = Some (File c m)).
    { intros name c m Hn Hf. unfold append_to.
      destruct (files w4 !! manifest dir) as [[c' m'| |]|]; try done. by apply (keeps_put_manifest dir _ w4). }
    exists entries. split; [split; [eauto 10|]|split].
    - unfold append_to, read_text in *. destruct (files w4 !! manifest dir) as [[c' m'| |]|] eqn:E; try done.
      rewrite lookup_put, decide_True by done. rewrite app_nil_r_str. done.
    - eapply Forall2_impl; [exact Hf2|]. intros d e. by apply stored_as_keeps.
    - rewrite Hp. destruct pairsOk; simpl; lia. }
  apply stream_write_wp; try done.
  - intros n. split; [|done]. simpl. destruct (finalJob job); by apply wp_ret.
  - simpl. destruct (finalJob job); by apply wp_ret.
  - intros Hg4. cbn [negb]. specialize (Htext Hg4). set (w5 := append_to (manifest dir) "" w4) in *.
    destruct (finalJob job && ok outcome); [|by apply wp_ret].
    assert (Hret : post (mret outcome) (job_written job old w) w5) by (apply wp_ret; exact Htext).
    assert (Hsync : forall b : bool,
      post (_ ← (if b then sync (child dir "pairs.csv") else mret tt); mret outcome)
        (job_written job old w) w5).
    { intros []; apply wp_bind; [by apply wp_query|by apply wp_ret]. }
    assert (Hex : post (hasPairs ← exists_or_throw (child dir "pairs.csv");
      _ ← (if hasPairs : bool then sync (child dir "pairs.csv") else mret tt); mret outcome)
      (job_written job old w) w5).
    { apply wp_bind. unfold exists_or_throw. apply wp_bind, wp_query; [|by apply wp_throw|done].
      apply wp_ret, Hsync. }
    by apply wp_bind, wp_query.
Qed.

(** ** Reading back *)

Lemma readRows_app {E} (parse : Z -> string -> E + string) n a b :
  readRows parse n (a ++ b) =
    ((readRows parse n a).1 ++ (readRows parse (n + Z.of_nat (length a)) b).1,
     (readRows parse n a).2 ++ (readRows parse (n + Z.of_nat (length a)) b).2).
Proof.
  revert n. induction a as [|line a IH]; intros n; simpl.
  - rewrite Z.add_0_r. by destruct (readRows parse n b).
  - rewrite IH. replace (n + Z.of_nat (S (length a))) with (n + 1 + Z.of_nat (length a)) by lia.
    destruct (readRows parse (n + 1) a) as [e1 p1].
    destruct (readRows parse (n + 1 + Z.of_nat (length a)) b) as [e2 p2].
    destruct (String.eqb line ""); simpl; [done|]. by destruct (parse n line).
Qed.

Lemma prefix_clean data : clean_field (prefix_of data) /\ prefix_of data <> "".
Proof. unfold prefix_of. by destruct (sd_type data). Qed.

Lemma entry_fields_clean w job data e :
  stored_as w job data e ->
  clean_field (me_sensor e) /\ me_sensor e <> "" /\ clean_field (me_file e) /\
  clean_field (me_encoding e) /\ clean_field (convertedFile e).
Proof.
  intros (base & raw & compressed & _ & Hb & _ & E1 & _ & E3 & E4 & Hc). rewrite E1, E3, E4.
  destruct (prefix_clean data). split; [done|]. split; [done|]. split; [by apply file_of_clean|].
  split; [by destruct compressed|done].
Qed.

Lemma entry_row_reads n w job data e :
  stored_as w job data e -> int64 (timestampOf data) ->
  manifestLine n (entry_row e) = inl e /\ entry_row e <> "" /\ lacks LF (entry_row e).
Proof.
  intros Hs Ht. destruct (entry_fields_clean _ _ _ _ Hs) as (C1 & N1 & C3 & C4 & C5).
  assert (Hclean : Forall clean_field
    [me_sensor e; to_string (timestampNs e); me_file e; me_encoding e; convertedFile e]).
  { repeat (apply Forall_cons; split); try done. apply to_string_clean. }
  destruct Hs as (base & raw & compressed & _ & _ & _ & _ & E2 & _). split; [|split].
  - unfold manifestLine, entry_row. rewrite splitCsvLine_row by done. unfold field. simpl.
    rewrite E2, parseI64_to_string by done. rewrite <- E2. by destruct e.
  - unfold entry_row. by destruct (me_sensor e).
  - apply csv_row_lacks; [done|]. eapply Forall_impl; [exact Hclean|]. by intros f (_ & _ & ?).
Qed.

Lemma readRows_entries n w job l entries :
  Forall2 (stored_as w job) l entries -> Forall (fun d => int64 (timestampOf d)) l ->
  readRows manifestLine n (entry_row <$> entries) = (entries, []) /\
  Forall (lacks LF) (entry_row <$> entries).
Proof.
  intros Hf. revert n. induction Hf as [|data e l entries Hs Hf IH]; intros n Hall; [done|].
  inversion_clear Hall as [|?? Ht Hall']. destruct (IH (n + 1) Hall') as [E Hlf].
  destruct (entry_row_reads n w job data e Hs Ht) as (Hl & Hne & Hc). csimpl. rewrite E.
  rewrite (proj2 (String.eqb_neq _ _) Hne), Hl. by split; [|constructor].
Qed.

Context `{Zstd}.
(** The compressor and the decompressor agree, the frame telling its size. *)
Context (zstd_agree : forall level raw c, ZSTD_compress2 level raw = Some c ->
  ZSTD_getFrameContentSize c = SizeKnown (byte_size raw) /\ ZSTD_decompress (byte_size raw) c = inl raw).

Lemma stored_as_loads fuel w job data e :
  stored_as w job data e ->
  exists raw stored, serialize data = Some raw /\
    read_text w (child (directory job) (me_file e)) = Some stored /\
    (byte_size raw <= kMaxRecordBytes -> byte_size stored <= kMaxRecordBytes ->
     loadRecordBytes fuel w (directory job) e = Ok (inl raw)).
Proof.
  intros (base & raw & compressed & Hs & Hb & Hd & _ & _ & Hfile & Henc & _).
  assert (Hg : Forall good_name [file_of base compressed]).
  { apply Forall_singleton. by apply file_of_good. }
  assert (Hload : forall stored, read_text w (child (directory job) (file_of base compressed)) = Some stored ->
    byte_size stored <= kMaxRecordBytes ->
    loadRecordBytes fuel w (directory job) e =
      if compressed then decompressZstd fuel stored else Ok (inl stored)).
  { intros stored Hr Hsz. unfold loadRecordBytes. rewrite Hfile, Henc.
    change (file_of base compressed) with (generic_string [file_of base compressed]).
    rewrite generic_string_safe, resolve_generic by done. unfold readFileBytes. simpl negb.
    change ([file_of base compressed] ++ directory job) with (child (directory job) (file_of base compressed)).
    rewrite Hr. replace (byte_size stored >? kMaxRecordBytes) with false by lia.
    by destruct compressed. }
  destruct compressed.
  - destruct Hd as (c & m & Hc & Hf). exists raw, c. split; [done|].
    assert (Hr : read_text w (child (directory job) (file_of base true)) = Some c)
      by (unfold read_text; by rewrite Hf).
    rewrite Hfile. split; [done|]. intros Hsz Hsz'. rewrite (Hload c Hr Hsz').
    destruct (zstd_agree _ _ _ Hc) as [E1 E2]. unfold decompressZstd. rewrite E1, E2.
    by replace (byte_size raw >? kMaxRecordBytes) with false by lia.
  - destruct Hd as (m & Hf). exists raw, raw. split; [done|].
    assert (Hr : read_text w (child (directory job) (file_of base false)) = Some raw)
      by (unfold read_text; by rewrite Hf).
    rewrite Hfile. split; [done|]. intros _ Hsz'. by rewrite (Hload raw Hr Hsz').
Qed.

(** What the reader finds in [w'] of a job that started from [w]. *)
Definition reads_back (fuel : nat) (job : Job) (w : world) (outcome : JobOutcome) (w' : world) : Prop :=
  let dir := directory job in
  exists entries,
    readManifest w' dir = ((readManifest w dir).1 ++ entries, (readManifest w dir).2) /\
    persisted outcome = Z.of_nat (length entries) /\
    Forall2 (fun data e => me_sensor e = prefix_of data /\ timestampNs e = timestampOf data /\
      exists raw stored, serialize data = Some raw /\
        read_text w' (child dir (me_file e)) = Some stored /\
        (byte_size raw <= kMaxRecordBytes -> byte_size stored <= kMaxRecordBytes ->
         loadRecordBytes fuel w' dir e = Ok (inl raw)))
      (List.filter (enabled job) (records job)) entries /\
    (forall name c m, record_name name -> files w !! child dir name = Some (File c m) ->
       files w' !! child dir name = Some (File c m)).

Lemma job_written_reads_back fuel job old w outcome w' :
  let dir := directory job in
  default "" (read_text w (manifest dir)) = unlines old -> Forall (lacks LF) old ->
  Forall (fun d => int64 (timestampOf d)) (records job) ->
  job_written job old w outcome w' -> ok outcome = true -> reads_back fuel job w outcome w'.
Proof.
  intros dir Hold Hlf Hts Hp Hok. destruct (Hp Hok) as (entries & [Hk Ht] & Hf & Hn). fold dir in Hk, Ht.
  exists entries. fold dir.
  assert (Hts' : Forall (fun d => int64 (timestampOf d)) (List.filter (enabled job) (records job))).
  { apply Forall_forall. intros d Hd. rewrite list_elem_of_In, filter_In, <- list_elem_of_In in Hd.
    rewrite Forall_forall in Hts. apply Hts, Hd. }
  split; [|split; [done|split; [|done]]].
  - destruct (readRows_entries (2 + Z.of_nat (length (tail old))) w' job _ entries Hf Hts') as [Hr Hlf'].
    unfold readManifest, readTable. rewrite Ht, lines_unlines.
    2:{ apply Forall_app. split; [|done]. destruct old; [by repeat constructor|done]. }
    assert (Hrows : tail (with_header old ++ (entry_row <$> entries)) = tail old ++ (entry_row <$> entries))
      by (by destruct old).
    rewrite Hrows, readRows_app, Hr, app_nil_r. simpl.
    assert (Hbefore : readRows manifestLine 2 (tail old) =
      match read_text w (manifest dir) with
      | None => ([], []) | Some text => readRows manifestLine 2 (tail (lines text)) end).
    { destruct (read_text w (manifest dir)) as [text|]; simpl in Hold; subst.
      - by rewrite lines_unlines.
      - destruct old as [|line old]; [done|]. simpl in Hold. by destruct line. }
    by rewrite Hbefore.
  - eapply Forall2_impl; [exact Hf|]. intros d e Hs.
    pose proof (stored_as_loads fuel w' job d e Hs) as Hl.
    destruct Hs as (base & raw & compressed & _ & _ & _ & E1 & E2 & _). done.
Qed.

Lemma guardedJob_post fuel job old w (C : world -> Prop) :
  let dir := directory job in
  (forall w', C w') ->
  (size (files w) + (length dir + 3) + 5 * room dir * length (records job) <= fuel)%nat ->
  default "" (read_text w (manifest dir)) = unlines old -> Forall (lacks LF) old ->
  wp (guardedJob has_context fuel job) (job_written job old w) (fun _ => False) C w.
Proof.
  intros dir HC Hfuel Hold Hlf. apply wp_catch.
  eapply wp_mono; [..|by apply (writeJobFiles_post fuel job old w)]; [done| |done].
  intros w' _. by apply wp_ret.
Qed.

Context `{DiskManager} (root : path) {disk_spec : DiskSpec root}.

(** C1. Whatever I/O errors occur, a job that the worker reports as successful
    can be read back: its manifest lists, after what was there before and
    without any malformed line, one entry per enabled record, in order, as
    many as it reports; each entry has the sensor and the time of its record,
    and loading it yields the record's serialised bytes, unless they exceed
    the safety limit of the reader; records of earlier jobs are untouched.
    This holds for an event without a verdict, whatever the disk manager
    deletes to make room, and no exception leaves the job, which always ends
    within the fuel. *)
Theorem writeJob_readback fuel fuel' job disk old name w o :
  let dir := directory job in
  dir = child root name -> has_verdict w dir = false ->
  (forall d, disk = Some d -> disk_ok d) ->
  (size (files w) + (length dir + 3) + 5 * room dir * length (records job) <= fuel)%nat ->
  default "" (read_text w (manifest dir)) = unlines old -> Forall (lacks LF) old ->
  Forall (fun d => int64 (timestampOf d)) (records job) ->
  match writeJob has_context fuel job disk o w with
  | Done result w' _ => ok result.1 = true -> reads_back fuel' job w result.1 w'
  | Threw _ _ | Stuck _ => False
  | Crashed _ => True
  end.
Proof.
  intros dir Hdir Hv Hdisk Hfuel Hold Hlf Hts.
  enough (Hw : wp (writeJob has_context fuel job disk)
    (fun result w' => ok result.1 = true -> reads_back fuel' job w result.1 w') (fun _ => False)
    (fun _ => True) w) by (specialize (Hw o); by destruct (writeJob _ _ _ _ o w)).
  destruct disk as [d|]; simpl.
  - apply wp_bind. eapply wp_mono; [| |done|by apply (prepare_spares d w), Hdisk]; [|done].
    intros [enough d'] w1 [_ Hs]. destruct enough; [|by apply wp_ret]. cbn [negb].
    rewrite Hdir in Hv. destruct (spares_undecided root name w w1 Hs Hv) as [Hsame Hsz].
    assert (Hfile : forall n, files w1 !! child dir n = files w !! child dir n).
    { intros n. apply Hsame. rewrite <- Hdir. by exists [n]. }
    assert (Htext : read_text w1 (manifest dir) = read_text w (manifest dir))
      by (unfold read_text; by rewrite (Hfile "manifest.csv")).
    apply wp_bind. eapply wp_post; [|apply (guardedJob_post fuel job old w1)]; try done.
    + intros outcome w' Hj. apply wp_ret. intros Hok.
      destruct (job_written_reads_back fuel' job old w1 outcome w') as (entries & E1 & E2 & E3 & E4); try done.
      { fold dir. by rewrite Htext. }
      exists entries. fold dir in E1, E3, E4 |- *.
      assert (Hm : readManifest w1 dir = readManifest w dir)
        by (unfold readManifest, readTable; by rewrite Htext).
      rewrite <- Hm. split; [done|]. split; [done|]. split; [done|].
      intros n c m Hn. rewrite <- Hfile. by apply E4.
    + fold dir. lia.
    + fold dir. by rewrite Htext.
  - apply wp_bind. eapply wp_post; [|by apply (guardedJob_post fuel job old w)].
    intros outcome w' Hj. apply wp_ret. by apply (job_written_reads_back fuel' job old).
Qed.

End jobs.

(** ** A run *)

#[export] Instance plain_codec : Codec := {
  serialize_image message := Some (image_data message);
  serialize_cloud message := Some (cloud_data message);
  ZSTD_compress2 level raw := Some raw;
  imencode extension quality message := Encoded (image_data message);
  pcl_cloud := PointCloud2; fromROSMsg := Some;
  pcd_bytes cloud := Encoded (cloud_data cloud);
  pcd_raises := true
}.

Definition frame (t : Z) (bytes : string) : SensorData :=
  mkSensorData CAMERA (VCamera (mkCamera t (Some (mkImage t 1 4 "mono8" 4 bytes)))).

(** Two images with the same time; one more is not recorded. *)
Definition sample_job : Job :=
  {| directory := event_dir; records := [frame 7 "abcd"; frame 7 "efgh"; mkSensorData LIDAR (VLidar (mkLidar 8 None))];
     recordCamera := true; recordLidar := false; compressionEnabled := true; compressionLevel := 3;
     keepRaw := false; conversionEnabled := true; imageFormat := "png"; imageQuality := 90;
     pointCloudFormat := "pcd"; job_pairs := [mkPair 1 true false 7 0 0 "camera_only" "flush"];
     finalJob := true |}.

Definition start_world : world := {| files := {[ ["records"]%string := Dir ]}; clock := 1 |}.

Definition after_sample : world :=
  match writeJobFiles true 200 sample_job [] start_world with Done _ w _ => w | _ => start_world end.

Example sample_entries :
  (readManifest after_sample event_dir).1 =
    [{| me_sensor := "camera"; timestampNs := 7; me_file := "camera_7.bin.zst"; me_encoding := "zstd";
        convertedFile := "images/camera_7.png" |};
     {| me_sensor := "camera"; timestampNs := 7; me_file := "camera_7_1.bin.zst"; me_encoding := "zstd";
        convertedFile := "images/camera_7_1.png" |}]%string.
Proof. vm_compute. reflexivity. Qed.

(** A manager that always finds room. *)
#[export] Instance roomy_disk : DiskManager := {
  disk_state := unit;
  prepareForWrite d := mret (true, d);
  enforceRetention force d := mret d
}.

#[export] Instance roomy_disk_spec root : DiskSpec root.
Proof.
  refine {| disk_ok := fun _ => True |}; intros; apply wp_ret; (split; [done|]);
    (split; [done|]; by left).
Defined.

Lemma writeJob_readback_witness :
  match writeJob true 200 sample_job (Some tt) [] start_world with
  | Done result w' _ => ok result.1 = true -> reads_back 1 sample_job start_world result.1 w'
  | Threw _ _ | Stuck _ => False
  | Crashed _ => True
  end.
Proof.
  apply (writeJob_readback true) with (old := [])
    (disk_spec := roomy_disk_spec (parent_path event_dir)) (name := filename event_dir).
  - intros level raw c [= <-]. simpl. unfold byte_size. by rewrite Z.leb_refl.
  - reflexivity.
  - reflexivity.
  - done.
  - vm_compute. lia.
  - reflexivity.
  - constructor.
  - repeat (apply Forall_cons; split; [apply int64b_spec; reflexivity|]). constructor.
Defined.
