(* ===== verification/Monitor.v ===== *)
(** * Monitor: capturing the data around an event

    Models src/include/event_monitor.hpp.  An accepted event reserves a place in
    the queue of the storage worker, marks its directory [.pending] and sends
    the data before the event at once; the data after the event follows on the
    reservation when the window has passed.  The node spins its callbacks on
    one thread, so the calls below do not overlap; the storage thread takes
    jobs in between. *)

From S2P Require Import Prelude Text SensorData Synchronizer PairIndex DataBuffer Config.
From S2P Require Import FileSystem EventState StorageWorker DiskSpace.

(** The objects the monitor shares with the node. *)
Record Sensors := {
  dataBuffer : DataBuffer;
  pairIndex : PairIndex;
  synchronizer : ApproximateSynchronizer
}.

Record EventCaptureTask := {
  taskId : string;
  task_event : string;
  eventTime : Z;                       (* sensor time *)
  endTime : Z;
  wallDeadline : Z;                    (* steady clock *)
  task_directory : path
}.

Record CaptureResult := {
  capture_accepted : bool;
  capture_directory : path;
  capture_message : string
}.

(** A callback in [eventCallbacks_] records the event name it captured. *)
Record EventMonitor := {
  sensors : Sensors;
  configManager : ConfigManager;
  eventCallbacks : gmap string string;
  storageWorker : RawStorageWorker;
  maxActiveCaptures : Z;
  sensorStallGrace : Z;                (* nanoseconds *)
  requireSyncedData : bool;
  activeCaptures : gmap string EventCaptureTask;
  nextCaptureId : Z
}.

Definition with_sensors (x : Sensors) (s : EventMonitor) : EventMonitor :=
  {| sensors := x; configManager := configManager s; eventCallbacks := eventCallbacks s;
     storageWorker := storageWorker s; maxActiveCaptures := maxActiveCaptures s;
     sensorStallGrace := sensorStallGrace s; requireSyncedData := requireSyncedData s;
     activeCaptures := activeCaptures s; nextCaptureId := nextCaptureId s |}.

Definition with_worker (x : RawStorageWorker) (s : EventMonitor) : EventMonitor :=
  {| sensors := sensors s; configManager := configManager s; eventCallbacks := eventCallbacks s;
     storageWorker := x; maxActiveCaptures := maxActiveCaptures s;
     sensorStallGrace := sensorStallGrace s; requireSyncedData := requireSyncedData s;
     activeCaptures := activeCaptures s; nextCaptureId := nextCaptureId s |}.

Definition with_captures (x : gmap string EventCaptureTask) (s : EventMonitor) : EventMonitor :=
  {| sensors := sensors s; configManager := configManager s; eventCallbacks := eventCallbacks s;
     storageWorker := storageWorker s; maxActiveCaptures := maxActiveCaptures s;
     sensorStallGrace := sensorStallGrace s; requireSyncedData := requireSyncedData s;
     activeCaptures := x; nextCaptureId := nextCaptureId s |}.

Definition with_next_id (x : Z) (s : EventMonitor) : EventMonitor :=
  {| sensors := sensors s; configManager := configManager s; eventCallbacks := eventCallbacks s;
     storageWorker := storageWorker s; maxActiveCaptures := maxActiveCaptures s;
     sensorStallGrace := sensorStallGrace s; requireSyncedData := requireSyncedData s;
     activeCaptures := activeCaptures s; nextCaptureId := x |}.

(** ** Configuration *)

(** [absolute(p)], or [p] itself when that fails. *)
Class WorkingDirectory := { absolute : string -> path }.

Definition loadRecordRoot `{WorkingDirectory} (config : ConfigManager) : path :=
  let directory := getConfig "record_directory" config in
  absolute (if String.eqb directory "" then "records" else directory).

Definition kMegabyte : Z := 1024 * 1024.

Definition loadDiskPolicy (config : ConfigManager) : Policy :=
  {| minFreeBytes := u64 (Z.max 0 (getIntConfig "disk_min_free_mb" 512 config) * kMegabyte);
     maxCapacityBytes := u64 (Z.max 0 (getIntConfig "retention_max_capacity_mb" 10240 config) * kMegabyte);
     retentionDays := Z.max 0 (getIntConfig "retention_days" 30 config);
     cleanupInterval := Z.max 1 (getIntConfig "disk_cleanup_interval_seconds" 60 config);
     protectUnuploaded := getBoolConfig "upload_enabled" false config |}.

Definition getEventIntConfig (eventName suffix fallbackKey : string) (defaultValue : Z)
    (config : ConfigManager) : Z :=
  getIntConfig ("event_" +:+ eventName +:+ "_" +:+ suffix)
    (getIntConfig fallbackKey defaultValue config) config.

Definition getEventBoolConfig (eventName suffix fallbackKey : string) (defaultValue : bool)
    (config : ConfigManager) : bool :=
  getBoolConfig ("event_" +:+ eventName +:+ "_" +:+ suffix)
    (getBoolConfig fallbackKey defaultValue config) config.

Definition or_default (value fallback : string) : string := if String.eqb value "" then fallback else value.

(** The constructor; the queue limit and the number of captures are at least one. *)
Definition newEventMonitor (x : Sensors) (config : ConfigManager) (requireSynced : bool) : EventMonitor :=
  {| sensors := x; configManager := config; eventCallbacks := ∅;
     storageWorker := newWorker (Z.max 1 (getIntConfig "max_pending_storage_jobs" 20 config));
     maxActiveCaptures := Z.max 1 (getIntConfig "max_active_event_captures" 16 config);
     sensorStallGrace := Z.max 0 (getIntConfig "sensor_stall_grace_ms" 5000 config) * ns_per_ms;
     requireSyncedData := requireSynced; activeCaptures := ∅; nextCaptureId := 0 |}.

Definition registerEvent (eventName callback : string) (s : EventMonitor) : EventMonitor :=
  {| sensors := sensors s; configManager := configManager s;
     eventCallbacks := <[eventName := callback]> (eventCallbacks s);
     storageWorker := storageWorker s; maxActiveCaptures := maxActiveCaptures s;
     sensorStallGrace := sensorStallGrace s; requireSyncedData := requireSyncedData s;
     activeCaptures := activeCaptures s; nextCaptureId := nextCaptureId s |}.

Definition hasEvent (eventName : string) (s : EventMonitor) : bool :=
  match eventCallbacks s !! eventName with Some _ => true | None => false end.

(** The order of an unordered map is up to the library. *)
Class Iteration := {
  iteration : list EventCaptureTask -> list EventCaptureTask;
  iteration_perm l : iteration l ≡ₚ l
}.

#[export] Instance plain_iteration : Iteration :=
  { iteration l := l; iteration_perm l := Permutation_refl l }.

Section monitor.
Context `{RclTime} `{WorkingDirectory} `{Iteration}.
(** [flushPendingPairs_]. *)
Context (flushPendingPairs : Sensors -> res Sensors).

(** ** Operations *)

Definition event_job (dir : path) (eventName : string) (data : list SensorData) (pairs : list PairRecord)
    (final : bool) (config : ConfigManager) : Job :=
  {| directory := dir; records := data;
     recordCamera := getEventBoolConfig eventName "record_camera" "record_camera" false config;
     recordLidar := getEventBoolConfig eventName "record_lidar" "record_lidar" false config;
     compressionEnabled := getBoolConfig "compression_enabled" true config;
     compressionLevel := clamp (getIntConfig "compression_level" 3 config) 1 19;
     keepRaw := getBoolConfig "keep_raw_after_compression" false config;
     conversionEnabled := getBoolConfig "conversion_enabled" true config;
     imageFormat := or_default (getConfig "image_format" config) "jpg";
     imageQuality := clamp (getIntConfig "image_quality" 90 config) 1 100;
     pointCloudFormat := or_default (getConfig "pointcloud_format" config) "pcd";
     job_pairs := pairs; finalJob := final |}.

Definition enqueueRecords (dir : path) (eventName : string) (data : list SensorData)
    (pairs : list PairRecord) (reserved final : bool) (s : EventMonitor) : bool * EventMonitor :=
  let '(queued, worker) :=
    enqueue (event_job dir eventName data pairs final (configManager s)) reserved (storageWorker s) in
  (queued, with_worker worker s).

Definition reserveStorage (s : EventMonitor) : bool * EventMonitor :=
  let '(reserved, worker) := reserve (storageWorker s) in (reserved, with_worker worker s).

Definition releaseStorage (s : EventMonitor) : EventMonitor :=
  with_worker (releaseReservation (storageWorker s)) s.

Definition eventDirectoryName (eventName : string) (id systemNow : Z) : string :=
  eventName +:+ "_" +:+ to_string id +:+ "_" +:+ to_string systemNow.

Definition has_matched (pairs : list PairRecord) : bool :=
  existsb (fun r => String.eqb (status r) "matched") pairs.

Definition rejected (dir : path) (message : string) (s : EventMonitor) : M (CaptureResult * EventMonitor) :=
  mret ({| capture_accepted := false; capture_directory := dir; capture_message := message |}, s).

(** The branch without data after the event. *)
Definition recordAtOnce (eventName : string) (dir : path) (systemNow startTime eventTime : Z)
    (pairs : list PairRecord) (s : EventMonitor) : M (CaptureResult * EventMonitor) :=
  let '(reserved, s) := reserveStorage s in
  if negb reserved then rejected dir "storage queue unavailable" s else
  begun ← begin_event dir eventName systemNow;
  if negb begun then rejected dir "cannot create pending event state" (releaseStorage s) else
  let '(queued, s) :=
    enqueueRecords dir eventName (getDataWithinTimeRange (dataBuffer (sensors s)) startTime eventTime)
      pairs true true s in
  _ ← (if negb queued then fail_event dir "storage_queue_unavailable" systemNow else mret true);
  mret ({| capture_accepted := queued; capture_directory := dir;
           capture_message := if queued then "accepted for storage" else "storage queue unavailable" |}, s).

(** The branch with data after the event. *)
Definition recordWithPost (eventName : string) (dir : path) (systemNow startTime : Z)
    (task : EventCaptureTask) (pairs : list PairRecord) (s : EventMonitor)
    : M (CaptureResult * EventMonitor) :=
  let '(reserved, s) := reserveStorage s in
  if negb reserved then rejected dir "storage queue unavailable" s else
  if Z.of_nat (size (activeCaptures s)) >=? maxActiveCaptures s
  then rejected dir "maximum active captures reached" (releaseStorage s) else
  begun ← begin_event dir eventName systemNow;
  if negb begun then rejected dir "cannot create pending event state" (releaseStorage s) else
  let s := with_captures (match activeCaptures s !! taskId task with
                          | Some _ => activeCaptures s
                          | None => <[taskId task := task]> (activeCaptures s)
                          end) s in
  let '(queued, s) :=
    enqueueRecords dir eventName
      (getDataWithinTimeRange (dataBuffer (sensors s)) startTime (eventTime task)) pairs false false s in
  if negb queued then
    let s := releaseStorage (with_captures (delete (taskId task) (activeCaptures s)) s) in
    _ ← fail_event dir "pre_event_queue_unavailable" systemNow;
    rejected dir "pre-event storage queue unavailable" s
  else
    mret ({| capture_accepted := true; capture_directory := dir;
             capture_message := "accepted for storage" |}, s).

(** [wallNow] is what the node clock reads, [now] the other two. *)
Definition recordDataAroundEventDetailed (eventName : string) (wallNow : Z) (now : Clocks)
    (s : EventMonitor) : M (CaptureResult * EventMonitor) :=
  flushed ← pure (flushPendingPairs (sensors s));
  let s := with_sensors flushed s in
  let preSeconds := Z.max 0 (getEventIntConfig eventName "pre_time" "event_pre_time" 5 (configManager s)) in
  let postSeconds := Z.max 0 (getEventIntConfig eventName "post_time" "event_post_time" 5 (configManager s)) in
  let time := default wallNow (latestSensorTimestamp (dataBuffer (sensors s))) in
  startTime ← pure (throwing (time_minus time (from_seconds preSeconds)));
  let name := eventDirectoryName eventName (nextCaptureId s) (systemNowNs now) in
  let dir := child (loadRecordRoot (configManager s)) name in
  let s := with_next_id (u64 (nextCaptureId s + 1)) s in
  let pairs := getPairsWithinTimeRange (pairIndex (sensors s)) startTime time in
  if requireSyncedData s && negb (has_matched pairs)
  then rejected dir "no synchronized data in pre-event window" s
  else if postSeconds <=? 0 then recordAtOnce eventName dir (systemNowNs now) startTime time pairs s
  else
    finish ← pure (throwing (time_plus time (from_seconds postSeconds)));
    let task := {| taskId := name; task_event := eventName; eventTime := time; endTime := finish;
                   wallDeadline := steady_now now + postSeconds * ns_per_s + sensorStallGrace s;
                   task_directory := dir |} in
    recordWithPost eventName dir (systemNowNs now) startTime task pairs s.

Definition recordDataAroundEvent (eventName : string) (wallNow : Z) (now : Clocks) (s : EventMonitor)
    : M (bool * EventMonitor) :=
  result ← recordDataAroundEventDetailed eventName wallNow now s;
  mret (capture_accepted result.1, result.2).

Definition triggerEvent (eventName : string) (wallNow : Z) (now : Clocks) (s : EventMonitor)
    : M (bool * EventMonitor) :=
  match eventCallbacks s !! eventName with
  | None => mret (false, s)
  | Some captured => recordDataAroundEvent captured wallNow now s
  end.

Definition captureExpired (sensorNow : option Z) (steadyNow : Z) (task : EventCaptureTask) : bool :=
  (match sensorNow with Some t => endTime task <=? t | None => false end) ||
  (wallDeadline task <=? steadyNow).

(** The body of the loop over the expired captures. *)
Definition finishCapture (systemNow : Z) (task : EventCaptureTask) (s : EventMonitor) : M EventMonitor :=
  flushed ← pure (flushPendingPairs (sensors s));
  let s := with_sensors flushed s in
  let records := List.filter (fun d => negb (timestampOf d =? eventTime task))
    (getDataWithinTimeRange (dataBuffer (sensors s)) (eventTime task) (endTime task)) in
  let pairs := List.filter (fun r => negb (pair_time r =? eventTime task))
    (getPairsWithinTimeRange (pairIndex (sensors s)) (eventTime task) (endTime task)) in
  let '(queued, s) :=
    enqueueRecords (task_directory task) (task_event task) records pairs true true s in
  _ ← (if negb queued then fail_event (task_directory task) "post_event_queue_unavailable" systemNow
       else mret true);
  mret s.

Definition processExpiredCaptures (now : Clocks) (s : EventMonitor) : M EventMonitor :=
  let sensorNow := latestSensorTimestamp (dataBuffer (sensors s)) in
  let over := captureExpired sensorNow (steady_now now) in
  let expired := List.filter over (iteration (map_to_list (activeCaptures s)).*2) in
  let kept := filter (fun e : string * EventCaptureTask => over e.2 = false) (activeCaptures s) in
  for_each expired (finishCapture (systemNowNs now)) (with_captures kept s).

End monitor.

(** ** One capture *)

Lemma release_reserved w :
  releaseReservation (with_reserved (reservedJobs w + 1) w) = w \/ reservedJobs w < 0.
Proof.
  destruct w as [m r j st]. unfold releaseReservation, with_reserved. simpl.
  destruct (r + 1 >? 0) eqn:E; [left; f_equal; lia|right; lia].
Qed.

(** The [.pending] marker of an event, written or not. *)
Definition begun (dir : path) (eventName : string) (t : Z) : bool -> world -> world -> Prop :=
  written_or_not (pending dir) (begin_content eventName t).

Lemma begin_event_begun dir eventName t w :
  wp (begin_event dir eventName t) (fun ok w' => begun dir eventName t ok w w') (fun _ => False) (fun _ => True) w.
Proof. eapply wp_mono; [..|by apply writeAtomically_wp]; done. Qed.

Lemma begin_event_wp dir eventName t w :
  wp (begin_event dir eventName t)
    (fun begun w' => begun = true -> exists m,
       files w' !! pending dir = Some (File (begin_content eventName t) m))
    (fun _ => False) (fun _ => True) w.
Proof.
  eapply wp_mono; [..|by apply writeAtomically_wp]; [|done|done].
  intros b w' [_ Hw] ->. exact Hw.
Qed.

(** Writing a verdict neither throws nor runs out of budget. *)
Lemma fail_event_quiet {A} dir reason t (k : bool -> M A) (Q : A -> world -> Prop) (E : world -> Prop) w :
  (forall b w', wp (k b) Q E (fun _ => True) w') ->
  wp (b ← fail_event dir reason t; k b) Q E (fun _ => True) w.
Proof. intros Hk. apply wp_bind. eapply wp_mono; [..|apply fail_event_wp]; [|done|done]. intros b w' _. apply Hk. Qed.

Section captures.
Context `{RclTime} `{WorkingDirectory} `{Iteration}.
Context (flushPendingPairs : Sensors -> res Sensors).

(** The state after the flush, with the identifier of this capture used up. *)
Definition numbered_next (x : Sensors) (s : EventMonitor) : EventMonitor :=
  with_next_id (u64 (nextCaptureId s + 1)) (with_sensors x s).

Definition preSeconds (eventName : string) (s : EventMonitor) : Z :=
  Z.max 0 (getEventIntConfig eventName "pre_time" "event_pre_time" 5 (configManager s)).
Definition postSeconds (eventName : string) (s : EventMonitor) : Z :=
  Z.max 0 (getEventIntConfig eventName "post_time" "event_post_time" 5 (configManager s)).

Definition capture_name (eventName : string) (now : Clocks) (s : EventMonitor) : string :=
  eventDirectoryName eventName (nextCaptureId s) (systemNowNs now).
Definition capture_dir (eventName : string) (now : Clocks) (s : EventMonitor) : path :=
  child (loadRecordRoot (configManager s)) (capture_name eventName now s).

Definition capture_time (wallNow : Z) (x : Sensors) : Z :=
  default wallNow (latestSensorTimestamp (dataBuffer x)).

(** The job for the data before the event. *)
Definition pre_job (eventName : string) (dir : path) (x : Sensors) (startTime time : Z) (final : bool)
    (config : ConfigManager) : Job :=
  event_job dir eventName (getDataWithinTimeRange (dataBuffer x) startTime time)
    (getPairsWithinTimeRange (pairIndex x) startTime time) final config.

Definition capture_task (eventName : string) (now : Clocks) (time finish : Z) (s : EventMonitor)
    : EventCaptureTask :=
  {| taskId := capture_name eventName now s; task_event := eventName; eventTime := time; endTime := finish;
     wallDeadline := steady_now now + postSeconds eventName s * ns_per_s + sensorStallGrace s;
     task_directory := capture_dir eventName now s |}.

(** What the queue of the worker and the captures become when the event is
    accepted: with the one and only job, or with the first one. *)
Inductive accepts (eventName : string) (now : Clocks) (x : Sensors) (startTime time : Z)
    (s : EventMonitor) : EventMonitor -> Prop :=
| accepts_whole :
    postSeconds eventName s = 0 -> occupied (storageWorker s) + 1 <= maxPendingJobs (storageWorker s) ->
    accepts eventName now x startTime time s
      (with_worker (with_jobs (jobs (storageWorker s) ++
         [pre_job eventName (capture_dir eventName now s) x startTime time true (configManager s)])
         (storageWorker s)) (numbered_next x s))
| accepts_first finish :
    0 < postSeconds eventName s ->
    time_plus time (from_seconds (postSeconds eventName s)) = Some finish ->
    occupied (storageWorker s) + 2 <= maxPendingJobs (storageWorker s) ->
    Z.of_nat (size (activeCaptures s)) < maxActiveCaptures s ->
    accepts eventName now x startTime time s
      (with_captures (<[capture_name eventName now s := capture_task eventName now time finish s]>
                        (activeCaptures s))
        (with_worker (with_reserved (reservedJobs (storageWorker s) + 1)
           (with_jobs (jobs (storageWorker s) ++
              [pre_job eventName (capture_dir eventName now s) x startTime time false (configManager s)])
              (storageWorker s))) (numbered_next x s))).

(** Whether there is room for the event, and pairs where they are required. *)
Definition admissible (eventName : string) (x : Sensors) (startTime time : Z) (s : EventMonitor) : bool :=
  (negb (requireSyncedData s) || has_matched (getPairsWithinTimeRange (pairIndex x) startTime time)) &&
  (if postSeconds eventName s =? 0
   then occupied (storageWorker s) + 1 <=? maxPendingJobs (storageWorker s)
   else (occupied (storageWorker s) + 2 <=? maxPendingJobs (storageWorker s)) &&
        (Z.of_nat (size (activeCaptures s)) <? maxActiveCaptures s)).

(** Why an event is refused before anything of it is on disk. *)
Definition refusal (eventName : string) (x : Sensors) (startTime time : Z) (s : EventMonitor) : option string :=
  if requireSyncedData s && negb (has_matched (getPairsWithinTimeRange (pairIndex x) startTime time))
  then Some "no synchronized data in pre-event window"
  else if occupied (storageWorker s) >=? maxPendingJobs (storageWorker s)
  then Some "storage queue unavailable"
  else if (0 <? postSeconds eventName s) && (Z.of_nat (size (activeCaptures s)) >=? maxActiveCaptures s)
  then Some "maximum active captures reached"
  else None.

(** Whether the first job finds a place next to the reservation. *)
Definition first_fits (eventName : string) (s : EventMonitor) : bool :=
  (postSeconds eventName s =? 0) || (occupied (storageWorker s) + 2 <=? maxPendingJobs (storageWorker s)).

Lemma admissible_refusal eventName x startTime time s :
  admissible eventName x startTime time s =
    match refusal eventName x startTime time s with Some _ => false | None => first_fits eventName s end.
Proof.
  unfold admissible, refusal, first_fits.
  pose proof (Z.le_max_l 0 (getEventIntConfig eventName "post_time" "event_post_time" 5 (configManager s))) as Hp.
  fold (postSeconds eventName s) in Hp.
  destruct (requireSyncedData s), (has_matched _); cbn [negb orb andb]; try done;
    destruct (Z.eqb_spec (postSeconds eventName s) 0), (Z.ltb_spec 0 (postSeconds eventName s)); try lia; cbn [orb andb];
    destruct (occupied _ >=? _) eqn:E1; try lia; destruct (_ >=? maxActiveCaptures s) eqn:E2; lia.
Qed.

Definition no_marker : string := "cannot create pending event state".
Definition no_room : string := "pre-event storage queue unavailable".

(** What a call has done, from [w] to [w']: it was refused at once; the marker
    could not be written; the marker was written and the jobs queued; or it was
    written, the first job had no place, and the event was failed. [s] is the
    state after a refusal. *)
Definition recorded (refused : option string) (fits : bool) (dir : path) (eventName : string) (t : Z)
    (s : EventMonitor) (queued : EventMonitor -> Prop) (w : world) (r : CaptureResult * EventMonitor) (w' : world)
    : Prop :=
  capture_directory r.1 = dir /\
  match refused with
  | Some message => capture_accepted r.1 = false /\ capture_message r.1 = message /\ r.2 = s /\ w' = w
  | None =>
      capture_accepted r.1 = false /\ capture_message r.1 = no_marker /\ r.2 = s /\ begun dir eventName t false w w' \/
      exists w1, begun dir eventName t true w w1 /\
        if fits then capture_accepted r.1 = true /\ queued r.2 /\ w' = w1
        else capture_accepted r.1 = false /\ capture_message r.1 = no_room /\ r.2 = s /\
             exists written, marked (failed dir) (fail_content "pre_event_queue_unavailable" t) (pending dir)
                               (completed dir) written w1 w'
  end.

(** The outcome of a call: nothing but the identifier and the flush when the
    event is rejected. *)
Definition captured (eventName : string) (wallNow : Z) (now : Clocks) (s : EventMonitor)
    (r : CaptureResult) (s' : EventMonitor) (w' : world) : Prop :=
  capture_directory r = capture_dir eventName now s /\
  exists x startTime, flushPendingPairs (sensors s) = Ok x /\
    time_minus (capture_time wallNow x) (from_seconds (preSeconds eventName s)) = Some startTime /\
    if capture_accepted r then
      accepts eventName now x startTime (capture_time wallNow x) s s' /\
      (requireSyncedData s = true ->
         has_matched (getPairsWithinTimeRange (pairIndex x) startTime (capture_time wallNow x)) = true) /\
      exists m, files w' !! pending (capture_dir eventName now s) =
        Some (File (begin_content eventName (systemNowNs now)) m)
    else s' = numbered_next x s /\
      (admissible eventName x startTime (capture_time wallNow x) s = true -> capture_message r = no_marker).

(** What the calls rely on. *)
Record ready (s : EventMonitor) : Prop := {
  ready_running : stopping (storageWorker s) = false;
  ready_reserved : 0 <= reservedJobs (storageWorker s)
}.

Lemma postSeconds_nonneg eventName s : 0 <= postSeconds eventName s.
Proof. apply Z.le_max_l. Qed.

Lemma with_worker_id s : with_worker (storageWorker s) s = s.
Proof. by destruct s. Qed.

Lemma release_reserve s :
  0 <= reservedJobs (storageWorker s) ->
  releaseStorage (with_worker (with_reserved (reservedJobs (storageWorker s) + 1) (storageWorker s)) s) = s.
Proof.
  intros Hr. unfold releaseStorage. simpl. destruct (release_reserved (storageWorker s)) as [->|?]; [|lia].
  by destruct s.
Qed.

Lemma recordAtOnce_wp eventName dir t startTime time pairs s w :
  ready s ->
  wp (recordAtOnce eventName dir t startTime time pairs s)
    (recorded (if occupied (storageWorker s) >=? maxPendingJobs (storageWorker s)
               then Some "storage queue unavailable" else None) true dir eventName t s
       (fun s' => s' = with_worker (with_jobs (jobs (storageWorker s) ++
           [event_job dir eventName (getDataWithinTimeRange (dataBuffer (sensors s)) startTime time) pairs
              true (configManager s)]) (storageWorker s)) s)
       w)
    (fun _ => False) (fun _ => True) w.
Proof.
  intros [Hrun Hres]. unfold recordAtOnce, reserveStorage, reserve, recorded. rewrite Hrun. cbn [orb].
  destruct (occupied (storageWorker s) >=? _) eqn:Eo; simpl negb; cbn iota.
  { apply wp_ret. split; [done|]. simpl. by rewrite with_worker_id. }
  apply wp_bind. eapply wp_post; [|apply begin_event_begun]. intros ok w1 Hb.
  destruct ok; cbn [negb]; [|apply wp_ret; split; [done|]; left; split; [done|]; split; [done|];
    split; [exact (release_reserve s Hres)|done]].
  unfold enqueueRecords, enqueue. simpl. rewrite Hrun. simpl.
  apply wp_bind, wp_ret, wp_ret. simpl. split; [done|]. right. exists w1. split; [done|]. split; [done|]. split; [|done].
  unfold give_back. simpl. replace (reservedJobs (storageWorker s) + 1 >? 0) with true by lia.
  destruct s as [? ? ? [m r j st] ? ? ? ? ?]. unfold with_worker, with_jobs, with_reserved. simpl.
  do 2 f_equal. lia.
Qed.

Lemma recordWithPost_wp eventName dir t startTime task pairs s w :
  ready s -> activeCaptures s !! taskId task = None ->
  wp (recordWithPost eventName dir t startTime task pairs s)
    (recorded (if occupied (storageWorker s) >=? maxPendingJobs (storageWorker s)
               then Some "storage queue unavailable"
               else if Z.of_nat (size (activeCaptures s)) >=? maxActiveCaptures s
               then Some "maximum active captures reached" else None)
       (occupied (storageWorker s) + 2 <=? maxPendingJobs (storageWorker s)) dir eventName t s
       (fun s' => s' = with_captures (<[taskId task := task]> (activeCaptures s))
           (with_worker (with_reserved (reservedJobs (storageWorker s) + 1)
              (with_jobs (jobs (storageWorker s) ++
                 [event_job dir eventName
                    (getDataWithinTimeRange (dataBuffer (sensors s)) startTime (eventTime task)) pairs
                    false (configManager s)]) (storageWorker s))) s))
       w)
    (fun _ => False) (fun _ => True) w.
Proof.
  intros [Hrun Hres] Hfresh. unfold recordWithPost, reserveStorage, reserve, recorded. rewrite Hrun. cbn [orb].
  destruct (occupied (storageWorker s) >=? _) eqn:Eo; simpl negb; cbn iota.
  { apply wp_ret. split; [done|]. simpl. by rewrite with_worker_id. }
  cbn [activeCaptures maxActiveCaptures with_worker].
  destruct (Z.of_nat (size _) >=? _) eqn:Ea.
  { apply wp_ret. split; [done|]. split; [done|]. split; [done|]. by split; [exact (release_reserve s Hres)|]. }
  apply wp_bind. eapply wp_post; [|apply begin_event_begun]. intros ok w1 Hb.
  destruct ok; cbn [negb]; [|apply wp_ret; split; [done|]; left; split; [done|]; split; [done|];
    split; [exact (release_reserve s Hres)|done]].
  cbn [activeCaptures with_worker]. rewrite Hfresh. unfold enqueueRecords, enqueue. simpl. rewrite Hrun.
  unfold give_back. cbn [orb negb andb].
  destruct (occupied (with_reserved _ _) >=? _) eqn:Eo2; simpl.
  - apply wp_bind. eapply wp_mono; [..|apply fail_event_wp]; [|done|done]. intros written w2 Hw2.
    apply wp_ret. split; [done|]. right. exists w1. split; [done|].
    replace (_ + 2 <=? _) with false by (unfold occupied in *; simpl in *; lia).
    split; [done|]. split; [done|]. split; [|by exists written]. simpl.
    rewrite delete_insert_id by done. etrans; [|exact (release_reserve s Hres)]. by destruct s.
  - apply wp_ret. split; [done|]. right. exists w1. split; [done|].
    replace (_ + 2 <=? _) with true by (unfold occupied in *; simpl in *; lia). by split.
Qed.

(** Every way a call can go. *)
Lemma recordData_recorded eventName wallNow now s w :
  ready s -> activeCaptures s !! capture_name eventName now s = None ->
  (forall e, flushPendingPairs (sensors s) = Err e -> e = Exception) ->
  wp (recordDataAroundEventDetailed flushPendingPairs eventName wallNow now s)
    (fun r w' => exists x startTime, flushPendingPairs (sensors s) = Ok x /\
       time_minus (capture_time wallNow x) (from_seconds (preSeconds eventName s)) = Some startTime /\
       recorded (refusal eventName x startTime (capture_time wallNow x) s) (first_fits eventName s)
         (capture_dir eventName now s) eventName (systemNowNs now) (numbered_next x s)
         (accepts eventName now x startTime (capture_time wallNow x) s) w r w')
    (fun _ => True) (fun _ => True) w.
Proof.
  intros Hready Hfresh Hflush. unfold recordDataAroundEventDetailed.
  destruct (flushPendingPairs (sensors s)) as [x|e] eqn:Ex.
  2: { rewrite (Hflush e eq_refl). by apply wp_bind, wp_throw. }
  apply wp_bind, wp_ret. cbv zeta. cbn [sensors configManager with_sensors nextCaptureId].
  fold (preSeconds eventName s) (postSeconds eventName s) (capture_time wallNow x).
  destruct (time_minus (capture_time wallNow x) (from_seconds (preSeconds eventName s))) as [start|] eqn:Es;
    [|by apply wp_bind, wp_throw].
  apply wp_bind, wp_ret. fold (numbered_next x s). fold (capture_name eventName now s) (capture_dir eventName now s).
  cbn [requireSyncedData numbered_next with_next_id with_sensors pairIndex sensors].
  set (pairs := getPairsWithinTimeRange (pairIndex x) start (capture_time wallNow x)).
  pose proof (postSeconds_nonneg eventName s) as Hpost. unfold refusal, first_fits. fold pairs.
  destruct (requireSyncedData s && negb (has_matched pairs)) eqn:Er.
  { apply wp_ret. exists x, start. split; [done|]. split; [done|]. fold pairs. rewrite Er. done. }
  assert (Hready' : ready (numbered_next x s)) by (destruct Hready; by split).
  destruct (postSeconds eventName s <=? 0) eqn:Ep.
  - apply Z.leb_le in Ep. change (postSeconds eventName s <= 0) in Ep.
    assert (Hz : postSeconds eventName s = 0) by lia.
    eapply wp_mono; [| | |by apply (recordAtOnce_wp eventName)]; [|done|done].
    intros r w' Hr. exists x, start. split; [done|]. split; [done|]. fold pairs. rewrite Er, Hz. cbn [Z.ltb Z.eqb Z.compare andb orb].
    destruct Hr as [Hd Hr]. split; [done|]. cbn [storageWorker numbered_next with_next_id with_sensors] in Hr.
    destruct (occupied (storageWorker s) >=? _) eqn:Eo; [done|]. destruct Hr as [?|(w1 & Hb & Ha & Hs & Hw)]; [by left|right].
    exists w1. split; [done|]. split; [done|]. split; [|done]. rewrite Hs.
    exact (accepts_whole eventName now x start (capture_time wallNow x) s Hz ltac:(lia)).
  - apply Z.leb_gt in Ep. change (0 < postSeconds eventName s) in Ep.
    destruct (time_plus _ _) as [finish|] eqn:Ef; [|by apply wp_bind, wp_throw].
    apply wp_bind, wp_ret. fold (capture_task eventName now (capture_time wallNow x) finish s).
    eapply wp_mono; [| | |by apply (recordWithPost_wp eventName)]; [|done|done].
    intros r w' Hr. exists x, start. split; [done|]. split; [done|]. fold pairs. rewrite Er.
    replace (0 <? postSeconds eventName s) with true by lia.
    replace (postSeconds eventName s =? 0) with false by lia. cbn [andb orb].
    destruct Hr as [Hd Hr]. split; [done|].
    cbn [storageWorker activeCaptures maxActiveCaptures numbered_next with_next_id with_sensors] in Hr.
    destruct (occupied (storageWorker s) >=? _) eqn:Eo; [done|].
    destruct (_ >=? maxActiveCaptures s) eqn:Ea; [done|]. destruct Hr as [?|(w1 & Hb & Hr)]; [by left|right].
    exists w1. split; [done|]. destruct (_ + 2 <=? _) eqn:E2; [|done]. destruct Hr as (Ha & Hs & Hw).
    split; [done|]. split; [|done]. rewrite Hs.
    exact (accepts_first eventName now x start (capture_time wallNow x) s finish Ep Ef ltac:(lia) ltac:(lia)).
Qed.

Lemma recordData_wp eventName wallNow now s w :
  ready s -> activeCaptures s !! capture_name eventName now s = None ->
  (forall e, flushPendingPairs (sensors s) = Err e -> e = Exception) ->
  wp (recordDataAroundEventDetailed flushPendingPairs eventName wallNow now s)
    (fun r w' => captured eventName wallNow now s r.1 r.2 w') (fun _ => True) (fun _ => True) w.
Proof.
  intros Hready Hfresh Hflush. eapply wp_post; [|by apply recordData_recorded].
  intros [r s'] w' (x & start & Hx & Hs & Hd & Hr). split; [done|]. exists x, start. split; [done|]. split; [done|].
  rewrite admissible_refusal. cbn [fst snd] in *. unfold refusal in *.
  destruct (requireSyncedData s && negb (has_matched _)) eqn:Em; [by destruct Hr as (-> & _ & -> & _)|].
  destruct (occupied (storageWorker s) >=? _); [by destruct Hr as (-> & _ & -> & _)|].
  destruct ((0 <? postSeconds eventName s) && _); [by destruct Hr as (-> & _ & -> & _)|].
  destruct Hr as [(-> & -> & -> & _)|(w1 & Hb & Hr)]; [done|].
  destruct (first_fits eventName s); [|by destruct Hr as (-> & _ & -> & _)].
  destruct Hr as (-> & Ha & ->). split; [done|]. split; [|apply Hb].
  intros Hreq. rewrite Hreq in Em. by destruct (has_matched _).
Qed.

(** ** No exceptions *)

(** A property of the sensor components that a flush, which succeeds, keeps, and
    that keeps the times of a capture within range. *)
Section quiet.
Context (P : Sensors -> Prop).
Context (flush_keeps : forall x, P x -> exists x', flushPendingPairs x = Ok x' /\ P x').

Lemma recordAtOnce_quiet eventName dir t startTime time pairs s w :
  wp (recordAtOnce eventName dir t startTime time pairs s) (fun r _ => sensors r.2 = sensors s)
    (fun _ => False) (fun _ => True) w.
Proof.
  unfold recordAtOnce, reserveStorage. destruct (reserve (storageWorker s)) as [[] worker]; cbn [negb]; [|by apply wp_ret].
  apply wp_bind. eapply wp_post; [|apply begin_event_wp]. intros [] w1 _; cbn [negb]; [|by apply wp_ret].
  unfold enqueueRecords. destruct (enqueue _ _ _) as [[] worker2]; cbn [negb].
  - apply wp_bind, wp_ret. by apply wp_ret.
  - apply fail_event_quiet. intros b w2. by apply wp_ret.
Qed.

Lemma recordWithPost_quiet eventName dir t startTime task pairs s w :
  wp (recordWithPost eventName dir t startTime task pairs s) (fun r _ => sensors r.2 = sensors s)
    (fun _ => False) (fun _ => True) w.
Proof.
  unfold recordWithPost, reserveStorage. destruct (reserve (storageWorker s)) as [[] worker]; cbn [negb]; [|by apply wp_ret].
  destruct (_ >=? _); [by apply wp_ret|].
  apply wp_bind. eapply wp_post; [|apply begin_event_wp]. intros [] w1 _; cbn [negb]; [|by apply wp_ret].
  unfold enqueueRecords. destruct (enqueue _ _ _) as [[] worker2]; cbn [negb]; [by apply wp_ret|].
  apply fail_event_quiet. intros b w2. by apply wp_ret.
Qed.

Lemma recordData_quiet eventName wallNow now s w :
  P (sensors s) ->
  (forall x, P x ->
     time_minus (capture_time wallNow x) (from_seconds (preSeconds eventName s)) <> None /\
     time_plus (capture_time wallNow x) (from_seconds (postSeconds eventName s)) <> None) ->
  wp (recordDataAroundEventDetailed flushPendingPairs eventName wallNow now s) (fun r _ => P (sensors r.2))
    (fun _ => False) (fun _ => True) w.
Proof.
  intros HP Htimes. unfold recordDataAroundEventDetailed.
  destruct (flush_keeps _ HP) as (x & Ex & Hx). destruct (Htimes x Hx) as [Hminus Hplus].
  rewrite Ex. apply wp_bind, wp_ret. cbv zeta. cbn [sensors configManager with_sensors nextCaptureId].
  fold (preSeconds eventName s) (postSeconds eventName s) (capture_time wallNow x).
  destruct (time_minus _ _) as [start|]; [|done]. apply wp_bind, wp_ret.
  destruct (_ && _); [by apply wp_ret|]. destruct (_ <=? 0).
  - eapply wp_post; [|apply recordAtOnce_quiet]. by intros r w' ->.
  - destruct (time_plus _ _) as [finish|]; [|done]. apply wp_bind, wp_ret.
    eapply wp_post; [|apply recordWithPost_quiet]. by intros r w' ->.
Qed.

Lemma process_quiet now s w :
  P (sensors s) ->
  wp (processExpiredCaptures flushPendingPairs now s) (fun s' _ => P (sensors s')) (fun _ => False) (fun _ => True) w.
Proof.
  intros HP. unfold processExpiredCaptures. apply (wp_for_each _ _ (fun _ s' _ => P (sensors s'))); [|done].
  intros before task rest s' w' _ Hs. unfold finishCapture. destruct (flush_keeps _ Hs) as (x & -> & Hx).
  apply wp_bind, wp_ret. unfold enqueueRecords. destruct (enqueue _ _ _) as [[] worker]; cbn [negb].
  - apply wp_bind, wp_ret. by apply wp_ret.
  - apply fail_event_quiet. intros b w2. by apply wp_ret.
Qed.

End quiet.

End captures.
