(* ===== verification/Captures.v ===== *)
(** * Captures: what a run of the event monitor promises

    Runs of the monitor of Monitor.v, its calls and the storage thread
    interleaved: the accounting of accepted events, the end of every capture,
    the outcome of one call and the windows of the two jobs of an event. *)

From S2P Require Import Prelude Text SensorData Synchronizer PairIndex DataBuffer Config.
From S2P Require Import FileSystem EventState StorageWorker DiskSpace Monitor.

(** ** Any number of captures *)

(** The calls of the node and the storage thread, one after the other. *)
Inductive monitor_call :=
| Capture (eventName : string) (wallNow : Z) (now : Clocks)
| Expire (now : Clocks)
| TakeJob
| Feed (x : Sensors).

(** A monitor with the jobs the storage thread has taken and the directories
    of the accepted events so far. *)
Record history := {
  monitor : EventMonitor;
  taken : list Job;
  accepted_dirs : list path
}.

Definition start (s : EventMonitor) : history := {| monitor := s; taken := []; accepted_dirs := [] |}.

(** Every job sent to the worker so far. *)
Definition sent_jobs (h : history) : list Job := taken h ++ jobs (storageWorker (monitor h)).

(** The events whose final job has been sent. *)
Definition final_dirs (h : history) : list path :=
  directory <$> List.filter finalJob (sent_jobs h).

(** The events whose final job is still owed. *)
Definition active_dirs (s : EventMonitor) : list path :=
  task_directory <$> (map_to_list (activeCaptures s)).*2.

(** No job of an event follows its final one. *)
Definition final_last (l : list Job) : Prop :=
  forall l1 a l2, l = l1 ++ a :: l2 -> finalJob a = true -> Forall (fun b => directory b <> directory a) l2.

Lemma final_last_snoc l b :
  final_last l -> directory b ∉ (directory <$> List.filter finalJob l) -> final_last (l ++ [b]).
Proof.
  intros Hl Hb l1 a l2 He Ha.
  apply app_eq_inv in He as [(k & -> & He)|(k & -> & He)].
  - destruct k as [|x k]; cbn [app] in He; [by injection He as -> ->|]. injection He as <- ->.
    apply Forall_app. split; [by eapply (Hl l1)|]. apply Forall_singleton. intros E. apply Hb.
    rewrite E. apply (list_elem_of_fmap_2 directory _ a), list_elem_of_In, filter_In.
    split; [|done]. apply list_elem_of_In, elem_of_app. right. by left.
  - destruct k as [|x k]; cbn [app] in He; [by injection He as -> <-|]. by destruct k.
Qed.

Lemma final_dirs_snoc l b :
  directory <$> List.filter finalJob (l ++ [b]) =
    (directory <$> List.filter finalJob l) ++ (if finalJob b then [directory b] else []).
Proof. rewrite List.filter_app, fmap_app. simpl. by destruct (finalJob b). Qed.

Section runs.
Context `{RclTime} `{WorkingDirectory} `{Iteration}.
Context (flushPendingPairs : Sensors -> res Sensors).

Definition do_call (c : monitor_call) (h : history) : M history :=
  match c with
  | Capture eventName wallNow now =>
      r ← recordDataAroundEventDetailed flushPendingPairs eventName wallNow now (monitor h);
      mret {| monitor := r.2; taken := taken h;
              accepted_dirs := if capture_accepted r.1 then accepted_dirs h ++ [capture_directory r.1]
                               else accepted_dirs h |}
  | Expire now =>
      s ← processExpiredCaptures flushPendingPairs now (monitor h);
      mret {| monitor := s; taken := taken h; accepted_dirs := accepted_dirs h |}
  | TakeJob =>
      mret (match look (storageWorker (monitor h)) with
            | (Take job, worker) =>
                {| monitor := with_worker worker (monitor h); taken := taken h ++ [job];
                   accepted_dirs := accepted_dirs h |}
            | _ => h
            end)
  | Feed x => mret {| monitor := with_sensors x (monitor h); taken := taken h;
                      accepted_dirs := accepted_dirs h |}
  end.

Definition run_monitor (cs : list monitor_call) (h : history) : M history := for_each cs do_call h.

(** Names are made from identifiers used so far. *)
Definition named_before (root : path) (n : Z) (d : path) : Prop :=
  exists eventName id t, d = child root (eventDirectoryName eventName id t) /\ 0 <= id < n.

(** The invariant of a run: [due] are captures that have expired and whose
    final job is being sent. *)
Record accounts (config : ConfigManager) (limit maxActive : Z) (due : list EventCaptureTask) (h : history)
    : Prop := {
  ac_config : configManager (monitor h) = config;
  ac_limit : maxPendingJobs (storageWorker (monitor h)) = limit;
  ac_active : maxActiveCaptures (monitor h) = maxActive;
  ac_running : stopping (storageWorker (monitor h)) = false;
  ac_reserved : reservedJobs (storageWorker (monitor h)) =
                Z.of_nat (size (activeCaptures (monitor h)) + length due);
  ac_room : occupied (storageWorker (monitor h)) <= limit;
  ac_captures : Z.of_nat (size (activeCaptures (monitor h)) + length due) <= maxActive;
  ac_tasks : map_Forall (fun k t => taskId t = k /\ task_directory t = child (loadRecordRoot config) k)
               (activeCaptures (monitor h));
  ac_id : 0 <= nextCaptureId (monitor h);
  ac_named : Forall (named_before (loadRecordRoot config) (nextCaptureId (monitor h))) (accepted_dirs h);
  ac_nodup : NoDup (accepted_dirs h);
  ac_account : final_dirs h ++ active_dirs (monitor h) ++ (task_directory <$> due) ≡ₚ accepted_dirs h;
  ac_known : Forall (fun j => directory j ∈ accepted_dirs h) (sent_jobs h);
  ac_order : final_last (sent_jobs h)
}.

Lemma start_accounts x config requireSynced :
  let s := newEventMonitor x config requireSynced in
  accounts config (maxPendingJobs (storageWorker s)) (maxActiveCaptures s) [] (start s).
Proof.
  split; try done; unfold occupied; simpl; try lia.
  - rewrite map_size_empty. lia.
  - constructor.
  - by intros [|] ? ? ?.
Qed.

(** Identifiers make names different. *)
Lemma eventDirectoryName_inj e1 e2 i1 i2 t1 t2 :
  0 <= i1 -> 0 <= i2 -> eventDirectoryName e1 i1 t1 = eventDirectoryName e2 i2 t2 -> i1 = i2.
Proof.
  unfold eventDirectoryName. intros Hi1 Hi2 E.
  assert (Hcut : forall e i t, cut_last "_" (e +:+ "_" +:+ to_string i +:+ "_" +:+ to_string t) =
                               Some (e +:+ "_" +:+ to_string i, to_string t)).
  { intros e i t. change ("_" +:+ to_string t) with (String "_" (to_string t)).
    rewrite <- !app_assoc_str. by rewrite cut_last_app by (by apply to_string_lacks). }
  pose proof (Hcut e1 i1 t1) as C1. rewrite E, Hcut in C1. injection C1 as C1 _.
  assert (Hcut2 : forall e i, cut_last "_" (e +:+ "_" +:+ to_string i) = Some (e, to_string i)).
  { intros e i. change ("_" +:+ to_string i) with (String "_" (to_string i)).
    by rewrite cut_last_app by (by apply to_string_lacks). }
  pose proof (f_equal (cut_last "_") C1) as C2.
  rewrite (Hcut2 e2 i2 : cut_last "_" (e2 +:+ String "_" (to_string i2)) = _) in C2.
  rewrite (Hcut2 e1 i1 : cut_last "_" (e1 +:+ String "_" (to_string i1)) = _) in C2.
  injection C2 as _ C2. symmetry in C2. by apply to_string_inj.
Qed.

Lemma named_before_fresh root n eventName id t d :
  0 <= n <= id -> named_before root n d -> d <> child root (eventDirectoryName eventName id t).
Proof.
  intros Hn (e & i & t' & -> & Hi) [= E]. apply eventDirectoryName_inj in E; lia.
Qed.

Lemma named_before_mono root n n' d : n <= n' -> named_before root n d -> named_before root n' d.
Proof. intros Hn (e & i & t & -> & Hi). exists e, i, t. split; [done|lia]. Qed.

(** Registering an accepted event: its directory is new. *)
Lemma capture_dir_fresh config limit maxActive due h eventName now :
  accounts config limit maxActive due h ->
  capture_dir eventName now (monitor h) ∉ accepted_dirs h.
Proof.
  intros Hac Hin. pose proof (ac_named _ _ _ _ _ Hac) as Hn. rewrite Forall_forall in Hn.
  pose proof (ac_id _ _ _ _ _ Hac). unfold capture_dir in Hin. rewrite (ac_config _ _ _ _ _ Hac) in Hin.
  eapply named_before_fresh; [|by apply Hn|reflexivity]. lia.
Qed.

Lemma capture_name_fresh config limit maxActive h eventName now :
  accounts config limit maxActive [] h ->
  activeCaptures (monitor h) !! capture_name eventName now (monitor h) = None.
Proof.
  intros Hac. destruct (activeCaptures _ !! _) as [t|] eqn:El; [|done].
  destruct (capture_dir_fresh _ _ _ _ _ eventName now Hac).
  rewrite <- (ac_account _ _ _ _ _ Hac). apply elem_of_app. right. apply elem_of_app. left.
  unfold active_dirs. destruct (ac_tasks _ _ _ _ _ Hac _ _ El) as [_ Hd].
  unfold capture_dir. rewrite (ac_config _ _ _ _ _ Hac), <- Hd.
  apply list_elem_of_fmap_2. apply (list_elem_of_fmap_2 snd _ (capture_name eventName now (monitor h), t)).
  by apply elem_of_map_to_list.
Qed.

Lemma active_dirs_insert s k t c :
  activeCaptures s !! k = None -> activeCaptures c = <[k := t]> (activeCaptures s) ->
  active_dirs c ≡ₚ task_directory t :: active_dirs s.
Proof. intros Hk Hc. unfold active_dirs. by rewrite Hc, map_to_list_insert. Qed.

(** Adding a job whose event is not final yet. *)
Lemma sent_jobs_app h s' job :
  jobs (storageWorker s') = jobs (storageWorker (monitor h)) ++ [job] ->
  forall ds, sent_jobs {| monitor := s'; taken := taken h; accepted_dirs := ds |} = sent_jobs h ++ [job].
Proof. intros Hj ds. unfold sent_jobs. simpl. rewrite Hj. by rewrite (assoc_L (++)). Qed.

Lemma final_dirs_accepted config limit maxActive due h d :
  accounts config limit maxActive due h -> d ∈ final_dirs h -> d ∈ accepted_dirs h.
Proof. intros Hac Hd. rewrite <- (ac_account _ _ _ _ _ Hac). apply elem_of_app. by left. Qed.

Lemma accepts_accounts config limit maxActive h eventName now x startTime time s' :
  accounts config limit maxActive [] h -> nextCaptureId (monitor h) + 1 < 2 ^ 64 ->
  accepts eventName now x startTime time (monitor h) s' ->
  accounts config limit maxActive []
    {| monitor := s'; taken := taken h;
       accepted_dirs := accepted_dirs h ++ [capture_dir eventName now (monitor h)] |}.
Proof.
  intros Hac Hid Ha. pose proof (capture_dir_fresh _ _ _ _ _ eventName now Hac) as Hfresh.
  pose proof (capture_name_fresh _ _ _ _ eventName now Hac) as Hname.
  assert (Hnf : capture_dir eventName now (monitor h) ∉ final_dirs h)
    by (intros Hd; by apply Hfresh, (final_dirs_accepted _ _ _ _ _ _ Hac)).
  set (dir := capture_dir eventName now (monitor h)) in *.
  pose proof (ac_id _ _ _ _ _ Hac) as Hid0.
  assert (Hnext : u64 (nextCaptureId (monitor h) + 1) = nextCaptureId (monitor h) + 1)
    by (apply u64_small; lia).
  assert (Hnew : Forall (named_before (loadRecordRoot config) (nextCaptureId (monitor h) + 1))
                   (accepted_dirs h ++ [dir])).
  { apply Forall_app. split.
    - eapply Forall_impl; [apply (ac_named _ _ _ _ _ Hac)|]. intros d. apply named_before_mono. lia.
    - apply Forall_singleton. exists eventName, (nextCaptureId (monitor h)), (systemNowNs now).
      split; [|lia]. unfold dir, capture_dir. by rewrite (ac_config _ _ _ _ _ Hac). }
  assert (Hnd : NoDup (accepted_dirs h ++ [dir])).
  { apply NoDup_app. split; [apply Hac|]. split; [|apply NoDup_singleton].
    intros d Hd ->%list_elem_of_singleton. done. }
  assert (Hknown : forall final, Forall (fun j => directory j ∈ accepted_dirs h ++ [dir])
     (sent_jobs h ++ [pre_job eventName dir x startTime time final (configManager (monitor h))])).
  { intros final. apply Forall_app. split.
    - eapply Forall_impl; [apply (ac_known _ _ _ _ _ Hac)|]. intros j. cbn beta. set_solver.
    - apply Forall_singleton. simpl. set_solver. }
  pose proof (ac_account _ _ _ _ _ Hac) as Hacc. rewrite app_nil_r in Hacc.
  destruct Ha as [Hpost Hroom|finish Hpost Hfin Hroom Hmax]; fold dir.
  - assert (Hsent := sent_jobs_app h (with_worker (with_jobs (jobs (storageWorker (monitor h)) ++
       [pre_job eventName dir x startTime time true (configManager (monitor h))])
       (storageWorker (monitor h))) (numbered_next x (monitor h))) _ eq_refl (accepted_dirs h ++ [dir])).
    split; simpl; try apply Hac; try (by rewrite ?Hnext; first [done|lia]).
    + unfold occupied in *. simpl. rewrite length_app. simpl. rewrite <- (ac_limit _ _ _ _ _ Hac). lia.
    + rewrite app_nil_r. unfold final_dirs. rewrite Hsent, final_dirs_snoc. simpl.
      fold (final_dirs h). rewrite <- Hacc. unfold active_dirs. simpl.
      rewrite <- !(assoc_L (++)). apply Permutation_app_head. by rewrite Permutation_app_comm.
    + rewrite Hsent. apply Hknown.
    + rewrite Hsent. apply final_last_snoc; [apply Hac|done].
  - set (task := capture_task eventName now time finish (monitor h)) in *.
    assert (Hsent := sent_jobs_app h (with_captures
       (<[capture_name eventName now (monitor h) := task]> (activeCaptures (monitor h)))
       (with_worker (with_reserved (reservedJobs (storageWorker (monitor h)) + 1)
         (with_jobs (jobs (storageWorker (monitor h)) ++
            [pre_job eventName dir x startTime time false (configManager (monitor h))])
            (storageWorker (monitor h)))) (numbered_next x (monitor h)))) _ eq_refl
       (accepted_dirs h ++ [dir])).
    pose proof (ac_reserved _ _ _ _ _ Hac) as Hres. simpl in Hres.
    split; simpl; try apply Hac; try (by rewrite ?Hnext; first [done|lia]).
    + rewrite map_size_insert_None by done. lia.
    + unfold occupied in *. simpl. rewrite length_app. simpl. rewrite <- (ac_limit _ _ _ _ _ Hac). lia.
    + rewrite map_size_insert_None by done. rewrite <- (ac_active _ _ _ _ _ Hac). lia.
    + apply map_Forall_insert_2; [|apply Hac]. split; [done|]. simpl. unfold dir, capture_dir.
      by rewrite (ac_config _ _ _ _ _ Hac).
    + rewrite app_nil_r. unfold final_dirs. rewrite Hsent, final_dirs_snoc. simpl. rewrite app_nil_r.
      fold (final_dirs h). rewrite <- Hacc.
      rewrite (active_dirs_insert (monitor h) (capture_name eventName now (monitor h)) task) by done.
      simpl. rewrite <- !(assoc_L (++)). apply Permutation_app_head.
      by rewrite Permutation_cons_append.
    + rewrite Hsent. apply Hknown.
    + rewrite Hsent. apply final_last_snoc; [apply Hac|done].
Qed.

Lemma split_captures (over : EventCaptureTask -> bool) (m : gmap string EventCaptureTask) :
  (map_to_list m).*2 ≡ₚ
    (map_to_list (filter (fun e : string * EventCaptureTask => over e.2 = false) m)).*2 ++
    List.filter over (map_to_list m).*2.
Proof.
  induction m as [|k t m Hk IH] using map_ind.
  { by rewrite map_filter_empty, map_to_list_empty. }
  assert (Hfilter : List.filter over (map_to_list (<[k:=t]> m)).*2 ≡ₚ
    (if over t then [t] else []) ++ List.filter over (map_to_list m).*2).
  { rewrite map_to_list_insert by done. simpl. by destruct (over t). }
  rewrite Hfilter, map_to_list_insert by done. revert IH.
  generalize (List.filter over (map_to_list m).*2). intros F IH. csimpl. rewrite IH. clear Hfilter.
  destruct (over t) eqn:Ho.
  - rewrite map_filter_insert_False, delete_id by (simpl; congruence). simpl. apply Permutation_middle.
  - rewrite map_filter_insert_True by done.
    rewrite map_to_list_insert; [done|]. by apply map_lookup_filter_None_2; left.
Qed.

Context (flush_fails : forall x e, flushPendingPairs x = Err e -> e = Exception).

Lemma finishCapture_wp config limit maxActive due h t task w :
  accounts config limit maxActive (task :: due) h ->
  wp (finishCapture flushPendingPairs t task (monitor h))
    (fun s' _ => accounts config limit maxActive due
       {| monitor := s'; taken := taken h; accepted_dirs := accepted_dirs h |})
    (fun _ => True) (fun _ => True) w.
Proof.
  intros Hac. unfold finishCapture.
  destruct (flushPendingPairs (sensors (monitor h))) as [x|e] eqn:Ex.
  2: { rewrite (flush_fails _ _ Ex). by apply wp_bind, wp_throw. }
  apply wp_bind, wp_ret. unfold enqueueRecords, enqueue. cbn [storageWorker with_sensors].
  rewrite (ac_running _ _ _ _ _ Hac). cbn [negb andb orb].
  apply wp_bind, wp_ret, wp_ret. unfold give_back. cbn [reservedJobs with_jobs andb].
  pose proof (ac_reserved _ _ _ _ _ Hac) as Hres. simpl in Hres.
  replace (reservedJobs (storageWorker (monitor h)) >? 0) with true by lia.
  set (job := event_job _ _ _ _ _ _). set (s' := with_worker _ _).
  pose proof (ac_account _ _ _ _ _ Hac) as Hacc. simpl in Hacc.
  assert (Hin : task_directory task ∈ accepted_dirs h) by (rewrite <- Hacc; set_solver).
  assert (Hnf : directory job ∉ directory <$> List.filter finalJob (sent_jobs h)).
  { pose proof (ac_nodup _ _ _ _ _ Hac) as Hnd. rewrite <- Hacc in Hnd.
    apply NoDup_app in Hnd as (_ & Hnd & _). intros Hd. apply (Hnd _ Hd). simpl. set_solver. }
  assert (Hsent := sent_jobs_app h s' job eq_refl (accepted_dirs h)).
  split; simpl; try apply Hac.
  - lia.
  - unfold occupied in *. simpl. rewrite length_app. simpl. pose proof (ac_room _ _ _ _ _ Hac) as Hr.
    unfold occupied in Hr. lia.
  - pose proof (ac_captures _ _ _ _ _ Hac) as Hc. simpl in Hc. lia.
  - unfold final_dirs. rewrite Hsent, final_dirs_snoc. simpl. rewrite <- Hacc.
    fold (final_dirs h). change (active_dirs s') with (active_dirs (monitor h)).
    rewrite <- !(assoc_L (++)). apply Permutation_app_head. simpl. by rewrite Permutation_middle.
  - rewrite Hsent. apply Forall_app. split; [apply Hac|]. by apply Forall_singleton.
  - rewrite Hsent. apply final_last_snoc; [apply Hac|done].
Qed.

Lemma process_wp config limit maxActive h now w :
  accounts config limit maxActive [] h ->
  wp (processExpiredCaptures flushPendingPairs now (monitor h))
    (fun s' _ => accounts config limit maxActive []
       {| monitor := s'; taken := taken h; accepted_dirs := accepted_dirs h |})
    (fun _ => True) (fun _ => True) w.
Proof.
  intros Hac. unfold processExpiredCaptures.
  set (over := captureExpired _ _). set (m := activeCaptures (monitor h)).
  set (expired := List.filter over (iteration (map_to_list m).*2)).
  assert (Hexp : expired ≡ₚ List.filter over (map_to_list m).*2)
    by (unfold expired; by rewrite iteration_perm).
  pose proof (split_captures over m) as Hsplit. rewrite <- Hexp in Hsplit.
  set (kept := filter _ m) in *.
  assert (Hlen : size m = (size kept + length expired)%nat).
  { rewrite <- !length_map_to_list. apply Permutation_length in Hsplit.
    rewrite length_app, !length_fmap in Hsplit. done. }
  set (h0 := {| monitor := with_captures kept (monitor h); taken := taken h;
                accepted_dirs := accepted_dirs h |}).
  assert (H0' : accounts config limit maxActive expired h0).
  { pose proof (ac_reserved _ _ _ _ _ Hac) as Hres. pose proof (ac_captures _ _ _ _ _ Hac) as Hmax.
    fold m in Hres, Hmax. simpl in Hres, Hmax. split; simpl; try apply Hac; try lia.
    - intros k t Hk. apply map_lookup_filter_Some in Hk as [Hk _]. by apply (ac_tasks _ _ _ _ _ Hac).
    - rewrite <- (ac_account _ _ _ _ _ Hac). unfold final_dirs, sent_jobs. simpl.
      apply Permutation_app_head. rewrite app_nil_r. unfold active_dirs. simpl. fold m.
      by rewrite Hsplit, fmap_app. }
  change (with_captures kept (monitor h)) with (monitor h0).
  eapply wp_post; [|apply (wp_for_each _ _ (fun prev s' _ => forall rest, expired = prev ++ rest ->
    accounts config limit maxActive rest
      {| monitor := s'; taken := taken h; accepted_dirs := accepted_dirs h |}))].
  - intros s' w' Hs. apply Hs. by rewrite app_nil_r.
  - intros prev task rest s' w' He Hs.
    specialize (Hs (task :: rest) He).
    eapply wp_post; [|exact (finishCapture_wp _ _ _ _ _ (systemNowNs now) task w' Hs)].
    intros s'' w'' Hs'' rest' He'. simpl in Hs''. rewrite He, <- (assoc_L (++)) in He'.
    apply app_inv_head in He'. injection He' as <-. exact Hs''.
  - intros rest He. cbn [app] in He. by rewrite <- He.
Qed.

(** Expiring captures uses up no identifier and adds no capture. *)
Lemma finishCapture_next t task s w :
  wp (finishCapture flushPendingPairs t task s) (fun s' _ =>
    nextCaptureId s' = nextCaptureId s /\ activeCaptures s' = activeCaptures s)
    (fun _ => True) (fun _ => True) w.
Proof.
  unfold finishCapture. destruct (flushPendingPairs (sensors s)) as [x|e] eqn:Ex.
  2: { rewrite (flush_fails _ _ Ex). by apply wp_bind, wp_throw. }
  apply wp_bind, wp_ret. unfold enqueueRecords. destruct (enqueue _ _ _) as [queued worker].
  destruct (negb queued); [apply fail_event_quiet; intros ? w'|apply wp_bind, wp_ret]; by apply wp_ret.
Qed.

Lemma process_next now s w :
  let over := captureExpired (latestSensorTimestamp (dataBuffer (sensors s))) (steady_now now) in
  wp (processExpiredCaptures flushPendingPairs now s)
    (fun s' _ => nextCaptureId s' = nextCaptureId s /\
       activeCaptures s' = filter (fun e : string * EventCaptureTask => over e.2 = false) (activeCaptures s))
    (fun _ => True) (fun _ => True) w.
Proof.
  intros over. apply (wp_for_each _ _ (fun _ s' _ => nextCaptureId s' = nextCaptureId s /\
    activeCaptures s' = filter (fun e : string * EventCaptureTask => over e.2 = false) (activeCaptures s)));
    [|done].
  intros prev task rest s' w' _ [Hs Ha]. eapply wp_post; [|apply finishCapture_next].
  intros s'' w'' [Hs'' Ha'']. split; congruence.
Qed.

Lemma do_call_wp config limit maxActive c h w :
  accounts config limit maxActive [] h -> nextCaptureId (monitor h) + 1 < 2 ^ 64 ->
  wp (do_call c h)
    (fun h' _ => accounts config limit maxActive [] h' /\
       nextCaptureId (monitor h') <= nextCaptureId (monitor h) + 1)
    (fun _ => True) (fun _ => True) w.
Proof.
  intros Hac Hid. pose proof (ac_id _ _ _ _ _ Hac) as Hid0.
  assert (Hnext : u64 (nextCaptureId (monitor h) + 1) = nextCaptureId (monitor h) + 1)
    by (apply u64_small; lia).
  destruct c as [eventName wallNow now|now| |x]; simpl.
  - apply wp_bind. eapply wp_post; [|apply recordData_wp].
    + intros [r s'] w' [Hdir (x & t & Hx & Hm & Hr)]. simpl in *. apply wp_ret.
      destruct (capture_accepted r).
      * rewrite Hdir. destruct Hr as [Ha _]. split; [by eapply accepts_accounts|].
        destruct Ha; simpl; lia.
      * destruct Hr as [-> _]. destruct Hac. split; [|simpl; lia]. split; simpl in *; try done; [lia|].
        rewrite Hnext. eapply Forall_impl; [done|]. intros d. apply named_before_mono. lia.
    + split; [apply Hac|]. pose proof (ac_reserved _ _ _ _ _ Hac). lia.
    + by eapply capture_name_fresh.
    + intros e. apply flush_fails.
  - apply wp_bind. eapply wp_post; [|apply wp_and; [by apply (process_wp config limit maxActive)|apply process_next]].
    intros s' w' [Hs [Hn _]]. apply wp_ret. split; [done|simpl; lia].
  - apply wp_ret. unfold look. destruct (jobs (storageWorker (monitor h))) as [|job rest] eqn:Ej.
    { destruct (stopping _); (split; [done|lia]). }
    split; [|simpl; lia]. destruct Hac.
    assert (Hsent : sent_jobs {| monitor := with_worker (with_jobs rest (storageWorker (monitor h))) (monitor h);
        taken := taken h ++ [job]; accepted_dirs := accepted_dirs h |} = sent_jobs h).
    { unfold sent_jobs. simpl. rewrite Ej. by rewrite <- (assoc_L (++)). }
    split; simpl; unfold final_dirs; rewrite ?Hsent; try done.
    unfold occupied in *. simpl. rewrite Ej in *. simpl in *. lia.
  - apply wp_ret. split; [|simpl; lia]. by destruct Hac.
Qed.

(** The calls by themselves. *)
Lemma recordData_accounts config limit maxActive eventName wallNow now h w :
  accounts config limit maxActive [] h -> nextCaptureId (monitor h) + 1 < 2 ^ 64 ->
  wp (recordDataAroundEventDetailed flushPendingPairs eventName wallNow now (monitor h))
    (fun r _ => accounts config limit maxActive []
         {| monitor := r.2; taken := taken h;
            accepted_dirs := if capture_accepted r.1 then accepted_dirs h ++ [capture_directory r.1]
                             else accepted_dirs h |} /\
       nextCaptureId r.2 <= nextCaptureId (monitor h) + 1)
    (fun _ => True) (fun _ => True) w.
Proof.
  intros Hac Hid o. pose proof (do_call_wp config limit maxActive (Capture eventName wallNow now) h w Hac Hid o) as Hc.
  simpl in Hc. unfold mbind, M_bind in Hc.
  by destruct (recordDataAroundEventDetailed _ _ _ _ _ o w) as [r w' o'| | |].
Qed.

Lemma feed_accounts config limit maxActive h x :
  accounts config limit maxActive [] h ->
  accounts config limit maxActive []
    {| monitor := with_sensors x (monitor h); taken := taken h; accepted_dirs := accepted_dirs h |}.
Proof. by intros []. Qed.

Lemma run_monitor_wp x config requireSynced cs w :
  let s := newEventMonitor x config requireSynced in
  Z.of_nat (length cs) < 2 ^ 64 ->
  wp (run_monitor cs (start s))
    (fun h _ => accounts config (maxPendingJobs (storageWorker s)) (maxActiveCaptures s) [] h)
    (fun _ => True) (fun _ => True) w.
Proof.
  intros s Hlen. eapply wp_post; [|apply (wp_for_each _ _ (fun prev h _ =>
    accounts config (maxPendingJobs (storageWorker s)) (maxActiveCaptures s) [] h /\
    nextCaptureId (monitor h) <= Z.of_nat (length prev)))].
  - by intros h w' [Hac _].
  - intros prev c rest h w' -> [Hac Hid]. rewrite length_app in Hlen. simpl in Hlen.
    eapply wp_post; [|apply do_call_wp; [exact Hac|lia]].
    intros h' w'' [Hac' Hid']. split; [done|]. rewrite length_app. simpl. lia.
  - split; [apply start_accounts|]. simpl. lia.
Qed.

Lemma accounts_active config limit maxActive h h' k t :
  accounts config limit maxActive [] h -> accounts config limit maxActive [] h' ->
  accepted_dirs h' = accepted_dirs h ->
  activeCaptures (monitor h) !! k = Some t -> activeCaptures (monitor h') !! k = None ->
  task_directory t ∈ final_dirs h'.
Proof.
  intros Hac Hac' He Hk Hk'. destruct (ac_tasks _ _ _ _ _ Hac _ _ Hk) as [_ Hd].
  assert (Hin : task_directory t ∈ accepted_dirs h').
  { rewrite He, <- (ac_account _ _ _ _ _ Hac). apply elem_of_app. right. apply elem_of_app. left.
    apply list_elem_of_fmap_2, (list_elem_of_fmap_2 snd _ (k, t)). by apply elem_of_map_to_list. }
  rewrite <- (ac_account _ _ _ _ _ Hac'), app_nil_r in Hin. apply elem_of_app in Hin as [|Hin]; [done|].
  apply list_elem_of_fmap in Hin as (t' & Ht & Hin). apply list_elem_of_fmap in Hin as ([k' t''] & -> & Hin).
  apply elem_of_map_to_list in Hin. destruct (ac_tasks _ _ _ _ _ Hac' _ _ Hin) as [_ Hd'].
  simpl in Ht. rewrite Ht, Hd' in Hd. injection Hd as ->. congruence.
Qed.

End runs.

(** ** Properties *)

Section properties.
Context `{RclTime} `{WorkingDirectory} `{Iteration}.
Context (flushPendingPairs : Sensors -> res Sensors).
Context (flush_fails : forall x e, flushPendingPairs x = Err e -> e = Exception).

(** C25. In any run of a monitor, whatever I/O errors occur, the accepted events
    are, each exactly once, those whose final job has been sent and those that
    are still being captured; all jobs belong to accepted events, none of an
    event follows its final job, every capture holds one reservation, and
    neither the captures nor the jobs and reservations exceed their limits. *)
Theorem capture_accounting x config requireSynced cs w o :
  let s := newEventMonitor x config requireSynced in
  Z.of_nat (length cs) < 2 ^ 64 ->
  match run_monitor flushPendingPairs cs (start s) o w with
  | Done h _ _ =>
      final_dirs h ++ active_dirs (monitor h) ≡ₚ accepted_dirs h /\ NoDup (accepted_dirs h) /\
      Forall (fun j => directory j ∈ accepted_dirs h) (sent_jobs h) /\ final_last (sent_jobs h) /\
      reservedJobs (storageWorker (monitor h)) = Z.of_nat (size (activeCaptures (monitor h))) /\
      Z.of_nat (size (activeCaptures (monitor h))) <= maxActiveCaptures s /\
      Z.of_nat (length (jobs (storageWorker (monitor h)))) + reservedJobs (storageWorker (monitor h)) <=
        maxPendingJobs (storageWorker s)
  | Stuck _ => False
  | _ => True
  end.
Proof.
  intros s Hlen. pose proof (run_monitor_wp flushPendingPairs flush_fails x config requireSynced cs w Hlen o) as Hr.
  destruct (run_monitor _ _ _ o w) as [h w' o'| | |]; try done.
  destruct Hr as [?? ? ? Hres Hroom Hcap ? ? ? Hnd Hacc Hk Ho]. simpl in *.
  rewrite app_nil_r in Hacc. rewrite Nat.add_0_r in Hres, Hcap. done.
Qed.

(** C26. A capture does not outlive its deadlines: after any run, processing the
    expired captures sends the final job of every capture whose window the
    sensors have passed or whose deadline on the steady clock has come. *)
Theorem capture_finishes x config requireSynced cs now w o :
  let s := newEventMonitor x config requireSynced in
  Z.of_nat (length cs) < 2 ^ 64 ->
  match run_monitor flushPendingPairs cs (start s) o w with
  | Done h w' o' =>
      match do_call flushPendingPairs (Expire now) h o' w' with
      | Done h' _ _ => forall k t, activeCaptures (monitor h) !! k = Some t ->
          captureExpired (latestSensorTimestamp (dataBuffer (sensors (monitor h)))) (steady_now now) t = true ->
          task_directory t ∈ final_dirs h'
      | Stuck _ => False
      | _ => True
      end
  | Stuck _ => False
  | _ => True
  end.
Proof.
  intros s Hlen. pose proof (run_monitor_wp flushPendingPairs flush_fails x config requireSynced cs w Hlen o) as Hr.
  destruct (run_monitor _ _ _ o w) as [h w' o'| | |]; try done.
  assert (Hp : wp (do_call flushPendingPairs (Expire now) h) (fun h' _ =>
    (forall k t, activeCaptures (monitor h) !! k = Some t ->
       captureExpired (latestSensorTimestamp (dataBuffer (sensors (monitor h)))) (steady_now now) t = true ->
       task_directory t ∈ final_dirs h')) (fun _ => True) (fun _ => True) w').
  { apply wp_bind. eapply wp_post; [|apply wp_and; [eapply (process_wp flushPendingPairs flush_fails); exact Hr|
      by apply process_next]].
    intros s' w1 [Hac' [_ Hact]]. apply wp_ret. intros k t Hk Hover.
    eapply (accounts_active _ _ _ h); [done|exact Hac'|done|done|]. simpl. rewrite Hact.
    apply map_lookup_filter_None_2. right. intros t' Ht'. rewrite Hk in Ht'. injection Ht' as <-. simpl. congruence. }
  specialize (Hp o'). by destruct (do_call flushPendingPairs (Expire now) h o' w').
Qed.

(** C27. Whatever I/O errors occur, a call that captures an event and returns has
    gone one of four ways.  Without the pairs it requires, a place in the queue or
    a free capture it is refused with that reason, and no file changes.  Otherwise
    the [.pending] marker is written; when that fails the call is refused, with at
    most the temporary file and new directories left on disk.  When it succeeds
    and the first job has a place, the event is accepted, with the data of the
    time before it queued, finally or followed by a capture that holds a
    reservation.  When only the reservation has a place, the call is refused and
    the event marked as failed, as far as that marker can be written.  A refused
    call leaves nothing in memory but the flushed sensors and the next
    identifier. *)
Theorem capture_outcome eventName wallNow now s w o :
  stopping (storageWorker s) = false -> 0 <= reservedJobs (storageWorker s) ->
  activeCaptures s !! capture_name eventName now s = None ->
  let dir := capture_dir eventName now s in
  match recordDataAroundEventDetailed flushPendingPairs eventName wallNow now s o w with
  | Done (r, s') w' _ =>
      capture_directory r = dir /\
      exists x startTime, flushPendingPairs (sensors s) = Ok x /\
        time_minus (capture_time wallNow x) (from_seconds (preSeconds eventName s)) = Some startTime /\
        (capture_accepted r = false -> s' = numbered_next x s) /\
        match refusal eventName x startTime (capture_time wallNow x) s with
        | Some message => capture_accepted r = false /\ capture_message r = message /\ w' = w
        | None =>
            capture_accepted r = false /\ capture_message r = no_marker /\
              begun dir eventName (systemNowNs now) false w w' \/
            exists w1, begun dir eventName (systemNowNs now) true w w1 /\
              if first_fits eventName s then
                capture_accepted r = true /\ w' = w1 /\
                accepts eventName now x startTime (capture_time wallNow x) s s' /\
                exists m, files w' !! pending dir = Some (File (begin_content eventName (systemNowNs now)) m)
              else
                capture_accepted r = false /\ capture_message r = no_room /\
                exists written,
                  marked (failed dir) (fail_content "pre_event_queue_unavailable" (systemNowNs now)) (pending dir)
                    (completed dir) written w1 w'
        end
  | Stuck _ => False
  | _ => True
  end.
Proof.
  intros Hrun Hres Hfresh dir.
  pose proof (recordData_recorded flushPendingPairs eventName wallNow now s w (Build_ready s Hrun Hres) Hfresh
    (flush_fails _) o) as Hw.
  destruct (recordDataAroundEventDetailed _ _ _ _ _ o w) as [[r s'] w' o'| | |]; try done.
  destruct Hw as (x & t & Hx & Ht & Hd & Hr). split; [done|]. exists x, t. split; [done|]. split; [done|].
  cbn [fst snd] in *. fold dir in Hr. destruct (refusal _ _ _ _ _) as [message|].
  { by destruct Hr as (-> & -> & -> & ->). }
  destruct Hr as [(-> & -> & -> & Hb)|(w1 & Hb & Hr)]; [by auto|].
  destruct (first_fits eventName s).
  - destruct Hr as (-> & Ha & ->). split; [done|]. right. exists w1. pose proof Hb as [_ Hm]. auto.
  - destruct Hr as (-> & -> & -> & Hm). split; [done|]. right. by exists w1.
Qed.

(** C32. The final job of a capture holds exactly the buffered data and the pairs
    later than the event and not later than the end of its window; so nothing
    is in it that a first job, taken from whatever buffer, holds. *)
Theorem finish_window t task s w o :
  stopping (storageWorker s) = false ->
  match finishCapture flushPendingPairs t task s o w with
  | Done s' _ _ => exists x job,
      flushPendingPairs (sensors s) = Ok x /\
      jobs (storageWorker s') = jobs (storageWorker s) ++ [job] /\
      directory job = task_directory task /\ finalJob job = true /\
      records job = List.filter (fun d => (eventTime task <? timestampOf d) && (timestampOf d <=? endTime task))
        (getAllData (dataBuffer x)) /\
      job_pairs job = List.filter (fun p => (eventTime task <? pair_time p) && (pair_time p <=? endTime task))
        (records_ (pairIndex x)) /\
      (forall y startTime final, Forall (fun d => d ∉ records job)
         (records (pre_job (task_event task) (task_directory task) y startTime (eventTime task) final
                     (configManager s))))
  | Stuck _ => False
  | _ => True
  end.
Proof.
  intros Hrun. unfold finishCapture.
  destruct (flushPendingPairs (sensors s)) as [x|e] eqn:Ex; [|by rewrite (flush_fails _ _ Ex)].
  unfold enqueueRecords, enqueue. simpl. rewrite Hrun. simpl.
  assert (Hf : forall A (key : A -> Z) l,
    List.filter (fun a => negb (key a =? eventTime task))
      (List.filter (fun a => (eventTime task <=? key a) && (key a <=? endTime task)) l) =
    List.filter (fun a => (eventTime task <? key a) && (key a <=? endTime task)) l).
  { intros A key l. induction l as [|a l IH]; [done|]. simpl.
    destruct (Z.leb_spec (eventTime task) (key a)), (Z.leb_spec (key a) (endTime task)),
      (Z.ltb_spec (eventTime task) (key a)); simpl; try lia; rewrite ?IH; try done;
      destruct (Z.eqb_spec (key a) (eventTime task)); simpl; try lia; by rewrite ?IH. }
  exists x. eexists. split; [done|]. split; [unfold give_back; simpl; by destruct (_ >? 0)|].
  split; [done|]. split; [done|]. simpl. unfold getDataWithinTimeRange, getPairsWithinTimeRange.
  rewrite range_concat, select_filter, !Hf. split; [done|]. split; [done|].
  intros y start final. apply Forall_forall. intros d Hd Hin.
  rewrite range_concat in Hd. apply list_elem_of_In, filter_In in Hd as [_ Hd].
  apply list_elem_of_In, filter_In in Hin as [_ Hin]. lia.
Qed.

End properties.

(** ** A run *)

#[local] Instance home_directory : WorkingDirectory := { absolute d := [d] }.

Definition no_sensors : Sensors :=
  {| dataBuffer := newDataBuffer 10 (30 * ns_per_s) 0; pairIndex := newPairIndex;
     synchronizer := newSynchronizer 5 20000000 true |}.

Definition sample_config : ConfigManager := newConfigManager.

Definition at_time (steady : Z) : Clocks := {| steady_now := steady; systemNowNs := 1700000000000000000 |}.

(** An event is captured, its first job is taken, and ten seconds later (five of
    data and five of grace) its final job is sent. *)
Definition sample_calls : list monitor_call :=
  [Capture "brake" 7000000000 (at_time 0); TakeJob; Expire (at_time 10000000000)].

Definition ready_world : world := {| files := {[ ["records"]%string := Dir ]}; clock := 0 |}.

Definition after_calls : history :=
  match run_monitor Ok sample_calls (start (newEventMonitor no_sensors sample_config false)) [] ready_world with
  | Done h _ _ => h
  | _ => start (newEventMonitor no_sensors sample_config false)
  end.

Example sample_accounts :
  accepted_dirs after_calls = [["brake_0_1700000000000000000"; "records"]]%string /\
  finalJob <$> sent_jobs after_calls = [false; true] /\
  size (activeCaptures (monitor after_calls)) = 0%nat.
Proof. vm_compute. done. Qed.

Lemma capture_accounting_witness :
  match run_monitor Ok sample_calls (start (newEventMonitor no_sensors sample_config false)) [] ready_world with
  | Done h _ _ => final_dirs h ++ active_dirs (monitor h) ≡ₚ accepted_dirs h /\ final_last (sent_jobs h)
  | Stuck _ => False
  | _ => True
  end.
Proof.
  assert (Hok : forall (x : Sensors) e, Ok x = Err e -> e = Exception) by done.
  pose proof (capture_accounting Ok Hok no_sensors sample_config false sample_calls ready_world [] ltac:(reflexivity)) as Hc.
  destruct (run_monitor Ok _ _ _ _); try done. split; apply Hc.
Defined.

Lemma capture_finishes_witness :
  match run_monitor Ok (take 2 sample_calls) (start (newEventMonitor no_sensors sample_config false)) []
          ready_world with
  | Done h w' o' =>
      match do_call Ok (Expire (at_time 10000000000)) h o' w' with
      | Done h' _ _ => forall k t, activeCaptures (monitor h) !! k = Some t ->
          captureExpired (latestSensorTimestamp (dataBuffer (sensors (monitor h)))) 10000000000 t = true ->
          task_directory t ∈ final_dirs h'
      | Stuck _ => False
      | _ => True
      end
  | Stuck _ => False
  | _ => True
  end.
Proof.
  apply (capture_finishes Ok); [done|reflexivity].
Defined.

Lemma capture_outcome_witness :
  let s := newEventMonitor no_sensors sample_config false in
  match recordDataAroundEventDetailed Ok "brake" 7000000000 (at_time 0) s [] ready_world with
  | Done (r, s') w' _ => capture_directory r = capture_dir "brake" (at_time 0) s
  | Stuck _ => False
  | _ => True
  end.
Proof.
  intros s. pose proof (capture_outcome Ok ltac:(done) "brake" 7000000000 (at_time 0) s ready_world []
    ltac:(reflexivity) ltac:(done) ltac:(reflexivity)) as Hc.
  destruct (recordDataAroundEventDetailed _ _ _ _ _ _ _) as [[r s'] w' o'| | |]; try done. apply Hc.
Defined.

Definition sample_task : EventCaptureTask :=
  {| taskId := "brake_0_9"; task_event := "brake"; eventTime := 5; endTime := 9; wallDeadline := 0;
     task_directory := ["brake_0_9"; "records"]%string |}.

Lemma finish_window_witness :
  match finishCapture Ok 0 sample_task (newEventMonitor no_sensors sample_config false) [] ready_world with
  | Done s' _ _ => exists job, jobs (storageWorker s') = [job] /\ finalJob job = true
  | Stuck _ => False
  | _ => True
  end.
Proof.
  pose proof (finish_window Ok ltac:(done) 0 sample_task (newEventMonitor no_sensors sample_config false)
    ready_world [] ltac:(reflexivity)) as Hf.
  destruct (finishCapture _ _ _ _ _ _) as [s' w' o'| | |]; try done.
  destruct Hf as (x & job & _ & Hj & _ & Hfin & _). by exists job.
Defined.

(** The queue holds a single job: the capture is rolled back, and its directory
    stays with [.failed]. *)
Definition one_job_config : ConfigManager :=
  {| config_ := <["max_pending_storage_jobs"%string := "1"%string]> (config_ sample_config); validationProblems := [] |}.

Example rolled_back :
  let s := newEventMonitor no_sensors one_job_config false in
  match recordDataAroundEventDetailed Ok "brake" 7000000000 (at_time 0) s [] ready_world with
  | Done (r, s') w _ =>
      negb (capture_accepted r) && bool_decide (jobs (storageWorker s') = []) &&
      (reservedJobs (storageWorker s') =? 0) && bool_decide (activeCaptures s' = ∅) &&
      present w (failed (capture_directory r)) && negb (present w (pending (capture_directory r)))
  | _ => false
  end = true.
Proof. vm_compute. reflexivity. Qed.

(** With room for a single job no event with data after it is ever accepted. *)
Example one_job_queue s eventName x t time :
  maxPendingJobs (storageWorker s) = 1 -> 0 <= reservedJobs (storageWorker s) ->
  0 < postSeconds eventName s -> admissible eventName x t time s = false.
Proof.
  intros Hm Hr Hp. unfold admissible, occupied. replace (postSeconds eventName s =? 0) with false by lia.
  rewrite Hm. apply andb_false_intro2, andb_false_intro1. lia.
Qed.
