(* ===== verification/Upload.v ===== *)
(** * Upload: sending finished event directories to the receiver

    Models src/include/upload_worker.hpp.  The receiving service is a
    parameter: what it answers may depend on everything it was sent before.
    Clock readings are arguments; so is whether the worker has been asked to
    stop at the two points where an upload checks it. *)

From S2P Require Import Prelude Text SensorData FileSystem EventState RecordIo StorageWorker.

(** ** The service *)

Inductive Opcode := BEGIN | FILE_CHUNK | END_.

#[export] Instance Opcode_eq_dec : EqDecision Opcode.
Proof. solve_decision. Defined.

(** [srv/UploadStore.srv]; a field that is not set is empty or zero. *)
Record Request := {
  event_name : string;
  transfer_id : string;
  opcode : Opcode;
  file_path : string;
  offset : Z;
  total_bytes : Z;
  file_count : Z;
  data : string
}.

#[export] Instance Request_eq_dec : EqDecision Request.
Proof. solve_decision. Defined.

Record Response := { success : bool; received_bytes : Z }.

(** [respond] answers a request after the ones sent before; [None] is a
    timeout, a failed call or a stop while waiting. *)
Class Service := {
  service_is_ready : list Request -> bool;
  respond : list Request -> Request -> option Response
}.

(** ** Configuration and state *)

Record UploadConfig := {
  serviceName : string;
  maxRetries : Z;
  retryBackoff : Z;                    (* milliseconds *)
  chunkBytes : Z;
  leaseTimeout : Z;                    (* seconds *)
  failedRescanPeriod : Z               (* milliseconds *)
}.

Definition kMaxChunkBytes : Z := 1024 * 1024.

Record RetryState := { attempts : Z; nextAttempt : Z }.

(** [sent] are the requests so far; [nextId] counts transfer identifiers. *)
Record UploadWorker := {
  upload_root : path;
  upload_config : UploadConfig;
  pending_retries : gmap path RetryState;
  sent : list Request;
  nextId : Z
}.

Definition with_sent (l : list Request) (n : Z) (s : UploadWorker) : UploadWorker :=
  {| upload_root := upload_root s; upload_config := upload_config s; pending_retries := pending_retries s;
     sent := l; nextId := n |}.

Definition with_retries (m : gmap path RetryState) (s : UploadWorker) : UploadWorker :=
  {| upload_root := upload_root s; upload_config := upload_config s; pending_retries := m;
     sent := sent s; nextId := nextId s |}.

(** The constructor bounds the size of a chunk. *)
Definition newUploadWorker (root : path) (config : UploadConfig) : UploadWorker :=
  {| upload_root := root;
     upload_config :=
       if (chunkBytes config =? 0) || (chunkBytes config >? kMaxChunkBytes)
       then {| serviceName := serviceName config; maxRetries := maxRetries config;
               retryBackoff := retryBackoff config; chunkBytes := clamp (chunkBytes config) 1 kMaxChunkBytes;
               leaseTimeout := leaseTimeout config; failedRescanPeriod := failedRescanPeriod config |}
       else config;
     pending_retries := ∅; sent := []; nextId := 0 |}.

(** ** Files of an event directory *)

Definition isMarkerOrTemp (name : string) : bool :=
  ((1 <? String.length name)%nat &&
   match str_front name with Some c => Ascii.eqb c "." | None => false end) ||
  String.eqb (extension name) ".tmp".

Definition collectFile (q : path) (found : list path) : M (list path) :=
  symlink ← query (fun w => Some (is_symlink w q)) None;
  match symlink with
  | Some false =>
      regular ← query (fun w => is_file w q) false;
      mret (if regular && negb (isMarkerOrTemp (filename q)) then found ++ [q] else found)
  | _ => mret found
  end.

Definition collectFiles `{Traversal} (directory : path) : M (list path * bool) :=
  entries ← walk directory;
  found ← for_each entries.1 collectFile [];
  mret (merge_sort path_le found, entries.2).

Definition countUploadableFiles `{Traversal} (directory : path) : M Z :=
  found ← collectFiles directory;
  mret (Z.of_nat (length found.1)).

Definition fileSize (q : path) : M (option Z) :=
  query (fun w => match files w !! q with Some (File c _) => Some (byte_size c) | _ => None end) None.

(** ** Leases and identifiers *)

(** What the lease marker says; a number that does not fit is refused. *)
Definition lease_start (content : string) : option Z :=
  match cut_at "=" content with
  | Some (key, rest) => if String.eqb key "started_at_ns" then fst <$> stoll rest else None
  | None => None
  end.

(** The age is computed in signed 64-bit arithmetic.  A marker that is opened but
    cannot be read yields no key, and is removed like one without a number. *)
Definition leaseActive (config : UploadConfig) (systemNow : Z) (directory : path) : M bool :=
  let marker := child directory ".uploading" in
  opened ← query (fun w => is_file w marker) false;
  if negb opened then mret false else
  input ← read_file marker;
  active ← match input ≫= lease_start with
           | None => mret false
           | Some startedAt =>
               age ← pure (match checked (systemNow - startedAt) with Some a => Ok a | None => Err Undefined end);
               mret ((0 <=? age) && (age <? leaseTimeout config * ns_per_s))
           end;
  if active : bool then mret true
  else _ ← remove marker; mret false.

Definition lease_content (systemNow : Z) : string :=
  "started_at_ns=" +:+ to_string systemNow +:+ newline.

Definition acquireLease (config : UploadConfig) (systemNow : Z) (directory : path) : M bool :=
  active ← leaseActive config systemNow directory;
  if active : bool then mret false
  else writeAtomically (child directory ".uploading") (lease_content systemNow).

(** The identifier of the transaction and the counter; empty when it cannot be
    stored. *)
Definition transferIdFor (systemNow : Z) (directory : path) (next : Z) : M (string * Z) :=
  let marker := child directory ".upload_id" in
  input ← read_file marker;
  match input ≫= (fun content => head (lines content)) with
  | Some (String c id) => mret (String c id, next)
  | _ =>
      let id := to_string systemNow +:+ "-" +:+ to_string next in
      stored ← writeAtomically marker (id +:+ newline);
      mret (if stored : bool then id else EmptyString, u64 (next + 1))
  end.

(** ** A transfer *)

Record FileInfo := { fi_path : path; fi_relative : string; fi_size : Z }.

(** The files with their sizes, and the total; [None] when one of them cannot be
    described or the total does not fit. *)
Fixpoint describeFiles (directory : path) (found : list path) (total : Z) : M (option (list FileInfo * Z)) :=
  match found with
  | [] => mret (Some ([], total))
  | q :: rest =>
      size ← fileSize q;
      match size with
      | None => mret None
      | Some size =>
          if size >? uint64_max - total then mret None
          else
            relative ← query (fun w => strip_prefix directory q) None;
            match relative with
            | None | Some [] => mret None
            | Some relative =>
                described ← describeFiles directory rest (total + size);
                mret ((fun d => ({| fi_path := q; fi_relative := generic_string relative; fi_size := size |} :: d.1,
                                 d.2)) <$> described)
            end
      end
  end.

Definition begin_request (event id : string) (count total : Z) : Request :=
  {| event_name := event; transfer_id := id; opcode := BEGIN; file_path := ""; offset := 0;
     total_bytes := total; file_count := count; data := "" |}.

Definition chunk_request (event id : string) (info : FileInfo) (at_ : Z) (bytes : string) : Request :=
  {| event_name := event; transfer_id := id; opcode := FILE_CHUNK; file_path := fi_relative info; offset := at_;
     total_bytes := fi_size info; file_count := 0; data := bytes |}.

Definition end_request (event id : string) : Request :=
  {| event_name := event; transfer_id := id; opcode := END_; file_path := ""; offset := 0; total_bytes := 0;
     file_count := 0; data := "" |}.

(** [input.read(chunk, n)] and [gcount()]: after a short read the stream has
    failed and yields nothing more. *)
Definition read_chunk (q : path) (good : bool) (from n : nat) : M (string * bool) :=
  if negb good then mret (EmptyString, false) else fun o w =>
  let content := match files w !! q with Some (File c _) => c | _ => EmptyString end in
  let data := String.substring from n content in
  match next o with
  | (NoFault, o') => Done (data, (String.length data =? n)%nat) w o'
  | (IoError k, o') => Done (String.substring from (Nat.min k n) content, false) w o'
  | (Crash _, _) => Crashed w
  end.

Section worker.
Context `{Service} `{Traversal}.

Definition call (request : Request) (l : list Request) : option Response * list Request :=
  if service_is_ready l then (respond l request, l ++ [request]) else (None, l).

(** A request that must succeed. *)
Definition acknowledged (request : Request) (l : list Request) : bool * list Request :=
  let '(response, l) := call request l in
  (match response with Some r => success r | None => false end, l).

(** The loop over the chunks of a file: whether no request failed, how far it
    came, and the requests. *)
Fixpoint sendChunks (fuel : nat) (event id : string) (info : FileInfo) (chunk : nat) (good : bool)
    (at_ : nat) (l : list Request) : M (bool * nat * list Request) :=
  if negb (Z.of_nat at_ <? fi_size info) then mret (true, at_, l)
  else
    match fuel with
    | O => spent
    | S fuel' =>
        got ← read_chunk (fi_path info) good at_ chunk;
        if String.eqb got.1 "" then mret (true, at_, l)
        else
          let '(fine, l) := acknowledged (chunk_request event id info (Z.of_nat at_) got.1) l in
          if negb fine then mret (false, at_, l)
          else sendChunks fuel' event id info chunk got.2 (at_ + String.length got.1) l
    end.

(** One file; the result tells whether it has been sent whole. *)
Definition sendFile (event id : string) (chunk : nat) (info : FileInfo) (l : list Request)
    : M (bool * Z * list Request) :=
  opened ← query (fun w => is_file w (fi_path info)) false;
  if negb opened then mret (false, 0, l) else
  let '(started, l) :=
    if fi_size info =? 0
    then acknowledged (chunk_request event id info 0 "") l
    else (true, l) in
  if negb started then mret (false, 0, l) else
  result ← sendChunks (Z.to_nat (fi_size info)) event id info chunk true 0 l;
  let '(fine, reached, l) := result in
  if negb fine then mret (false, 0, l)
  else if negb (Z.of_nat reached =? fi_size info) then mret (false, 0, l)
  else
    finalSize ← fileSize (fi_path info);
    mret (match finalSize with Some z => z =? fi_size info | None => false end, Z.of_nat reached, l).

Fixpoint sendFiles (event id : string) (chunk : nat) (infos : list FileInfo) (sentBytes : Z)
    (l : list Request) : M (bool * Z * list Request) :=
  match infos with
  | [] => mret (true, sentBytes, l)
  | info :: rest =>
      result ← sendFile event id chunk info l;
      let '(fine, bytes, l) := result in
      if negb fine then mret (false, 0, l)
      else sendFiles event id chunk rest (sentBytes + bytes) l
  end.

(** From the description of the files to END. *)
Definition transferFiles (config : UploadConfig) (directory : path) (id : string) (found : list path)
    (l : list Request) : M (bool * list Request) :=
  let event := filename directory in
  described ← describeFiles directory found 0;
  match described with
  | None => mret (false, l)
  | Some (infos, total) =>
      let '(begun, l) := acknowledged (begin_request event id (Z.of_nat (length found)) total) l in
      if negb begun then mret (false, l) else
      result ← sendFiles event id (Z.to_nat (chunkBytes config)) infos 0 l;
      let '(fine, sentBytes, l) := result in
      if negb fine then mret (false, l) else
      let '(response, l) := call (end_request event id) l in
      mret (match response with
            | Some r => success r && (received_bytes r =? sentBytes)
            | None => false
            end, l)
  end.

Definition transferDirectory (config : UploadConfig) (systemNow : Z) (directory : path) (next : Z)
    (l : list Request) : M (bool * Z * list Request) :=
  collected ← collectFiles directory;
  let '(found, complete) := collected in
  if negb complete then mret (false, next, l) else
  if bool_decide (found = []) then mret (false, next, l) else
  identified ← transferIdFor systemNow directory next;
  let '(id, next) := identified in
  if String.eqb id "" then mret (false, next, l) else
  if Z.of_nat (length found) >? uint32_max then mret (false, next, l) else
  result ← transferFiles config directory id found l;
  mret (result.1, next, result.2).

Definition uploaded_content (config : UploadConfig) (count : Z) : string :=
  "service=" +:+ serviceName config +:+ newline +:+ "files=" +:+ to_string count +:+ newline.

(** The lease is given up on every way out. *)
Definition uploadDirectory (systemNow : Z) (directory : path) (s : UploadWorker) : M (bool * UploadWorker) :=
  acquired ← acquireLease (upload_config s) systemNow directory;
  if negb acquired then mret (false, s) else
  transferred ← transferDirectory (upload_config s) systemNow directory (nextId s) (sent s);
  let '(fine, next, l) := transferred in
  stored ← (if negb fine then mret false
            else
              count ← countUploadableFiles directory;
              writeAtomically (child directory ".uploaded") (uploaded_content (upload_config s) count));
  _ ← remove (child directory ".uploading");
  mret (stored, with_sent l next s).

(** ** Finding work *)

(** The checks on one directory; [exists] without an error code throws. *)
Definition uploadCandidate (config : UploadConfig) (systemNow : Z) (directory : path) : M bool :=
  isDirectory ← is_directory directory;
  if negb isDirectory then mret false else
  leased ← leaseActive config systemNow directory;
  if leased : bool then mret false else
  uploaded ← exists_or_throw (child directory ".uploaded");
  if uploaded : bool then mret false else
  complete ← exists_or_throw (completed directory);
  if negb complete then mret false else
  let failedMarker := child directory ".upload_failed" in
  hasFailed ← exists_or_throw failedMarker;
  if negb hasFailed then mret true else
  if failedRescanPeriod config <=? 0 then mret false else
  age ← query (fun w => match files w !! failedMarker with
                        | Some (File _ modified) => Some (clock w - modified)
                        | _ => None
                        end) None;
  match age with
  | None => mret false
  | Some age => if age <? failedRescanPeriod config * ns_per_ms then mret false else remove failedMarker
  end.

Definition findUploadCandidates `{Listing} (systemNow : Z) (s : UploadWorker) : M (list path) :=
  names ← list_directory (upload_root s);
  for_each names (fun name candidates =>
    let directory := child (upload_root s) name in
    wanted ← uploadCandidate (upload_config s) systemNow directory;
    mret (if wanted : bool then candidates ++ [directory] else candidates)) [].

(** ** Retries *)

(** [retryBackoff * (1LL << min(attempts - 1, 6))], in nanoseconds. *)
Definition backoff_delay (config : UploadConfig) (tries : Z) : Z :=
  retryBackoff config * Z.shiftl 1 (Z.min (tries - 1) 6) * ns_per_ms.

Definition recordFailure (steadyNow : Z) (directory : path) (s : UploadWorker) : M UploadWorker :=
  let state := default {| attempts := 0; nextAttempt := 0 |} (pending_retries s !! directory) in
  let tries := attempts state + 1 in
  let retry := with_retries (<[directory := {| attempts := tries;
      nextAttempt := steadyNow + backoff_delay (upload_config s) tries |}]> (pending_retries s)) s in
  if (maxRetries (upload_config s) >? 0) && (tries >=? maxRetries (upload_config s)) then
    marked ← writeAtomically (child directory ".upload_failed") ("attempts=" +:+ to_string tries +:+ newline);
    mret (if marked : bool then with_retries (delete directory (pending_retries s)) s else retry)
  else mret retry.

(** The body of the loop over the candidates; the flag tells whether the thread
    goes on. *)
Definition attemptUpload (scanNow systemNow steadyNow : Z) (stopsBefore stopsAfter : bool) (directory : path)
    (s : UploadWorker) : M (bool * UploadWorker) :=
  if stopsBefore then mret (false, s) else
  if match pending_retries s !! directory with Some st => scanNow <? nextAttempt st | None => false end
  then mret (true, s)
  else
    result ← uploadDirectory systemNow directory s;
    let '(uploaded, s) := result in
    if uploaded : bool then mret (true, with_retries (delete directory (pending_retries s)) s)
    else if stopsAfter then mret (false, s)
    else s' ← recordFailure steadyNow directory s; mret (true, s').

End worker.
