(* ===== verification/Transfer.v ===== *)
(** * Transfer: what an upload sends

    Shows of the upload worker of Upload.v that an upload it reports as done has
    sent every described file whole, in acknowledged chunks that follow one
    another without gap, and has changed nothing but its own markers. *)

From S2P Require Import Prelude Text SensorData FileSystem EventState RecordIo StorageWorker Upload.

(** ** The requests of a file *)

(** The chunks from an offset on. *)
Fixpoint pieces (n chunk : nat) (c : string) (at_ : nat) : list (nat * string) :=
  match n with
  | O => []
  | S n' =>
      if (at_ <? String.length c)%nat
      then (at_, String.substring at_ chunk c) :: pieces n' chunk c (at_ + chunk)
      else []
  end.

Lemma pieces_past n chunk c at_ : (String.length c <= at_)%nat -> pieces n chunk c at_ = [].
Proof. intros Hl. destruct n; simpl; [done|]. by replace (at_ <? _)%nat with false by lia. Qed.

(** Joined they are the file. *)
Lemma pieces_concat n chunk c at_ :
  (0 < chunk)%nat -> (String.length c - at_ <= n)%nat ->
  foldr (fun p s => p.2 +:+ s) "" (pieces n chunk c at_) = String.substring at_ (String.length c - at_) c.
Proof.
  intros Hc. revert at_. induction n as [|n IH]; intros at_ Hn; simpl.
  { replace (String.length c - at_)%nat with 0%nat by lia. by rewrite substring_nil. }
  destruct (Nat.ltb_spec at_ (String.length c)) as [Hlt|Hge]; simpl.
  2: { replace (String.length c - at_)%nat with 0%nat by lia. by rewrite substring_nil. }
  rewrite IH by lia. destruct (Nat.le_gt_cases chunk (String.length c - at_)) as [Hle|Hgt].
  - rewrite <- substring_split. f_equal. lia.
  - replace (String.length c - (at_ + chunk))%nat with 0%nat by lia. rewrite substring_nil, app_nil_r_str.
    apply substring_more; lia.
Qed.

Definition content (w : world) (q : path) : string := default "" (read_text w q).

Definition file_requests (event id : string) (chunk : nat) (info : FileInfo) (c : string) : list Request :=
  if fi_size info =? 0 then [chunk_request event id info 0 ""]
  else (fun p : nat * string => chunk_request event id info (Z.of_nat p.1) p.2) <$>
         pieces (String.length c) chunk c 0.

(** A description fits the file. *)
Definition described (w : world) (directory : path) (info : FileInfo) : Prop :=
  (exists c m, files w !! fi_path info = Some (File c m) /\ fi_size info = byte_size c) /\
  exists r, r <> [] /\ fi_path info = r ++ directory /\ fi_relative info = generic_string r.

Definition total_size (infos : list FileInfo) : Z := foldr (fun i n => fi_size i + n) 0 infos.

Definition files_requests (event id : string) (chunk : nat) (w : world) (infos : list FileInfo) : list Request :=
  concat ((fun i => file_requests event id chunk i (content w (fi_path i))) <$> infos).

(** The files of a directory that are to be uploaded. *)
Definition uploadable (w : world) (directory q : path) : Prop :=
  below directory q /\ is_file w q = true /\ isMarkerOrTemp (filename q) = false.

(** The markers that an upload writes. *)
Definition own_leaves : list string := [".uploading"; ".upload_id"; ".uploaded"].

Definition markers (leaves : list string) (d : path) : list path :=
  (child d <$> leaves) ++ ((fun leaf => scratch (child d leaf)) <$> leaves).

(** Nothing but the markers of these names has changed. *)
Definition kept (leaves : list string) (d : path) : world -> world -> Prop := touches (markers leaves d) d.

Lemma kept_more leaves d w w' : leaves ⊆ own_leaves -> kept leaves d w w' -> kept own_leaves d w w'.
Proof.
  intros Hsub. apply touches_weaken. unfold markers. intros q.
  rewrite !elem_of_app, !list_elem_of_fmap. set_solver.
Qed.

Lemma kept_other leaves d w w' leaf :
  leaf ∉ leaves -> leaf ∉ ((fun leaf => leaf +:+ ".tmp") <$> leaves) -> kept leaves d w w' ->
  files w' !! child d leaf = files w !! child d leaf.
Proof.
  intros H1 H2 Hk. apply (touches_same _ _ _ _ _ Hk); [|by apply (child_not_suffix (child d leaf))].
  unfold markers. rewrite elem_of_app, !list_elem_of_fmap. rewrite list_elem_of_fmap in H2.
  intros [(x & [= ->] & Hx)|(x & [= ->] & Hx)]; [done|]. apply H2. eauto.
Qed.

Lemma own_markers_temp d q : q ∈ markers own_leaves d -> isMarkerOrTemp (filename q) = true.
Proof.
  unfold markers, own_leaves. simpl. intros Hin.
  repeat (apply elem_of_cons in Hin as [->|Hin]; [done|]). by apply elem_of_nil in Hin.
Qed.

Lemma kept_file d w w' q c m :
  kept own_leaves d w w' -> isMarkerOrTemp (filename q) = false -> files w' !! q = Some (File c m) ->
  files w !! q = Some (File c m).
Proof.
  intros [_ Hk] Hq Hf. destruct (Hk q) as [<-|(_ & Hd & _)]; [|done|congruence].
  intros Hin. by rewrite (own_markers_temp d q Hin) in Hq.
Qed.

(** Something that changes no more than these. *)
Definition keeping {A} (ls : list string) (d : path) (m : M A) (Q : A -> world -> Prop) (w : world) : Prop :=
  wp m (fun a w' => kept ls d w w' /\ Q a w') (fun _ => False) (kept ls d w) w.

Lemma keeping_bind {A B} ls d (m : M A) (k : A -> M B) Q R w :
  keeping ls d m Q w -> (forall a w1, kept ls d w w1 -> Q a w1 -> keeping ls d (k a) R w1) -> keeping ls d (m ≫= k) R w.
Proof.
  intros Hm Hk. apply wp_bind. eapply wp_post; [|exact Hm]. intros a w1 [K1 HQ].
  eapply wp_mono; [| | |by apply Hk].
  - intros b w2 [K2 HR]. split; [by etrans|done].
  - done.
  - intros w2 K2. unfold kept in *. by etrans.
Qed.

Lemma keeping_ret {A} ls d (a : A) (Q : A -> world -> Prop) w : Q a w -> keeping ls d (mret a) Q w.
Proof. intros HQ. by apply wp_ret. Qed.

Lemma keeping_post {A} ls d (m : M A) (Q R : A -> world -> Prop) w :
  (forall a w', kept ls d w w' -> Q a w' -> R a w') -> keeping ls d m Q w -> keeping ls d m R w.
Proof. intros HQR. apply wp_post. intros a w' []. auto. Qed.

Lemma keeping_reads {A} ls d (m : M A) (Q : A -> Prop) w :
  wp m (fun a w' => w' = w /\ Q a) (fun _ => False) (eq w) w -> keeping ls d m (fun a w' => w' = w /\ Q a) w.
Proof. apply wp_reads; [apply touches_refl|]. intros a w' [-> HQ]. split; [apply touches_refl|done]. Qed.

Lemma keeping_query {A} ls d (f : world -> A) bad w :
  keeping ls d (query f bad) (fun a w' => w' = w /\ (a = f w \/ a = bad)) w.
Proof. apply keeping_reads, wp_query; [auto..|done]. Qed.

Lemma own_marker ls d leaf :
  leaf ∈ ls -> child d leaf ∈ markers ls d /\ scratch (child d leaf) ∈ markers ls d.
Proof.
  intros Hl. unfold markers. rewrite !elem_of_app, !list_elem_of_fmap. split; [left|right]; eauto.
Qed.

Lemma keeping_write ls d leaf text w :
  leaf ∈ ls ->
  keeping ls d (writeAtomically (child d leaf) text)
    (fun ok w' => if ok : bool then exists m, files w' !! child d leaf = Some (File text m)
                  else files w' !! child d leaf = files w !! child d leaf \/ files w' !! child d leaf = None) w.
Proof.
  intros Hl. assert (Hsub : forall w', touches [child d leaf; scratch (child d leaf)] d w w' -> kept ls d w w').
  { intros w' Ht. eapply touches_weaken, Ht. destruct (own_marker ls d leaf Hl). set_solver. }
  eapply wp_mono; [..|by apply writeAtomically_wp].
  - intros ok w' [Ht HQ]. split; [by apply Hsub|done].
  - done.
  - intros w' [Ht _]. by apply Hsub.
Qed.

Lemma keeping_remove ls d leaf w :
  leaf ∈ ls ->
  keeping ls d (remove (child d leaf)) (fun _ w' => forall q, q <> child d leaf -> files w' !! q = files w !! q) w.
Proof.
  intros Hl. assert (Hin : child d leaf ∈ markers ls d) by (by apply own_marker).
  apply (remove_wp (markers ls d) d); [done| |].
  - split; [apply touches_refl|]. split; [apply touches_refl|done].
  - intros w' Ht Hq _. done.
Qed.

Section transfer.
Context `{Service} `{Traversal}.

(** Every request was answered, and with success. *)
Fixpoint acked (l reqs : list Request) : Prop :=
  match reqs with
  | [] => True
  | r :: rest =>
      (service_is_ready l = true /\ exists response, respond l r = Some response /\ success response = true) /\
      acked (l ++ [r]) rest
  end.

Lemma acked_app l a b : acked l (a ++ b) <-> acked l a /\ acked (l ++ a) b.
Proof.
  revert l. induction a as [|r a IH]; intros l; simpl; [by rewrite app_nil_r; intuition|].
  rewrite IH, <- (assoc_L (++)). simpl. tauto.
Qed.

Lemma acknowledged_true r l l' : acknowledged r l = (true, l') -> l' = l ++ [r] /\ acked l [r].
Proof.
  unfold acknowledged, call. destruct (service_is_ready l) eqn:Es; [|done].
  destruct (respond l r) as [response|] eqn:Er; [|done].
  intros [= Hs <-]. split; [done|]. split; [|done]. split; [done|]. by exists response.
Qed.

(** ** Sending *)

Lemma read_chunk_wp q good at_ n c m (Q : string * bool -> world -> Prop) (E C : world -> Prop) w :
  files w !! q = Some (File c m) -> (at_ < String.length c)%nat -> (0 < n)%nat ->
  (forall good', Q (String.substring at_ n c, good') w) ->
  (forall got, (String.length got < Nat.min n (String.length c - at_))%nat -> Q (got, false) w) ->
  C w -> wp (read_chunk q good at_ n) Q E C w.
Proof.
  intros Hf Hat Hn Hfull Hshort HC. unfold read_chunk.
  destruct good; cbn [negb]; [|apply wp_ret, Hshort; cbn [String.length]; lia].
  intros o. rewrite Hf. destruct (next o) as [[|k|k] o']; [apply Hfull| |done].
  destruct (Nat.le_gt_cases (Nat.min n (String.length c - at_)) k) as [Hk|Hk].
  - rewrite substring_cut by done. apply Hfull.
  - apply Hshort. rewrite substring_length. lia.
Qed.

(** A stream that has failed sends nothing more. *)
Lemma sendChunks_stopped fuel event id info chunk at_ l w :
  (0 < fuel)%nat \/ fi_size info <= Z.of_nat at_ ->
  wp (sendChunks fuel event id info chunk false at_ l)
    (fun r w' => w' = w /\ r = (true, at_, l)) (fun _ => False) (eq w) w.
Proof.
  intros Hf. destruct fuel; simpl; destruct (Z.ltb_spec (Z.of_nat at_) (fi_size info)); simpl;
    try lia; try by apply wp_ret.
Qed.

Lemma sendChunks_wp fuel event id info chunk good at_ l w c m :
  files w !! fi_path info = Some (File c m) -> fi_size info = byte_size c -> (0 < chunk)%nat ->
  (at_ <= String.length c)%nat -> (String.length c - at_ <= fuel)%nat ->
  wp (sendChunks fuel event id info chunk good at_ l)
    (fun r w' => w' = w /\ (r.1.1 = true -> r.1.2 = String.length c ->
       let reqs := (fun p : nat * string => chunk_request event id info (Z.of_nat p.1) p.2) <$>
                     pieces fuel chunk c at_ in
       r.2 = l ++ reqs /\ acked l reqs))
    (fun _ => False) (eq w) w.
Proof.
  intros Hf Hsz Hc. revert good at_ l. induction fuel as [|fuel IH]; intros good at_ l Hat Hfuel;
    cbn [sendChunks pieces]; rewrite Hsz; unfold byte_size.
  { replace (Z.of_nat at_ <? Z.of_nat (String.length c)) with false by lia.
    apply wp_ret. split; [done|]. simpl. by rewrite app_nil_r. }
  destruct (Nat.ltb_spec at_ (String.length c)) as [Hlt|Hge].
  2: { replace (Z.of_nat at_ <? Z.of_nat (String.length c)) with false by lia.
       apply wp_ret. split; [done|]. simpl. by rewrite app_nil_r. }
  replace (Z.of_nat at_ <? Z.of_nat (String.length c)) with true by lia. cbn [negb].
  apply wp_bind. apply (read_chunk_wp _ _ _ _ c m); try done.
  - intros good'. cbn [fst snd].
    assert (Hlen : String.length (String.substring at_ chunk c) = Nat.min chunk (String.length c - at_))
      by apply substring_length.
    destruct (String.eqb_spec (String.substring at_ chunk c) "") as [E|_]; [rewrite E in Hlen; simpl in Hlen; lia|].
    destruct (acknowledged _ l) as [fine l1] eqn:Ea. destruct fine; cbn [negb]; [|by apply wp_ret].
    apply acknowledged_true in Ea as [-> Hack].
    eapply wp_post; [|apply IH; rewrite Hlen; lia].
    intros r w' [-> Hr]. split; [done|]. intros H1 H2. destruct (Hr H1 H2) as [-> Hacks].
    assert (Hnext : pieces fuel chunk c (at_ + String.length (String.substring at_ chunk c)) =
                    pieces fuel chunk c (at_ + chunk)).
    { rewrite Hlen. destruct (Nat.le_gt_cases chunk (String.length c - at_)); [f_equal; lia|].
      rewrite !pieces_past by lia. done. }
    rewrite Hnext in *. csimpl. rewrite <- (assoc_L (++)). split; [done|].
    destruct Hack as [Hack _]. by split.
  - intros got Hshort. cbn [fst snd]. destruct (String.eqb_spec got "") as [E|Hne].
    { apply wp_ret. split; [done|]. simpl. lia. }
    destruct (acknowledged _ l) as [fine l1] eqn:Ea. destruct fine; cbn [negb]; [|by apply wp_ret].
    assert (0 < String.length got)%nat by (destruct got; [done|simpl; lia]).
    eapply wp_post; [|apply sendChunks_stopped; left; lia].
    intros r w' [-> ->]. split; [done|]. simpl. lia.
Qed.

Lemma sendFile_wp event id chunk info l w directory :
  described w directory info -> (0 < chunk)%nat ->
  wp (sendFile event id chunk info l)
    (fun r w' => w' = w /\ (r.1.1 = true ->
       let reqs := file_requests event id chunk info (content w (fi_path info)) in
       r.1.2 = fi_size info /\ r.2 = l ++ reqs /\ acked l reqs))
    (fun _ => False) (eq w) w.
Proof.
  intros [(c & m & Hf & Hsz) _] Hc. unfold sendFile, file_requests, content, read_text. rewrite Hf. cbn [default].
  apply wp_bind. apply wp_query; [|by apply wp_ret|done].
  destruct (is_file w (fi_path info)); cbn [negb]; [|by apply wp_ret].
  assert (Htail : forall l1, wp (result ← sendChunks (Z.to_nat (fi_size info)) event id info chunk true 0 l1;
      let '(fine, reached, l) := result in
      if negb fine then mret (false, 0, l)
      else if negb (Z.of_nat reached =? fi_size info) then mret (false, 0, l)
      else
        finalSize ← fileSize (fi_path info);
        mret (match finalSize with Some z => z =? fi_size info | None => false end, Z.of_nat reached, l))
    (fun r w' => w' = w /\ (r.1.1 = true ->
       let reqs := (fun p : nat * string => chunk_request event id info (Z.of_nat p.1) p.2) <$>
                     pieces (String.length c) chunk c 0 in
       r.1.2 = fi_size info /\ r.2 = l1 ++ reqs /\ acked l1 reqs)) (fun _ => False) (eq w) w).
  { intros l1. apply wp_bind.
    eapply wp_post; [|apply (sendChunks_wp _ _ _ _ _ _ _ _ _ c m); try done;
      rewrite ?Hsz; unfold byte_size; lia].
    rewrite Hsz. unfold byte_size. rewrite Nat2Z.id.
    intros [[fine reached] l2] w1 [-> Hr]. cbn [fst snd] in *. destruct fine; cbn [negb]; [|by apply wp_ret].
    destruct (Z.eqb_spec (Z.of_nat reached) (Z.of_nat (String.length c))) as [He|He]; cbn [negb]; [|by apply wp_ret].
    destruct Hr as [-> Hack]; [done|lia|]. unfold fileSize.
    apply wp_bind, wp_query; [apply wp_ret..|done]; by split. }
  destruct (Z.eqb_spec (fi_size info) 0) as [Hz|Hz].
  - destruct (acknowledged _ l) as [fine l1] eqn:Ea. destruct fine; cbn [negb]; [|by apply wp_ret].
    apply acknowledged_true in Ea as [-> Hack]. eapply wp_post; [|apply Htail].
    rewrite (pieces_past (String.length c) chunk c 0) by (unfold byte_size in Hsz; lia).
    intros r w1 [-> Hr]. split; [done|]. intros Hfine. destruct (Hr Hfine) as (-> & -> & _).
    cbn [fmap list_fmap]. rewrite app_nil_r. done.
  - cbn [negb]. apply Htail.
Qed.

Lemma sendFiles_wp event id chunk infos sentBytes l w directory :
  Forall (described w directory) infos -> (0 < chunk)%nat ->
  wp (sendFiles event id chunk infos sentBytes l)
    (fun r w' => w' = w /\ (r.1.1 = true ->
       let reqs := files_requests event id chunk w infos in
       r.1.2 = sentBytes + total_size infos /\ r.2 = l ++ reqs /\ acked l reqs))
    (fun _ => False) (eq w) w.
Proof.
  intros Hd Hc. revert sentBytes l. induction Hd as [|info infos Hi Hd IH]; intros sentBytes l; cbn [sendFiles].
  { apply wp_ret. split; [done|]. intros _. simpl. rewrite app_nil_r. split_and!; [lia|done|done]. }
  apply wp_bind. eapply wp_post; [|by apply (sendFile_wp _ _ _ _ _ _ directory)].
  intros [[fine bytes] l1] w1 [-> Hr]. cbn [fst snd] in *. destruct fine; cbn [negb]; [|by apply wp_ret].
  destruct Hr as (-> & -> & Hack); [done|]. eapply wp_post; [|apply IH].
  intros [[fine bytes] l2] w2 [-> Hr]. cbn [fst snd] in *. split; [done|]. intros Hfine.
  destruct (Hr Hfine) as (-> & -> & Hacks). unfold files_requests. csimpl. rewrite acked_app, <- (assoc_L (++)).
  split_and!; [simpl; lia|done|done|done].
Qed.

(** ** What is sent *)

Lemma describeFiles_wp directory found total w :
  0 <= total <= uint64_max ->
  wp (describeFiles directory found total)
    (fun r w' => w' = w /\ match r with
       | Some (infos, total') => fi_path <$> infos = found /\ Forall (described w directory) infos /\
                                 total' = total + total_size infos /\ total' <= uint64_max
       | None => True
       end) (fun _ => False) (eq w) w.
Proof.
  revert total. induction found as [|q found IH]; intros total Ht; cbn [describeFiles].
  { apply wp_ret. simpl. split_and!; [done..|by constructor|lia|lia]. }
  apply wp_bind. unfold fileSize. apply wp_query; [|by apply wp_ret|done].
  destruct (files w !! q) as [[c m| |]|] eqn:Hf; try by apply wp_ret.
  destruct (byte_size c >? uint64_max - total) eqn:Hbig; [by apply wp_ret|].
  apply wp_bind, wp_query; [|by apply wp_ret|done].
  destruct (strip_prefix directory q) as [[|name r]|] eqn:Es; try by apply wp_ret.
  assert (0 <= byte_size c) by (unfold byte_size; lia).
  apply wp_bind. eapply wp_post; [|apply IH; lia].
  intros [[infos total']|] w1 [-> Hr]; apply wp_ret; [|done].
  destruct Hr as (Hp & Hd & -> & Hmax). split; [done|]. csimpl. split_and!; [by rewrite Hp| |lia|lia].
  constructor; [|done]. split; [by exists c, m|]. exists (name :: r). split; [done|].
  split; [by apply strip_prefix_Some|done].
Qed.

Lemma collectFiles_wp d w :
  wp (collectFiles d)
    (fun r w' => w' = w /\ NoDup r.1 /\ Forall (uploadable w d) r.1)
    (fun _ => False) (eq w) w.
Proof.
  unfold collectFiles. apply wp_bind. eapply wp_post; [|apply walk_wp].
  intros [entries ok] w1 (-> & Hnd & Hin). cbn [fst snd] in *.
  apply wp_bind. eapply wp_post; [|apply (wp_for_each _ _ (fun before found w' =>
    w' = w /\ NoDup found /\ Forall (uploadable w d) found /\ found ⊆ before))].
  - intros found w1 (-> & Hf & Hu & _). apply wp_ret. cbn [fst].
    split; [done|]. pose proof (merge_sort_Permutation path_le found) as Hp. by rewrite Hp.
  - intros before q rest found w1 Hl (-> & Hf & Hu & Hsub). unfold collectFile.
    assert (Hkeep : wp (mret found) (fun found' w' => w' = w /\ NoDup found' /\
      Forall (uploadable w d) found' /\ found' ⊆ before ++ [q]) (fun _ => False) (eq w) w)
      by (apply wp_ret; split_and!; [done..|set_solver]).
    apply wp_bind, wp_query; [|done|done]. destruct (is_symlink w q); [done|].
    apply wp_bind, wp_query; [|done|done]. destruct (is_file w q) eqn:Hq; [|done].
    destruct (isMarkerOrTemp (filename q)) eqn:Hm; [done|]. simpl. apply wp_ret.
    assert (Hqb : below d q) by (apply Hin; rewrite Hl; set_solver).
    split_and!; [done| | |set_solver].
    + apply NoDup_app. split_and!; [done| |apply NoDup_singleton].
      intros x Hx ->%list_elem_of_singleton. rewrite Hl in Hnd. apply NoDup_app in Hnd as (_ & Hnd & _).
      apply (Hnd q); [by apply Hsub|by left].
    + apply Forall_app. split; [done|]. by apply Forall_singleton.
  - split_and!; [done|by constructor|by constructor|done].
Qed.

(** ** Whole transfers *)

Definition transfer_requests (event id : string) (chunk : nat) (w : world) (infos : list FileInfo) : list Request :=
  begin_request event id (Z.of_nat (length infos)) (total_size infos) :: files_requests event id chunk w infos.

(** [l'] is [l] with a whole transfer of files of [d] as they are in [w], every
    request of which has been acknowledged and whose size the receiver has
    confirmed. *)
Definition transmitted (chunk : nat) (d : path) (w : world) (l l' : list Request) (infos : list FileInfo) : Prop :=
  NoDup (fi_path <$> infos) /\ Forall (uploadable w d) (fi_path <$> infos) /\ Forall (described w d) infos /\
  infos <> [] /\ total_size infos <= uint64_max /\
  exists id, id <> "" /\
    let reqs := transfer_requests (filename d) id chunk w infos in
    let last := end_request (filename d) id in
    l' = l ++ reqs ++ [last] /\ acked l (reqs ++ [last]) /\
    exists response, respond (l ++ reqs) last = Some response /\ received_bytes response = total_size infos.

Lemma uploadable_back d w w' q : kept own_leaves d w w' -> uploadable w' d q -> uploadable w d q.
Proof.
  intros Hk (Hb & Hf & Hm). split; [done|]. split; [|done]. unfold is_file in *.
  destruct (files w' !! q) as [[c m| |]|] eqn:E; try done. by rewrite (kept_file d w w' q c m).
Qed.

Lemma uploadable_forth d w w' q : kept own_leaves d w w' -> uploadable w d q -> uploadable w' d q.
Proof.
  intros [_ Hk] (Hb & Hf & Hm). split; [done|]. split; [|done]. unfold is_file in *.
  destruct (Hk q) as [->|(Hn & _)]; [|done|by rewrite Hn in Hf]. intros Hin. revert Hm.
  by apply own_markers_temp in Hin as ->.
Qed.

Lemma described_back d w w' info :
  kept own_leaves d w w' -> isMarkerOrTemp (filename (fi_path info)) = false -> described w' d info -> described w d info.
Proof.
  intros Hk Hm [(c & m & Hf & Hs) Hr]. split; [|done]. exists c, m. split; [by eapply kept_file|done].
Qed.

Lemma content_back d w w' info :
  kept own_leaves d w w' -> isMarkerOrTemp (filename (fi_path info)) = false -> described w' d info ->
  content w (fi_path info) = content w' (fi_path info).
Proof.
  intros Hk Hm [(c & m & Hf & _) _]. unfold content, read_text. by rewrite (kept_file d w w' _ c m), Hf.
Qed.

(** What a transfer has sent can be read off the files as they were before. *)
Lemma transmitted_back chunk d w w' l l' infos :
  kept own_leaves d w w' -> transmitted chunk d w' l l' infos -> transmitted chunk d w l l' infos.
Proof.
  intros Hk (Hnd & Hu & Hd & Hne & Ht & id & Hid & Hreqs).
  assert (Hm : Forall (fun i => isMarkerOrTemp (filename (fi_path i)) = false) infos).
  { rewrite Forall_fmap in Hu. eapply Forall_impl; [exact Hu|]. by intros i (_ & _ & ?). }
  assert (He : files_requests (filename d) id chunk w infos = files_requests (filename d) id chunk w' infos).
  { unfold files_requests. f_equal. apply list_fmap_ext. intros i info Hi. f_equal.
    rewrite Forall_lookup in Hd, Hm. eapply content_back; eauto. }
  split; [done|]. split; [|split; [|split; [done|split; [done|]]]].
  - eapply Forall_impl; [exact Hu|]. intros q. by apply uploadable_back.
  - apply Forall_forall. intros info Hi. rewrite Forall_forall in Hd, Hm. eapply described_back; eauto.
  - exists id. split; [done|]. unfold transfer_requests in *. by rewrite He.
Qed.

Lemma transferIdFor_keeping now d next w : keeping [".upload_id"] d (transferIdFor now d next) (fun _ _ => True) w.
Proof.
  unfold transferIdFor. eapply keeping_bind; [apply keeping_query|]. intros input w1 K1 _.
  destruct (input ≫= _) as [[|c id]|]; try by apply keeping_ret.
  all: eapply keeping_bind; [apply (keeping_write _ d ".upload_id"); set_solver|];
    intros; by apply keeping_ret.
Qed.

Lemma transferFiles_keeping ls config d id found l w :
  0 < chunkBytes config -> found <> [] -> id <> "" -> NoDup found -> Forall (uploadable w d) found ->
  keeping ls d (transferFiles config d id found l)
    (fun r w' => r.1 = true -> exists infos,
       fi_path <$> infos = found /\ transmitted (Z.to_nat (chunkBytes config)) d w l r.2 infos) w.
Proof.
  intros Hc Hne Hid Hnd Hu. unfold transferFiles. eapply keeping_bind.
  { apply keeping_reads. eapply wp_post; [|apply describeFiles_wp; unfold uint64_max; lia].
    intros r w1 H1. exact H1. }
  intros [[infos total]|] w1 K1 [-> Hd]; [|by apply keeping_ret]. destruct Hd as (Hp & Hd & -> & Hmax).
  destruct (acknowledged _ l) as [begun l1] eqn:Ea. destruct begun; cbn [negb]; [|by apply keeping_ret].
  apply acknowledged_true in Ea as [-> Hack]. eapply keeping_bind.
  { apply keeping_reads. eapply wp_post; [|apply (sendFiles_wp _ _ _ _ _ _ _ d); [done|lia]].
    intros r w2 H2. exact H2. }
  intros [[fine sentBytes] l2] w2 K2 [-> Hr]. cbn [fst snd] in *. destruct fine; cbn [negb]; [|by apply keeping_ret].
  destruct Hr as (-> & -> & Hacks); [done|]. unfold call.
  destruct (service_is_ready _) eqn:Es; [|by apply keeping_ret].
  set (reqs := transfer_requests (filename d) id (Z.to_nat (chunkBytes config)) w infos).
  assert (Hl : (l ++ [begin_request (filename d) id (Z.of_nat (length found)) (0 + total_size infos)]) ++
    files_requests (filename d) id (Z.to_nat (chunkBytes config)) w infos = l ++ reqs).
  { unfold reqs, transfer_requests. rewrite <- Hp, length_fmap, <- (assoc_L (++)). done. }
  assert (Hreqs : acked l reqs).
  { unfold reqs, transfer_requests. rewrite <- Hp, length_fmap in Hack, Hacks.
    destruct Hack as [Hack _]. by split. }
  rewrite Hl in *. destruct (respond _ _) as [response|] eqn:Er; [|by apply keeping_ret].
  apply keeping_ret. cbn [fst snd]. intros [Hs Hb]%andb_true_iff. exists infos. split; [done|].
  unfold transmitted. rewrite Hp. split_and!; [done..| |lia|].
  { intros ->. by apply Hne. }
  exists id. split; [done|]. fold reqs. rewrite acked_app, <- (assoc_L (++)). split_and!; [done..| |].
  - split; [|done]. split; [done|]. eauto.
  - exists response. split; [done|]. lia.
Qed.

Lemma transferDirectory_keeping config now d next l w :
  0 < chunkBytes config ->
  keeping [".upload_id"] d (transferDirectory config now d next l)
    (fun r w' => r.1.1 = true -> exists infos, transmitted (Z.to_nat (chunkBytes config)) d w l r.2 infos) w.
Proof.
  intros Hc. unfold transferDirectory. eapply keeping_bind.
  { apply keeping_reads. apply collectFiles_wp. }
  intros [found complete] w1 K1 (-> & Hnd & Hu). cbn [fst] in *.
  destruct complete; cbn [negb]; [|by apply keeping_ret].
  case_bool_decide as Hne; [by apply keeping_ret|].
  eapply keeping_bind; [apply transferIdFor_keeping|]. intros [id next'] w1 K2 _.
  destruct (String.eqb_spec id "") as [Hid|Hid]; [by apply keeping_ret|].
  destruct (_ >? _); [by apply keeping_ret|]. apply kept_more in K2; [|unfold own_leaves; set_solver].
  eapply keeping_bind; [apply transferFiles_keeping; [done..|]|].
  2: { intros [fine l'] w2 K3 Hr. apply keeping_ret. intros Hfine. destruct (Hr Hfine) as (infos & _ & Ht).
       exists infos. by eapply transmitted_back. }
  eapply Forall_impl; [exact Hu|]. intros q. by apply uploadable_forth.
Qed.

(** ** Leases *)

(** The age of a lease is a number that fits. *)
Definition lease_fits (now : Z) (d : path) (w : world) : Prop :=
  forall text start, read_text w (child d ".uploading") = Some text -> lease_start text = Some start ->
    int64 (now - start).

Lemma leaseActive_keeping config now d w :
  lease_fits now d w -> keeping [".uploading"] d (leaseActive config now d) (fun _ _ => True) w.
Proof.
  intros Hfits. unfold leaseActive. eapply keeping_bind.
  { apply keeping_query. }
  intros opened w1 K1 [-> _]. destruct (negb opened); [by apply keeping_ret|]. eapply keeping_bind.
  { apply keeping_query. }
  intros input w1 K2 [-> Hin].
  assert (Hrm : keeping [".uploading"] d (_ ← remove (child d ".uploading"); mret false) (fun _ _ => True) w).
  { eapply keeping_bind; [apply keeping_remove; set_solver|]. intros. by apply keeping_ret. }
  destruct input as [text|]; cbn [mbind option_bind]; [|exact Hrm].
  assert (Ht : read_text w (child d ".uploading") = Some text) by (destruct Hin as [->|]; done).
  destruct (lease_start text) as [start|] eqn:Es.
  - rewrite (checked_in _ (Hfits _ _ Ht Es)). cbn [pure].
    eapply (keeping_bind _ d _ _ (fun b w' => w' = w) _ w).
    { apply (keeping_post _ d _ (fun b w' => w' = w /\ True)); [by intros b w' _ []|].
      apply keeping_reads, wp_bind, wp_ret. by apply wp_ret. }
    intros [] w2 _ ->; [by apply keeping_ret|done].
  - exact Hrm.
Qed.

Lemma acquireLease_keeping config now d w :
  lease_fits now d w -> keeping [".uploading"] d (acquireLease config now d) (fun _ _ => True) w.
Proof.
  intros Hfits. unfold acquireLease. eapply keeping_bind; [by apply leaseActive_keeping|].
  intros [] w1 _ _; [by apply keeping_ret|].
  apply (keeping_post _ d _ (fun ok w' => if ok : bool
    then exists m, files w' !! child d ".uploading" = Some (File (lease_content now) m)
    else files w' !! child d ".uploading" = files w1 !! child d ".uploading" \/
         files w' !! child d ".uploading" = None)); [done|]. apply keeping_write. set_solver.
Qed.

Lemma keeping_more {A} ls d (m : M A) (Q : A -> world -> Prop) w :
  ls ⊆ own_leaves -> keeping ls d m Q w -> keeping own_leaves d m (fun a w' => kept ls d w w' /\ Q a w') w.
Proof.
  intros Hls. apply wp_mono; [|done|].
  - intros a w' [Hk HQ]. split; [by eapply kept_more|done].
  - intros w'. by apply kept_more.
Qed.

(** The [.uploaded] marker after an upload with this result. *)
Definition uploaded_after (config : UploadConfig) (d : path) (ok : bool) (w w' : world) : Prop :=
  if ok then exists count m, files w' !! child d ".uploaded" = Some (File (uploaded_content config count) m)
  else files w' !! child d ".uploaded" = files w !! child d ".uploaded" \/
       files w' !! child d ".uploaded" = None.

Lemma uploadDirectory_keeping now d s w :
  0 < chunkBytes (upload_config s) -> lease_fits now d w ->
  keeping own_leaves d (uploadDirectory now d s)
    (fun r w' =>
       r.2 = with_sent (sent r.2) (nextId r.2) s /\ uploaded_after (upload_config s) d r.1 w w' /\
       (r.1 = true ->
          exists infos, transmitted (Z.to_nat (chunkBytes (upload_config s))) d w (sent s) (sent r.2) infos)) w.
Proof.
  intros Hc Hfits. unfold uploadDirectory.
  assert (Hother : forall ls w w', ls ⊆ [".uploading"; ".upload_id"] -> kept ls d w w' ->
    files w' !! child d ".uploaded" = files w !! child d ".uploaded").
  { intros ls w1 w2 Hls. apply kept_other; rewrite ?list_elem_of_fmap; set_solver. }
  eapply keeping_bind.
  { eapply keeping_more; [|by apply acquireLease_keeping]. unfold own_leaves. set_solver. }
  intros acquired w1 _ [K1 _]. apply Hother in K1 as H1; [|set_solver].
  apply kept_more in K1; [|unfold own_leaves; set_solver].
  destruct acquired; cbn [negb].
  2: { apply keeping_ret. split_and!; [by destruct s|by left|done]. }
  eapply keeping_bind.
  { eapply keeping_more; [|by apply transferDirectory_keeping]. unfold own_leaves. set_solver. }
  intros [[fine next] l] w2 _ [K2 Ht]. cbn [fst snd] in *. apply Hother in K2 as H2; [|set_solver].
  eapply (keeping_bind _ d _ _ (fun ok w' => (ok = true -> fine = true) /\
    uploaded_after (upload_config s) d ok w2 w')).
  - destruct fine; cbn [negb]; [|apply keeping_ret; split; [done|by left]].
    unfold countUploadableFiles. eapply keeping_bind.
    { eapply keeping_bind; [apply keeping_reads, collectFiles_wp|].
      intros r w3 _ [-> _]. apply (keeping_ret _ d _ (fun _ w' => w' = w2)). done. }
    intros count w3 _ ->. eapply keeping_post; [|apply (keeping_write _ d ".uploaded"); unfold own_leaves; set_solver].
    intros ok w4 _ Hok. split; [done|]. destruct ok; [by exists count|done].
  - intros ok w3 _ [Hfine Hu]. eapply keeping_bind; [apply keeping_remove; unfold own_leaves; set_solver|].
    intros b w4 _ Hsame. apply keeping_ret. cbn [fst snd].
    assert (E4 : files w4 !! child d ".uploaded" = files w3 !! child d ".uploaded") by (apply Hsame; done).
    split_and!; [by destruct s| |].
    + unfold uploaded_after in *. rewrite E4. destruct ok; [done|]. by rewrite <- H1, <- H2.
    + intros ->. destruct Ht as [infos Ht]; [by apply Hfine|]. exists infos. by eapply transmitted_back.
Qed.

End transfer.
