(* ===== verification/Uploads.v ===== *)
(** * Uploads: the promises of the upload worker

    An upload that is reported as done has been received whole whatever fails on
    the way, and with nothing failing every finished directory is uploaded. *)

From S2P Require Import Prelude Text SensorData FileSystem EventState RecordIo StorageWorker Upload Transfer.

(** ** A service that takes everything *)

(** The bytes of the chunks since the last BEGIN. *)
Fixpoint received_since (acc : Z) (l : list Request) : Z :=
  match l with
  | [] => acc
  | r :: rest =>
      received_since (match opcode r with BEGIN => 0 | FILE_CHUNK => acc + byte_size (data r) | END_ => acc end) rest
  end.

Definition accepting `{Service} : Prop :=
  (forall l, service_is_ready l = true) /\
  forall l r, exists response, respond l r = Some response /\ success response = true /\
    (opcode r = END_ -> received_bytes response = received_since 0 l).

Lemma received_app acc l l' : received_since acc (l ++ l') = received_since (received_since acc l) l'.
Proof. revert acc. induction l as [|r l IH]; intros acc; simpl; [done|]. apply IH. Qed.

Lemma received_pieces event id info acc (ps : list (nat * string)) :
  received_since acc ((fun p : nat * string => chunk_request event id info (Z.of_nat p.1) p.2) <$> ps) =
  acc + byte_size (foldr (fun p s => p.2 +:+ s) "" ps).
Proof.
  revert acc. induction ps as [|p ps IH]; intros acc; csimpl; [unfold byte_size; simpl; lia|].
  rewrite IH. unfold byte_size. rewrite length_app_str. simpl. lia.
Qed.

Lemma received_file event id chunk info acc c :
  (0 < chunk)%nat -> fi_size info = byte_size c ->
  received_since acc (file_requests event id chunk info c) = acc + fi_size info.
Proof.
  intros Hc Hs. unfold file_requests. destruct (Z.eqb_spec (fi_size info) 0) as [Hz|Hz].
  - simpl. unfold byte_size. simpl. lia.
  - rewrite received_pieces, pieces_concat by lia. rewrite Nat.sub_0_r, substring_all, Hs. done.
Qed.

Lemma received_files event id chunk w d infos acc :
  (0 < chunk)%nat -> Forall (described w d) infos ->
  received_since acc (files_requests event id chunk w infos) = acc + total_size infos.
Proof.
  intros Hc Hd. revert acc. induction Hd as [|info infos [(c & m & Hf & Hs) _] Hd IH]; intros acc.
  { simpl. lia. }
  unfold files_requests in *. csimpl. rewrite received_app, received_file; [|done|].
  - rewrite IH. simpl. lia.
  - unfold content, read_text. by rewrite Hf.
Qed.

(** ** Runs without faults *)

Section success.
Context `{Service} `{Traversal}.

Lemma acknowledged_acked r rest l : acked l (r :: rest) -> acknowledged r l = (true, l ++ [r]).
Proof. intros [[Hs (response & Hr & Hok)] _]. unfold acknowledged, call. by rewrite Hs, Hr, Hok. Qed.

Lemma accepting_acked l reqs : accepting -> acked l reqs.
Proof.
  intros [Hready Hrespond]. revert l. induction reqs as [|r reqs IH]; intros l; [done|].
  split; [|apply IH]. split; [done|]. destruct (Hrespond l r) as (response & ? & ? & _). eauto.
Qed.

Lemma sendChunks_returns fuel event id info chunk good at_ l w c m :
  files w !! fi_path info = Some (File c m) -> fi_size info = byte_size c -> (0 < chunk)%nat ->
  (at_ <= String.length c)%nat -> (String.length c - at_ <= fuel)%nat ->
  good = true \/ at_ = String.length c ->
  let reqs := (fun p : nat * string => chunk_request event id info (Z.of_nat p.1) p.2) <$> pieces fuel chunk c at_ in
  acked l reqs ->
  returns (sendChunks fuel event id info chunk good at_ l) w (true, String.length c, l ++ reqs) w.
Proof.
  intros Hf Hsz Hc. cbv zeta. revert good at_ l. induction fuel as [|fuel IH]; intros good at_ l Hat Hfuel Hgood;
    cbn [sendChunks pieces]; rewrite Hsz; unfold byte_size.
  { replace (Z.of_nat at_ <? Z.of_nat (String.length c)) with false by lia. csimpl. rewrite app_nil_r.
    by replace at_ with (String.length c) by lia. }
  destruct (Nat.ltb_spec at_ (String.length c)) as [Hlt|Hge].
  2: { replace (Z.of_nat at_ <? Z.of_nat (String.length c)) with false by lia. csimpl. rewrite app_nil_r.
       by replace at_ with (String.length c) by lia. }
  replace (Z.of_nat at_ <? Z.of_nat (String.length c)) with true by lia. cbn [negb].
  destruct Hgood as [->|]; [|lia]. csimpl. intros Hack.
  assert (Hlen : String.length (String.substring at_ chunk c) = Nat.min chunk (String.length c - at_))
    by apply substring_length.
  set (more := (String.length (String.substring at_ chunk c) =? chunk)%nat).
  assert (Hnext : pieces fuel chunk c (at_ + String.length (String.substring at_ chunk c)) =
                  pieces fuel chunk c (at_ + chunk)).
  { rewrite Hlen. destruct (Nat.le_gt_cases chunk (String.length c - at_)); [f_equal; lia|].
    rewrite !pieces_past by lia. done. }
  eapply returns_bind.
  { unfold returns, read_chunk. cbn [negb next]. rewrite Hf. fold more. reflexivity. }
  cbn [fst snd]. destruct (String.eqb_spec (String.substring at_ chunk c) "") as [E|_];
    [rewrite E in Hlen; simpl in Hlen; lia|]. rewrite (acknowledged_acked _ _ _ Hack). cbn [negb].
  specialize (IH more (at_ + String.length (String.substring at_ chunk c))%nat
    (l ++ [chunk_request event id info (Z.of_nat at_) (String.substring at_ chunk c)])).
  rewrite Hnext, <- (assoc_L (++)) in IH. apply IH; [lia..| |apply Hack].
  unfold more. destruct (Nat.eqb_spec (String.length (String.substring at_ chunk c)) chunk); [by left|right; lia].
Qed.

Lemma sendFile_returns event id chunk info l w directory :
  described w directory info -> (0 < chunk)%nat ->
  let reqs := file_requests event id chunk info (content w (fi_path info)) in
  acked l reqs -> returns (sendFile event id chunk info l) w (true, fi_size info, l ++ reqs) w.
Proof.
  intros [(c & m & Hf & Hsz) _] Hc. unfold content, read_text. rewrite Hf. cbn [default]. cbv zeta.
  assert (Htail : forall l1, let reqs := (fun p : nat * string => chunk_request event id info (Z.of_nat p.1) p.2) <$>
      pieces (String.length c) chunk c 0 in
    acked l1 reqs -> returns (result ← sendChunks (Z.to_nat (fi_size info)) event id info chunk true 0 l1;
      let '(fine, reached, l) := result in
      if negb fine then mret (false, 0, l)
      else if negb (Z.of_nat reached =? fi_size info) then mret (false, 0, l)
      else
        finalSize ← fileSize (fi_path info);
        mret (match finalSize with Some z => z =? fi_size info | None => false end, Z.of_nat reached, l)) w
    (true, fi_size info, l1 ++ reqs) w).
  { intros l1 reqs Hack.
    assert (Efuel : Z.to_nat (fi_size info) = String.length c) by (rewrite Hsz; unfold byte_size; lia). rewrite Efuel.
    eapply returns_bind; [apply (sendChunks_returns _ _ _ _ _ _ _ _ _ c m); try done; [lia..|by left]|].
    rewrite Hsz. unfold byte_size. rewrite Z.eqb_refl. cbn [negb].
    eapply returns_bind; [reflexivity|]. rewrite Hf. unfold byte_size. by rewrite Z.eqb_refl. }
  intros Hack. unfold sendFile. eapply returns_bind; [reflexivity|].
  unfold is_file. rewrite Hf. cbn [negb]. unfold file_requests in *.
  destruct (Z.eqb_spec (fi_size info) 0) as [Hz|Hz].
  - rewrite (acknowledged_acked _ _ _ Hack). cbn [negb].
    assert (Ep : pieces (String.length c) chunk c 0 = []).
    { apply pieces_past. rewrite Hsz in Hz. unfold byte_size in Hz. lia. }
    specialize (Htail (l ++ [chunk_request event id info 0 ""])). rewrite Ep, fmap_nil, app_nil_r in Htail.
    by apply Htail.
  - by apply Htail.
Qed.

Lemma sendFiles_returns event id chunk infos total l w directory :
  Forall (described w directory) infos -> (0 < chunk)%nat ->
  let reqs := files_requests event id chunk w infos in
  acked l reqs -> returns (sendFiles event id chunk infos total l) w (true, total + total_size infos, l ++ reqs) w.
Proof.
  intros Hd Hc. cbv zeta. unfold files_requests. revert total l.
  induction Hd as [|info infos Hi Hd IH]; intros total l; cbn [sendFiles]; csimpl.
  { by rewrite Z.add_0_r, app_nil_r. }
  rewrite acked_app. intros [H1 H2]. eapply returns_bind; [by apply (sendFile_returns _ _ _ _ _ _ directory)|].
  cbn [negb]. rewrite Z.add_assoc, (assoc_L (++)). by apply IH.
Qed.

(** The sizes of files. *)
Definition sizes (w : world) (found : list path) : Z := foldr (fun q n => byte_size (content w q) + n) 0 found.

Lemma sizes_nonneg w found : 0 <= sizes w found.
Proof.
  induction found as [|q found IH]; [done|].
  change (0 <= byte_size (content w q) + sizes w found). unfold byte_size. lia.
Qed.

Lemma describeFiles_returns d found total w :
  Forall (uploadable w d) found -> 0 <= total -> total + sizes w found <= uint64_max ->
  exists infos, returns (describeFiles d found total) w (Some (infos, total + total_size infos)) w.
Proof.
  intros Hu. revert total. induction Hu as [|q found [[Hs Hne] [Hf Hm]] Hu IH]; intros total Ht Hmax;
    cbn [describeFiles].
  { exists []. simpl. by rewrite Z.add_0_r. }
  unfold is_file in Hf. destruct (files w !! q) as [[c m| |]|] eqn:Eq; try done.
  assert (Hc : content w q = c) by (unfold content, read_text; by rewrite Eq).
  cbn [sizes foldr] in Hmax. rewrite Hc in Hmax. fold (sizes w found) in Hmax.
  pose proof (sizes_nonneg w found). assert (0 <= byte_size c) by (unfold byte_size; lia).
  destruct Hs as [r ->]. destruct r as [|name r]; [done|].
  destruct (IH (total + byte_size c)) as [infos Hi]; [lia..|].
  set (info := {| fi_path := (name :: r) ++ d; fi_relative := generic_string (name :: r); fi_size := byte_size c |}).
  exists (info :: infos). change (total_size (info :: infos)) with (byte_size c + total_size infos).
  rewrite Z.add_assoc.
  eapply returns_bind; [reflexivity|]. rewrite Eq.
  replace (byte_size c >? uint64_max - total) with false by lia.
  eapply returns_bind; [reflexivity|]. rewrite strip_prefix_app.
  by eapply returns_bind; [exact Hi|].
Qed.

(** The service acknowledges the transfer of these files, and confirms its size. *)
Definition obliging (chunk : nat) (d : path) (id : string) (w : world) (l : list Request) (found : list path) : Prop :=
  forall infos, fi_path <$> infos ≡ₚ found -> Forall (described w d) infos ->
    let reqs := transfer_requests (filename d) id chunk w infos in
    let last := end_request (filename d) id in
    acked l (reqs ++ [last]) /\
    forall response, respond (l ++ reqs) last = Some response -> received_bytes response = total_size infos.

Lemma accepting_obliging chunk d id w l found : accepting -> (0 < chunk)%nat -> obliging chunk d id w l found.
Proof.
  intros Ha Hc infos _ Hd reqs last. split; [by apply accepting_acked|]. intros response Hr.
  destruct Ha as [_ Ha]. destruct (Ha (l ++ reqs) last) as (response' & Hr' & _ & Hb).
  assert (response' = response) as -> by congruence. rewrite Hb by done. unfold reqs, transfer_requests.
  rewrite received_app. simpl. by rewrite (received_files _ _ _ _ d).
Qed.

Lemma transferFiles_returns config d id found l w :
  0 < chunkBytes config -> Forall (uploadable w d) found -> sizes w found <= uint64_max ->
  obliging (Z.to_nat (chunkBytes config)) d id w l found ->
  exists l', returns (transferFiles config d id found l) w (true, l') w.
Proof.
  intros Hc Hu Hmax Ho. destruct (describeFiles_returns d found 0 w Hu) as [infos Hi]; [lia..|].
  assert (Hd : fi_path <$> infos = found /\ Forall (described w d) infos).
  { pose proof (describeFiles_wp d found 0 w) as Hwp. unfold wp in Hwp.
    specialize (Hwp ltac:(unfold uint64_max; lia) []). rewrite Hi in Hwp. tauto. }
  destruct Hd as [Hp Hd]. set (chunk := Z.to_nat (chunkBytes config)) in *. assert (0 < chunk)%nat by lia.
  destruct (Ho infos) as [Hack Hbytes]; [by rewrite Hp|done|].
  unfold transfer_requests in *. rewrite <- app_comm_cons in Hack.
  pose proof (acknowledged_acked _ _ _ Hack) as Hbegin. destruct Hack as [_ Hack].
  apply acked_app in Hack as [Hfiles Hlast].
  set (begun := begin_request (filename d) id (Z.of_nat (length infos)) (total_size infos)) in *.
  set (reqs := files_requests (filename d) id chunk w infos) in *.
  destruct Hlast as [[Hready (response & Hr & Hs)] _]. rewrite <- (assoc_L (++)) in Hready, Hr.
  exists (l ++ begun :: reqs ++ [end_request (filename d) id]). unfold transferFiles.
  eapply returns_bind; [exact Hi|]. cbv beta iota. rewrite <- Hp, length_fmap, Z.add_0_l. fold begun. rewrite Hbegin. cbn [negb].
  eapply returns_bind; [by apply (sendFiles_returns _ _ _ _ _ _ _ d)|]. cbn [negb]. fold chunk reqs. unfold call.
  rewrite <- (assoc_L (++) l). cbn [app]. cbn [app] in Hready, Hr. rewrite Hready, Hr, Hs, (Hbytes _ Hr), Z.add_0_l, Z.eqb_refl.
  by rewrite <- (assoc_L (++) l).
Qed.

(** ** Collecting *)

Definition to_upload (w : world) (q : path) : bool := is_file w q && negb (isMarkerOrTemp (filename q)).

Definition collected (w : world) (d : path) : list path :=
  merge_sort path_le (List.filter (to_upload w) (traversal (descendants w d))).

Lemma elem_of_collected w d q : q ∈ collected w d <-> uploadable w d q.
Proof.
  unfold collected. rewrite merge_sort_Permutation, list_elem_of_In, filter_In, <- list_elem_of_In, traversal_perm,
    elem_of_descendants. unfold to_upload, uploadable. rewrite andb_true_iff, negb_true_iff.
  split; [tauto|]. intros (Hb & Hf & Hm). split_and!; [done| |done|done].
  unfold is_file in Hf. destruct (files w !! q); eauto. done.
Qed.

Lemma collectFiles_returns w d : is_dir w d = true -> returns (collectFiles d) w (collected w d, true) w.
Proof.
  intros Hd. unfold collectFiles. eapply returns_bind.
  { unfold returns, walk. cbn [next]. rewrite Hd. reflexivity. }
  cbn [fst snd].
  destruct (returns_for_each (traversal (descendants w d)) collectFile (fun before found w' =>
    w' = w /\ found = List.filter (to_upload w) before) [] w) as (found & w1 & Hr & -> & ->).
  - intros before q rest found w1 _ [-> ->]. exists (List.filter (to_upload w) (before ++ [q])), w.
    split; [|done]. unfold collectFile. eapply returns_bind; [reflexivity|].
    rewrite List.filter_app. simpl. destruct (is_symlink w q) eqn:Es.
    { unfold is_symlink in Es. unfold to_upload, is_file. destruct (files w !! q) as [[]|]; try done.
      simpl. by rewrite app_nil_r. }
    eapply returns_bind; [reflexivity|]. fold (to_upload w q).
    destruct (to_upload w q); [done|]. by rewrite app_nil_r.
  - done.
  - eapply returns_bind; [exact Hr|]. done.
Qed.

(** ** Markers *)

(** The markers are regular files where they exist. *)
Definition plain_own (d : path) (w : world) : Prop := Forall (regular w) (markers own_leaves d).

Lemma kept_reachable ls d w w' : reachable w d -> kept ls d w w' -> reachable w' d.
Proof.
  intros Hr [_ Hk] q Hq. specialize (Hr q Hq). destruct q as [|x q]; [done|].
  assert (Hn : x :: q ∉ markers ls d).
  { unfold markers. rewrite elem_of_app, !list_elem_of_fmap.
    intros [(leaf & E & _)|(leaf & E & _)]; injection E as -> ->;
      apply suffix_length in Hq; simpl in Hq; lia. }
  unfold is_dir in *. destruct (Hk _ Hn) as [->|(_ & -> & _)]; done.
Qed.

Lemma write_own d leaf text w :
  leaf ∈ own_leaves -> reachable w d -> plain_own d w ->
  exists w', returns (writeAtomically (child d leaf) text) w true w' /\
    kept own_leaves d w w' /\ plain_own d w' /\ reachable w' d /\
    files w' !! child d leaf = Some (File text (clock w)).
Proof.
  intros Hl Hr Hp. unfold plain_own in *. rewrite Forall_forall in Hp.
  destruct (own_marker own_leaves d leaf Hl) as [H1 H2].
  destruct (writeAtomically_returns w (child d leaf) text) as (w' & Hw & Hc & Hf); [done|done|by apply Hp..|].
  assert (Hk : kept own_leaves d w w').
  { pose proof (keeping_write _ d leaf text w Hl []) as Hk. rewrite Hw in Hk. tauto. }
  exists w'. split_and!; [done|done| |by eapply kept_reachable|by rewrite Hf, decide_True].
  apply Forall_forall. intros q Hq. unfold regular. rewrite Hf. repeat case_decide; eauto. by apply Hp.
Qed.

Lemma remove_own d leaf w :
  leaf ∈ own_leaves -> reachable w d -> plain_own d w ->
  exists w', returns (remove (child d leaf)) w true w' /\
    kept own_leaves d w w' /\ plain_own d w' /\ reachable w' d /\
    forall q, q <> child d leaf -> files w' !! q = files w !! q.
Proof.
  intros Hl Hr Hp. unfold plain_own in *. rewrite Forall_forall in Hp.
  destruct (own_marker own_leaves d leaf Hl) as [H1 _].
  destruct (remove_regular w (child d leaf)) as (w' & Hw & Hc & Hf); [by apply Hp|].
  assert (Hk : kept own_leaves d w w').
  { pose proof (keeping_remove _ d leaf w Hl []) as Hk. rewrite Hw in Hk. tauto. }
  exists w'. split_and!; [done|done| |by eapply kept_reachable|].
  - apply Forall_forall. intros q Hq. unfold regular. rewrite Hf. case_decide; [by left|]. by apply Hp.
  - intros q Hq. by rewrite Hf, decide_False.
Qed.

(** The identifier of a transfer: the stored one, or a new one. *)
Definition id_for (now next : Z) (d : path) (w : world) : string :=
  match read_text w (child d ".upload_id") ≫= (fun content => head (lines content)) with
  | Some (String c id) => String c id
  | _ => to_string now +:+ "-" +:+ to_string next
  end.

Lemma transferIdFor_returns now d next w :
  reachable w d -> plain_own d w ->
  exists next' w', returns (transferIdFor now d next) w (id_for now next d w, next') w' /\
    kept own_leaves d w w' /\ plain_own d w' /\ reachable w' d.
Proof.
  intros Hr Hp. set (fresh := to_string now +:+ "-" +:+ to_string next).
  destruct (write_own d ".upload_id" (fresh +:+ newline) w) as (w' & Hw & Hk & Hp' & Hr' & _);
    [unfold own_leaves; set_solver|done..|].
  assert (Hfresh : returns (stored ← writeAtomically (child d ".upload_id") (fresh +:+ newline);
    mret (if stored : bool then fresh else EmptyString, u64 (next + 1))) w (fresh, u64 (next + 1)) w')
    by (by eapply returns_bind).
  unfold id_for, read_text. fold fresh.
  destruct (match files w !! child d ".upload_id" with Some (File content _) => Some content | _ => None end ≫=
    (fun content => head (lines content))) as [[|ch id]|] eqn:E.
  2: { exists next, w. split_and!; [|apply touches_refl|done|done].
       unfold transferIdFor. eapply returns_bind; [reflexivity|]. by rewrite E. }
  all: exists (u64 (next + 1)), w'; split_and!; [|done..];
    unfold transferIdFor; eapply returns_bind; [reflexivity|]; by rewrite E.
Qed.

Lemma id_for_some now next d w : id_for now next d w <> "".
Proof.
  unfold id_for. destruct (_ ≫= _) as [[|ch id]|]; [|done|]; by destruct (to_string now).
Qed.

(** No other upload holds the directory. *)
Definition lease_over (config : UploadConfig) (now : Z) (d : path) (w : world) : Prop :=
  match read_text w (child d ".uploading") ≫= lease_start with
  | Some start => int64 (now - start) /\ ~ (0 <= now - start < leaseTimeout config * ns_per_s)
  | None => True
  end.

Lemma leaseActive_returns config now d w :
  reachable w d -> plain_own d w -> lease_over config now d w ->
  exists w', returns (leaseActive config now d) w false w' /\
    kept own_leaves d w w' /\ plain_own d w' /\ reachable w' d.
Proof.
  intros Hr Hp Ho. unfold lease_over, read_text in Ho.
  destruct (remove_own d ".uploading" w) as (w' & Hw & Hk & Hp' & Hr' & _); [unfold own_leaves; set_solver|done..|].
  assert (Hrm : returns (_ ← remove (child d ".uploading"); mret false) w false w') by (by eapply returns_bind).
  destruct (files w !! child d ".uploading") as [[text m| |]|] eqn:E.
  2-4: exists w; split_and!; [|apply touches_refl|done|done];
    unfold leaseActive; eapply returns_bind; [reflexivity|]; unfold is_file; by rewrite E.
  exists w'. split_and!; [|done..]. unfold leaseActive. eapply returns_bind; [reflexivity|]. unfold is_file. rewrite E.
  cbn [negb]. eapply returns_bind; [reflexivity|]. rewrite E. cbn [mbind option_bind].
  simpl in Ho. destruct (lease_start text) as [start|]; [|exact Hrm].
  destruct Ho as [Hfit Hover]. rewrite (checked_in _ Hfit). cbn [pure].
  eapply (returns_bind _ _ _ false w); [|exact Hrm].
  eapply returns_bind; [reflexivity|]. unfold returns, mret, M_ret. do 2 f_equal.
  apply andb_false_iff. rewrite Z.leb_gt, Z.ltb_ge. lia.
Qed.

Lemma acquireLease_returns config now d w :
  reachable w d -> plain_own d w -> lease_over config now d w ->
  exists w', returns (acquireLease config now d) w true w' /\
    kept own_leaves d w w' /\ plain_own d w' /\ reachable w' d.
Proof.
  intros Hr Hp Ho. destruct (leaseActive_returns config now d w Hr Hp Ho) as (w1 & H1 & K1 & P1 & R1).
  destruct (write_own d ".uploading" (lease_content now) w1) as (w2 & H2 & K2 & P2 & R2 & _);
    [unfold own_leaves; set_solver|done..|].
  exists w2. split_and!; [|by etrans|done..]. eapply returns_bind; [exact H1|]. exact H2.
Qed.

Lemma lease_over_fits config now d w : lease_over config now d w -> lease_fits now d w.
Proof. unfold lease_over. intros Ho text start Ht Hs. rewrite Ht in Ho. cbn in Ho. rewrite Hs in Ho. by destruct Ho. Qed.

Lemma id_for_kept now next d w w' : kept [".uploading"] d w w' -> id_for now next d w' = id_for now next d w.
Proof.
  intros Hk. unfold id_for, read_text.
  by rewrite (kept_other [".uploading"] d w w' ".upload_id"); [|set_solver|rewrite list_elem_of_fmap; set_solver|].
Qed.

(** ** A whole upload *)

Lemma collected_NoDup w d : NoDup (collected w d).
Proof.
  unfold collected. rewrite merge_sort_Permutation. apply NoDup_ListNoDup, List.NoDup_filter, NoDup_ListNoDup.
  rewrite traversal_perm. apply NoDup_fst_map_to_list.
Qed.

Lemma collected_kept w w' d : kept own_leaves d w w' -> collected w' d ≡ₚ collected w d.
Proof.
  intros Hk. apply NoDup_Permutation; [apply collected_NoDup..|]. intros q. rewrite !elem_of_collected.
  split; [by apply uploadable_back|by apply uploadable_forth].
Qed.

Lemma sizes_kept w w' d found :
  kept own_leaves d w w' -> Forall (uploadable w d) found -> sizes w' found = sizes w found.
Proof.
  intros Hk Hu. induction Hu as [|q found Hq Hu IH]; [done|].
  change (byte_size (content w' q) + sizes w' found = byte_size (content w q) + sizes w found). rewrite IH.
  destruct (uploadable_forth d w w' q Hk Hq) as (_ & Hf & Hm). unfold is_file in Hf.
  destruct (files w' !! q) as [[c m| |]|] eqn:E; try done.
  unfold content, read_text. by rewrite (kept_file d w w' q c m), E.
Qed.

#[global] Instance sizes_perm w : Proper (Permutation ==> eq) (sizes w).
Proof.
  intros l l' Hl. induction Hl; [done| | |congruence].
  - change (byte_size (content w x) + sizes w l = byte_size (content w x) + sizes w l'). by rewrite IHHl.
  - change (byte_size (content w y) + (byte_size (content w x) + sizes w l) =
            byte_size (content w x) + (byte_size (content w y) + sizes w l)). lia.
Qed.

(** What a directory needs for its upload to succeed. *)
Record fit_for_upload (config : UploadConfig) (now : Z) (d : path) (w : world) : Prop := {
  fit_reachable : reachable w d;
  fit_plain : plain_own d w;
  fit_lease : lease_over config now d w;
  fit_some : collected w d <> [];
  fit_count : Z.of_nat (length (collected w d)) <= uint32_max;
  fit_size : sizes w (collected w d) <= uint64_max
}.

Lemma obliging_kept chunk d id w w' l found :
  kept own_leaves d w w' -> Forall (uploadable w d) found -> obliging chunk d id w l found ->
  obliging chunk d id w' l found.
Proof.
  intros Hk Hu Ho infos Hp Hd. cbv zeta.
  assert (Hm : Forall (fun i => isMarkerOrTemp (filename (fi_path i)) = false) infos).
  { apply Forall_forall. intros i Hi. rewrite Forall_forall in Hu. apply Hu. rewrite <- Hp. by apply list_elem_of_fmap_2. }
  rewrite Forall_forall in Hd, Hm. specialize (Ho infos Hp). cbv zeta in Ho. unfold transfer_requests in *.
  assert (He : files_requests (filename d) id chunk w infos = files_requests (filename d) id chunk w' infos).
  { unfold files_requests. f_equal. apply list_fmap_ext. intros i info Hi%list_elem_of_lookup_2. f_equal.
    eapply content_back; eauto. }
  rewrite <- He. apply Ho. apply Forall_forall. intros info Hi. eapply described_back; eauto.
Qed.

Lemma transferDirectory_returns config now d next l w :
  0 < chunkBytes config -> reachable w d -> plain_own d w ->
  collected w d <> [] -> Z.of_nat (length (collected w d)) <= uint32_max ->
  sizes w (collected w d) <= uint64_max ->
  obliging (Z.to_nat (chunkBytes config)) d (id_for now next d w) w l (collected w d) ->
  exists infos l' next' w', returns (transferDirectory config now d next l) w (true, next', l') w' /\
    kept own_leaves d w w' /\ plain_own d w' /\ reachable w' d /\
    fi_path <$> infos = collected w d /\ transmitted (Z.to_nat (chunkBytes config)) d w l l' infos.
Proof.
  intros Hc Hr Hp Hne Hcount Hsize Ho.
  destruct (transferIdFor_returns now d next w Hr Hp) as (next' & w1 & Hid & Hk & Hp1 & Hr1).
  pose proof (id_for_some now next d w) as Hne'. set (id := id_for now next d w) in *.
  assert (Hu : Forall (uploadable w d) (collected w d)) by (apply Forall_forall; intros q; apply elem_of_collected).
  assert (Hu1 : Forall (uploadable w1 d) (collected w d)).
  { eapply Forall_impl; [exact Hu|]. intros q. by apply uploadable_forth. }
  destruct (transferFiles_returns config d id (collected w d) l w1) as [l' Hl'];
    [done..|by rewrite (sizes_kept w w1 d)|by eapply obliging_kept|].
  pose proof (transferFiles_keeping [] config d id (collected w d) l w1 Hc Hne Hne' (collected_NoDup w d) Hu1 []) as Ht.
  rewrite Hl' in Ht. destruct Ht as (_ & infos & Hp' & Ht); [done|].
  exists infos, l', next', w1. split_and!; [|done..|by eapply transmitted_back].
  unfold transferDirectory. eapply returns_bind; [apply collectFiles_returns, Hr; reflexivity|]. cbn [negb].
  rewrite bool_decide_false by done. eapply returns_bind; [exact Hid|].
  cbv beta iota. apply String.eqb_neq in Hne' as ->. replace (_ >? _) with false by lia.
  eapply returns_bind; [exact Hl'|]. done.
Qed.

Lemma uploadDirectory_returns now d s w :
  0 < chunkBytes (upload_config s) -> fit_for_upload (upload_config s) now d w ->
  obliging (Z.to_nat (chunkBytes (upload_config s))) d (id_for now (nextId s) d w) w (sent s) (collected w d) ->
  exists infos s' w', returns (uploadDirectory now d s) w (true, s') w' /\
    kept own_leaves d w w' /\
    (exists m, files w' !! child d ".uploaded" =
       Some (File (uploaded_content (upload_config s) (Z.of_nat (length infos))) m)) /\
    (forall q, q ∈ fi_path <$> infos <-> uploadable w d q) /\
    transmitted (Z.to_nat (chunkBytes (upload_config s))) d w (sent s) (sent s') infos.
Proof.
  intros Hc [Hr Hp Ho Hne Hcount Hsize] Hobl.
  destruct (acquireLease_returns (upload_config s) now d w Hr Hp Ho) as (w1 & H1 & K1 & P1 & R1).
  pose proof (collected_kept w w1 d K1) as Hperm.
  assert (Hid : id_for now (nextId s) d w1 = id_for now (nextId s) d w).
  { apply id_for_kept. pose proof (acquireLease_keeping (upload_config s) now d w (lease_over_fits _ _ _ _ Ho) []) as K.
    rewrite H1 in K. by destruct K. }
  assert (Hu : Forall (uploadable w d) (collected w d)) by (apply Forall_forall; intros q; apply elem_of_collected).
  destruct (transferDirectory_returns (upload_config s) now d (nextId s) (sent s) w1)
    as (infos & l' & next' & w2 & H2 & K2 & P2 & R2 & Hi & Ht); [done..| | | | |].
  { intros E. rewrite E in Hperm. by apply Permutation_nil_l in Hperm. }
  { by rewrite Hperm. }
  { by rewrite Hperm, (sizes_kept w w1 d). }
  { rewrite Hid. apply (obliging_kept _ d _ w); [done| |].
    - apply Forall_forall. intros q Hq. rewrite Hperm in Hq. by apply elem_of_collected.
    - intros infos Hinfos. apply Hobl. by rewrite <- Hperm. }
  assert (Hlen : length (collected w2 d) = length infos).
  { rewrite (collected_kept w1 w2 d K2), <- Hi. apply length_fmap. }
  destruct (write_own d ".uploaded" (uploaded_content (upload_config s) (Z.of_nat (length infos))) w2)
    as (w3 & H3 & K3 & P3 & R3 & F3); [unfold own_leaves; set_solver|done..|].
  destruct (remove_own d ".uploading" w3) as (w4 & H4 & K4 & _ & _ & F4); [unfold own_leaves; set_solver|done..|].
  exists infos, (with_sent l' next' s), w4. split_and!.
  - unfold uploadDirectory. eapply returns_bind; [exact H1|]. cbn [negb].
    eapply returns_bind; [exact H2|]. cbn [negb]. eapply (returns_bind _ _ _ true w3).
    { eapply returns_bind; [|exact H3]. unfold countUploadableFiles.
      eapply returns_bind; [apply collectFiles_returns, R2; reflexivity|]. cbn [fst]. by rewrite Hlen. }
    by eapply returns_bind; [exact H4|].
  - do 2 (etrans; [eassumption|]). by etrans.
  - exists (clock w2). rewrite F4; [exact F3|done].
  - intros q. rewrite Hi, elem_of_collected. split; [by apply uploadable_back|by apply uploadable_forth].
  - by eapply transmitted_back.
Qed.

End success.

(** ** Scans *)

(** Only leases and failure markers have been taken away. *)
Definition scan_leaves : list string := [".uploading"; ".upload_failed"].

Definition cleared (w w' : world) : Prop :=
  forall q, files w' !! q = files w !! q \/ (files w' !! q = None /\ filename q ∈ scan_leaves).

#[global] Instance cleared_preorder : PreOrder cleared.
Proof.
  split; [by intros w q; left|]. intros w1 w2 w3 H12 H23 q.
  destruct (H12 q) as [E|[E Hq]], (H23 q) as [E'|[E' Hq']]; rewrite ?E', ?E; auto.
Qed.

Lemma cleared_same w w' q : cleared w w' -> filename q ∉ scan_leaves -> files w' !! q = files w !! q.
Proof. intros Hc Hq. by destruct (Hc q) as [|[_ ?]]. Qed.

Lemma remove_cleared d leaf (Q : bool -> world -> Prop) (E : world -> Prop) w :
  leaf ∈ scan_leaves ->
  (forall b w', cleared w w' -> Q b w') -> wp (remove (child d leaf)) Q E (cleared w) w.
Proof.
  intros Hl HQ. apply (remove_wp [child d leaf] d); [set_solver|split; [done|by apply HQ]|].
  intros w' _ Hsame Hnone.
  assert (Hc : cleared w w').
  { intros q. destruct (decide (q = child d leaf)) as [->|Hq]; [by right|left; by apply Hsame]. }
  split; [done|by apply HQ].
Qed.

Lemma lease_fits_cleared now d w w' : cleared w w' -> lease_fits now d w -> lease_fits now d w'.
Proof.
  intros Hc Hf text start Ht. apply Hf. revert Ht. unfold read_text.
  by destruct (Hc (child d ".uploading")) as [->|[-> _]].
Qed.

Lemma leaseActive_cleared config now d w :
  lease_fits now d w -> wp (leaseActive config now d) (fun _ w' => cleared w w') (fun _ => False) (cleared w) w.
Proof.
  intros Hfits. unfold leaseActive.
  assert (Hrm : wp (_ ← remove (child d ".uploading"); mret false) (fun _ w' => cleared w w') (fun _ => False) (cleared w) w).
  { apply wp_bind, remove_cleared; [unfold scan_leaves; set_solver|]. intros b w' Hc. by apply wp_ret. }
  apply wp_bind, wp_check; [intros Hfile|by apply wp_ret|done]. cbn [negb].
  apply wp_bind, wp_query; [|by apply wp_bind, wp_ret|done].
  unfold is_file in Hfile. destruct (files w !! child d ".uploading") as [[text m| |]|] eqn:Ef; try done.
  cbn [mbind option_bind]. destruct (lease_start text) as [start|] eqn:Es; [|exact Hrm].
  rewrite (checked_in _ (Hfits text start ltac:(unfold read_text; by rewrite Ef) Es)).
  apply wp_bind, wp_bind, wp_ret, wp_ret. destruct (_ && _); [by apply wp_ret|exact Hrm].
Qed.

(** A directory that is to be uploaded. *)
Definition finished (w : world) (d : path) : Prop :=
  is_dir w d = true /\ present w (completed d) = true /\ present w (child d ".uploaded") = false.

Lemma uploadCandidate_wp config now d w :
  lease_fits now d w -> filename d ∉ scan_leaves ->
  wp (uploadCandidate config now d) (fun wanted w' => cleared w w' /\ (wanted = true -> finished w d))
    (cleared w) (cleared w) w.
Proof.
  intros Hfits Hd. unfold uploadCandidate.
  assert (Hno : forall w', cleared w w' -> wp (mret false) (fun wanted w' => cleared w w' /\ (wanted = true -> finished w d))
    (cleared w) (cleared w) w') by (intros w' Hc; by apply wp_ret).
  apply wp_bind, wp_query; [|by apply Hno|done].
  destruct (is_dir w d) eqn:Hdir; cbn [negb]; [|by apply Hno].
  apply wp_bind. eapply wp_mono; [..|by apply leaseActive_cleared]; [|by intros w' []|done].
  intros [] w1 H1; [by apply Hno|].
  assert (Hsame : forall leaf, leaf ∉ scan_leaves -> present w1 (child d leaf) = present w (child d leaf)).
  { intros leaf Hl. unfold present. simpl. by rewrite (cleared_same w w1 (child d leaf)). }
  unfold exists_or_throw.
  apply wp_bind, wp_bind, wp_query; [|by apply wp_throw|done]. apply wp_ret. rewrite Hsame by (unfold scan_leaves; set_solver).
  destruct (present w (child d ".uploaded")) eqn:Hu; [by apply Hno|].
  apply wp_bind, wp_bind, wp_query; [|by apply wp_throw|done]. apply wp_ret. unfold completed at 1.
  rewrite Hsame by (unfold scan_leaves; set_solver).
  destruct (present w (child d ".complete")) eqn:Hc; cbn [negb]; [|by apply Hno].
  assert (Hfin : finished w d) by done.
  apply wp_bind, wp_bind, wp_query; [|by apply wp_throw|done]. apply wp_ret.
  destruct (present w1 (child d ".upload_failed")); cbn [negb]; [|by apply wp_ret].
  destruct (failedRescanPeriod config <=? 0); [by apply Hno|].
  apply wp_bind, wp_query; [|by apply Hno|done].
  destruct (files w1 !! child d ".upload_failed") as [[text m| |]|]; try by apply Hno.
  destruct (_ <? _); [by apply Hno|].
  eapply wp_mono; [..|apply (remove_cleared _ _ (fun _ w' => cleared w1 w') (fun _ => False));
    [unfold scan_leaves; set_solver|done]]; [|by intros w' []|intros w' Hw'; by etrans].
  intros b w' Hw'. split; [by etrans|done].
Qed.

(** ** The claims *)

Lemma lease_start_content t : 0 <= t -> int64 t -> lease_start (lease_content t) = Some t.
Proof.
  intros Ht Hi. unfold lease_start, lease_content.
  change ("started_at_ns=" +:+ ?text) with ("started_at_ns" +:+ String "=" text).
  rewrite (cut_at_app "=" "started_at_ns") by done. by apply stoll_line.
Qed.

(** C7. Whatever fails during an upload, it changes nothing below the directory
    but its own markers; it reports success only when BEGIN, the whole content
    of every described file in chunks that follow one another, and END have been
    sent and acknowledged and the receiver has confirmed the number of bytes;
    and only then is the directory marked as uploaded. *)
Theorem upload_transcript `{Service} `{Traversal} now d s w o :
  0 < chunkBytes (upload_config s) -> lease_fits now d w ->
  match uploadDirectory now d s o w with
  | Done (ok, s') w' _ =>
      kept own_leaves d w w' /\ s' = with_sent (sent s') (nextId s') s /\
      uploaded_after (upload_config s) d ok w w' /\
      (ok = true -> exists infos,
         transmitted (Z.to_nat (chunkBytes (upload_config s))) d w (sent s) (sent s') infos)
  | Threw _ _ => False
  | Crashed w' => kept own_leaves d w w'
  | Stuck _ => False
  end.
Proof.
  intros Hc Hfits. pose proof (uploadDirectory_keeping now d s w Hc Hfits o) as Hk.
  destruct (uploadDirectory now d s o w) as [[ok s'] w' o'| | |]; [|done..]. tauto.
Qed.

(** When nothing fails, the receiver takes what it is sent and no other
    upload holds the directory, an upload succeeds: it sends exactly the regular
    files of the directory that are neither markers nor temporary, and marks the
    directory with their number. *)
Theorem upload_succeeds `{Service} `{Traversal} now d s w :
  accepting -> 0 < chunkBytes (upload_config s) -> fit_for_upload (upload_config s) now d w ->
  exists infos s' w', returns (uploadDirectory now d s) w (true, s') w' /\
    kept own_leaves d w w' /\
    (exists m, files w' !! child d ".uploaded" =
       Some (File (uploaded_content (upload_config s) (Z.of_nat (length infos))) m)) /\
    (forall q, q ∈ fi_path <$> infos <-> uploadable w d q) /\
    transmitted (Z.to_nat (chunkBytes (upload_config s))) d w (sent s) (sent s') infos.
Proof.
  intros Ha Hc Hfit. apply uploadDirectory_returns; [done..|]. apply accepting_obliging; [done|lia].
Qed.

(** While the lease of an upload is running no other upload of the directory
    takes place: it reports failure, sends nothing and changes nothing. *)
Theorem upload_exclusive `{Service} `{Traversal} now started d s w m :
  0 <= started -> 0 <= now - started < leaseTimeout (upload_config s) * ns_per_s ->
  int64 started -> int64 (now - started) ->
  files w !! child d ".uploading" = Some (File (lease_content started) m) ->
  returns (uploadDirectory now d s) w (false, s) w.
Proof.
  intros Hpos Hage Hs Hn Hf. unfold uploadDirectory. eapply (returns_bind _ _ _ false w); [|reflexivity].
  unfold acquireLease. eapply (returns_bind _ _ _ true w); [|reflexivity].
  unfold leaseActive. eapply returns_bind; [reflexivity|]. unfold is_file. rewrite Hf. cbn [negb].
  eapply returns_bind; [reflexivity|]. rewrite Hf. cbn [mbind option_bind].
  rewrite lease_start_content by done. rewrite (checked_in _ Hn). cbn [pure].
  eapply (returns_bind _ _ _ true w); [|reflexivity].
  eapply returns_bind; [reflexivity|]. unfold returns, mret, M_ret. do 2 f_equal.
  apply andb_true_iff. rewrite Z.leb_le, Z.ltb_lt. lia.
Qed.

(** C28. A scan only yields directories that are finished, that is completed and
    not yet uploaded, and takes away nothing but leases and failure markers,
    whatever fails during it; an [exists] that fails ends the thread. *)
Theorem candidates_finished `{Listing} now s w o :
  (forall name, lease_fits now (child (upload_root s) name) w) ->
  (forall name, name ∈ children w (upload_root s) -> name ∉ scan_leaves) ->
  match findUploadCandidates now s o w with
  | Done candidates w' _ =>
      cleared w w' /\ forall d, d ∈ candidates -> finished w d /\ exists name, d = child (upload_root s) name
  | Threw w' _ | Crashed w' => cleared w w'
  | Stuck _ => False
  end.
Proof.
  intros Hfits Hnames.
  cut (wp (findUploadCandidates now s) (fun candidates w' => cleared w w' /\
    forall d, d ∈ candidates -> finished w d /\ exists name, d = child (upload_root s) name)
    (cleared w) (cleared w) w); [intros Hwp; specialize (Hwp o); by destruct (findUploadCandidates now s o w)|].
  unfold findUploadCandidates. apply wp_bind, list_directory_wp; [|done]. intros names Hin.
  apply (wp_for_each _ _ (fun _ candidates w' => cleared w w' /\
    forall d, d ∈ candidates -> finished w d /\ exists name, d = child (upload_root s) name)); [|by split; [|set_solver]].
  intros before name rest candidates w1 Hl [Hc Hcand].
  assert (Hname : name ∉ scan_leaves) by (apply Hnames, Hin; rewrite Hl; set_solver).
  apply wp_bind. eapply wp_mono; [..|apply uploadCandidate_wp; [by eapply lease_fits_cleared|done]].
  - intros wanted w2 [Hc2 Hfin]. apply wp_ret. split; [by etrans|]. destruct wanted; [|done].
    intros d [Hd| ->%list_elem_of_singleton]%elem_of_app; [by apply Hcand|]. split; [|by exists name].
    destruct (Hfin eq_refl) as (F1 & F2 & F3). unfold finished, present, is_dir, completed, child in *.
    rewrite (cleared_same w w1) in F1, F2, F3; [done|done|unfold scan_leaves; set_solver..].
  - intros w2 Hc2. by etrans.
  - intros w2 Hc2. by etrans.
Qed.

(** After a failed upload the next attempt is put off by the back-off, which
    doubles with every failure up to 64 times; when the attempts are used up the
    directory is marked as failed and its record dropped, and if the marker
    cannot be written it is tried again like any other. *)
Theorem failure_backs_off now d s w o :
  let config := upload_config s in
  let tries := match pending_retries s !! d with Some st => attempts st | None => 0 end + 1 in
  let delay := retryBackoff config * 2 ^ Z.min (tries - 1) 6 * ns_per_ms in
  match recordFailure now d s o w with
  | Done s' w' _ =>
      s' = with_retries (pending_retries s') s /\
      (forall d', d' <> d -> pending_retries s' !! d' = pending_retries s !! d') /\
      (if (0 <? maxRetries config) && (maxRetries config <=? tries)
       then (pending_retries s' !! d = None /\ exists m, files w' !! child d ".upload_failed" =
               Some (File ("attempts=" +:+ to_string tries +:+ newline) m)) \/
            pending_retries s' !! d = Some {| attempts := tries; nextAttempt := now + delay |}
       else w' = w /\
            pending_retries s' !! d = Some {| attempts := tries; nextAttempt := now + delay |})
  | Threw _ _ | Stuck _ => False
  | Crashed w' => touches [child d ".upload_failed"; scratch (child d ".upload_failed")] d w w'
  end.
Proof.
  intros config tries delay. unfold recordFailure. fold config.
  assert (Hdelay : forall n, backoff_delay config n = retryBackoff config * 2 ^ Z.min (n - 1) 6 * ns_per_ms)
    by (intros n; unfold backoff_delay; by rewrite Z.shiftl_1_l).
  rewrite Hdelay.
  replace (attempts (default {| attempts := 0; nextAttempt := 0 |} (pending_retries s !! d)) + 1) with tries
    by (unfold tries; by destruct (pending_retries s !! d)).
  fold delay.
  set (retry := with_retries (<[d := {| attempts := tries; nextAttempt := now + delay |}]>
    (pending_retries s)) s).
  assert (Hretry : forall d', d' <> d -> pending_retries retry !! d' = pending_retries s !! d')
    by (intros d' Hd'; by apply lookup_insert_ne).
  assert (Hretry' : pending_retries retry !! d = Some {| attempts := tries; nextAttempt := now + delay |})
    by apply lookup_insert_eq.
  rewrite Z.gtb_ltb, Z.geb_leb. destruct (_ && _).
  - pose proof (writeAtomically_wp (child d ".upload_failed") ("attempts=" +:+ to_string tries +:+ newline) w
      ltac:(done) o) as Hw. unfold mbind, M_bind.
    destruct (writeAtomically _ _ o w) as [[] w' o'| | |]; [..|tauto|tauto]; try done.
    + destruct Hw as [_ Hw]. split_and!; [done|intros d' Hd'; by apply lookup_delete_ne|].
      left. split; [by apply lookup_delete_eq|done].
    + split_and!; [done|done|by right].
  - by split_and!.
Qed.

(** ** Samples *)

(** A service that takes everything, and an event directory for it. *)
#[local] Instance accept_all : Service :=
  { service_is_ready _ := true; respond l _ := Some {| success := true; received_bytes := received_since 0 l |} }.

Lemma accept_all_accepting : accepting.
Proof. split; [done|]. intros l r. by exists {| success := true; received_bytes := received_since 0 l |}. Qed.

Definition sample_config : UploadConfig :=
  {| serviceName := "/upload_store"; maxRetries := 2; retryBackoff := 1000; chunkBytes := 4; leaseTimeout := 300;
     failedRescanPeriod := 0 |}.

Definition sample_dir : path := ["brake_7"; "records"]%string.

Definition sample_uploads : UploadWorker := newUploadWorker ["records"%string] sample_config.

Definition sample_files : list (path * node) :=
  [(["records"], Dir); (sample_dir, Dir); (child sample_dir ".complete", File "records=1" 1);
   (child sample_dir "manifest.csv", File "index,t" 1); (child sample_dir "images", Dir);
   (child (child sample_dir "images") "0.png", File "PNG-bytes" 1);
   (child (child sample_dir "images") "empty", File "" 1);
   (child sample_dir "left.tmp", File "half" 1)]%string.

Definition sample_store (lease : list (path * node)) : world :=
  {| files := list_to_map (lease ++ sample_files); clock := 9 |}.

Definition sample_upload (faults : list fault) : outcome (bool * UploadWorker) :=
  uploadDirectory 100 sample_dir sample_uploads faults (sample_store []).

Lemma upload_transcript_witness :
  match sample_upload [NoFault; NoFault; NoFault; NoFault; IoError 0] with
  | Done (true, s') _ _ => exists infos, transmitted 4 sample_dir (sample_store []) [] (sent s') infos
  | _ => False
  end.
Proof.
  pose proof (upload_transcript 100 sample_dir sample_uploads (sample_store [])
    [NoFault; NoFault; NoFault; NoFault; IoError 0] ltac:(vm_compute; reflexivity)) as Hw.
  assert (Hok : match sample_upload [NoFault; NoFault; NoFault; NoFault; IoError 0] with
                | Done (true, _) _ _ => true | _ => false end = true) by (vm_compute; reflexivity).
  unfold sample_upload in *.
  destruct (uploadDirectory _ _ _ _ _) as [[[] s'] w' o'| | |]; try discriminate.
  apply Hw; [|reflexivity]. intros text start Ht. vm_compute in Ht. discriminate.
Defined.

Lemma upload_succeeds_witness :
  exists infos s' w', returns (uploadDirectory 100 sample_dir sample_uploads) (sample_store []) (true, s') w' /\
    kept own_leaves sample_dir (sample_store []) w' /\
    (exists m, files w' !! child sample_dir ".uploaded" =
       Some (File (uploaded_content sample_config (Z.of_nat (length infos))) m)) /\
    (forall q, q ∈ fi_path <$> infos <-> uploadable (sample_store []) sample_dir q) /\
    transmitted 4 sample_dir (sample_store []) [] (sent s') infos.
Proof.
  apply (upload_succeeds 100 sample_dir sample_uploads (sample_store [])).
  - exact accept_all_accepting.
  - vm_compute. reflexivity.
  - split.
    + apply reachableb_spec. vm_compute. reflexivity.
    + repeat (apply Forall_cons; split; [left; vm_compute; reflexivity|]). constructor.
    + vm_compute. exact I.
    + vm_compute. discriminate.
    + vm_compute. discriminate.
    + vm_compute. discriminate.
Defined.

Lemma upload_exclusive_witness :
  let w := sample_store [(child sample_dir ".uploading", File (lease_content 50) 1)] in
  returns (uploadDirectory 100 sample_dir sample_uploads) w (false, sample_uploads) w.
Proof.
  apply (upload_exclusive 100 50 _ _ _ 1); [lia| | | |vm_compute; reflexivity]; unfold_int64; vm_compute; split; done.
Defined.

Lemma candidates_finished_witness :
  match findUploadCandidates 100 sample_uploads [] (sample_store []) with
  | Done candidates w' _ => candidates = [sample_dir] /\ forall d, d ∈ candidates -> finished (sample_store []) d
  | _ => False
  end.
Proof.
  pose proof (candidates_finished 100 sample_uploads (sample_store []) []) as Hw.
  assert (Hok : match findUploadCandidates 100 sample_uploads [] (sample_store []) with
                | Done candidates _ _ => bool_decide (candidates = [sample_dir]) | _ => false end = true)
    by (vm_compute; reflexivity).
  destruct (findUploadCandidates _ _ _ _) as [candidates w' o'| | |]; try discriminate.
  apply bool_decide_eq_true in Hok. split; [exact Hok|]. intros d Hd. apply Hw; [| |exact Hd].
  - intros name text start Ht. unfold read_text, sample_store in Ht. cbn [files] in Ht.
    destruct (_ !! child _ ".uploading") as [[]|] eqn:E in Ht; try discriminate.
    apply elem_of_list_to_map_2 in E. unfold sample_files, child, sample_dir in E. cbn [app] in E.
    repeat (apply elem_of_cons in E as [E|E]; [discriminate|]). by apply elem_of_nil in E.
  - intros name Hn%elem_of_children. destruct Hn as [n E]. apply elem_of_list_to_map_2 in E.
    change (upload_root sample_uploads) with ["records"%string] in E.
    unfold sample_files, child, sample_dir in E. cbn [app] in E.
    repeat (apply elem_of_cons in E as [E|E]; [try discriminate; injection E as -> _; apply (bool_decide_unpack _); vm_compute; exact I|]).
    by apply elem_of_nil in E.
Defined.
