(* ===== verification/Intake.v ===== *)
(** * Intake: sensor messages through buffer, synchroniser and pair index

    Models the part of src/src/datacache_node.cpp that wires the sensor
    components together: their creation from the configuration, the two callbacks
    of the synchroniser, the flush before a capture and the effect of a message.
    The node spins on one thread, so a call runs to its end before the next. *)

From S2P Require Import Prelude Text SensorData Synchronizer PairIndex DataBuffer Config.
From S2P Require Import FileSystem StorageWorker DiskSpace Monitor.

(** ** Creation *)

Definition bufferSize (config : ConfigManager) : Z :=
  let configured := getIntConfig "buffer_size" 1000 config in
  if configured >? 0 then configured else 0.

(** [Duration::from_nanoseconds] of milliseconds. *)
Definition createSensors `{RclTime} (config : ConfigManager) : Sensors :=
  {| dataBuffer :=
       newDataBuffer (bufferSize config)
         (from_seconds (Z.max 0 (getIntConfig "buffer_duration_seconds" 30 config)))
         (u64 (Z.max 0 (getIntConfig "buffer_max_mb" 1024 config) * kMegabyte));
     pairIndex := newPairIndex;
     synchronizer :=
       newSynchronizer (Z.to_nat (Z.max 1 (getIntConfig "sync_queue_size" 100 config)))
         (Z.max 0 (getIntConfig "sync_tolerance_ms" 20 config) * ns_per_ms) true |}.

(** ** The callbacks of the synchroniser *)

Definition onCallback (c : Callback) (p : PairIndex) : res PairIndex :=
  match c with
  | OnMatch image cloud difference => addMatched p (image_stamp image) (cloud_stamp cloud) difference
  | OnDrop sensor timestamp _ reason => addSingle p sensor timestamp reason
  end.

Fixpoint onCallbacks (cs : list Callback) (p : PairIndex) : res PairIndex :=
  match cs with [] => Ok p | c :: cs' => p' ← onCallback c p; onCallbacks cs' p' end.

(** A call of the synchroniser with the callbacks it makes. *)
Definition synchronized (result : res (ApproximateSynchronizer * list Callback)) (x : Sensors) : res Sensors :=
  '(s, cbs) ← result;
  p ← onCallbacks cbs (pairIndex x);
  Ok {| dataBuffer := dataBuffer x; pairIndex := p; synchronizer := s |}.

Definition with_buffer (b : DataBuffer) (x : Sensors) : Sensors :=
  {| dataBuffer := b; pairIndex := pairIndex x; synchronizer := synchronizer x |}.

Section intake.
Context `{RclTime}.

(** The lambda handed to the monitor, [synchronizer_->flushUnmatched()]. *)
Definition flushPendingPairs (x : Sensors) : res Sensors :=
  synchronized (flushUnmatched (synchronizer x) "event window closed") x.

Definition takeImage (syncEnabled : bool) (image : Image) (x : Sensors) : res Sensors :=
  b ← addData (dataBuffer x) (mkSensorData CAMERA (VCamera (mkCamera (image_stamp image) (Some image))));
  let x := with_buffer b x in
  if syncEnabled then synchronized (addImage (synchronizer x) image) x else Ok x.

Definition takeCloud (syncEnabled : bool) (cloud : PointCloud2) (x : Sensors) : res Sensors :=
  b ← addData (dataBuffer x) (mkSensorData LIDAR (VLidar (mkLidar (cloud_stamp cloud) (Some cloud))));
  let x := with_buffer b x in
  if syncEnabled then synchronized (addPointCloud (synchronizer x) cloud) x else Ok x.

(** ** Runs *)

Inductive intake_call :=
| TakeImage (image : Image)
| TakeCloud (cloud : PointCloud2)
| FlushPending.

Definition do_intake (syncEnabled : bool) (c : intake_call) (x : Sensors) : res Sensors :=
  match c with
  | TakeImage image => takeImage syncEnabled image x
  | TakeCloud cloud => takeCloud syncEnabled cloud x
  | FlushPending => flushPendingPairs x
  end.

Fixpoint run_intake (syncEnabled : bool) (cs : list intake_call) (x : Sensors) : res Sensors :=
  match cs with [] => Ok x | c :: cs' => x' ← do_intake syncEnabled c x; run_intake syncEnabled cs' x' end.

End intake.

(** ** What the components see *)

Definition add_of (c : Callback) : add_call :=
  match c with
  | OnMatch image cloud d => AddMatched (image_stamp image) (cloud_stamp cloud) d
  | OnDrop sensor t _ reason => AddSingle sensor t reason
  end.

Lemma onCallbacks_adds cbs p : onCallbacks cbs p = run_adds p (add_of <$> cbs).
Proof.
  revert p. induction cbs as [|c cbs IH]; intros p; [done|]. csimpl.
  replace (call_add p (add_of c)) with (onCallback c p) by (by destruct c).
  destruct (onCallback c p) as [p'|]; [|done]. simpl. apply IH.
Qed.

(** The data and the synchroniser call of a message. *)
Definition data_of (c : intake_call) : option SensorData :=
  match c with
  | TakeImage i => Some (mkSensorData CAMERA (VCamera (mkCamera (image_stamp i) (Some i))))
  | TakeCloud c => Some (mkSensorData LIDAR (VLidar (mkLidar (cloud_stamp c) (Some c))))
  | FlushPending => None
  end.

Definition sync_of (syncEnabled : bool) (c : intake_call) : option sync_call :=
  match c with
  | TakeImage i => if syncEnabled then Some (AddImage i) else None
  | TakeCloud c => if syncEnabled then Some (AddPointCloud c) else None
  | FlushPending => Some (FlushUnmatched "event window closed")
  end.

Definition intake_valid (M : Z) (c : intake_call) : Prop :=
  match c with
  | TakeImage i => valid_stamp (image_stamp i) /\ byte_size (image_data i) <= M
  | TakeCloud c => valid_stamp (cloud_stamp c) /\ byte_size (cloud_data c) <= M
  | FlushPending => True
  end.

Lemma run_adds_app p l1 l2 : run_adds p (l1 ++ l2) = (p' ← run_adds p l1; run_adds p' l2).
Proof. revert p. induction l1 as [|c l1 IH]; intros p; simpl; [done|]. destruct (call_add p c); simpl; [apply IH|done]. Qed.

(** A pair index that is not about to run out of identifiers. *)
Definition index_ok (budget : Z) (p : PairIndex) : Prop :=
  1 <= nextId_ p /\ nextId_ p + budget < 2 ^ 64 /\ newest (Z.to_nat maxRecords) (records_ p) = records_ p.

Lemma getIntConfig_range key d config :
  int32_min <= d <= int32_max -> int32_min <= getIntConfig key d config <= int32_max.
Proof.
  intros Hd. unfold getIntConfig. destruct (config_ config !! key) as [value|]; [|done].
  unfold stoi. destruct (stoll value) as [[z n]|]; simpl; [|done]. destruct (_ && _) eqn:E; [|done].
  bool_to_prop. lia.
Qed.

(** A flush never fails, whatever the state. *)
Lemma drop_all_images reason l : exists l',
  while (length (images_ l.1)) (fun l => bool_decide (images_ l.1 <> [])) (dropImage reason) l = Ok l'.
Proof.
  destruct (while_total (fun l => bool_decide (images_ l.1 <> [])) (dropImage reason) (fun _ => True)
    (fun l => length (images_ l.1))) with (fuel := length (images_ l.1)) (s := l) as (l' & E & _); [|done|lia|eauto].
  intros l1 _ Hc%bool_decide_eq_true. destruct (images_ l1.1) as [|image images] eqn:Ei; [done|].
  rewrite (dropImage_ok reason l1 image images) by done. eexists. split; [done|]. split; [done|]. simpl. lia.
Qed.

Lemma drop_all_clouds reason l : exists l',
  while (length (clouds_ l.1)) (fun l => bool_decide (clouds_ l.1 <> [])) (dropCloud reason) l = Ok l'.
Proof.
  destruct (while_total (fun l => bool_decide (clouds_ l.1 <> [])) (dropCloud reason) (fun _ => True)
    (fun l => length (clouds_ l.1))) with (fuel := length (clouds_ l.1)) (s := l) as (l' & E & _); [|done|lia|eauto].
  intros l1 _ Hc%bool_decide_eq_true. destruct (clouds_ l1.1) as [|cloud clouds] eqn:Ei; [done|].
  rewrite (dropCloud_ok reason l1 cloud clouds) by done. eexists. split; [done|]. split; [done|]. simpl. lia.
Qed.

Lemma onCallback_total c p : exists p', onCallback c p = Ok p'.
Proof. destruct c; eexists; unfold onCallback, addMatched, addSingle, push_record; apply trim_newest. Qed.

Lemma onCallbacks_total cbs p : exists p', onCallbacks cbs p = Ok p'.
Proof.
  revert p. induction cbs as [|c cbs IH]; intros p; [by eexists|].
  destruct (onCallback_total c p) as [p1 E1]. destruct (IH p1) as [p2 E2].
  exists p2. simpl. by rewrite E1.
Qed.

Lemma flushPendingPairs_total x : exists x', flushPendingPairs x = Ok x'.
Proof.
  unfold flushPendingPairs, synchronized, flushUnmatched, dispatching, flushLocked.
  set (l0 := (synchronizer x, mkPending [] [])).
  destruct (drop_all_images "event window closed" l0) as [l1 E1].
  change (images_ (synchronizer x)) with (images_ l0.1). rewrite E1. simpl.
  destruct (drop_all_clouds "event window closed" l1) as [l2 E2]. rewrite E2. simpl.
  destruct (onCallbacks_total (dispatch l2.1 l2.2) (pairIndex x)) as [p Ep]. rewrite Ep. simpl. eauto.
Qed.

(** ** Runs *)

Section runs.
Context `{RclTimeSpec}.

(** One call through the three components. *)
Lemma do_intake_effect M en c x :
  buffer_ok M (dataBuffer x) -> sync_ok (synchronizer x) -> intake_valid M c ->
  exists x' cbs, do_intake en c x = Ok x' /\
    add_all (dataBuffer x) (option_list (data_of c)) = Ok (dataBuffer x') /\ buffer_ok M (dataBuffer x') /\
    run_sync (synchronizer x) (option_list (sync_of en c)) = Ok (synchronizer x', cbs) /\
    call_effect (synchronizer x) (option_list (sync_of en c)) (synchronizer x') cbs /\
    run_adds (pairIndex x) (add_of <$> cbs) = Ok (pairIndex x').
Proof.
  intros Hb Hs Hv.
  assert (Hsync : forall sc result y, sync_ok (synchronizer y) -> call_valid sc ->
    call_sync (synchronizer y) sc = result ->
    exists y' cbs, synchronized result y = Ok y' /\ dataBuffer y' = dataBuffer y /\
      run_sync (synchronizer y) [sc] = Ok (synchronizer y', cbs) /\
      call_effect (synchronizer y) [sc] (synchronizer y') cbs /\
      run_adds (pairIndex y) (add_of <$> cbs) = Ok (pairIndex y')).
  { intros sc result y Hy Hsc <-.
    destruct (run_sync_effect [sc] (synchronizer y)) as (s' & cbs & E & F); [done|by constructor|].
    destruct (onCallbacks_total cbs (pairIndex y)) as [p Ep].
    exists {| dataBuffer := dataBuffer y; pairIndex := p; synchronizer := s' |}, cbs.
    assert (Ec : call_sync (synchronizer y) sc = Ok (s', cbs)).
    { simpl in E. destruct (call_sync (synchronizer y) sc) as [[s1 c1]|]; [|done]. simpl in E.
      rewrite app_nil_r in E. by injection E as -> ->. }
    unfold synchronized. rewrite Ec. simpl. rewrite Ep. by rewrite <- onCallbacks_adds. }
  assert (Hdata : forall d, data_ok M d -> exists b, addData (dataBuffer x) d = Ok b /\ buffer_ok M b).
  { intros d Hd. destruct (add_all_ok M (dataBuffer x) [d] Hb) as (b & E & Hb' & _); [by constructor|].
    exists b. split; [|done]. simpl in E. destruct (addData (dataBuffer x) d); [|done]. simpl in E. congruence. }
  destruct c as [i|c|]; simpl in *.
  - destruct (Hdata (mkSensorData CAMERA (VCamera (mkCamera (image_stamp i) (Some i))))) as (b & E & Hb'); [done|].
    unfold takeImage. rewrite E. simpl. destruct en; simpl.
    + destruct (Hsync (AddImage i) (addImage (synchronizer x) i) (with_buffer b x)) as (x' & cbs & H1 & H2 & H3 & H4 & H5);
        [done|by destruct Hv|done|]. rewrite H1. exists x', cbs. rewrite H2. simpl. by split_and!.
    + exists (with_buffer b x), []. split_and!; try done. by apply call_effect_nil.
  - destruct (Hdata (mkSensorData LIDAR (VLidar (mkLidar (cloud_stamp c) (Some c))))) as (b & E & Hb'); [done|].
    unfold takeCloud. rewrite E. simpl. destruct en; simpl.
    + destruct (Hsync (AddPointCloud c) (addPointCloud (synchronizer x) c) (with_buffer b x)) as (x' & cbs & H1 & H2 & H3 & H4 & H5);
        [done|by destruct Hv|done|]. rewrite H1. exists x', cbs. rewrite H2. simpl. by split_and!.
    + exists (with_buffer b x), []. split_and!; try done. by apply call_effect_nil.
  - destruct (Hsync (FlushUnmatched "event window closed") (flushUnmatched (synchronizer x) "event window closed") x)
      as (x' & cbs & H1 & H2 & H3 & H4 & H5); [done..|].
    exists x', cbs. rewrite H2. by split_and!.
Qed.

Lemma add_all_app b l1 l2 : add_all b (l1 ++ l2) = (b' ← add_all b l1; add_all b' l2).
Proof. revert b. induction l1 as [|d l1 IH]; intros b; simpl; [done|]. destruct (addData b d); simpl; [apply IH|done]. Qed.

Lemma run_intake_effect M en cs x :
  buffer_ok M (dataBuffer x) -> sync_ok (synchronizer x) -> Forall (intake_valid M) cs ->
  exists x' cbs, run_intake en cs x = Ok x' /\
    add_all (dataBuffer x) (omap data_of cs) = Ok (dataBuffer x') /\ buffer_ok M (dataBuffer x') /\
    run_sync (synchronizer x) (omap (sync_of en) cs) = Ok (synchronizer x', cbs) /\
    call_effect (synchronizer x) (omap (sync_of en) cs) (synchronizer x') cbs /\
    run_adds (pairIndex x) (add_of <$> cbs) = Ok (pairIndex x').
Proof.
  revert x. induction cs as [|c cs IH]; intros x Hb Hs Hv.
  { exists x, []. split_and!; try done. by apply call_effect_nil. }
  inversion_clear Hv as [|?? Hc Hcs].
  destruct (do_intake_effect M en c x Hb Hs Hc) as (x1 & cb1 & E1 & D1 & B1 & S1 & F1 & A1).
  destruct (IH x1 B1 (ce_ok _ _ _ _ F1) Hcs) as (x2 & cb2 & E2 & D2 & B2 & S2 & F2 & A2).
  assert (Hd : omap data_of (c :: cs) = option_list (data_of c) ++ omap data_of cs) by (simpl; by destruct (data_of c)).
  assert (Hsy : omap (sync_of en) (c :: cs) = option_list (sync_of en c) ++ omap (sync_of en) cs)
    by (simpl; by destruct (sync_of en c)).
  exists x2, (cb1 ++ cb2). rewrite Hd, Hsy, add_all_app, run_sync_app, fmap_app, run_adds_app.
  rewrite D1, S1, A1. simpl. rewrite D2, S2, A2, E1. simpl.
  split_and!; try done. by eapply call_effect_app.
Qed.

End runs.

(** ** Accounts *)

Definition intake_images (cs : list intake_call) : list Image :=
  omap (fun c => match c with TakeImage i => Some i | _ => None end) cs.
Definition intake_clouds (cs : list intake_call) : list PointCloud2 :=
  omap (fun c => match c with TakeCloud c => Some c | _ => None end) cs.

Lemma intake_received cs :
  received_images (omap (sync_of true) cs) = intake_images cs /\
  received_clouds (omap (sync_of true) cs) = intake_clouds cs.
Proof.
  unfold received_images, received_clouds, intake_images, intake_clouds.
  induction cs as [|[i|c|] cs [IH1 IH2]]; csimpl; [done|..]; by rewrite ?IH1, ?IH2.
Qed.

(** The camera sides and the lidar sides of the records of some callbacks. *)
Lemma history_sides id cbs :
  (cameraTimestamp <$> List.filter hasCamera (history id (add_of <$> cbs))) ≡ₚ
    (image_stamp <$> matched_images cbs) ++ dropped_stamps true cbs /\
  (lidarTimestamp <$> List.filter hasLidar (history id (add_of <$> cbs))) ≡ₚ
    (cloud_stamp <$> matched_clouds cbs) ++ dropped_stamps false cbs.
Proof.
  revert id. induction cbs as [|[i c d|sensor t n r] cbs IH]; intros id; [done|..];
    destruct (IH (id + 1)) as [IH1 IH2]; unfold matched_images, matched_clouds, dropped_stamps in *; csimpl.
  - by rewrite IH1, IH2.
  - destruct (bool_decide (sensor = "camera"%string)) eqn:Es; simpl; rewrite ?Es; simpl; rewrite ?IH1, ?IH2;
      split; try done; by rewrite Permutation_middle.
Qed.

Lemma callbacks_length cbs :
  length cbs = (length (matched_images cbs) + length (dropped_stamps true cbs) + length (dropped_stamps false cbs))%nat.
Proof.
  unfold matched_images, dropped_stamps.
  induction cbs as [|[i c d|sensor t n r] cbs IH]; csimpl; [done|lia|].
  destruct (bool_decide _); simpl; lia.
Qed.

Lemma intake_lengths cs : (length (intake_images cs) + length (intake_clouds cs) <= length cs)%nat.
Proof. unfold intake_images, intake_clouds. induction cs as [|[] cs IH]; csimpl; lia. Qed.

Section claims.
Context `{RclTimeSpec}.

Lemma createSensors_ok M config :
  0 <= M <= 2 ^ 32 -> buffer_ok M (dataBuffer (createSensors config)).
Proof.
  intros HM. unfold createSensors. cbn [dataBuffer]. apply new_buffer_ok.
  pose proof (getIntConfig_range "buffer_size" 1000 config ltac:(unfold int32_min, int32_max; lia)) as H1.
  pose proof (getIntConfig_range "buffer_duration_seconds" 30 config ltac:(unfold int32_min, int32_max; lia)) as H2.
  unfold bufferSize. rewrite Z.gtb_ltb.
  constructor; cbn [maxSize_ maxAge_ newDataBuffer]; unfold size_max, uint64_max, int32_min, int32_max, ns_per_s in *.
  - destruct (Z.ltb_spec 0 (getIntConfig "buffer_size" 1000 config)); lia.
  - lia.
  - destruct (Z.ltb_spec 0 (getIntConfig "buffer_size" 1000 config)); nia.
  - rewrite from_seconds_exact by (unfold int32_min, int32_max; lia). unfold ns_per_s. lia.
Qed.

(** C16. The sensor messages the node takes in never make it fail, whatever the
    configuration, and none is lost between the components: the buffer has seen
    every message, and each image and each cloud either still waits in the
    synchroniser or is on exactly one record of the pair index, which holds the
    newest of them, matched records within the configured tolerance. *)
Theorem intake_accounts M config cs :
  0 <= M <= 2 ^ 32 -> Forall (intake_valid M) cs -> Z.of_nat (length cs) < 2 ^ 64 - 1 ->
  exists x all, run_intake true cs (createSensors config) = Ok x /\
    add_all (dataBuffer (createSensors config)) (omap data_of cs) = Ok (dataBuffer x) /\
    records_ (pairIndex x) = newest (Z.to_nat maxRecords) all /\
    (image_stamp <$> intake_images cs) ≡ₚ
      (image_stamp <$> images_ (synchronizer x)) ++ (cameraTimestamp <$> List.filter hasCamera all) /\
    (cloud_stamp <$> intake_clouds cs) ≡ₚ
      (cloud_stamp <$> clouds_ (synchronizer x)) ++ (lidarTimestamp <$> List.filter hasLidar all) /\
    Forall (fun r => status r = "matched"%string ->
      Z.abs (cameraTimestamp r - lidarTimestamp r) <= Z.max 0 (getIntConfig "sync_tolerance_ms" 20 config) * ns_per_ms) all.
Proof.
  intros HM Hv Hlen.
  destruct (run_intake_effect M true cs (createSensors config)) as (x & cbs & E & D & B & S & F & A);
    [by apply createSensors_ok|apply sync_ok_new|done|].
  destruct F as [_ _ _ _ Hclose Hi Hc]. specialize (Hi eq_refl). specialize (Hc eq_refl).
  destruct (intake_received cs) as [Ri Rc]. rewrite Ri in Hi. rewrite Rc in Hc.
  unfold cb_image_account, cb_cloud_account in *. cbn [createSensors synchronizer newSynchronizer images_ clouds_ app] in Hi, Hc.
  assert (Hbound : (length cbs <= length cs)%nat).
  { pose proof (Permutation_length Hi) as Li. pose proof (Permutation_length Hc) as Lc.
    rewrite !length_app, !length_fmap in Li. rewrite !length_app, !length_fmap in Lc.
    pose proof (intake_lengths cs). rewrite callbacks_length. lia. }
  destruct (history_sides 1 cbs) as [Si Sc].
  exists x, (history 1 (add_of <$> cbs)). split; [done|]. split; [done|]. split; [|split; [|split]].
  - rewrite run_adds_history in A; [|done|rewrite length_fmap; simpl; lia|done].
    by injection A as <-.
  - by rewrite Si.
  - by rewrite Sc.
  - clear -Hclose. cbn [createSensors synchronizer newSynchronizer tolerance_] in Hclose. generalize 1.
    induction Hclose as [|c cbs Hc Hcs IH]; intros id; csimpl; constructor; [|apply IH].
    destruct c as [i c d|sensor t n r]; simpl in *.
    + destruct Hc as [-> Hc]. done.
    + by destruct (bool_decide (sensor = "camera"%string)).
Qed.

End claims.

Definition sample_intake : list intake_call :=
  let image t := TakeImage (mkImage t 1 2 "mono8" 2 "px") in
  let cloud t := TakeCloud (mkCloud t 1 1 ["x"; "y"; "z"]%string 12 "points") in
  [image 1000; cloud 1900; image 50000000; FlushPending; cloud 60000000].

Lemma intake_accounts_witness :
  exists x all, run_intake true sample_intake (createSensors newConfigManager) = Ok x /\
    records_ (pairIndex x) = newest (Z.to_nat maxRecords) all /\
    [1000; 50000000] ≡ₚ (image_stamp <$> images_ (synchronizer x)) ++ (cameraTimestamp <$> List.filter hasCamera all) /\
    [1900; 60000000] ≡ₚ (cloud_stamp <$> clouds_ (synchronizer x)) ++ (lidarTimestamp <$> List.filter hasLidar all).
Proof.
  destruct (intake_accounts 100 newConfigManager sample_intake) as (x & all & E & _ & R & I & C & _).
  - lia.
  - repeat constructor; vm_compute; discriminate.
  - vm_compute. reflexivity.
  - exists x, all. split; [exact E|]. split; [exact R|]. split; [exact I|exact C].
Defined.

Example intake_sample :
  (x ← run_intake true sample_intake (createSensors newConfigManager);
   Ok ((fun r => (status r, cameraTimestamp r, lidarTimestamp r)) <$> records_ (pairIndex x),
       cloud_stamp <$> clouds_ (synchronizer x))) =
  Ok ([("matched", 1000, 1900); ("camera_only", 50000000, 0)], [60000000])%string.
Proof. vm_compute. reflexivity. Qed.
