(* ===== verification/Node.v ===== *)
(** * Node: the data cache node

    Models src/src/datacache_node.cpp with src/include/datacache_node.hpp: the
    start-up, the sensor callbacks, the trigger service with its cache of
    answers, and the reports on the life of an accepted event.  A handler reads
    each clock once; the node spins on one thread, so handlers do not overlap.
    What is published is kept as a list. *)

From S2P Require Import Prelude Text SensorData Synchronizer PairIndex DataBuffer TriggerPolicy Watchdog Config.
From S2P Require Import FileSystem EventState RecordIo StorageWorker DiskSpace Monitor Upload Intake.

(** ** Messages: [srv/EventTrigger.srv] and [msg/EventStatus.msg] *)

Record TriggerRequest := { rq_event_name : string; rq_trigger_id : string; rq_source : string }.

Record TriggerResponse := {
  rs_success : bool;
  rs_message : string;
  rs_capture_id : string;
  rs_record_directory : string
}.

Inductive Status :=
| RECEIVED | ACCEPTED | REJECTED | STORED | UPLOADED | RECORD_FAILED | UPLOAD_FAILED | UPLOAD_RETRYING.

#[export] Instance Status_eq_dec : EqDecision Status.
Proof. solve_decision. Defined.

Record EventStatus := {
  st_status : Status;
  st_event_name : string;
  st_trigger_id : string;
  st_source : string;
  st_capture_id : string;
  st_record_directory : string;
  st_message : string;
  st_updated_at : Z
}.

(** [path::string()] of an absolute path. *)
Definition path_string (p : path) : string := String "/" (generic_string p).

(** ** State *)

Record EventLifecycle := {
  lc_eventName : string;
  lc_triggerId : string;
  lc_source : string;
  lc_captureId : string;
  lc_directory : path;
  lc_acceptedAt : Z;                   (* steady clock *)
  lc_storedPublished : bool;
  lc_uploadFailurePublished : bool
}.

Record CachedTriggerResponse := { cached_response : TriggerResponse; expiresAt : Z }.

Record DataCacheNode := {
  eventMonitor : EventMonitor;
  watchdog : option SensorWatchdog;
  syncEnabled : bool;
  uploadEnabled : bool;
  uploadFailureAutoRetry : bool;
  triggerDedupeTtl : Z;                (* milliseconds *)
  eventLifecycles : gmap string EventLifecycle;
  triggerResponses : gmap string CachedTriggerResponse;
  nextDirectTriggerId : Z;
  published : list EventStatus
}.

Definition with_monitor (m : EventMonitor) (n : DataCacheNode) : DataCacheNode :=
  {| eventMonitor := m; watchdog := watchdog n; syncEnabled := syncEnabled n; uploadEnabled := uploadEnabled n;
     uploadFailureAutoRetry := uploadFailureAutoRetry n; triggerDedupeTtl := triggerDedupeTtl n;
     eventLifecycles := eventLifecycles n; triggerResponses := triggerResponses n;
     nextDirectTriggerId := nextDirectTriggerId n; published := published n |}.

Definition with_watchdog (w : option SensorWatchdog) (n : DataCacheNode) : DataCacheNode :=
  {| eventMonitor := eventMonitor n; watchdog := w; syncEnabled := syncEnabled n; uploadEnabled := uploadEnabled n;
     uploadFailureAutoRetry := uploadFailureAutoRetry n; triggerDedupeTtl := triggerDedupeTtl n;
     eventLifecycles := eventLifecycles n; triggerResponses := triggerResponses n;
     nextDirectTriggerId := nextDirectTriggerId n; published := published n |}.

Definition with_lifecycles (m : gmap string EventLifecycle) (n : DataCacheNode) : DataCacheNode :=
  {| eventMonitor := eventMonitor n; watchdog := watchdog n; syncEnabled := syncEnabled n; uploadEnabled := uploadEnabled n;
     uploadFailureAutoRetry := uploadFailureAutoRetry n; triggerDedupeTtl := triggerDedupeTtl n;
     eventLifecycles := m; triggerResponses := triggerResponses n;
     nextDirectTriggerId := nextDirectTriggerId n; published := published n |}.

Definition with_cache (m : gmap string CachedTriggerResponse) (n : DataCacheNode) : DataCacheNode :=
  {| eventMonitor := eventMonitor n; watchdog := watchdog n; syncEnabled := syncEnabled n; uploadEnabled := uploadEnabled n;
     uploadFailureAutoRetry := uploadFailureAutoRetry n; triggerDedupeTtl := triggerDedupeTtl n;
     eventLifecycles := eventLifecycles n; triggerResponses := m;
     nextDirectTriggerId := nextDirectTriggerId n; published := published n |}.

Definition with_direct_id (i : Z) (n : DataCacheNode) : DataCacheNode :=
  {| eventMonitor := eventMonitor n; watchdog := watchdog n; syncEnabled := syncEnabled n; uploadEnabled := uploadEnabled n;
     uploadFailureAutoRetry := uploadFailureAutoRetry n; triggerDedupeTtl := triggerDedupeTtl n;
     eventLifecycles := eventLifecycles n; triggerResponses := triggerResponses n;
     nextDirectTriggerId := i; published := published n |}.

Definition publish (l : list EventStatus) (n : DataCacheNode) : DataCacheNode :=
  {| eventMonitor := eventMonitor n; watchdog := watchdog n; syncEnabled := syncEnabled n; uploadEnabled := uploadEnabled n;
     uploadFailureAutoRetry := uploadFailureAutoRetry n; triggerDedupeTtl := triggerDedupeTtl n;
     eventLifecycles := eventLifecycles n; triggerResponses := triggerResponses n;
     nextDirectTriggerId := nextDirectTriggerId n; published := published n ++ l |}.

(** [publishEventStatus]; the optional directory defaults to the empty path. *)
Definition publishEventStatus (eventName triggerId source : string) (status : Status) (message captureId : string)
    (directory : option path) (wallNow : Z) (n : DataCacheNode) : DataCacheNode :=
  publish [{| st_status := status; st_event_name := eventName; st_trigger_id := triggerId; st_source := source;
              st_capture_id := captureId; st_record_directory := from_option path_string "" directory;
              st_message := message; st_updated_at := wallNow |}] n.

(** ** Start-up *)

Record Settings := { set_syncEnabled : bool; set_syncRequired : bool; set_dedupeTtl : Z }.

Definition loadSettings (config : ConfigManager) : Settings :=
  let syncEnabled := getBoolConfig "sync_enabled" true config in
  let required := getBoolConfig "sync_required_for_recording" false config in
  {| set_syncEnabled := syncEnabled;
     set_syncRequired := if required && negb syncEnabled then false else required;
     set_dedupeTtl := Z.max 1 (getIntConfig "trigger_dedupe_ttl_ms" 60000 config) |}.

Definition watchdogTimeout (sensor : string) (config : ConfigManager) : Z :=
  let fallback := getIntConfig "watchdog_stale_timeout_ms" 1000 config in
  Z.max 1 (getIntConfig ("watchdog_" +:+ sensor +:+ "_stale_timeout_ms") fallback config).

Definition createWatchdog (steadyNow : Z) (config : ConfigManager) : option SensorWatchdog :=
  if negb (getBoolConfig "watchdog_enabled" true config) then None
  else Some (registerSensor "lidar" (watchdogTimeout "lidar" config) steadyNow
              (registerSensor "camera" (watchdogTimeout "camera" config) steadyNow [])).

Definition uploaderConfig (config : ConfigManager) : UploadConfig :=
  {| serviceName := or_default (getConfig "upload_service_name" config) "/upload_store";
     maxRetries := Z.max 0 (getIntConfig "upload_max_retries" 5 config);
     retryBackoff := Z.max 1000 (getIntConfig "upload_retry_backoff_ms" 15000 config);
     chunkBytes := 512 * 1024;
     leaseTimeout := Z.max 30 (getIntConfig "upload_lease_timeout_s" 300 config);
     failedRescanPeriod := Z.max 0 (getIntConfig "upload_failed_rescan_period_ms" 1800000 config) |}.

Definition configuredEvents (config : ConfigManager) : list string :=
  let names := parseEventNames (getConfig "event_names" config) in
  let names := if bool_decide (names = []) then ["collision"; "hard_brake"]%string else names in
  List.filter (fun name => getBoolConfig ("enable_" +:+ name +:+ "_event") false config) names.

Definition registerEvents (config : ConfigManager) (m : EventMonitor) : EventMonitor :=
  fold_left (fun m name => registerEvent name name m) (configuredEvents config) m.

(** The orders in which the hash containers of the node are traversed. *)
Class NodeOrders := {
  config_order : gmap string string -> list (string * string);
  lifecycle_order : list (string * EventLifecycle) -> list (string * EventLifecycle);
  lifecycle_order_perm l : lifecycle_order l ≡ₚ l
}.

Section node.
Context `{RclTime} `{WorkingDirectory} `{Iteration} `{NodeOrders} `{Listing}.

Definition loadConfiguration (configText : option string) : M (ConfigManager * Settings) :=
  let '(loaded, config) := loadConfig config_order configText newConfigManager in
  if negb loaded then throw else mret (config, loadSettings config).

Definition createCoreComponents (config : ConfigManager) (settings : Settings) : EventMonitor :=
  newEventMonitor (createSensors config) config (set_syncRequired settings).

Definition reconcileStorage (systemNow : Z) (config : ConfigManager) : M ReconcileResult :=
  reconcile systemNow (loadRecordRoot config).

(** Whether uploads are enabled, whether failed ones are retried, and the worker. *)
Definition createUploader (config : ConfigManager) : bool * bool * option UploadWorker :=
  let uploads := getBoolConfig "upload_enabled" false config in
  if negb uploads then (false, true, None)
  else
    let upload := uploaderConfig config in
    (true, failedRescanPeriod upload >? 0, Some (newUploadWorker (loadRecordRoot config) upload)).

(** The constructor: the node and the upload worker it starts. *)
Definition newDataCacheNode (configText : option string) (now : Clocks) : M (DataCacheNode * option UploadWorker) :=
  '(config, settings) ← loadConfiguration configText;
  let monitor := createCoreComponents config settings in
  _ ← reconcileStorage (systemNowNs now) config;
  let watchdog := createWatchdog (steady_now now) config in
  let '(uploads, autoRetry, uploader) := createUploader config in
  mret ({| eventMonitor := registerEvents config monitor; watchdog := watchdog;
           syncEnabled := set_syncEnabled settings; uploadEnabled := uploads;
           uploadFailureAutoRetry := autoRetry; triggerDedupeTtl := set_dedupeTtl settings;
           eventLifecycles := ∅; triggerResponses := ∅; nextDirectTriggerId := 0; published := [] |},
        uploader).

(** ** Sensor callbacks *)

Definition with_node_sensors (x : Sensors) (n : DataCacheNode) : DataCacheNode :=
  with_monitor (with_sensors x (eventMonitor n)) n.

Definition handleImage (image : Image) (steadyNow : Z) (n : DataCacheNode) : res DataCacheNode :=
  let n := with_watchdog (noteData "camera" steadyNow <$> watchdog n) n in
  x ← takeImage (syncEnabled n) image (sensors (eventMonitor n));
  Ok (with_node_sensors x n).

Definition handlePointCloud (cloud : PointCloud2) (steadyNow : Z) (n : DataCacheNode) : res DataCacheNode :=
  let n := with_watchdog (noteData "lidar" steadyNow <$> watchdog n) n in
  x ← takeCloud (syncEnabled n) cloud (sensors (eventMonitor n));
  Ok (with_node_sensors x n).

(** ** Triggers *)

(** [triggerResponses_] without what has expired. *)
Definition unexpired (steadyNow : Z) (n : DataCacheNode) : DataCacheNode :=
  with_cache (filter (fun e : string * CachedTriggerResponse => steadyNow < expiresAt e.2) (triggerResponses n)) n.

Definition cacheResponse (triggerId : string) (response : TriggerResponse) (steadyNow : Z) (n : DataCacheNode)
    : DataCacheNode :=
  with_cache (<[triggerId := {| cached_response := response;
                                expiresAt := steadyNow + triggerDedupeTtl n * ns_per_ms |}]> (triggerResponses n)) n.

(** The two early refusals. *)
Definition refuse (eventName triggerId source message : string) (wallNow steadyNow : Z) (n : DataCacheNode)
    : TriggerResponse * DataCacheNode :=
  let response := {| rs_success := false; rs_message := message; rs_capture_id := ""; rs_record_directory := "" |} in
  (response, cacheResponse triggerId response steadyNow
               (publishEventStatus eventName triggerId source REJECTED message "" None wallNow n)).

Definition sensorStatus (steadyNow : Z) (n : DataCacheNode) : string :=
  match watchdog n with Some w => " [" +:+ describeStatus steadyNow w +:+ "]" | None => "" end.

(** The part of the handler from the capture on. *)
Definition captureTrigger (eventName triggerId source : string) (wallNow : Z) (now : Clocks) (n : DataCacheNode)
    : M (TriggerResponse * DataCacheNode) :=
  result ← recordDataAroundEventDetailed flushPendingPairs eventName wallNow now (eventMonitor n);
  let '(capture, m) := result in
  let n := with_monitor m n in
  let accepted := capture_accepted capture in
  let captureId := filename (capture_directory capture) in
  let response :=
    {| rs_success := accepted;
       rs_message := (if accepted then "Event '" +:+ eventName +:+ "' accepted for storage"
                      else "Event '" +:+ eventName +:+ "' rejected: " +:+ capture_message capture) +:+
                     sensorStatus (steady_now now) n;
       rs_capture_id := captureId;
       rs_record_directory := path_string (capture_directory capture) |} in
  let n := publishEventStatus eventName triggerId source (if accepted then ACCEPTED else REJECTED)
             (rs_message response) captureId (Some (capture_directory capture)) wallNow n in
  let n := if accepted then
             with_lifecycles (<[triggerId :=
               {| lc_eventName := eventName; lc_triggerId := triggerId; lc_source := source;
                  lc_captureId := captureId; lc_directory := capture_directory capture;
                  lc_acceptedAt := steady_now now; lc_storedPublished := false;
                  lc_uploadFailurePublished := false |}]> (eventLifecycles n)) n
           else n in
  mret (response, cacheResponse triggerId response (steady_now now) n).

(** [source] and [triggerId]. *)
Definition trigger_source (request : TriggerRequest) : string := or_default (rq_source request) "direct_rpc".

Definition identify (request : TriggerRequest) (wallNow : Z) (n : DataCacheNode) : string * DataCacheNode :=
  if String.eqb (rq_trigger_id request) "" then
    (trigger_source request +:+ "-" +:+ to_string wallNow +:+ "-" +:+ to_string (nextDirectTriggerId n),
     with_direct_id (u64 (nextDirectTriggerId n + 1)) n)
  else (rq_trigger_id request, n).

Definition handleTrigger (request : TriggerRequest) (wallNow : Z) (now : Clocks) (n : DataCacheNode)
    : M (TriggerResponse * DataCacheNode) :=
  let eventName := rq_event_name request in
  let source := trigger_source request in
  let '(triggerId, n) := identify request wallNow n in
  let n := unexpired (steady_now now) n in
  match triggerResponses n !! triggerId with
  | Some cached => mret (cached_response cached, n)
  | None =>
      if String.eqb eventName "" then
        mret (refuse eventName triggerId source "Event name must not be empty" wallNow (steady_now now) n)
      else if negb (hasEvent eventName (eventMonitor n)) then
        mret (refuse eventName triggerId source ("Event '" +:+ eventName +:+ "' is not registered")
                wallNow (steady_now now) n)
      else captureTrigger eventName triggerId source wallNow now n
  end.

(** ** The life of an accepted event *)

(** What a poll finds in the directory of an event. *)
Record Observation := { obs_stored : bool; obs_recordFailed : bool; obs_uploaded : bool; obs_uploadFailed : bool }.

Definition observe (directory : path) : M Observation :=
  stored ← fs_exists (completed directory);
  recordFailed ← fs_exists (failed directory);
  uploaded ← fs_exists (child directory ".uploaded");
  uploadFailed ← fs_exists (child directory ".upload_failed");
  mret {| obs_stored := stored; obs_recordFailed := recordFailed; obs_uploaded := uploaded;
          obs_uploadFailed := uploadFailed |}.

Definition status_of (lc : EventLifecycle) (status : Status) (message : string) (wallNow : Z) : EventStatus :=
  {| st_status := status; st_event_name := lc_eventName lc; st_trigger_id := lc_triggerId lc;
     st_source := lc_source lc; st_capture_id := lc_captureId lc;
     st_record_directory := path_string (lc_directory lc); st_message := message; st_updated_at := wallNow |}.

Definition with_published (stored uploadFailure : bool) (lc : EventLifecycle) : EventLifecycle :=
  {| lc_eventName := lc_eventName lc; lc_triggerId := lc_triggerId lc; lc_source := lc_source lc;
     lc_captureId := lc_captureId lc; lc_directory := lc_directory lc; lc_acceptedAt := lc_acceptedAt lc;
     lc_storedPublished := stored; lc_uploadFailurePublished := uploadFailure |}.

Definition kRecordTimeout : Z := 5 * 60 * ns_per_s.

(** The body of the loop of the poll: the entry afterwards, or nothing when it
    has been erased, and what has been published. *)
Definition advance (steadyNow wallNow : Z) (uploads autoRetry : bool) (o : Observation) (lc : EventLifecycle)
    : option EventLifecycle * list EventStatus :=
  let say status message := status_of lc status message wallNow in
  let first := if obs_stored o && negb (lc_storedPublished lc) then [say STORED "recording complete"%string] else [] in
  let storedPublished := obs_stored o || lc_storedPublished lc in
  if obs_recordFailed o then
    (None, first ++ [say RECORD_FAILED "recording failed during persistence"%string])
  else if obs_uploaded o then (None, first ++ [say UPLOADED "RPC upload complete"%string])
  else
    let reports := obs_uploadFailed o && negb (lc_uploadFailurePublished lc) in
    let second := if reports then
                    [say (if autoRetry then UPLOAD_RETRYING else UPLOAD_FAILED)
                       (if autoRetry then "RPC upload delayed; automatic retry scheduled"
                        else "RPC upload retries exhausted")%string] else [] in
    if reports && negb autoRetry then (None, first ++ second)
    else if negb uploads && storedPublished then (None, first ++ second)
    else if negb (obs_stored o) && (steadyNow - lc_acceptedAt lc >? kRecordTimeout) then
      (None, first ++ second ++ [say RECORD_FAILED "recording did not complete before timeout"%string])
    else (Some (with_published storedPublished (obs_uploadFailed o) lc), first ++ second).

Definition pollLifecycle (steadyNow wallNow : Z) (entry : string * EventLifecycle) (n : DataCacheNode)
    : M DataCacheNode :=
  o ← observe (lc_directory entry.2);
  let '(kept, said) := advance steadyNow wallNow (uploadEnabled n) (uploadFailureAutoRetry n) o entry.2 in
  mret (publish said (with_lifecycles
    (match kept with
     | Some lc => <[entry.1 := lc]> (eventLifecycles n)
     | None => delete entry.1 (eventLifecycles n)
     end) n)).

Definition pollEventLifecycles (steadyNow wallNow : Z) (n : DataCacheNode) : M DataCacheNode :=
  for_each (lifecycle_order (map_to_list (eventLifecycles n))) (pollLifecycle steadyNow wallNow) n.

End node.
