(* ===== verification/Lifecycles.v ===== *)
(** * Lifecycles: the reports on accepted events

    The polls of Node.v as a state machine for each accepted event, whatever the
    file system shows at each poll and whichever looks at it fail. *)

From S2P Require Import Prelude Text SensorData TriggerPolicy Watchdog Config.
From S2P Require Import FileSystem EventState RecordIo StorageWorker DiskSpace Monitor Upload Intake Node.

(** ** One event *)

(** A verdict ends the reports on an event. *)
Definition verdict (s : Status) : bool :=
  match s with RECORD_FAILED | UPLOADED | UPLOAD_FAILED => true | _ => false end.

Definition about (lc : EventLifecycle) (st : EventStatus) : Prop :=
  st_event_name st = lc_eventName lc /\ st_trigger_id st = lc_triggerId lc /\ st_source st = lc_source lc /\
  st_capture_id st = lc_captureId lc /\ st_record_directory st = path_string (lc_directory lc).

Definition same_event (lc lc' : EventLifecycle) : Prop :=
  lc_eventName lc' = lc_eventName lc /\ lc_triggerId lc' = lc_triggerId lc /\ lc_source lc' = lc_source lc /\
  lc_captureId lc' = lc_captureId lc /\ lc_directory lc' = lc_directory lc.

Definition stored_reports (said : list EventStatus) : nat :=
  length (List.filter (fun st => bool_decide (st_status st = STORED)) said).

(** What has been said about an event that is still followed. *)
Record running (autoRetry : bool) (lc0 lc : EventLifecycle) (said : list EventStatus) : Prop := {
  rn_same : same_event lc0 lc;
  rn_about : Forall (about lc0) said;
  rn_stored : stored_reports said = if lc_storedPublished lc then 1%nat else 0%nat;
  rn_open : Forall (fun st => verdict (st_status st) = false) said;
  rn_retry : Forall (fun st => st_status st = UPLOAD_RETRYING -> autoRetry = true) said
}.

(** What has been said about an event that is no longer followed. *)
Record finished_reports (uploads autoRetry : bool) (lc0 : EventLifecycle) (said : list EventStatus) : Prop := {
  fn_about : Forall (about lc0) said;
  fn_stored : (stored_reports said <= 1)%nat;
  fn_last : exists before rest, said = before ++ rest /\
    Forall (fun st => verdict (st_status st) = false) before /\
    match rest with
    | [] => uploads = false /\ stored_reports said = 1%nat
    | [st] => verdict (st_status st) = true /\ (st_status st = UPLOAD_FAILED -> autoRetry = false)
    | _ => False
    end;
  fn_retry : Forall (fun st => st_status st = UPLOAD_RETRYING -> autoRetry = true) said
}.

Lemma stored_reports_app a b : stored_reports (a ++ b) = (stored_reports a + stored_reports b)%nat.
Proof. unfold stored_reports. by rewrite List.filter_app, length_app. Qed.

Lemma advance_step steady wall uploads autoRetry o lc0 lc said :
  running autoRetry lc0 lc said ->
  let r := advance steady wall uploads autoRetry o lc in
  match r.1 with
  | Some lc' => running autoRetry lc0 lc' (said ++ r.2) /\ lc_acceptedAt lc' = lc_acceptedAt lc
  | None => finished_reports uploads autoRetry lc0 (said ++ r.2)
  end.
Proof.
  intros [Hs Ha Hc Ho Hr].
  assert (Hab : forall status message, about lc0 (status_of lc status message wall)).
  { intros status message. destruct Hs as (E1 & E2 & E3 & E4 & E5). unfold about. simpl. by rewrite E1, E2, E3, E4, E5. }
  destruct o as [stored recordFailed uploaded uploadFailed]. unfold advance.
  cbn [obs_stored obs_recordFailed obs_uploaded obs_uploadFailed].
  set (first := if stored && negb (lc_storedPublished lc) then _ else []).
  assert (Hfirst : stored_reports (said ++ first) = (if stored || lc_storedPublished lc then 1 else 0)%nat /\
    Forall (about lc0) (said ++ first) /\ Forall (fun st => verdict (st_status st) = false) (said ++ first) /\
    Forall (fun st => st_status st = UPLOAD_RETRYING -> autoRetry = true) (said ++ first)).
  { rewrite stored_reports_app, Hc. unfold first.
    destruct stored, (lc_storedPublished lc); simpl; rewrite ?app_nil_r; split_and!; try done;
      apply Forall_app; split; try done; by apply Forall_singleton. }
  clearbody first. destruct Hfirst as (F1 & F2 & F3 & F4).
  assert (Hend : forall before st, stored_reports before = stored_reports (said ++ first) ->
    Forall (about lc0) before -> Forall (fun st => verdict (st_status st) = false) before ->
    Forall (fun st => st_status st = UPLOAD_RETRYING -> autoRetry = true) before ->
    about lc0 st -> verdict (st_status st) = true -> (st_status st = UPLOAD_FAILED -> autoRetry = false) ->
    finished_reports uploads autoRetry lc0 (before ++ [st])).
  { intros before st B1 B2 B3 B4 Hst Hv Hu. constructor.
    - apply Forall_app. by rewrite Forall_singleton.
    - rewrite stored_reports_app, B1, F1. unfold stored_reports. simpl.
      rewrite bool_decide_false by (intros E; by rewrite E in Hv). destruct (_ || _); simpl; lia.
    - by exists before, [st].
    - apply Forall_app. rewrite Forall_singleton. split; [done|]. intros E. by rewrite E in Hv. }
  destruct recordFailed; [cbn [fst snd]; rewrite (assoc_L (++)); by apply Hend|].
  destruct uploaded; [cbn [fst snd]; rewrite (assoc_L (++)); by apply Hend|].
  destruct (uploadFailed && negb (lc_uploadFailurePublished lc)) eqn:Erep; cbn [andb].
  2: { cbn [fst snd]. rewrite app_nil_r. destruct (negb uploads && _) eqn:Eu.
       { apply andb_prop in Eu as [Eu1 Eu2]. cbn [fst snd]. constructor; [done| | |done].
         - rewrite F1. by destruct (_ || _).
         - exists (said ++ first), []. rewrite app_nil_r. split; [done|]. split; [done|].
           split; [by destruct uploads|]. by rewrite F1, Eu2. }
       destruct (negb stored && _); cbn [fst snd app].
       { rewrite (assoc_L (++)). by apply Hend. }
       by split. }
  destruct autoRetry; cbn [negb andb].
  2: { cbn [fst snd]. rewrite (assoc_L (++)). by apply Hend. }
  set (retry := status_of lc UPLOAD_RETRYING _ wall).
  assert (Hmid : stored_reports ((said ++ first) ++ [retry]) = stored_reports (said ++ first) /\
    Forall (about lc0) ((said ++ first) ++ [retry]) /\ Forall (fun st => verdict (st_status st) = false) ((said ++ first) ++ [retry]) /\
    Forall (fun st => st_status st = UPLOAD_RETRYING -> true = true) ((said ++ first) ++ [retry])).
  { rewrite stored_reports_app. simpl. split_and!; [unfold stored_reports at 2; simpl; lia|..];
      apply Forall_app; rewrite Forall_singleton; (split; [done|]); unfold retry; auto. }
  destruct Hmid as (M1 & M2 & M3 & M4).
  destruct (negb uploads && _) eqn:Eu; cbn [fst snd].
  { apply andb_prop in Eu as [Eu1 Eu2]. rewrite (assoc_L (++)). constructor; [done| | |done].
    - rewrite M1, F1. by destruct (_ || _).
    - exists ((said ++ first) ++ [retry]), []. rewrite app_nil_r. split; [done|]. split; [done|].
      split; [by destruct uploads|]. by rewrite M1, F1, Eu2. }
  destruct (negb stored && _); cbn [fst snd].
  { rewrite !(assoc_L (++)). by apply Hend. }
  rewrite (assoc_L (++)). split; [|done]. constructor; [done|done| |done|done]. by rewrite M1, F1.
Qed.

(** ** All events *)

(** Entries are filed under their trigger. *)
Definition keys_ok (n : DataCacheNode) : Prop := map_Forall (fun k lc => lc_triggerId lc = k) (eventLifecycles n).

Definition reports (T : string) (l : list EventStatus) : list EventStatus :=
  List.filter (fun st => String.eqb (st_trigger_id st) T) l.

Lemma said_reports_app T a b : reports T (a ++ b) = reports T a ++ reports T b.
Proof. apply List.filter_app. Qed.

(** The step of one entry under the settings of the node. *)
Definition advance_in (n : DataCacheNode) (steady wall : Z) (o : Observation) (lc : EventLifecycle)
    : option EventLifecycle * list EventStatus :=
  advance steady wall (uploadEnabled n) (uploadFailureAutoRetry n) o lc.

Lemma advance_trigger n steady wall o lc :
  Forall (fun st => st_trigger_id st = lc_triggerId lc) (advance_in n steady wall o lc).2 /\
  forall lc', (advance_in n steady wall o lc).1 = Some lc' -> lc_triggerId lc' = lc_triggerId lc.
Proof.
  unfold advance_in, advance.
  repeat (match goal with |- context [if ?b then _ else _] => destruct b end; cbn [fst snd app]);
    (split; [repeat constructor|intros lc' [=]; by subst]).
Qed.

Lemma reports_advance n steady wall o lc T :
  reports T (advance_in n steady wall o lc).2 =
    if String.eqb (lc_triggerId lc) T then (advance_in n steady wall o lc).2 else [].
Proof.
  destruct (advance_trigger n steady wall o lc) as [Ht _].
  induction Ht as [|st l Hst Hl IH]; simpl; [by destruct (String.eqb _ _)|].
  rewrite Hst, IH. by destruct (String.eqb _ _).
Qed.

(** The node when the entries [before] have been looked at and found as [f]. *)
Record poll_inv (steady wall : Z) (n : DataCacheNode) (before : list (string * EventLifecycle))
    (f : string -> Observation) (n' : DataCacheNode) : Prop := {
  pi_uploads : uploadEnabled n' = uploadEnabled n;
  pi_retry : uploadFailureAutoRetry n' = uploadFailureAutoRetry n;
  pi_rest : exists extra, n' = publish extra (with_lifecycles (eventLifecycles n') n);
  pi_seen : forall k, k ∈ before.*1 ->
    eventLifecycles n' !! k = eventLifecycles n !! k ≫= (fun lc => (advance_in n steady wall (f k) lc).1) /\
    reports k (published n') =
      reports k (published n) ++ from_option (fun lc => (advance_in n steady wall (f k) lc).2) [] (eventLifecycles n !! k);
  pi_unseen : forall k, k ∉ before.*1 ->
    eventLifecycles n' !! k = eventLifecycles n !! k /\ reports k (published n') = reports k (published n)
}.

Definition noted (f : string -> Observation) (k : string) (o : Observation) : string -> Observation :=
  fun k' => if String.eqb k' k then o else f k'.

Lemma poll_inv_start steady wall n f : poll_inv steady wall n [] f n.
Proof.
  constructor; try done.
  - exists []. destruct n. unfold publish, with_lifecycles. simpl. by rewrite app_nil_r.
  - intros k Hk. by apply elem_of_nil in Hk.
Qed.

Lemma poll_inv_step steady wall n before f n' k lc o :
  keys_ok n -> eventLifecycles n !! k = Some lc -> k ∉ before.*1 -> poll_inv steady wall n before f n' ->
  let r := advance_in n' steady wall o lc in
  poll_inv steady wall n (before ++ [(k, lc)]) (noted f k o)
    (publish r.2 (with_lifecycles
      (match r.1 with Some lc' => <[k := lc']> (eventLifecycles n') | None => delete k (eventLifecycles n') end) n')).
Proof.
  intros Hkeys Hlc Hk [Hu Hr Hrest Hseen Hunseen] r.
  assert (Er : r = advance_in n steady wall o lc) by (unfold r, advance_in; by rewrite Hu, Hr).
  clearbody r. subst r. pose proof (Hkeys k lc Hlc) as Hid.
  assert (Hother : forall k', k' <> k ->
    match (advance_in n steady wall o lc).1 with
    | Some lc' => <[k := lc']> (eventLifecycles n') | None => delete k (eventLifecycles n') end !! k' =
    eventLifecycles n' !! k' /\
    reports k' (published n' ++ (advance_in n steady wall o lc).2) = reports k' (published n')).
  { intros k' Hk'. split.
    - destruct (advance_in _ _ _ _ _).1; [by apply lookup_insert_ne|by apply lookup_delete_ne].
    - rewrite said_reports_app, reports_advance, Hid.
      destruct (String.eqb_spec k k'); [done|]. apply app_nil_r. }
  constructor; cbn [uploadEnabled uploadFailureAutoRetry eventLifecycles published publish with_lifecycles]; [done|done| | |].
  - destruct Hrest as [extra Hrest]. exists (extra ++ (advance_in n steady wall o lc).2).
    rewrite Hrest. unfold publish, with_lifecycles. simpl. by rewrite <- (assoc_L (++)).
  - intros k'. rewrite fmap_app, elem_of_app. unfold noted. intros [Hin|Hin].
    + assert (Hne : k' <> k) by (intros ->; done). destruct (Hother k' Hne) as [-> ->].
      apply String.eqb_neq in Hne as ->. by apply Hseen.
    + apply list_elem_of_singleton in Hin. cbn [fst] in Hin. subst k'. rewrite String.eqb_refl.
      destruct (Hunseen k Hk) as [_ Hrep]. rewrite said_reports_app, reports_advance, Hid, String.eqb_refl, Hrep, Hlc.
      split; [|done]. cbn [mbind option_bind]. destruct (advance_in n steady wall o lc).1; [by apply lookup_insert_eq|by apply lookup_delete_eq].
  - intros k'. rewrite fmap_app, not_elem_of_app. intros [Hin Hne%not_elem_of_cons].
    destruct (Hother k') as [-> ->]; [tauto|]. by apply Hunseen.
Qed.

Section polls.
Context `{NodeOrders}.

(** Every entry has been looked at. *)
Lemma poll_inv_all steady wall n f n' :
  keys_ok n -> poll_inv steady wall n (lifecycle_order (map_to_list (eventLifecycles n))) f n' ->
  keys_ok n' /\
  (forall k, eventLifecycles n' !! k = eventLifecycles n !! k ≫= (fun lc => (advance_in n steady wall (f k) lc).1)) /\
  (forall k, reports k (published n') =
     reports k (published n) ++ from_option (fun lc => (advance_in n steady wall (f k) lc).2) [] (eventLifecycles n !! k)).
Proof.
  intros Hkeys [_ _ _ Hseen Hunseen].
  assert (Hin : forall k, k ∈ (lifecycle_order (map_to_list (eventLifecycles n))).*1 <-> exists lc, eventLifecycles n !! k = Some lc).
  { intros k. rewrite lifecycle_order_perm, list_elem_of_fmap. split.
    - intros ([k' lc] & -> & Hl%elem_of_map_to_list). eauto.
    - intros [lc Hl]. exists (k, lc). split; [done|]. by apply elem_of_map_to_list. }
  assert (Hboth : forall k,
    eventLifecycles n' !! k = eventLifecycles n !! k ≫= (fun lc => (advance_in n steady wall (f k) lc).1) /\
    reports k (published n') =
      reports k (published n) ++ from_option (fun lc => (advance_in n steady wall (f k) lc).2) [] (eventLifecycles n !! k)).
  { intros k. destruct (eventLifecycles n !! k) as [lc|] eqn:E.
    - rewrite <- E. apply Hseen, Hin. eauto.
    - destruct (Hunseen k) as [-> ->]; [|by rewrite E, app_nil_r].
      intros Hk%Hin. rewrite E in Hk. by destruct Hk. }
  split; [|split; intros k; by apply Hboth].
  intros k lc' Hk. destruct (Hboth k) as [E _]. rewrite Hk in E. symmetry in E.
  apply bind_Some in E as (lc & Hlc & E). rewrite <- (Hkeys k lc Hlc).
  by apply (proj2 (advance_trigger n steady wall (f k) lc)).
Qed.

Lemma order_split n before k lc rest :
  lifecycle_order (map_to_list (eventLifecycles n)) = before ++ (k, lc) :: rest ->
  eventLifecycles n !! k = Some lc /\ k ∉ before.*1.
Proof.
  intros E. split.
  - apply elem_of_map_to_list. rewrite <- (lifecycle_order_perm (map_to_list _)), E. set_solver.
  - pose proof (NoDup_fst_map_to_list (eventLifecycles n)) as Hnd.
    rewrite <- (lifecycle_order_perm (map_to_list _)), E, fmap_app in Hnd.
    apply NoDup_app in Hnd as (_ & Hnd & _). intros Hk. apply (Hnd k Hk). csimpl. by left.
Qed.

Lemma poll_wp steady wall n w :
  keys_ok n ->
  wp (pollEventLifecycles steady wall n)
    (fun n' _ => exists f, poll_inv steady wall n (lifecycle_order (map_to_list (eventLifecycles n))) f n')
    (fun _ => False) (fun _ => True) w.
Proof.
  intros Hkeys. unfold pollEventLifecycles.
  apply (wp_for_each _ _ (fun before n' _ => exists f, poll_inv steady wall n before f n')).
  - intros before [k lc] rest n' w' E [f Hf]. destruct (order_split n before k lc rest E) as [Hlc Hk].
    unfold pollLifecycle. cbn [fst snd].
    apply (wp_bind (observe (lc_directory lc))).
    assert (Hobs : forall d, wp (observe d) (fun _ _ => True) (fun _ => False) (fun _ => True) w').
    { intros d. unfold observe, fs_exists. repeat (apply wp_bind, wp_query; [| |done]).
      all: by apply wp_ret. }
    eapply wp_post; [|apply Hobs]. intros o w'' _.
    pose proof (poll_inv_step steady wall n before f n' k lc o Hkeys Hlc Hk Hf) as Hstep.
    cbv zeta in Hstep. unfold advance_in in Hstep. destruct (advance _ _ _ _ _ _) as [kept said].
    apply wp_ret. exists (noted f k o). exact Hstep.
  - exists (fun _ => {| obs_stored := false; obs_recordFailed := false; obs_uploaded := false; obs_uploadFailed := false |}).
    apply poll_inv_start.
Qed.

(** What is there to be found. *)
Definition seen (w : world) (d : path) : Observation :=
  {| obs_stored := present w (completed d); obs_recordFailed := present w (failed d);
     obs_uploaded := present w (child d ".uploaded"); obs_uploadFailed := present w (child d ".upload_failed") |}.

Lemma poll_returns steady wall n w :
  keys_ok n ->
  exists n' f, returns (pollEventLifecycles steady wall n) w n' w /\
    poll_inv steady wall n (lifecycle_order (map_to_list (eventLifecycles n))) f n' /\
    forall k lc, eventLifecycles n !! k = Some lc -> f k = seen w (lc_directory lc).
Proof.
  intros Hkeys.
  destruct (returns_for_each (lifecycle_order (map_to_list (eventLifecycles n))) (pollLifecycle steady wall)
    (fun before n' w' => w' = w /\ exists f, poll_inv steady wall n before f n' /\
       forall k lc, k ∈ before.*1 -> eventLifecycles n !! k = Some lc -> f k = seen w (lc_directory lc)) n w)
    as (n' & w' & Hr & -> & f & Hf & Hseen).
  - intros before [k lc] rest n' w' E [-> (f & Hf & Hseen)]. destruct (order_split n before k lc rest E) as [Hlc Hk].
    set (o := seen w (lc_directory lc)).
    pose proof (poll_inv_step steady wall n before f n' k lc o Hkeys Hlc Hk Hf) as Hstep.
    cbv zeta in Hstep. unfold advance_in in Hstep.
    destruct (advance steady wall (uploadEnabled n') (uploadFailureAutoRetry n') o lc) as [kept said] eqn:Ea.
    eexists _, w. split.
    { unfold pollLifecycle. eapply (returns_bind _ _ _ o w); [done|]. cbn [fst snd]. rewrite Ea. reflexivity. }
    split; [done|]. exists (noted f k o). split; [exact Hstep|].
    intros k' lc' Hin Hlc'. unfold noted. destruct (String.eqb_spec k' k) as [->|Hne].
    + rewrite Hlc in Hlc'. by injection Hlc' as <-.
    + apply Hseen; [|done]. rewrite fmap_app in Hin. set_solver.
  - split; [done|]. eexists. split; [apply poll_inv_start|]. intros k lc Hk. by apply elem_of_nil in Hk.
  - exists n', f. split; [exact Hr|]. split; [done|]. intros k lc Hlc. apply Hseen; [|done].
    rewrite lifecycle_order_perm, list_elem_of_fmap. exists (k, lc). split; [done|]. by apply elem_of_map_to_list.
  Unshelve. exact (fun _ => seen w []).
Qed.

End polls.

(** ** Runs of polls *)

(** A poll at its times, on what the file system is then and with its faults. *)
Record poll_call := { pl_steady : Z; pl_wall : Z; pl_world : world; pl_faults : list fault }.

Section runs.
Context `{NodeOrders}.

(** [None] when the process dies. *)
Fixpoint run_polls (ps : list poll_call) (n : DataCacheNode) : option DataCacheNode :=
  match ps with
  | [] => Some n
  | p :: ps' =>
      match pollEventLifecycles (pl_steady p) (pl_wall p) n (pl_faults p) (pl_world p) with
      | Done n' _ _ => run_polls ps' n'
      | _ => None
      end
  end.

Lemma poll_done p n n' w o :
  keys_ok n -> pollEventLifecycles (pl_steady p) (pl_wall p) n (pl_faults p) (pl_world p) = Done n' w o ->
  exists f, poll_inv (pl_steady p) (pl_wall p) n (lifecycle_order (map_to_list (eventLifecycles n))) f n'.
Proof.
  intros Hk Hp. pose proof (poll_wp (pl_steady p) (pl_wall p) n (pl_world p) Hk (pl_faults p)) as Hw.
  by rewrite Hp in Hw.
Qed.

(** An entry that is gone stays gone and silent. *)
Lemma run_polls_gone ps n n' T :
  keys_ok n -> eventLifecycles n !! T = None -> run_polls ps n = Some n' ->
  eventLifecycles n' !! T = None /\ reports T (published n') = reports T (published n).
Proof.
  revert n. induction ps as [|p ps IH]; intros n Hk HT; simpl; [by intros [= <-]|].
  destruct (pollEventLifecycles _ _ _ _ _) as [n1 w1 o1| | |] eqn:Ep; try done.
  destruct (poll_done p n n1 w1 o1 Hk Ep) as [f Hf].
  destruct (poll_inv_all _ _ _ _ _ Hk Hf) as (Hk1 & Hl & Hr). specialize (Hl T). specialize (Hr T).
  rewrite HT in Hl, Hr. simpl in Hl, Hr. rewrite app_nil_r in Hr. intros Hrun.
  destruct (IH n1 Hk1 Hl Hrun) as [-> ->]. done.
Qed.

Lemma run_polls_live ps n n' T lc0 lc said :
  keys_ok n -> eventLifecycles n !! T = Some lc -> running (uploadFailureAutoRetry n) lc0 lc said ->
  run_polls ps n = Some n' ->
  exists more, reports T (published n') = reports T (published n) ++ more /\
    match eventLifecycles n' !! T with
    | Some lc' => running (uploadFailureAutoRetry n) lc0 lc' (said ++ more)
    | None => finished_reports (uploadEnabled n) (uploadFailureAutoRetry n) lc0 (said ++ more)
    end.
Proof.
  revert n lc said. induction ps as [|p ps IH]; intros n lc said Hk HT Hrun; simpl.
  { intros [= <-]. exists []. rewrite !app_nil_r. split; [done|]. by rewrite HT. }
  destruct (pollEventLifecycles _ _ _ _ _) as [n1 w1 o1| | |] eqn:Ep; try done. intros Hrest.
  destruct (poll_done p n n1 w1 o1 Hk Ep) as [f Hf].
  destruct (poll_inv_all _ _ _ _ _ Hk Hf) as (Hk1 & Hl & Hr). specialize (Hl T). specialize (Hr T).
  rewrite HT in Hl, Hr. simpl in Hl, Hr.
  pose proof (advance_step (pl_steady p) (pl_wall p) (uploadEnabled n) (uploadFailureAutoRetry n) (f T) lc0 lc said Hrun) as Hstep.
  cbv zeta in Hstep. unfold advance_in in Hl, Hr.
  destruct (advance _ _ _ _ _ _) as [[lc1|] more] eqn:Ea; cbn [fst snd] in *.
  - destruct Hstep as [Hstep _]. rewrite <- (pi_retry _ _ _ _ _ _ Hf) in Hstep.
    destruct (IH n1 lc1 (said ++ more) Hk1 Hl Hstep Hrest) as (more' & Hr' & Hend).
    rewrite (pi_retry _ _ _ _ _ _ Hf), (pi_uploads _ _ _ _ _ _ Hf) in Hend.
    exists (more ++ more'). rewrite Hr', Hr, !(assoc_L (++)). done.
  - destruct (run_polls_gone ps n1 n' T Hk1 Hl Hrest) as [-> ->]. exists more. by rewrite Hr.
Qed.

(** ** The claims *)

(** C13. What is published about an accepted event, whatever the polls find and
    whichever of their looks at the file system fail, is about that event, says
    at most once that it is stored, and holds at most one verdict, which is the
    last word; the event is dropped only with a verdict or, when nothing is
    uploaded, once it has been reported as stored. *)
Theorem lifecycle_protocol ps n n' T lc :
  keys_ok n -> eventLifecycles n !! T = Some lc -> lc_storedPublished lc = false -> run_polls ps n = Some n' ->
  exists said before rest, reports T (published n') = reports T (published n) ++ said /\ said = before ++ rest /\
    Forall (about lc) said /\ (stored_reports said <= 1)%nat /\
    Forall (fun st => verdict (st_status st) = false) before /\
    Forall (fun st => st_status st = UPLOAD_RETRYING -> uploadFailureAutoRetry n = true) said /\
    match eventLifecycles n' !! T, rest with
    | Some _, [] => True
    | None, [] => uploadEnabled n = false /\ stored_reports said = 1%nat
    | None, [st] => verdict (st_status st) = true /\ (st_status st = UPLOAD_FAILED -> uploadFailureAutoRetry n = false)
    | _, _ => False
    end.
Proof.
  intros Hk HT Hnew Hrun.
  destruct (run_polls_live ps n n' T lc lc [] Hk HT) as (said & Hr & Hend); [|done|].
  { constructor; [done|constructor|by rewrite Hnew|constructor|constructor]. }
  simpl in Hend. destruct (eventLifecycles n' !! T) as [lc'|].
  - destruct Hend as [_ Ha Hs Ho Hretry]. exists said, said, []. rewrite app_nil_r.
    split_and!; try done. rewrite Hs. destruct (lc_storedPublished lc'); lia.
  - destruct Hend as [Ha Hs (before & rest & He & Ho & Hl) Hretry]. exists said, before, rest.
    split_and!; try done; by destruct rest as [|st [|]].
Qed.

(** C31. When its looks succeed, a poll drops exactly the events that have failed,
    been uploaded, used up their uploads, or been stored with nothing to upload,
    and those that have not been stored within five minutes; so no event is
    followed for ever without a verdict on its recording. *)
Theorem lifecycle_ends steady wall n w T lc :
  keys_ok n -> eventLifecycles n !! T = Some lc ->
  exists n', returns (pollEventLifecycles steady wall n) w n' w /\
    let there leaf := present w (child (lc_directory lc) leaf) in
    (eventLifecycles n' !! T = None <->
       there ".failed" = true \/ there ".uploaded" = true \/
       (there ".upload_failed" = true /\ lc_uploadFailurePublished lc = false /\ uploadFailureAutoRetry n = false) \/
       (uploadEnabled n = false /\ (there ".complete" = true \/ lc_storedPublished lc = true)) \/
       (there ".complete" = false /\ lc_acceptedAt lc + 300 * ns_per_s < steady)) /\
    (there ".complete" = true -> lc_storedPublished lc = false ->
       status_of lc STORED "recording complete" wall ∈ published n').
Proof.
  intros Hk HT. destruct (poll_returns steady wall n w Hk) as (n' & f & Hr & Hf & Hseen).
  destruct (poll_inv_all _ _ _ _ _ Hk Hf) as (_ & Hl & Hp). specialize (Hl T). specialize (Hp T).
  rewrite HT, (Hseen T lc HT) in Hl, Hp. simpl in Hl, Hp.
  exists n'. split; [done|]. intros there. unfold advance_in, advance, seen in Hl, Hp. cbn [obs_stored obs_recordFailed obs_uploaded obs_uploadFailed] in Hl, Hp.
  change (present w (completed (lc_directory lc))) with (there ".complete") in *.
  change (present w (failed (lc_directory lc))) with (there ".failed") in *.
  fold (there ".uploaded") (there ".upload_failed") in *.
  assert (Htime : (steady - lc_acceptedAt lc >? kRecordTimeout) = true <-> lc_acceptedAt lc + 300 * ns_per_s < steady)
    by (unfold kRecordTimeout; rewrite Z.gtb_lt; lia).
  assert (Hsub : forall st, st ∈ reports T (published n') -> st ∈ published n').
  { intros st Hst. apply list_elem_of_In in Hst. apply filter_In in Hst as [Hst _]. by apply list_elem_of_In. }
  split.
  - rewrite Hl. clear -Htime.
    set (used_up := there ".upload_failed" && negb (lc_uploadFailurePublished lc) && negb (uploadFailureAutoRetry n)).
    set (settled_ := negb (uploadEnabled n) && (there ".complete" || lc_storedPublished lc)).
    set (late := negb (there ".complete") && (steady - lc_acceptedAt lc >? kRecordTimeout)).
    assert (H3 : used_up = true <-> there ".upload_failed" = true /\ lc_uploadFailurePublished lc = false /\
      uploadFailureAutoRetry n = false) by (unfold used_up; rewrite !andb_true_iff, !negb_true_iff; tauto).
    assert (H4 : settled_ = true <-> uploadEnabled n = false /\ (there ".complete" = true \/ lc_storedPublished lc = true))
      by (unfold settled_; rewrite andb_true_iff, orb_true_iff, negb_true_iff; tauto).
    assert (H5 : late = true <-> there ".complete" = false /\ lc_acceptedAt lc + 300 * ns_per_s < steady)
      by (unfold late; rewrite andb_true_iff, negb_true_iff, Htime; tauto).
    rewrite <- H3, <- H4, <- H5. clearbody used_up settled_ late.
    destruct (there ".failed"); cbn [fst]; [by split; [left|]|].
    destruct (there ".uploaded"); cbn [fst]; [by split; [right; left|]|].
    destruct used_up; cbn [fst]; [by split; [right; right; left|]|].
    destruct settled_; cbn [fst]; [by split; [right; right; right; left|]|].
    destruct late; cbn [fst]; [by split; [right; right; right; right|]|].
    split; [done|]. by intros [|[|[|[|]]]].
  - intros Hc Hn. apply Hsub. rewrite Hp, Hc, Hn. cbn [andb negb orb]. apply elem_of_app. right.
    repeat (match goal with |- context [if ?b then _ else _] => destruct b end; cbn [fst snd app]); by left.
Qed.

End runs.

(** ** Samples *)

#[local] Instance sample_orders : NodeOrders :=
  { config_order := map_to_list; lifecycle_order l := l; lifecycle_order_perm l := Permutation_refl l }.

Definition sample_life : EventLifecycle :=
  {| lc_eventName := "brake"; lc_triggerId := "k-1"; lc_source := "keyboard"; lc_captureId := "brake_0_99";
     lc_directory := ["brake_0_99"; "records"]%string; lc_acceptedAt := 1000; lc_storedPublished := false;
     lc_uploadFailurePublished := false |}.

Definition sample_followed (uploads : bool) : DataCacheNode :=
  {| eventMonitor := newEventMonitor (createSensors newConfigManager) newConfigManager false; watchdog := None;
     syncEnabled := true; uploadEnabled := uploads; uploadFailureAutoRetry := true; triggerDedupeTtl := 60000;
     eventLifecycles := {["k-1"%string := sample_life]}; triggerResponses := ∅; nextDirectTriggerId := 0;
     published := [] |}.

(** A directory with these markers. *)
Definition marked_store (leaves : list string) : world :=
  {| files := list_to_map ((fun leaf => (child (lc_directory sample_life) leaf, File "" 1)) <$> leaves); clock := 1 |}.

Definition sample_polls : list poll_call :=
  [{| pl_steady := 2000; pl_wall := 5; pl_world := marked_store [".complete"]; pl_faults := [IoError 0] |};
   {| pl_steady := 3000; pl_wall := 6; pl_world := marked_store [".complete"; ".upload_failed"]; pl_faults := [] |};
   {| pl_steady := 4000; pl_wall := 7; pl_world := marked_store [".complete"; ".uploaded"]; pl_faults := [] |}]%string.

Lemma sample_keys uploads : keys_ok (sample_followed uploads).
Proof. intros k lc. cbn [eventLifecycles sample_followed]. by intros [<- <-]%lookup_singleton_Some. Qed.

Lemma lifecycle_protocol_witness :
  match run_polls sample_polls (sample_followed true) with
  | Some n' => st_status <$> published n' = [STORED; UPLOAD_RETRYING; UPLOADED] /\
      exists said before rest, reports "k-1" (published n') = said /\ said = before ++ rest /\
        Forall (fun st => verdict (st_status st) = false) before /\ (stored_reports said <= 1)%nat
  | None => False
  end.
Proof.
  assert (Hok : match run_polls sample_polls (sample_followed true) with
    | Some n' => bool_decide (st_status <$> published n' = [STORED; UPLOAD_RETRYING; UPLOADED]) | None => false end = true)
    by (vm_compute; reflexivity).
  destruct (run_polls sample_polls (sample_followed true)) as [n'|] eqn:E; [|discriminate].
  apply bool_decide_eq_true in Hok. split; [exact Hok|].
  destruct (lifecycle_protocol sample_polls (sample_followed true) n' "k-1" sample_life (sample_keys true)) as
    (said & before & rest & H1 & H2 & H3 & H4 & H5 & _); [reflexivity|reflexivity|exact E|].
  exists said, before, rest. split; [exact H1|]. split; [exact H2|]. split; [exact H5|exact H4].
Defined.

Lemma lifecycle_ends_witness :
  exists n', returns (pollEventLifecycles 400000000000 9 (sample_followed false)) (marked_store []) n' (marked_store []) /\
    eventLifecycles n' !! "k-1"%string = None.
Proof.
  destruct (lifecycle_ends 400000000000 9 (sample_followed false) (marked_store []) "k-1" sample_life (sample_keys false))
    as (n' & Hr & Hiff & _); [reflexivity|].
  exists n'. split; [exact Hr|]. apply Hiff. right. right. right. right. split; [reflexivity|]. vm_compute. reflexivity.
Defined.

(** An event that has been reported as stored and waits for its upload is
    reported as failed when one look at its directory fails after five minutes. *)
Lemma stored_then_failed :
  match run_polls
    [{| pl_steady := 2000; pl_wall := 5; pl_world := marked_store [".complete"%string]; pl_faults := [] |};
     {| pl_steady := 400000000000; pl_wall := 6; pl_world := marked_store [".complete"%string]; pl_faults := [IoError 0] |}]
    (sample_followed true) with
  | Some n' => st_status <$> published n' = [STORED; RECORD_FAILED] /\ eventLifecycles n' = ∅
  | None => False
  end.
Proof. vm_compute. by split. Qed.

(** An event whose recording takes longer than five minutes is given up. *)
Lemma long_window_fails :
  match run_polls
    [{| pl_steady := 301000000000; pl_wall := 5; pl_world := marked_store [".pending"%string]; pl_faults := [] |};
     {| pl_steady := 400000000000; pl_wall := 6; pl_world := marked_store [".complete"%string]; pl_faults := [] |}]
    (sample_followed true) with
  | Some n' => st_status <$> published n' = [RECORD_FAILED]
  | None => False
  end.
Proof. vm_compute. reflexivity. Qed.
