(* ===== verification/Service.v ===== *)
(** * Service: runs of the node

    The handlers of Node.v one after the other, with the storage thread taking
    jobs in between.  Shows that no handler throws and that the accounts of the
    sensor components, of the captures and of the published reports agree; that
    an answered trigger is answered again without another capture; and what a
    trigger brings about. *)

From S2P Require Import Prelude Text SensorData Synchronizer PairIndex DataBuffer TriggerPolicy Watchdog Config.
From S2P Require Import FileSystem EventState RecordIo StorageWorker DiskSpace Monitor Captures Upload Intake Node Lifecycles.

(** ** The calls *)

Inductive node_call :=
| NodeImage (image : Image) (steadyNow : Z)
| NodeCloud (cloud : PointCloud2) (steadyNow : Z)
| NodeTrigger (request : TriggerRequest) (wallNow : Z) (now : Clocks)
| NodeLifecycles (steadyNow wallNow : Z)
| NodeWatchdog (steadyNow : Z)
| NodeCaptures (now : Clocks)
| NodeStorage.

Section calls.
Context `{RclTime} `{WorkingDirectory} `{Iteration} `{NodeOrders}.

(** The timer of the watchdog. *)
Definition pollWatchdog (steadyNow : Z) (n : DataCacheNode) : DataCacheNode :=
  with_watchdog ((fun w => (poll steadyNow w).1) <$> watchdog n) n.

Definition do_node (c : node_call) (n : DataCacheNode) : M DataCacheNode :=
  match c with
  | NodeImage image t => pure (handleImage image t n)
  | NodeCloud cloud t => pure (handlePointCloud cloud t n)
  | NodeTrigger request wallNow now => answer ← handleTrigger request wallNow now n; mret answer.2
  | NodeLifecycles steadyNow wallNow => pollEventLifecycles steadyNow wallNow n
  | NodeWatchdog steadyNow => mret (pollWatchdog steadyNow n)
  | NodeCaptures now =>
      m ← processExpiredCaptures flushPendingPairs now (eventMonitor n); mret (with_monitor m n)
  | NodeStorage =>
      mret (match look (storageWorker (eventMonitor n)) with
            | (Take _, worker) => with_monitor (with_worker worker (eventMonitor n)) n
            | _ => n
            end)
  end.

Definition run_node (cs : list node_call) (n : DataCacheNode) : M DataCacheNode := for_each cs do_node n.

(** ** The cache of answers *)

Definition call_time (c : node_call) : option Z :=
  match c with NodeTrigger _ _ now => Some (steady_now now) | _ => None end.

(** Polling the lives of events leaves the answers alone. *)
Lemma pollLifecycle_cache steady wall entry n w :
  wp (pollLifecycle steady wall entry n)
    (fun n' w' => w' = w /\ triggerResponses n' = triggerResponses n /\ triggerDedupeTtl n' = triggerDedupeTtl n)
    (fun _ => False) (eq w) w.
Proof.
  unfold pollLifecycle, observe, fs_exists.
  apply wp_bind. repeat (apply wp_bind, wp_query; [| |done]).
  all: apply wp_ret; destruct (advance _ _ _ _ _ _) as [kept said]; by apply wp_ret.
Qed.

Lemma poll_cache steady wall n w :
  wp (pollEventLifecycles steady wall n)
    (fun n' w' => triggerResponses n' = triggerResponses n /\ triggerDedupeTtl n' = triggerDedupeTtl n)
    (fun _ => False) (fun _ => True) w.
Proof.
  unfold pollEventLifecycles. apply (wp_for_each _ _ (fun _ n' _ =>
    triggerResponses n' = triggerResponses n /\ triggerDedupeTtl n' = triggerDedupeTtl n)); [|done].
  intros before entry rest n' w' _ [E1 E2].
  eapply wp_mono; [..|apply pollLifecycle_cache]; [|done|done].
  intros n'' w'' (_ & E3 & E4). split; congruence.
Qed.

(** An answer that has not expired is kept by a trigger. *)
Lemma unexpired_lookup t n id c :
  triggerResponses n !! id = Some c -> t < expiresAt c -> triggerResponses (unexpired t n) !! id = Some c.
Proof. intros Hc Ht. by apply map_lookup_filter_Some. Qed.

Lemma bind_done {A B} (m : M A) (k : A -> M B) o w b w' o' :
  (m ≫= k) o w = Done b w' o' -> exists a w1 o1, m o w = Done a w1 o1 /\ k a o1 w1 = Done b w' o'.
Proof. unfold mbind, M_bind. destruct (m o w) as [a w1 o1| | |]; try done. eauto. Qed.

Lemma captureTrigger_cache eventName id source wallNow now n o w response n' w' o' :
  captureTrigger eventName id source wallNow now n o w = Done (response, n') w' o' ->
  triggerResponses n' =
    <[id := {| cached_response := response; expiresAt := steady_now now + triggerDedupeTtl n * ns_per_ms |}]>
      (triggerResponses n) /\ triggerDedupeTtl n' = triggerDedupeTtl n.
Proof.
  intros ([capture m] & w1 & o1 & _ & Hd)%bind_done. cbv zeta in Hd.
  destruct (capture_accepted capture); injection Hd as <- <- _ _; done.
Qed.

(** What a trigger does to the cache, with the identifier it goes by. *)
Lemma handleTrigger_cache request wallNow now n o w response n' w' o' :
  handleTrigger request wallNow now n o w = Done (response, n') w' o' ->
  let id := (identify request wallNow n).1 in
  let kept := triggerResponses (unexpired (steady_now now) n) in
  triggerDedupeTtl n' = triggerDedupeTtl n /\
  match kept !! id with
  | Some c => response = cached_response c /\ triggerResponses n' = kept
  | None => triggerResponses n' =
      <[id := {| cached_response := response; expiresAt := steady_now now + triggerDedupeTtl n * ns_per_ms |}]> kept
  end.
Proof.
  unfold handleTrigger. destruct (identify request wallNow n) as [id n0] eqn:Ei. cbn [fst]. cbv zeta.
  assert (Hn0 : triggerResponses (unexpired (steady_now now) n0) = triggerResponses (unexpired (steady_now now) n) /\
                triggerDedupeTtl n0 = triggerDedupeTtl n).
  { unfold identify in Ei. destruct (String.eqb _ _); injection Ei as <- <-; done. }
  destruct Hn0 as [<- Httl]. set (n1 := unexpired (steady_now now) n0).
  destruct (triggerResponses n1 !! id) as [c|] eqn:Ec.
  { intros [= <- <- _ _]. done. }
  destruct (String.eqb (rq_event_name request) "").
  { intros [= <- <- _ _]. simpl. by rewrite Httl. }
  destruct (negb (hasEvent _ _)).
  { intros [= <- <- _ _]. simpl. by rewrite Httl. }
  intros [E1 E2]%captureTrigger_cache. cbn [n1 unexpired with_cache triggerDedupeTtl] in E1, E2.
  rewrite <- Httl. done.
Qed.

Lemma identify_given request wallNow n :
  rq_trigger_id request <> ""%string -> identify request wallNow n = (rq_trigger_id request, n).
Proof. unfold identify. by intros ->%String.eqb_neq. Qed.

(** An answered trigger has its answer in the cache. *)
Lemma answer_stored request wallNow now n o w response n1 w1 o1 :
  handleTrigger request wallNow now n o w = Done (response, n1) w1 o1 ->
  rq_trigger_id request <> ""%string -> 0 < triggerDedupeTtl n ->
  exists a, cached_response a = response /\ triggerResponses n1 !! rq_trigger_id request = Some a /\
    steady_now now < expiresAt a /\
    (triggerResponses (unexpired (steady_now now) n) !! rq_trigger_id request = None ->
       expiresAt a = steady_now now + triggerDedupeTtl n * ns_per_ms).
Proof.
  intros [_ Hh]%handleTrigger_cache Hid Httl. rewrite identify_given in Hh by done. cbn [fst] in Hh.
  destruct (triggerResponses (unexpired (steady_now now) n) !! rq_trigger_id request) as [a|] eqn:Ea.
  - destruct Hh as [-> ->]. exists a. split; [done|]. split; [done|]. split; [|done].
    by apply map_lookup_filter_Some in Ea as [_ Ea].
  - rewrite Hh. eexists. split; [|split; [by apply lookup_insert_eq|]]; [done|]. cbn [expiresAt].
    split; [unfold ns_per_ms; lia|done].
Qed.

(** An answer in the cache is given without doing anything else. *)
Lemma answer_served request wallNow now n a o w :
  rq_trigger_id request <> ""%string -> triggerResponses n !! rq_trigger_id request = Some a ->
  steady_now now < expiresAt a ->
  handleTrigger request wallNow now n o w = Done (cached_response a, unexpired (steady_now now) n) w o.
Proof.
  intros Hid Ha Hlt. unfold handleTrigger. rewrite identify_given by done.
  by rewrite (unexpired_lookup (steady_now now) n _ a Ha Hlt).
Qed.

(** An unexpired answer is still there after any handler. *)
Lemma do_node_answer c n o w n' w' o' id a :
  do_node c n o w = Done n' w' o' -> triggerResponses n !! id = Some a ->
  (forall t, call_time c = Some t -> t < expiresAt a) -> triggerResponses n' !! id = Some a.
Proof.
  intros Hd Ha Ht. destruct c as [image t|cloud t|request wallNow now|steady wall|t|now|]; simpl in Hd.
  - unfold pure, handleImage in Hd. destruct (takeImage _ _ _) as [x|[]]; simpl in Hd; try done. by injection Hd as <- _ _.
  - unfold pure, handlePointCloud in Hd. destruct (takeCloud _ _ _) as [x|[]]; simpl in Hd; try done. by injection Hd as <- _ _.
  - apply bind_done in Hd as ([response n1] & w1 & o1 & Hh & Hd). injection Hd as <- _ _.
    apply handleTrigger_cache in Hh as [_ Hh]. cbn [snd].
    pose proof (unexpired_lookup (steady_now now) n id a Ha (Ht _ eq_refl)) as Hk.
    destruct (_ !! (identify request wallNow n).1) eqn:Ei.
    + destruct Hh as [_ ->]. done.
    + rewrite Hh, lookup_insert_ne; [done|]. intros E. by rewrite E, Hk in Ei.
  - pose proof (poll_cache steady wall n w o) as Hp. rewrite Hd in Hp. by destruct Hp as [-> _].
  - by injection Hd as <- _ _.
  - apply bind_done in Hd as (m & w1 & o1 & _ & Hd). by injection Hd as <- _ _.
  - injection Hd as <- _ _. destruct (look _) as [[] worker]; done.
Qed.

Lemma run_node_answer cs n o w n' w' o' id a :
  run_node cs n o w = Done n' w' o' -> triggerResponses n !! id = Some a ->
  Forall (fun c => forall t, call_time c = Some t -> t < expiresAt a) cs -> triggerResponses n' !! id = Some a.
Proof.
  intros Hr Ha Ht. revert n o w Hr Ha. induction Ht as [|c cs Hc Hcs IH]; intros n o w Hr Ha.
  { by injection Hr as <- _ _. }
  apply bind_done in Hr as (n1 & w1 & o1 & Hd & Hr). eapply IH; [exact Hr|]. by eapply do_node_answer.
Qed.

End calls.

(** ** The accounts of the node *)

Definition intake_ok (M : Z) (x : Sensors) : Prop := buffer_ok M (dataBuffer x) /\ sync_ok (synchronizer x).

Definition said_accepted (l : list EventStatus) : list string :=
  st_record_directory <$> List.filter (fun st => bool_decide (st_status st = ACCEPTED)) l.

Section accounts.
Context `{WorkingDirectory}.

(** The sensor components are well-formed; the captures are accounted for, the
    accepted ones being those that have been published as accepted, in order; an
    event that is followed is one of them. *)
Record node_ok (M : Z) (config : ConfigManager) (n : DataCacheNode) (h : history) : Prop := {
  nk_monitor : monitor h = eventMonitor n;
  nk_accounts : accounts config (Z.max 1 (getIntConfig "max_pending_storage_jobs" 20 config))
                  (Z.max 1 (getIntConfig "max_active_event_captures" 16 config)) [] h;
  nk_intake : intake_ok M (sensors (eventMonitor n));
  nk_keys : keys_ok n;
  nk_followed : map_Forall (fun _ lc => lc_directory lc ∈ accepted_dirs h) (eventLifecycles n);
  nk_said : said_accepted (published n) = path_string <$> accepted_dirs h;
  nk_ttl : 0 < triggerDedupeTtl n
}.

End accounts.

(** Messages have header times, and so has the clock of the node. *)
Definition node_valid (M : Z) (c : node_call) : Prop :=
  match c with
  | NodeImage image _ => valid_stamp (image_stamp image) /\ byte_size (image_data image) <= M
  | NodeCloud cloud _ => valid_stamp (cloud_stamp cloud) /\ byte_size (cloud_data cloud) <= M
  | NodeTrigger _ wallNow _ => valid_stamp wallNow
  | _ => True
  end.

Lemma said_accepted_app a b : said_accepted (a ++ b) = said_accepted a ++ said_accepted b.
Proof. unfold said_accepted. by rewrite List.filter_app, fmap_app. Qed.

Lemma said_nothing l : Forall (fun st => st_status st <> ACCEPTED) l -> said_accepted l = [].
Proof. unfold said_accepted. induction 1 as [|st l Hst Hl IH]; [done|]. simpl. by rewrite bool_decide_false. Qed.

Lemma advance_quiet steady wall uploads autoRetry o lc :
  Forall (fun st => st_status st <> ACCEPTED) (advance steady wall uploads autoRetry o lc).2 /\
  forall lc', (advance steady wall uploads autoRetry o lc).1 = Some lc' -> lc_directory lc' = lc_directory lc.
Proof.
  unfold advance.
  repeat (match goal with |- context [if ?b then _ else _] => destruct b end; cbn [fst snd app]);
    (split; [repeat constructor; done|intros lc' [=]; by subst]).
Qed.

Section invariant.
Context `{RclTimeSpec} `{WorkingDirectory} `{Iteration} `{NodeOrders} `{Listing}.
Context (cap : Z) (config : ConfigManager).

Lemma flush_keeps x : intake_ok cap x -> exists x', flushPendingPairs x = Ok x' /\ intake_ok cap x'.
Proof.
  intros [Hb Hs]. destruct (do_intake_effect cap true FlushPending x Hb Hs I) as (x' & cbs & E & _ & B & _ & F & _).
  exists x'. split; [exact E|]. split; [done|]. by eapply ce_ok.
Qed.

Lemma flush_exception x e : flushPendingPairs x = Err e -> e = Exception.
Proof. intros E. destruct (flushPendingPairs_total x) as [x' E']. congruence. Qed.

Lemma capture_seconds eventName suffix key :
  0 <= Z.max 0 (getEventIntConfig eventName suffix key 5 config) <= int32_max.
Proof.
  unfold getEventIntConfig.
  pose proof (getIntConfig_range key 5 config ltac:(unfold int32_min, int32_max; lia)) as Hkey.
  pose proof (getIntConfig_range ("event_" +:+ eventName +:+ "_" +:+ suffix) _ config Hkey). unfold int32_max in *. lia.
Qed.

Lemma capture_times eventName wallNow s x :
  configManager s = config -> intake_ok cap x -> valid_stamp wallNow ->
  time_minus (capture_time wallNow x) (from_seconds (preSeconds eventName s)) <> None /\
  time_plus (capture_time wallNow x) (from_seconds (postSeconds eventName s)) <> None.
Proof.
  intros Hc [[_ Hlat _] _] Hw.
  assert (Ht : valid_stamp (capture_time wallNow x)).
  { unfold capture_time, latestSensorTimestamp. destruct (hasLatestTimestamp_ (dataBuffer x)) eqn:E; [by apply Hlat|done]. }
  unfold preSeconds, postSeconds. rewrite Hc.
  pose proof (capture_seconds eventName "pre_time" "event_pre_time") as Hpre.
  pose proof (capture_seconds eventName "post_time" "event_post_time") as Hpost.
  unfold valid_stamp, stamp_max, int32_max, uint32_max, ns_per_s in *.
  rewrite !from_seconds_exact by (unfold int32_min, int32_max; lia).
  rewrite time_minus_exact, time_plus_exact; [done|unfold int64, int64_min, int64_max, ns_per_s in *; lia..].
Qed.

Lemma trigger_capture_wp eventName id source wallNow now n h w :
  node_ok cap config n h -> nextCaptureId (eventMonitor n) + 1 < 2 ^ 64 -> valid_stamp wallNow ->
  wp (captureTrigger eventName id source wallNow now n)
    (fun r _ => exists h', node_ok cap config r.2 h' /\
       nextCaptureId (eventMonitor r.2) <= nextCaptureId (eventMonitor n) + 1)
    (fun _ => False) (fun _ => True) w.
Proof.
  intros [Hm Hac Hin Hk Hf Hsaid Httl] Hid Hw. unfold captureTrigger. apply wp_bind.
  rewrite <- Hm in *.
  eapply wp_post; [|apply wp_and; [apply (recordData_quiet flushPendingPairs (intake_ok cap) flush_keeps); [exact Hin|]|
    eapply (recordData_accounts flushPendingPairs flush_exception); [exact Hac|exact Hid]]].
  2: { intros x Hx. apply (capture_times eventName wallNow _ x); [apply (ac_config _ _ _ _ _ Hac)|done|done]. }
  intros [capture m] w' [Hsens [Hacc Hnext]]. cbn [fst snd] in *. cbv zeta. apply wp_ret.
  destruct (capture_accepted capture); cbn [fst snd cacheResponse with_cache with_lifecycles publishEventStatus publish
    with_monitor eventMonitor]; eexists; (split; [|exact Hnext]);
    (constructor; cbn [eventMonitor eventLifecycles published triggerDedupeTtl cacheResponse with_cache with_lifecycles
       publishEventStatus publish with_monitor accepted_dirs keys_ok]; [|exact Hacc|done| | | |done]); try done.
  - apply map_Forall_insert_2; [done|exact Hk].
  - apply map_Forall_insert_2; [cbn [lc_directory]; set_solver|].
    intros k lc Hlc. specialize (Hf k lc Hlc). set_solver.
  - cbn [accepted_dirs]. rewrite said_accepted_app, Hsaid, fmap_app. done.
  - rewrite said_accepted_app, Hsaid. by rewrite app_nil_r.
Qed.

Lemma handleTrigger_wp request wallNow now n h w :
  node_ok cap config n h -> nextCaptureId (eventMonitor n) + 1 < 2 ^ 64 -> valid_stamp wallNow ->
  wp (handleTrigger request wallNow now n)
    (fun r _ => exists h', node_ok cap config r.2 h' /\
       nextCaptureId (eventMonitor r.2) <= nextCaptureId (eventMonitor n) + 1)
    (fun _ => False) (fun _ => True) w.
Proof.
  intros Hok Hid Hw. unfold handleTrigger.
  destruct (identify request wallNow n) as [id n0] eqn:Ei.
  assert (Hsame : node_ok cap config (unexpired (steady_now now) n0) h /\
    eventMonitor (unexpired (steady_now now) n0) = eventMonitor n).
  { unfold identify in Ei. destruct (String.eqb _ _); injection Ei as <- <-; (split; [|done]); by destruct Hok. }
  destruct Hsame as [Hok1 Hm]. set (n1 := unexpired (steady_now now) n0) in *. clearbody n1. rewrite <- Hm in *.
  assert (Hrefuse : forall message, wp (mret (refuse (rq_event_name request) id (trigger_source request) message wallNow
      (steady_now now) n1) : M _) (fun r _ => exists h', node_ok cap config r.2 h' /\
       nextCaptureId (eventMonitor r.2) <= nextCaptureId (eventMonitor n1) + 1)
    (fun _ => False) (fun _ => True) w).
  { intros message. apply wp_ret. exists h. split; [|simpl; lia]. destruct Hok1 as [? ? ? ? ? Hsaid ?].
    constructor; try done. simpl. rewrite said_accepted_app, Hsaid. by rewrite app_nil_r. }
  destruct (triggerResponses n1 !! id) as [c|]; [apply wp_ret; exists h; split; [done|simpl; lia]|].
  destruct (String.eqb _ _); [apply Hrefuse|]. destruct (negb _); [apply Hrefuse|].
  by apply trigger_capture_wp with (h := h).
Qed.

(** The sensor callbacks. *)
Lemma node_sensors_ok n h x :
  node_ok cap config n h -> intake_ok cap x ->
  exists h', node_ok cap config (with_node_sensors x n) h'.
Proof.
  intros [Hm Hac Hin Hk Hf Hsaid Httl] Hx.
  exists {| monitor := with_sensors x (monitor h); taken := taken h; accepted_dirs := accepted_dirs h |}.
  constructor; try done; [simpl; by rewrite Hm|by apply feed_accounts].
Qed.

Lemma intake_keeps en c x :
  intake_ok cap x -> intake_valid cap c -> exists x', do_intake en c x = Ok x' /\ intake_ok cap x'.
Proof.
  intros [Hb Hs] Hv. destruct (do_intake_effect cap en c x Hb Hs Hv) as (x' & cbs & E & _ & B & _ & F & _).
  exists x'. split; [done|]. split; [done|]. by eapply ce_ok.
Qed.

Lemma node_watchdog_ok n h w : node_ok cap config n h -> node_ok cap config (with_watchdog w n) h.
Proof. by intros []. Qed.

Lemma handleImage_ok image t n h :
  node_ok cap config n h -> node_valid cap (NodeImage image t) ->
  exists n' h', handleImage image t n = Ok n' /\ node_ok cap config n' h' /\
    nextCaptureId (eventMonitor n') = nextCaptureId (eventMonitor n).
Proof.
  intros Hok Hv. unfold handleImage. cbv zeta. set (n0 := with_watchdog _ n).
  destruct (intake_keeps (syncEnabled n0) (TakeImage image) (sensors (eventMonitor n0))) as (x & E & Hx);
    [apply Hok|done|]. cbn [do_intake] in E. rewrite E.
  destruct (node_sensors_ok n0 h x) as [h' Hok']; [by apply node_watchdog_ok|done|].
  by exists (with_node_sensors x n0), h'.
Qed.

Lemma handlePointCloud_ok cloud t n h :
  node_ok cap config n h -> node_valid cap (NodeCloud cloud t) ->
  exists n' h', handlePointCloud cloud t n = Ok n' /\ node_ok cap config n' h' /\
    nextCaptureId (eventMonitor n') = nextCaptureId (eventMonitor n).
Proof.
  intros Hok Hv. unfold handlePointCloud. cbv zeta. set (n0 := with_watchdog _ n).
  destruct (intake_keeps (syncEnabled n0) (TakeCloud cloud) (sensors (eventMonitor n0))) as (x & E & Hx);
    [apply Hok|done|]. cbn [do_intake] in E. rewrite E.
  destruct (node_sensors_ok n0 h x) as [h' Hok']; [by apply node_watchdog_ok|done|].
  by exists (with_node_sensors x n0), h'.
Qed.

(** A poll of the lives accepts nothing and keeps the directories. *)
Lemma poll_quiet steady wall n w :
  wp (pollEventLifecycles steady wall n) (fun n' _ => said_accepted (published n') = said_accepted (published n))
    (fun _ => False) (fun _ => True) w.
Proof.
  unfold pollEventLifecycles.
  apply (wp_for_each _ _ (fun _ n' _ => said_accepted (published n') = said_accepted (published n))); [|done].
  intros before entry rest n' w' _ Hn. unfold pollLifecycle, observe, fs_exists.
  apply wp_bind. repeat (apply wp_bind, wp_query; [| |done]).
  all: apply wp_ret; destruct (advance _ _ _ _ _ _) as [kept said] eqn:Ea; apply wp_ret;
    cbn [published publish with_lifecycles]; rewrite said_accepted_app, Hn;
    rewrite (said_nothing said), app_nil_r; [done|];
    change said with (kept, said).2; rewrite <- Ea; apply advance_quiet.
Qed.

Lemma poll_ok steady wall n h w :
  node_ok cap config n h ->
  wp (pollEventLifecycles steady wall n)
    (fun n' _ => node_ok cap config n' h /\ eventMonitor n' = eventMonitor n) (fun _ => False) (fun _ => True) w.
Proof.
  intros [Hm Hac Hin Hk Hf Hsaid Httl].
  eapply wp_post; [|apply wp_and; [by apply (poll_wp steady wall n w)|]].
  2: { eapply wp_mono; [..|apply (poll_quiet steady wall n w)]; [|done|done]. intros n' w' Hq. exact Hq. }
  intros n' w' [[f Hinv] Hq]. destruct (poll_inv_all steady wall n f n' Hk Hinv) as (Hk' & Hl & _).
  destruct (pi_rest _ _ _ _ _ _ Hinv) as [extra Hrest].
  assert (Em : eventMonitor n' = eventMonitor n) by (rewrite Hrest; done).
  assert (Et : triggerDedupeTtl n' = triggerDedupeTtl n) by (rewrite Hrest; done).
  split; [|done]. constructor; rewrite ?Em, ?Et; try done; [|by rewrite Hq].
  intros k lc' Hk1. rewrite Hl in Hk1. apply bind_Some in Hk1 as (lc & Hlc & Ha).
  apply (proj2 (advance_quiet _ _ _ _ _ _)) in Ha. rewrite Ha. by apply (Hf k).
Qed.

Lemma do_node_wp c n h w :
  node_ok cap config n h -> nextCaptureId (eventMonitor n) + 1 < 2 ^ 64 -> node_valid cap c ->
  wp (do_node c n)
    (fun n' _ => exists h', node_ok cap config n' h' /\
       nextCaptureId (eventMonitor n') <= nextCaptureId (eventMonitor n) + 1)
    (fun _ => False) (fun _ => True) w.
Proof.
  intros Hok Hid Hv. destruct c as [image t|cloud t|request wallNow now|steady wall|t|now|]; cbn [do_node].
  - destruct (handleImage_ok image t n h Hok Hv) as (n' & h' & -> & Hok' & Hn). apply wp_ret. exists h'. split; [done|lia].
  - destruct (handlePointCloud_ok cloud t n h Hok Hv) as (n' & h' & -> & Hok' & Hn). apply wp_ret. exists h'. split; [done|lia].
  - apply wp_bind. eapply wp_post; [|by apply (handleTrigger_wp request wallNow now n h)].
    intros r w' Hr. by apply wp_ret.
  - eapply wp_post; [|by apply (poll_ok steady wall n h)]. intros n' w' [Hn Em]. exists h. rewrite Em. split; [done|lia].
  - apply wp_ret. exists h. split; [by apply node_watchdog_ok|simpl; lia].
  - destruct Hok as [Hm Hac Hin Hk Hf Hsaid Httl]. rewrite <- Hm in *. apply wp_bind.
    eapply wp_post; [|apply wp_and; [apply (process_quiet flushPendingPairs (intake_ok cap) flush_keeps now); exact Hin|
      apply wp_and; [eapply (process_wp flushPendingPairs flush_exception); exact Hac|
                     apply (process_next flushPendingPairs flush_exception)]]].
    intros m w' (Hs & Ha & Hn & _). apply wp_ret.
    exists {| monitor := m; taken := taken h; accepted_dirs := accepted_dirs h |}.
    split; [|simpl; lia]. constructor; [done|exact Ha|exact Hs|exact Hk|exact Hf|exact Hsaid|exact Httl].
  - apply wp_ret. destruct Hok as [Hm Hac Hin Hk Hf Hsaid Httl].
    pose proof (do_call_wp flushPendingPairs flush_exception _ _ _ TakeJob h w Hac) as Ht.
    rewrite Hm in Ht. specialize (Ht Hid []). simpl in Ht. rewrite Hm in Ht. unfold mret, M_ret in Ht.
    destruct Ht as [Ht Hn]. destruct (look (storageWorker (eventMonitor n))) as [[|job|] worker];
      [exists h; split; [by constructor|lia]| |exists h; split; [by constructor|lia]].
    exists {| monitor := with_worker worker (eventMonitor n); taken := taken h ++ [job]; accepted_dirs := accepted_dirs h |}.
    split; [|simpl in *; lia]. constructor; [done|exact Ht|exact Hin|exact Hk|exact Hf|exact Hsaid|exact Httl].
Qed.

Lemma run_node_wp cs n h w :
  node_ok cap config n h -> 0 <= nextCaptureId (eventMonitor n) ->
  nextCaptureId (eventMonitor n) + Z.of_nat (length cs) < 2 ^ 64 -> Forall (node_valid cap) cs ->
  wp (run_node cs n) (fun n' _ => exists h', node_ok cap config n' h') (fun _ => False) (fun _ => True) w.
Proof.
  intros Hok Hid0 Hid Hv. unfold run_node.
  eapply wp_post; [|apply (wp_for_each _ _ (fun before n' _ => exists h', node_ok cap config n' h' /\
    nextCaptureId (eventMonitor n') <= nextCaptureId (eventMonitor n) + Z.of_nat (length before)))].
  - intros n' w' (h' & Hok' & _). by exists h'.
  - intros before c rest n' w' -> (h' & Hok' & Hn). rewrite length_app in Hid. simpl in Hid.
    apply Forall_app in Hv as [_ Hv]. apply Forall_cons in Hv as [Hv _].
    eapply wp_post; [|apply (do_node_wp c n' h'); [done|lia|done]].
    intros n'' w'' (h'' & Hok'' & Hn''). exists h''. split; [done|]. rewrite length_app. simpl. lia.
  - exists h. split; [done|]. simpl. lia.
Qed.

End invariant.

(** ** The claims *)

Section claims.
Context `{RclTimeSpec} `{WorkingDirectory} `{Iteration} `{NodeOrders} `{Listing}.

Lemma registerEvents_accounts config limit maxActive c m :
  accounts config limit maxActive [] (start m) -> accounts config limit maxActive [] (start (registerEvents c m)).
Proof.
  unfold registerEvents. generalize (configuredEvents c). intros names. revert m.
  induction names as [|name names IH]; intros m Hac; [done|]. apply IH. by destruct Hac.
Qed.

Lemma registerEvents_same c m :
  sensors (registerEvents c m) = sensors m /\ nextCaptureId (registerEvents c m) = nextCaptureId m.
Proof.
  unfold registerEvents. generalize (configuredEvents c). intros names. revert m.
  induction names as [|name names IH]; intros m; [done|]. apply (IH (registerEvent name name m)).
Qed.

(** The chunks of the uploads are of an accepted size. *)
Lemma createUploader_chunks config u :
  (createUploader config).2 = Some u -> 0 < chunkBytes (upload_config u) <= kMaxChunkBytes.
Proof. unfold createUploader. destruct (negb _); [done|]. intros [= <-]. unfold kMaxChunkBytes. simpl. lia. Qed.

(** C11. Once the node has started, whatever its configuration, none of its
    handlers throws or runs into undefined behaviour on messages with header
    times, and between handlers the sensor components are well-formed, the
    captures are accounted for, the accepted ones being exactly those published
    as accepted, and every event that is followed is one of them; the chunk size
    of the upload worker it starts is within its bounds. *)
Theorem node_invariant cap text now o w n uploader w1 o1 cs o' w' :
  0 <= cap <= 2 ^ 32 -> newDataCacheNode text now o w = Done (n, uploader) w1 o1 ->
  Forall (node_valid cap) cs -> Z.of_nat (length cs) < 2 ^ 64 ->
  (forall u, uploader = Some u -> 0 < chunkBytes (upload_config u) <= kMaxChunkBytes) /\
  match run_node cs n o' w' with
  | Done n' _ _ => exists h, node_ok cap (loadConfig config_order text newConfigManager).2 n' h
  | Threw _ _ | Stuck _ => False
  | Crashed _ => True
  end.
Proof.
  intros Hcap Hnew Hv Hlen. unfold newDataCacheNode, loadConfiguration in Hnew.
  destruct (loadConfig config_order text newConfigManager) as [loaded config] eqn:El. cbn [snd].
  destruct loaded; [|done]. apply bind_done in Hnew as ([? settings] & w0 & o0 & Hload & Hnew).
  injection Hload as <- <- _ _. apply bind_done in Hnew as (result & w2 & o2 & _ & Hnew).
  pose proof (createUploader_chunks config) as Hchunks.
  destruct (createUploader config) as [[uploads autoRetry] started]. injection Hnew as Hn Hu _ _.
  split; [intros u Eu; apply Hchunks; cbn; congruence|].
  assert (Hm : exists r, eventMonitor n = registerEvents config (newEventMonitor (createSensors config) config r))
    by (subst n; cbn [eventMonitor]; eauto).
  destruct Hm as [r Em]. destruct (registerEvents_same config (newEventMonitor (createSensors config) config r)) as [Es Ei].
  assert (Hok : node_ok cap config n (start (eventMonitor n))).
  { constructor; [done| | | | | |].
    - rewrite Em. apply registerEvents_accounts, start_accounts.
    - rewrite Em, Es. split; [by apply createSensors_ok|apply sync_ok_new].
    - subst n. apply map_Forall_empty.
    - subst n. apply map_Forall_empty.
    - by subst n.
    - subst n. cbn [triggerDedupeTtl]. lia. }
  assert (Hid : nextCaptureId (eventMonitor n) = 0) by (rewrite Em; exact Ei).
  pose proof (run_node_wp cap config cs n _ w' Hok ltac:(lia) ltac:(lia) Hv o') as Hr.
  by destruct (run_node cs n o' w').
Qed.

(** C12. A trigger is acted upon once: after it has been answered, and whatever
    the node does in between, the same trigger identifier gets the same answer
    until the answer expires, and nothing is captured, published or written for
    it; an answer that is not from the cache lasts for the configured time. *)
Theorem trigger_idempotent request wallNow now n o w response n1 w1 o1 cs o' w' n2 w2 o2 :
  rq_trigger_id request <> ""%string -> 0 < triggerDedupeTtl n ->
  handleTrigger request wallNow now n o w = Done (response, n1) w1 o1 ->
  exists expiry, steady_now now < expiry /\
    (triggerResponses (unexpired (steady_now now) n) !! rq_trigger_id request = None ->
       expiry = steady_now now + triggerDedupeTtl n * ns_per_ms) /\
    (Forall (fun c => forall t, call_time c = Some t -> t < expiry) cs ->
     run_node cs n1 o' w' = Done n2 w2 o2 ->
     forall request' wallNow' now', rq_trigger_id request' = rq_trigger_id request -> steady_now now' < expiry ->
       forall o3 w3, handleTrigger request' wallNow' now' n2 o3 w3 =
         Done (response, unexpired (steady_now now') n2) w3 o3).
Proof.
  intros Hid Httl (a & Hresp & Ha & Hlt & Hexp)%answer_stored; [|done..].
  exists (expiresAt a). split; [done|]. split; [done|]. intros Hcs Hr request' wallNow' now' Er Hlt' o3 w3.
  rewrite <- Hresp. apply answer_served; [congruence| |done]. rewrite Er. by eapply run_node_answer.
Qed.

End claims.

(** ** Samples *)

#[local] Instance sample_home : WorkingDirectory := { absolute d := [d] }.

#[local] Instance sample_orders : NodeOrders :=
  { config_order := map_to_list; lifecycle_order l := l; lifecycle_order_perm l := Permutation_refl l }.

Definition sample_text : option string :=
  Some (unlines ["event_names=brake"; "enable_brake_event=true"; "event_post_time=0"; "record_directory=records"]%string).

Definition sample_clock (t : Z) : Clocks := {| steady_now := t; systemNowNs := 1700000000000000000 |}.

Definition sample_request (id : string) : TriggerRequest :=
  {| rq_event_name := "brake"; rq_trigger_id := id; rq_source := "" |}.

Definition sample_started : outcome (DataCacheNode * option UploadWorker) :=
  newDataCacheNode sample_text (sample_clock 0) [] empty_world.

Definition sample_calls : list node_call :=
  [NodeImage (mkImage 1000 1 2 "mono8" 2 "px") 10; NodeTrigger (sample_request "k-1") 2000 (sample_clock 20);
   NodeWatchdog 30; NodeStorage; NodeLifecycles 40 3000].

Lemma node_invariant_witness :
  match sample_started with
  | Done (n, _) w1 _ =>
      match run_node sample_calls n [] w1 with
      | Done n' _ _ => st_status <$> published n' = [ACCEPTED] /\
          exists h, node_ok 100 (loadConfig config_order sample_text newConfigManager).2 n' h
      | _ => False
      end
  | _ => False
  end.
Proof.
  assert (Hok : match sample_started with
    | Done (n, _) w1 _ => match run_node sample_calls n [] w1 with
        | Done n' _ _ => bool_decide (st_status <$> published n' = [ACCEPTED]) | _ => false end
    | _ => false end = true) by (vm_compute; reflexivity).
  destruct sample_started as [[n uploader] w1 o1| | |] eqn:E; try discriminate.
  pose proof (node_invariant 100 sample_text (sample_clock 0) [] empty_world n uploader w1 o1 sample_calls [] w1) as Hi.
  destruct (run_node sample_calls n [] w1) as [n' w2 o2| | |]; try discriminate.
  apply bool_decide_eq_true in Hok. split; [exact Hok|].
  apply Hi; [lia|exact E| |vm_compute; reflexivity].
  repeat constructor; vm_compute; discriminate.
Defined.

Lemma trigger_idempotent_witness :
  match sample_started with
  | Done (n, _) w1 _ =>
      match handleTrigger (sample_request "k-1") 2000 (sample_clock 20) n [] w1 with
      | Done (response, n1) w2 _ => rs_success response = true /\
          handleTrigger (sample_request "k-1") 9000 (sample_clock 70) n1 [] w2 =
            Done (response, unexpired 70 n1) w2 []
      | _ => False
      end
  | _ => False
  end.
Proof.
  assert (Hok : match sample_started with
    | Done (n, _) w1 _ =>
        match handleTrigger (sample_request "k-1") 2000 (sample_clock 20) n [] w1 with
        | Done (response, n1) _ _ => rs_success response && (triggerDedupeTtl n =? 60000) &&
            bool_decide (triggerResponses (unexpired 20 n) !! "k-1"%string = None :> option _)
        | _ => false end
    | _ => false end = true) by (vm_compute; reflexivity).
  destruct sample_started as [[n uploader] w1 o1| | |]; try discriminate.
  destruct (handleTrigger (sample_request "k-1") 2000 (sample_clock 20) n [] w1) as [[response n1] w2 o2| | |] eqn:E;
    try discriminate.
  apply andb_prop in Hok as [[Hs Httl%Z.eqb_eq]%andb_prop Hnone%bool_decide_eq_true].
  split; [exact Hs|].
  destruct (trigger_idempotent (sample_request "k-1") 2000 (sample_clock 20) n [] w1 response n1 w2 o2 [] [] w2 n1 w2 [])
    as (expiry & Hlt & Hexp & Hsame).
  - discriminate.
  - rewrite Httl. reflexivity.
  - exact E.
  - apply (Hsame (Forall_nil_2 _) eq_refl); [reflexivity|]. rewrite (Hexp Hnone), Httl. reflexivity.
Defined.
