(* ===== verification/RouterNode.v ===== *)
(** * RouterNode: the node that forwards event signals

    Models src/src/event_router_node.cc.  A signal is checked, completed,
    reported, put to the policy of RouterPolicy.v and sent on as a request; the
    answer to a request comes as a call of its own.  What is published and what
    is sent are kept as lists; the completed signal a callback holds stands for
    the request that waits for its answer. *)

From S2P Require Import Prelude Text RouterPolicy TriggerPolicy Monitor Node.

(** ** Messages and state *)

(** [msg/EventSignal.msg]. *)
Record EventSignal := {
  sg_event_name : string;
  sg_trigger_id : string;
  sg_source : string;
  sg_occurred_at : Z
}.

#[export] Instance EventSignal_eq_dec : EqDecision EventSignal.
Proof. solve_decision. Defined.

Record EventRouterNode := mkRouter {
  policy_ : EventRouterPolicy;
  router_nextTriggerId : Z;
  router_statuses : list EventStatus;
  router_requests : list TriggerRequest;
  waiting : list EventSignal
}.

(** The constructor: the lower bounds of the two parameters. *)
Definition newEventRouterNode (dedupe_ttl_ms cooldown_ms : Z) : EventRouterNode :=
  mkRouter (newPolicy (Z.max 1 dedupe_ttl_ms) (Z.max 0 cooldown_ms)) 0 [] [] [].

Definition with_policy (p : EventRouterPolicy) (n : EventRouterNode) : EventRouterNode :=
  mkRouter p (router_nextTriggerId n) (router_statuses n) (router_requests n) (waiting n).
Definition with_next_id (i : Z) (n : EventRouterNode) : EventRouterNode :=
  mkRouter (policy_ n) i (router_statuses n) (router_requests n) (waiting n).
Definition with_waiting (l : list EventSignal) (n : EventRouterNode) : EventRouterNode :=
  mkRouter (policy_ n) (router_nextTriggerId n) (router_statuses n) (router_requests n) l.

(** ** Operations *)

(** The message [publishStatus] sends; it leaves the capture and the directory empty. *)
Definition signalStatus (signal : EventSignal) (status : Status) (message : string) (wallNow : Z) : EventStatus :=
  {| st_status := status; st_event_name := sg_event_name signal; st_trigger_id := sg_trigger_id signal;
     st_source := sg_source signal; st_capture_id := ""; st_record_directory := "";
     st_message := message; st_updated_at := wallNow |}.

Definition publishStatus (signal : EventSignal) (status : Status) (message : string) (wallNow : Z)
    (n : EventRouterNode) : EventRouterNode :=
  mkRouter (policy_ n) (router_nextTriggerId n) (router_statuses n ++ [signalStatus signal status message wallNow])
    (router_requests n) (waiting n).

Definition request_of (signal : EventSignal) : TriggerRequest :=
  {| rq_event_name := sg_event_name signal; rq_trigger_id := sg_trigger_id signal; rq_source := sg_source signal |}.

Definition sendRequest (signal : EventSignal) (n : EventRouterNode) : EventRouterNode :=
  mkRouter (policy_ n) (router_nextTriggerId n) (router_statuses n) (router_requests n ++ [request_of signal])
    (waiting n ++ [signal]).

(** The source and the identifier of a signal that has none. *)
Definition completeSignal (signal : EventSignal) (wallNow : Z) (n : EventRouterNode)
    : EventSignal * EventRouterNode :=
  let source := or_default (sg_source signal) "unknown" in
  if String.eqb (sg_trigger_id signal) "" then
    ({| sg_event_name := sg_event_name signal;
        sg_trigger_id := source +:+ "-" +:+ to_string wallNow +:+ "-" +:+ to_string (router_nextTriggerId n);
        sg_source := source; sg_occurred_at := sg_occurred_at signal |},
     with_next_id (u64 (router_nextTriggerId n + 1)) n)
  else
    ({| sg_event_name := sg_event_name signal; sg_trigger_id := sg_trigger_id signal;
        sg_source := source; sg_occurred_at := sg_occurred_at signal |}, n).

Definition route (signal : EventSignal) (ready : bool) (wallNow steadyNow : Z) (n : EventRouterNode)
    : EventRouterNode :=
  if negb (validEventName (sg_event_name signal)) then
    publishStatus signal REJECTED "invalid event name" wallNow n
  else
    let '(signal, n) := completeSignal signal wallNow n in
    let n := publishStatus signal RECEIVED "event received" wallNow n in
    if negb ready then publishStatus signal REJECTED "trigger service unavailable" wallNow n
    else
      let '(decision, p) := evaluate (sg_event_name signal) (sg_trigger_id signal) steadyNow (policy_ n) in
      let n := with_policy p n in
      match decision with
      | Duplicate => publishStatus signal REJECTED "duplicate trigger_id" wallNow n
      | CoolingDown => publishStatus signal REJECTED "event is cooling down" wallNow n
      | Accept => sendRequest signal n
      end.

(** What [future.get()] gives: a response, or the text of an exception. *)
Definition Outcome := (TriggerResponse + string)%type.

Definition succeeded (outcome : Outcome) : bool :=
  match outcome with inl response => rs_success response | inr _ => false end.

(** The other requests that wait, when [signal]'s does. *)
Fixpoint take_out (signal : EventSignal) (l : list EventSignal) : option (list EventSignal) :=
  match l with
  | [] => None
  | s :: l => if bool_decide (s = signal) then Some l else cons s <$> take_out signal l
  end.

(** The callback of a request; it runs once for each request. *)
Definition onResponse (signal : EventSignal) (outcome : Outcome) (wallNow : Z) (n : EventRouterNode)
    : EventRouterNode :=
  match take_out signal (waiting n) with
  | None => n
  | Some others =>
      let n := with_waiting others n in
      match outcome with
      | inl response =>
          if negb (rs_success response) then with_policy (release (sg_trigger_id signal) (policy_ n)) n else n
      | inr what =>
          publishStatus signal REJECTED ("trigger RPC failed: " +:+ what) wallNow
            (with_policy (release (sg_trigger_id signal) (policy_ n)) n)
      end
  end.

(** ** Runs *)

Inductive route_call :=
| Signal (signal : EventSignal) (ready : bool) (wallNow steadyNow : Z)
| Response (signal : EventSignal) (outcome : Outcome) (wallNow : Z).

Definition call_routing (n : EventRouterNode) (c : route_call) : EventRouterNode :=
  match c with
  | Signal signal ready wallNow steadyNow => route signal ready wallNow steadyNow n
  | Response signal outcome wallNow => onResponse signal outcome wallNow n
  end.

Definition run_routing (n : EventRouterNode) (cs : list route_call) : EventRouterNode := fold_left call_routing cs n.

(** The steady clock of the calls does not go back. *)
Fixpoint in_time (t : Z) (cs : list route_call) : Prop :=
  match cs with
  | [] => True
  | Signal _ _ _ now :: cs' => t <= now /\ in_time now cs'
  | Response _ _ _ :: cs' => in_time t cs'
  end.

Fixpoint last_time (t : Z) (cs : list route_call) : Z :=
  match cs with
  | [] => t
  | Signal _ _ _ now :: cs' => last_time now cs'
  | Response _ _ _ :: cs' => last_time t cs'
  end.

(** No request with this identifier is answered with a failure. *)
Definition no_failure (triggerId : string) (cs : list route_call) : Prop :=
  Forall (fun c => match c with
                   | Response signal outcome _ => sg_trigger_id signal = triggerId -> succeeded outcome = true
                   | _ => True
                   end) cs.

(** ** The node and its policy *)

(** The calls of the policy behind a call of the node. *)
Definition policy_calls (n : EventRouterNode) (c : route_call) : list router_call :=
  match c with
  | Signal signal ready wallNow steadyNow =>
      let signal' := (completeSignal signal wallNow n).1 in
      if validEventName (sg_event_name signal) && ready
      then [Evaluate (sg_event_name signal') (sg_trigger_id signal') steadyNow] else []
  | Response signal outcome _ =>
      if bool_decide (signal ∈ waiting n) && negb (succeeded outcome) then [Release (sg_trigger_id signal)] else []
  end.

Fixpoint policy_history (n : EventRouterNode) (cs : list route_call) : list router_call :=
  match cs with [] => [] | c :: cs' => policy_calls n c ++ policy_history (call_routing n c) cs' end.

Lemma completeSignal_policy signal wallNow n : policy_ (completeSignal signal wallNow n).2 = policy_ n.
Proof. unfold completeSignal. by destruct (String.eqb _ _). Qed.

Lemma completeSignal_name signal wallNow n :
  sg_event_name (completeSignal signal wallNow n).1 = sg_event_name signal.
Proof. unfold completeSignal. by destruct (String.eqb _ _). Qed.

Lemma completeSignal_id signal wallNow n :
  sg_trigger_id signal <> "" -> sg_trigger_id (completeSignal signal wallNow n).1 = sg_trigger_id signal.
Proof. unfold completeSignal. by intros ->%String.eqb_neq. Qed.

(** What a signal that is put to the policy leads to. *)
Lemma route_ready signal wallNow steadyNow n :
  validEventName (sg_event_name signal) = true ->
  let '(s, n1) := completeSignal signal wallNow n in
  let n2 := publishStatus s RECEIVED "event received" wallNow n1 in
  let r := evaluate (sg_event_name s) (sg_trigger_id s) steadyNow (policy_ n) in
  route signal true wallNow steadyNow n =
    match r.1 with
    | Duplicate => publishStatus s REJECTED "duplicate trigger_id" wallNow (with_policy r.2 n2)
    | CoolingDown => publishStatus s REJECTED "event is cooling down" wallNow (with_policy r.2 n2)
    | Accept => sendRequest s (with_policy r.2 n2)
    end.
Proof.
  intros Hv. unfold route. rewrite Hv. cbn [negb].
  pose proof (completeSignal_policy signal wallNow n) as Hp.
  destruct (completeSignal signal wallNow n) as [s n1]. cbn [snd] in Hp. cbv zeta.
  cbn [publishStatus policy_]. rewrite Hp. by destruct (evaluate _ _ _ _).
Qed.

Lemma take_out_elem signal l : is_Some (take_out signal l) <-> signal ∈ l.
Proof.
  induction l as [|x l IH]; simpl; [rewrite elem_of_nil; by split; [intros []|]|].
  rewrite elem_of_cons. case_bool_decide as Hx; [naive_solver|].
  rewrite fmap_is_Some, IH. naive_solver.
Qed.

Lemma onResponse_absent signal outcome wallNow n :
  signal ∉ waiting n -> onResponse signal outcome wallNow n = n.
Proof.
  unfold onResponse. rewrite <- take_out_elem. destruct (take_out signal (waiting n)); [|done].
  intros []. eauto.
Qed.

(** The node drives its policy through these calls and no others. *)
Lemma call_routing_policy n c : policy_ (call_routing n c) = run_router (policy_ n) (policy_calls n c).
Proof.
  destruct c as [signal ready wallNow steadyNow|signal outcome wallNow]; simpl.
  - destruct (validEventName (sg_event_name signal)) eqn:Hv; simpl; [|unfold route; by rewrite Hv].
    destruct ready; simpl.
    + pose proof (route_ready signal wallNow steadyNow n Hv) as Hr.
      destruct (completeSignal signal wallNow n) as [s n1]. cbv zeta in Hr. rewrite Hr. simpl.
      by destruct (evaluate _ _ _ _) as [[] p].
    + unfold route. rewrite Hv. simpl. pose proof (completeSignal_policy signal wallNow n) as Hp.
      by destruct (completeSignal signal wallNow n).
  - case_bool_decide as Hw; simpl; [|by rewrite onResponse_absent].
    unfold onResponse. apply take_out_elem in Hw as [k ->].
    destruct outcome as [response|what]; simpl; [by destruct (rs_success response)|done].
Qed.

Lemma run_routing_policy n cs : policy_ (run_routing n cs) = run_router (policy_ n) (policy_history n cs).
Proof.
  revert n. induction cs as [|c cs IH]; intros n; [done|].
  unfold run_router. cbn [policy_history]. rewrite fold_left_app. change (fold_left call_router) with
    (fun cs p => run_router p cs). cbv beta. fold (run_router (policy_ n) (policy_calls n c)).
  rewrite <- call_routing_policy. apply IH.
Qed.

Lemma policy_history_time n cs t t' :
  in_time t' cs -> t <= t' ->
  monotone t (policy_history n cs) /\ end_time t (policy_history n cs) <= last_time t' cs.
Proof.
  revert n t t'. induction cs as [|[signal ready wall now|signal outcome wall] cs IH]; intros n t t' Hm Ht.
  - by split.
  - destruct Hm as [Ht' Hm]. cbn [policy_history policy_calls last_time].
    destruct (validEventName _ && ready); cbn [app monotone end_time].
    + destruct (IH (call_routing n (Signal signal ready wall now)) now now Hm); [lia|]. split; [split; [lia|done]|done].
    + apply (IH (call_routing n (Signal signal ready wall now)) t now Hm). lia.
  - cbn [policy_history policy_calls last_time in_time] in *.
    destruct (bool_decide _ && _); cbn [app monotone end_time]; by apply IH.
Qed.

Lemma policy_history_failure id n cs : no_failure id cs -> never_releases id (policy_history n cs).
Proof.
  unfold never_releases. revert n. induction cs as [|c cs IH]; intros n Hf; [set_solver|].
  apply Forall_cons in Hf as [Hc Hf]. cbn [policy_history]. rewrite elem_of_app.
  intros [Hin|Hin]; [|by apply IH in Hin].
  destruct c as [signal ready wall now|signal outcome wall]; cbn [policy_calls] in Hin.
  - destruct (_ && _); set_solver.
  - case_bool_decide; [|set_solver]. destruct (succeeded outcome) eqn:Hs; [set_solver|]. cbn in Hin.
    apply list_elem_of_singleton in Hin. injection Hin as ->. by specialize (Hc eq_refl).
Qed.

(** A signal leads to a request exactly when the policy accepts it. *)
Definition requests_made (n n' : EventRouterNode) : list TriggerRequest :=
  drop (length (router_requests n)) (router_requests n').

Lemma drop_length_nil {A} (l : list A) : drop (length l) l = [].
Proof. by rewrite drop_all. Qed.

Lemma route_requests signal ready wallNow steadyNow n r :
  requests_made n (route signal ready wallNow steadyNow n) = [r] ->
  policy_calls n (Signal signal ready wallNow steadyNow) =
    [Evaluate (rq_event_name r) (rq_trigger_id r) steadyNow] /\
  (evaluate (rq_event_name r) (rq_trigger_id r) steadyNow (policy_ n)).1 = Accept /\
  policy_ (route signal ready wallNow steadyNow n) =
    (evaluate (rq_event_name r) (rq_trigger_id r) steadyNow (policy_ n)).2.
Proof.
  cbn [policy_calls]. unfold requests_made. destruct (validEventName (sg_event_name signal)) eqn:Hv.
  2: { unfold route. rewrite Hv. simpl. by rewrite drop_length_nil. }
  assert (Hn : router_requests (completeSignal signal wallNow n).2 = router_requests n).
  { unfold completeSignal. by destruct (String.eqb _ _). }
  destruct ready.
  - pose proof (route_ready signal wallNow steadyNow n Hv) as Hr.
    destruct (completeSignal signal wallNow n) as [s n1]. cbv zeta in Hr. rewrite Hr. cbn [snd fst] in *.
    destruct (evaluate _ _ _ _) as [[] p] eqn:Ee; cbn [fst snd sendRequest publishStatus with_policy router_requests];
      rewrite Hn, ?drop_length_nil, ?drop_app_length; [|done..].
    intros [= <-]. cbn. rewrite Ee. done.
  - unfold route. rewrite Hv. cbn [negb]. destruct (completeSignal signal wallNow n) as [s n1].
    cbn [snd] in Hn. cbn. by rewrite Hn, drop_length_nil.
Qed.

(** C36. The router never repeats itself: along any run of the node with a clock
    that does not go back, once a signal has led to a request, and unless that
    request is answered with a failure, a request with the same identifier is
    sent only when the deduplication time has passed, and a request for the same
    event only when the cool-down has passed. *)
Theorem requests_paced ttl cooldown t0 before s1 ready1 wall1 now1 r1 between s2 ready2 wall2 now2 r2 :
  let n1 := run_routing (newEventRouterNode ttl cooldown) before in
  let n1' := route s1 ready1 wall1 now1 n1 in
  let n2 := run_routing n1' between in
  in_time t0 before -> last_time t0 before <= now1 ->
  in_time now1 between -> last_time now1 between <= now2 ->
  requests_made n1 n1' = [r1] ->
  no_failure (rq_trigger_id r1) between ->
  requests_made n2 (route s2 ready2 wall2 now2 n2) = [r2] ->
  (rq_trigger_id r2 = rq_trigger_id r1 -> Z.max 1 ttl * ns_per_ms <= now2 - now1) /\
  (rq_event_name r2 = rq_event_name r1 -> Z.max 0 cooldown * ns_per_ms <= now2 - now1).
Proof.
  intros n1 n1' n2 Hb Hb1 Hm Hm2 (_ & Ha1 & Hp1)%route_requests Hf (_ & Ha2 & _)%route_requests.
  fold n1' in Hp1.
  destruct (policy_history_time (newEventRouterNode ttl cooldown) before t0 t0 Hb ltac:(lia)) as [Hb2 Hb3].
  destruct (policy_history_time n1' between now1 now1 Hm ltac:(lia)) as [Hm3 Hm4].
  apply (policy_history_failure _ n1') in Hf.
  unfold n2 in Ha2. rewrite run_routing_policy, Hp1 in Ha2.
  unfold n1 in Ha1, Ha2. rewrite run_routing_policy in Ha1, Ha2. split; intros E; rewrite E in Ha2.
  - destruct (Z.le_gt_cases (Z.max 1 ttl * ns_per_ms) (now2 - now1)) as [|Hlt]; [done|exfalso].
    rewrite (accepted_trigger_deduplicated _ _ _ _ _ (rq_event_name r2) now2 Ha1 Hm3 Hf) in Ha2; [done|].
    rewrite run_router_ttl. cbn [newEventRouterNode policy_ newPolicy dedupeTtl_]. lia.
  - eapply accepted_events_spaced; [exact Hb2| |exact Ha1|exact Hm3|exact Hf| |exact Ha2]; lia.
Qed.

Definition sample_signal (name id : string) : EventSignal :=
  {| sg_event_name := name; sg_trigger_id := id; sg_source := "test"; sg_occurred_at := 0 |}.

Lemma requests_paced_witness :
  let later := run_routing (route (sample_signal "brake" "t1") true 7 10 (newEventRouterNode 1 2))
                 [Signal (sample_signal "brake" "t2") true 8 20; Signal (sample_signal "" "t3") true 9 30] in
  requests_made later (route (sample_signal "brake" "t1") true 11 3000000 later) =
    [request_of (sample_signal "brake" "t1")] /\
  Z.max 1 1 * ns_per_ms <= 3000000 - 10.
Proof.
  split; [vm_compute; reflexivity|].
  apply (requests_paced 1 2 0 [] (sample_signal "brake" "t1") true 7 10 (request_of (sample_signal "brake" "t1"))
    [Signal (sample_signal "brake" "t2") true 8 20; Signal (sample_signal "" "t3") true 9 30]
    (sample_signal "brake" "t1") true 11 3000000 (request_of (sample_signal "brake" "t1")));
    try (vm_compute; reflexivity); try (vm_compute; congruence).
  - vm_compute. repeat split; congruence.
  - repeat constructor.
Defined.
