(* ===== verification/TriggerNode.v ===== *)
(** * TriggerNode: the node that forwards trigger requests

    Models src/src/event_trigger_node.cc: the service that passes a request on to
    the data cache node and waits for the answer, and the timer that sends
    triggers of its own.  The requests sent are kept as a list; what the client
    library reports is an argument. *)

From S2P Require Import Prelude Text Monitor Node RouterNode.

Record EventTriggerNode := mkTriggerNode {
  interval : Z;                        (* seconds *)
  eventName_ : string;
  trigger_requests : list TriggerRequest
}.

Definition newEventTriggerNode (interval : Z) (event_name : string) : EventTriggerNode :=
  mkTriggerNode interval event_name [].

Definition send_request (request : TriggerRequest) (n : EventTriggerNode) : EventTriggerNode :=
  mkTriggerNode (interval n) (eventName_ n) (trigger_requests n ++ [request]).

Definition failure_response (message : string) : TriggerResponse :=
  {| rs_success := false; rs_message := message; rs_capture_id := ""; rs_record_directory := "" |}.

Definition forwarded_request (incoming : TriggerRequest) (n : EventTriggerNode) : TriggerRequest :=
  {| rq_event_name := or_default (rq_event_name incoming) (eventName_ n);
     rq_trigger_id := rq_trigger_id incoming;
     rq_source := or_default (rq_source incoming) "request_trigger" |}.

(** [available] is what [wait_for_service] returns, [outcome] the state of the
    future after the wait: nothing when it is not ready. *)
Definition forwardTrigger (incoming : TriggerRequest) (available : bool) (outcome : option Outcome)
    (n : EventTriggerNode) : TriggerResponse * EventTriggerNode :=
  if negb available then (failure_response "Failed to reach datacache_node", n)
  else
    let n := send_request (forwarded_request incoming n) n in
    match outcome with
    | None => (failure_response "Timed out waiting for datacache_node", n)
    | Some (inl response) => (response, n)
    | Some (inr what) => (failure_response ("Trigger RPC failed: " +:+ what), n)
    end.

Definition sendTriggerAsync (eventName : string) (ready : bool) (n : EventTriggerNode) : bool * EventTriggerNode :=
  if negb ready then (false, n)
  else (true, send_request {| rq_event_name := eventName; rq_trigger_id := ""; rq_source := "event_trigger_timer" |} n).

(** The timer, which exists when the interval is positive. *)
Definition onTimer (ready : bool) (n : EventTriggerNode) : EventTriggerNode :=
  if interval n >? 0 then (sendTriggerAsync (eventName_ n) ready n).2 else n.
