(* ===== verification/Keyboard.v ===== *)
(** * Keyboard: the node that turns key presses into event signals

    Models src/src/keyboard_trigger_node.cc: the start-up, the thread that reads
    the terminal, the keys with their debouncing, and the triggers that are
    pending until a status message or their age closes them.  What the calls of
    the operating system return is given to the reading loop as a list of
    rounds; the terminal's mode is not modelled. *)

From S2P Require Import Prelude Text TriggerPolicy Node RouterNode.

(** ** State *)

Record PendingEntry := { pe_key : ascii; pe_eventName : string; createdAt : Z }.

Record KeyboardTriggerNode := mkKeyboard {
  bindings_ : gmap ascii string;
  debouncer_ : QuietPeriodDebouncer;
  quitKey_ : ascii;
  waitForUpload_ : bool;
  pendingTimeout_ : Z;                 (* milliseconds *)
  pending_ : gmap string PendingEntry;
  keyboard_nextTriggerId : Z;
  signals : list EventSignal;          (* what has been published *)
  running : bool                       (* [rclcpp::ok()] *)
}.

Definition nul : ascii := "000"%char.

(** The constructor: it throws when no binding is valid. *)
Definition newKeyboardTriggerNode (key_bindings : list string) (release_quiet_ms : Z) (quit_key : string)
    (wait_for_upload : bool) (pending_timeout_ms : Z) : res KeyboardTriggerNode :=
  let bindings := parseKeyBindings key_bindings in
  if bool_decide (bindings = ∅) then Err Exception
  else Ok (mkKeyboard bindings (newDebouncer (Z.max 1 release_quiet_ms))
             (match quit_key with EmptyString => nul | String front _ => front end)
             wait_for_upload (Z.max 1000 pending_timeout_ms) ∅ 0 [] true).

Definition with_debouncer (d : QuietPeriodDebouncer) (n : KeyboardTriggerNode) : KeyboardTriggerNode :=
  mkKeyboard (bindings_ n) d (quitKey_ n) (waitForUpload_ n) (pendingTimeout_ n) (pending_ n)
    (keyboard_nextTriggerId n) (signals n) (running n).
Definition with_pending (m : gmap string PendingEntry) (n : KeyboardTriggerNode) : KeyboardTriggerNode :=
  mkKeyboard (bindings_ n) (debouncer_ n) (quitKey_ n) (waitForUpload_ n) (pendingTimeout_ n) m
    (keyboard_nextTriggerId n) (signals n) (running n).
Definition shutdown (n : KeyboardTriggerNode) : KeyboardTriggerNode :=
  mkKeyboard (bindings_ n) (debouncer_ n) (quitKey_ n) (waitForUpload_ n) (pendingTimeout_ n) (pending_ n)
    (keyboard_nextTriggerId n) (signals n) false.

(** ** Keys *)

Definition keyboardId (wallNow id : Z) : string :=
  "keyboard-" +:+ to_string wallNow +:+ "-" +:+ to_string id.

Definition sendTrigger (key : ascii) (eventName : string) (wallNow steadyNow : Z) (n : KeyboardTriggerNode)
    : KeyboardTriggerNode :=
  let signal := {| sg_event_name := eventName; sg_trigger_id := keyboardId wallNow (keyboard_nextTriggerId n);
                   sg_source := "keyboard"; sg_occurred_at := wallNow |} in
  mkKeyboard (bindings_ n) (debouncer_ n) (quitKey_ n) (waitForUpload_ n) (pendingTimeout_ n)
    (<[sg_trigger_id signal := {| pe_key := key; pe_eventName := eventName; createdAt := steadyNow |}]> (pending_ n))
    (u64 (keyboard_nextTriggerId n + 1)) (signals n ++ [signal]) (running n).

Definition handleKey (key : ascii) (wallNow steadyNow : Z) (n : KeyboardTriggerNode) : KeyboardTriggerNode :=
  if negb (Ascii.eqb (quitKey_ n) nul) && Ascii.eqb key (quitKey_ n) then shutdown n
  else
    match bindings_ n !! key with
    | None => n
    | Some eventName =>
        let '(accepted, d) := accept key steadyNow (debouncer_ n) in
        let n := with_debouncer d n in
        if negb accepted then n else sendTrigger key eventName wallNow steadyNow n
    end.

(** A key with the times at which it is handled. *)
Record KeyPress := { kp_key : ascii; kp_wall : Z; kp_steady : Z }.

Definition press (n : KeyboardTriggerNode) (k : KeyPress) : KeyboardTriggerNode :=
  handleKey (kp_key k) (kp_wall k) (kp_steady k) n.

(** What [select] and [read] give in one round of the loop. *)
Inductive Round :=
| SelectFailed (interrupted : bool)
| NothingReady
| ReadFailed (retry : bool)
| EndOfInput
| Keys (input : list KeyPress).

Fixpoint readInput (rounds : list Round) (n : KeyboardTriggerNode) : KeyboardTriggerNode :=
  match rounds with
  | [] => n
  | round :: rounds =>
      if negb (running n) then n else
      match round with
      | SelectFailed interrupted => if interrupted then readInput rounds n else n
      | NothingReady => readInput rounds n
      | ReadFailed retry => if retry then readInput rounds n else n
      | EndOfInput => n
      | Keys input => readInput rounds (fold_left press input n)
      end
  end.

(** ** Pending triggers *)

(** A status after which nothing more is expected. *)
Definition closing (waitForUpload : bool) (status : Status) : bool :=
  match status with
  | STORED => negb waitForUpload
  | UPLOADED | REJECTED | RECORD_FAILED | UPLOAD_FAILED => true
  | RECEIVED | ACCEPTED | UPLOAD_RETRYING => false
  end.

Definition handleStatus (status : EventStatus) (n : KeyboardTriggerNode) : KeyboardTriggerNode :=
  match pending_ n !! st_trigger_id status with
  | None => n
  | Some _ =>
      if closing (waitForUpload_ n) (st_status status)
      then with_pending (delete (st_trigger_id status) (pending_ n)) n else n
  end.

Definition prunePending (steadyNow : Z) (n : KeyboardTriggerNode) : KeyboardTriggerNode :=
  let cutoff := steadyNow - pendingTimeout_ n * ns_per_ms in
  with_pending (filter (fun item : string * PendingEntry => cutoff <= createdAt item.2) (pending_ n)) n.

(** ** Runs *)

Inductive keyboard_call :=
| Press (k : KeyPress)
| StatusMessage (status : EventStatus)
| PruneTimer (steadyNow : Z).

Definition call_keyboard (n : KeyboardTriggerNode) (c : keyboard_call) : KeyboardTriggerNode :=
  match c with
  | Press k => press n k
  | StatusMessage status => handleStatus status n
  | PruneTimer steadyNow => prunePending steadyNow n
  end.

Definition run_keyboard (n : KeyboardTriggerNode) (cs : list keyboard_call) : KeyboardTriggerNode :=
  fold_left call_keyboard cs n.

Definition presses (cs : list keyboard_call) : list KeyPress :=
  omap (fun c => match c with Press k => Some k | _ => None end) cs.

(** ** What a call changes *)

Lemma keyboardId_inj w1 w2 i1 i2 :
  0 <= i1 -> 0 <= i2 -> keyboardId w1 i1 = keyboardId w2 i2 -> i1 = i2.
Proof.
  unfold keyboardId. intros H1 H2 E.
  assert (Hcut : forall w i, 0 <= i ->
    cut_last "-" ("keyboard-" +:+ to_string w +:+ "-" +:+ to_string i) =
      Some ("keyboard-" +:+ to_string w, to_string i)).
  { intros w i Hi. change ("-" +:+ to_string i) with (String "-" (to_string i)). rewrite <- app_assoc_str.
    apply cut_last_app, (lacks_of_class isdigit); [done|]. by apply to_string_nonneg. }
  pose proof (Hcut w1 i1 H1) as C. rewrite E, Hcut in C by done.
  injection C as _ C. symmetry in C. by apply to_string_inj.
Qed.

(** A press that publishes. *)
Record published_by (k : KeyPress) (eventName : string) (n n' : KeyboardTriggerNode) (s : EventSignal) : Prop := {
  pu_signal : s = {| sg_event_name := eventName;
                     sg_trigger_id := keyboardId (kp_wall k) (keyboard_nextTriggerId n);
                     sg_source := "keyboard"; sg_occurred_at := kp_wall k |};
  pu_signals : signals n' = signals n ++ [s];
  pu_next : keyboard_nextTriggerId n' = u64 (keyboard_nextTriggerId n + 1);
  pu_pending : pending_ n' = <[sg_trigger_id s := {| pe_key := kp_key k; pe_eventName := eventName;
                                                     createdAt := kp_steady k |}]> (pending_ n)
}.

(** A call that publishes nothing. *)
Definition silent (n n' : KeyboardTriggerNode) : Prop :=
  signals n' = signals n /\ keyboard_nextTriggerId n' = keyboard_nextTriggerId n.

(** Whether a key has a function of its own. *)
Definition bound (n : KeyboardTriggerNode) (key : ascii) : option string :=
  if negb (Ascii.eqb (quitKey_ n) nul) && Ascii.eqb key (quitKey_ n) then None else bindings_ n !! key.

Definition same_setup (n n' : KeyboardTriggerNode) : Prop :=
  bindings_ n' = bindings_ n /\ quitKey_ n' = quitKey_ n /\ waitForUpload_ n' = waitForUpload_ n /\
  pendingTimeout_ n' = pendingTimeout_ n /\ quietPeriod (debouncer_ n') = quietPeriod (debouncer_ n).

Lemma press_spec n k :
  same_setup n (press n k) /\
  match bound n (kp_key k) with
  | None => silent n (press n k) /\ pending_ (press n k) = pending_ n /\ debouncer_ (press n k) = debouncer_ n
  | Some eventName =>
      let '(accepted, d) := accept (kp_key k) (kp_steady k) (debouncer_ n) in
      debouncer_ (press n k) = d /\
      if accepted : bool then exists s, published_by k eventName n (press n k) s
      else silent n (press n k) /\ pending_ (press n k) = pending_ n
  end.
Proof.
  unfold press, handleKey, bound, same_setup, silent.
  destruct (negb _ && _); [done|]. destruct (bindings_ n !! kp_key k) as [e|]; [|done].
  unfold accept. destruct (lastInput (debouncer_ n) !! kp_key k) as [found|]; simpl; [destruct (_ >=? _)|];
    simpl; split; try done; split; try done; eexists; by constructor.
Qed.

Lemma handleStatus_spec st n :
  same_setup n (handleStatus st n) /\ silent n (handleStatus st n) /\
  debouncer_ (handleStatus st n) = debouncer_ n /\
  forall id, pending_ (handleStatus st n) !! id =
    if bool_decide (id = st_trigger_id st) && closing (waitForUpload_ n) (st_status st)
    then None else pending_ n !! id.
Proof.
  unfold handleStatus. destruct (pending_ n !! st_trigger_id st) as [e|] eqn:He.
  - destruct (closing _ _); (split_and!; [done..|]); intros id; case_bool_decide; simplify_eq; simpl; try done.
    + by rewrite lookup_delete_eq.
    + by rewrite lookup_delete_ne.
  - split_and!; try done. intros id. case_bool_decide; simplify_eq; [|done]. by destruct (closing _ _).
Qed.

Lemma prunePending_spec t n :
  same_setup n (prunePending t n) /\ silent n (prunePending t n) /\
  debouncer_ (prunePending t n) = debouncer_ n /\
  forall id, pending_ (prunePending t n) !! id =
    match pending_ n !! id with
    | Some e => if t - pendingTimeout_ n * ns_per_ms <=? createdAt e then Some e else None
    | None => None
    end.
Proof.
  split_and!; try done. intros id. unfold prunePending. simpl. rewrite map_lookup_filter.
  destruct (pending_ n !! id) as [e|]; [|done]. simpl.
  case_guard; simpl; destruct (Z.leb_spec (t - pendingTimeout_ n * ns_per_ms) (createdAt e)); done || lia.
Qed.

Lemma call_keyboard_setup n c : same_setup n (call_keyboard n c).
Proof.
  destruct c as [k|st|t]; [apply press_spec|apply handleStatus_spec|apply prunePending_spec].
Qed.

Lemma run_keyboard_setup n cs : same_setup n (run_keyboard n cs).
Proof.
  unfold run_keyboard. revert n. induction cs as [|c cs IH]; intros n; [done|]. cbn [fold_left].
  destruct (IH (call_keyboard n c)) as (E1 & E2 & E3 & E4 & E5), (call_keyboard_setup n c) as (F1 & F2 & F3 & F4 & F5).
  split_and!; congruence.
Qed.

Lemma bound_same n n' key : same_setup n n' -> bound n' key = bound n key.
Proof. unfold bound. by intros (-> & -> & _). Qed.

(** ** Identifiers *)

(** The signals so far are numbered, and every pending trigger is one of them. *)
Record numbered (n : KeyboardTriggerNode) : Prop := {
  nu_next : keyboard_nextTriggerId n = Z.of_nat (length (signals n));
  nu_ids : forall i s, signals n !! i = Some s -> exists w, sg_trigger_id s = keyboardId w (Z.of_nat i);
  nu_pending : forall id, is_Some (pending_ n !! id) -> id ∈ sg_trigger_id <$> signals n;
  nu_valid : Forall (fun s => sg_source s = "keyboard" /\
               exists key, bindings_ n !! key = Some (sg_event_name s)) (signals n)
}.

Lemma numbered_press n k :
  numbered n -> Z.of_nat (length (signals n)) + 1 < 2 ^ 64 -> numbered (press n k).
Proof.
  intros [Hn Hi Hp Hv] Hl. destruct (press_spec n k) as [(Eb & _) Hk].
  destruct (bound n (kp_key k)) as [e|] eqn:Ek.
  2: { destruct Hk as ((E1 & E2) & E3 & _). split; rewrite ?E1, ?E2, ?E3, ?Eb; done. }
  destruct (accept _ _ _) as [[] d].
  2: { destruct Hk as (_ & (E1 & E2) & E3). split; rewrite ?E1, ?E2, ?E3, ?Eb; done. }
  destruct Hk as (_ & s & [Es E1 E2 E3]). split; rewrite ?E1, ?E2, ?E3, ?Eb.
  - rewrite Hn, length_app. simpl. unfold u64. rewrite Z.mod_small by lia. lia.
  - intros i s' [Hs'|[Hle Hs']]%lookup_app_Some; [by apply Hi|].
    apply list_lookup_singleton_Some in Hs' as [Hz <-]. exists (kp_wall k). rewrite Es.
    cbn [sg_trigger_id]. rewrite Hn. replace i with (length (signals n)) by lia. done.
  - intros id Hid. rewrite fmap_app, elem_of_app. destruct (decide (id = sg_trigger_id s)) as [->|Hne].
    + right. by apply list_elem_of_singleton.
    + left. apply Hp. by rewrite lookup_insert_ne in Hid.
  - apply Forall_app. split; [done|]. constructor; [|done]. rewrite Es. split; [done|].
    exists (kp_key k). unfold bound in Ek. by destruct (_ && _).
Qed.

Lemma numbered_call n c :
  numbered n -> Z.of_nat (length (signals n)) + Z.of_nat (length (presses [c])) < 2 ^ 64 ->
  numbered (call_keyboard n c).
Proof.
  intros Hn Hl. destruct c as [k|st|t]; [by apply numbered_press|..]; destruct Hn as [Hn Hi Hp Hv]; simpl.
  - destruct (handleStatus_spec st n) as ((Eb & _) & (E1 & E2) & _ & E3). split; rewrite ?E1, ?E2, ?Eb; try done.
    intros id [e He]. rewrite E3 in He. apply Hp. destruct (_ && _); [done|eauto].
  - destruct (prunePending_spec t n) as ((Eb & _) & (E1 & E2) & _ & E3). split; rewrite ?E1, ?E2, ?Eb; try done.
    intros id [e He]. rewrite E3 in He. apply Hp. destruct (pending_ n !! id); [eauto|done].
Qed.

Lemma call_signals_length n c :
  (length (signals (call_keyboard n c)) <= length (signals n) + length (presses [c]))%nat.
Proof.
  destruct c as [k|st|t]; cbn [call_keyboard].
  - destruct (press_spec n k) as [_ Hk]. unfold silent in Hk.
    destruct (bound n (kp_key k)); [destruct (accept _ _ _) as [[] d]|].
    + destruct Hk as (_ & sent & [_ E1 _ _]). rewrite E1, length_app. simpl. lia.
    + destruct Hk as (_ & (-> & _) & _). lia.
    + destruct Hk as ((-> & _) & _). lia.
  - destruct (handleStatus_spec st n) as (_ & (-> & _) & _). lia.
  - destruct (prunePending_spec t n) as (_ & (-> & _) & _). lia.
Qed.

Lemma presses_cons c cs : presses (c :: cs) = presses [c] ++ presses cs.
Proof. by destruct c. Qed.

Lemma numbered_run n cs :
  numbered n -> Z.of_nat (length (signals n)) + Z.of_nat (length (presses cs)) < 2 ^ 64 ->
  numbered (run_keyboard n cs) /\
  (length (signals (run_keyboard n cs)) <= length (signals n) + length (presses cs))%nat.
Proof.
  unfold run_keyboard. revert n. induction cs as [|c cs IH]; intros n Hn Hl; [simpl; split; [done|lia]|].
  rewrite presses_cons, length_app in Hl |- *. pose proof (call_signals_length n c). cbn [fold_left].
  destruct (IH (call_keyboard n c)); [apply numbered_call; [done|lia]|lia|]. split; [done|lia].
Qed.

Lemma numbered_new key_bindings quiet quit wait timeout n :
  newKeyboardTriggerNode key_bindings quiet quit wait timeout = Ok n -> numbered n /\ signals n = [].
Proof.
  unfold newKeyboardTriggerNode. case_bool_decide; [done|]. intros [= <-]. split; [|done].
  split; simpl; try done. intros id [? Hid]. by rewrite lookup_empty in Hid.
Qed.

Lemma numbered_distinct n i j s s' :
  numbered n -> signals n !! i = Some s -> signals n !! j = Some s' ->
  sg_trigger_id s = sg_trigger_id s' -> i = j.
Proof.
  intros Hn [w Hw]%(nu_ids n Hn) [w' Hw']%(nu_ids n Hn) E. rewrite Hw, Hw' in E.
  apply keyboardId_inj in E; lia.
Qed.

(** ** Which presses trigger *)

(** The presses of keys that have a function. *)
Definition heard (n : KeyboardTriggerNode) (ks : list KeyPress) : list (ascii * Z) :=
  (fun k => (kp_key k, kp_steady k)) <$> List.filter (fun k => bool_decide (is_Some (bound n (kp_key k)))) ks.

Lemma heard_elem n ks key t :
  is_Some (bound n key) ->
  (key, t) ∈ heard n ks <-> exists k, k ∈ ks /\ kp_key k = key /\ kp_steady k = t.
Proof.
  intros Hb. unfold heard. rewrite list_elem_of_fmap. setoid_rewrite list_elem_of_In. setoid_rewrite filter_In. split.
  - intros (k & [= -> ->] & Hk & _). eauto.
  - intros (k & Hk & <- & <-). exists k. split_and!; try done. by apply bool_decide_eq_true_2.
Qed.

Definition press_le (a b : KeyPress) : Prop := kp_steady a <= kp_steady b.

Lemma heard_sorted n ks : StronglySorted press_le ks -> StronglySorted input_le (heard n ks).
Proof.
  unfold heard. induction 1 as [|k ks Hs IH Hk]; [constructor|]. simpl.
  case_bool_decide; [|done]. cbn. constructor; [done|]. apply Forall_fmap, Forall_forall.
  intros k' Hin. rewrite list_elem_of_In, filter_In, <- list_elem_of_In in Hin. rewrite Forall_forall in Hk.
  apply (Hk k'), Hin.
Qed.

Lemma heard_app n ks k :
  heard n (ks ++ [k]) = heard n ks ++ (if bound n (kp_key k) then [(kp_key k, kp_steady k)] else []).
Proof.
  unfold heard. rewrite List.filter_app, fmap_app. simpl. by destruct (bound n (kp_key k)).
Qed.

Lemma press_remembers n n0 k ks :
  same_setup n0 n -> remembers (debouncer_ n) (heard n0 ks) ->
  remembers (debouncer_ (press n k)) (heard n0 (ks ++ [k])).
Proof.
  intros Hs Hr. rewrite heard_app. destruct (press_spec n k) as [_ Hk].
  rewrite (bound_same n0 n (kp_key k) Hs) in Hk. destruct (bound n0 (kp_key k)) as [e|].
  - destruct (accept _ _ _) as [a d] eqn:Ea. destruct Hk as [-> _].
    pose proof (accept_remembers (kp_key k) (kp_steady k) _ _ Hr) as Hr'. by rewrite Ea in Hr'.
  - destruct Hk as (_ & _ & ->). by rewrite app_nil_r.
Qed.

Lemma run_remembers n0 n cs ks :
  same_setup n0 n -> remembers (debouncer_ n) (heard n0 ks) ->
  remembers (debouncer_ (run_keyboard n cs)) (heard n0 (ks ++ presses cs)).
Proof.
  unfold run_keyboard. revert n ks. induction cs as [|c cs IH]; intros n ks Hs Hr; [by rewrite app_nil_r|].
  rewrite presses_cons, (assoc_L (++)). cbn [fold_left].
  assert (Hs' : same_setup n0 (call_keyboard n c)).
  { destruct Hs as (E1 & E2 & E3 & E4 & E5), (call_keyboard_setup n c) as (F1 & F2 & F3 & F4 & F5).
    split_and!; congruence. }
  apply IH; [done|]. destruct c as [k|st|t].
  - by apply press_remembers.
  - rewrite app_nil_r. cbn [call_keyboard]. by destruct (handleStatus_spec st n) as (_ & _ & -> & _).
  - by rewrite app_nil_r.
Qed.

(** C38. Along any run of the keyboard node, with presses whose times do not go
    back, a press publishes a signal exactly when its key has a function other
    than quitting and every earlier press of that key, whether or not it has
    published anything, is at least the quiet period older.  The status messages
    and the timer play no part in it. *)
Theorem keyboard_presses key_bindings quiet quit wait timeout n0 cs k :
  newKeyboardTriggerNode key_bindings quiet quit wait timeout = Ok n0 ->
  StronglySorted press_le (presses cs) ->
  let n := run_keyboard n0 cs in
  (exists s, signals (press n k) = signals n ++ [s]) <->
  is_Some (bound n0 (kp_key k)) /\
  forall p, p ∈ presses cs -> kp_key p = kp_key k -> Z.max 1 quiet * ns_per_ms <= kp_steady k - kp_steady p.
Proof.
  intros Hnew Hs n. pose proof (run_keyboard_setup n0 cs) as Hn. fold n in Hn.
  assert (Hsame : forall l (s : EventSignal), l <> l ++ [s]).
  { intros l s E. apply (f_equal length) in E. rewrite length_app in E. simpl in E. lia. }
  assert (Hr : remembers (debouncer_ n) (heard n0 (presses cs))).
  { apply (run_remembers n0 n0 cs []); [done|]. unfold newKeyboardTriggerNode in Hnew.
    case_bool_decide; [done|]. injection Hnew as <-. intros key. apply lookup_empty. }
  assert (Hq : quietPeriod (debouncer_ n) = Z.max 1 quiet).
  { destruct Hn as (_ & _ & _ & _ & ->). unfold newKeyboardTriggerNode in Hnew.
    case_bool_decide; [done|]. by injection Hnew as <-. }
  destruct (press_spec n k) as [_ Hk]. rewrite (bound_same n0 n _ Hn) in Hk.
  destruct (bound n0 (kp_key k)) as [e|] eqn:Eb.
  2: { destruct Hk as ((-> & _) & _). split; [intros [s E]; by apply Hsame in E|by intros [[] _]]. }
  pose proof (accept_iff (kp_key k) (kp_steady k) _ _ Hr (heard_sorted n0 _ Hs)) as Ha. rewrite Hq in Ha.
  setoid_rewrite heard_elem in Ha; [|by rewrite Eb].
  destruct (accept _ _ _) as [a d]. cbn [fst] in Ha. destruct Hk as [_ Hk].
  transitivity (a = true).
  - destruct a.
    + destruct Hk as (s & [_ E _ _]). split; [done|]. eauto.
    + destruct Hk as ((-> & _) & _). split; [intros [s E]; by apply Hsame in E|done].
  - rewrite Ha. split.
    + intros Hall. split; [done|]. intros p Hp Ep. assert (kp_steady k - kp_steady p >= Z.max 1 quiet * ns_per_ms); [|lia].
      apply Hall. eauto.
    + intros [_ Hall] t (p & Hp & Ep & <-). specialize (Hall p Hp Ep). lia.
Qed.

(** ** Which triggers are pending *)

(** The calls that end the wait for a trigger. *)
Definition closes (waitForUpload : bool) (timeout : Z) (id : string) (since : Z) (c : keyboard_call) : bool :=
  match c with
  | Press _ => false
  | StatusMessage st => String.eqb (st_trigger_id st) id && closing waitForUpload (st_status st)
  | PruneTimer t => since <? t - timeout * ns_per_ms
  end.

(** A published signal stays what it is. *)
Lemma call_signals_prefix n c : signals n `prefix_of` signals (call_keyboard n c).
Proof.
  destruct c as [k|st|t]; cbn [call_keyboard].
  - destruct (press_spec n k) as [_ Hk]. unfold silent in Hk. destruct (bound n (kp_key k)) as [e|].
    + destruct (accept _ _ _) as [[] d].
      * destruct Hk as (_ & sent & [_ E1 _ _]). rewrite E1. by eexists.
      * by destruct Hk as (_ & (-> & _) & _).
    + by destruct Hk as ((-> & _) & _).
  - by destruct (handleStatus_spec st n) as (_ & (-> & _) & _).
  - done.
Qed.

Lemma press_pending n k id :
  numbered n -> id ∈ sg_trigger_id <$> signals n -> pending_ (press n k) !! id = pending_ n !! id.
Proof.
  intros Hn Hid. destruct (press_spec n k) as [_ Hk]. unfold silent in Hk.
  destruct (bound n (kp_key k)) as [e|]; [destruct (accept _ _ _) as [[] d]|];
    [|by destruct Hk as (_ & _ & ->)|by destruct Hk as (_ & -> & _)].
  destruct Hk as (_ & sent & [Es E1 _ E2]). rewrite E2. apply lookup_insert_ne. intros E.
    apply list_elem_of_fmap in Hid as (s & -> & Hs). apply list_elem_of_lookup in Hs as [i Hi].
    destruct (nu_ids n Hn i s Hi) as [w Hw]. apply lookup_lt_Some in Hi.
    rewrite Es, Hw, (nu_next n Hn) in E. cbn [sg_trigger_id] in E. apply keyboardId_inj in E; lia.
Qed.

Lemma call_pending n c id :
  numbered n -> id ∈ sg_trigger_id <$> signals n ->
  pending_ (call_keyboard n c) !! id =
    match pending_ n !! id with
    | Some e => if closes (waitForUpload_ n) (pendingTimeout_ n) id (createdAt e) c then None else Some e
    | None => None
    end.
Proof.
  intros Hn Hid. destruct c as [k|st|t]; cbn [call_keyboard closes].
  - rewrite press_pending by done. by destruct (pending_ n !! id).
  - destruct (handleStatus_spec st n) as (_ & _ & _ & ->).
    destruct (String.eqb_spec (st_trigger_id st) id) as [->|Hne]; [rewrite bool_decide_eq_true_2 by done|
      rewrite bool_decide_eq_false_2 by congruence]; simpl; [destruct (closing _ _)|]; by destruct (pending_ n !! id).
  - destruct (prunePending_spec t n) as (_ & _ & _ & ->). destruct (pending_ n !! id) as [e|]; [|done].
    destruct (Z.leb_spec (t - pendingTimeout_ n * ns_per_ms) (createdAt e)),
      (Z.ltb_spec (createdAt e) (t - pendingTimeout_ n * ns_per_ms)); done || lia.
Qed.

Lemma run_pending n cs id :
  numbered n -> id ∈ sg_trigger_id <$> signals n ->
  Z.of_nat (length (signals n)) + Z.of_nat (length (presses cs)) < 2 ^ 64 ->
  pending_ (run_keyboard n cs) !! id =
    match pending_ n !! id with
    | Some e => if existsb (closes (waitForUpload_ n) (pendingTimeout_ n) id (createdAt e)) cs then None else Some e
    | None => None
    end.
Proof.
  unfold run_keyboard. revert n. induction cs as [|c cs IH]; intros n Hn Hid Hl.
  { simpl. by destruct (pending_ n !! id). }
  rewrite presses_cons, length_app in Hl. pose proof (call_signals_length n c). cbn [fold_left existsb].
  destruct (call_keyboard_setup n c) as (_ & _ & Ew & Et & _).
  rewrite IH; [|apply numbered_call; [done|lia]| |lia].
  - rewrite Ew, Et, call_pending by done. destruct (pending_ n !! id) as [e|]; [|done]. by destruct (closes _ _ _ _ c).
  - destruct (call_signals_prefix n c) as [l El]. rewrite El, fmap_app. set_solver.
Qed.

(** A triggered key stays pending exactly as long as it should: after a press
    that published a signal, and whatever the node does then, the signal is among
    the pending triggers, with its key, event and time, exactly when no status
    message for it has closed it (a rejection, a failure, the upload, or the
    recording when uploads are not awaited) and no round of the timer has found
    it older than the limit. *)
Theorem pending_until_closed key_bindings quiet quit wait timeout n0 before k after s :
  newKeyboardTriggerNode key_bindings quiet quit wait timeout = Ok n0 ->
  Z.of_nat (length (presses before) + length (presses after)) + 1 < 2 ^ 64 ->
  let n := run_keyboard n0 before in
  signals (press n k) = signals n ++ [s] ->
  pending_ (run_keyboard (press n k) after) !! sg_trigger_id s =
    if existsb (closes wait (Z.max 1000 timeout) (sg_trigger_id s) (kp_steady k)) after then None
    else Some {| pe_key := kp_key k; pe_eventName := sg_event_name s; createdAt := kp_steady k |}.
Proof.
  intros Hnew Hl n Hs. destruct (numbered_new _ _ _ _ _ _ Hnew) as [Hn0 E0].
  destruct (numbered_run n0 before Hn0) as [Hn Hlen]; [rewrite E0; simpl; lia|]. fold n in Hn, Hlen.
  rewrite E0 in Hlen. simpl in Hlen.
  assert (Hw : waitForUpload_ (press n k) = wait /\ pendingTimeout_ (press n k) = Z.max 1000 timeout).
  { destruct (press_spec n k) as [(_ & _ & E1 & E2 & _) _].
    destruct (run_keyboard_setup n0 before) as (_ & _ & Ew & Et & _).
    fold n in Ew, Et. rewrite E1, E2, Ew, Et. unfold newKeyboardTriggerNode in Hnew. case_bool_decide; [done|].
    by injection Hnew as <-. }
  assert (Hp : pending_ (press n k) !! sg_trigger_id s =
    Some {| pe_key := kp_key k; pe_eventName := sg_event_name s; createdAt := kp_steady k |}).
  { destruct (press_spec n k) as [_ Hk]. unfold silent in Hk.
    assert (Hlong : signals (press n k) <> signals n).
    { rewrite Hs. intros E%(f_equal length). rewrite length_app in E. simpl in E. lia. }
    destruct (bound n (kp_key k)) as [e|]; [destruct (accept _ _ _) as [[] d]|]; [|naive_solver..].
    destruct Hk as (_ & sent & [Es E1 _ E2]). rewrite Hs in E1. apply app_inv_head in E1. injection E1 as <-.
    rewrite E2, lookup_insert_eq. by rewrite Es. }
  destruct Hw as [<- <-]. rewrite run_pending, Hp; [done|apply numbered_press; [done|lia]| |].
  - rewrite Hs, fmap_app, elem_of_app. right. by apply list_elem_of_singleton.
  - rewrite Hs, length_app. simpl. lia.
Qed.

(** ** A concrete keyboard *)

Definition sample_keyboard : KeyboardTriggerNode :=
  mkKeyboard {["c"%char := "collision"; "b"%char := "brake"]} (newDebouncer 700) "q" false 600000 ∅ 0 [] true.

Definition sample_press (key : ascii) (t : Z) : KeyPress := {| kp_key := key; kp_wall := t; kp_steady := t |}.

Definition sample_entries : list string := ["c = collision"; "nothing"; "b=brake"].

Definition status_for (id : string) (status : Status) : EventStatus :=
  {| st_status := status; st_event_name := "collision"; st_trigger_id := id; st_source := "keyboard";
     st_capture_id := ""; st_record_directory := ""; st_message := ""; st_updated_at := 0 |}.

Lemma keyboard_presses_witness :
  sg_event_name <$> signals (run_keyboard sample_keyboard
    [Press (sample_press "c" 10); Press (sample_press "c" 20); Press (sample_press "x" 30)]) = ["collision"] /\
  ((exists s, signals (press (run_keyboard sample_keyboard [Press (sample_press "c" 10); Press (sample_press "c" 20)])
                         (sample_press "b" 30)) =
              signals (run_keyboard sample_keyboard [Press (sample_press "c" 10); Press (sample_press "c" 20)]) ++ [s]) <->
   is_Some (bound sample_keyboard "b") /\
   forall p, p ∈ [sample_press "c" 10; sample_press "c" 20] -> kp_key p = "b"%char ->
     Z.max 1 700 * ns_per_ms <= 30 - kp_steady p).
Proof.
  split; [reflexivity|].
  apply (keyboard_presses sample_entries 700 "q" false 600000 sample_keyboard
           [Press (sample_press "c" 10); Press (sample_press "c" 20)] (sample_press "b" 30)); [reflexivity|].
  repeat constructor. vm_compute. congruence.
Defined.

Lemma pending_until_closed_witness :
  pending_ (run_keyboard (press sample_keyboard (sample_press "c" 10))
    [StatusMessage (status_for (keyboardId 10 0) ACCEPTED); Press (sample_press "b" 20);
     StatusMessage (status_for (keyboardId 10 0) STORED)]) !! keyboardId 10 0 = None.
Proof.
  apply (pending_until_closed sample_entries 700 "q" false 600000 sample_keyboard [] (sample_press "c" 10)
    [StatusMessage (status_for (keyboardId 10 0) ACCEPTED); Press (sample_press "b" 20);
     StatusMessage (status_for (keyboardId 10 0) STORED)]
    {| sg_event_name := "collision"; sg_trigger_id := keyboardId 10 0; sg_source := "keyboard"; sg_occurred_at := 10 |});
    vm_compute; reflexivity.
Defined.
