(* ===== verification/Signals.v ===== *)
(** * Signals: from a key to a capture

    The nodes around the data cache node put together: the keyboard node of
    Keyboard.v publishes signals, the router of RouterNode.v sends them on as
    requests, the data cache node of Node.v answers them, and the status messages
    of both go back to the keyboard node. *)

From S2P Require Import Prelude Text SensorData RouterPolicy TriggerPolicy Config FileSystem DiskSpace Monitor Intake Node.
From S2P Require Import Service RouterNode Keyboard TriggerNode.

(** ** What the router does with one signal *)

Definition reports_made (n n' : EventRouterNode) : list EventStatus :=
  drop (length (router_statuses n)) (router_statuses n').

(** The outcome for a signal with a valid name and an identifier. *)
Lemma route_identified signal ready wallNow steadyNow n :
  validEventName (sg_event_name signal) = true -> sg_trigger_id signal <> "" -> sg_source signal <> "" ->
  let n' := route signal ready wallNow steadyNow n in
  let refused why := [signalStatus signal RECEIVED "event received" wallNow; signalStatus signal REJECTED why wallNow] in
  (reports_made n n', requests_made n n') =
    if negb ready then (refused "trigger service unavailable", [])
    else match (evaluate (sg_event_name signal) (sg_trigger_id signal) steadyNow (policy_ n)).1 with
         | Accept => ([signalStatus signal RECEIVED "event received" wallNow], [request_of signal])
         | Duplicate => (refused "duplicate trigger_id", [])
         | CoolingDown => (refused "event is cooling down", [])
         end.
Proof.
  intros Hv Hid Hs. cbv zeta.
  assert (Hc : completeSignal signal wallNow n = (signal, n)).
  { unfold completeSignal. apply String.eqb_neq in Hid as ->.
    unfold or_default. apply String.eqb_neq in Hs as ->. by destruct signal. }
  unfold reports_made, requests_made, route. rewrite Hv, Hc. cbn [negb].
  destruct ready; cbn [negb].
  - cbn [publishStatus policy_]. destruct (evaluate _ _ _ _) as [[] p]; cbn;
      rewrite <- ?(assoc_L (++)); by rewrite ?drop_length_nil, ?drop_app_length.
  - cbn. rewrite <- ?(assoc_L (++)). by rewrite ?drop_length_nil, ?drop_app_length.
Qed.

(** What the policy remembers it has been asked about. *)
Lemma run_router_seen t p cs :
  is_Some (seenTriggers_ (run_router p cs) !! t) ->
  is_Some (seenTriggers_ p !! t) \/ exists e now, Evaluate e t now ∈ cs.
Proof.
  unfold run_router. revert p. induction cs as [|c cs IH]; intros p Ht; [by left|]. cbn [fold_left] in Ht.
  destruct (IH _ Ht) as [Hc|(e & now & Hin)]; [|right; exists e, now; set_solver].
  destruct c as [e t' now|t']; cbn [call_router] in Hc.
  - destruct (evaluate_spec e t' now p) as (_ & _ & _ & Es & _). rewrite Es in Hc.
    case_bool_decide as Hd; [right; exists e, now; destruct Hd as [_ ->]; set_solver|left].
    destruct Hc as [x Hx]. apply live_some in Hx as [Hx _]. eauto.
  - destruct (release_spec t' p) as (_ & _ & Es & _). rewrite Es in Hc.
    destruct Hc as [x [_ Hx]%lookup_delete_Some]. left. eauto.
Qed.

Lemma policy_history_signal n cs e t now :
  Evaluate e t now ∈ policy_history n cs ->
  exists s ready wall steady, Signal s ready wall steady ∈ cs /\ (sg_trigger_id s = t \/ sg_trigger_id s = "").
Proof.
  revert n. induction cs as [|c cs IH]; intros n Hin; cbn [policy_history] in Hin; [by apply not_elem_of_nil in Hin|].
  apply elem_of_app in Hin as [Hin|Hin]; [|destruct (IH _ Hin) as (s & r & w & u & ? & ?); exists s, r, w, u; set_solver].
  destruct c as [s ready wall steady|s outcome wall]; cbn [policy_calls] in Hin; [|destruct (_ && _); set_solver].
  destruct (_ && _); [|by apply not_elem_of_nil in Hin]. apply list_elem_of_singleton in Hin.
  exists s, ready, wall, steady. split; [set_solver|]. injection Hin as _ -> _. unfold completeSignal.
  destruct (String.eqb_spec (sg_trigger_id s) ""); [by right|by left].
Qed.

(** A signal the router has not heard of before is no duplicate. *)
Lemma fresh_not_duplicate ttl cooldown before e t now :
  let n := run_routing (newEventRouterNode ttl cooldown) before in
  (forall s ready wall steady, Signal s ready wall steady ∈ before -> sg_trigger_id s <> "" /\ sg_trigger_id s <> t) ->
  (evaluate e t now (policy_ n)).1 =
    if cooling (Z.max 0 cooldown * ns_per_ms) now (lastAccepted_ (policy_ n) !! e) then CoolingDown else Accept.
Proof.
  intros n Hf. destruct (evaluate_spec e t now (policy_ n)) as (-> & _).
  assert (Hc : cooldown_ (policy_ n) = Z.max 0 cooldown * ns_per_ms).
  { unfold n. by rewrite run_routing_policy, run_router_cooldown. }
  rewrite Hc. destruct (live now (seenTriggers_ (policy_ n) !! t)) as [x|] eqn:Hx; [exfalso|done].
  apply live_some in Hx as [Hx _]. unfold n in Hx. rewrite run_routing_policy in Hx.
  destruct (run_router_seen t _ _ (mk_is_Some _ _ Hx)) as [[y Hy]|(e' & now' & Hin)].
  - cbn in Hy. by rewrite lookup_empty in Hy.
  - apply policy_history_signal in Hin as (s & r & w & u & Hs & Ho). destruct (Hf _ _ _ _ Hs). naive_solver.
Qed.

(** ** Signals of the keyboard node at the router *)

Lemma parseKeyBindings_valid configured key e :
  parseKeyBindings configured !! key = Some e -> validEventName e = true.
Proof.
  unfold parseKeyBindings. induction configured as [|entry configured IH] using rev_ind.
  { cbn [fold_left]. by rewrite lookup_empty. }
  rewrite fold_left_app. cbn [fold_left]. rewrite parseKeyBindingsStep_eq. unfold entry_binding.
  destruct (cut_at "=" entry) as [[b a]|]; [|exact IH]. destruct (TriggerPolicy.trim b) as [|c [|]]; try exact IH.
  destruct (validEventName (TriggerPolicy.trim a)) eqn:Hv; [|exact IH].
  intros [[_ <-]|[_ ?]]%lookup_insert_Some; auto.
Qed.

Lemma new_keyboard_bindings key_bindings quiet quit wait timeout n :
  newKeyboardTriggerNode key_bindings quiet quit wait timeout = Ok n -> bindings_ n = parseKeyBindings key_bindings.
Proof. unfold newKeyboardTriggerNode. case_bool_decide; [done|]. by intros [= <-]. Qed.

Lemma keyboard_signal_valid key_bindings quiet quit wait timeout n0 cs s :
  newKeyboardTriggerNode key_bindings quiet quit wait timeout = Ok n0 ->
  Z.of_nat (length (presses cs)) < 2 ^ 64 ->
  let n := run_keyboard n0 cs in
  numbered n /\ (s ∈ signals n -> validEventName (sg_event_name s) = true /\
                                  sg_trigger_id s <> "" /\ sg_source s = "keyboard").
Proof.
  intros Hnew Hl n. destruct (numbered_new _ _ _ _ _ _ Hnew) as [Hn0 E0].
  destruct (numbered_run n0 cs Hn0) as [Hn _]; [rewrite E0; simpl; lia|]. fold n in Hn. split; [done|].
  intros Hs. pose proof (nu_valid n Hn) as Hv. rewrite Forall_forall in Hv. destruct (Hv s Hs) as [Hsrc [key Hkey]].
  split_and!; [|apply list_elem_of_lookup in Hs as [i [w ->]%(nu_ids n Hn)]; done|done].
  destruct (run_keyboard_setup n0 cs) as (Eb & _). fold n in Eb.
  rewrite Eb, (new_keyboard_bindings _ _ _ _ _ _ Hnew) in Hkey. by eapply parseKeyBindings_valid.
Qed.

(** A key press reaches the data cache: a signal published by the keyboard
    node is never taken for invalid or for a duplicate by the router.  Whatever
    the router has done before with the other signals of that keyboard and with
    signals from elsewhere, as long as those bring identifiers of their own, the
    signal is reported as received, and then it is sent on as it is, or else
    reported once as rejected, because the service is not available or because
    the event is cooling down. *)
Theorem keyboard_signals_routed key_bindings quiet quit wait timeout n0 cs i s ttl cooldown before ready wall now :
  newKeyboardTriggerNode key_bindings quiet quit wait timeout = Ok n0 ->
  Z.of_nat (length (presses cs)) < 2 ^ 64 ->
  let published := signals (run_keyboard n0 cs) in
  published !! i = Some s ->
  (forall s' r w t, Signal s' r w t ∈ before ->
     (exists j, j <> i /\ published !! j = Some s') \/
     sg_trigger_id s' <> "" /\ sg_trigger_id s' ∉ sg_trigger_id <$> published) ->
  let n := run_routing (newEventRouterNode ttl cooldown) before in
  let n' := route s ready wall now n in
  let received := signalStatus s RECEIVED "event received" wall in
  (reports_made n n', requests_made n n') =
    if negb ready then ([received; signalStatus s REJECTED "trigger service unavailable" wall], [])
    else if cooling (Z.max 0 cooldown * ns_per_ms) now (lastAccepted_ (policy_ n) !! sg_event_name s)
    then ([received; signalStatus s REJECTED "event is cooling down" wall], [])
    else ([received], [request_of s]).
Proof.
  intros Hnew Hl published Hi Hbefore n n' received.
  assert (Hin : s ∈ published) by (apply list_elem_of_lookup; eauto).
  destruct (keyboard_signal_valid _ _ _ _ _ _ _ s Hnew Hl) as [Hn Hs].
  destruct (Hs Hin) as (Hv & Hid & Hsrc). unfold n'. rewrite route_identified; [|done|done|by rewrite Hsrc].
  destruct ready; [|done]. cbn [negb]. unfold n. rewrite fresh_not_duplicate.
  - by destruct (cooling _ _ _).
  - intros s' r w t [(j & Hj & Hs')|[Hne Hout]]%Hbefore.
    + split; [|intros E; by apply Hj, (numbered_distinct _ _ _ _ _ Hn Hs' Hi)].
      destruct (keyboard_signal_valid _ _ _ _ _ _ _ s' Hnew Hl) as [_ Hk]. apply Hk. apply list_elem_of_lookup. eauto.
    + split; [done|]. intros E. apply Hout. rewrite E. apply list_elem_of_fmap. eauto.
Qed.

(** ** From the request to the answer *)

Section capture.
Context `{RclTime} `{WorkingDirectory} `{Iteration} `{NodeOrders}.

(** What a trigger with an identifier that is not in the cache is reported as. *)
Definition answered (request : TriggerRequest) (n : DataCacheNode) (response : TriggerResponse) (n' : DataCacheNode)
    : Prop :=
  (exists st, published n' = published n ++ [st] /\ st_trigger_id st = rq_trigger_id request /\
     st_status st = if rs_success response then ACCEPTED else REJECTED) /\
  (rs_success response = true ->
     exists lc, eventLifecycles n' !! rq_trigger_id request = Some lc /\ lc_eventName lc = rq_event_name request /\
       lc_triggerId lc = rq_trigger_id request /\ path_string (lc_directory lc) = rs_record_directory response).

Lemma handleTrigger_answered request wallNow now n o w response n' w' o' :
  rq_trigger_id request <> "" -> triggerResponses (unexpired (steady_now now) n) !! rq_trigger_id request = None ->
  handleTrigger request wallNow now n o w = Done (response, n') w' o' ->
  answered request n response n'.
Proof.
  intros Hid Hnone. unfold handleTrigger. rewrite identify_given by done. rewrite Hnone.
  destruct (String.eqb (rq_event_name request) ""); [|destruct (negb (hasEvent _ _))].
  1, 2: intros [= <- <- _ _]; split; [|done]; eexists; split_and!; reflexivity.
  intros ([capture m] & w1 & o1 & _ & Hd)%bind_done. cbv zeta in Hd.
  destruct (capture_accepted capture); injection Hd as <- <- _ _.
  - split; [eexists; split_and!; reflexivity|]. intros _. eexists. split; [apply lookup_insert_eq|]. done.
  - split; [eexists; split_and!; reflexivity|done].
Qed.

(** What the keyboard node makes of status messages. *)
Lemma statuses_pending l n id :
  is_Some (pending_ (fold_left (fun n st => handleStatus st n) l n) !! id) <->
  is_Some (pending_ n !! id) /\
  Forall (fun st => st_trigger_id st = id -> closing (waitForUpload_ n) (st_status st) = false) l.
Proof.
  revert n. induction l as [|st l IH]; intros n; cbn [fold_left]; [split; [done|by intros [? _]]|].
  rewrite IH. destruct (handleStatus_spec st n) as ((_ & _ & -> & _) & _ & _ & ->). rewrite Forall_cons.
  destruct (decide (id = st_trigger_id st)) as [->|Hne].
  - rewrite bool_decide_eq_true_2 by done. simpl. destruct (closing _ _); [|naive_solver].
    split; [by intros [[] _]|]. intros (_ & Hc & _). by specialize (Hc eq_refl).
  - rewrite bool_decide_eq_false_2 by done. simpl. naive_solver.
Qed.

Lemma signal_pending n k s :
  signals (press n k) = signals n ++ [s] -> is_Some (pending_ (press n k) !! sg_trigger_id s).
Proof.
  intros Hs. destruct (press_spec n k) as [_ Hk]. unfold silent in Hk.
  assert (Hlong : signals (press n k) <> signals n).
  { rewrite Hs. intros E%(f_equal length). rewrite length_app in E. simpl in E. lia. }
  destruct (bound n (kp_key k)) as [e|]; [destruct (accept _ _ _) as [[] d]|]; [|naive_solver..].
  destruct Hk as (_ & sent & [_ E1 _ ->]). rewrite Hs in E1. apply app_inv_head in E1. injection E1 as <-.
  rewrite lookup_insert_eq. eauto.
Qed.

(** C37. The answer comes back to the key: after a key press that published a
    signal, the reports of the router and of the data cache node on that signal
    leave the key's trigger pending exactly when the event has been accepted; a
    trigger that the router does not send on, or that the data cache refuses, is
    closed.  The accepted event is followed under the identifier and the name
    that the keyboard node has chosen. *)
Theorem press_to_capture key_bindings quiet quit wait timeout n0 cs k s router ready wall now data o w :
  newKeyboardTriggerNode key_bindings quiet quit wait timeout = Ok n0 ->
  Z.of_nat (length (presses cs)) + 1 < 2 ^ 64 ->
  let keyboard := press (run_keyboard n0 cs) k in
  signals keyboard = signals (run_keyboard n0 cs) ++ [s] ->
  let router' := route s ready wall now router in
  let hears said := is_Some (pending_ (fold_left (fun n st => handleStatus st n) said keyboard) !! sg_trigger_id s) in
  (requests_made router router' = [] -> ~ hears (reports_made router router')) /\
  forall request wallNow clocks response data' w' o',
    requests_made router router' = [request] ->
    triggerResponses (unexpired (steady_now clocks) data) !! sg_trigger_id s = None ->
    handleTrigger request wallNow clocks data o w = Done (response, data') w' o' ->
    (hears (reports_made router router' ++ drop (length (published data)) (published data')) <->
       rs_success response = true) /\
    (rs_success response = true ->
       exists lc, eventLifecycles data' !! sg_trigger_id s = Some lc /\ lc_eventName lc = sg_event_name s /\
         lc_triggerId lc = sg_trigger_id s /\ path_string (lc_directory lc) = rs_record_directory response).
Proof.
  intros Hnew Hl keyboard Hs router' hears.
  assert (Hpend : is_Some (pending_ keyboard !! sg_trigger_id s)) by (by apply signal_pending).
  assert (Hk : keyboard = run_keyboard n0 (cs ++ [Press k])) by (unfold run_keyboard; by rewrite fold_left_app).
  destruct (keyboard_signal_valid _ _ _ _ _ _ (cs ++ [Press k]) s Hnew) as [_ Hv].
  { unfold presses. rewrite omap_app, length_app. simpl. unfold presses in Hl. lia. }
  rewrite <- Hk in Hv. destruct Hv as (Hname & Hid & Hsrc); [rewrite Hs; set_solver|].
  pose proof (route_identified s ready wall now router Hname Hid ltac:(by rewrite Hsrc)) as Hr. cbv zeta in Hr.
  fold router' in Hr.
  assert (Hcases : (exists why, reports_made router router' =
      [signalStatus s RECEIVED "event received" wall; signalStatus s REJECTED why wall] /\ requests_made router router' = []) \/
    reports_made router router' = [signalStatus s RECEIVED "event received" wall] /\
    requests_made router router' = [request_of s]).
  { destruct ready; [|injection Hr; eauto]. cbn [negb] in Hr. destruct (evaluate _ _ _ _).1; injection Hr; eauto. }
  clear Hr. split.
  - intros E. destruct Hcases as [(why & -> & _)|[_ E']]; [|congruence]. unfold hears. rewrite statuses_pending.
    intros [_ Hc]. apply Forall_cons in Hc as [_ [Hc _]%Forall_cons]. by specialize (Hc eq_refl).
  - intros request wallNow clocks response data' w' o' E Hnone Hh.
    destruct Hcases as [(why & _ & E')|[-> E']]; [congruence|]. rewrite E' in E. injection E as <-.
    destruct (handleTrigger_answered (request_of s) _ _ _ _ _ _ _ _ _ Hid Hnone Hh) as [(st & Ep & Est & Hst) Hlc].
    split; [|exact Hlc]. unfold hears. rewrite statuses_pending, Ep, drop_app_length. cbn [app].
    rewrite !Forall_cons, Hst. cbn [signalStatus st_status st_trigger_id closing].
    destruct (rs_success response); cbn [closing]; [naive_solver|].
    split; [|done]. intros (_ & _ & Hc & _). by specialize (Hc Est).
Qed.

(** Asking again after a time-out is safe: when the request of a caller has been
    forwarded, the answer has not come in time, and the caller asks again with
    the same identifier while the answer is remembered, it gets the answer to
    the first request, and the second one captures, publishes and writes
    nothing. *)
Theorem retry_after_timeout incoming node first wallNow now data o w response data1 w1 o1 cs o2 w2 data2 w3 o3
    wallNow' now' o4 w4 answer data3 w5 o5 :
  rq_trigger_id incoming <> "" -> 0 < triggerDedupeTtl data ->
  let node1 := (forwardTrigger incoming true None node).2 in
  trigger_requests node1 = trigger_requests node ++ [first] ->
  triggerResponses (unexpired (steady_now now) data) !! rq_trigger_id incoming = None ->
  handleTrigger first wallNow now data o w = Done (response, data1) w1 o1 ->
  let limit := steady_now now + triggerDedupeTtl data * ns_per_ms in
  Forall (fun c => forall t, call_time c = Some t -> t < limit) cs -> steady_now now' < limit ->
  run_node cs data1 o2 w2 = Done data2 w3 o3 ->
  handleTrigger (forwarded_request incoming node1) wallNow' now' data2 o4 w4 = Done (answer, data3) w5 o5 ->
  (forwardTrigger incoming true (Some (inl answer)) node1).1 = response /\
  data3 = unexpired (steady_now now') data2 /\ w5 = w4 /\ o5 = o4.
Proof.
  intros Hid Httl node1 Efirst Hnone Hh limit Hcs Hnow Hr Ha. apply app_inv_head in Efirst. injection Efirst as <-.
  destruct (answer_stored _ _ _ _ _ _ _ _ _ _ Hh Hid Httl) as (a & <- & Ha1 & _ & Hexp).
  specialize (Hexp Hnone). fold limit in Hexp. rewrite <- Hexp in Hcs, Hnow.
  pose proof (run_node_answer _ _ _ _ _ _ _ _ _ Hr Ha1 Hcs) as Ha2.
  rewrite (answer_served (forwarded_request incoming node1) wallNow' now' data2 a o4 w4 Hid Ha2 Hnow) in Ha.
  by injection Ha as <- <- <- <-.
Qed.

End capture.

(** ** A concrete system *)

#[local] Existing Instance Service.sample_home.

Definition brake_keyboard : KeyboardTriggerNode :=
  mkKeyboard {["b"%char := "brake"]} (newDebouncer 700) "q" false 600000 ∅ 0 [] true.

Definition brake_signal (t i : Z) : EventSignal :=
  {| sg_event_name := "brake"; sg_trigger_id := keyboardId t i; sg_source := "keyboard"; sg_occurred_at := t |}.

Definition two_presses : list keyboard_call :=
  [Press (sample_press "b" 10); Press (sample_press "b" 800000000)].

Definition earlier_signals : list route_call :=
  [Signal (brake_signal 10 0) true 5 5; Signal (sample_signal "door" "d1") true 6 6].

Lemma earlier_elsewhere s' r w t :
  Signal s' r w t ∈ earlier_signals ->
  (exists j, j <> 1%nat /\ signals (run_keyboard brake_keyboard two_presses) !! j = Some s') \/
  sg_trigger_id s' <> "" /\ sg_trigger_id s' ∉ sg_trigger_id <$> signals (run_keyboard brake_keyboard two_presses).
Proof.
  assert (E : signals (run_keyboard brake_keyboard two_presses) = [brake_signal 10 0; brake_signal 800000000 1])
    by (vm_compute; reflexivity).
  rewrite E. unfold earlier_signals. rewrite !elem_of_cons, elem_of_nil. intros [[= -> _ _ _]|[[= -> _ _ _]|[]]].
  - left. by exists 0%nat.
  - right. split; [done|]. refine (proj1 (bool_decide_eq_true (_ ∉ _)) _). vm_compute. reflexivity.
Qed.

Lemma keyboard_signals_routed_witness :
  let n := run_routing (newEventRouterNode 60000 1000) earlier_signals in
  let n' := route (brake_signal 800000000 1) true 7 7 n in
  let received := signalStatus (brake_signal 800000000 1) RECEIVED "event received" 7 in
  cooling (Z.max 0 1000 * ns_per_ms) 7 (lastAccepted_ (policy_ n) !! "brake"%string) = true /\
  (reports_made n n', requests_made n n') =
    if negb true
    then ([received; signalStatus (brake_signal 800000000 1) REJECTED "trigger service unavailable" 7], [])
    else if cooling (Z.max 0 1000 * ns_per_ms) 7 (lastAccepted_ (policy_ n) !! "brake"%string)
    then ([received; signalStatus (brake_signal 800000000 1) REJECTED "event is cooling down" 7], [])
    else ([received], [request_of (brake_signal 800000000 1)]).
Proof.
  split; [vm_compute; reflexivity|].
  refine (keyboard_signals_routed ["b=brake"%string] 700 "q" false 600000 brake_keyboard two_presses 1
    (brake_signal 800000000 1) 60000 1000 earlier_signals true 7 7 _ _ _ earlier_elsewhere);
    vm_compute; reflexivity.
Defined.

Lemma press_to_capture_witness :
  match Service.sample_started with
  | Done (data, _) w _ =>
      match handleTrigger (request_of (brake_signal 30 0)) 2000 (sample_clock 20) data [] w with
      | Done (response, data') _ _ =>
          rs_success response = true /\
          exists lc, eventLifecycles data' !! keyboardId 30 0 = Some lc /\ lc_eventName lc = "brake"%string
      | _ => False
      end
  | _ => False
  end.
Proof.
  assert (Hok : match Service.sample_started with
    | Done (data, _) w _ =>
        match handleTrigger (request_of (brake_signal 30 0)) 2000 (sample_clock 20) data [] w with
        | Done (response, _) _ _ => rs_success response &&
            bool_decide (triggerResponses (unexpired 20 data) !! keyboardId 30 0 = None :> option _)
        | _ => false end
    | _ => false end = true) by (vm_compute; reflexivity).
  destruct Service.sample_started as [[data uploader] w o| | |]; try discriminate.
  destruct (handleTrigger (request_of (brake_signal 30 0)) 2000 (sample_clock 20) data [] w)
    as [[response data'] w1 o1| | |] eqn:E; try discriminate.
  apply andb_prop in Hok as [Hs Hnone%bool_decide_eq_true]. split; [exact Hs|].
  destruct (press_to_capture ["b=brake"%string] 700 "q" false 600000 brake_keyboard [] (sample_press "b" 30)
    (brake_signal 30 0) (newEventRouterNode 60000 1000) true 7 7 data [] w) as [_ Hc].
  - vm_compute. reflexivity.
  - vm_compute. reflexivity.
  - vm_compute. reflexivity.
  - destruct (Hc (request_of (brake_signal 30 0)) 2000 (sample_clock 20) response data' w1 o1) as [_ Hlc];
      [vm_compute; reflexivity|exact Hnone|exact E|].
    destruct (Hlc Hs) as (lc & Hl & Hn & _). exists lc. split; [exact Hl|exact Hn].
Defined.
