(* ===== verification/RecordReader.v ===== *)
(** * RecordReader: the tool that reads event directories

    Models src/src/record_reader.cpp: the command line, the selection of what is
    listed, the export of records and the exit code.  What is printed is reduced
    to the entries and numbers it speaks of.  The writers of images and point
    clouds belong to libraries and are parameters. *)

From S2P Require Import Prelude Text SensorData FileSystem RecordIo Monitor.

(** ** The command line *)

Record ToolOptions := {
  wantVerify : bool;
  exportDir : string;
  opt_sensor : string;
  opt_limit : Z
}.

(** [toSizeT]. *)
Definition toSizeT (text : string) : option Z :=
  '(parsed, consumed) ← stoll text;
  if (parsed <? 0) || negb (consumed =? String.length text)%nat then None else Some parsed.

(** The loop over the arguments; nothing when the tool ends with code 1. *)
Fixpoint parseOptions (arguments : list string) (o : ToolOptions) : option ToolOptions :=
  match arguments with
  | [] => Some o
  | argument :: rest =>
      if String.eqb argument "--verify" then
        parseOptions rest {| wantVerify := true; exportDir := exportDir o; opt_sensor := opt_sensor o; opt_limit := opt_limit o |}
      else
        match rest with
        | [] => None
        | value :: rest =>
            if String.eqb argument "--export" then
              parseOptions rest {| wantVerify := wantVerify o; exportDir := value; opt_sensor := opt_sensor o; opt_limit := opt_limit o |}
            else if String.eqb argument "--sensor" then
              if String.eqb value "camera" || String.eqb value "lidar" then
                parseOptions rest {| wantVerify := wantVerify o; exportDir := exportDir o; opt_sensor := value; opt_limit := opt_limit o |}
              else None
            else if String.eqb argument "--limit" then
              limit ← toSizeT value;
              parseOptions rest {| wantVerify := wantVerify o; exportDir := exportDir o; opt_sensor := opt_sensor o; opt_limit := limit |}
            else None
        end
  end.

Definition defaultOptions : ToolOptions := {| wantVerify := false; exportDir := ""; opt_sensor := ""; opt_limit := 0 |}.

(** ** Listing *)

Definition skips (o : ToolOptions) (entry : ManifestEntry) : bool :=
  negb (String.eqb (opt_sensor o) "") && negb (String.eqb (me_sensor entry) (opt_sensor o)).

Definition limit_reached (o : ToolOptions) (count : Z) : bool := negb (opt_limit o =? 0) && (count >=? opt_limit o).

(** The entries that are listed. *)
Fixpoint shownEntries (o : ToolOptions) (shown : Z) (entries : list ManifestEntry) : list ManifestEntry :=
  match entries with
  | [] => []
  | entry :: rest =>
      if skips o entry then shownEntries o shown rest
      else if limit_reached o shown then []
      else entry :: shownEntries o (shown + 1) rest
  end.

Definition matchedPairs (pairs : list PairEntry) : Z :=
  Z.of_nat (length (List.filter (fun pair => String.eqb (pe_status pair) "matched") pairs)).

(** ** The tool *)

(** [cv::imwrite] of the converted image and [savePCDFileBinary]. *)
Class Exporter := {
  imwrite : Image -> path -> M bool;
  savePCDFileBinary : PointCloud2 -> path -> M bool
}.

(** A computation on the files as they are. *)
Definition reading {A} (f : world -> res A) : M A := fun o w => FileSystem.pure (f w) o w.

(** [is_directory(p)] without an error code throws. *)
Definition is_directory_or_throw (p : path) : M bool :=
  answer ← query (fun w => Some (is_dir w p)) None;
  match answer with Some b => mret b | None => throw end.

(** What a run amounts to. *)
Record ReaderRun := {
  exit_code : Z;
  listed : list ManifestEntry;
  matched : Z;
  single_sided : Z;
  exported : Z;
  report : option VerificationReport
}.

Definition refused : ReaderRun :=
  {| exit_code := 1; listed := []; matched := 0; single_sided := 0; exported := 0; report := None |}.

Section tool.
Context `{Sha256} `{Zstd} `{StatusQuery} `{WorkingDirectory} `{Exporter}.
Context (map_order : gmap string string -> list (string * string)) (set_order : gset string -> list string).
Context (deserialize_image : string -> Image + string) (deserialize_cloud : string -> PointCloud2 + string).

Definition exportImage (message : Image) (target : path) : M bool :=
  if (image_height message =? 0) || (image_width message =? 0) || (image_step message =? 0) ||
     (image_step message * image_height message >? byte_size (image_data message))
  then mret false
  else if existsb (String.eqb (image_encoding message)) ["bgr8"; "rgb8"; "mono8"; "bgra8"; "rgba8"]%string
  then imwrite message target
  else mret false.

Definition exportPointCloud (message : PointCloud2) (target : path) : M bool := savePCDFileBinary message target.

Definition exportBase (entry : ManifestEntry) : string := me_sensor entry +:+ "_" +:+ to_string (timestampNs entry).

(** The body of the export loop for a selected entry: whether it was exported. *)
Definition exportEntry (fuel : nat) (eventDirectory target : path) (entry : ManifestEntry) : M bool :=
  loaded ← reading (fun w => loadRecordBytes fuel w eventDirectory entry);
  match loaded with
  | inr _ => mret false
  | inl bytes =>
      if String.eqb (me_sensor entry) "camera" then
        match deserialize_image bytes with
        | inl image => exportImage image (resolve target (exportBase entry +:+ ".png"))
        | inr _ => mret false
        end
      else
        match deserialize_cloud bytes with
        | inl cloud => exportPointCloud cloud (resolve target (exportBase entry +:+ ".pcd"))
        | inr _ => mret false
        end
  end.

(** The export loop: how many have been exported, and the exit code. *)
Fixpoint exportEntries (fuel : nat) (o : ToolOptions) (eventDirectory target : path) (entries : list ManifestEntry)
    (exported exitCode : Z) : M (Z * Z) :=
  match entries with
  | [] => mret (exported, exitCode)
  | entry :: rest =>
      if skips o entry then exportEntries fuel o eventDirectory target rest exported exitCode
      else if limit_reached o exported then mret (exported, exitCode)
      else
        ok ← exportEntry fuel eventDirectory target entry;
        if ok : bool then exportEntries fuel o eventDirectory target rest (exported + 1) exitCode
        else exportEntries fuel o eventDirectory target rest exported 2
  end.

(** The part of [main] after the listing. *)
Definition exportAndVerify (fuel : nat) (o : ToolOptions) (eventDirectory : path) (run : ReaderRun) : M ReaderRun :=
  created ← (if String.eqb (exportDir o) "" then mret true else create_directories (absolute (exportDir o)));
  if negb created then
    mret {| exit_code := 1; listed := listed run; matched := matched run; single_sided := single_sided run;
            exported := 0; report := None |}
  else
  result ← (if String.eqb (exportDir o) "" then mret (0, 0)
            else entries ← reading (fun w => Ok (readManifest w eventDirectory).1);
                 exportEntries fuel o eventDirectory (absolute (exportDir o)) entries 0 0);
  let '(exported, exitCode) := result in
  if negb (wantVerify o) then
    mret {| exit_code := exitCode; listed := listed run; matched := matched run; single_sided := single_sided run;
            exported := exported; report := None |}
  else
    report ← reading (fun w => verifyEventDirectory map_order set_order deserialize_image deserialize_cloud fuel w
                                 eventDirectory {| vo_sensor := opt_sensor o; vo_limit := 0 |});
    mret {| exit_code := if report_ok report then exitCode else 2; listed := listed run; matched := matched run;
            single_sided := single_sided run; exported := exported; report := Some report |}.

(** [main]; the arguments do not include the name of the program. *)
Definition record_reader (fuel : nat) (arguments : list string) : M ReaderRun :=
  match arguments with
  | [] => mret refused
  | directory :: rest =>
      let eventDirectory := absolute directory in
      isDirectory ← is_directory_or_throw eventDirectory;
      if negb isDirectory then mret refused else
      match parseOptions rest defaultOptions with
      | None => mret refused
      | Some o =>
          entries ← reading (fun w => Ok (readManifest w eventDirectory).1);
          pairs ← reading (fun w => Ok (readPairs w eventDirectory).1);
          exportAndVerify fuel o eventDirectory
            {| exit_code := 0; listed := shownEntries o 0 entries; matched := matchedPairs pairs;
               single_sided := Z.of_nat (length pairs) - matchedPairs pairs; exported := 0; report := None |}
      end
  end.

(** ** Ending *)

(** What the libraries promise: the writers touch their target only, and the
    decompressor behaves as documented. *)
Hypothesis imwrite_target : forall image target w,
  wp (imwrite image target) (fun _ w' => touches [target] target w w') (touches [target] target w) (touches [target] target w) w.
Hypothesis savePCD_target : forall cloud target w,
  wp (savePCDFileBinary cloud target) (fun _ w' => touches [target] target w w') (touches [target] target w)
    (touches [target] target w) w.
Hypothesis decompress_capacity : forall capacity data decoded,
  ZSTD_decompress capacity data = inl decoded -> byte_size decoded <= capacity.
Hypothesis stream_progress : forall stream input result produced consumed stream',
  ZSTD_decompressStream stream chunk_size input = inl (result, produced, consumed, stream') ->
  (consumed <= String.length input)%nat /\
  (result = 0 \/ (1 <= consumed)%nat \/ produced <> ""%string \/ input = ""%string).

(** Two rounds for every byte a record may have. *)
Context (fuel : nat) (enough : 2 * kMaxRecordBytes < Z.of_nat fuel).

Lemma load_ends w directory entry : exists r, loadRecordBytes fuel w directory entry = Ok r.
Proof.
  unfold loadRecordBytes. destruct (negb _); [eauto|]. unfold readFileBytes.
  destruct (read_text w _) as [content|]; [|eauto]. destruct (byte_size content >? kMaxRecordBytes) eqn:E; [eauto|].
  destruct (String.eqb _ _); [|eauto].
  destruct (decompressZstd_ends decompress_capacity stream_progress fuel content) as (r & Hr & _); [lia|eauto].
Qed.

Lemma verify_ends w directory o :
  let result := verifyEventDirectory map_order set_order deserialize_image deserialize_cloud fuel w directory o in
  result = Err Exception \/ exists r, result = Ok r.
Proof.
  unfold verifyEventDirectory. destruct (readManifest w directory) as [[|entry entries] malformed]; [eauto|].
  generalize (entry :: entries). clear entry entries. intros entries.
  generalize {| totalEntries := 0; verifiedEntries := 0; failedEntries := Z.of_nat (length malformed);
                problems := (verifyChecksumManifest map_order set_order w directory []).2 ++ malformed; warnings := [] |}.
  induction entries as [|entry entries IH]; intros r; [eauto|]. cbn [verifyEntries].
  destruct (_ && _); [apply IH|]. destruct (_ && _); [eauto|].
  pose proof (verifyEntry_ends deserialize_image deserialize_cloud fuel w directory entry r (load_ends w directory entry)) as Hone.
  unfold mbind, res_bind. destruct (record_throws _ _ _ _ _ _); [rewrite Hone; by left|].
  destruct Hone as [r' ->]. apply IH.
Qed.

(** [w'] differs from [w] below [d] only, and by new directories on the way. *)
Definition below_only (d : path) (w w' : world) : Prop :=
  forall q, files w' !! q = files w !! q \/ d `suffix_of` q \/
            (files w !! q = None /\ files w' !! q = Some Dir /\ q `suffix_of` d).

Lemma below_only_refl d w : below_only d w w.
Proof. intros q. by left. Qed.

Lemma below_only_trans d w1 w2 w3 : below_only d w1 w2 -> below_only d w2 w3 -> below_only d w1 w3.
Proof.
  intros H12 H23 q. destruct (H12 q) as [E1|[?|(E1 & E2 & ?)]], (H23 q) as [F1|[?|(F1 & F2 & ?)]]; try (right; left; done).
  - left. congruence.
  - right. right. split_and!; congruence.
  - right. right. split_and!; congruence.
  - congruence.
Qed.

Lemma touches_below d name w w' : touches [child d name] (child d name) w w' -> below_only d w w'.
Proof.
  intros [_ Ht] q. destruct (decide (q = child d name)) as [->|Hne]; [right; left; by exists [name]|].
  destruct (Ht q) as [E|(E1 & E2 & [k Hk])]; [set_solver|by left|]. right. right. split_and!; [done..|].
  destruct k as [|x k]; [by simplify_eq|]. injection Hk as _ ->. by exists k.
Qed.

Lemma wp_reading {A} (f : world -> res A) a (Q : A -> world -> Prop) (E C : world -> Prop) w :
  f w = Ok a -> Q a w -> wp (reading f) Q E C w.
Proof. intros Hf HQ o. unfold reading. rewrite Hf. exact HQ. Qed.

(** The name of an exported record stays in the directory of the export. *)
Lemma export_target target entry extension :
  lacks "/" (me_sensor entry) -> lacks "/" extension ->
  resolve target (exportBase entry +:+ extension) = child target (exportBase entry +:+ extension).
Proof.
  intros Hs He. unfold resolve, path_components.
  assert (Hl : lacks "/" (exportBase entry +:+ extension)).
  { unfold exportBase. rewrite !lacks_app. split_and!; [done|done|by apply to_string_lacks|done]. }
  rewrite split_on_lacks by done. unfold exportBase in *.
  destruct ((me_sensor entry +:+ "_" +:+ to_string (timestampNs entry)) +:+ extension) as [|c s] eqn:E; [|done].
  by destruct (me_sensor entry).
Qed.

(** [P] is what makes the names safe. *)
Lemma exportEntry_wp (P : Prop) w0 directory target entry w :
  (P -> lacks "/" (me_sensor entry)) -> (P -> below_only target w0 w) ->
  wp (exportEntry fuel directory target entry) (fun _ w' => P -> below_only target w0 w') (fun w' => P -> below_only target w0 w')
    (fun w' => P -> below_only target w0 w') w.
Proof.
  intros Hs Hb. unfold exportEntry. apply wp_bind.
  destruct (load_ends w directory entry) as [loaded Hl]. eapply wp_reading; [exact Hl|].
  assert (Hstep : forall extension w', lacks "/" extension ->
    touches [resolve target (exportBase entry +:+ extension)] (resolve target (exportBase entry +:+ extension)) w w' ->
    P -> below_only target w0 w').
  { intros extension w' He Ht HP. rewrite export_target in Ht by auto.
    eapply below_only_trans; [by apply Hb|]. by eapply touches_below. }
  destruct loaded as [bytes|]; [|by apply wp_ret]. destruct (String.eqb (me_sensor entry) "camera").
  - destruct (deserialize_image bytes) as [image|]; [|by apply wp_ret]. unfold exportImage.
    destruct (_ || _); [by apply wp_ret|]. destruct (existsb _ _); [|by apply wp_ret].
    eapply wp_mono; [intros ? w' Ht|intros w' Ht..|apply imwrite_target]; by eapply (Hstep ".png"%string).
  - destruct (deserialize_cloud bytes) as [cloud|]; [|by apply wp_ret]. unfold exportPointCloud.
    eapply wp_mono; [intros ? w' Ht|intros w' Ht..|apply savePCD_target]; by eapply (Hstep ".pcd"%string).
Qed.

Lemma exportEntries_wp (P : Prop) w0 o directory target entries count code w :
  (P -> Forall (fun e => lacks "/" (me_sensor e)) entries) -> (P -> below_only target w0 w) ->
  0 <= count -> (opt_limit o <> 0 -> count <= opt_limit o) -> (code = 0 \/ code = 2) ->
  wp (exportEntries fuel o directory target entries count code)
    (fun r w' => (P -> below_only target w0 w') /\ 0 <= r.1 <= count + Z.of_nat (length entries) /\
       (opt_limit o <> 0 -> r.1 <= opt_limit o) /\ (r.2 = 0 \/ r.2 = 2))
    (fun w' => P -> below_only target w0 w') (fun w' => P -> below_only target w0 w') w.
Proof.
  revert count code w. induction entries as [|entry rest IH]; intros count code w Hs Hb Hc Hl Hcode.
  { apply wp_ret. cbn. split_and!; try done; lia. }
  assert (He : P -> lacks "/" (me_sensor entry)) by (intros HP; apply Hs in HP; by inversion HP).
  assert (Hrest : P -> Forall (fun e => lacks "/" (me_sensor e)) rest) by (intros HP; apply Hs in HP; by inversion HP).
  cbn [exportEntries length]. destruct (skips o entry).
  { eapply wp_post; [|by apply IH]. intros r w' (? & ? & ? & ?). split_and!; try done; lia. }
  unfold limit_reached. destruct (Z.eqb_spec (opt_limit o) 0) as [Ez|Ez]; cbn [negb andb];
    [|destruct (Z.geb_spec count (opt_limit o)); [apply wp_ret; cbn; split_and!; try done; lia|]].
  all: apply wp_bind; eapply wp_post; [|by apply (exportEntry_wp P w0)]; intros [] w' Hb';
    (eapply wp_post; [|apply IH; [done|done|lia|lia|auto]]; intros r w'' (? & ? & ? & ?); split_and!; try done; lia).
Qed.

(** A new directory on the way does not make rows appear. *)
Lemma read_text_new_dirs p w w' :
  (files w' !! p = files w !! p \/ (files w !! p = None /\ files w' !! p = Some Dir)) ->
  read_text w' p = read_text w p \/ read_text w' p = None.
Proof. unfold read_text. intros [-> |[_ ->]]; [by left|by right]. Qed.

Lemma manifest_new_dirs target directory w w' (P : ManifestEntry -> Prop) :
  touches [] target w w' -> Forall P (readManifest w directory).1 -> Forall P (readManifest w' directory).1.
Proof.
  intros [_ Ht] Hp. unfold readManifest, readTable in *.
  destruct (read_text_new_dirs (child directory "manifest.csv") w w') as [->| ->]; [|done|constructor].
  destruct (Ht (child directory "manifest.csv")) as [?|(? & ? & _)]; [set_solver|auto..].
Qed.

Lemma new_dirs_below target w w' : touches [] target w w' -> below_only target w w'.
Proof.
  intros [_ Ht] q. destruct (Ht q) as [?|(? & ? & ?)]; [set_solver|by left|]. right. by right.
Qed.

Lemma parseOptions_limit arguments o o' :
  parseOptions arguments o = Some o' -> 0 <= opt_limit o -> 0 <= opt_limit o'.
Proof.
  remember (length arguments) as n eqn:En. assert (Hn : (length arguments <= n)%nat) by lia. clear En.
  revert arguments o Hn. induction n as [|n IH]; intros [|a rest] o Hn Hp Ho; cbn [length] in Hn; [|lia|..];
    cbn [parseOptions] in Hp; try by injection Hp as <-.
  assert (Hnext : forall l o1, (length l <= n)%nat -> parseOptions l o1 = Some o' -> 0 <= opt_limit o1 -> 0 <= opt_limit o')
    by (intros l o1 Ha Hb Hc; by apply (IH l o1)).
  destruct (String.eqb a "--verify"); [eapply Hnext in Hp; [done|lia|done]|].
  destruct rest as [|v rest]; [done|]. cbn [length] in Hn.
  destruct (String.eqb a "--export"); [eapply Hnext in Hp; [done|lia|done]|].
  destruct (String.eqb a "--sensor"); [destruct (_ || _); [|done]; eapply Hnext in Hp; [done|lia|done]|].
  destruct (String.eqb a "--limit"); [|done]. unfold toSizeT in Hp.
  destruct (stoll v) as [[z k]|]; simpl in Hp; [|done]. destruct ((z <? 0) || _) eqn:E; [done|]. simpl in Hp.
  eapply Hnext in Hp; [done|lia|]. simpl. lia.
Qed.

(** No sensor name of the manifest holds a slash. *)
Definition tame (w : world) (directory : path) : Prop :=
  Forall (fun e => lacks "/" (me_sensor e)) (readManifest w directory).1.

(** What a run of the tool leaves of the files. *)
Definition kept (o : option ToolOptions) (directory : path) (w w' : world) : Prop :=
  match o with
  | Some o => if String.eqb (exportDir o) "" then w' = w
              else tame w directory -> below_only (absolute (exportDir o)) w w'
  | None => w' = w
  end.

Lemma kept_refl o directory w : kept o directory w w.
Proof. unfold kept. destruct o as [o|]; [|done]. destruct (String.eqb _ _); [done|intros _; apply below_only_refl]. Qed.

Lemma exportAndVerify_wp o directory run w :
  0 <= opt_limit o ->
  wp (exportAndVerify fuel o directory run)
    (fun run' w' => kept (Some o) directory w w' /\ exit_code run' ∈ [0; 1; 2] /\
       (opt_limit o <> 0 -> exported run' <= opt_limit o))
    (kept (Some o) directory w) (kept (Some o) directory w) w.
Proof.
  intros Hl. unfold exportAndVerify.
  assert (Hlast : forall n code w', kept (Some o) directory w w' -> (opt_limit o <> 0 -> n <= opt_limit o) -> (code = 0 \/ code = 2) ->
    wp (let '(exported, exitCode) := (n, code) in
        if negb (wantVerify o) then
          mret {| exit_code := exitCode; listed := listed run; matched := matched run; single_sided := single_sided run;
                  exported := exported; report := None |}
        else
          report ← reading (fun w => verifyEventDirectory map_order set_order deserialize_image deserialize_cloud fuel w
                                       directory {| vo_sensor := opt_sensor o; vo_limit := 0 |});
          mret {| exit_code := if report_ok report then exitCode else 2; listed := listed run; matched := matched run;
                  single_sided := single_sided run; exported := exported; report := Some report |})
      (fun run' w' => kept (Some o) directory w w' /\ exit_code run' ∈ [0; 1; 2] /\
         (opt_limit o <> 0 -> exported run' <= opt_limit o))
      (kept (Some o) directory w) (kept (Some o) directory w) w').
  { intros n code w' Hk Hn Hc. destruct (negb (wantVerify o)).
    - apply wp_ret. cbn. split_and!; [done|destruct Hc as [-> | ->]; set_solver|done].
    - apply wp_bind. destruct (verify_ends w' directory {| vo_sensor := opt_sensor o; vo_limit := 0 |}) as [Hr|[r Hr]];
        [intros o'; unfold reading; by rewrite Hr|].
      eapply wp_reading; [exact Hr|]. apply wp_ret. cbn. split_and!; [done| |done].
      destruct (report_ok r), Hc as [-> | ->]; set_solver. }
  unfold kept in *. destruct (String.eqb (exportDir o) "").
  { apply wp_bind, wp_ret. cbn [negb]. apply wp_bind, wp_ret. apply Hlast; [done|lia|auto]. }
  set (target := absolute (exportDir o)) in *. apply wp_bind.
  apply (create_directories_wp [] target target); [done|]. intros w1 Ht1. pose proof (new_dirs_below _ _ _ Ht1) as Hb1.
  split; [done|]. split.
  { cbn [negb]. apply wp_ret. cbn. split_and!; [done|set_solver|lia]. }
  intros _. cbn [negb]. apply wp_bind, wp_bind. eapply wp_reading; [done|].
  eapply wp_post; [|apply (exportEntries_wp (tame w directory) w); [|done|lia|lia|auto]].
  - intros [n code] w2 (Hb2 & ? & Hn & Hc). apply Hlast; auto.
  - intros Htame. by eapply manifest_new_dirs.
Qed.

(** C35. The reader tool always ends: whatever the arguments, the directory and the
    faults, it ends with code 0, 1 or 2 or with an exception of the file system or
    of a library, and it exports at most as many records as the limit allows.  Run
    without [--export], or with arguments it refuses, it changes no file, also when
    it ends with an exception or is killed; with it, it changes files below the
    directory of the export only, provided that no sensor name of the manifest
    holds a slash ([export_escapes] below shows that this is needed). *)
Theorem record_reader_ends directory arguments w :
  let o := parseOptions arguments defaultOptions in
  wp (record_reader fuel (directory :: arguments))
    (fun run w' => kept o (absolute directory) w w' /\ exit_code run ∈ [0; 1; 2] /\
       match o with
       | Some o => opt_limit o <> 0 -> exported run <= opt_limit o
       | None => exit_code run = 1 /\ exported run = 0
       end)
    (kept o (absolute directory) w) (kept o (absolute directory) w) w.
Proof.
  intros o. pose proof (kept_refl o (absolute directory) w) as Hk. unfold record_reader, is_directory_or_throw.
  assert (Hrefused : kept o (absolute directory) w w /\ exit_code refused ∈ [0; 1; 2] /\
    match o with
    | Some o => opt_limit o <> 0 -> exported refused <= opt_limit o
    | None => exit_code refused = 1 /\ exported refused = 0
    end).
  { split; [done|]. split; [set_solver|]. destruct o as [o'|] eqn:Eo; [|done]. intros _.
    by apply parseOptions_limit in Eo. }
  apply wp_bind, wp_bind, wp_query; [|by apply wp_throw|done]. apply wp_ret.
  destruct (negb _); [by apply wp_ret|]. fold o. destruct o as [o'|] eqn:Eo; [|by apply wp_ret].
  apply parseOptions_limit in Eo; [|done].
  apply wp_bind. eapply wp_reading; [done|]. apply wp_bind. eapply wp_reading; [done|].
  by apply exportAndVerify_wp.
Qed.

#[local] Arguments is_dir : simpl never.

(** C33. The verdict of the tool, called with [--verify] alone.  When a record that
    [manifest.csv] lists makes the verification throw (its message is in order but
    for a header stamp with negative seconds, or it is in order and the status of
    its converted copy cannot be told), the tool ends with that exception.
    Otherwise it ends with code 0 exactly when the checksum manifest is well formed
    and lists exactly the regular files of the directory with their digests, every
    row of [manifest.csv] parses, there is one at least, and every record can be
    loaded and holds a message consistent with its row; and else with code 2.  The
    rows of [pairs.csv] have no part in it ([torn_pairs_pass] below). *)
Theorem record_reader_verdict directory w (map_order_perm : forall m, map_order m ≡ₚ map_to_list m)
    (set_order_perm : forall s, set_order s ≡ₚ elements s) :
  is_dir w (absolute directory) = true ->
  if existsb (record_throws deserialize_image deserialize_cloud fuel w (absolute directory))
       (readManifest w (absolute directory)).1
  then record_reader fuel [directory; "--verify"%string] [] w = Threw w []
  else
    exists run, record_reader fuel [directory; "--verify"%string] [] w = Done run w [] /\
      (exit_code run = 0 \/ exit_code run = 2) /\
      (exit_code run = 0 <->
         (exists text expected, read_text w (child (absolute directory) "manifest.sha256") = Some text /\
            states text expected /\ matches w (absolute directory) expected) /\
         (readManifest w (absolute directory)).2 = [] /\ (readManifest w (absolute directory)).1 <> [] /\
         Forall (record_ok deserialize_image deserialize_cloud fuel w (absolute directory))
           (readManifest w (absolute directory)).1).
Proof.
  intros Hd.
  pose proof (verifyEventDirectory_ends map_order set_order deserialize_image deserialize_cloud fuel w (absolute directory)
    (load_ends w (absolute directory))) as Hends.
  assert (Hrun : record_reader fuel [directory; "--verify"%string] [] w =
    match verifyEventDirectory map_order set_order deserialize_image deserialize_cloud fuel w (absolute directory) full with
    | Ok r => Done {| exit_code := if report_ok r then 0 else 2;
                      listed := shownEntries {| wantVerify := true; exportDir := ""; opt_sensor := ""; opt_limit := 0 |} 0
                                  (readManifest w (absolute directory)).1;
                      matched := matchedPairs (readPairs w (absolute directory)).1;
                      single_sided := Z.of_nat (length (readPairs w (absolute directory)).1) -
                                      matchedPairs (readPairs w (absolute directory)).1;
                      exported := 0; report := Some r |} w []
    | Err Exception => Threw w []
    | Err e => Stuck e
    end).
  { unfold record_reader, is_directory_or_throw, query. simpl. unfold reading, mbind, M_bind, mret, M_ret. cbn [next].
    rewrite Hd. simpl. unfold exportAndVerify. simpl. unfold reading. unfold mbind, M_bind. simpl. unfold full.
    by destruct (verifyEventDirectory _ _ _ _ _ _ _ _) as [r|[]]. }
  rewrite Hrun. destruct (existsb _ _); [by rewrite Hends|]. destruct Hends as [r Hr].
  pose proof (verifyEventDirectory_sound map_order set_order deserialize_image deserialize_cloud map_order_perm
    set_order_perm fuel w (absolute directory) r Hr) as [Hok _].
  rewrite Hr. eexists. split; [reflexivity|]. cbn [exit_code]. split; [destruct (report_ok r); auto|].
  rewrite <- Hok. by destruct (report_ok r).
Qed.

End tool.

(** ** Concrete runs *)

#[local] Instance reader_home : WorkingDirectory := { absolute d := [d] }.

(** Writers that store what they are given. *)
Definition store_bytes (data : string) (target : path) : M bool :=
  opened ← open_trunc target; if negb opened then mret false else write_stream target data.

#[local] Instance plain_exporter : Exporter :=
  { imwrite image target := store_bytes (image_data image) target;
    savePCDFileBinary cloud target := store_bytes (cloud_data cloud) target }.

Lemma store_bytes_target data target w :
  wp (store_bytes data target) (fun _ w' => touches [target] target w w') (touches [target] target w)
    (touches [target] target w) w.
Proof.
  assert (Hall : forall w', touches [target] target w w' -> touches [target] target w w' /\ touches [target] target w w') by done.
  unfold store_bytes. apply wp_bind. apply (open_trunc_wp [target] target); [set_solver| |].
  { intros w' Ht. split; [done|by apply wp_ret]. }
  intros w' Ht _. cbn [negb]. eapply wp_mono; [| | |apply (write_stream_wp [target] target target data
    (fun _ => touches [target] target w') (touches [target] target w') (touches [target] target w') w'); [set_solver|done|done]].
  all: intros; by eapply touches_trans.
Qed.

Abbreviation reader_fuel := (Z.to_nat (2 ^ 32)).

Lemma fuel_enough z : 2 * kMaxRecordBytes < z -> 2 * kMaxRecordBytes < Z.of_nat (Z.to_nat z).
Proof. unfold kMaxRecordBytes. lia. Qed.

Lemma reader_fuel_enough : 2 * kMaxRecordBytes < Z.of_nat reader_fuel.
Proof. exact (fuel_enough (2 ^ 32) eq_refl). Qed.

Lemma stored_capacity capacity data decoded :
  @ZSTD_decompress stored_frames capacity data = inl decoded -> byte_size decoded <= capacity.
Proof. simpl. destruct (Z.leb_spec (byte_size data) capacity); [by intros [= <-]|done]. Qed.

Lemma stored_progress stream input result produced consumed stream' :
  @ZSTD_decompressStream stored_frames stream chunk_size input = inl (result, produced, consumed, stream') ->
  (consumed <= String.length input)%nat /\
  (result = 0 \/ (1 <= consumed)%nat \/ produced <> ""%string \/ input = ""%string).
Proof. generalize chunk_size. intros room [= <- <- <- <-]. split; [lia|by left]. Qed.

Lemma record_reader_ends_witness :
  let o := parseOptions ["--export"; "out"; "--limit"; "1"]%string defaultOptions in
  opt_limit <$> o = Some 1 /\ tame sample_world ["brake_1_99"]%string /\
  wp (record_reader map_to_list elements sample_image no_cloud reader_fuel
        ["brake_1_99"; "--export"; "out"; "--limit"; "1"]%string)
    (fun run w' => kept o ["brake_1_99"]%string sample_world w' /\ exit_code run ∈ [0; 1; 2] /\
       match o with
       | Some o => opt_limit o <> 0 -> exported run <= opt_limit o
       | None => exit_code run = 1 /\ exported run = 0
       end)
    (kept o ["brake_1_99"]%string sample_world) (kept o ["brake_1_99"]%string sample_world) sample_world.
Proof.
  split; [vm_compute; reflexivity|]. split; [vm_compute; repeat constructor|].
  refine (record_reader_ends map_to_list elements sample_image no_cloud _ _ stored_capacity stored_progress
    reader_fuel reader_fuel_enough "brake_1_99" ["--export"; "out"; "--limit"; "1"]%string sample_world).
  - intros image target w. apply store_bytes_target.
  - intros cloud target w. apply store_bytes_target.
Defined.

Lemma record_reader_verdict_witness :
  exists run, record_reader map_to_list elements sample_image no_cloud reader_fuel
                ["brake_1_99"; "--verify"]%string [] sample_world = Done run sample_world [] /\
    (exit_code run = 0 \/ exit_code run = 2).
Proof.
  assert (Hdir : is_dir sample_world (absolute "brake_1_99") = true) by (vm_compute; reflexivity).
  pose proof (record_reader_verdict map_to_list elements sample_image no_cloud stored_capacity stored_progress
    reader_fuel reader_fuel_enough "brake_1_99" sample_world (fun m => Permutation_refl _) (fun s => Permutation_refl _)
    Hdir) as Hv.
  assert (Hno : existsb (record_throws sample_image no_cloud reader_fuel sample_world (absolute "brake_1_99"))
                  (readManifest sample_world (absolute "brake_1_99")).1 = false).
  { apply not_true_is_false. intros (entry & Hin & Ht)%existsb_exists.
    assert (E : (readManifest sample_world (absolute "brake_1_99")).1 =
      [{| me_sensor := "camera"; timestampNs := 7; me_file := "camera_7.bin"; me_encoding := "raw"; convertedFile := "" |}]%string)
      by (vm_compute; reflexivity).
    rewrite E in Hin. destruct Hin as [<-|[]]. revert Ht. unfold record_throws, loadRecordBytes. cbn [me_encoding me_file].
    match goal with |- context [readFileBytes ?w ?q] =>
      assert (Hbytes : readFileBytes w q = Some "pixels"%string) by (vm_compute; reflexivity); rewrite Hbytes end.
    vm_compute. discriminate. }
  rewrite Hno in Hv. destruct Hv as (run & Hrun & Hcode & _). exists run. split; [exact Hrun|exact Hcode].
Defined.

(** ** What the tool does to unusual directories *)

Definition reader_rows (rows : list string) : world :=
  {| files := list_to_map
       [(["event"], Dir); (["out"], Dir); ([".."; "out"], Dir);
        (["manifest.csv"; "event"], File (unlines ("sensor,timestamp,file,encoding,converted_file" :: rows)) 0);
        (["a.bin"; "event"], File "one" 0); (["b.bin"; "event"], File "two" 0)]%string;
     clock := 0 |}.

Definition any_image (bytes : string) : Image + string :=
  if String.eqb bytes "bad" then inr "bad"%string else inl (mkImage 7 1 3 "mono8" 1 bytes).

Definition any_cloud (bytes : string) : PointCloud2 + string := inl (mkCloud 7 1 1 ["x"%string] 1 bytes).

Definition run_export (rows options : list string) : option (Z * Z * list path) :=
  match record_reader map_to_list elements any_image any_cloud 1 ("event" :: "--export" :: "out" :: options)%string
          [] (reader_rows rows) with
  | Done run w _ => Some (exit_code run, exported run,
                          (List.filter (fun e => negb (present (reader_rows rows) e.1)) (map_to_list (files w))).*1)
  | _ => None
  end.

(** The name of a sensor is not checked: a manifest can make the tool write
    outside the directory of the export. *)
Example export_escapes :
  run_export ["../x,7,a.bin,raw,"]%string [] = Some (0, 1, [["x_7.pcd"; ".."; "out"]%string]).
Proof. vm_compute. reflexivity. Qed.

(** Two records of a sensor with the same time are exported to the same file, and
    both are counted. *)
Example export_overwrites :
  run_export ["camera,7,a.bin,raw,"; "camera,7,b.bin,raw,"]%string [] = Some (0, 2, [["camera_7.png"; "out"]%string]).
Proof. vm_compute. reflexivity. Qed.

(** The limit counts what has been exported, not the records that are tried. *)
Example export_beyond_limit :
  run_export ["camera,6,missing.bin,raw,"; "camera,7,b.bin,raw,"]%string ["--limit"; "1"]%string =
    Some (2, 1, [["camera_7.png"; "out"]%string]).
Proof. vm_compute. reflexivity. Qed.

(** A store of one record with the given table of pairs. *)
Definition with_pairs (rows : string) : world :=
  let table := unlines ["sensor,timestamp,file,encoding,converted_file"; "camera,7,a.bin,raw,"]%string in
  let row name content := to_hex (sha256 content) +:+ "  " +:+ name in
  {| files := list_to_map
       [(["event"], Dir); (["manifest.csv"; "event"], File table 0); (["a.bin"; "event"], File "one" 0);
        (["pairs.csv"; "event"], File rows 0);
        (["manifest.sha256"; "event"],
         File (unlines [row "manifest.csv" table; row "a.bin" "one"; row "pairs.csv" rows]) 0)]%string;
     clock := 0 |}.

Definition run_verify (deserialize : string -> Image + string) (w : world) : option Z :=
  match record_reader map_to_list elements deserialize any_cloud 1 ["event"; "--verify"]%string [] w with
  | Done run _ _ => Some (exit_code run)
  | _ => None
  end.

(** A table of pairs whose last row is torn has its checksum, and the directory is
    accepted. *)
Definition torn_pairs : string :=
  "pair_id,status,camera_timestamp,lidar_timestamp,time_diff_ns,reason" +:+ String LF "1,matched,7".

Example torn_pairs_pass :
  (readPairs (with_pairs torn_pairs) ["event"%string]).2 <> [] /\ run_verify any_image (with_pairs torn_pairs) = Some 0.
Proof. split; [vm_compute; discriminate|vm_compute; reflexivity]. Qed.

(** A message whose header stamp has negative seconds ends the tool with an
    exception, where its row could only be found inconsistent. *)
Example negative_stamp_throws :
  run_verify (fun bytes => inl (mkImage (-1) 1 3 "mono8" 1 bytes)) (with_pairs "") = None.
Proof. vm_compute. reflexivity. Qed.
