(* ===== verification/Receiver.v ===== *)
(** * Receiver: the node that receives uploads

    Models src/tools/receiver_node.py, the other side of the upload worker, over
    the inbox and the transactions it keeps.  Text is taken byte by byte, as it is
    when names are ASCII; the texts of the answers are left out.  A Python
    exception is the exception of FileSystem.v; [handle_request] answers it with a
    failure. *)

From S2P Require Import Prelude Text SensorData FileSystem RecordIo Upload.

Definition MAX_EVENT_NAME : nat := 160.
Definition MAX_RELATIVE_PATH : nat := 1024.
Definition MAX_FILES : Z := 10000.
Definition MAX_TOTAL_BYTES : Z := 100 * 1024 * 1024 * 1024.
Definition MAX_ACTIVE_TRANSFERS : nat := 16.
Definition TRANSFER_IDLE_SECONDS : Z := 600.
Definition MAX_MANIFEST_BYTES : Z := 16 * 1024 * 1024.

(** ** Names and paths *)

Definition name_char (c : ascii) : bool := isalnum c || Ascii.eqb c "_" || Ascii.eqb c "." || Ascii.eqb c "-".

(** [validate_event_name] returns a name. *)
Definition validate_event_name (name : string) : bool :=
  (String.length name <=? MAX_EVENT_NAME)%nat &&
  match name with EmptyString => false | String c rest => isalnum c && str_all name_char rest end.

Definition normalize (text : string) : string := str_map (fun c => if Ascii.eqb c "\" then "/"%char else c) text.

(** [re.match("^[A-Za-z]:", text)]. *)
Definition drive_letter (text : string) : bool :=
  match text with String c (String ":" _) => isupper c || islower c | _ => false end.

(** The test on one part of a path. *)
Definition unsafe_part (part : string) : bool :=
  String.eqb part "" || String.eqb part "." || String.eqb part ".." || has_char ":" part ||
  match str_last part with Some c => Ascii.eqb c "." || Ascii.eqb c " " | None => false end ||
  existsb (String.eqb (str_map toupper (before_char "." part))) kWindowsDevices.

Definition safe_relative (text : string) : option (list string) :=
  if (MAX_RELATIVE_PATH <? String.length text)%nat then None
  else
    let normalized := normalize text in
    if String.eqb normalized "" || has_char "000" normalized ||
       match str_front normalized with Some c => Ascii.eqb c "/" | None => false end || drive_letter normalized
    then None
    else
      let parts := split_on "/" normalized in
      if existsb unsafe_part parts then None else Some parts.

(** ["/".join(parts)]. *)
Definition join_parts (parts : list string) : string := generic_string (rev parts).

(** [str.casefold] on ASCII text. *)
Definition tolower (c : ascii) : ascii := if isupper c then ascii_of_N (code c + 32) else c.

Definition casefold (text : string) : string := str_map tolower text.

(** ** State *)

(** [hashed] is what the hasher has been given. *)
Record FileState := { fs_expected : Z; fs_received : Z; hashed : string }.

Record TransferState := {
  ts_event : string;
  ts_id : string;
  expected_files : Z;
  expected_bytes : Z;
  ts_files : gmap string FileState;
  canonical_paths : gmap string string;
  last_activity : Z
}.

Record ReceiverNode := { inbox : path; transfers : gmap (string * string) TransferState }.

Definition staging_dir (n : ReceiverNode) (event id : string) : path :=
  child (inbox n) ("." +:+ event +:+ "." +:+ id +:+ ".part").
Definition final_dir (n : ReceiverNode) (event : string) : path := child (inbox n) event.
Definition backup_dir (n : ReceiverNode) (event : string) : path := child (inbox n) ("." +:+ event +:+ ".backup").

Definition with_transfers (m : gmap (string * string) TransferState) (n : ReceiverNode) : ReceiverNode :=
  {| inbox := inbox n; transfers := m |}.

Definition with_ts_files (files : gmap string FileState) (ts : TransferState) : TransferState :=
  {| ts_event := ts_event ts; ts_id := ts_id ts; expected_files := expected_files ts; expected_bytes := expected_bytes ts;
     ts_files := files; canonical_paths := canonical_paths ts; last_activity := last_activity ts |}.

Definition with_canonical (m : gmap string string) (ts : TransferState) : TransferState :=
  {| ts_event := ts_event ts; ts_id := ts_id ts; expected_files := expected_files ts; expected_bytes := expected_bytes ts;
     ts_files := ts_files ts; canonical_paths := m; last_activity := last_activity ts |}.

Definition with_activity (t : Z) (ts : TransferState) : TransferState :=
  {| ts_event := ts_event ts; ts_id := ts_id ts; expected_files := expected_files ts; expected_bytes := expected_bytes ts;
     ts_files := ts_files ts; canonical_paths := canonical_paths ts; last_activity := t |}.

Definition put_transfer (ts : TransferState) (n : ReceiverNode) : ReceiverNode :=
  with_transfers (<[(ts_event ts, ts_id ts) := ts]> (transfers n)) n.

Definition refuse_with (bytes : Z) : Response := {| success := false; received_bytes := bytes |}.
Definition accept_with (bytes : Z) : Response := {| success := true; received_bytes := bytes |}.

(** ** Calls to the file system *)

(** A call that raises when it fails. *)
Definition must (m : M bool) : M unit := fine ← m; if fine : bool then mret tt else throw.

(** A read that raises when it fails. *)
Definition must_read {A} (f : world -> option A) : M A :=
  answer ← query f None; match answer with Some a => mret a | None => throw end.

(** [rmtree(d, ignore_errors=True)]: what is no directory stays; an entry that
    cannot be removed stays with the directories above it. *)
Definition removable (w : world) (ps : list path) : list path :=
  List.filter (fun p => forallb (fun q => bool_decide (q ∈ ps)) (descendants w p)) ps.

Definition rmtree `{Traversal} (d : path) : M unit := fun o w =>
  if is_dir w d then
    let order := traversal (d :: descendants w d) in
    (_ ← stepwise (fun n w => remove_tree (removable w (take n order)) w) (fun w => Some (remove_tree order w));
     mret tt) o w
  else Done tt w o.

(** [mkdir(parents=True)] of a directory that must not be there. *)
Definition mkdir_new (d : path) : M unit :=
  there ← must_read (fun w => Some (present w d));
  if there : bool then throw else must (create_directories d).

(** [os.replace] between siblings: a directory takes its tree along and only
    replaces an empty directory. *)
Definition rekey (from to q : path) : path :=
  match strip_prefix from q with Some r => r ++ to | None => q end.

Definition move_tree (from to : path) (w : world) : option world :=
  if present w from && is_dir w (parent_path to) && (negb (present w to) || (Bool.eqb (is_dir w from) (is_dir w to) && no_child to w)) then
    Some {| files := list_to_map (prod_map (rekey from to) id <$> map_to_list (files (drop_node to w)));
            clock := clock w |}
  else None.

Definition replace_dir (from to : path) : M unit := must (atomically (move_tree from to)).

(** Opening an existing file with ["r+b"], or a new one with ["wb"]. *)
Definition open_output (existing : bool) (p : path) : M unit :=
  must (if existing then atomically (fun w => if is_file w p then Some w else None) else open_trunc p).

(** [seek(offset)] and [write(data)]; a gap is filled with zeros. *)
Definition zeros (n : nat) : string := Nat.iter n (String "000") "".

Definition splice (content : string) (offset : nat) (data : string) : string :=
  let before := String.substring 0 offset content in
  before +:+ zeros (offset - String.length before) +:+ data +:+
  String.substring (offset + String.length data) (String.length content) content.

Definition write_at (p : path) (offset : nat) (data : string) (w : world) : world :=
  match files w !! p with
  | Some (File content _) => put p (File (splice content offset data) (clock w)) w
  | _ => w
  end.

Definition write_output (p : path) (offset : nat) (data : string) : M unit :=
  must (stepwise (fun n => write_at p offset (String.substring 0 n data)) (fun w => Some (write_at p offset data w))).

Definition fsync (p : path) : M unit := must_read (fun w => if present w p then Some tt else None).

Section receiver.
Context `{Sha256} `{Traversal}.

(** ** Handlers *)

(** [handle_request]'s answer to an exception. *)
Definition guarded {S} (s : S) (m : M (Response * S)) : M (Response * S) := catch m (mret (refuse_with 0, s)).

(** [begin]. *)
Definition begin_transfer (event id : string) (count bytes now : Z) (n : ReceiverNode) : M (Response * ReceiverNode) :=
  if (count <=? 0) || (count >? MAX_FILES) then mret (refuse_with 0, n)
  else if (bytes <? 0) || (bytes >? MAX_TOTAL_BYTES) then mret (refuse_with 0, n)
  else if (240 <? String.length event + String.length id + String.length "...part")%nat then mret (refuse_with 0, n)
  else if bool_decide (transfers n !! (event, id) = None) && (MAX_ACTIVE_TRANSFERS <=? size (transfers n))%nat
  then mret (refuse_with 0, n)
  else if existsb (fun entry : (string * string) * TransferState =>
                     String.eqb (ts_event entry.2) event && negb (String.eqb (ts_id entry.2) id))
            (map_to_list (transfers n))
  then mret (refuse_with 0, n)
  else
    _ ← rmtree (staging_dir n event id);
    _ ← mkdir_new (staging_dir n event id);
    mret (accept_with 0, put_transfer {| ts_event := event; ts_id := id; expected_files := count;
                                         expected_bytes := bytes; ts_files := ∅; canonical_paths := ∅;
                                         last_activity := now |} n).

(** The part of [store_chunk] that works on the file; the state in it is the
    transfer's. *)
Definition write_chunk (target : path) (relative : string) (offset : Z) (data : string) (fs : FileState)
    (ts : TransferState) : M (Response * TransferState) :=
  let end_ := offset + byte_size data in
  _ ← must (create_directories (parent_path target));
  if offset <? fs_received fs then
    if end_ >? fs_received fs then mret (refuse_with (fs_received fs), ts) else
    there ← must_read (fun w => Some (present w target));
    if negb there then mret (refuse_with (fs_received fs), ts) else
    stored ← must_read (fun w => read_text w target);
    if negb (String.eqb (String.substring (Z.to_nat offset) (String.length data) stored) data)
    then mret (refuse_with (fs_received fs), ts)
    else mret (accept_with (fs_received fs), ts)
  else if negb (offset =? fs_received fs) then mret (refuse_with (fs_received fs), ts)
  else
    there ← must_read (fun w => Some (present w target));
    _ ← open_output there target;
    _ ← write_output target (Z.to_nat offset) data;
    mret (accept_with end_,
          with_ts_files (<[relative := {| fs_expected := fs_expected fs; fs_received := end_;
                                          hashed := hashed fs +:+ data |}]> (ts_files ts)) ts).

Definition store_chunk (staging : path) (ts : TransferState) (request : Request) : M (Response * TransferState) :=
  match safe_relative (file_path request) with
  | None => mret (refuse_with 0, ts)
  | Some parts =>
      let relative := join_parts parts in
      let canonical := casefold relative in
      if match canonical_paths ts !! canonical with Some other => negb (String.eqb other relative) | None => false end
      then mret (refuse_with 0, ts)
      else
        let ts := with_canonical (<[canonical := relative]> (canonical_paths ts)) ts in
        let fs := default {| fs_expected := total_bytes request; fs_received := 0; hashed := "" |}
                    (ts_files ts !! relative) in
        if negb (fs_expected fs =? total_bytes request) then mret (refuse_with (fs_received fs), ts)
        else
          let ts := with_ts_files (<[relative := fs]> (ts_files ts)) ts in
          if offset request + byte_size (data request) >? fs_expected fs then mret (refuse_with (fs_received fs), ts)
          else guarded ts (write_chunk (rev parts ++ staging) relative (offset request) (data request) fs ts)
  end.

(** ** The end of a transfer *)

Definition received_total (ts : TransferState) : Z := map_fold (fun _ fs n => fs_received fs + n) 0 (ts_files ts).

(** The loop of [finish] over the files. *)
Fixpoint files_complete (staging : path) (l : list (string * FileState)) : M bool :=
  match l with
  | [] => mret true
  | (relative, fs) :: rest =>
      let p := rev (split_on "/" relative) ++ staging in
      actual ← must_read (fun w => Some (match files w !! p with Some (File c _) => byte_size c | _ => -1 end));
      if negb (fs_received fs =? fs_expected fs) || negb (actual =? fs_expected fs) then mret false else
      _ ← fsync p;
      files_complete staging rest
  end.

(** [str.splitlines] on text of ASCII characters: the bytes of the manifest stand for
    its characters, and the line ends outside ASCII (U+0085, U+2028, U+2029) are not
    modelled; the properties that use it ask for plain names. *)
Definition line_end (c : ascii) : bool :=
  existsb (Ascii.eqb c) ["010"; "011"; "012"; "013"; "028"; "029"; "030"]%char.

Fixpoint splitlines_from (current : string) (text : string) : list string :=
  match text with
  | EmptyString => if String.eqb current "" then [] else [current]
  | String c rest =>
      if line_end c then
        current :: splitlines_from ""
          (match rest with String d rest' => if Ascii.eqb c CR && Ascii.eqb d LF then rest' else rest | _ => rest end)
      else splitlines_from (current +:+ String c "") rest
  end.

(** One line of the manifest: what it states, or nothing when it is invalid. *)
Definition manifest_line (expected : gmap string string) (line : string) : option (gmap string string) :=
  match cut_double line with
  | None => None
  | Some (digest, relative) =>
      if negb ((String.length digest =? 64)%nat && str_all hex_char digest) ||
         bool_decide (safe_relative relative = None) || bool_decide (is_Some (expected !! relative))
      then None else Some (<[relative := digest]> expected)
  end.

Fixpoint manifest_lines (rows : list string) (expected : gmap string string) : option (gmap string string) :=
  match rows with
  | [] => Some expected
  | line :: rest => match manifest_line expected line with None => None | Some e => manifest_lines rest e end
  end.

(** The comparison with what has been received. *)
Definition digests_agree (expected : gmap string string) (received : gmap string FileState) : bool :=
  bool_decide (dom expected = dom received ∖ {["manifest.sha256"%string]}) &&
  forallb (fun entry : string * string =>
             match received !! entry.1 with
             | Some fs => String.eqb (to_hex (sha256 (hashed fs))) entry.2
             | None => false
             end) (map_to_list expected).

(** [verify_checksums]: whether it finds no fault. *)
Definition verify_checksums (staging : path) (ts : TransferState) : M bool :=
  let manifest_path := child staging "manifest.sha256" in
  isFile ← must_read (fun w => Some (is_file w manifest_path));
  if negb isFile then mret false else
  text ← must_read (fun w => read_text w manifest_path);
  if byte_size text >? MAX_MANIFEST_BYTES then mret false else
  match manifest_lines (splitlines_from "" text) ∅ with
  | None => mret false
  | Some expected => mret (bool_decide (expected <> ∅) && digests_agree expected (ts_files ts))
  end.

(** The replacement of the inbox directory; when the second renaming fails the
    first one is undone. *)
Definition publish_transfer (n : ReceiverNode) (ts : TransferState) : M unit :=
  let staging := staging_dir n (ts_event ts) (ts_id ts) in
  let final := final_dir n (ts_event ts) in
  let backup := backup_dir n (ts_event ts) in
  _ ← rmtree backup;
  _ ← fsync (inbox n);
  there ← must_read (fun w => Some (present w final));
  _ ← (if there : bool then replace_dir final backup else mret tt);
  catch (replace_dir staging final)
    (backupThere ← must_read (fun w => Some (present w backup));
     finalThere ← must_read (fun w => Some (present w final));
     _ ← (if backupThere && negb finalThere then replace_dir backup final else mret tt);
     throw).

(** [finish]. *)
Definition finish (ts : TransferState) (n : ReceiverNode) : M (Response * ReceiverNode) :=
  let bytes := received_total ts in
  let staging := staging_dir n (ts_event ts) (ts_id ts) in
  if negb (Z.of_nat (size (ts_files ts)) =? expected_files ts) then mret (refuse_with bytes, n)
  else if negb (bytes =? expected_bytes ts) then mret (refuse_with bytes, n)
  else
    complete ← files_complete staging (map_to_list (ts_files ts));
    if negb complete then mret (refuse_with bytes, n) else
    verified ← verify_checksums staging ts;
    if negb verified then mret (refuse_with bytes, n) else
    _ ← fsync staging;
    _ ← publish_transfer n ts;
    _ ← rmtree (backup_dir n (ts_event ts));
    _ ← fsync (inbox n);
    mret (accept_with bytes, with_transfers (delete (ts_event ts, ts_id ts) (transfers n)) n).

(** ** Requests *)

(** [prune_idle_transfers]. *)
Definition prune_transfer (now : Z) (entry : (string * string) * TransferState) (n : ReceiverNode) : M ReceiverNode :=
  if last_activity entry.2 >=? now - TRANSFER_IDLE_SECONDS * ns_per_s then mret n else
  _ ← rmtree (staging_dir n (ts_event entry.2) (ts_id entry.2));
  mret (with_transfers (delete entry.1 (transfers n)) n).

Definition prune_idle_transfers (now : Z) (n : ReceiverNode) : M ReceiverNode :=
  for_each (map_to_list (transfers n)) (prune_transfer now) n.

(** [dispatch] after the pruning, with the answer to an exception. *)
Definition dispatch (now : Z) (request : Request) (n : ReceiverNode) : M (Response * ReceiverNode) :=
  let event := event_name request in
  let id := transfer_id request in
  if negb (validate_event_name event) || negb (validate_event_name id) then mret (refuse_with 0, n)
  else
    match opcode request with
    | BEGIN => guarded n (begin_transfer event id (file_count request) (total_bytes request) now n)
    | FILE_CHUNK =>
        match transfers n !! (event, id) with
        | None => mret (refuse_with 0, n)
        | Some ts =>
            answer ← store_chunk (staging_dir n event id) (with_activity now ts) request;
            mret (answer.1, put_transfer answer.2 n)
        end
    | END_ =>
        match transfers n !! (event, id) with
        | None => mret (refuse_with 0, n)
        | Some ts =>
            let ts := with_activity now ts in
            let n := put_transfer ts n in
            guarded n (finish ts n)
        end
    end.

Definition handle_request (now : Z) (request : Request) (n : ReceiverNode) : M (Response * ReceiverNode) :=
  n ← prune_idle_transfers now n;
  dispatch now request n.

(** ** Start *)

(** The name of the event of a backup, for [inbox.glob(".*.backup")]. *)
Definition backup_event (name : string) : option string :=
  match name with
  | String "." rest =>
      let k := (String.length rest - String.length ".backup")%nat in
      if (String.length ".backup" <=? String.length rest)%nat &&
         String.eqb (String.substring k (String.length ".backup") rest) ".backup"
      then Some (String.substring 0 k rest) else None
  | _ => None
  end.

Definition recover_backup (directory : path) (name : string) : M unit :=
  match backup_event name with
  | None => mret tt
  | Some event =>
      if negb (validate_event_name event) then mret tt else
      there ← must_read (fun w => Some (present w (child directory event)));
      if there : bool then rmtree (child directory name)
      else replace_dir (child directory name) (child directory event)
  end.

(** The constructor, for an absolute path. *)
Definition newReceiverNode `{Listing} (directory : path) : M ReceiverNode :=
  _ ← must (create_directories directory);
  names ← list_directory directory;
  _ ← for_each names (fun name _ => recover_backup directory name) tt;
  mret {| inbox := directory; transfers := ∅ |}.

End receiver.
