(* ===== verification/Delivery.v ===== *)
(** * Delivery: from the event directory to the inbox

    Puts the upload worker of Upload.v and the receiver of Receiver.v together:
    an upload that is reported as done has brought the files of the event
    directory, whole and no others, to the inbox of the receiver, whatever fails
    on either side. *)

From S2P Require Import Prelude Text SensorData FileSystem EventState RecordIo Readback Upload Transfer Receiver.

(** ** What holds when a call returns *)

Definition ensures {A} (m : M A) (Q : A -> world -> Prop) (w : world) : Prop :=
  wp m Q (fun _ => True) (fun _ => True) w.

Section rules.
Context {A B : Type}.
Implicit Types (Q : A -> world -> Prop).

Lemma ens_ret (a : A) Q w : Q a w -> ensures (mret a) Q w.
Proof. apply wp_ret. Qed.

Lemma ens_bind (m : M B) (k : B -> M A) Q w : ensures m (fun b => ensures (k b) Q) w -> ensures (m ≫= k) Q w.
Proof. apply wp_bind. Qed.

Lemma ens_post (m : M A) Q Q' w : (forall a w', Q a w' -> Q' a w') -> ensures m Q w -> ensures m Q' w.
Proof. intros HQ. by apply wp_mono. Qed.

Lemma ens_throw Q w : ensures throw Q w.
Proof. by apply wp_throw. Qed.

End rules.

Lemma ens_must_read {A} (f : world -> option A) (Q : A -> world -> Prop) w : (forall a, f w = Some a -> Q a w) -> ensures (must_read f) Q w.
Proof.
  intros HQ. unfold must_read. apply ens_bind, wp_query; [|apply ens_throw|done].
  destruct (f w) as [a|] eqn:E; [by apply ens_ret, HQ|apply ens_throw].
Qed.

Lemma ens_must (m : M bool) (Q : unit -> world -> Prop) w :
  ensures m (fun b w' => b = true -> Q tt w') w -> ensures (must m) Q w.
Proof.
  intros Hm. unfold must. apply ens_bind. eapply ens_post; [|exact Hm]. intros [] w' HQ; [|apply ens_throw].
  by apply ens_ret, HQ.
Qed.

(** A handler of the receiver and its answer: what matters is what an accepted
    request has done. *)
Definition accepted {S} (P : S -> world -> Prop) (a : Response * S) (w : world) : Prop :=
  success a.1 = true -> P a.2 w.

Lemma ens_guarded {S} (s : S) (m : M (Response * S)) P w : ensures m (accepted P) w -> ensures (guarded s m) (accepted P) w.
Proof.
  intros Hm. apply wp_catch. eapply wp_mono; [| | |exact Hm]; [done| |done]. intros w' _. by apply ens_ret.
Qed.

Lemma ens_refused {S} (s : S) bytes (P : S -> world -> Prop) w : ensures (mret (refuse_with bytes, s)) (accepted P) w.
Proof. by apply ens_ret. Qed.

(** ** Trees that do not meet *)

(** Nothing outside [d] has changed. *)
Definition only_in (d : path) (w w' : world) : Prop := forall q, ~ d `suffix_of` q -> files w' !! q = files w !! q.

(** Nothing in [d] has changed. *)
Definition same_in (d : path) (w w' : world) : Prop := forall r, files w' !! (r ++ d) = files w !! (r ++ d).

Lemma same_in_refl d w : same_in d w w.
Proof. done. Qed.

Lemma same_in_trans d w1 w2 w3 : same_in d w1 w2 -> same_in d w2 w3 -> same_in d w1 w3.
Proof. intros H1 H2 r. by rewrite H2. Qed.

Lemma child_same d a b q : child d a `suffix_of` q -> child d b `suffix_of` q -> a = b.
Proof.
  unfold child. intros [r1 ->] [r2 E].
  assert (El : length r1 = length r2) by (apply (f_equal length) in E; rewrite !length_app in E; simpl in E; lia).
  apply app_inj_1 in E as [_ E]; [by injection E|done].
Qed.

Lemma only_in_same d a b w w' : a <> b -> only_in (child d a) w w' -> same_in (child d b) w w'.
Proof.
  intros Hne Ho r. apply Ho. intros Hs. apply Hne, (child_same d a b (r ++ child d b)); [done|by exists r].
Qed.

(** New directories on the way to [child d a] are not in [child d b]. *)
Lemma touches_same_in d a b p w w' :
  a <> b -> child d a `suffix_of` p -> touches [] p w w' -> same_in (child d b) w w'.
Proof.
  intros Hne Hp [_ Ht] r. destruct (Ht (r ++ child d b)) as [?|(_ & _ & Hs)]; [set_solver|done|exfalso].
  apply Hne, (child_same d a b p); [done|]. etrans; [by exists r|done].
Qed.

Lemma touches_text p w w' q : touches [] p w w' -> read_text w' q = read_text w q.
Proof. intros [_ Ht]. unfold read_text. destruct (Ht q) as [->|(-> & -> & _)]; [set_solver|done..]. Qed.

(** No entry is left below a directory that is not there. *)
Definition rooted (w : world) (d : path) : Prop := present w d = false -> forall r, files w !! (r ++ d) = None.

Lemma same_in_rooted d w w' : same_in d w w' -> d <> [] -> rooted w d -> rooted w' d.
Proof.
  intros Hs Hd Hr Hp r. rewrite Hs. apply Hr. unfold present in *. destruct d; [done|].
  specialize (Hs []). cbn [app] in Hs. by rewrite <- Hs.
Qed.

Section calls.
Context `{Traversal}.

Lemma removable_subset w ps q : q ∈ removable w ps -> q ∈ ps.
Proof. unfold removable. rewrite !list_elem_of_In, filter_In. by intros []. Qed.

Lemma rmtree_ens d w :
  ensures (rmtree d) (fun _ w' => only_in d w w' /\ (d <> [] -> rooted w d -> rooted w' d) /\
    (forall q, files w' !! q = files w !! q \/ files w' !! q = None)) w.
Proof.
  assert (Hall : forall ps, (forall q, q ∈ ps -> d `suffix_of` q) ->
    only_in d w (remove_tree ps w) /\
    forall q, files (remove_tree ps w) !! q = files w !! q \/ files (remove_tree ps w) !! q = None).
  { intros ps Hps. split; [intros q Hq|intros q]; rewrite lookup_remove_tree; [rewrite decide_False; [done|naive_solver]|].
    case_decide; auto. }
  intros o. unfold rmtree. destruct (is_dir w d) eqn:Ed; [|simpl; split_and!; [done..|by left]].
  set (order := traversal (d :: descendants w d)).
  assert (Hin : forall q, q ∈ order -> d `suffix_of` q).
  { intros q. unfold order. rewrite traversal_perm, elem_of_cons, elem_of_descendants. by intros [->|[[? _] _]]. }
  assert (Hroot : forall ps, (forall q, q ∈ ps -> d `suffix_of` q) ->
    (d ∈ ps -> forall q, q ∈ descendants w d -> q ∈ ps) -> d <> [] -> rooted w d -> rooted (remove_tree ps w) d).
  { intros ps Hps Hclosed Hd Hr Hp r. rewrite lookup_remove_tree. case_decide as Hq; [done|].
    destruct (decide (d ∈ ps)) as [Hdp|Hdp].
    - destruct (files w !! (r ++ d)) as [x|] eqn:Ex; [exfalso|done]. apply Hq.
      destruct r as [|y r]; [done|]. apply Hclosed; [done|]. apply elem_of_descendants. split; [|eauto].
      split; [by exists (y :: r)|]. intros E. apply (f_equal length) in E. rewrite length_app in E. simpl in E. lia.
    - apply Hr. unfold present in *. destruct d; [done|]. rewrite lookup_remove_tree, decide_False in Hp by done. exact Hp. }
  assert (Hpart : forall n q, q ∈ removable w (take n order) -> d `suffix_of` q).
  { intros n q Hq%removable_subset. apply Hin. by eapply (subseteq_take n). }
  assert (Hclosed : forall n, d ∈ removable w (take n order) ->
    forall q, q ∈ descendants w d -> q ∈ removable w (take n order)).
  { intros n Hd q Hq. unfold removable in *. rewrite list_elem_of_In, filter_In, <- list_elem_of_In in *.
    destruct Hd as [_ Hd]. rewrite forallb_forall in Hd. split.
    - apply (bool_decide_eq_true_1 (q ∈ take n order)), Hd. by apply list_elem_of_In.
    - apply forallb_forall. intros q' Hq'. apply Hd. apply list_elem_of_In. apply list_elem_of_In in Hq'.
      apply elem_of_descendants in Hq as [[Hq1 Hq2] _], Hq' as [[Hq3 Hq4] Hs]. apply elem_of_descendants.
      split; [|done]. split; [by etrans|]. intros ->. apply Hq2. by apply suffix_length_eq; [|apply suffix_length]. }
  unfold stepwise, mbind, M_bind. destruct (next o) as [[|n|n] o']; simpl; [| |done].
  - destruct (Hall order Hin). split_and!; [done| |done]. apply Hroot; [done|]. intros _ q Hq. unfold order.
    rewrite traversal_perm. by right.
  - destruct (Hall (removable w (take n order)) (Hpart n)). split_and!; [done| |done]. by apply Hroot; [apply Hpart|apply Hclosed].
Qed.

End calls.

Lemma prune_returns `{Sha256} `{Traversal} now n w : ensures (prune_idle_transfers now n) (fun _ _ => True) w.
Proof.
  unfold prune_idle_transfers. apply (wp_for_each _ _ (fun _ _ _ => True)); [|done].
  intros before entry rest n' w' _ _. unfold prune_transfer. destruct (_ >=? _); [by apply ens_ret|].
  apply ens_bind. eapply ens_post; [|apply rmtree_ens]. intros _ w1 _. by apply ens_ret.
Qed.

(** ** Moving a tree *)

Lemma rekey_from from to r : rekey from to (r ++ from) = r ++ to.
Proof. unfold rekey. by rewrite strip_prefix_app. Qed.

Lemma rekey_other from to q : ~ from `suffix_of` q -> rekey from to q = q.
Proof.
  unfold rekey. intros Hq. destruct (strip_prefix from q) as [r|] eqn:E; [|done].
  apply strip_prefix_Some in E as ->. destruct Hq. by exists r.
Qed.

Lemma move_tree_spec d a b w w' :
  a <> b -> move_tree (child d a) (child d b) w = Some w' ->
  ((forall r, r <> [] -> files w !! (r ++ child d b) = None) ->
     forall r, files w' !! (r ++ child d b) = files w !! (r ++ child d a)) /\
  (forall r, files w' !! (r ++ child d a) = None) /\
  (forall q, ~ child d a `suffix_of` q -> ~ child d b `suffix_of` q -> files w' !! q = files w !! q).
Proof.
  intros Hne. unfold move_tree. destruct (_ && _); [|done]. intros [= <-]. cbn [files].
  set (from := child d a). set (to := child d b). set (m := files (drop_node to w)).
  assert (Hm : forall q, ~ to `suffix_of` q -> m !! q = files w !! q).
  { intros q Hq. unfold m. rewrite lookup_drop, decide_False; [done|]. intros <-. by apply Hq. }
  assert (Hapart : forall r, ~ to `suffix_of` (r ++ from)).
  { intros r Hs. apply Hne, (child_same d a b (r ++ from)); [by exists r|done]. }
  assert (Hkey : forall p, (exists r, p = r ++ from /\ rekey from to p = r ++ to) \/
                           ~ from `suffix_of` p /\ rekey from to p = p).
  { intros p. destruct (decide (from `suffix_of` p)) as [[r ->]|Hnp].
    - left. exists r. by rewrite rekey_from.
    - right. by rewrite rekey_other. }
  assert (Hlook : forall q, (forall p p' x x', rekey from to p = q -> rekey from to p' = q ->
      m !! p = Some x -> m !! p' = Some x' -> p = p') -> forall x,
    (list_to_map (prod_map (rekey from to) id <$> map_to_list m) : gmap path node) !! q = Some x <->
    exists p, rekey from to p = q /\ m !! p = Some x).
  { intros q Hq x. etransitivity; [symmetry; apply elem_of_list_to_map'|].
    - intros x' ([p y] & [= -> ->] & Hp%elem_of_map_to_list)%list_elem_of_fmap
        ([p' y'] & [= Ep ->] & Hp'%elem_of_map_to_list)%list_elem_of_fmap.
      assert (p = p') as -> by (by eapply Hq). cbn in *. congruence.
    - rewrite list_elem_of_fmap. split.
      + intros ([p y] & [= -> ->] & Hp%elem_of_map_to_list). eauto.
      + intros (p & <- & Hp). exists (p, x). split; [done|]. by apply elem_of_map_to_list. }
  split_and!.
  - intros Hfree r. assert (Hto : forall r, m !! (r ++ to) = None).
    { intros r'. unfold m. rewrite lookup_drop. case_decide as E; [done|]. apply Hfree. intros ->. done. }
    apply option_eq. intros x. etransitivity; [apply Hlook|].
    + intros p p' y y' Ep Ep' Hp Hp'. destruct (Hkey p) as [(r1 & -> & E1)|[_ E1]], (Hkey p') as [(r2 & -> & E2)|[_ E2]].
      * rewrite E1 in Ep. rewrite E2 in Ep'. apply app_inv_tail in Ep as ->. by apply app_inv_tail in Ep' as ->.
      * rewrite E2 in Ep'. subst p'. by rewrite Hto in Hp'.
      * rewrite E1 in Ep. subst p. by rewrite Hto in Hp.
      * congruence.
    + rewrite <- Hm by apply Hapart. split.
      * intros (p & Ep & Hp). destruct (Hkey p) as [(r1 & -> & E1)|[_ E1]]; rewrite E1 in Ep.
        -- by apply app_inv_tail in Ep as ->.
        -- subst p. by rewrite Hto in Hp.
      * intros Hx. exists (r ++ from). by rewrite rekey_from.
  - intros r. apply eq_None_ne_Some. intros x Hx. apply elem_of_list_to_map_2, list_elem_of_fmap in Hx.
    destruct Hx as ([p y] & [= E ->] & _). destruct (Hkey p) as [(r1 & -> & E1)|[Hn E1]]; rewrite E1 in E.
    + apply (Hapart r). exists r1. by rewrite <- E.
    + apply Hn. subst p. by exists r.
  - intros q Hf Ht.
    assert (Hsame : forall p, rekey from to p = q -> p = q).
    { intros p Ep. destruct (Hkey p) as [(r1 & -> & E1)|[_ E1]]; rewrite E1 in Ep; [|done].
      destruct Ht. by exists r1. }
    apply option_eq. intros x. etransitivity; [apply Hlook|].
    + intros p p' y y' ->%Hsame ->%Hsame. done.
    + rewrite <- Hm by done. split; [by intros (p & ->%Hsame & Hp)|]. intros Hx. exists q. by rewrite rekey_other.
Qed.

(** ** Writing at the end *)

Lemma splice_end content data : splice content (String.length content) data = content +:+ data.
Proof.
  unfold splice. rewrite substring_all, Nat.sub_diag. cbn [zeros Nat.iter].
  rewrite (substring_past (String.length content + String.length data)) by lia. by rewrite app_nil_r_str.
Qed.

(** ** Names *)

Definition plain (r : path) : Prop := r <> [] /\ Forall (fun c => lacks "/" c /\ lacks "\" c) r.

Lemma generic_string_rev name rest :
  generic_string (rev (name :: rest)) = name +:+ foldr (fun part s => String "/" part +:+ s) "" rest.
Proof. unfold generic_string. rewrite rev_involutive. apply generic_string_cons_acc. Qed.

Lemma plain_parts r : plain r -> split_on "/" (generic_string r) = rev r.
Proof.
  intros [Hne Hr]. rewrite <- (rev_involutive r). rewrite <- (rev_involutive r) in Hne, Hr.
  destruct (rev r) as [|name rest]; [done|]. rewrite rev_involutive, generic_string_rev.
  apply Forall_rev in Hr. rewrite rev_involutive in Hr. apply Forall_cons in Hr as [[Hn _] Hr].
  apply split_on_slashes; [done|]. eapply Forall_impl; [exact Hr|]. by intros ? [? _].
Qed.

Lemma plain_inj r1 r2 : plain r1 -> plain r2 -> generic_string r1 = generic_string r2 -> r1 = r2.
Proof.
  intros H1 H2 E. apply plain_parts in H1, H2. rewrite E, H2 in H1. apply (f_equal (@rev string)) in H1.
  by rewrite !rev_involutive in H1.
Qed.

Lemma normalize_lacks s : lacks "\" s -> normalize s = s.
Proof.
  unfold normalize. induction s as [|c s IH]; [done|]. intros [Hc Hs]%lacks_cons. simpl. rewrite IH by done.
  destruct (Ascii.eqb_spec c "\"); [done|done].
Qed.

Lemma plain_normal r : plain r -> normalize (generic_string r) = generic_string r.
Proof.
  intros [Hne Hr]. apply normalize_lacks. rewrite <- (rev_involutive r). apply Forall_rev in Hr.
  destruct (rev r) as [|name rest]; [done|]. rewrite generic_string_rev.
  apply Forall_cons in Hr as [[_ Hn] Hr]. rewrite lacks_app. split; [done|]. clear Hne.
  induction Hr as [|part rest [_ Hp] Hr IH]; [done|]. simpl. rewrite lacks_cons, lacks_app. by split_and!.
Qed.

(** The receiver takes a path apart the way the sender has put it together. *)
Lemma safe_relative_plain r parts : plain r -> safe_relative (generic_string r) = Some parts -> parts = rev r.
Proof.
  intros Hr. unfold safe_relative. rewrite plain_normal by done. destruct (_ <? _)%nat; [done|].
  destruct (_ || _); [done|]. destruct (existsb _ _); [done|]. intros [= <-]. by apply plain_parts.
Qed.

Lemma join_plain r : join_parts (rev r) = generic_string r.
Proof. unfold join_parts. by rewrite rev_involutive. Qed.

(** ** The state of a transfer *)

Section transfer.
Context `{Sha256} `{Traversal}.
Context (event id : string) (box : path).
Hypothesis event_valid : validate_event_name event = true.

Abbreviation staging := (child box ("." +:+ event +:+ "." +:+ id +:+ ".part")).
Abbreviation final := (child box event).

(** Other transfers have staging directories of their own. *)
Record apart (n : ReceiverNode) : Prop := {
  ap_box : inbox n = box;
  ap_keys : map_Forall (fun k ts => k = (ts_event ts, ts_id ts)) (transfers n);
  ap_others : map_Forall (fun k ts => k <> (event, id) -> staging_dir n k.1 k.2 <> staging) (transfers n)
}.

(** [have] says how many bytes are announced for each file and what has come. *)
Definition file_state (p : Z * string) : FileState :=
  {| fs_expected := p.1; fs_received := byte_size p.2; hashed := p.2 |}.

Record holding (have : gmap string (Z * string)) (n : ReceiverNode) (w : world) : Prop := {
  ho_entry : exists ts, transfers n !! (event, id) = Some ts /\ ts_event ts = event /\ ts_id ts = id /\
               ts_files ts = file_state <$> have;
  ho_files : forall r c, read_text w (r ++ staging) = Some c <->
               plain r /\ exists z, have !! generic_string r = Some (z, c)
}.

Lemma event_not_dotted name : event <> String "." name.
Proof. intros ->. unfold validate_event_name in event_valid. by rewrite andb_false_r in event_valid. Qed.

Lemma staging_final other : "." +:+ other <> event.
Proof. intros E. by apply (event_not_dotted other). Qed.

Lemma read_text_same d w w' : same_in d w w' -> forall r, read_text w' (r ++ d) = read_text w (r ++ d).
Proof. intros Hs r. unfold read_text. by rewrite Hs. Qed.

Lemma holding_same have n n' w w' :
  transfers n' !! (event, id) = transfers n !! (event, id) -> same_in staging w w' ->
  holding have n w -> holding have n' w'.
Proof.
  intros Ht Hs [He Hf]. split; [by rewrite Ht|]. intros r c. by rewrite (read_text_same _ _ _ Hs).
Qed.

(** ** Pruning *)

Definition pruned (n n' : ReceiverNode) : Prop := inbox n' = inbox n /\ transfers n' ⊆ transfers n.

Lemma prune_ens now n w :
  apart n ->
  ensures (prune_idle_transfers now n) (fun n' w' => apart n' /\ pruned n n' /\ same_in final w w' /\
    (is_Some (transfers n' !! (event, id)) -> same_in staging w w') /\ (rooted w staging -> rooted w' staging)) w.
Proof.
  intros [Hb Hk Ho]. unfold prune_idle_transfers.
  eapply ens_post; [|apply (wp_for_each _ _ (fun done n' w' =>
    pruned n n' /\ same_in final w w' /\ (is_Some (transfers n' !! (event, id)) -> same_in staging w w') /\
    (rooted w staging -> rooted w' staging)))].
  - intros n' w' ([Hi Hsub] & Hf & Hs & Hr). split_and!; try done. split; [congruence| |].
    + intros k ts Hts. apply (Hk k ts). by eapply lookup_weaken.
    + intros k ts Hts Hne. unfold staging_dir. rewrite Hi. apply (Ho k ts); [by eapply lookup_weaken|done].
  - intros before [k ts] rest n' w' Hl ([Hi Hsub] & Hf & Hs & Hr). unfold prune_transfer. cbn [fst snd].
    destruct (_ >=? _); [by apply ens_ret|]. apply ens_bind.
    assert (Hts : transfers n !! k = Some ts).
    { apply elem_of_map_to_list. rewrite Hl. apply elem_of_app. right. by left. }
    pose proof (Hk k ts Hts) as Ek. cbn in Ek. eapply ens_post; [|apply rmtree_ens].
    intros _ w1 (Hin & Hroot & _). apply ens_ret. unfold staging_dir in Hin, Hroot. rewrite Hi, Hb in Hin, Hroot.
    assert (Hother : k <> (event, id) -> same_in staging w' w1).
    { intros Hne. eapply only_in_same; [|exact Hin]. pose proof (Ho k ts Hts Hne) as Hd. unfold staging_dir in Hd.
      rewrite Hb, Ek in Hd. cbn [fst snd] in Hd. intros E. apply Hd. unfold child. by rewrite E. }
    split; [split; [done|]|split; [|split]].
    + cbn [transfers with_transfers]. etrans; [apply delete_subseteq|done].
    + eapply same_in_trans; [exact Hf|]. eapply only_in_same; [|exact Hin]. apply staging_final.
    + cbn [transfers with_transfers]. intros [ts' Hts']. apply lookup_delete_Some in Hts' as [Hne Hts'].
      eapply same_in_trans; [apply Hs; eauto|]. by apply Hother.
    + intros Hw. specialize (Hr Hw). destruct (decide (k = (event, id))) as [E|Hne].
      * rewrite E in Ek. injection Ek as E1 E2. rewrite <- E1, <- E2 in Hroot. by apply Hroot.
      * eapply same_in_rooted; [by apply Hother|done..].
  - split; [by split|]. done.
Qed.

Lemma apart_put n ts :
  apart n -> ts_event ts = event -> ts_id ts = id -> apart (put_transfer ts n).
Proof.
  intros [Hb Hk Ho] E1 E2. unfold put_transfer. rewrite E1, E2. split; [done| |].
  - apply map_Forall_insert_2; [by rewrite E1, E2|done].
  - apply map_Forall_insert_2; [done|]. intros k t Ht Hne. apply (Ho k t Ht Hne).
Qed.

(** ** BEGIN *)

Lemma begin_ens now count bytes n w :
  apart n -> rooted w staging ->
  ensures (handle_request now (begin_request event id count bytes) n)
    (accepted (fun n' w' => apart n' /\ holding ∅ n' w' /\ same_in final w w')) w.
Proof.
  intros Hap Hr. unfold handle_request. apply ens_bind. eapply ens_post; [|by apply prune_ens].
  intros n1 w1 (Hap1 & _ & Hf1 & _ & Hr1). specialize (Hr1 Hr). unfold dispatch. cbn [event_name transfer_id begin_request].
  destruct (_ || _); [apply ens_refused|]. cbn [opcode file_count total_bytes begin_request]. apply ens_guarded.
  unfold begin_transfer. repeat (match goal with |- context [if ?b then _ else _] => destruct b end; [apply ens_refused|]).
  pose proof (ap_box n1 Hap1) as Hb. unfold staging_dir. rewrite Hb.
  apply ens_bind. eapply ens_post; [|apply rmtree_ens]. intros _ w2 (Hin & Hr2 & _). specialize (Hr2 ltac:(done) Hr1).
  apply ens_bind. unfold mkdir_new. apply ens_bind, ens_must_read. intros [] Ep; [apply ens_throw|].
  assert (Ep' : present w2 staging = false) by congruence. clear Ep. rename Ep' into Ep. specialize (Hr2 Ep).
  apply ens_must. apply (create_directories_wp [] staging staging); [done|]. intros w3 Ht3.
  split; [done|]. split; [done|]. intros _ _. apply ens_ret. intros _. cbn [snd].
  split; [by apply apart_put|]. split; [split|].
  - eexists. split; [apply lookup_insert_eq|]. by rewrite fmap_empty.
  - intros r c. rewrite (touches_text staging w2 w3) by done. unfold read_text. rewrite Hr2. split; [done|].
    intros (_ & z & Hz). by rewrite lookup_empty in Hz.
  - eapply same_in_trans; [exact Hf1|]. eapply same_in_trans; [eapply only_in_same; [|exact Hin]; apply staging_final|].
    eapply touches_same_in; [|done|exact Ht3]. apply staging_final.
Qed.

(** ** FILE_CHUNK *)

Lemma present_lookup w p : present w p = false -> files w !! p = None.
Proof. unfold present. destruct p; [done|]. by destruct (files w !! _). Qed.

(** Nothing but [p] itself has changed. *)
Definition only_at (p : path) (w w' : world) : Prop := forall q, q <> p -> files w' !! q = files w !! q.

Lemma put_only_at p x w : only_at p w (put p x w).
Proof. intros q Hq. rewrite lookup_put, decide_False; [done|congruence]. Qed.

Lemma write_output_ens target bytes content w :
  read_text w target = Some content ->
  ensures (write_output target (String.length content) bytes)
    (fun _ w' => read_text w' target = Some (content +:+ bytes) /\ only_at target w w') w.
Proof.
  intros Hc. unfold write_output. apply ens_must. unfold read_text in Hc.
  destruct (files w !! target) as [[c m| |]|] eqn:Ef; simplify_eq.
  apply wp_stepwise; [done|done|]. intros w' [= <-]. split; [|done]. intros _. unfold write_at. rewrite Ef. split.
  - unfold read_text. rewrite lookup_put, decide_True by done. by rewrite splice_end.
  - apply put_only_at.
Qed.

Lemma write_ens {A} target bytes content (k : M A) (Q : A -> world -> Prop) w :
  (read_text w target = Some content \/ read_text w target = None /\ content = "") ->
  (forall w', read_text w' target = Some (content +:+ bytes) -> only_at target w w' -> ensures k Q w') ->
  ensures (_ ← open_output (present w target) target; _ ← write_output target (String.length content) bytes; k) Q w.
Proof.
  intros Hc Hk.
  assert (Hwrite : forall w1, only_at target w w1 -> read_text w1 target = Some content ->
    ensures (_ ← write_output target (String.length content) bytes; k) Q w1).
  { intros w1 Ho Ht. apply ens_bind. eapply ens_post; [|by apply write_output_ens]. intros _ w2 [Ht2 Ho2].
    apply Hk; [done|]. intros q Hq. by rewrite Ho2, Ho. }
  apply ens_bind. unfold open_output. destruct (present w target) eqn:Ep; apply ens_must, wp_atomically; try done.
  - intros w'. destruct (is_file w target) eqn:Ef; [|done]. intros [= <-]. split; [|done]. intros _.
    destruct Hc as [Hc|[Hc _]]; [by apply Hwrite|]. exfalso. unfold is_file, read_text in *.
    by destruct (files w !! target) as [[]|].
  - apply present_lookup in Ep. intros w'. unfold open_for_writing. rewrite Ep. destruct (negb _); [done|].
    intros [= <-]. split; [|done]. intros _.
    assert (content = "") as -> by (unfold read_text in Hc; rewrite Ep in Hc; naive_solver).
    apply Hwrite; [apply put_only_at|]. unfold read_text. by rewrite lookup_put, decide_True.
Qed.

(** A chunk that follows what has come. *)
Definition next_chunk (r : path) (size : Z) (old bytes : string) : Request :=
  {| event_name := event; transfer_id := id; opcode := FILE_CHUNK; file_path := generic_string r;
     offset := byte_size old; total_bytes := size; file_count := 0; data := bytes |}.

Definition follows (have : gmap string (Z * string)) (r : path) (size : Z) (old : string) : Prop :=
  have !! generic_string r = Some (size, old) \/ have !! generic_string r = None /\ old = "".

Lemma byte_size_length s : Z.to_nat (byte_size s) = String.length s.
Proof. unfold byte_size. lia. Qed.

Lemma write_chunk_ens r size old bytes have ts w :
  plain r -> follows have r size old -> ts_files ts = <[generic_string r := file_state (size, old)]> (file_state <$> have) ->
  (forall r' c, read_text w (r' ++ staging) = Some c <-> plain r' /\ exists z, have !! generic_string r' = Some (z, c)) ->
  ensures (write_chunk (r ++ staging) (generic_string r) (byte_size old) bytes (file_state (size, old)) ts)
    (accepted (fun ts' w' => ts_event ts' = ts_event ts /\ ts_id ts' = ts_id ts /\
       ts_files ts' = file_state <$> <[generic_string r := (size, old +:+ bytes)]> have /\
       (forall r' c, read_text w' (r' ++ staging) = Some c <->
          plain r' /\ exists z, <[generic_string r := (size, old +:+ bytes)]> have !! generic_string r' = Some (z, c)) /\
       same_in final w w')) w.
Proof.
  intros Hr Hfol Hts Hw. unfold write_chunk. apply ens_bind, ens_must.
  assert (Hp : staging `suffix_of` parent_path (r ++ staging)).
  { destruct r as [|name r0]; [by destruct Hr|]. by exists r0. }
  apply (create_directories_wp [] (parent_path (r ++ staging)) (parent_path (r ++ staging))); [done|]. intros w1 Ht1.
  split; [done|]. split; [done|]. intros _ _. cbn [file_state fs_received fs_expected hashed fst snd].
  rewrite Z.ltb_irrefl, Z.eqb_refl. cbn [negb]. apply ens_bind, ens_must_read. intros there [= <-].
  assert (Hw1 : forall r' c, read_text w1 (r' ++ staging) = Some c <->
    plain r' /\ exists z, have !! generic_string r' = Some (z, c)).
  { intros r' c. by rewrite (touches_text _ w w1 _ Ht1). }
  assert (Hold : read_text w1 (r ++ staging) = Some old \/ read_text w1 (r ++ staging) = None /\ old = "").
  { destruct Hfol as [Hh|[Hh ->]]; [left; apply Hw1; eauto|right]. split; [|done]. apply eq_None_ne_Some.
    intros c (_ & z & Hz)%Hw1. congruence. }
  rewrite byte_size_length.
  apply write_ens; [exact Hold|]. intros w2 Ht2 Ho2. apply ens_ret. intros _.
  cbn [snd ts_event ts_id ts_files with_ts_files]. split_and!; [done|done| | |].
  - rewrite Hts, fmap_insert, insert_insert_eq. f_equal. unfold file_state, byte_size. cbn [fst snd].
    f_equal. rewrite length_app_str. lia.
  - intros r' c. destruct (decide (r' = r)) as [->|Hne].
    + rewrite Ht2, lookup_insert_eq. naive_solver.
    + assert (Hsame : read_text w2 (r' ++ staging) = read_text w1 (r' ++ staging)).
      { unfold read_text. rewrite Ho2; [done|]. intros E%app_inv_tail. done. }
      rewrite Hsame, Hw1. split; intros [Hp' [z Hz]]; (split; [done|]); exists z.
      * rewrite lookup_insert_ne; [done|]. by intros E%plain_inj.
      * rewrite lookup_insert_ne in Hz; [done|]. by intros E%plain_inj.
  - eapply same_in_trans; [eapply touches_same_in; [|exact Hp|exact Ht1]; apply staging_final|].
    intros x. apply Ho2. intros E. apply (staging_final (event +:+ "." +:+ id +:+ ".part")), (child_same box _ _ (x ++ final));
      [rewrite E; by exists r|by exists x].
Qed.

Lemma chunk_ens now r size old bytes have n w :
  apart n -> holding have n w -> plain r -> follows have r size old ->
  ensures (handle_request now (next_chunk r size old bytes) n)
    (accepted (fun n' w' => apart n' /\ holding (<[generic_string r := (size, old +:+ bytes)]> have) n' w' /\
                            same_in final w w')) w.
Proof.
  intros Hap Hho Hr Hfol. unfold handle_request. apply ens_bind. eapply ens_post; [|by apply prune_ens].
  intros n1 w1 (Hap1 & [_ Hsub] & Hf1 & Hs1 & _). unfold dispatch, next_chunk. cbn [event_name transfer_id opcode].
  destruct (_ || _); [apply ens_refused|]. destruct (transfers n1 !! (event, id)) as [ts|] eqn:Ets; [|apply ens_refused].
  assert (Hho1 : holding have n1 w1).
  { apply (holding_same have n n1 w); [|by apply Hs1|done]. rewrite Ets. symmetry. by eapply lookup_weaken. }
  destruct Hho1 as [(ts' & Hts' & Ee & Ei & Efiles) Hfiles]. rewrite Ets in Hts'. injection Hts' as <-.
  apply ens_bind. unfold store_chunk. cbn [file_path].
  destruct (safe_relative (generic_string r)) as [parts|] eqn:Esafe; [|by apply ens_ret, ens_refused].
  apply safe_relative_plain in Esafe as ->; [|done]. rewrite join_plain, rev_involutive. cbv zeta.
  match goal with |- context [if ?b then _ else _] => destruct b end; [by apply ens_ret, ens_refused|].
  cbn [with_canonical with_activity ts_files total_bytes offset data].
  assert (Hfs : default {| fs_expected := size; fs_received := 0; hashed := "" |} (ts_files ts !! generic_string r) =
                file_state (size, old)).
  { rewrite Efiles, lookup_fmap. destruct Hfol as [->|[-> ->]]; done. }
  rewrite Hfs. cbn [file_state fs_expected fst snd]. rewrite Z.eqb_refl. cbn [negb].
  match goal with |- context [if ?b then _ else _] => destruct b end; [by apply ens_ret, ens_refused|].
  assert (Hb : staging_dir n1 event id = staging) by (unfold staging_dir; by rewrite (ap_box n1 Hap1)). rewrite Hb.
  eapply ens_post; [|apply ens_guarded, (write_chunk_ens r size old bytes have); [done|done| |exact Hfiles]].
  - intros [response ts2] w2 Hacc. apply ens_ret. intros Hok. destruct (Hacc Hok) as (E1 & E2 & E3 & E4 & E5).
    cbn [snd] in *. cbn [ts_event ts_id with_ts_files with_canonical with_activity] in E1, E2. rewrite Ee in E1. rewrite Ei in E2.
    split; [by apply apart_put|]. split; [split; [|done]|].
    + exists ts2. split_and!; [|done..]. unfold put_transfer. rewrite E1, E2. apply lookup_insert_eq.
    + by eapply same_in_trans.
  - cbn [ts_files with_ts_files with_canonical with_activity]. by rewrite Efiles.
Qed.

(** ** END *)

Lemma quiet_ens {A} (m : M A) (Q : A -> world -> Prop) w :
  ensures m (fun _ w' => w' = w) w -> (forall a, Q a w) -> ensures m Q w.
Proof. intros Hm HQ. eapply ens_post; [|exact Hm]. intros a w' ->. apply HQ. Qed.

Lemma quiet_read {A} (f : world -> option A) w : ensures (must_read f) (fun _ w' => w' = w) w.
Proof. by apply ens_must_read. Qed.

Lemma quiet_bind {A B} (m : M A) (k : A -> M B) w :
  ensures m (fun _ w' => w' = w) w -> (forall a, ensures (k a) (fun _ w' => w' = w) w) ->
  ensures (m ≫= k) (fun _ w' => w' = w) w.
Proof. intros Hm Hk. apply ens_bind. by apply quiet_ens. Qed.

Lemma quiet_complete d l w : ensures (files_complete d l) (fun _ w' => w' = w) w.
Proof.
  induction l as [|[relative fs] l IH]; cbn [files_complete]; [by apply ens_ret|].
  apply quiet_bind; [apply quiet_read|]. intros actual. destruct (_ || _); [by apply ens_ret|].
  apply quiet_bind; [apply quiet_read|done].
Qed.

Lemma quiet_checksums d ts w : ensures (verify_checksums d ts) (fun _ w' => w' = w) w.
Proof.
  unfold verify_checksums. apply quiet_bind; [apply quiet_read|]. intros b. destruct (negb b); [by apply ens_ret|].
  apply quiet_bind; [apply quiet_read|]. intros text. destruct (_ >? _); [by apply ens_ret|].
  destruct (manifest_lines _ _); by apply ens_ret.
Qed.

Abbreviation backup := (child box ("." +:+ event +:+ ".backup")).

Lemma backup_staging : "." +:+ event +:+ ".backup" <> "." +:+ event +:+ "." +:+ id +:+ ".part".
Proof.
  rewrite <- !app_assoc_str. intros E%(f_equal str_last).
  change ".backup" with (String "." "backup") in E. change ".part" with (String "." "part") in E.
  by rewrite !str_last_app in E.
Qed.

Lemma backup_final : "." +:+ event +:+ ".backup" <> event.
Proof. apply staging_final. Qed.

Lemma replace_ens from to w (Q : unit -> world -> Prop) :
  (forall w', move_tree from to w = Some w' -> Q tt w') -> ensures (replace_dir from to) Q w.
Proof.
  intros HQ. unfold replace_dir. apply ens_must, wp_atomically; [done|done|]. intros w' Hm. split; [|done].
  intros _. by apply HQ.
Qed.

(** The directory that has been collected takes the place of the event's. *)
Lemma publish_ens n ts w :
  apart n -> ts_event ts = event -> ts_id ts = id -> rooted w final ->
  ensures (publish_transfer n ts) (fun _ w' => forall r, files w' !! (r ++ final) = files w !! (r ++ staging)) w.
Proof.
  intros Hap Ee Ei Hr. unfold publish_transfer, staging_dir, final_dir, backup_dir. rewrite (ap_box n Hap), Ee, Ei.
  apply ens_bind. eapply ens_post; [|apply rmtree_ens]. intros _ w1 (Hin & _ & _).
  assert (Hs1 : same_in staging w w1) by (eapply only_in_same; [|exact Hin]; apply backup_staging).
  assert (Hf1 : same_in final w w1) by (eapply only_in_same; [|exact Hin]; apply backup_final).
  assert (Hr1 : rooted w1 final) by (by eapply same_in_rooted).
  assert (Hmove : forall w2, same_in staging w w2 -> (forall r, files w2 !! (r ++ final) = None) ->
    ensures (catch (replace_dir staging final)
      (backupThere ← must_read (fun w => Some (present w backup));
       finalThere ← must_read (fun w => Some (present w final));
       _ ← (if backupThere && negb finalThere then replace_dir backup final else mret tt);
       throw)) (fun _ w' => forall r, files w' !! (r ++ final) = files w !! (r ++ staging)) w2).
  { intros w2 Hs2 Hn2. apply wp_catch. eapply wp_mono; [| | |apply (replace_ens _ _ _
      (fun _ w' => forall r, files w' !! (r ++ final) = files w !! (r ++ staging)))]; [done| |done|].
    - intros w3 _. apply ens_bind, ens_must_read. intros b1 _. apply ens_bind, ens_must_read. intros b2 _.
      apply ens_bind. destruct (b1 && negb b2); [apply replace_ens|apply ens_ret]; intros; apply ens_throw.
    - intros w3 Hm r. apply move_tree_spec in Hm as (H1 & _ & _); [|apply staging_final].
      rewrite H1 by done. apply Hs2. }
  apply ens_bind, quiet_ens; [apply quiet_read|]. intros _. apply ens_bind, ens_must_read. intros there Eth.
  apply ens_bind. destruct there.
  - apply replace_ens. intros w2 Hm. apply move_tree_spec in Hm as (_ & H2 & H3); [|apply not_eq_sym, backup_final].
    apply Hmove; [|exact H2]. eapply same_in_trans; [exact Hs1|]. intros r. apply H3.
    + intros Hs. apply (staging_final (event +:+ "." +:+ id +:+ ".part")), (child_same box _ _ (r ++ staging)); [by exists r|done].
    + intros Hs. apply backup_staging, (child_same box _ _ (r ++ staging)); [done|by exists r].
  - apply ens_ret. apply Hmove; [done|]. apply Hr1. congruence.
Qed.

Lemma end_ens now have n w :
  apart n -> holding have n w -> rooted w final ->
  ensures (handle_request now (end_request event id) n)
    (accepted (fun _ w' => forall r c, read_text w' (r ++ final) = Some c <->
       plain r /\ exists z, have !! generic_string r = Some (z, c))) w.
Proof.
  intros Hap Hho Hr. unfold handle_request. apply ens_bind. eapply ens_post; [|by apply prune_ens].
  intros n1 w1 (Hap1 & [_ Hsub] & Hf1 & Hs1 & _). unfold dispatch, end_request. cbn [event_name transfer_id opcode].
  destruct (_ || _); [apply ens_refused|]. destruct (transfers n1 !! (event, id)) as [ts|] eqn:Ets; [|apply ens_refused].
  assert (Hho1 : holding have n1 w1).
  { apply (holding_same have n n1 w); [|by apply Hs1|done]. rewrite Ets. symmetry. by eapply lookup_weaken. }
  destruct Hho1 as [(ts' & Hts' & Ee & Ei & _) Hfiles]. rewrite Ets in Hts'. injection Hts' as <-.
  set (ts1 := with_activity now ts). set (n2 := put_transfer ts1 n1).
  assert (Hap2 : apart n2) by (by apply apart_put).
  apply ens_guarded. unfold finish. destruct (negb _); [apply ens_refused|]. destruct (negb _); [apply ens_refused|].
  apply ens_bind, quiet_ens; [apply quiet_complete|]. intros complete. destruct (negb complete); [apply ens_refused|].
  apply ens_bind, quiet_ens; [apply quiet_checksums|]. intros verified. destruct (negb verified); [apply ens_refused|].
  apply ens_bind, quiet_ens; [apply quiet_read|]. intros _. apply ens_bind.
  eapply ens_post; [|apply (publish_ens n2 ts1 w1 Hap2 Ee Ei); by eapply same_in_rooted]. intros [] w2 H2.
  apply ens_bind. eapply ens_post; [|apply rmtree_ens]. intros _ w3 (Hin & _ & _).
  apply ens_bind, quiet_ens; [apply quiet_read|]. intros _. apply ens_ret. intros _ r c.
  assert (Hs : same_in final w2 w3).
  { unfold backup_dir in Hin. rewrite (ap_box n2 Hap2) in Hin. cbn [ts1 with_activity ts_event] in Hin. rewrite Ee in Hin.
    eapply only_in_same; [|exact Hin]. apply backup_final. }
  rewrite (read_text_same _ _ _ Hs). unfold read_text. rewrite H2. apply Hfiles.
Qed.

End transfer.

(** ** The chunks of a transfer, one after the other *)

(** What the receiver has when these files have come. *)
Definition delivery (w : world) (info : FileInfo) : string * (Z * string) :=
  (fi_relative info, (fi_size info, content w (fi_path info))).

Definition deliveries (w : world) (infos : list FileInfo) : gmap string (Z * string) :=
  list_to_map (delivery w <$> infos).

(** The relative path of a file is of that kind. *)
Definition named (good : path -> Prop) (info : FileInfo) : Prop := exists r, good r /\ fi_relative info = generic_string r.

Section stepping.
Context (event id : string) (good : path -> Prop).
(** A state of the transfer, what is known of the requests that follow it, and what is shown of them. *)
Context (state : gmap string (Z * string) -> list Request -> Prop) (known shown : list Request -> list Request -> Prop).
Hypothesis known_app : forall l a b, known l (a ++ b) -> known l a /\ known (l ++ a) b.
Hypothesis shown_nil : forall l, shown l [].
Hypothesis shown_app : forall l a b, shown l a -> shown (l ++ a) b -> shown l (a ++ b).
Hypothesis chunk_step : forall have l r size old bytes,
  state have l -> good r -> follows have r size old -> byte_size old + byte_size bytes <= size ->
  known l [next_chunk event id r size old bytes] ->
  shown l [next_chunk event id r size old bytes] /\
  state (<[generic_string r := (size, old +:+ bytes)]> have) (l ++ [next_chunk event id r size old bytes]).

Lemma pieces_step info r n chunk c at_ have l :
  good r -> fi_relative info = generic_string r -> fi_size info = byte_size c -> (0 < chunk)%nat ->
  (at_ < String.length c)%nat -> (String.length c - at_ <= n)%nat ->
  state have l -> follows have r (fi_size info) (String.substring 0 at_ c) ->
  let reqs := (fun p : nat * string => chunk_request event id info (Z.of_nat p.1) p.2) <$> pieces n chunk c at_ in
  known l reqs -> shown l reqs /\ state (<[generic_string r := (fi_size info, c)]> have) (l ++ reqs).
Proof.
  intros Hr Hrel Hsz Hchunk. cbv zeta. revert at_ have l. induction n as [|n IH]; intros at_ have l Hat Hn Hst Hf; [lia|].
  cbn [pieces]. replace (at_ <? String.length c)%nat with true by lia. csimpl.
  set (bytes := String.substring at_ chunk c). set (old := String.substring 0 at_ c).
  assert (Hold : byte_size old = Z.of_nat at_) by (unfold byte_size, old; rewrite substring_length; lia).
  assert (Hfit : byte_size old + byte_size bytes <= fi_size info).
  { rewrite Hold, Hsz. unfold byte_size, bytes. rewrite substring_length. lia. }
  assert (Ereq : chunk_request event id info (Z.of_nat at_) bytes = next_chunk event id r (fi_size info) old bytes).
  { unfold chunk_request, next_chunk. by rewrite Hrel, Hold. }
  rewrite Ereq. set (req := next_chunk _ _ _ _ _ _). set (rest := _ <$> _). change (req :: rest) with ([req] ++ rest).
  intros [Hreq Hrest]%known_app. destruct (chunk_step have l r (fi_size info) old bytes) as [Hshow Hnext]; [done..|].
  assert (Hjoin : old +:+ bytes = String.substring 0 (at_ + chunk) c).
  { unfold old, bytes. symmetry. apply (substring_split 0 at_ chunk). }
  rewrite Hjoin in Hnext. destruct (Nat.lt_ge_cases (at_ + chunk) (String.length c)) as [Hmore|Hdone].
  - rewrite (assoc_L (++)). destruct (IH (at_ + chunk)%nat _ _ Hmore ltac:(lia) Hnext) as [Hs Hst']; [|done|].
    { left. by rewrite lookup_insert_eq. }
    rewrite insert_insert_eq in Hst'. split; [by apply shown_app|done].
  - unfold rest. rewrite pieces_past by done. csimpl. split; [done|].
    by rewrite (substring_more 0 (String.length c)), substring_all in Hnext by lia.
Qed.

Lemma file_step info r chunk c have l :
  good r -> fi_relative info = generic_string r -> fi_size info = byte_size c -> (0 < chunk)%nat ->
  state have l -> have !! generic_string r = None -> known l (file_requests event id chunk info c) ->
  shown l (file_requests event id chunk info c) /\
  state (<[generic_string r := (fi_size info, c)]> have) (l ++ file_requests event id chunk info c).
Proof.
  intros Hr Hrel Hsz Hchunk Hst Hnew. unfold file_requests. destruct (Z.eqb_spec (fi_size info) 0) as [Hz|Hz].
  - assert (c = "") as -> by (destruct c; [done|unfold byte_size in Hsz; simpl in Hsz; lia]).
    assert (E : chunk_request event id info 0 "" = next_chunk event id r (fi_size info) "" "").
    { unfold chunk_request, next_chunk. by rewrite Hrel. }
    rewrite E. apply chunk_step; [done..|by right|]. rewrite Hz. done.
  - unfold byte_size in Hsz. apply pieces_step; try done; [lia..|]. right. by rewrite substring_nil.
Qed.

Lemma files_step w d chunk infos before l :
  Forall (described w d) infos -> Forall (named good) infos -> NoDup (fi_relative <$> rev infos ++ before) ->
  (0 < chunk)%nat -> state (deliveries w before) l -> known l (files_requests event id chunk w infos) ->
  shown l (files_requests event id chunk w infos) /\
  state (deliveries w (rev infos ++ before)) (l ++ files_requests event id chunk w infos).
Proof.
  intros Hd Hp Hnd Hchunk. revert before l Hnd. unfold files_requests.
  induction infos as [|info infos IH]; intros before l Hnd Hst; csimpl; [by rewrite app_nil_r|].
  apply Forall_cons in Hd as [Hi Hd], Hp as [(r & Hr & Hrel) Hp]. cbn [rev] in *.
  rewrite <- (assoc_L (++)) in Hnd |- *. cbn [app] in Hnd |- *. intros [Hk1 Hk2]%known_app.
  destruct Hi as [(c & m & Hf & Hsz) _].
  assert (Hc : content w (fi_path info) = c) by (unfold content, read_text; by rewrite Hf). rewrite Hc in *.
  assert (E : deliveries w (info :: before) = <[generic_string r := (fi_size info, c)]> (deliveries w before)).
  { unfold deliveries. csimpl. by rewrite Hc, Hrel. }
  destruct (file_step info r chunk c (deliveries w before) l) as [Hs1 Hst1]; [done..| |done|].
  { rewrite <- Hrel. apply not_elem_of_list_to_map_1. rewrite <- list_fmap_compose.
    rewrite fmap_app, fmap_cons in Hnd. by apply NoDup_app in Hnd as (_ & _ & [Hnd _]%NoDup_cons). }
  rewrite <- E in Hst1. destruct (IH Hd Hp (info :: before) _ Hnd Hst1 Hk2) as [Hs2 Hst2].
  split; [by apply shown_app|]. by rewrite (assoc_L (++)).
Qed.

End stepping.

(** ** The receiver as the service of the uploader *)

Section service.
Context `{Sha256} `{Traversal} `{Listing}.
(** Where the receiver starts, when the requests come, what fails while each of
    them is handled and after a crash, and which answers get lost. *)
Context (start : ReceiverNode * world) (moment : nat -> Z) (mishaps recovery : nat -> list fault)
        (ready lost : nat -> bool).

(** A new process in the place of one that has died. *)
Definition reborn (i : nat) (directory : path) (w : world) : ReceiverNode * world :=
  match newReceiverNode directory (recovery i) w with
  | Done n w' _ => (n, w')
  | Threw w' _ | Crashed w' => ({| inbox := directory; transfers := ∅ |}, w')
  | Stuck _ => ({| inbox := directory; transfers := ∅ |}, w)
  end.

Definition serve (i : nat) (request : Request) (s : ReceiverNode * world) : option Response * (ReceiverNode * world) :=
  match handle_request (moment i) request s.1 (mishaps i) s.2 with
  | Done (response, n) w _ => (Some response, (n, w))
  | Threw w _ => (None, (s.1, w))
  | Crashed w => (None, reborn i (inbox s.1) w)
  | Stuck _ => (None, s)
  end.

Fixpoint serve_all (i : nat) (l : list Request) (s : ReceiverNode * world) : ReceiverNode * world :=
  match l with [] => s | request :: rest => serve_all (S i) rest (serve i request s).2 end.

Definition served (l : list Request) : ReceiverNode * world := serve_all 0 l start.

Definition receiver_service : Service :=
  {| service_is_ready l := ready (length l);
     respond l request := if lost (length l) then None else (serve (length l) request (served l)).1 |}.

#[local] Existing Instance receiver_service.

Lemma serve_all_snoc i l request s :
  serve_all i (l ++ [request]) s = (serve (i + length l) request (serve_all i l s)).2.
Proof.
  revert i s. induction l as [|r l IH]; intros i s; cbn [app serve_all length]; [by rewrite Nat.add_0_r|].
  rewrite IH. cbn [Nat.add]. by rewrite Nat.add_succ_r.
Qed.

(** An acknowledged request has been handled, and accepted. *)
Lemma acked_accepted (P : ReceiverNode -> world -> Prop) l request :
  ensures (handle_request (moment (length l)) request (served l).1) (accepted P) (served l).2 ->
  acked l [request] -> P (served (l ++ [request])).1 (served (l ++ [request])).2.
Proof.
  intros He [[_ (response & Hresp & Hok)] _]. cbn in Hresp. destruct (lost (length l)); [done|].
  unfold served in *. rewrite serve_all_snoc. cbn [Nat.add]. specialize (He (mishaps (length l))).
  unfold serve in *. destruct (handle_request _ _ _ _ _) as [[response' n] w' o'| | |]; cbn in *; try done.
  injection Hresp as ->. by apply He.
Qed.

(** No transfer begins for a name that the receiver does not accept. *)
Lemma begun_valid event id count bytes l :
  acked l [begin_request event id count bytes] -> validate_event_name event = true.
Proof.
  intros Hack. destruct (validate_event_name event) eqn:Ev; [done|exfalso].
  apply (acked_accepted (fun _ _ => False) l (begin_request event id count bytes)); [|done].
  unfold handle_request. apply ens_bind. eapply ens_post; [|apply prune_returns]. intros n w _.
  unfold dispatch. cbn [event_name begin_request]. rewrite Ev. apply ens_refused.
Qed.

Context (event id : string) (box : path).
Hypothesis event_valid : validate_event_name event = true.
Abbreviation staging := (child box ("." +:+ event +:+ "." +:+ id +:+ ".part")).
Abbreviation final := (child box event).

(** What the receiver has after the requests [l], and nothing in the inbox has
    changed since [w0]. *)
Definition gathered (w0 : world) (have : gmap string (Z * string)) (l : list Request) : Prop :=
  apart event id box (served l).1 /\ holding event id box have (served l).1 (served l).2 /\
  same_in final w0 (served l).2.

Lemma chunk_received w0 r size old bytes have l :
  gathered w0 have l -> plain r -> follows have r size old ->
  acked l [next_chunk event id r size old bytes] ->
  gathered w0 (<[generic_string r := (size, old +:+ bytes)]> have) (l ++ [next_chunk event id r size old bytes]).
Proof.
  intros (Ha & Hh & Hs) Hr Hf Hack.
  pose proof (acked_accepted _ _ _ (chunk_ens event id box event_valid (moment (length l)) r size old bytes have _ _ Ha Hh Hr Hf)
    Hack) as (Ha' & Hh' & Hs'). split_and!; [done..|]. by eapply same_in_trans.
Qed.

Lemma files_received w0 w d chunk infos l :
  Forall (described w d) infos -> Forall (named plain) infos -> NoDup (fi_relative <$> rev infos) -> (0 < chunk)%nat ->
  gathered w0 ∅ l -> acked l (files_requests event id chunk w infos) ->
  gathered w0 (deliveries w (rev infos)) (l ++ files_requests event id chunk w infos).
Proof.
  intros Hd Hp Hnd Hchunk Hhas Hack. rewrite <- (app_nil_r (rev infos)) in Hnd |- *.
  apply (files_step event id plain (gathered w0) acked (fun _ _ => True)) with (d := d); try done.
  - intros l1 l2 l3. apply acked_app.
  - intros have l1 r size old bytes Hh Hr Hf _ Ha. split; [done|]. by apply chunk_received.
Qed.

Lemma begin_received count bytes l :
  apart event id box (served l).1 -> rooted (served l).2 staging -> acked l [begin_request event id count bytes] ->
  gathered (served l).2 ∅ (l ++ [begin_request event id count bytes]).
Proof.
  intros Ha Hr Hack.
  by pose proof (acked_accepted _ _ _ (begin_ens event id box event_valid (moment (length l)) count bytes _ _ Ha Hr) Hack).
Qed.

Lemma end_received w0 have l :
  gathered w0 have l -> rooted w0 final -> acked l [end_request event id] -> forall r c,
  read_text (served (l ++ [end_request event id])).2 (r ++ final) = Some c <->
  plain r /\ exists z, have !! generic_string r = Some (z, c).
Proof.
  intros (Ha & Hh & Hs) Hr Hack.
  apply (acked_accepted _ _ _ (end_ens event id box event_valid (moment (length l)) have _ _ Ha Hh
    ltac:(by eapply same_in_rooted)) Hack).
Qed.

End service.

(** ** Whole uploads *)

(** No transfer of another event shares a directory with one of [event], and
    nothing is left of directories that are gone. *)
Record clear_for (event : string) (box : path) (s : ReceiverNode * world) : Prop := {
  cf_apart id : apart event id box s.1;
  cf_staging id : rooted s.2 (child box ("." +:+ event +:+ "." +:+ id +:+ ".part"));
  cf_final : rooted s.2 (child box event)
}.

Lemma idle_clear event box n w :
  inbox n = box -> transfers n = ∅ -> (forall d, rooted w d) -> clear_for event box (n, w).
Proof. intros Hb Ht Hr. split; [|done..]. intros id. split; cbn [fst]; [done|by rewrite Ht..]. Qed.

(** Files with distinct paths have distinct names for the receiver. *)
Lemma relative_distinct w d infos :
  Forall (described w d) infos -> (forall r, r ++ d ∈ fi_path <$> infos -> plain r) ->
  NoDup (fi_path <$> infos) -> NoDup (fi_relative <$> infos).
Proof.
  intros Hd Hp Hnd. rewrite Forall_forall in Hd. apply NoDup_fmap_1 in Hnd as Hi.
  assert (Hinj : forall i1 i2, i1 ∈ infos -> i2 ∈ infos -> fi_path i1 = fi_path i2 -> i1 = i2).
  { clear -Hnd. induction infos as [|i l IH]; [intros ?? []%not_elem_of_nil|]. rewrite fmap_cons in Hnd.
    apply NoDup_cons in Hnd as [Hn Hnd]. intros i1 i2 [->|H1]%elem_of_cons [->|H2]%elem_of_cons E; [done| | |by apply IH].
    - destruct Hn. rewrite E. by apply list_elem_of_fmap_2.
    - destruct Hn. rewrite <- E. by apply list_elem_of_fmap_2. }
  apply NoDup_fmap_2_strong; [|done]. intros i1 i2 H1 H2 E. apply Hinj; [done..|].
  destruct (Hd i1 H1) as [_ (r1 & _ & P1 & R1)], (Hd i2 H2) as [_ (r2 & _ & P2 & R2)].
  rewrite P1, P2. f_equal. apply plain_inj; [| |congruence]; apply Hp.
  - rewrite <- P1. by apply list_elem_of_fmap_2.
  - rewrite <- P2. by apply list_elem_of_fmap_2.
Qed.

Lemma elem_of_deliveries w d infos r z c :
  Forall (described w d) infos -> NoDup (fi_relative <$> infos) -> plain r ->
  (forall r', r' ++ d ∈ fi_path <$> infos -> plain r') ->
  (deliveries w infos !! generic_string r = Some (z, c) <->
   exists info, info ∈ infos /\ fi_path info = r ++ d /\ z = fi_size info /\ read_text w (r ++ d) = Some c).
Proof.
  intros Hd Hnd Hr Hp. unfold deliveries. rewrite Forall_forall in Hd.
  rewrite <- elem_of_list_to_map by (by rewrite <- list_fmap_compose). rewrite list_elem_of_fmap.
  split; intros (info & H1 & H2); exists info.
  - injection H1 as E1 -> ->. destruct (Hd info H2) as [(c & m & Hf & _) (r' & _ & Hpath & Hrel)].
    assert (r' = r) as ->.
    { apply plain_inj; [|done|congruence]. apply Hp. rewrite <- Hpath. by apply list_elem_of_fmap_2. }
    split_and!; [done..|]. rewrite <- Hpath. unfold content, read_text. by rewrite Hf.
  - destruct H2 as (Hpath & -> & Hc). split; [|done].
    destruct (Hd info H1) as [_ (r' & _ & Hpath' & Hrel)]. rewrite Hpath' in Hpath. apply app_inv_tail in Hpath as ->.
    unfold delivery, content. by rewrite Hrel, Hpath', Hc.
Qed.

Section delivers.
Context `{Sha256} `{Traversal} `{Listing}.
Context (start : ReceiverNode * world) (moment : nat -> Z) (mishaps recovery : nat -> list fault)
        (ready lost : nat -> bool).

Abbreviation at_receiver := (served start moment mishaps recovery).

#[local] Existing Instance receiver_service.
#[local] Instance the_receiver : Service := receiver_service start moment mishaps recovery ready lost.

(** A transfer that has been acknowledged is in the inbox. *)
Lemma transmitted_delivered chunk box d w l l' infos :
  (0 < chunk)%nat -> clear_for (filename d) box (at_receiver l) ->
  (forall r, uploadable w d (r ++ d) -> plain r) ->
  transmitted chunk d w l l' infos -> forall r c,
  read_text (at_receiver l').2 (r ++ child box (filename d)) = Some c <->
  r ++ d ∈ fi_path <$> infos /\ read_text w (r ++ d) = Some c.
Proof.
  intros Hchunk [Ha Hs Hf] Hplain (Hnd & Hu & Hd & _ & _ & id & _ & Hreqs) r c. cbv zeta in Hreqs.
  destruct Hreqs as (-> & Hack & _). unfold transfer_requests in Hack |- *.
  assert (Hp : forall r', r' ++ d ∈ fi_path <$> infos -> plain r').
  { intros r' Hr'. apply Hplain. rewrite Forall_forall in Hu. by apply Hu. }
  assert (Hrel : Forall (fun info => exists r, plain r /\ fi_path info = r ++ d /\ fi_relative info = generic_string r) infos).
  { apply Forall_forall. intros info Hi. rewrite Forall_forall in Hd. destruct (Hd info Hi) as [_ (r' & _ & E1 & E2)].
    exists r'. split; [|done]. apply Hp. rewrite <- E1. by apply list_elem_of_fmap_2. }
  assert (Hkeys : NoDup (fi_relative <$> infos)) by (by eapply relative_distinct).
  set (event := filename d) in *. set (infos_reqs := files_requests event id chunk w infos) in *.
  change (?a :: infos_reqs) with ([a] ++ infos_reqs) in Hack |- *. rewrite <- (assoc_L (++)) in Hack |- *.
  rewrite !acked_app in Hack. destruct Hack as (Hb & Hc & He).
  pose proof (begun_valid _ _ _ _ _ _ _ _ _ _ _ Hb) as Hv.
  pose proof (begin_received _ _ _ _ _ _ event id box Hv _ _ _ (Ha id) (Hs id) Hb) as Hhas.
  assert (Hperm : rev infos ≡ₚ infos) by (symmetry; apply Permutation_rev).
  assert (Hrev : NoDup (fi_relative <$> rev infos)) by (by rewrite Hperm).
  assert (Hcount : Forall (named plain) infos).
  { eapply Forall_impl; [exact Hrel|]. intros info (r1 & ? & _ & ?). by exists r1. }
  eapply (files_received _ _ _ _ _ _ event id box Hv _ w d chunk infos) in Hhas; try done.
  fold infos_reqs in Hhas. rewrite <- (assoc_L (++) l) in Hhas.
  rewrite <- (assoc_L (++) l) in He. pose proof (end_received _ _ _ _ _ _ event id box Hv _ _ _ Hhas Hf He) as Hend.
  rewrite <- !(assoc_L (++)) in Hend. rewrite Hend.
  assert (Hd' : Forall (described w d) (rev infos)) by (by rewrite Hperm).
  assert (Hp' : forall r', r' ++ d ∈ fi_path <$> rev infos -> plain r') by (intros r'; rewrite Hperm; apply Hp).
  split.
  - intros (Hr & z & Hz). apply (elem_of_deliveries w d) in Hz as (info & Hi & Hpath & _ & Hread); [|done..].
    split; [|done].
    rewrite <- Hpath, <- Hperm. by apply list_elem_of_fmap_2.
  - intros [Hin Hread]. pose proof (Hp r Hin) as Hr. split; [done|]. rewrite <- Hperm in Hin.
    apply list_elem_of_fmap in Hin as (info & Hpath & Hi). exists (fi_size info).
    apply (elem_of_deliveries w d); [done..|]. exists info. by split_and!.
Qed.

(** C8. An upload that is reported as done has reached the inbox: the event's
    directory there has exactly the files that were to be sent, each under its
    own relative path and with its own bytes, and no file of an earlier upload
    is left. It holds whatever fails on the side of the worker, whatever
    fails while the receiver handles a request, when the receiver dies and is
    started again, and when answers are lost. *)
Theorem upload_delivers box now d s w :
  0 < chunkBytes (upload_config s) -> lease_fits now d w ->
  (forall r, uploadable w d (r ++ d) -> plain r) ->
  clear_for (filename d) box (at_receiver (sent s)) ->
  ensures (uploadDirectory now d s) (fun r _ => r.1 = true ->
    exists found, found <> [] /\ Forall (uploadable w d) found /\ forall r' c,
      read_text (at_receiver (sent r.2)).2 (r' ++ child box (filename d)) = Some c <->
      r' ++ d ∈ found /\ read_text w (r' ++ d) = Some c) w.
Proof.
  intros Hc Hfits Hplain Hclear. eapply wp_mono; [..|by apply uploadDirectory_keeping]; [|done..].
  intros [ok s'] w' (_ & _ & _ & Hsent) Hok. destruct (Hsent Hok) as [infos Ht]. exists (fi_path <$> infos).
  pose proof Ht as (_ & Hu & _ & Hne & _). split; [by destruct infos|]. split; [done|]. intros r' c.
  apply (transmitted_delivered (Z.to_nat (chunkBytes (upload_config s)))) with (l := sent s); [lia|done..].
Qed.

End delivers.

(** ** Names that meet *)

(** Two transfers of different events can have the same staging directory. *)
Example staging_shared n : staging_dir n "a.b" "c" = staging_dir n "a" "b.c".
Proof. reflexivity. Qed.

(** ** A sample *)

Definition sample_config : UploadConfig :=
  {| serviceName := "/upload_store"; maxRetries := 2; retryBackoff := 1000; chunkBytes := 4; leaseTimeout := 300;
     failedRescanPeriod := 0 |}.

Definition sample_dir : path := ["brake_7"; "records"]%string.

Definition sample_line (content name : string) : string := to_hex (sha256 content) +:+ "  " +:+ name +:+ newline.

Definition sample_store : world :=
  {| files := list_to_map [
       (["records"], Dir); (sample_dir, Dir);
       (child sample_dir "manifest.csv", File "index,t" 1); (child sample_dir "images", Dir);
       (child (child sample_dir "images") "0.png", File "PNG-bytes" 1);
       (child sample_dir "manifest.sha256", File (sample_line "index,t" "manifest.csv" +:+
                                                  sample_line "PNG-bytes" "images/0.png") 1)]%string;
     clock := 9 |}.

(** An inbox that holds an older copy of the event. *)
Definition sample_inbox : ReceiverNode * world :=
  ({| inbox := ["inbox"%string]; transfers := ∅ |},
   {| files := list_to_map [(["inbox"], Dir); (["brake_7"; "inbox"], Dir); (["old"; "brake_7"; "inbox"], File "x" 1)]%string;
      clock := 0 |}).

Definition sample_received (l : list Request) : ReceiverNode * world :=
  served sample_inbox Z.of_nat (fun _ => []) (fun _ => []) l.

#[local] Instance sample_service : Service :=
  receiver_service sample_inbox Z.of_nat (fun _ => []) (fun _ => []) (fun _ => true) (fun _ => false).

Definition sample_upload : outcome (bool * UploadWorker) :=
  uploadDirectory 100 sample_dir (newUploadWorker ["records"%string] sample_config) [] sample_store.

(** Whether every directory on the way to an entry is there. *)
Fixpoint way_there (w : world) (p : path) : bool :=
  match p with [] => true | _ :: d => present w p && way_there w d end.

Lemma way_there_suffix w d p : way_there w p = true -> d `suffix_of` p -> present w d = true.
Proof.
  induction p as [|n p IH]; intros Hp Hd; [by apply suffix_nil_inv in Hd as ->|].
  apply andb_prop in Hp as [Hn Hp]. destruct d as [|x d]; [done|].
  apply suffix_cons_inv in Hd as [->|Hd]; [done|by apply IH].
Qed.

Lemma tree_rooted w : forallb (fun e : path * node => way_there w e.1) (map_to_list (files w)) = true -> forall d, rooted w d.
Proof.
  intros Hall d Hd r. apply eq_None_ne_Some. intros x Hx%elem_of_map_to_list%list_elem_of_In.
  rewrite forallb_forall in Hall. apply Hall, (way_there_suffix w d) in Hx; [congruence|by exists r].
Qed.

Definition plainb (r : path) : bool :=
  match r with [] => false | _ => forallb (fun c => str_all (fun x => negb (Ascii.eqb x "/")) c &&
                                                    str_all (fun x => negb (Ascii.eqb x "\")) c) r end.

Lemma plain_uploads w d :
  forallb (fun e : path * node => match strip_prefix d e.1 with Some r => bool_decide (r = []) || plainb r | None => true end)
    (map_to_list (files w)) = true ->
  forall r, uploadable w d (r ++ d) -> plain r.
Proof.
  intros Hall r ([_ Hne] & Hf & _). unfold is_file in Hf. destruct (files w !! (r ++ d)) as [x|] eqn:E; [|done].
  apply elem_of_map_to_list, list_elem_of_In in E. rewrite forallb_forall in Hall. apply Hall in E. cbn [fst] in E.
  rewrite strip_prefix_app in E. destruct r as [|n r]; [done|]. split; [done|].
  apply Forall_forall. intros c Hc. apply orb_prop in E as [E|E]; [by apply bool_decide_eq_true in E|].
  unfold plainb in E. rewrite forallb_forall in E. apply list_elem_of_In, E, andb_prop in Hc. exact Hc.
Qed.

Lemma upload_delivers_witness :
  match sample_upload with
  | Done (true, s') _ _ =>
      exists found, found <> [] /\ Forall (uploadable sample_store sample_dir) found /\ forall r' c,
        read_text (sample_received (sent s')).2 (r' ++ child ["inbox"%string] (filename sample_dir)) = Some c <->
        r' ++ sample_dir ∈ found /\ read_text sample_store (r' ++ sample_dir) = Some c
  | _ => False
  end.
Proof.
  pose proof (upload_delivers sample_inbox Z.of_nat (fun _ => []) (fun _ => []) (fun _ => true) (fun _ => false)
    ["inbox"%string] 100 sample_dir (newUploadWorker ["records"%string] sample_config) sample_store) as Hw.
  assert (Hok : match sample_upload with Done (true, _) _ _ => true | _ => false end = true) by (vm_compute; reflexivity).
  unfold sample_upload in *.
  assert (Hrun := fun fits plain clear => Hw ltac:(vm_compute; reflexivity) fits plain clear []). clear Hw.
  destruct (uploadDirectory _ _ _ _ _) as [[[] s'] w' o'| | |]; try discriminate. apply Hrun; [..|reflexivity].
  - intros text t Ht. vm_compute in Ht. discriminate.
  - apply plain_uploads. vm_compute. reflexivity.
  - apply idle_clear; [reflexivity..|]. apply tree_rooted. vm_compute. reflexivity.
Defined.
