(* ===== verification/Acceptance.v ===== *)
(** * Acceptance: an upload that the receiver takes

    The other half of Delivery.v: when nothing fails, the receiver accepts every
    request of the upload of an event directory that is in order, so that the
    upload succeeds and all of its files reach the inbox. *)

From S2P Require Import Prelude Text SensorData FileSystem EventState RecordIo Readback Upload Transfer Uploads Receiver Delivery.

(** ** Runs without faults *)

Definition gives {A} (m : M A) (Q : A -> world -> Prop) (w : world) : Prop :=
  exists a w', returns m w a w' /\ Q a w'.

Section rules.
Context {A B : Type}.
Implicit Types (Q : A -> world -> Prop).

Lemma gives_ret (a : A) Q w : Q a w -> gives (mret a) Q w.
Proof. intros HQ. by exists a, w. Qed.

Lemma gives_bind (m : M B) (k : B -> M A) Q w : gives m (fun b => gives (k b) Q) w -> gives (m ≫= k) Q w.
Proof. intros (b & w1 & Hm & a & w2 & Hk & HQ). exists a, w2. split; [by eapply returns_bind|done]. Qed.

Lemma gives_post (m : M A) Q Q' w : (forall a w', Q a w' -> Q' a w') -> gives m Q w -> gives m Q' w.
Proof. intros HQ (a & w' & Hm & Ha). exists a, w'. auto. Qed.

(** What holds under every fault holds here, too. *)
Lemma gives_and (m : M A) Q Q' w :
  ensures m Q' w -> gives m Q w -> gives m (fun a w' => Q a w' /\ Q' a w') w.
Proof. intros He (a & w' & Hm & Ha). exists a, w'. specialize (He []). rewrite Hm in He. auto. Qed.

Lemma gives_catch (m h : M A) Q w : gives m Q w -> gives (catch m h) Q w.
Proof. intros (a & w' & Hm & Ha). exists a, w'. split; [|done]. unfold returns, catch in *. by rewrite Hm. Qed.

Lemma gives_read (f : world -> option A) a Q w : f w = Some a -> Q a w -> gives (must_read f) Q w.
Proof. intros Hf HQ. exists a, w. split; [|done]. unfold must_read. eapply returns_bind; [reflexivity|]. by rewrite Hf. Qed.

End rules.

Lemma gives_must (m : M bool) w w' (Q : unit -> world -> Prop) : returns m w true w' -> Q tt w' -> gives (must m) Q w.
Proof. intros Hm HQ. exists tt, w'. split; [|done]. unfold must. by eapply returns_bind. Qed.

Lemma gives_atomically act w w' (Q : unit -> world -> Prop) :
  act w = Some w' -> Q tt w' -> gives (must (atomically act)) Q w.
Proof. intros Ha. apply gives_must. unfold returns, atomically. simpl. by rewrite Ha. Qed.

Lemma gives_for_each {A B} (l : list A) (body : A -> B -> M B) (I : list A -> B -> world -> Prop) acc w :
  (forall before x rest acc w, l = before ++ x :: rest -> I before acc w -> gives (body x acc) (I (before ++ [x])) w) ->
  I [] acc w -> gives (for_each l body acc) (I l) w.
Proof. intros Hb H0. by apply returns_for_each. Qed.

(** ** Directories *)

(** What is there is a directory. *)
Definition dir_or_none (w : world) (p : path) : Prop := files w !! p = None \/ files w !! p = Some Dir.

Lemma make_dirs_gives p w :
  (forall q, q `suffix_of` p -> q <> [] -> dir_or_none w q) ->
  exists w', make_dirs p w = Some w'.
Proof.
  induction p as [|n p IH]; intros Hd; [by exists w|]. destruct IH as [w1 H1].
  { intros q Hq. apply Hd. by apply suffix_cons_r. }
  cbn [make_dirs]. rewrite H1. destruct (make_dirs_touches [] p p w w1) as [_ Ht]; [done|done|].
  destruct (Ht (n :: p)) as [E|(_ & E & _)]; [set_solver| |].
  - destruct (Hd (n :: p)) as [Hn|Hn]; [done..| |]; rewrite E, Hn; eauto.
  - rewrite E. eauto.
Qed.

Lemma create_directories_gives p w (Q : unit -> world -> Prop) :
  (forall q, q `suffix_of` p -> q <> [] -> dir_or_none w q) ->
  (forall w', touches [] p w w' -> is_dir w' p = true -> Q tt w') -> gives (must (create_directories p)) Q w.
Proof.
  intros Hd HQ. destruct (make_dirs_gives p w Hd) as [w' Hm].
  apply (gives_must _ w w'); [|apply HQ; [by eapply make_dirs_touches|by eapply make_dirs_is_dir]].
  unfold returns, create_directories, stepwise. simpl. by rewrite Hm.
Qed.

Section calls.
Context `{Traversal}.

(** Without faults a directory is removed whole. *)
Lemma rmtree_gives d w : gives (rmtree d) (fun _ w' => forall q,
  files w' !! q = if is_dir w d && bool_decide (d `suffix_of` q) then None else files w !! q) w.
Proof.
  unfold gives, returns, rmtree. destruct (is_dir w d) eqn:Ed; [|by exists tt, w].
  eexists tt, _. split; [reflexivity|]. intros q. rewrite lookup_remove_tree. cbn [andb].
  assert (Hin : q ∈ traversal (d :: descendants w d) <-> q = d \/ below d q /\ exists n, files w !! q = Some n)
    by (rewrite traversal_perm, elem_of_cons, elem_of_descendants; done).
  case_decide as Hq; case_bool_decide as Hs; try done.
  - apply Hin in Hq as [->|[[] _]]; [by destruct Hs|done].
  - destruct (files w !! q) as [n|] eqn:El; [|done]. destruct Hq. apply Hin.
    destruct (decide (q = d)); [by left|right]. split; [done|by exists n].
Qed.

Lemma rmtree_cleared d w :
  d <> [] -> dir_or_none w d -> rooted w d ->
  gives (rmtree d) (fun _ w' => forall q, files w' !! q = if decide (d `suffix_of` q) then None else files w !! q) w.
Proof.
  intros Hne Hd Hr. eapply gives_post; [|apply rmtree_gives]. intros [] w' Hw q. rewrite Hw. clear Hw.
  unfold is_dir. destruct d as [|n d]; [done|]. destruct Hd as [Hn|Hn]; rewrite Hn; simpl.
  - case_decide as Hs; [|done]. destruct Hs as [r ->]. apply Hr. unfold present. by rewrite Hn.
  - case_decide; [by rewrite bool_decide_true|by rewrite bool_decide_false].
Qed.

End calls.

(** ** A transfer *)

(** Whether a transfer that was active then is not idle now. *)
Definition still_active (then_ now : Z) : Prop := now - TRANSFER_IDLE_SECONDS * ns_per_s <= then_.

Section transfer.
Context `{Sha256} `{Traversal}.
Context (event id : string) (box : path).
Hypothesis event_valid : validate_event_name event = true.
Hypothesis id_valid : validate_event_name id = true.
Hypothesis names_short : (String.length event + String.length id + String.length "...part" <= 240)%nat.

Abbreviation part_dir := (fun e i : string => child box ("." +:+ e +:+ "." +:+ i +:+ ".part")).
Abbreviation staging := (part_dir event id).
Abbreviation final := (child box event).
Abbreviation backup := (child box ("." +:+ event +:+ ".backup")).

(** What lies in no staging directory. *)
Definition outside (q : path) : Prop := q <> [] /\ forall e i, ~ part_dir e i `suffix_of` q.

Definition same_outside (w w' : world) : Prop := forall q, outside q -> files w' !! q = files w !! q.

Lemma same_outside_trans w1 w2 w3 : same_outside w1 w2 -> same_outside w2 w3 -> same_outside w1 w3.
Proof. intros H1 H2 q Hq. by rewrite H2, H1. Qed.

Lemma box_outside q : q `suffix_of` box -> q <> [] -> outside q.
Proof.
  intros Hq Hne. split; [done|]. intros e i Hs. apply suffix_length in Hq, Hs. unfold child in Hs. simpl in Hs. lia.
Qed.

Lemma child_outside name r : (forall e i, "." +:+ e +:+ "." +:+ i +:+ ".part" <> name) -> outside (r ++ child box name).
Proof.
  intros Hn. split; [by destruct r|]. intros e i Hs. apply (Hn e i), (child_same box _ _ (r ++ child box name)); [done|by exists r].
Qed.

Lemma final_outside r : outside (r ++ final).
Proof. apply child_outside. intros e i. by apply (staging_final event event_valid). Qed.

Lemma backup_outside r : outside (r ++ backup).
Proof.
  apply child_outside. intros e i E. revert E. rewrite <- !app_assoc_str. intros E%(f_equal str_last).
  change ".backup" with (String "." "backup") in E. change ".part" with (String "." "part") in E.
  by rewrite !str_last_app in E.
Qed.

Lemma same_outside_reachable w w' : same_outside w w' -> reachable w box -> reachable w' box.
Proof.
  intros Hs Hr q Hq. specialize (Hr q Hq). destruct q as [|n q]; [done|]. unfold is_dir in *.
  by rewrite Hs by (by apply box_outside).
Qed.

Lemma suffix_of_child q name : q `suffix_of` child box name -> q = child box name \/ q `suffix_of` box.
Proof. unfold child. destruct q as [|x q]; [right; apply suffix_nil|]. by intros [E|Hq]%suffix_cons_inv; [left|right]. Qed.

Lemma reachable_dir w p q : reachable w p -> q `suffix_of` p -> q <> [] -> dir_or_none w q.
Proof.
  intros Hr Hq Hne. specialize (Hr q Hq). right. unfold is_dir in Hr. destruct q; [done|].
  by destruct (files w !! _) as [[]|].
Qed.

(** New directories on the way to something in the staging directory. *)
Lemma touches_staging p w w' : staging `suffix_of` p -> reachable w box -> touches [] p w w' -> same_outside w w'.
Proof.
  intros Hp Hr [_ Ht] q Hq. destruct (Ht q) as [?|(Hn & _ & Hs)]; [set_solver|done|exfalso].
  destruct Hq as [Hne Hq]. destruct (suffix_weak_total q staging p Hs Hp) as [Hqs|Hqs]; [|by apply (Hq event id)].
  apply suffix_of_child in Hqs as [->|Hqs]; [by apply (Hq event id)|]. destruct q as [|x q]; [done|].
  specialize (Hr _ Hqs). unfold is_dir in Hr. by rewrite Hn in Hr.
Qed.

(** Nothing has been added. *)
Definition shrunk (w w' : world) : Prop := forall q, files w' !! q = files w !! q \/ files w' !! q = None.

Lemma prune_gives now n w :
  inbox n = box ->
  gives (prune_idle_transfers now n) (fun n' w' => pruned n n' /\ same_outside w w' /\ shrunk w w' /\
    forall k ts, transfers n !! k = Some ts -> still_active (last_activity ts) now -> transfers n' !! k = Some ts) w.
Proof.
  intros Hb. unfold prune_idle_transfers.
  eapply gives_post; [|apply (gives_for_each _ _ (fun _ n' w' =>
    pruned n n' /\ same_outside w w' /\ shrunk w w' /\
    forall k ts, transfers n !! k = Some ts -> still_active (last_activity ts) now -> transfers n' !! k = Some ts))].
  - done.
  - intros before [k ts] rest n' w' Hl ([Hi Hsub] & Ho & Hs & Hkeep). unfold prune_transfer. cbn [fst snd].
    destruct (Z.geb_spec (last_activity ts) (now - TRANSFER_IDLE_SECONDS * ns_per_s)) as [Hge|Hlt]; [by apply gives_ret|].
    apply gives_bind. eapply gives_post; [|apply rmtree_gives]. intros [] w1 Hw1. apply gives_ret.
    unfold staging_dir in Hw1. rewrite Hi, Hb in Hw1. split; [|split; [|split]].
    + split; [done|]. cbn [transfers with_transfers]. etrans; [apply delete_subseteq|done].
    + intros q Hq. rewrite Hw1, bool_decide_false, andb_false_r by apply Hq. by apply Ho.
    + intros q. rewrite Hw1. destruct (_ && _); [by right|apply Hs].
    + intros k' ts' Hk' Hact. cbn [transfers with_transfers]. rewrite lookup_delete_ne; [by apply Hkeep|].
      intros ->. assert (Hts : transfers n !! k' = Some ts).
      { apply elem_of_map_to_list. rewrite Hl. apply elem_of_app. right. by left. }
      unfold still_active in Hact. assert (ts = ts') as <- by congruence. lia.
  - split_and!; [done| |by left|done]. by split.
Qed.

(** ** BEGIN *)

Lemma prefix_accepts : validate_event_name event && validate_event_name id = true.
Proof. by rewrite event_valid, id_valid. Qed.

(** What the receiver needs for a transfer of the event to begin. *)
Record vacant (n : ReceiverNode) (w : world) : Prop := {
  va_box : inbox n = box;
  va_room : (size (transfers n) < MAX_ACTIVE_TRANSFERS)%nat;
  va_owner : map_Forall (fun _ ts => ts_event ts = event -> ts_id ts = id) (transfers n);
  va_reachable : reachable w box;
  va_staging : dir_or_none w staging;
  va_rooted : rooted w staging
}.

Lemma begin_transfer_gives count bytes now n w :
  vacant n w -> 0 < count <= MAX_FILES -> 0 <= bytes <= MAX_TOTAL_BYTES ->
  gives (begin_transfer event id count bytes now n) (fun a w' => success a.1 = true /\
    a.2 = put_transfer {| ts_event := event; ts_id := id; expected_files := count; expected_bytes := bytes;
                          ts_files := ∅; canonical_paths := ∅; last_activity := now |} n /\
    same_outside w w' /\ reachable w' staging /\ forall r, r <> [] -> files w' !! (r ++ staging) = None) w.
Proof.
  intros [Hb Hroom Hown Hreach Hdir Hroot] Hcount Hbytes. unfold begin_transfer.
  replace (count <=? 0) with false by lia. replace (count >? MAX_FILES) with false by lia.
  replace (bytes <? 0) with false by lia. replace (bytes >? MAX_TOTAL_BYTES) with false by lia. cbn [orb].
  replace (240 <? _)%nat with false by lia.
  replace (MAX_ACTIVE_TRANSFERS <=? size (transfers n))%nat with false by lia. rewrite andb_false_r.
  replace (existsb _ _) with false.
  2: { symmetry. apply not_true_is_false. intros ([k ts] & Hk%list_elem_of_In%elem_of_map_to_list & E)%existsb_exists.
       cbn [snd] in E. apply andb_prop in E as [E1%String.eqb_eq E2]. apply (Hown k ts Hk) in E1. rewrite E1 in E2.
       by rewrite String.eqb_refl in E2. }
  unfold staging_dir. rewrite Hb. apply gives_bind. eapply gives_post; [|by apply rmtree_cleared]. intros [] w1 Hw1.
  assert (Hgone : files w1 !! staging = None) by (by rewrite Hw1, decide_True).
  assert (Hout : same_outside w w1).
  { intros q Hq. rewrite Hw1, decide_False; [done|]. apply Hq. }
  apply gives_bind. unfold mkdir_new. apply gives_bind. apply (gives_read _ false).
  { unfold present. unfold child in Hgone |- *. by rewrite Hgone. }
  cbv beta iota. pose proof (same_outside_reachable _ _ Hout Hreach) as Hreach1.
  apply create_directories_gives.
  { intros q Hq Hne. apply suffix_of_child in Hq as [->|Hq]; [by left|]. by apply (reachable_dir w1 box). }
  intros w2 Ht Hd2. apply gives_ret. split; [done|]. split; [done|].
  assert (Hout2 : same_outside w1 w2) by (by apply (touches_staging staging)).
  split; [by eapply same_outside_trans|]. split.
  - intros q [->|Hq]%suffix_of_child; [done|]. by apply (same_outside_reachable w1 w2).
  - intros r Hr. destruct Ht as [_ Ht]. destruct (Ht (r ++ staging)) as [->|(_ & _ & Hs)]; [set_solver| |].
    + rewrite Hw1, decide_True; [done|by exists r].
    + apply suffix_length in Hs. rewrite length_app in Hs. destruct r; [done|]. simpl in Hs. lia.
Qed.
(** ** FILE_CHUNK *)

(** The relative paths of the files. *)
Context (rels : list path).

Record orderly : Prop := {
  or_plain r : r ∈ rels -> plain r;
  or_safe r : r ∈ rels -> safe_relative (generic_string r) = Some (rev r);
  or_free r r' : r ∈ rels -> r' ∈ rels -> r `suffix_of` r' -> r = r';
  or_case r r' : r ∈ rels -> r' ∈ rels -> casefold (generic_string r) = casefold (generic_string r') -> r = r'
}.
Hypothesis rels_orderly : orderly.

(** The staging directory has files of these names and the directories they need. *)
Record staged (w : world) : Prop := {
  sg_reachable : reachable w staging;
  sg_entry r : r <> [] -> match files w !! (r ++ staging) with
                          | None => True
                          | Some (File _ _) => r ∈ rels
                          | Some Dir => exists r', r' ∈ rels /\ below r r'
                          | Some Symlink => False
                          end
}.

Lemma staged_way w r q :
  staged w -> r ∈ rels -> q `suffix_of` parent_path (r ++ staging) -> q <> [] -> dir_or_none w q.
Proof.
  intros [Hr He] Hin Hq Hne. pose proof (or_plain rels_orderly r Hin) as [Hrne _].
  destruct r as [|name r0]; [done|]. cbn [parent_path tail app] in Hq.
  destruct (suffix_weak_total q staging (r0 ++ staging)) as [Hs|[r1 ->]]; [done|by exists r0| |].
  { by apply (reachable_dir w staging). }
  destruct r1 as [|x r1]; [by apply (reachable_dir w staging)|]. specialize (He (x :: r1) ltac:(done)).
  assert (Hbelow : x :: r1 `suffix_of` r0).
  { destruct Hq as [k Hk]. rewrite (assoc_L (++)) in Hk. apply app_inv_tail in Hk as ->. by exists k. }
  unfold dir_or_none. destruct (files w !! _) as [[]|]; [|by right|done|by left].
  apply (or_free rels_orderly _ (name :: r0)) in He as E; [|done|by apply suffix_cons_r].
  apply suffix_length in Hbelow. rewrite E in Hbelow. simpl in Hbelow. lia.
Qed.

Lemma staged_touches w w' r :
  r ∈ rels -> staged w -> touches [] (parent_path (r ++ staging)) w w' -> staged w'.
Proof.
  intros Hin [Hr He] [_ Ht]. split.
  - intros q Hq. specialize (Hr q Hq). destruct q as [|x q]; [done|]. unfold is_dir in *.
    destruct (Ht (x :: q)) as [->|(_ & -> & _)]; [set_solver|done..].
  - intros r1 Hr1. destruct (Ht (r1 ++ staging)) as [->|(_ & -> & Hs)]; [set_solver|by apply He|].
    exists r. split; [done|]. destruct (or_plain rels_orderly r Hin) as [Hne _]. destruct r as [|name r0]; [done|].
    cbn [parent_path tail app] in Hs. destruct Hs as [k Hk]. rewrite (assoc_L (++)) in Hk. apply app_inv_tail in Hk as ->.
    split; [by exists (name :: k)|]. intros E. apply (f_equal length) in E. simpl in E. rewrite length_app in E. lia.
Qed.

Lemma staged_file w w' r c m :
  r ∈ rels -> staged w -> files w' !! (r ++ staging) = Some (File c m) -> only_at (r ++ staging) w w' -> staged w'.
Proof.
  intros Hin [Hr He] Hf Ho. destruct (or_plain rels_orderly r Hin) as [Hne _]. split.
  - intros q Hq. specialize (Hr q Hq). destruct q as [|x q]; [done|]. unfold is_dir in *. rewrite Ho; [done|].
    intros E. apply suffix_length in Hq. rewrite E, length_app in Hq. destruct r; [done|]. simpl in Hq. lia.
  - intros r1 Hr1. destruct (decide (r1 = r)) as [->|Hr2]; [by rewrite Hf|]. rewrite Ho; [by apply He|].
    by intros E%app_inv_tail.
Qed.

Lemma staged_target w r :
  staged w -> r ∈ rels -> files w !! (r ++ staging) = None \/ exists c m, files w !! (r ++ staging) = Some (File c m).
Proof.
  intros [_ He] Hin. pose proof (or_plain rels_orderly r Hin) as [Hne _]. specialize (He r Hne).
  destruct (files w !! (r ++ staging)) as [[c m| |]|]; [eauto| |done|by left].
  destruct He as (r' & Hr' & Hs & Hd). by apply (or_free rels_orderly) in Hs.
Qed.

Lemma write_output_gives target at_ bytes w c m (Q : unit -> world -> Prop) :
  files w !! target = Some (File c m) ->
  (forall w', (exists c', files w' !! target = Some (File c' (clock w))) -> only_at target w w' -> Q tt w') ->
  gives (write_output target at_ bytes) Q w.
Proof.
  intros Hf HQ. unfold write_output. eapply gives_must; [reflexivity|]. unfold write_at. rewrite Hf. apply HQ.
  - rewrite lookup_put, decide_True by done. eauto.
  - apply put_only_at.
Qed.

Lemma write_chunk_gives r size old bytes ts w :
  staged w -> reachable w box -> r ∈ rels ->
  gives (write_chunk (r ++ staging) (generic_string r) (byte_size old) bytes (file_state (size, old)) ts) (fun a w' =>
    success a.1 = true /\ (exists m, a.2 = with_ts_files m ts) /\ same_outside w w' /\ staged w') w.
Proof.
  intros Hst Hbox Hin. unfold write_chunk. apply gives_bind, create_directories_gives.
  { intros q Hq Hne. by apply (staged_way w r). }
  intros w1 Ht1 Hd1. cbn [file_state fs_received fs_expected hashed fst snd]. rewrite Z.ltb_irrefl, Z.eqb_refl. cbn [negb].
  pose proof (or_plain rels_orderly r Hin) as [Hne _].
  assert (Hp : staging `suffix_of` parent_path (r ++ staging)) by (destruct r as [|name r0]; [done|by exists r0]).
  assert (Hst1 : staged w1) by (by apply (staged_touches w w1 r)).
  assert (Ho1 : same_outside w w1) by (by eapply touches_staging).
  apply gives_bind, (gives_read _ (present w1 (r ++ staging))); [done|].
  assert (Hopen : exists w2 c m, returns (open_output (present w1 (r ++ staging)) (r ++ staging)) w1 tt w2 /\
            files w2 !! (r ++ staging) = Some (File c m) /\ only_at (r ++ staging) w1 w2).
  { unfold open_output. assert (Hpres : present w1 (r ++ staging) = is_file w1 (r ++ staging)).
    { unfold present, is_file. destruct (staged_target w1 r) as [E|(c & m & E)]; [done..| |]; rewrite E; by destruct r. }
    rewrite Hpres. unfold is_file. destruct (staged_target w1 r) as [E|(c & m & E)]; [done..| |]; rewrite E.
    - eexists _, "", (clock w1). split; [|split; [|apply put_only_at]].
      + unfold must. eapply (returns_bind _ _ _ true); [|reflexivity]. unfold open_trunc, returns, atomically, open_for_writing.
        cbn [next]. by rewrite Hd1, E.
      + by rewrite lookup_put, decide_True.
    - exists w1, c, m. split; [|done]. unfold must. eapply (returns_bind _ _ _ true); [|reflexivity].
      unfold returns, atomically, is_file. cbn [next]. by rewrite E. }
  destruct Hopen as (w2 & c & m & Hopen & Hf2 & Ho2). apply gives_bind. exists tt, w2. split; [done|].
  apply gives_bind, (write_output_gives _ _ _ _ c m); [done|]. intros w3 [c' Hf3] Ho3. apply gives_ret.
  assert (Ho13 : only_at (r ++ staging) w1 w3) by (intros q Hq; by rewrite Ho3, Ho2).
  split; [done|]. split; [by eexists|]. split; [|by eapply staged_file].
  eapply same_outside_trans; [exact Ho1|]. intros q [_ Hq]. apply Ho13. intros ->. apply (Hq event id). by exists r.
Qed.

(** ** Requests *)

(** A transfer of so many files and bytes that has been active at [t]. *)
Record collecting (count bytes t : Z) (n : ReceiverNode) (w : world) : Prop := {
  co_entry : exists ts, transfers n !! (event, id) = Some ts /\ ts_event ts = event /\ ts_id ts = id /\
    expected_files ts = count /\ expected_bytes ts = bytes /\ last_activity ts = t /\
    forall key v, canonical_paths ts !! key = Some v -> exists r, r ∈ rels /\ v = generic_string r /\ key = casefold v;
  co_reachable : reachable w box;
  co_staged : staged w
}.

Lemma begin_gives count bytes now n w :
  apart event id box n -> vacant n w -> 0 < count <= MAX_FILES -> 0 <= bytes <= MAX_TOTAL_BYTES ->
  gives (handle_request now (begin_request event id count bytes) n) (fun a w' =>
    success a.1 = true /\ collecting count bytes now a.2 w' /\ same_outside w w') w.
Proof.
  intros Hap [Hb Hroom Hown Hreach Hdir Hroot] Hcount Hbytes. unfold handle_request. apply gives_bind.
  eapply gives_post; [|eapply gives_and; [by apply (prune_ens event id box)|by apply prune_gives]].
  intros n1 w1 ((_ & Ho1 & Hshrunk & _) & (Hap1 & [Hi1 Hsub] & _ & _ & Hroot1)).
  assert (Hv1 : vacant n1 w1).
  { split; [congruence| | |by eapply same_outside_reachable| |by apply Hroot1].
    - apply map_subseteq_size in Hsub. lia.
    - intros k ts Hk. apply (Hown k ts). by eapply lookup_weaken.
    - unfold dir_or_none. destruct (Hshrunk staging) as [->| ->]; [done|by left]. }
  unfold dispatch. cbn [event_name transfer_id opcode begin_request file_count total_bytes].
  rewrite event_valid, id_valid. cbn [negb orb]. apply gives_catch.
  eapply gives_post; [|by apply begin_transfer_gives]. intros [response n2] w2 (Hok & E & Ho2 & Hr2 & Hnone).
  cbn [fst snd] in *. subst n2. split; [done|]. split; [|by eapply same_outside_trans].
  split.
  - eexists. split; [apply lookup_insert_eq|]. split_and!; [done..|]. cbn [canonical_paths].
    intros key v Hkey. by rewrite lookup_empty in Hkey.
  - eapply same_outside_reachable; [|exact Hreach]. by eapply same_outside_trans.
  - split; [done|]. intros r Hr. by rewrite Hnone.
Qed.

Lemma collecting_pruned count bytes t now n w n1 w1 have :
  collecting count bytes t n w -> holding event id box have n w -> still_active t now ->
  same_outside w w1 -> same_in staging w w1 -> reachable w1 staging ->
  (forall k ts, transfers n !! k = Some ts -> still_active (last_activity ts) now -> transfers n1 !! k = Some ts) ->
  collecting count bytes t n1 w1 /\ holding event id box have n1 w1.
Proof.
  intros [(ts & Hts & He & Hi & Hc & Hbt & Ht & Hcan) Hreach [Hr Hst]] Hho Hact Ho Hin Hr1 Hkeep.
  assert (Hts1 : transfers n1 !! (event, id) = Some ts) by (apply Hkeep; [done|by rewrite Ht]).
  split.
  - split; [by exists ts|by eapply same_outside_reachable|]. split; [done|]. intros r Hrne. rewrite Hin. by apply Hst.
  - apply (holding_same event id box have n n1 w w1); [congruence|done..].
Qed.

Lemma prune_collecting count bytes t now have n w :
  apart event id box n -> collecting count bytes t n w -> holding event id box have n w -> still_active t now ->
  gives (prune_idle_transfers now n) (fun n1 w1 => apart event id box n1 /\ collecting count bytes t n1 w1 /\
    holding event id box have n1 w1 /\ same_outside w w1) w.
Proof.
  intros Hap Hco Hho Hact. pose proof (ap_box _ _ _ n Hap) as Hb.
  eapply gives_post; [|eapply gives_and; [by apply (prune_ens event id box)|by apply prune_gives]].
  intros n1 w1 ((_ & Ho1 & _ & Hkeep) & (Hap1 & _ & _ & Hsame & _)).
  assert (Hin : same_in staging w w1).
  { apply Hsame. destruct (co_entry _ _ _ _ _ Hco) as (ts & Hts & _ & _ & _ & _ & Ht & _).
    exists ts. apply Hkeep; [done|by rewrite Ht]. }
  assert (Hr1 : reachable w1 staging).
  { pose proof (sg_reachable _ (co_staged _ _ _ _ _ Hco)) as Hr.
    pose proof (same_outside_reachable w w1 Ho1 (co_reachable _ _ _ _ _ Hco)) as Hbox.
    intros q [->|Hq]%suffix_of_child; [|by apply Hbox].
    specialize (Hr staging ltac:(done)). unfold is_dir in *. specialize (Hin []). cbn [app] in Hin. unfold child in *.
    by rewrite Hin. }
  destruct (collecting_pruned count bytes t now n w n1 w1 have) as [Hco1 Hho1]; done.
Qed.

Lemma chunk_gives count bytes t now have n w r size old more :
  apart event id box n -> collecting count bytes t n w -> holding event id box have n w -> still_active t now ->
  r ∈ rels -> follows have r size old -> byte_size old + byte_size more <= size ->
  gives (handle_request now (next_chunk event id r size old more) n) (fun a w' =>
    success a.1 = true /\ collecting count bytes now a.2 w' /\ same_outside w w') w.
Proof.
  intros Hap Hco Hho Hact Hin Hfol Hsize. unfold handle_request. apply gives_bind.
  eapply gives_post; [|by apply (prune_collecting count bytes t now have)].
  intros n1 w1 (Hap1 & [Hentry Hbox1 Hst1] & [(ts' & Hts' & _ & _ & Efiles) _] & Ho1).
  destruct Hentry as (ts & Hts & He & Hi & Hc & Hbt & Ht & Hcan). assert (ts' = ts) as -> by congruence.
  unfold dispatch, next_chunk. cbn [event_name transfer_id opcode]. rewrite event_valid, id_valid, Hts. cbn [negb orb].
  apply gives_bind. unfold store_chunk. cbn [file_path]. rewrite (or_safe rels_orderly r Hin), join_plain, rev_involutive.
  cbv zeta. cbn [with_activity canonical_paths].
  replace (match canonical_paths ts !! casefold (generic_string r) with
           | Some other => negb (String.eqb other (generic_string r)) | None => false end) with false.
  2: { destruct (canonical_paths ts !! _) as [other|] eqn:E; [|done]. apply Hcan in E as (r' & Hr' & -> & Ecase).
       apply (or_case rels_orderly) in Ecase as ->; [|done..]. by rewrite String.eqb_refl. }
  cbn [with_canonical with_activity ts_files total_bytes offset data].
  assert (Hfs : default {| fs_expected := size; fs_received := 0; hashed := "" |} (ts_files ts !! generic_string r) =
                file_state (size, old)).
  { rewrite Efiles, lookup_fmap. destruct Hfol as [->|[-> ->]]; done. }
  rewrite Hfs. cbn [file_state fs_expected fst snd]. rewrite Z.eqb_refl. cbn [negb].
  replace (_ >? size) with false by lia.
  assert (Hb : staging_dir n1 event id = staging) by (unfold staging_dir; by rewrite (ap_box _ _ _ n1 Hap1)). rewrite Hb.
  eapply gives_post; [|by apply gives_catch, (write_chunk_gives r size old more)].
  intros [response ts2] w2 (Hok & [m E2] & Ho2 & Hst2). cbn [fst snd] in *. subst ts2. apply gives_ret. cbn [fst snd].
  split; [done|]. split; [|by eapply same_outside_trans]. split; [|by eapply same_outside_reachable|done].
  eexists. unfold put_transfer. cbn [transfers with_transfers ts_event ts_id with_ts_files with_canonical with_activity].
  rewrite He, Hi. split; [apply lookup_insert_eq|]. split_and!; [done..|].
  cbn [canonical_paths with_ts_files with_canonical with_activity]. intros key v [[<- <-]|[_ Hkey]]%lookup_insert_Some; [by exists r|by apply Hcan].
Qed.

(** ** END *)

Lemma not_above (d : path) name : ~ child d name `suffix_of` d.
Proof. intros Hs%suffix_length. unfold child in Hs. simpl in Hs. lia. Qed.

Lemma move_tree_gives a b w :
  a <> b -> present w (child box a) = true -> is_dir w box = true -> present w (child box b) = false ->
  exists w', move_tree (child box a) (child box b) w = Some w' /\ is_dir w' box = true.
Proof.
  intros Hne Ha Hb Hn. destruct (move_tree (child box a) (child box b) w) as [w'|] eqn:E.
  - exists w'. split; [done|]. apply move_tree_spec in E as (_ & _ & Ho); [|done].
    unfold is_dir in *. destruct box as [|x q]; [done|]. rewrite Ho; [done|apply not_above..].
  - unfold move_tree in E. cbn [parent_path tail] in E. rewrite Ha, Hn in E. unfold child at 1 in E.
    cbn [parent_path tail] in E. by rewrite Hb in E.
Qed.

Lemma present_dir w p : is_dir w p = true -> present w p = true.
Proof. unfold is_dir, present. destruct p; [done|]. by destruct (files w !! _) as [[]|]. Qed.

Lemma fsync_gives w p (Q : unit -> world -> Prop) : is_dir w p = true -> Q tt w -> gives (fsync p) Q w.
Proof. intros Hp. apply gives_read. by rewrite (present_dir w p Hp). Qed.

Lemma publish_gives n ts w :
  inbox n = box -> ts_event ts = event -> ts_id ts = id -> is_dir w box = true -> is_dir w staging = true ->
  dir_or_none w backup -> rooted w backup ->
  gives (publish_transfer n ts) (fun _ w' => is_dir w' box = true) w.
Proof.
  intros Hb He Hi Hbox Hst Hd Hr. unfold publish_transfer, staging_dir, final_dir, backup_dir. rewrite Hb, He, Hi.
  assert (Hne1 : "." +:+ event +:+ "." +:+ id +:+ ".part" <> event) by apply (staging_final event event_valid).
  assert (Hne2 : "." +:+ event +:+ ".backup" <> event) by apply (staging_final event event_valid).
  assert (Hne3 : "." +:+ event +:+ ".backup" <> "." +:+ event +:+ "." +:+ id +:+ ".part") by apply backup_staging.
  apply gives_bind. eapply gives_post; [|by apply rmtree_cleared]. intros [] w1 Hw1.
  assert (Hbox1 : is_dir w1 box = true).
  { unfold is_dir in *. destruct box as [|x q]; [done|]. by rewrite Hw1, decide_False by apply not_above. }
  assert (Hst1 : present w1 staging = true).
  { apply present_dir. unfold is_dir in *. cbn [child] in *. rewrite Hw1, decide_False; [done|].
    intros Hs. by apply Hne3, (child_same box _ _ staging). }
  assert (Hgone : present w1 backup = false) by (unfold present; cbn [child]; by rewrite Hw1, decide_True).
  apply gives_bind, fsync_gives; [done|].
  apply gives_bind, (gives_read _ (present w1 final)); [done|]. cbv beta iota. apply gives_bind.
  assert (Hlast : forall w2, present w2 staging = true -> is_dir w2 box = true -> present w2 final = false ->
    gives (catch (replace_dir staging final)
      (backupThere ← must_read (fun w => Some (present w backup));
       finalThere ← must_read (fun w => Some (present w final));
       _ ← (if backupThere && negb finalThere then replace_dir backup final else mret tt);
       throw)) (fun _ w' => is_dir w' box = true) w2).
  { intros w2 H1 H2 H3. destruct (move_tree_gives ("." +:+ event +:+ "." +:+ id +:+ ".part") event w2) as (w3 & Hm & Hd3); [done..|].
    by apply gives_catch, (gives_atomically _ _ w3). }
  destruct (present w1 final) eqn:Ef; [|by apply gives_ret, Hlast].
  destruct (move_tree_gives event ("." +:+ event +:+ ".backup") w1) as (w2 & Hm & Hd2); [done..|].
  apply (gives_atomically _ _ w2); [done|]. apply move_tree_spec in Hm as (_ & Hfinal & Ho); [|done].
  apply Hlast; [|done|].
  - unfold present in *. cbn [child] in *. rewrite Ho; [done| |].
    + intros Hs. by apply Hne1, (child_same box _ _ staging).
    + intros Hs. by apply Hne3, (child_same box _ _ staging).
  - unfold present. cbn [child]. specialize (Hfinal []). cbn [app] in Hfinal. by rewrite Hfinal.
Qed.

(** What has come is whole, and its checksum manifest is right. *)
Record verifiable (have : gmap string (Z * string)) : Prop := {
  vf_whole key z c : have !! key = Some (z, c) -> z = byte_size c /\ exists r, r ∈ rels /\ key = generic_string r;
  vf_manifest : exists z text expected, have !! "manifest.sha256"%string = Some (z, text) /\
    byte_size text <= MAX_MANIFEST_BYTES /\ manifest_lines (splitlines_from "" text) ∅ = Some expected /\
    expected <> ∅ /\ digests_agree expected (file_state <$> have) = true
}.

Definition bytes_of (have : gmap string (Z * string)) : Z := map_fold (fun _ p n => byte_size p.2 + n) 0 have.

Lemma received_total_of ts have : ts_files ts = file_state <$> have -> received_total ts = bytes_of have.
Proof.
  intros E. unfold received_total, bytes_of. rewrite E. by rewrite map_fold_fmap.
Qed.

Lemma files_complete_gives have n w l :
  holding event id box have n w -> verifiable have -> l ⊆ map_to_list (file_state <$> have) ->
  gives (files_complete staging l) (fun b w' => b = true /\ w' = w) w.
Proof.
  intros [_ Hf] [Hv _]. induction l as [|[relative fs] l IH]; intros Hl; cbn [files_complete]; [by apply gives_ret|].
  assert (Hin : (file_state <$> have) !! relative = Some fs) by (apply elem_of_map_to_list, Hl; by left).
  rewrite lookup_fmap in Hin. destruct (have !! relative) as [[z c]|] eqn:Eh; [|done]. injection Hin as <-.
  destruct (Hv _ _ _ Eh) as [-> (r & Hr & ->)]. pose proof (or_plain rels_orderly r Hr) as Hp.
  rewrite plain_parts, rev_involutive by done.
  assert (Hread : read_text w (r ++ staging) = Some c) by (apply Hf; eauto).
  unfold read_text in Hread. destruct (files w !! (r ++ staging)) as [[c' m| |]|] eqn:Ew; simplify_eq.
  apply gives_bind, (gives_read _ (byte_size c)); [by rewrite Ew|]. cbn [file_state fs_received fs_expected fst snd].
  rewrite Z.eqb_refl. cbn [negb orb]. apply gives_bind, (gives_read _ tt).
  - unfold present. rewrite Ew. by destruct (r ++ staging).
  - apply IH. set_solver.
Qed.

Lemma verify_gives have n w ts :
  holding event id box have n w -> verifiable have -> ts_files ts = file_state <$> have ->
  gives (verify_checksums staging ts) (fun b w' => b = true /\ w' = w) w.
Proof.
  intros [_ Hf] [_ (z & text & expected & Hm & Hsize & Hlines & Hne & Hagree)] Hts. unfold verify_checksums. cbv zeta.
  assert (Hread : read_text w (child staging "manifest.sha256") = Some text).
  { apply (Hf ["manifest.sha256"%string]). split; [|by exists z]. split; [done|]. by apply Forall_singleton. }
  apply gives_bind, (gives_read _ true).
  { unfold is_file, read_text in *. by destruct (files w !! _) as [[]|]. }
  cbn [negb]. apply gives_bind, (gives_read _ text); [done|]. replace (_ >? _) with false by lia.
  rewrite Hlines, Hts, Hagree, bool_decide_true by done. by apply gives_ret.
Qed.

Lemma end_gives count bytes t now have n w :
  apart event id box n -> collecting count bytes t n w -> holding event id box have n w -> still_active t now ->
  verifiable have -> Z.of_nat (size have) = count -> bytes_of have = bytes ->
  dir_or_none w backup -> rooted w backup ->
  gives (handle_request now (end_request event id) n) (fun a _ => success a.1 = true /\ received_bytes a.1 = bytes) w.
Proof.
  intros Hap Hco Hho Hact Hver Hcount Hbytes Hback Hroot. unfold handle_request. apply gives_bind.
  eapply gives_post; [|by apply (prune_collecting count bytes t now have)].
  intros n1 w1 (Hap1 & [Hentry Hbox1 [Hst1 _]] & Hho1 & Ho1). pose proof Hho1 as [(ts' & Hts' & _ & _ & Efiles) _].
  destruct Hentry as (ts & Hts & He & Hi & Hc & Hbt & Ht & Hcan). assert (ts' = ts) as -> by congruence.
  assert (Hback1 : dir_or_none w1 backup).
  { unfold dir_or_none in *. pose proof (Ho1 backup (backup_outside [])) as E. by rewrite E. }
  assert (Hroot1 : rooted w1 backup).
  { apply (same_in_rooted backup w w1); [|done..]. intros r. apply Ho1, backup_outside. }
  unfold dispatch, end_request. cbn [event_name transfer_id opcode]. rewrite event_valid, id_valid, Hts. cbn [negb orb].
  cbv zeta. apply gives_catch. set (n2 := put_transfer (with_activity now ts) n1).
  assert (Hb : inbox n2 = box) by apply (ap_box _ _ _ n1 Hap1).
  unfold finish. cbv zeta.
  assert (Htotal : received_total (with_activity now ts) = bytes) by (by rewrite (received_total_of _ have)).
  rewrite Htotal. cbn [with_activity ts_files ts_event ts_id expected_files expected_bytes].
  rewrite Efiles, map_size_fmap, Hc, Hcount, Hbt, !Z.eqb_refl, He, Hi. cbn [negb].
  assert (Hs : staging_dir n2 event id = staging) by (unfold staging_dir; by rewrite Hb). rewrite Hs.
  apply gives_bind. eapply gives_post; [|by apply (files_complete_gives have n1)]. intros b w' [-> ->]. cbn [negb].
  apply gives_bind. eapply gives_post; [|by apply (verify_gives have n1)]. intros b w' [-> ->]. cbn [negb].
  apply gives_bind, fsync_gives; [by apply Hst1|]. apply gives_bind.
  eapply gives_post; [|apply publish_gives; try done; [by apply Hbox1|by apply Hst1]]. intros [] w2 Hbox2.
  apply gives_bind. eapply gives_post; [|apply rmtree_gives]. intros [] w3 Hw3.
  apply gives_bind, fsync_gives; [|by apply gives_ret]. rewrite Hb. unfold is_dir in *. destruct box as [|x q]; [done|].
  rewrite Hw3. rewrite bool_decide_false; [by rewrite andb_false_r|]. unfold backup_dir. rewrite Hb. apply not_above.
Qed.

End transfer.

(** ** The receiver while nothing fails *)

Section service.
Context `{Sha256} `{Traversal} `{Listing}.
Context (start : ReceiverNode * world) (moment : nat -> Z) (mishaps recovery : nat -> list fault)
        (ready lost : nat -> bool).

Abbreviation at_receiver := (served start moment mishaps recovery).
#[local] Instance the_receiver : Service := receiver_service start moment mishaps recovery ready lost.

(** From the [k]-th request on nothing fails, and no pause is too long. *)
Definition smooth (k : nat) : Prop := forall i, (k <= i)%nat ->
  ready i = true /\ lost i = false /\ mishaps i = [] /\ still_active (moment i) (moment (S i)).

Lemma gives_acked k l request (P : Response * ReceiverNode -> world -> Prop) :
  smooth k -> (k <= length l)%nat ->
  gives (handle_request (moment (length l)) request (at_receiver l).1) (fun a w' => success a.1 = true /\ P a w')
    (at_receiver l).2 ->
  acked l [request] /\ exists response, respond l request = Some response /\
    P (response, (at_receiver (l ++ [request])).1) (at_receiver (l ++ [request])).2.
Proof.
  intros Hsm Hk ([response n] & w' & Hr & Hok & HP). destruct (Hsm _ Hk) as (Hready & Hlost & Hmis & _).
  assert (Hs : serve moment mishaps recovery (length l) request (at_receiver l) = (Some response, (n, w'))).
  { unfold serve. rewrite Hmis. unfold returns in Hr. by rewrite Hr. }
  assert (Hnext : at_receiver (l ++ [request]) = (n, w')).
  { unfold served in *. rewrite serve_all_snoc. cbn [Nat.add]. by rewrite Hs. }
  assert (Ha : respond l request = Some response) by (cbn; by rewrite Hlost, Hs). rewrite Hnext. cbn [fst snd].
  split; [|by exists response]. split; [|done]. split; [done|]. by exists response.
Qed.

Context (event id : string) (box : path) (rels : list path) (k : nat).
Hypothesis event_valid : validate_event_name event = true.
Hypothesis id_valid : validate_event_name id = true.
Hypothesis names_short : (String.length event + String.length id + String.length "...part" <= 240)%nat.
Hypothesis rels_orderly : orderly rels.
Hypothesis all_smooth : smooth k.

Abbreviation staging := (child box ("." +:+ event +:+ "." +:+ id +:+ ".part")).

(** The receiver has [have] after the requests [l] and goes on with the transfer. *)
Record under_way (count bytes : Z) (w0 : world) (have : gmap string (Z * string)) (l : list Request) : Prop := {
  tk_has : gathered start moment mishaps recovery event id box w0 have l;
  tk_collecting : exists t, collecting event id box rels count bytes t (at_receiver l).1 (at_receiver l).2 /\
                    still_active t (moment (length l));
  tk_outside : same_outside box w0 (at_receiver l).2;
  tk_late : (k <= length l)%nat
}.

Lemma taken_next count bytes w0 have l request :
  gathered start moment mishaps recovery event id box w0 have (l ++ [request]) ->
  collecting event id box rels count bytes (moment (length l)) (at_receiver (l ++ [request])).1 (at_receiver (l ++ [request])).2 ->
  same_outside box w0 (at_receiver (l ++ [request])).2 -> (k <= length l)%nat ->
  under_way count bytes w0 have (l ++ [request]).
Proof.
  intros Hhas Hco Hout Hk. split; [done| |done|rewrite length_app; lia]. exists (moment (length l)). split; [done|].
  rewrite length_app. cbn [length]. rewrite Nat.add_1_r. by apply all_smooth.
Qed.

Lemma begin_taken count bytes l :
  (k <= length l)%nat -> apart event id box (at_receiver l).1 -> vacant event id box (at_receiver l).1 (at_receiver l).2 ->
  0 < count <= MAX_FILES -> 0 <= bytes <= MAX_TOTAL_BYTES ->
  acked l [begin_request event id count bytes] /\
  under_way count bytes (at_receiver l).2 ∅ (l ++ [begin_request event id count bytes]).
Proof.
  intros Hk Hap Hva Hc Hb.
  destruct (gives_acked k l (begin_request event id count bytes) (fun a w' =>
    collecting event id box rels count bytes (moment (length l)) a.2 w' /\ same_outside box (at_receiver l).2 w'))
    as (Hack & response & _ & Hco & Hout); [done..|by apply begin_gives|].
  split; [done|]. apply taken_next; try done. by eapply begin_received; [|..|apply (va_rooted _ _ _ _ _ Hva)|].
Qed.

Lemma chunk_taken count bytes w0 have l r size old more :
  under_way count bytes w0 have l -> r ∈ rels -> follows have r size old -> byte_size old + byte_size more <= size ->
  acked l [next_chunk event id r size old more] /\
  under_way count bytes w0 (<[generic_string r := (size, old +:+ more)]> have) (l ++ [next_chunk event id r size old more]).
Proof.
  intros [Hhas (t & Hco & Hact) Hout Hk] Hr Hf Hsize. pose proof Hhas as (Hap & Hho & _).
  destruct (gives_acked k l (next_chunk event id r size old more) (fun a w' =>
    collecting event id box rels count bytes (moment (length l)) a.2 w' /\ same_outside box (at_receiver l).2 w'))
    as (Hack & response & _ & Hco' & Hout'); [done..|by eapply chunk_gives|].
  split; [done|]. apply taken_next; try done.
  - eapply chunk_received; try done. by apply (or_plain _ rels_orderly).
  - by eapply same_outside_trans.
Qed.

Lemma end_taken count bytes w0 have l :
  under_way count bytes w0 have l -> verifiable rels have -> Z.of_nat (size have) = count -> bytes_of have = bytes ->
  dir_or_none w0 (child box ("." +:+ event +:+ ".backup")) -> rooted w0 (child box ("." +:+ event +:+ ".backup")) ->
  acked l [end_request event id] /\ exists response, respond l (end_request event id) = Some response /\
    received_bytes response = bytes.
Proof.
  intros [Hhas (t & Hco & Hact) Hout Hk] Hv Hc Hb Hd Hr. pose proof Hhas as (Hap & Hho & _).
  pose proof (backup_outside event box []) as Hback. cbn [app] in Hback.
  destruct (gives_acked k l (end_request event id) (fun a _ => received_bytes a.1 = bytes))
    as (Hack & response & Hresp & Hbytes); [done..| |split; [done|by exists response]].
  eapply end_gives; try done.
  - unfold dir_or_none in *. by rewrite (Hout _ Hback).
  - apply (same_in_rooted _ w0); [|done..]. intros r. apply Hout, backup_outside.
Qed.

End service.

(** ** A whole upload *)

(** The relative paths of the files to upload. *)
Definition relatives `{Traversal} (w : world) (d : path) : list path := omap (strip_prefix d) (collected w d).

(** What an event directory needs to be accepted: paths that the receiver takes,
    its limits, and a checksum manifest of exactly the other files. *)
Record in_order `{Sha256} `{Traversal} (w : world) (d : path) : Prop := {
  io_orderly : orderly (relatives w d);
  io_count : Z.of_nat (length (collected w d)) <= MAX_FILES;
  io_bytes : sizes w (collected w d) <= MAX_TOTAL_BYTES;
  io_manifest : exists text expected, uploadable w d (child d "manifest.sha256") /\
    read_text w (child d "manifest.sha256") = Some text /\ byte_size text <= MAX_MANIFEST_BYTES /\
    manifest_lines (splitlines_from "" text) ∅ = Some expected /\ expected <> ∅ /\
    forall name digest, expected !! name = Some digest <-> exists r c, uploadable w d (r ++ d) /\
      name = generic_string r /\ name <> "manifest.sha256"%string /\ read_text w (r ++ d) = Some c /\
      digest = to_hex (sha256 c)
}.

Lemma elem_of_relatives `{Traversal} w d r : r ∈ relatives w d <-> uploadable w d (r ++ d).
Proof.
  unfold relatives. rewrite list_elem_of_omap. split.
  - intros (q & Hq & Hs). apply strip_prefix_Some in Hs as ->. by apply elem_of_collected.
  - intros Hu. exists (r ++ d). by rewrite elem_of_collected, strip_prefix_app.
Qed.

Lemma bytes_of_insert have key p : have !! key = None -> bytes_of (<[key := p]> have) = byte_size p.2 + bytes_of have.
Proof. intros Hk. unfold bytes_of. rewrite map_fold_insert_L; [done|intros; lia|done]. Qed.

Lemma bytes_of_deliveries w d infos :
  Forall (described w d) infos -> NoDup (fi_relative <$> infos) -> bytes_of (deliveries w infos) = total_size infos.
Proof.
  intros Hd. induction Hd as [|info infos [(c & m & Hf & Hsz) _] Hd IH]; [done|].
  rewrite fmap_cons. intros [Hn Hnd]%NoDup_cons. unfold deliveries in *. csimpl. rewrite bytes_of_insert.
  - rewrite IH by done. cbn [snd]. unfold content, read_text. rewrite Hf, Hsz. done.
  - apply not_elem_of_list_to_map_1. by rewrite <- list_fmap_compose.
Qed.

Lemma size_deliveries w infos : NoDup (fi_relative <$> infos) -> size (deliveries w infos) = length infos.
Proof.
  intros Hnd. unfold deliveries. rewrite map_size_list_to_map; [apply length_fmap|]. by rewrite <- list_fmap_compose.
Qed.

Section deliveries.
Context `{Sha256} `{Traversal} (w : world) (d : path) (infos : list FileInfo).
Hypothesis all_in_order : in_order w d.
Hypothesis all_described : Forall (described w d) infos.
Hypothesis all_collected : fi_path <$> infos ≡ₚ collected w d.

Lemma collected_plain r : r ++ d ∈ fi_path <$> infos -> plain r.
Proof.
  rewrite all_collected, elem_of_collected, <- elem_of_relatives. apply (or_plain _ (io_orderly _ _ all_in_order)).
Qed.

Lemma relatives_named : Forall (named (fun r => r ∈ relatives w d)) infos.
Proof.
  apply Forall_forall. intros info Hi.
  destruct (proj1 (Forall_forall _ _) all_described info Hi) as [_ (r & _ & Hp & Hr)]. exists r. split; [|done].
  rewrite elem_of_relatives, <- elem_of_collected, <- all_collected, <- Hp. by apply list_elem_of_fmap_2.
Qed.

Lemma relatives_distinct : NoDup (fi_relative <$> infos).
Proof.
  apply (relative_distinct w d); [done|apply collected_plain|]. rewrite all_collected. apply collected_NoDup.
Qed.

Lemma elem_of_all_deliveries key z c :
  deliveries w infos !! key = Some (z, c) <->
  exists r, uploadable w d (r ++ d) /\ key = generic_string r /\ read_text w (r ++ d) = Some c /\ z = byte_size c.
Proof.
  assert (Hr : forall r, uploadable w d (r ++ d) <-> r ++ d ∈ fi_path <$> infos)
    by (intros r; by rewrite all_collected, elem_of_collected).
  assert (Hsize : forall info c, info ∈ infos -> read_text w (fi_path info) = Some c -> fi_size info = byte_size c).
  { intros info c' Hi Hc. apply (proj1 (Forall_forall _ _) all_described) in Hi as [(c0 & m & Hf & ->) _].
    unfold read_text in Hc. rewrite Hf in Hc. congruence. }
  split.
  - intros Hkey. assert (exists r, plain r /\ key = generic_string r) as (r & Hp & ->).
    { unfold deliveries in Hkey. apply elem_of_list_to_map_2, list_elem_of_fmap in Hkey as (info & [= -> _ _] & Hi).
      apply (proj1 (Forall_forall _ _) relatives_named) in Hi as (r & Hr' & ->). exists r. split; [|done].
      by apply (or_plain _ (io_orderly _ _ all_in_order)). }
    apply (elem_of_deliveries w d) in Hkey as (info & Hi & Hpath & -> & Hc); [|done|apply relatives_distinct|done|apply collected_plain].
    exists r. split; [rewrite Hr, <- Hpath; by apply list_elem_of_fmap_2|]. split_and!; [done..|]. apply Hsize; [done|by rewrite Hpath].
  - intros (r & Hu & -> & Hc & ->). apply Hr in Hu as Hin. pose proof (collected_plain r Hin) as Hp.
    apply list_elem_of_fmap in Hin as (info & Hpath & Hi).
    apply (elem_of_deliveries w d); [done|apply relatives_distinct|done|apply collected_plain|].
    exists info. split_and!; [done..| |done]. symmetry. apply Hsize; [done|by rewrite <- Hpath].
Qed.

Lemma deliveries_verifiable : verifiable (relatives w d) (deliveries w infos).
Proof.
  split.
  - intros key z c (r & Hu & -> & _ & ->)%elem_of_all_deliveries. split; [done|]. exists r. by rewrite elem_of_relatives.
  - destruct (io_manifest _ _ all_in_order) as (text & expected & Hu & Hread & Hsize & Hlines & Hne & Hexp).
    exists (byte_size text), text, expected. split_and!; [|done..|].
    + apply elem_of_all_deliveries. by exists ["manifest.sha256"%string].
    + unfold digests_agree. apply andb_true_intro. split.
      * apply bool_decide_eq_true, set_eq. intros key. rewrite elem_of_difference, not_elem_of_singleton, !elem_of_dom.
        split.
        -- intros [digest (r & c & Hr & -> & Hn & Hc & _)%Hexp]. split; [|done]. rewrite lookup_fmap.
           assert (deliveries w infos !! generic_string r = Some (byte_size c, c)) as ->; [|by eexists].
           apply elem_of_all_deliveries. by exists r.
        -- intros [[fs Hfs] Hn]. rewrite lookup_fmap in Hfs. destruct (deliveries w infos !! key) as [[z c]|] eqn:E; [|done].
           apply elem_of_all_deliveries in E as (r & Hr & -> & Hc & _). eexists. apply Hexp. by exists r, c.
      * apply forallb_forall. intros [key digest] Hin%list_elem_of_In%elem_of_map_to_list. cbn [fst snd].
        apply Hexp in Hin as (r & c & Hr & -> & _ & Hc & ->). rewrite lookup_fmap.
        assert (deliveries w infos !! generic_string r = Some (byte_size c, c)) as ->.
        { apply elem_of_all_deliveries. by exists r. }
        cbn. apply String.eqb_refl.
Qed.

End deliveries.

Lemma total_size_sizes w d infos : Forall (described w d) infos -> total_size infos = sizes w (fi_path <$> infos).
Proof.
  induction 1 as [|info infos [(c & m & Hf & Hsz) _] Hd IH]; [done|]. cbn [total_size foldr]. fold (total_size infos).
  rewrite IH, fmap_cons. cbn [sizes foldr]. fold (sizes w (fi_path <$> infos)). unfold content, read_text.
  by rewrite Hf, Hsz.
Qed.

(** The receiver is idle as far as the event is concerned and has room for it. *)
Record prepared (event id : string) (box : path) (s : ReceiverNode * world) : Prop := {
  pr_clear : clear_for event box s;
  pr_vacant : vacant event id box s.1 s.2;
  pr_backup : dir_or_none s.2 (child box ("." +:+ event +:+ ".backup"));
  pr_backup_rooted : rooted s.2 (child box ("." +:+ event +:+ ".backup"))
}.

(** Names that the receiver takes. *)
Definition good_names (event id : string) : Prop :=
  validate_event_name event = true /\ validate_event_name id = true /\
  (String.length event + String.length id + String.length "...part" <= 240)%nat.

Section accepted.
Context `{Sha256} `{Traversal} `{Listing}.
Context (start : ReceiverNode * world) (moment : nat -> Z) (mishaps recovery : nat -> list fault)
        (ready lost : nat -> bool).

Abbreviation at_receiver := (served start moment mishaps recovery).
#[local] Existing Instance receiver_service.
#[local] Instance a_receiver : Service := receiver_service start moment mishaps recovery ready lost.

Lemma receiver_obliging chunk d id w l box :
  (0 < chunk)%nat -> smooth moment mishaps ready lost (length l) -> in_order w d -> collected w d <> [] ->
  good_names (filename d) id -> prepared (filename d) id box (at_receiver l) ->
  obliging chunk d id w l (collected w d).
Proof.
  intros Hchunk Hsm Hord Hne (Hv & Hid & Hshort) [Hclear Hva Hb1 Hb2] infos Hp Hd. cbv zeta.
  unfold transfer_requests. set (event := filename d) in *.
  assert (Hperm : rev infos ≡ₚ infos) by (symmetry; apply Permutation_rev).
  assert (Hd' : Forall (described w d) (rev infos)) by (by rewrite Hperm).
  assert (Hp' : fi_path <$> rev infos ≡ₚ collected w d) by (by rewrite Hperm).
  assert (Hlen : length infos = length (collected w d)) by (by rewrite <- Hp, length_fmap).
  assert (Htotal : total_size infos = sizes w (collected w d)) by (by rewrite (total_size_sizes w d), Hp).
  set (count := Z.of_nat (length infos)). set (bytes := total_size infos).
  destruct (begin_taken start moment mishaps recovery ready lost event id box (relatives w d) (length l)
    Hv Hid Hshort Hsm count bytes l) as [Ha1 Ht1]; [done|apply Hclear|done| | |].
  { unfold count. rewrite Hlen. pose proof (io_count _ _ Hord). destruct (collected w d); [done|simpl in *; lia]. }
  { unfold bytes. rewrite Htotal. pose proof (io_bytes _ _ Hord). pose proof (sizes_nonneg w (collected w d)). lia. }
  set (begun := begin_request event id count bytes) in *.
  destruct (files_step event id (fun r => r ∈ relatives w d)
    (under_way start moment mishaps recovery event id box (relatives w d) (length l) count bytes (at_receiver l).2)
    (fun _ _ => True) acked) with (w := w) (d := d) (chunk := chunk) (infos := infos) (before := @nil FileInfo) (l := l ++ [begun])
    as [Ha2 Ht2]; try done.
  { intros l1 l2 l3 A1 A2. apply acked_app. by split. }
  { intros have l1 r size old more Ht Hr Hf Hs _. apply chunk_taken; try done. apply Hord. }
  { by apply relatives_named. }
  { rewrite app_nil_r. by apply (relatives_distinct w d). }
  rewrite app_nil_r in Ht2. set (reqs := files_requests event id chunk w infos) in *.
  destruct (end_taken start moment mishaps recovery ready lost event id box (relatives w d) (length l)
    Hv Hid Hshort (io_orderly _ _ Hord) Hsm count bytes _ _ _ Ht2) as [Ha3 (response & Hr & Hbytes)]; [|..|done|done|].
  { by apply deliveries_verifiable. }
  { rewrite size_deliveries by (by apply (relatives_distinct w d)). unfold count. by rewrite Hperm. }
  { rewrite (bytes_of_deliveries w d) by (done || by apply (relatives_distinct w d)). unfold bytes.
    by rewrite !(total_size_sizes w d), Hperm by done. }
  rewrite <- (assoc_L (++)) in Hr, Ha3. split.
  - change ((begun :: reqs) ++ ?x) with ([begun] ++ reqs ++ x). rewrite !acked_app. split_and!; [done..|].
    by rewrite <- (assoc_L (++)).
  - intros response' Hr'. enough (Some response = Some response') as [= <-] by exact Hbytes. by rewrite <- Hr.
Qed.

Lemma accepted_run box now d s w :
  let id := id_for now (nextId s) d w in
  0 < chunkBytes (upload_config s) -> fit_for_upload (upload_config s) now d w -> in_order w d ->
  good_names (filename d) id -> prepared (filename d) id box (at_receiver (sent s)) ->
  smooth moment mishaps ready lost (length (sent s)) ->
  exists s' w', returns (uploadDirectory now d s) w (true, s') w' /\
    (exists m, files w' !! child d ".uploaded" =
       Some (File (uploaded_content (upload_config s) (Z.of_nat (length (collected w d)))) m)) /\
    forall r c, read_text (at_receiver (sent s')).2 (r ++ child box (filename d)) = Some c <->
      uploadable w d (r ++ d) /\ read_text w (r ++ d) = Some c.
Proof.
  intros id Hc Hfit Hord Hnames Hprep Hsm.
  destruct (uploadDirectory_returns now d s w Hc Hfit) as (infos & s' & w' & Hr & _ & Hm & Hin & Ht).
  { apply receiver_obliging with (box := box); try done; [lia|apply Hfit]. }
  pose proof Ht as (Hnd & _).
  assert (Hp : fi_path <$> infos ≡ₚ collected w d).
  { apply NoDup_Permutation; [done|apply collected_NoDup|]. intros q. by rewrite Hin, elem_of_collected. }
  exists s', w'. split; [done|]. split; [destruct Hm as [m Hm]; exists m; by rewrite <- Hp, length_fmap|]. intros r c. rewrite <- Hin.
  apply (transmitted_delivered start moment mishaps recovery ready lost (Z.to_nat (chunkBytes (upload_config s))) box d w
    (sent s)); [lia|apply Hprep| |done].
  intros r' Hr'. apply (or_plain _ (io_orderly _ _ Hord)). by apply elem_of_relatives.
Qed.

(** C10. When nothing fails, an upload gets through: the receiver accepts every
    request, the worker reports success and marks the event directory, and the
    event's directory in the inbox has exactly the files that were there to be
    uploaded, with the same bytes. The event directory must be in order (paths,
    limits, checksum manifest) and held by no other upload; the receiver must
    have room, be reached in time, and not be receiving the event already. *)
Theorem upload_accepted box now d s w :
  let id := id_for now (nextId s) d w in
  0 < chunkBytes (upload_config s) -> fit_for_upload (upload_config s) now d w -> in_order w d ->
  good_names (filename d) id -> prepared (filename d) id box (at_receiver (sent s)) ->
  smooth moment mishaps ready lost (length (sent s)) ->
  exists s' w', returns (uploadDirectory now d s) w (true, s') w' /\
    (exists m, files w' !! child d ".uploaded" =
       Some (File (uploaded_content (upload_config s) (Z.of_nat (length (collected w d)))) m)) /\
    forall r c, read_text (at_receiver (sent s')).2 (r ++ child box (filename d)) = Some c <->
      uploadable w d (r ++ d) /\ read_text w (r ++ d) = Some c.
Proof. apply accepted_run. Qed.

End accepted.

(** ** A sample *)

Lemma sample_relatives :
  relatives sample_store sample_dir = [["0.png"; "images"]; ["manifest.csv"]; ["manifest.sha256"]]%string.
Proof. vm_compute. reflexivity. Qed.

Lemma elem_of_three {A} (x a b c : A) : x ∈ [a; b; c] <-> x = a \/ x = b \/ x = c.
Proof. rewrite !elem_of_cons, elem_of_nil. tauto. Qed.

Lemma sample_orderly : orderly (relatives sample_store sample_dir).
Proof.
  rewrite sample_relatives. split.
  - intros r Hr%elem_of_three. destruct Hr as [->|[->| ->]]; (split; [done|]); repeat constructor.
  - intros r Hr%elem_of_three. destruct Hr as [->|[->| ->]]; vm_compute; reflexivity.
  - intros r r' Hr%elem_of_three Hr'%elem_of_three Hs.
    destruct Hr as [->|[->| ->]], Hr' as [->|[->| ->]]; try done; exfalso; revert Hs;
      match goal with |- ?P -> False => apply (bool_decide_eq_false_1 P) end; vm_compute; reflexivity.
  - intros r r' Hr%elem_of_three Hr'%elem_of_three Hs.
    destruct Hr as [->|[->| ->]], Hr' as [->|[->| ->]]; try done; vm_compute in Hs; discriminate.
Qed.

Lemma sample_in_order : in_order sample_store sample_dir.
Proof.
  split; [apply sample_orderly|vm_compute; discriminate..|].
  set (digest := fun text => to_hex (sha256 text)).
  exists (sample_line "index,t" "manifest.csv" +:+ sample_line "PNG-bytes" "images/0.png"),
    (<["images/0.png"%string := digest "PNG-bytes"%string]> (<["manifest.csv"%string := digest "index,t"%string]> ∅)).
  split_and!; [apply (elem_of_relatives _ _ ["manifest.sha256"%string]); rewrite sample_relatives, elem_of_three; auto|
    vm_compute; reflexivity|vm_compute; discriminate|vm_compute; reflexivity|apply insert_non_empty|].
  intros name text. split.
  - intros [[<- <-]|[_ [[<- <-]|[_ Hn]]%lookup_insert_Some]]%lookup_insert_Some.
    + exists ["0.png"; "images"]%string, "PNG-bytes"%string. rewrite <- elem_of_relatives, sample_relatives, elem_of_three. auto.
    + exists ["manifest.csv"]%string, "index,t"%string. rewrite <- elem_of_relatives, sample_relatives, elem_of_three. auto 6.
    + by rewrite lookup_empty in Hn.
  - intros (r & c & Hu & -> & Hne & Hc & ->).
    rewrite <- elem_of_relatives, sample_relatives, elem_of_three in Hu.
    destruct Hu as [->|[->| ->]]; [| |done]; vm_compute in Hc; injection Hc as <-;
      [apply lookup_insert_eq|]. by rewrite lookup_insert_ne, lookup_insert_eq.
Qed.

#[local] Instance sample_service : Service :=
  receiver_service sample_inbox Z.of_nat (fun _ => []) (fun _ => []) (fun _ => true) (fun _ => false).

Lemma sample_prepared event id :
  files sample_inbox.2 !! child ["inbox"%string] ("." +:+ event +:+ "." +:+ id +:+ ".part") = None ->
  files sample_inbox.2 !! child ["inbox"%string] ("." +:+ event +:+ ".backup") = None ->
  prepared event id ["inbox"%string] sample_inbox.
Proof.
  intros H1 H2. assert (Hr : forall d, rooted sample_inbox.2 d) by (apply tree_rooted; vm_compute; reflexivity).
  split; [by apply idle_clear| |by left|done]. split; [done|vm_compute; lia|done| |by left|done].
  apply reachableb_spec. vm_compute. reflexivity.
Qed.

Lemma upload_accepted_witness :
  let s := newUploadWorker ["records"%string] sample_config in
  exists s' w', returns (uploadDirectory 100 sample_dir s) sample_store (true, s') w' /\
    (exists m, files w' !! child sample_dir ".uploaded" =
       Some (File (uploaded_content sample_config (Z.of_nat (length (collected sample_store sample_dir)))) m)) /\
    forall r c, read_text (sample_received (sent s')).2 (r ++ child ["inbox"%string] (filename sample_dir)) = Some c <->
      uploadable sample_store sample_dir (r ++ sample_dir) /\ read_text sample_store (r ++ sample_dir) = Some c.
Proof.
  apply (upload_accepted sample_inbox Z.of_nat (fun _ => []) (fun _ => []) (fun _ => true) (fun _ => false)
    ["inbox"%string] 100 sample_dir (newUploadWorker ["records"%string] sample_config) sample_store).
  - vm_compute. reflexivity.
  - split.
    + apply reachableb_spec. vm_compute. reflexivity.
    + repeat (apply Forall_cons; split; [left; vm_compute; reflexivity|]). constructor.
    + vm_compute. exact I.
    + vm_compute. discriminate.
    + vm_compute. discriminate.
    + vm_compute. discriminate.
  - exact sample_in_order.
  - split; [vm_compute; reflexivity|]. split; [vm_compute; reflexivity|vm_compute; lia].
  - apply sample_prepared; vm_compute; reflexivity.
  - intros i _. split; [reflexivity|]. split; [reflexivity|]. split; [reflexivity|].
    unfold still_active, TRANSFER_IDLE_SECONDS, ns_per_s. lia.
Defined.
