(* ===== verification/Handover.v ===== *)
(** * Handover: from the storage worker to the inbox

    Puts the storage worker, the upload worker and the receiver together.  The
    checksum manifest that the storage worker writes in C++ is the one that the
    receiver checks in Python, so that an event that has been completed reaches
    the inbox with all of its files. *)

From S2P Require Import Prelude Text SensorData FileSystem EventState RecordIo StorageWorker Readback.
From S2P Require Import Upload Transfer Uploads Receiver Delivery Acceptance.

(** ** Names *)

(** Characters that end no line in Python. *)
Definition plain_char (c : ascii) : bool := negb (line_end c || Ascii.eqb c "000").

(** A name that all three programs take. *)
Definition sendable (c : string) : Prop := good_name c /\ str_all plain_char c = true.

Lemma generic_string_all f r :
  r <> [] -> f "/"%char = true -> Forall (fun c => str_all f c = true) r -> str_all f (generic_string r) = true.
Proof.
  intros Hne Hf Hr. rewrite <- (rev_involutive r). apply Forall_rev in Hr.
  destruct (rev r) as [|name rest] eqn:E; [by apply (f_equal (@rev string)) in E; rewrite rev_involutive in E|].
  rewrite generic_string_rev, str_all_app. apply Forall_cons in Hr as [-> Hr]. simpl. clear E.
  induction Hr as [|part rest Hp Hr IH]; [done|]. simpl. by rewrite Hf, str_all_app, Hp, IH.
Qed.

Lemma lacks_has_char c s : lacks c s -> has_char c s = false.
Proof.
  unfold lacks, has_char, str_any. intros Hl. apply negb_false_iff. eapply str_all_impl; [|exact Hl].
  intros x. by rewrite Ascii.eqb_sym.
Qed.

Lemma safeComponent_parts c : safeComponent c = true ->
  unsafe_part c = false /\ lacks ":" c /\ lacks "\" c.
Proof.
  unfold safeComponent, unsafe_part. rewrite andb_true_iff, !negb_true_iff, !orb_false_iff.
  intros [(((((-> & ->) & ->) & H1) & H2) & ->) ->]. rewrite H1. split; [done|]. split; by apply has_char_lacks.
Qed.

Lemma sendable_plain r : r <> [] -> Forall sendable r -> plain r.
Proof.
  intros Hne Hr. split; [done|]. eapply Forall_impl; [exact Hr|]. intros c [(Hs & Hc & _) _].
  by apply safeComponent_parts in Hs as (_ & _ & ?).
Qed.

(** The receiver accepts the paths that the reader of the event accepts. *)
Lemma safe_relative_sendable r :
  r <> [] -> Forall sendable r -> (String.length (generic_string r) <= MAX_RELATIVE_PATH)%nat ->
  safe_relative (generic_string r) = Some (rev r).
Proof.
  intros Hne Hr Hlen. pose proof (sendable_plain r Hne Hr) as Hp. unfold safe_relative.
  replace (MAX_RELATIVE_PATH <? _)%nat with false by lia. rewrite plain_normal by done.
  assert (Hgood : Forall good_name r) by (eapply Forall_impl; [exact Hr|]; by intros c []).
  pose proof (generic_string_ne r Hne Hgood) as He. rewrite (proj2 (String.eqb_neq _ _) He). cbn [orb].
  rewrite lacks_has_char.
  2: { apply (lacks_of_class plain_char); [done|]. apply generic_string_all; [done..|].
       eapply Forall_impl; [exact Hr|]. by intros c []. }
  pose proof (generic_string_safe r Hne Hgood) as Hsafe. unfold safeRelativePath in Hsafe.
  assert (Hcolon : lacks ":" (generic_string r)).
  { apply generic_string_all; [done..|]. eapply Forall_impl; [exact Hgood|]. intros c (Hs & _).
    by apply safeComponent_parts in Hs as (_ & ? & _). }
  assert (Hdrive : drive_letter (generic_string r) = false).
  { unfold drive_letter. destruct (generic_string r) as [|c [|c' s]]; [done..|].
    apply lacks_cons in Hcolon as [_ Hcolon]. apply lacks_cons in Hcolon as [Hc _]. by destruct c' as [[] [] [] [] [] [] [] []]. }
  rewrite Hdrive. destruct (generic_string r) as [|c s] eqn:E; [done|]. cbn [str_front].
  apply andb_prop in Hsafe as [Hslash _]. apply negb_true_iff in Hslash. rewrite Hslash. cbn [orb].
  rewrite <- E, plain_parts by done. replace (existsb _ _) with false; [done|]. symmetry. apply not_true_is_false.
  intros (part & Hin & Hbad)%existsb_exists. apply list_elem_of_In in Hin. apply Forall_rev in Hr.
  rewrite Forall_forall in Hr. destruct (Hr part Hin) as [(Hs & _) _]. apply safeComponent_parts in Hs as (Hs & _). congruence.
Qed.

(** ** The checksum manifest *)

Lemma splitlines_line current line rest :
  str_all plain_char line = true ->
  splitlines_from current (line +:+ String LF rest) = (current +:+ line) :: splitlines_from "" rest.
Proof.
  revert current. induction line as [|c line IH]; intros current; [by rewrite app_nil_r_str; destruct rest|].
  simpl. intros [Hc Hl]%andb_prop. unfold plain_char in Hc. apply negb_true_iff, orb_false_iff in Hc as [Hc _].
  rewrite Hc, IH by done. by rewrite app_assoc_str.
Qed.

Lemma splitlines_unlines rows :
  Forall (fun row => str_all plain_char row = true) rows -> splitlines_from "" (unlines rows) = rows.
Proof.
  induction 1 as [|row rows Hrow Hrows IH]; [done|]. unfold unlines in *. cbn [foldr].
  by rewrite splitlines_line, IH.
Qed.

Section manifest.
Context `{Sha256Spec} `{Traversal}.

Lemma hex_plain s : str_all hex_char s = true -> str_all plain_char s = true.
Proof. apply str_all_impl. intros [[] [] [] [] [] [] [] []]; done. Qed.

Lemma row_plain w d r : r <> [] -> Forall sendable r -> str_all plain_char (row_of w d r) = true.
Proof.
  intros Hne Hr. unfold row_of, checksum_row. rewrite !str_all_app. unfold digest_of. rewrite hex_plain by apply to_hex_hex.
  cbn [str_all andb]. apply generic_string_all; [done..|]. eapply Forall_impl; [exact Hr|]. by intros c [].
Qed.

Lemma manifest_line_row w d r expected :
  r <> [] -> Forall sendable r -> (String.length (generic_string r) <= MAX_RELATIVE_PATH)%nat ->
  expected !! generic_string r = None ->
  manifest_line expected (row_of w d r) = Some (<[generic_string r := digest_of w d r]> expected).
Proof.
  intros Hne Hr Hlen Hnew. unfold manifest_line, row_of, checksum_row, digest_of.
  rewrite cut_double_app by (by apply to_hex_lacks). rewrite to_hex_length, sha256_length, to_hex_hex, Hnew.
  rewrite safe_relative_sendable by done. rewrite !bool_decide_false; [done|by intros []|done].
Qed.

Lemma manifest_lines_rows w d l expected :
  Forall (fun r => r <> [] /\ Forall sendable r /\ (String.length (generic_string r) <= MAX_RELATIVE_PATH)%nat) l ->
  NoDup l -> (forall r, r ∈ l -> expected !! generic_string r = None) ->
  manifest_lines (row_of w d <$> l) expected = Some (expected_of w d l expected).
Proof.
  intros Hall. revert expected. induction Hall as [|r l (Hne & Hr & Hlen) Hall IH]; intros expected Hnd Hnew; [done|].
  apply NoDup_cons in Hnd as [Hnin Hnd]. csimpl. rewrite manifest_line_row; [|done..|apply Hnew; by left].
  rewrite IH; [done|done|]. intros r' Hr'. rewrite lookup_insert_ne; [apply Hnew; by right|].
  intros E. rewrite Forall_forall in Hall. destruct (Hall r' Hr') as (Hne' & Hs' & _).
  apply plain_inj in E as ->; [done|by apply sendable_plain..].
Qed.

(** The manifest lists these files of the directory with their digests. *)
Record lists (w : world) (d : path) (l : list path) : Prop := {
  ls_once : NoDup l;
  ls_files : l ⊆ checksum_files w d;
  ls_some : l <> [];
  ls_text : read_text w (child d "manifest.sha256") = Some (unlines (row_of w d <$> l))
}.

(** None is missing. *)
Definition covers (w : world) (d : path) (l : list path) : Prop := checksum_files w d ⊆ l.

Lemma covers_permutation w d l : lists w d l -> covers w d l -> l ≡ₚ checksum_files w d.
Proof.
  intros [Hnd Hsub _ _] Hcov. apply NoDup_Permutation; [done|apply checksum_files_NoDup|].
  intros r. split; [apply Hsub|apply Hcov].
Qed.

(** Changes that the manifest does not see. *)
Definition unseen (d p : path) : Prop := p <> child d "manifest.sha256" /\ checksummed (filename p) = false.

Lemma unseen_files d ps w w' r :
  Forall (unseen d) ps -> touches ps d w w' -> r ∈ checksum_files w' d <-> r ∈ checksum_files w d.
Proof.
  intros Hps [_ Ht]. rewrite !elem_of_checksum_files. rewrite Forall_forall in Hps.
  assert (Hsame : r <> [] -> checksummed (filename r) = true ->
    files w' !! (r ++ d) = files w !! (r ++ d) \/ files w !! (r ++ d) = None /\ files w' !! (r ++ d) = Some Dir).
  { intros Hne Hc. destruct (Ht (r ++ d)) as [?|(? & ? & _)]; [|auto..]. intros Hin. apply Hps in Hin as [_ Hu].
    destruct r as [|n r]; [done|]. cbn in Hu, Hc. congruence. }
  split; intros (Hne & (c & m & Hf) & Hc); (split; [done|]; split; [|done]); destruct (Hsame Hne Hc) as [E|[E1 E2]];
    rewrite ?E in *; eauto; congruence.
Qed.

Lemma unseen_text d ps w w' r :
  Forall (unseen d) ps -> touches ps d w w' -> r ∈ checksum_files w d -> read_text w' (r ++ d) = read_text w (r ++ d).
Proof.
  intros Hps [_ Ht] (Hne & _ & Hc)%elem_of_checksum_files. rewrite Forall_forall in Hps. unfold read_text.
  destruct (Ht (r ++ d)) as [->|(-> & -> & _)]; [|done..]. intros Hin. apply Hps in Hin as [_ Hu].
  destruct r as [|n r]; [done|]. cbn in Hu, Hc. congruence.
Qed.

Lemma lists_unseen d ps w w' l : Forall (unseen d) ps -> touches ps d w w' -> lists w d l -> lists w' d l.
Proof.
  intros Hps Ht [Hnd Hsub Hne Hm]. split; [done| |done|].
  - intros r Hr. apply (unseen_files d ps w w'); auto.
  - assert (Hrows : row_of w' d <$> l = row_of w d <$> l).
    { apply list_fmap_ext. intros i r Hr%list_elem_of_lookup_2. apply Hsub in Hr.
      unfold row_of, digest_of. by rewrite (unseen_text d ps w w'). }
    rewrite Hrows, <- Hm. unfold read_text. destruct Ht as [_ Ht].
    destruct (Ht (child d "manifest.sha256")) as [->|(-> & -> & _)]; [|done..].
    intros Hin. rewrite Forall_forall in Hps. by apply Hps in Hin as [? _].
Qed.

Lemma covers_unseen d ps w w' l : Forall (unseen d) ps -> touches ps d w w' -> covers w d l -> covers w' d l.
Proof. intros Hps Ht Hcov r Hr. by apply Hcov, (unseen_files d ps w w'). Qed.

(** What the storage worker has stored is listed. *)
Lemma writeChecksumManifest_lists d w o w' o' :
  writeChecksumManifest d o w = Done true w' o' -> exists l, lists w' d l /\ (steady o -> covers w' d l).
Proof.
  intros (L & o1 & m & Hlist & Hnd & Hsub & Hne & Hread & Ht & Hm)%writeChecksumManifest_stores.
  pose proof (merge_sort_Permutation path_le L) as Hperm. set (l := merge_sort path_le L) in *.
  assert (Hl : l ⊆ checksum_files w d) by (intros r; rewrite Hperm; apply Hsub).
  exists l. split; [split|].
  - by rewrite Hperm.
  - intros r Hr%Hl. by apply (checksum_files_touches d w w' r Ht).
  - intros E. rewrite E in Hperm. by apply Permutation_nil in Hperm.
  - unfold read_text. rewrite Hm. do 2 f_equal. apply list_fmap_ext. intros i r Hr%list_elem_of_lookup_2.
    apply Hl, elem_of_checksum_files in Hr as (Hne' & _ & Hc).
    unfold row_of, digest_of. by rewrite (read_text_touches d w w' r Ht).
  - intros Ho r Hr. rewrite Hperm. apply (checksum_files_touches d w w' r Ht) in Hr.
    by eapply list_checksum_files_steady.
Qed.

End manifest.

(** ** Completed events *)

(** The names and sizes of the files are within what the receiver takes. *)
Record transferable (w : world) (d : path) : Prop := {
  tf_names r : uploadable w d (r ++ d) ->
    Forall sendable r /\ (String.length (generic_string r) <= MAX_RELATIVE_PATH)%nat;
  tf_manifest r : uploadable w d (r ++ d) -> filename r = "manifest.sha256"%string -> r = ["manifest.sha256"%string];
  tf_free r r' : uploadable w d (r ++ d) -> uploadable w d (r' ++ d) -> r `suffix_of` r' -> r = r';
  tf_case r r' : uploadable w d (r ++ d) -> uploadable w d (r' ++ d) ->
    casefold (generic_string r) = casefold (generic_string r') -> r = r';
  tf_text text : read_text w (child d "manifest.sha256") = Some text -> byte_size text <= MAX_MANIFEST_BYTES
}.

(** The numbers are within the limits. *)
Definition small `{Traversal} (w : world) (d : path) : Prop :=
  Z.of_nat (length (collected w d)) <= MAX_FILES /\ sizes w (collected w d) <= MAX_TOTAL_BYTES.

Section completed.
Context `{Sha256Spec} `{Traversal}.

Lemma uploadable_ne w d r : uploadable w d (r ++ d) -> r <> [].
Proof. intros [[_ Hne] _] ->. by apply Hne. Qed.

Lemma filename_app r d : r <> [] -> filename (r ++ d) = filename r.
Proof. by destruct r. Qed.

(** The upload worker sends what is in the manifest, and the manifest. *)
Lemma uploadable_listed w d r :
  transferable w d -> uploadable w d (r ++ d) -> r = ["manifest.sha256"%string] \/ r ∈ checksum_files w d.
Proof.
  intros Htf Hu. pose proof (uploadable_ne w d r Hu) as Hne. destruct (tf_names w d Htf r Hu) as [Hs _].
  pose proof (tf_manifest w d Htf r Hu) as Hm. destruct Hu as (_ & Hf & Ht). rewrite filename_app in Ht by done.
  destruct r as [|n r]; [done|]. change (filename (n :: r)) with n in *. destruct (String.eqb_spec n "manifest.sha256") as [->|Hn]; [left; by apply Hm|right].
  apply elem_of_checksum_files. split; [done|]. split.
  - unfold is_file in Hf. destruct (files w !! _) as [[c m| |]|]; eauto; done.
  - apply Forall_cons in Hs as [[(Hsafe & _) _] _]. change (filename (n :: r)) with n. unfold isMarkerOrTemp in Ht. unfold checksummed.
    rewrite (proj2 (String.eqb_neq _ _) Hn). apply orb_false_iff in Ht as [Hdot ->]. cbn [negb andb].
    destruct n as [|c n]; [done|]. cbn [str_front] in *. destruct (Ascii.eqb_spec c "."); [|done]. subst c.
    destruct n; [done|]. by rewrite andb_true_r in Hdot.
Qed.

Lemma listed_uploadable w d r : r ∈ checksum_files w d -> uploadable w d (r ++ d).
Proof.
  intros (Hne & (c & m & Hf) & Hc)%elem_of_checksum_files. split; [|split].
  - split; [by exists r|]. intros E. apply (f_equal length) in E. rewrite length_app in E. destruct r; [done|]. simpl in E. lia.
  - unfold is_file. by rewrite Hf.
  - rewrite filename_app by done. unfold isMarkerOrTemp, checksummed in *.
    apply andb_prop in Hc as [[_ Hdot]%andb_prop ->%negb_true_iff]. rewrite orb_false_r.
    destruct (str_front (filename r)); [|by rewrite andb_false_r]. apply negb_true_iff in Hdot. by rewrite Hdot, andb_false_r.
Qed.

Lemma manifest_uploadable w d text :
  read_text w (child d "manifest.sha256") = Some text -> uploadable w d (child d "manifest.sha256").
Proof.
  unfold read_text. intros Hr. split; [|split; [|done]].
  - split; [by exists ["manifest.sha256"%string]|]. intros E. apply (f_equal length) in E. simpl in E. lia.
  - unfold is_file. by destruct (files w !! _) as [[]|].
Qed.

(** What the storage worker has completed is in order for the receiver. *)
Lemma listed_in_order w d l :
  lists w d l -> covers w d l -> transferable w d -> small w d -> in_order w d.
Proof.
  intros Hlists Hcov Htf [Hcount Hbytes]. pose proof (covers_permutation w d l Hlists Hcov) as Hl.
  destruct Hlists as [_ _ Hne Htext]. split; [| |done|].
  - split.
    + intros r Hr%elem_of_relatives. apply sendable_plain; [by eapply uploadable_ne|by apply (tf_names w d Htf)].
    + intros r Hr%elem_of_relatives. destruct (tf_names w d Htf r Hr) as [Hs Hlen].
      apply safe_relative_sendable; [by eapply uploadable_ne|done..].
    + intros r r' Hr%elem_of_relatives Hr'%elem_of_relatives. by apply (tf_free w d Htf).
    + intros r r' Hr%elem_of_relatives Hr'%elem_of_relatives. by apply (tf_case w d Htf).
  - done.
  - assert (Hgood : Forall (fun r => r <> [] /\ Forall sendable r /\ (String.length (generic_string r) <= MAX_RELATIVE_PATH)%nat) l).
    { apply Forall_forall. intros r Hr. rewrite Hl in Hr. pose proof (listed_uploadable w d r Hr) as Hu.
      split; [by eapply uploadable_ne|by apply (tf_names w d Htf)]. }
    assert (Hnd : NoDup l) by (rewrite Hl; apply checksum_files_NoDup).
    exists (unlines (row_of w d <$> l)), (expected_of w d l ∅).
    split; [by eapply manifest_uploadable|]. split; [done|]. split; [by apply (tf_text w d Htf)|]. split; [|split].
    + rewrite splitlines_unlines.
      * apply manifest_lines_rows; [done..|]. intros r _. apply lookup_empty.
      * apply Forall_fmap. eapply Forall_impl; [exact Hgood|]. intros r (? & ? & _). by apply row_plain.
    + intros E. apply (f_equal (dom (D := gset string))) in E. rewrite dom_expected, dom_empty_L in E.
      destruct l as [|r l']; [done|]. csimpl in E. set_solver.
    + intros name digest. rewrite Forall_forall in Hgood. split.
      * intros Hx. apply lookup_expected in Hx as [Hx|(r & Hr & -> & r' & Hr' & E & ->)]; [by rewrite lookup_empty in Hx|].
        destruct (Hgood r Hr) as (N1 & S1 & _), (Hgood r' Hr') as (N2 & S2 & _).
        apply plain_inj in E as ->; [|by apply sendable_plain..]. rewrite Hl in Hr.
        pose proof Hr as (_ & (c & m & Hf) & Hc)%elem_of_checksum_files.
        assert (Hread : read_text w (r ++ d) = Some c) by (unfold read_text; by rewrite Hf).
        exists r, c. split; [by apply listed_uploadable|]. split; [done|]. split; [|split; [done|]].
        -- intros E. change "manifest.sha256"%string with (generic_string ["manifest.sha256"%string]) in E.
           apply plain_inj in E as ->; [done|by apply sendable_plain|]. split; [done|]. by apply Forall_singleton.
        -- unfold digest_of. by rewrite Hread.
      * intros (r & c & Hu & -> & Hn & Hread & ->). destruct (uploadable_listed w d r Htf Hu) as [->|Hr]; [done|].
        rewrite <- Hl in Hr. assert (Hin : generic_string r ∈ dom (expected_of w d l ∅)).
        { rewrite dom_expected. apply elem_of_union_r, elem_of_list_to_set. by apply list_elem_of_fmap_2. }
        apply elem_of_dom in Hin as [x Hx]. rewrite Hx. f_equal.
        apply lookup_expected in Hx as [Hx|(r1 & _ & E1 & r' & Hr' & E & ->)]; [by rewrite lookup_empty in Hx|].
        rewrite <- E1 in E. destruct (Hgood r Hr) as (N1 & S1 & _), (Hgood r' Hr') as (N2 & S2 & _).
        apply plain_inj in E as ->; [|by apply sendable_plain..]. unfold digest_of. by rewrite Hread.
Qed.

(** Settling an event without a verdict: if it is complete afterwards, what held
    once its manifest had been stored still does. *)
Lemma settle_stored (G : world -> Prop) d now progress w o :
  undecided w d ->
  (forall w1 o1, writeChecksumManifest d o w = Done true w1 o1 -> G w1) ->
  (forall ps w1 w2, Forall (unseen d) ps -> touches ps d w1 w2 -> G w1 -> G w2) ->
  match settle d now progress o w with
  | Done _ w' _ | Threw w' _ | Crashed w' => has w' (completed d) = true -> G w'
  | Stuck _ => False
  end.
Proof.
  intros Hu Hstored Hstable. set (L := fun w' => has w' (completed d) = true -> G w').
  assert (Hno : forall w', undecided w' d -> L w') by (intros w' (_ & Hc & _) Hc'; congruence).
  assert (Hfail : forall reason w', undecided w' d ->
    wp (_ ← fail_event d reason now; mret tt) (fun _ => L) L L w').
  { intros reason w' Hu'.
    assert (Hv : forall w'', verdict false 0 d w'' -> L w'').
    { intros w'' (_ & _ & H3) Hc. by apply H3 in Hc as []. }
    eapply wp_mono; [..|apply (fail_settles false 0 d reason now w' Hu')]; [intros []|..]; apply Hv. }
  assert (Hmarked : forall w1 n, undecided w1 d -> G w1 ->
    wp (finished ← complete_event d n;
        if negb finished then _ ← fail_event d "complete_marker_write_failed" now; mret tt else mret tt)
      (fun _ => L) L L w1).
  { intros w1 n (Hp & Hc & Hf) HG.
    assert (Hmarks : forall w2, marking (completed d) (complete_content n) (pending d) (failed d) w1 w2 -> L w2).
    { intros w2 [Hw2 _] _. eapply Hstable; [|exact Hw2|done].
      repeat (constructor; [split; [by intros [=]|done]|]). constructor. }
    apply wp_bind. eapply wp_mono; [..|apply complete_event_wp]; [|done|exact Hmarks].
    intros [] w2 [Hm2 Hb]; cbn [negb]; [apply wp_ret; by apply Hmarks|].
    destruct Hb as (Hbc & Hbp & Hbf). apply Hfail.
    split; [by rewrite (has_same _ _ _ Hbp)|]. split; [|by rewrite (has_same _ _ _ Hbf)].
    destruct Hbc as [E|E]; [by rewrite (has_same _ _ _ E)|by apply has_none]. }
  unfold settle. destruct (progress_failed progress) eqn:Ef; cbn [negb andb].
  { match goal with |- match ?m o w with _ => _ end => enough (wp m (fun _ => L) L L w) as Hwp by exact (Hwp o) end.
    rewrite Ef. apply wp_bind, wp_ret. cbn [negb]. rewrite Ef. by apply Hfail. }
  destruct (Z.eqb_spec (persistedRecords progress) 0) as [E0|E0]; cbn [fail_progress progress_failed].
  { match goal with |- match ?m o w with _ => _ end => enough (wp m (fun _ => L) L L w) as Hwp by exact (Hwp o) end.
    apply wp_bind, wp_ret. by apply Hfail. }
  rewrite Ef. unfold mbind at 1, M_bind at 1. pose proof (writeChecksumManifest_wp d w o) as Hm. cbv zeta in Hm.
  assert (Hlater : forall w1, touches [child d "manifest.sha256"; scratch (child d "manifest.sha256")] d w w1 ->
    undecided w1 d) by (intros w1 Ht; by eapply undecided_touches).
  destruct (writeChecksumManifest d o w) as [[] w1 o1|w1 o1|w1|] eqn:Ew; cbn [negb]; [|apply (Hfail _ w1); auto|apply Hno; auto|apply Hno; auto|done].
  rewrite Ef. apply (Hmarked w1 (persistedRecords progress)); eauto.
Qed.

(** The manifest of a completed event lists files of it. *)
Lemma settle_lists d now progress w o :
  undecided w d ->
  match settle d now progress o w with
  | Done _ w' _ | Threw w' _ | Crashed w' =>
      has w' (completed d) = true -> exists l, lists w' d l /\ (steady o -> covers w' d l)
  | Stuck _ => False
  end.
Proof.
  intros Hu. apply (settle_stored (fun w' => exists l, lists w' d l /\ (steady o -> covers w' d l))); [done| |].
  - intros w1 o1. apply writeChecksumManifest_lists.
  - intros ps w1 w2 Hps Ht (l & Hl & Hcov). exists l. split; [by eapply lists_unseen|].
    intros Ho. by eapply covers_unseen; [..|by apply Hcov].
Qed.

End completed.

(** ** From the worker to the inbox *)

Section handover.
Context `{Sha256Spec} `{Traversal} `{Listing}.
Context (start : ReceiverNode * world) (moment : nat -> Z) (mishaps recovery : nat -> list fault)
        (ready lost : nat -> bool).

Abbreviation at_receiver := (served start moment mishaps recovery).
#[local] Instance the_inbox : Service := receiver_service start moment mishaps recovery ready lost.

(** The directory is free for an upload, and the receiver ready for it. *)
Record ready_to_send (box : path) (now : Z) (d : path) (s : UploadWorker) (w : world) : Prop := {
  rs_chunk : 0 < chunkBytes (upload_config s);
  rs_reachable : reachable w d;
  rs_plain : plain_own d w;
  rs_lease : lease_over (upload_config s) now d w;
  rs_names : good_names (filename d) (id_for now (nextId s) d w);
  rs_prepared : prepared (filename d) (id_for now (nextId s) d w) box (at_receiver (sent s));
  rs_smooth : smooth moment mishaps ready lost (length (sent s))
}.

Lemma listed_fit box now d s w l :
  ready_to_send box now d s w -> lists w d l -> small w d -> fit_for_upload (upload_config s) now d w.
Proof.
  intros [_ Hr Hp Hl _ _ _] [_ _ _ Hm] [Hc Hb]. split; [done..| | |].
  - intros E. apply manifest_uploadable, elem_of_collected in Hm. by rewrite E, elem_of_nil in Hm.
  - unfold MAX_FILES, uint32_max in *. lia.
  - unfold MAX_TOTAL_BYTES, uint64_max in *. lia.
Qed.

(** A completed event whose manifest misses nothing gets to the inbox. *)
Lemma listed_delivered box now d s w1 l :
  lists w1 d l -> covers w1 d l -> transferable w1 d -> small w1 d -> ready_to_send box now d s w1 ->
  exists s' w2, returns (uploadDirectory now d s) w1 (true, s') w2 /\ forall r c,
    read_text (at_receiver (sent s')).2 (r ++ child box (filename d)) = Some c <->
    (r = ["manifest.sha256"%string] \/ r ∈ l) /\ read_text w1 (r ++ d) = Some c.
Proof.
  intros Hlists Hcov Htf Hsmall Hready.
  destruct (accepted_run start moment mishaps recovery ready lost box now d s w1) as (s' & w2 & Hr & _ & Hin);
    [apply Hready|by eapply listed_fit|by eapply listed_in_order|apply Hready..|].
  exists s', w2. split; [done|]. intros r c. rewrite Hin. split; intros [Hsent Hread]; (split; [|done]).
  - apply uploadable_listed in Hsent as [->|Hr']; [by left|right; by apply Hcov|done].
  - destruct Hsent as [->|Hsent]; [by eapply (manifest_uploadable w1 d)|by apply listed_uploadable, (ls_files w1 d l Hlists)].
Qed.

(** C9. An event that has been completed gets to the inbox. Whatever fails while
    the storage worker settles an event without a verdict, and wherever it dies:
    if the event is complete afterwards, then its checksum manifest lists files
    of it with their digests, all of them when no call reported an error; and
    when it lists all of them, an upload without faults succeeds, and the event's
    directory in the inbox has exactly the files of the manifest and the manifest
    itself, with their bytes. The names and sizes must be within the limits of
    the receiver. *)
Theorem completed_event_delivered box nowNs progress now d s w o :
  undecided w d ->
  match settle d nowNs progress o w with
  | Done _ w1 _ | Threw w1 _ | Crashed w1 =>
      has w1 (completed d) = true ->
      exists l, lists w1 d l /\ (steady o -> covers w1 d l) /\
        (covers w1 d l -> transferable w1 d -> small w1 d -> ready_to_send box now d s w1 ->
         exists s' w2, returns (uploadDirectory now d s) w1 (true, s') w2 /\ forall r c,
           read_text (at_receiver (sent s')).2 (r ++ child box (filename d)) = Some c <->
           (r = ["manifest.sha256"%string] \/ r ∈ l) /\ read_text w1 (r ++ d) = Some c)
  | Stuck _ => False
  end.
Proof.
  intros Hu. pose proof (settle_lists d nowNs progress w o Hu) as Hlists.
  destruct (settle d nowNs progress o w) as [[] w1 o1|w1 o1|w1|]; try done; intros Hc;
    destruct (Hlists Hc) as (l & Hl & Hcov); exists l; (split; [done|]); (split; [done|]);
    intros; by apply listed_delivered.
Qed.

End handover.

(** ** A sample *)

(** An event whose last job has been written. *)
Definition recorded_store : world :=
  {| files := list_to_map [
       (["records"], Dir); (sample_dir, Dir); (child sample_dir ".pending", File "event=brake" 1);
       (child sample_dir "manifest.csv", File "index,t" 1); (child sample_dir "images", Dir);
       (child (child sample_dir "images") "0.png", File "PNG-bytes" 1)]%string;
     clock := 9 |}.

Definition two_records : EventProgress := {| progress_failed := false; persistedRecords := 2; progress_reason := "" |}.

Definition completed_store : world :=
  match settle sample_dir 50 two_records [] recorded_store with Done _ w _ => w | _ => recorded_store end.

Lemma completed_relatives r : uploadable completed_store sample_dir (r ++ sample_dir) ->
  r = ["0.png"; "images"]%string \/ r = ["manifest.csv"%string] \/ r = ["manifest.sha256"%string].
Proof.
  rewrite <- elem_of_relatives.
  assert (E : relatives completed_store sample_dir = [["0.png"; "images"]; ["manifest.csv"]; ["manifest.sha256"]]%string)
    by (vm_compute; reflexivity).
  by rewrite E, elem_of_three.
Qed.

Lemma completed_transferable : transferable completed_store sample_dir.
Proof.
  split.
  - intros r Hr%completed_relatives. destruct Hr as [->|[->| ->]]; (split; [|vm_compute; lia]);
      repeat (constructor; [split; [split; [|split]|]; vm_compute; reflexivity|]); constructor.
  - intros r Hr%completed_relatives. by destruct Hr as [->|[->| ->]].
  - intros r r' Hr%completed_relatives Hr'%completed_relatives Hs.
    destruct Hr as [->|[->| ->]], Hr' as [->|[->| ->]]; try done; exfalso; revert Hs;
      match goal with |- ?P -> False => apply (bool_decide_eq_false_1 P) end; vm_compute; reflexivity.
  - intros r r' Hr%completed_relatives Hr'%completed_relatives Hs.
    destruct Hr as [->|[->| ->]], Hr' as [->|[->| ->]]; try done; vm_compute in Hs; discriminate.
  - intros text Ht. vm_compute in Ht. injection Ht as <-. vm_compute. discriminate.
Qed.

Lemma completed_event_delivered_witness :
  exists l s' w2,
    lists completed_store sample_dir l /\ covers completed_store sample_dir l /\
    returns (@uploadDirectory (receiver_service sample_inbox Z.of_nat (fun _ => []) (fun _ => []) (fun _ => true) (fun _ => false))
               _ 100 sample_dir (newUploadWorker ["records"%string] sample_config)) completed_store (true, s') w2 /\
    forall r c, read_text (sample_received (sent s')).2 (r ++ child ["inbox"%string] (filename sample_dir)) = Some c <->
      (r = ["manifest.sha256"%string] \/ r ∈ l) /\ read_text completed_store (r ++ sample_dir) = Some c.
Proof.
  pose proof (completed_event_delivered sample_inbox Z.of_nat (fun _ => []) (fun _ => []) (fun _ => true) (fun _ => false)
    ["inbox"%string] 50 two_records 100 sample_dir (newUploadWorker ["records"%string] sample_config) recorded_store []
    ltac:(split; [|split]; vm_compute; reflexivity)) as Hrun.
  assert (E : settle sample_dir 50 two_records [] recorded_store = Done tt completed_store []) by (vm_compute; reflexivity).
  rewrite E in Hrun. destruct Hrun as (l & Hl & Hcov & Hsend); [vm_compute; reflexivity|].
  assert (Hc : covers completed_store sample_dir l) by (apply Hcov; by intros n ?%elem_of_nil).
  enough (Hready : ready_to_send sample_inbox Z.of_nat (fun _ => []) (fun _ => []) (fun _ => true) (fun _ => false)
    ["inbox"%string] 100 sample_dir (newUploadWorker ["records"%string] sample_config) completed_store).
  { destruct (Hsend Hc completed_transferable ltac:(split; vm_compute; discriminate) Hready) as (s' & w2 & Hs).
    exists l, s', w2. exact (conj Hl (conj Hc Hs)). }
  split; [vm_compute; reflexivity|apply reachableb_spec; vm_compute; reflexivity| |vm_compute; exact I| | |].
    + repeat (apply Forall_cons; split; [left; vm_compute; reflexivity|]). constructor.
    + split; [vm_compute; reflexivity|]. split; [vm_compute; reflexivity|vm_compute; lia].
    + apply sample_prepared; vm_compute; reflexivity.
    + intros i _. split; [reflexivity|]. split; [reflexivity|]. split; [reflexivity|].
      unfold still_active, TRANSFER_IDLE_SECONDS, ns_per_s. lia.
Defined.
