(* ===== verification/UploadThread.v ===== *)
(** * UploadThread: the rounds of the upload worker

    Models the thread of src/include/upload_worker.hpp: [start], [stop] and the
    loop of [run], a round of which scans for finished directories and attempts
    their uploads.  The waiting between rounds is left to the clock readings. *)

From S2P Require Import Prelude Text SensorData FileSystem EventState RecordIo StorageWorker Upload Transfer Uploads.

(** ** Rounds *)

(** What an attempt reads: both clocks, and whether the thread is asked to stop
    before and after the upload. *)
Record Reading := { at_system : Z; at_steady : Z; seen_before : bool; seen_after : bool }.

Section rounds.
Context `{Service} `{Traversal}.

(** The loop over the candidates; the flag tells whether the thread goes on. *)
Fixpoint attemptAll (scanNow : Z) (readings : path -> Reading) (candidates : list path) (s : UploadWorker)
    : M (bool * UploadWorker) :=
  match candidates with
  | [] => mret (true, s)
  | d :: rest =>
      let r := readings d in
      result ← attemptUpload scanNow (at_system r) (at_steady r) (seen_before r) (seen_after r) d s;
      if result.1 : bool then attemptAll scanNow readings rest result.2 else mret (false, result.2)
  end.

(** One turn of the loop of [run]; [stops] is what it finds before it waits. *)
Definition uploadRound `{Listing} (scanNow systemNow : Z) (readings : path -> Reading) (stops : bool) (s : UploadWorker)
    : M (bool * UploadWorker) :=
  candidates ← findUploadCandidates systemNow s;
  result ← attemptAll scanNow readings candidates s;
  mret (result.1 && negb stops, result.2).

End rounds.

(** ** The thread *)

Record UploadThread := {
  thread_worker : UploadWorker;
  started_ : bool;
  stopping_ : bool;
  running : bool
}.

Definition newUploadThread (root : path) (config : UploadConfig) : UploadThread :=
  {| thread_worker := newUploadWorker root config; started_ := false; stopping_ := false; running := false |}.

Definition start (t : UploadThread) : UploadThread :=
  if started_ t || stopping_ t then t
  else {| thread_worker := thread_worker t; started_ := true; stopping_ := stopping_ t; running := true |}.

(** [stop] up to the joining of the thread, which ends at its next check. *)
Definition requestStop (t : UploadThread) : UploadThread :=
  {| thread_worker := thread_worker t; started_ := started_ t; stopping_ := true; running := running t |}.

(** After a round. *)
Definition after_round (go : bool) (s : UploadWorker) (t : UploadThread) : UploadThread :=
  {| thread_worker := s; started_ := started_ t; stopping_ := stopping_ t; running := go |}.

(** ** Attempts *)

(** How an attempt ends: uploaded, to be repeated after the moment of its failure,
    marked as failed, or cut short by [stop]. *)
Inductive Ending := Sent | Postponed (failure : Z) | GivenUp | Interrupted.

Record Try := { try_dir : path; try_scan : Z; try_ending : Ending }.

Section traced.
Context `{Service} `{Traversal}.

(** [attemptUpload] with a note of what it tried. *)
Definition attemptTraced (scanNow : Z) (r : Reading) (d : path) (s : UploadWorker) : M (bool * UploadWorker * list Try) :=
  let note ending := [{| try_dir := d; try_scan := scanNow; try_ending := ending |}] in
  if seen_before r then mret (false, s, []) else
  if match pending_retries s !! d with Some st => scanNow <? nextAttempt st | None => false end
  then mret (true, s, [])
  else
    result ← uploadDirectory (at_system r) d s;
    let '(uploaded, s) := result in
    if uploaded : bool then mret (true, with_retries (delete d (pending_retries s)) s, note Sent)
    else if seen_after r then mret (false, s, note Interrupted)
    else
      s' ← recordFailure (at_steady r) d s;
      mret (true, s', note (if pending_retries s' !! d then Postponed (at_steady r) else GivenUp)).

Fixpoint attemptAllTraced (scanNow : Z) (readings : path -> Reading) (candidates : list path) (s : UploadWorker)
    : M (bool * UploadWorker * list Try) :=
  match candidates with
  | [] => mret (true, s, [])
  | d :: rest =>
      result ← attemptTraced scanNow (readings d) d s;
      if result.1.1 : bool then
        more ← attemptAllTraced scanNow readings rest result.1.2;
        mret (more.1, more.2 ++ result.2)
      else mret (false, result.1.2, result.2)
  end.

Definition roundTraced `{Listing} (scanNow systemNow : Z) (readings : path -> Reading) (stops : bool) (s : UploadWorker)
    : M (bool * UploadWorker * list Try) :=
  candidates ← findUploadCandidates systemNow s;
  result ← attemptAllTraced scanNow readings candidates s;
  mret (result.1.1 && negb stops, result.1.2, result.2).

(** Without the notes they are the operations of the worker. *)
Definition noteless {A B} (r : outcome (A * B)) : outcome A :=
  match r with Done a w o => Done a.1 w o | Threw w o => Threw w o | Crashed w => Crashed w | Stuck e => Stuck e end.

Lemma attemptTraced_erases scanNow r d s o w :
  attemptUpload scanNow (at_system r) (at_steady r) (seen_before r) (seen_after r) d s o w =
  noteless (attemptTraced scanNow r d s o w).
Proof.
  unfold attemptUpload, attemptTraced. destruct (seen_before r); [done|]. destruct (match _ with Some _ => _ | None => _ end); [done|].
  unfold mbind, M_bind. destruct (uploadDirectory _ _ _ _ _) as [[[] s1] w1 o1| | |]; try done.
  destruct (seen_after r); [done|]. by destruct (recordFailure _ _ _ _ _).
Qed.

Lemma attemptAllTraced_erases scanNow readings candidates s o w :
  attemptAll scanNow readings candidates s o w = noteless (attemptAllTraced scanNow readings candidates s o w).
Proof.
  revert s o w. induction candidates as [|d rest IH]; intros s o w; [done|].
  cbn [attemptAll attemptAllTraced]. unfold mbind, M_bind. rewrite attemptTraced_erases.
  destruct (attemptTraced _ _ _ _ _ _) as [[[[] s1] notes] w1 o1| | |]; try done. cbn [noteless fst snd].
  rewrite IH. by destruct (attemptAllTraced _ _ _ _ _ _).
Qed.

Lemma roundTraced_erases `{Listing} scanNow systemNow readings stops s o w :
  uploadRound scanNow systemNow readings stops s o w = noteless (roundTraced scanNow systemNow readings stops s o w).
Proof.
  unfold uploadRound, roundTraced, mbind, M_bind. destruct (findUploadCandidates _ _ _ _) as [candidates w1 o1| | |]; try done.
  rewrite attemptAllTraced_erases. by destruct (attemptAllTraced _ _ _ _ _ _).
Qed.

End traced.

(** ** Runs *)

(** The notes since the process has started, the newest first. *)
Record run_state := { run_thread : UploadThread; run_world : world; notes : list Try }.

Section runs.
Context `{Service} `{Traversal} `{Listing}.

(** Other threads and programs change files; [stop] may be asked for in the middle
    of a round, and from then on the checks see it. *)
Inductive thread_step : run_state -> run_state -> Prop :=
| step_start u :
    thread_step u {| run_thread := start (run_thread u); run_world := run_world u; notes := notes u |}
| step_request u :
    thread_step u {| run_thread := requestStop (run_thread u); run_world := run_world u; notes := notes u |}
| step_others u w :
    thread_step u {| run_thread := run_thread u; run_world := w; notes := notes u |}
| step_round u scanNow systemNow readings stops o go s w o' tries :
    running (run_thread u) = true ->
    (stopping_ (run_thread u) = true -> stops = true /\ forall d, seen_before (readings d) = true) ->
    roundTraced scanNow systemNow readings stops (thread_worker (run_thread u)) o (run_world u) = Done (go, s, tries) w o' ->
    thread_step u {| run_thread := after_round go s (run_thread u); run_world := w; notes := tries ++ notes u |}.

Definition begun (root : path) (config : UploadConfig) (w : world) : run_state :=
  {| run_thread := newUploadThread root config; run_world := w; notes := [] |}.

(** The failures of a directory in a row, the last one first. *)
Fixpoint row (d : path) (l : list Try) : list Z :=
  match l with
  | [] => []
  | t :: older =>
      if decide (try_dir t = d) then
        match try_ending t with
        | Sent | GivenUp => []
        | Postponed failure => failure :: row d older
        | Interrupted => row d older
        end
      else row d older
  end.

(** The wait after so many failures in a row. *)
Definition pause (config : UploadConfig) (failures : nat) : Z :=
  retryBackoff config * 2 ^ Z.min (Z.of_nat failures - 1) 6 * ns_per_ms.

(** Every attempt has waited, and a directory is given up after as many attempts as
    are allowed and not before. *)
Fixpoint paced (config : UploadConfig) (l : list Try) : Prop :=
  match l with
  | [] => True
  | t :: older =>
      let failures := row (try_dir t) older in
      match failures with [] => True | last :: _ => last + pause config (length failures) <= try_scan t end /\
      (try_ending t = GivenUp -> 0 < maxRetries config <= Z.of_nat (length failures) + 1) /\
      paced config older
  end.

Definition retry_of (config : UploadConfig) (failures : list Z) : option RetryState :=
  match failures with
  | [] => None
  | last :: _ => Some {| attempts := Z.of_nat (length failures);
                         nextAttempt := last + pause config (length failures) |}
  end.

(** The record of the worker says the same as the notes. *)
Definition recorded (config : UploadConfig) (s : UploadWorker) (l : list Try) : Prop :=
  upload_config s = config /\ (forall d, pending_retries s !! d = retry_of config (row d l)) /\ paced config l.

(** What holds of every result. *)
Definition yields {A} (m : M A) (P : A -> Prop) : Prop :=
  forall o w, match m o w with Done a _ _ => P a | _ => True end.

Lemma yields_ret {A} (a : A) (P : A -> Prop) : P a -> yields (mret a) P.
Proof. by intros HP o w. Qed.

Lemma yields_bind {A B} (m : M A) (k : A -> M B) (Q : A -> Prop) (P : B -> Prop) :
  yields m Q -> (forall a, Q a -> yields (k a) P) -> yields (m ≫= k) P.
Proof.
  intros Hm Hk o w. unfold mbind, M_bind. specialize (Hm o w). destruct (m o w) as [a w1 o1| | |]; [|done..].
  by apply Hk.
Qed.

Lemma yields_any {A} (m : M A) : yields m (fun _ => True).
Proof. intros o w. by destruct (m o w). Qed.

Lemma yields_post {A} (m : M A) (P Q : A -> Prop) : (forall a, P a -> Q a) -> yields m P -> yields m Q.
Proof. intros HPQ Hm o w. specialize (Hm o w). destruct (m o w); auto. Qed.

Lemma yields_and {A} (m : M A) (P Q : A -> Prop) : yields m P -> yields m Q -> yields m (fun a => P a /\ Q a).
Proof. intros HP HQ o w. specialize (HP o w). specialize (HQ o w). by destruct (m o w). Qed.

(** An upload only changes what has been sent. *)
Lemma uploadDirectory_yields now d s : yields (uploadDirectory now d s) (fun r => exists l n, r.2 = with_sent l n s).
Proof.
  unfold uploadDirectory. eapply yields_bind; [apply yields_any|]. intros acquired _.
  destruct (negb acquired); [apply yields_ret; exists (sent s), (nextId s); by destruct s|].
  eapply yields_bind; [apply yields_any|]. intros [[fine next] l] _.
  eapply yields_bind; [apply yields_any|]. intros stored _. eapply yields_bind; [apply yields_any|]. intros b _.
  apply yields_ret. by exists l, next.
Qed.

Lemma recordFailure_yields now d s : yields (recordFailure now d s) (fun s' =>
  let config := upload_config s in
  let tries := match pending_retries s !! d with Some st => attempts st | None => 0 end + 1 in
  s' = with_retries (pending_retries s') s /\
  (forall d', d' <> d -> pending_retries s' !! d' = pending_retries s !! d') /\
  (pending_retries s' !! d = None /\ 0 < maxRetries config <= tries \/
   pending_retries s' !! d = Some {| attempts := tries;
     nextAttempt := now + retryBackoff config * 2 ^ Z.min (tries - 1) 6 * ns_per_ms |})).
Proof.
  intros o w. pose proof (failure_backs_off now d s w o) as Hf. cbv zeta in Hf |- *.
  destruct (recordFailure now d s o w) as [s' w' o'| | |]; [|done..]. destruct Hf as (Hsame & Hothers & Hthis).
  split; [done|]. split; [done|]. destruct (_ && _) eqn:E; [|right; apply Hthis].
  apply andb_prop in E as [E1 E2]. destruct Hthis as [[Hgone _]|Hthis]; [left|by right]. split; [done|]. lia.
Qed.

Lemma recorded_kept config s s' l :
  upload_config s' = upload_config s -> pending_retries s' = pending_retries s -> recorded config s l -> recorded config s' l.
Proof. intros Econf Eretr (Hc & Hr & Hp). split; [congruence|]. split; [by rewrite Eretr|done]. Qed.

Lemma recorded_note config s s' l t :
  recorded config s l -> upload_config s' = config ->
  match row (try_dir t) l with [] => True | last :: _ => last + pause config (length (row (try_dir t) l)) <= try_scan t end ->
  (try_ending t = GivenUp -> 0 < maxRetries config <= Z.of_nat (length (row (try_dir t) l)) + 1) ->
  (forall d, d <> try_dir t -> pending_retries s' !! d = pending_retries s !! d) ->
  pending_retries s' !! try_dir t = retry_of config (row (try_dir t) (t :: l)) ->
  recorded config s' (t :: l).
Proof.
  intros (Hc & Hr & Hp) Hc' Hwait Hup Hother Hthis. split; [done|]. split; [|by split_and!].
  intros d. destruct (decide (d = try_dir t)) as [->|Hd]; [done|]. rewrite Hother by done. cbn [row].
  by rewrite decide_False.
Qed.

Lemma attempt_recorded config scanNow r d s l :
  recorded config s l ->
  yields (attemptTraced scanNow r d s) (fun a => recorded config a.1.2 (a.2 ++ l) /\ (seen_before r = true -> a.2 = [] /\ a.1.1 = false)).
Proof.
  intros Hrec. pose proof Hrec as (Hc & Hr & _). unfold attemptTraced. cbv zeta.
  destruct (seen_before r); [by apply yields_ret|].
  assert (Hwait : match pending_retries s !! d with Some st => scanNow <? nextAttempt st | None => false end = false ->
    match row d l with [] => True | last :: _ => last + pause config (length (row d l)) <= scanNow end).
  { rewrite Hr. destruct (row d l); [done|]. cbn [retry_of nextAttempt]. lia. }
  destruct (match pending_retries s !! d with Some st => _ | None => _ end); [by apply yields_ret|].
  specialize (Hwait eq_refl). eapply yields_bind; [apply uploadDirectory_yields|].
  intros [uploaded s1] (sent1 & n & E). cbn [snd] in E.
  assert (Hrec1 : recorded config s1 l) by (subst s1; by eapply recorded_kept). pose proof Hrec1 as (Hc1 & Hr1 & _).
  destruct uploaded.
  { apply yields_ret. split; [|done]. apply (recorded_note config s1); try done.
    - intros d' Hd'. by apply lookup_delete_ne.
    - cbn [row try_dir try_ending]. rewrite decide_True by done. apply lookup_delete_eq. }
  destruct (seen_after r).
  { apply yields_ret. split; [|done]. apply (recorded_note config s1); try done.
    cbn [row try_dir try_ending]. by rewrite decide_True. }
  eapply yields_bind; [apply recordFailure_yields|]. cbv zeta. intros s2 (E2 & Hother & Hthis). apply yields_ret. split; [|done].
  assert (Htries : match pending_retries s1 !! d with Some st => attempts st | None => 0 end + 1 =
                   Z.of_nat (length (row d l)) + 1).
  { rewrite Hr1. by destruct (row d l). }
  rewrite Htries, Hc1 in Hthis. cbn [fst snd app]. apply (recorded_note config s1); try done.
  - rewrite E2. done.
  - cbn [try_ending try_dir]. destruct Hthis as [[_ Hmax]| ->]; [done|done].
  - cbn [row try_dir try_ending]. rewrite decide_True by done. destruct Hthis as [[-> _]| ->]; [done|].
    cbn [retry_of length]. unfold pause. do 2 f_equal; [lia|]. by rewrite Nat2Z.inj_succ, Z.add_1_r.
Qed.

Lemma round_recorded config scanNow readings candidates s l :
  recorded config s l ->
  yields (attemptAllTraced scanNow readings candidates s) (fun a => recorded config a.1.2 (a.2 ++ l) /\
    ((forall d, seen_before (readings d) = true) -> a.2 = [])).
Proof.
  revert s l. induction candidates as [|d rest IH]; intros s l Hrec; cbn [attemptAllTraced]; [by apply yields_ret|].
  eapply yields_bind; [by apply attempt_recorded|]. intros [[go s1] tries] [Hrec1 Hstop]. cbn [fst snd] in *.
  destruct go.
  - eapply yields_bind; [by apply IH|]. intros [[go2 s2] more] [Hrec2 _]. apply yields_ret. cbn [fst snd] in *.
    split; [by rewrite <- (assoc_L (++))|]. intros Hall. by apply Hstop in Hall as [].
  - apply yields_ret. split; [done|]. intros Hall. by apply Hstop.
Qed.


(** ** What is tried *)

(** The wait of a directory is over. *)
Definition due (config : UploadConfig) (scanNow : Z) (l : list Try) (d : path) : bool :=
  match row d l with [] => true | last :: _ => last + pause config (length (row d l)) <=? scanNow end.

Lemma list_directory_yields p : yields (list_directory p) (fun names => NoDup names).
Proof.
  intros o w. unfold list_directory. cbv zeta.
  assert (Hn : NoDup (if is_dir w p then listing (children w p) else [])).
  { destruct (is_dir w p); [rewrite listing_perm; apply children_NoDup|constructor]. }
  destruct (next o) as [[|n|n] o1]; [done| |done]. by eapply sublist_NoDup, sublist_take.
Qed.

Lemma candidates_yield systemNow s : yields (findUploadCandidates systemNow s)
  (fun l => NoDup l /\ forall d, d ∈ l -> exists name, d = child (upload_root s) name).
Proof.
  unfold findUploadCandidates.
  eapply (yields_bind _ _ (fun names => NoDup names)); [apply list_directory_yields|].
  intros names Hnames.
  assert (Hgen : forall acc, NoDup acc -> (forall d, d ∈ acc -> exists name, d = child (upload_root s) name) ->
    (forall name, name ∈ names -> child (upload_root s) name ∉ acc) ->
    yields (for_each names (fun name candidates =>
      wanted ← uploadCandidate (upload_config s) systemNow (child (upload_root s) name);
      mret (if wanted : bool then candidates ++ [child (upload_root s) name] else candidates)) acc)
      (fun l => NoDup l /\ forall d, d ∈ l -> exists name, d = child (upload_root s) name));
    [|apply Hgen; [constructor|set_solver..]].
  induction Hnames as [|name names Hname _ IH]; intros acc Hacc Hin Hfresh; cbn [for_each]; [by apply yields_ret|].
  eapply (yields_bind _ _ (fun acc' => acc' = acc \/ acc' = acc ++ [child (upload_root s) name])).
  { eapply yields_bind; [apply yields_any|]. intros [] _; apply yields_ret; auto. }
  intros acc' [->| ->]; apply IH; [done|done|set_solver| | |].
  - apply NoDup_app. split_and!; [done| |apply NoDup_singleton]. intros x Hx ->%list_elem_of_singleton. set_solver.
  - intros d [Hd| ->%list_elem_of_singleton]%elem_of_app; [by apply Hin|by exists name].
  - intros n Hn. rewrite elem_of_app, list_elem_of_singleton. intros [Hx|Hx]; [set_solver|].
    by injection Hx as ->.
Qed.

Lemma attempt_due config scanNow r d s l :
  recorded config s l ->
  yields (attemptTraced scanNow r d s) (fun a => (forall d', d' <> d -> row d' (a.2 ++ l) = row d' l) /\
    (a.1.1 = true -> map try_dir a.2 = if due config scanNow l d then [d] else [])).
Proof.
  intros (_ & Hr & _). unfold attemptTraced. cbv zeta. destruct (seen_before r); [by apply yields_ret|].
  assert (Edue : due config scanNow l d =
    negb (match pending_retries s !! d with Some st => scanNow <? nextAttempt st | None => false end)).
  { unfold due. rewrite Hr. destruct (row d l) as [|last older]; [done|]. cbn [retry_of nextAttempt]. lia. }
  rewrite Edue. destruct (match pending_retries s !! d with Some st => _ | None => _ end); [by apply yields_ret|].
  assert (Hone : forall ending d', d' <> d ->
    row d' ([{| try_dir := d; try_scan := scanNow; try_ending := ending |}] ++ l) = row d' l).
  { intros ending d' Hd'. cbn. by rewrite decide_False by congruence. }
  eapply yields_bind; [apply yields_any|]. intros [[] s1] _; [apply yields_ret; split; [apply Hone|done]|].
  destruct (seen_after r); [apply yields_ret; split; [apply Hone|done]|].
  eapply yields_bind; [apply yields_any|]. intros s2 _. apply yields_ret. split; [apply Hone|done].
Qed.

Lemma round_due config scanNow readings candidates s l :
  recorded config s l -> NoDup candidates ->
  yields (attemptAllTraced scanNow readings candidates s) (fun a =>
    a.1.1 = true -> rev (map try_dir a.2) = List.filter (due config scanNow l) candidates).
Proof.
  intros Hrec Hnd. revert s l Hrec. induction Hnd as [|d rest Hd _ IH]; intros s l Hrec; cbn [attemptAllTraced];
    [by apply yields_ret|].
  eapply yields_bind; [apply yields_and; [by apply (attempt_recorded config)|by apply (attempt_due config)]|].
  intros [[go s1] tries] [[Hrec1 _] [Hrow Htry]]. cbn [fst snd] in *. destruct go; [|by apply yields_ret].
  eapply yields_bind; [by apply IH|]. intros [[go2 s2] more] Hmore. apply yields_ret. cbn [fst snd] in *. intros ->.
  rewrite map_app, rev_app_distr, Hmore, Htry by done. cbn [List.filter].
  rewrite (List.filter_ext_in (due config scanNow (tries ++ l)) (due config scanNow l)).
  - by destruct (due config scanNow l d).
  - intros d' Hd'%list_elem_of_In. unfold due. rewrite Hrow; [done|congruence].
Qed.

(** A whole round. *)
Lemma round_keeps config scanNow systemNow readings stops s l :
  recorded config s l ->
  yields (roundTraced scanNow systemNow readings stops s) (fun a => recorded config a.1.2 (a.2 ++ l) /\
    ((forall d, seen_before (readings d) = true) -> a.2 = [])).
Proof.
  intros Hrec. unfold roundTraced. eapply yields_bind; [apply yields_any|]. intros candidates _.
  eapply yields_bind; [by apply round_recorded|]. intros a Ha. by apply yields_ret.
Qed.

Lemma run_recorded root config w u :
  rtc thread_step (begun root config w) u ->
  recorded (upload_config (newUploadWorker root config)) (thread_worker (run_thread u)) (notes u).
Proof.
  intros Hrun. remember (begun root config w) as u0 eqn:E0. 
  assert (Hrec : recorded (upload_config (newUploadWorker root config)) (thread_worker (run_thread u0)) (notes u0)).
  { subst u0. split; [done|]. split; [|done]. intros d. apply lookup_empty. }
  clear E0 w. induction Hrun as [u|u0 u1 u2 Hstep _ IH]; [done|]. apply IH.
  destruct Hstep as [u|u|u w|u scanNow systemNow readings stops o go s w o' tries _ _ Hround]; cbn [run_thread notes] in *; try done.
  - unfold start. by destruct (started_ _ || stopping_ _).
  - pose proof (round_keeps _ scanNow systemNow readings stops _ _ Hrec o (run_world u)) as Hy. rewrite Hround in Hy. apply Hy.
Qed.

(** C29. However the thread is started and stopped and whatever fails: an attempt has
    waited since the last failure in a row, the time doubling with every failure up
    to 64 times the first; no directory is given up before the attempts it is
    allowed; a round that ends tries exactly the candidates whose wait is over; once
    asked to stop the thread tries no more. *)
Theorem retries_paced root config w u :
  rtc thread_step (begun root config w) u ->
  let c := upload_config (newUploadWorker root config) in
  paced c (notes u) /\
  (forall scanNow systemNow readings stops o s w' o',
    uploadRound scanNow systemNow readings stops (thread_worker (run_thread u)) o (run_world u) = Done (true, s) w' o' ->
    exists candidates w1 o1 tries,
      findUploadCandidates systemNow (thread_worker (run_thread u)) o (run_world u) = Done candidates w1 o1 /\
      roundTraced scanNow systemNow readings stops (thread_worker (run_thread u)) o (run_world u) = Done (true, s, tries) w' o' /\
      rev (map try_dir tries) = List.filter (due c scanNow (notes u)) candidates) /\
  (stopping_ (run_thread u) = true -> forall u', thread_step u u' -> notes u' = notes u).
Proof.
  intros Hrun c. pose proof (run_recorded _ _ _ _ Hrun) as Hrec. fold c in Hrec. split; [apply Hrec|]. split.
  - intros scanNow systemNow readings stops o s w' o'. rewrite roundTraced_erases. unfold roundTraced, mbind, M_bind.
    pose proof (candidates_yield systemNow (thread_worker (run_thread u)) o (run_world u)) as Hnd.
    destruct (findUploadCandidates _ _ _ _) as [candidates w1 o1| | |]; [|done..]. destruct Hnd as [Hnd _].
    pose proof (round_due c scanNow readings candidates _ _ Hrec Hnd o1 w1) as Hdue.
    destruct (attemptAllTraced _ _ _ _ _ _) as [[[go s1] tries] w2 o2| | |]; [|done..]. cbn [fst snd] in Hdue.
    intros [= Hgo -> -> ->]. apply andb_prop in Hgo as [-> Hstops]. exists candidates, w1, o1, tries.
    split; [done|]. split; [by rewrite Hstops|auto].
  - intros Hstop u' Hstep. destruct Hstep as [| | |u scanNow systemNow readings stops o go s w' o' tries _ Hseen Hround];
      [done..|]. pose proof (round_keeps c scanNow systemNow readings stops _ _ Hrec o (run_world u)) as Hy.
    rewrite Hround in Hy. cbn [notes]. destruct Hy as [_ Hnone]. apply Hseen in Hstop as [_ Hall].
    cbn [fst snd] in Hnone. by rewrite Hnone.
Qed.

End runs.

(** ** A round without faults *)

Section delivering.
Context `{Service} `{Traversal}.

(** An upload leaves the other directories alone. *)
Lemma kept_sibling root n n' w w' q :
  kept own_leaves (child root n) w w' -> reachable w (child root n) -> n' <> n ->
  q `suffix_of` child root n' \/ child root n' `suffix_of` q -> q <> [] -> files w' !! q = files w !! q.
Proof.
  intros [_ Hk] Hr Hn Hq Hne.
  assert (Hout : q ∉ markers own_leaves (child root n)).
  { assert (Hmark : forall leaf, q <> leaf :: n :: root).
    { intros leaf ->. destruct Hq as [Hs|[k Hk']].
      - apply suffix_length in Hs. cbn in Hs. lia.
      - destruct k as [|x [|y k]]; unfold child in Hk'; cbn in Hk'; [|congruence|];
          apply (f_equal length) in Hk'; revert Hk'; cbn; rewrite ?length_app; cbn; lia. }
    unfold markers. rewrite elem_of_app, !list_elem_of_fmap.
    intros [(leaf & E & _)|(leaf & E & _)]; by apply Hmark in E. }
  destruct (Hk q Hout) as [|(Hnone & _ & Hs)]; [done|]. apply Hr in Hs. unfold is_dir in Hs.
  destruct q; [done|]. by rewrite Hnone in Hs.
Qed.

Lemma sizes_same w w' found :
  Forall (fun q => files w' !! q = files w !! q) found -> sizes w' found = sizes w found.
Proof.
  induction 1 as [|q found Hq _ IH]; [done|]. cbn [sizes foldr]. f_equal; [|exact IH].
  unfold content, read_text. by rewrite Hq.
Qed.

Lemma uploadable_same w w' d q :
  (forall q, d `suffix_of` q -> files w' !! q = files w !! q) -> uploadable w d q -> uploadable w' d q.
Proof. intros Hsame (Hb & Hf & Hm). split; [done|]. split; [|done]. unfold is_file. by rewrite (Hsame q) by apply Hb. Qed.

Lemma fit_sibling config now root n n' w w' :
  kept own_leaves (child root n) w w' -> reachable w (child root n) -> n' <> n ->
  fit_for_upload config now (child root n') w -> fit_for_upload config now (child root n') w'.
Proof.
  intros Hk Hr Hn [Freach Fplain Flease Fsome Fcount Fsize].
  assert (Hsame : forall q, child root n' `suffix_of` q -> files w' !! q = files w !! q).
  { intros q Hq. eapply kept_sibling; [done..|by right|]. intros ->. by apply suffix_nil_inv in Hq. }
  assert (Hown : forall leaf, files w' !! child (child root n') leaf = files w !! child (child root n') leaf)
    by (intros leaf; apply Hsame; by apply suffix_cons_r).
  assert (Hcol : collected w' (child root n') ≡ₚ collected w (child root n')).
  { apply NoDup_Permutation; [apply collected_NoDup..|]. intros q. rewrite !elem_of_collected.
    split; apply uploadable_same; [|done]. intros q' Hq'. symmetry. by apply Hsame. }
  assert (Hsizes : sizes w' (collected w (child root n')) = sizes w (collected w (child root n'))).
  { apply sizes_same, Forall_forall. intros q Hq%elem_of_collected. apply Hsame, Hq. }
  split.
  - intros q Hq. specialize (Freach q Hq). unfold is_dir in *. destruct q as [|x q]; [done|].
    rewrite (kept_sibling root n n' w w' (x :: q)); auto.
  - unfold plain_own, markers in *. rewrite Forall_app, !Forall_fmap in Fplain |- *.
    destruct Fplain as [F1 F2]. split; [eapply Forall_impl; [exact F1|]|eapply Forall_impl; [exact F2|]]; intros leaf Hl;
      (eapply regular_same; [|exact Hl]); [exact (Hown leaf)|exact (Hown (leaf +:+ ".tmp"))].
  - unfold lease_over, read_text in *. by rewrite Hown.
  - intros E. rewrite E in Hcol. by apply Permutation_nil_l in Hcol.
  - by rewrite Hcol.
  - by rewrite Hcol, Hsizes.
Qed.

(** What an attempt needs to succeed. *)
Definition attempt_ready (scanNow : Z) (r : Reading) (d : path) (s : UploadWorker) (w : world) : Prop :=
  fit_for_upload (upload_config s) (at_system r) d w /\ seen_before r = false /\
  match pending_retries s !! d with Some st => nextAttempt st <= scanNow | None => True end.

(** The directory has been marked as uploaded and is not to be retried. *)
Definition uploaded_already (d : path) (s : UploadWorker) (w : world) : Prop :=
  is_file w (child d ".uploaded") = true /\ pending_retries s !! d = None.

Lemma attempt_uploads scanNow r d s w :
  accepting -> 0 < chunkBytes (upload_config s) -> attempt_ready scanNow r d s w ->
  exists s' w', returns (attemptUpload scanNow (at_system r) (at_steady r) (seen_before r) (seen_after r) d s) w (true, s') w' /\
    kept own_leaves d w w' /\ uploaded_already d s' w' /\ upload_config s' = upload_config s /\
    forall d', d' <> d -> pending_retries s' !! d' = pending_retries s !! d'.
Proof.
  intros Hacc Hchunk (Hfit & Hseen & Hdue). unfold attemptUpload. rewrite Hseen.
  assert (Hgo : match pending_retries s !! d with Some st => scanNow <? nextAttempt st | None => false end = false)
    by (destruct (pending_retries s !! d); [lia|done]).
  rewrite Hgo.
  destruct (uploadDirectory_returns (at_system r) d s w Hchunk Hfit) as (infos & s1 & w1 & Hr & Hk & [m Hm] & _).
  { apply accepting_obliging; [done|lia]. }
  pose proof (uploadDirectory_yields (at_system r) d s [] w) as Hy. pose proof Hr as Hr'. unfold returns in Hr'. rewrite Hr' in Hy.
  destruct Hy as (l & n & Es). cbn [snd] in Es.
  exists (with_retries (delete d (pending_retries s1)) s1), w1. split; [by eapply returns_bind; [exact Hr|]|].
  split; [done|]. split; [split; [|apply lookup_delete_eq]|].
  - unfold is_file. by rewrite Hm.
  - subst s1. split; [done|]. intros d' Hd'. by apply lookup_delete_ne.
Qed.

Lemma attempts_upload scanNow readings root candidates s w :
  accepting -> 0 < chunkBytes (upload_config s) -> NoDup candidates ->
  (forall d, d ∈ candidates -> (exists name, d = child root name) /\ attempt_ready scanNow (readings d) d s w) ->
  exists s' w', returns (attemptAll scanNow readings candidates s) w (true, s') w' /\
    (forall d, d ∈ candidates -> uploaded_already d s' w') /\
    (forall name, child root name ∉ candidates -> pending_retries s' !! child root name = pending_retries s !! child root name /\
       files w' !! child (child root name) ".uploaded" = files w !! child (child root name) ".uploaded").
Proof.
  intros Hacc Hchunk Hnd. revert s w Hchunk.
  induction Hnd as [|d rest Hd _ IH]; intros s w Hchunk Hall; [exists s, w; split; [done|]; split; [set_solver|done]|].
  destruct (Hall d) as [[name ->] Hready]; [set_solver|]. set (d := child root name) in *.
  destruct (attempt_uploads scanNow (readings d) d s w Hacc Hchunk Hready) as (s1 & w1 & Hr1 & Hk & Hup & Ec & Hother).
  assert (Hreach : reachable w d) by apply Hready.
  assert (Hmark : forall name', name' <> name ->
    files w1 !! child (child root name') ".uploaded" = files w !! child (child root name') ".uploaded").
  { intros name' Hn. apply (kept_sibling root name name'); [done..|right; by apply suffix_cons_r|done]. }
  destruct (IH s1 w1) as (s2 & w2 & Hr2 & Hups & Hrest); [by rewrite Ec| |].
  { intros d' Hd'. destruct (Hall d') as [[name' ->] (Hfit & Hseen & Hdue)]; [set_solver|]. split; [by exists name'|].
    assert (Hn : name' <> name) by (intros ->; done).
    split; [rewrite Ec; by eapply fit_sibling|]. split; [done|]. rewrite Hother; [done|]. unfold d, child. congruence. }
  exists s2, w2. split; [by eapply returns_bind; [exact Hr1|]|]. split.
  - intros d' [->|Hd']%elem_of_cons; [|by apply Hups]. destruct (Hrest name Hd) as [Hp Hf]. destruct Hup as [Hu1 Hu2].
    split; [|exact (eq_trans Hp Hu2)]. unfold is_file, d in *. by rewrite Hf.
  - intros name' Hn'. rewrite elem_of_cons in Hn'. destruct (Hrest name') as [Hp Hf]; [tauto|].
    rewrite Hp, Hf, Hother, Hmark by (unfold d, child; intros E; apply Hn'; left; unfold d, child; congruence). done.
Qed.

(** C30. A round without faults uploads everything that is due: when the scan yields
    candidates that are free for an upload and whose waits are over, and the
    service accepts what it is sent, then the round ends with every one of them
    marked as uploaded and none left to retry, and the thread goes on unless it is
    asked to stop. *)
Theorem round_uploads `{Listing} scanNow systemNow readings stops s w candidates w1 :
  accepting -> 0 < chunkBytes (upload_config s) ->
  returns (findUploadCandidates systemNow s) w candidates w1 ->
  (forall d, d ∈ candidates -> attempt_ready scanNow (readings d) d s w1) ->
  exists s' w', returns (uploadRound scanNow systemNow readings stops s) w (negb stops, s') w' /\
    forall d, d ∈ candidates -> uploaded_already d s' w'.
Proof.
  intros Hacc Hchunk Hscan Hready. pose proof (candidates_yield systemNow s [] w) as Hy. pose proof Hscan as Hscan'.
  unfold returns in Hscan'. rewrite Hscan' in Hy. destruct Hy as [Hnd Hin].
  destruct (attempts_upload scanNow readings (upload_root s) candidates s w1) as (s' & w' & Hr & Hup & _); [done..| |].
  { intros d Hd. split; [by apply Hin|by apply Hready]. }
  exists s', w'. split; [|done]. unfold uploadRound. eapply returns_bind; [exact Hscan|].
  eapply returns_bind; [exact Hr|]. done.
Qed.

End delivering.

(** ** Samples *)

(** A service that is not there; two rounds, the second after the first wait. *)
#[local] Instance no_service : Service := { service_is_ready _ := false; respond _ _ := None }.

Definition patient (failure : Z) : path -> Reading :=
  fun _ => {| at_system := 100; at_steady := failure; seen_before := false; seen_after := false |}.

Definition sample_turn (scanNow failure : Z) (u : run_state) : run_state :=
  match roundTraced scanNow 100 (patient failure) false (thread_worker (run_thread u)) [] (run_world u) with
  | Done (go, s, tries) w _ =>
      {| run_thread := after_round go s (run_thread u); run_world := w; notes := tries ++ notes u |}
  | _ => u
  end.

Definition sample_begun : run_state := begun ["records"%string] sample_config (sample_store []).

Definition sample_started : run_state :=
  {| run_thread := start (run_thread sample_begun); run_world := run_world sample_begun; notes := notes sample_begun |}.

(** The second round comes too early, the third finds the attempts used up. *)
Definition sample_rounds : run_state :=
  sample_turn 3000000000 3000000005 (sample_turn 1000000004 1000000009 (sample_turn 0 5 sample_started)).

Example sample_rounds_notes : notes sample_rounds =
  [{| try_dir := sample_dir; try_scan := 3000000000; try_ending := GivenUp |};
   {| try_dir := sample_dir; try_scan := 0; try_ending := Postponed 5 |}].
Proof. vm_compute. reflexivity. Qed.

Lemma sample_turn_step scanNow failure u :
  running (run_thread u) = true -> stopping_ (run_thread u) = false ->
  match roundTraced scanNow 100 (patient failure) false (thread_worker (run_thread u)) [] (run_world u) with
  | Done _ _ _ => true | _ => false end = true ->
  thread_step u (sample_turn scanNow failure u).
Proof.
  intros Hrun Hstop Hdone. unfold sample_turn. destruct (roundTraced _ _ _ _ _ _ _) as [[[go s] tries] w o'| | |] eqn:E; try done.
  eapply step_round; [done|congruence|exact E].
Qed.

Lemma retries_paced_witness :
  rtc thread_step sample_begun sample_rounds /\ paced sample_config (notes sample_rounds).
Proof.
  assert (Hrun : rtc thread_step sample_begun sample_rounds).
  { eapply rtc_l; [apply (step_start sample_begun)|]. change (rtc thread_step sample_started sample_rounds). unfold sample_rounds.
    do 2 (eapply rtc_r; [|apply sample_turn_step; vm_compute; reflexivity]).
    apply rtc_once, sample_turn_step; vm_compute; reflexivity. }
  split; [exact Hrun|]. exact (proj1 (retries_paced ["records"%string] sample_config (sample_store []) sample_rounds Hrun)).
Defined.

(** A service that takes everything, and two finished events. *)
Definition agreeable : Service :=
  {| service_is_ready _ := true; respond l _ := Some {| success := true; received_bytes := received_since 0 l |} |}.

Definition other_dir : path := ["skid_8"; "records"]%string.

Definition two_events : world :=
  sample_store [(other_dir, Dir); (child other_dir ".complete", File "records=1" 1);
                (child other_dir "manifest.csv", File "index,t" 1)]%string.

Lemma two_events_fit d : d ∈ [sample_dir; other_dir] -> fit_for_upload sample_config 100 d two_events.
Proof.
  rewrite elem_of_cons, list_elem_of_singleton. intros [->| ->]; (split; [apply reachableb_spec; vm_compute; reflexivity|
    repeat (apply Forall_cons; split; [left; vm_compute; reflexivity|]); constructor|vm_compute; exact I|
    vm_compute; discriminate..]).
Qed.

Lemma round_uploads_witness :
  exists candidates s' w', @findUploadCandidates plain_listing 100 sample_uploads [] two_events = Done candidates two_events [] /\
    candidates ≡ₚ [sample_dir; other_dir] /\
    returns (@uploadRound agreeable plain_traversal plain_listing 0 100 (patient 5) false sample_uploads) two_events (true, s') w' /\
    forall d, d ∈ candidates -> uploaded_already d s' w'.
Proof.
  assert (Hscan : exists candidates, findUploadCandidates 100 sample_uploads [] two_events = Done candidates two_events [] /\
    candidates ≡ₚ [sample_dir; other_dir]).
  { eexists. split; [vm_compute; reflexivity|]. (apply perm_swap || reflexivity). }
  destruct Hscan as (candidates & Hscan & Hperm).
  destruct (@round_uploads agreeable plain_traversal plain_listing 0 100 (patient 5) false sample_uploads two_events candidates two_events)
    as (s' & w' & Hr & Hup).
  - split; [reflexivity|]. intros l r. exists {| success := true; received_bytes := received_since 0 l |}.
    exact (conj eq_refl (conj eq_refl (fun _ => eq_refl))).
  - vm_compute. reflexivity.
  - exact Hscan.
  - intros d Hd. rewrite Hperm in Hd. unfold attempt_ready, patient. cbn [at_system seen_before].
    assert (E : upload_config sample_uploads = sample_config) by (vm_compute; reflexivity).
    assert (Ep : pending_retries sample_uploads = ∅) by (vm_compute; reflexivity).
    rewrite E, Ep, lookup_empty. split; [exact (two_events_fit d Hd)|split; [reflexivity|exact I]].
  - exists candidates, s', w'. split; [exact Hscan|]. split; [exact Hperm|]. split; [exact Hr|exact Hup].
Defined.
