(* ===== verification/Digest.v ===== *)
(** * Digest: checksums of files, block by block

    Models the two functions [sha256File] of src/include/raw_storage_worker.hpp and
    src/include/record_io.hpp with the contexts they create and free, and the
    checksum manifest that is written with them.  The calls of OpenSSL are
    parameters: each may fail, and using a context after it has been freed is
    undefined.  The rest of the library takes a checksum at once. *)

From S2P Require Import Prelude Text SensorData FileSystem EventState RecordIo StorageWorker.

(** ** The library *)

(** What the calls of OpenSSL answer; the first two may fail for want of memory,
    which depends on how many contexts have been asked for. *)
Class Evp := {
  evp_state : Type;
  evp_new : nat -> bool;
  evp_init : nat -> option evp_state;
  evp_update : evp_state -> string -> option evp_state;
  evp_final : evp_state -> option string
}.

(** [digesting st text]: the context has been given the text. *)
Class EvpSpec `{Evp} `{Sha256} := {
  digesting : evp_state -> string -> Prop;
  init_digesting n st : evp_init n = Some st -> digesting st "";
  update_digesting st text more st' :
    digesting st text -> evp_update st more = Some st' -> digesting st' (text +:+ more);
  final_digest st text hash : digesting st text -> evp_final st = Some hash -> hash = sha256 text
}.

(** No call fails. *)
Class EvpWorks `{Evp} := {
  new_works n : evp_new n = true;
  init_works n : is_Some (evp_init n);
  update_works st more : is_Some (evp_update st more);
  final_works st : is_Some (evp_final st)
}.

(** ** Contexts *)

Section contexts.
Context `{Evp}.

(** The contexts that have not been freed; [None] is one without an algorithm. *)
Record contexts := { live : gmap nat (option evp_state); issued : nat }.

Definition fresh (l : contexts) : Prop := forall h, (issued l <= h)%nat -> live l !! h = None.

(** A computation with contexts. *)
Definition D (A : Type) : Type := contexts -> M (A * contexts).

#[export] Instance D_ret : MRet D := fun A a l => mret (a, l).
#[export] Instance D_bind : MBind D := fun A B k m l => result ← m l; k result.1 result.2.

Definition on_files {A} (m : M A) : D A := fun l => a ← m; mret (a, l).

Definition with_live (m : gmap nat (option evp_state)) (l : contexts) : contexts :=
  {| live := m; issued := issued l |}.

Definition EVP_MD_CTX_new : D (option nat) := fun l =>
  mret (if evp_new (issued l)
        then (Some (issued l), {| live := <[issued l := None]> (live l); issued := S (issued l) |})
        else (None, {| live := live l; issued := S (issued l) |})).

Definition EVP_MD_CTX_free (context : option nat) : D unit := fun l =>
  match context with
  | None => mret (tt, l)
  | Some h => match live l !! h with Some _ => mret (tt, with_live (delete h (live l)) l) | None => pure (Err Undefined) end
  end.

Definition EVP_DigestInit_ex (h : nat) : D bool := fun l =>
  match live l !! h with
  | None => pure (Err Undefined)
  | Some _ =>
      match evp_init h with
      | Some st => mret (true, with_live (<[h := Some st]> (live l)) l)
      | None => mret (false, l)
      end
  end.

Definition EVP_DigestUpdate (h : nat) (text : string) : D bool := fun l =>
  match live l !! h with
  | Some (Some st) =>
      match evp_update st text with
      | Some st' => mret (true, with_live (<[h := Some st']> (live l)) l)
      | None => mret (false, l)
      end
  | _ => pure (Err Undefined)
  end.

Definition EVP_DigestFinal_ex (h : nat) : D (option string) := fun l =>
  match live l !! h with
  | Some (Some st) => mret (evp_final st, l)
  | _ => pure (Err Undefined)
  end.

(** ** The functions *)

Definition block_size : nat := Z.to_nat (Z.shiftl 1 16).

Lemma block_large : (100 < block_size)%nat.
Proof. unfold block_size. apply (Z2Nat.inj_lt 100); done. Qed.

Lemma block_positive : (0 < block_size)%nat.
Proof. pose proof block_large. lia. Qed.

(** A stream after a read. *)
Inductive stream := Good | AtEnd | Broken.

(** [input.read(buffer, n)] with its [gcount()]. *)
Definition read_block (file : path) (from n : nat) : M (string * stream) := fun o w =>
  let content := match files w !! file with Some (File c _) => c | _ => EmptyString end in
  let data := String.substring from n content in
  match next o with
  | (NoFault, o') => Done (data, if (String.length data =? n)%nat then Good else AtEnd) w o'
  | (IoError k, o') => Done (String.substring from (Nat.min k n) content, Broken) w o'
  | (Crash _, _) => Crashed w
  end.

(** [while (input)]; [None] when an update has failed, the context being freed. *)
Fixpoint absorb (fuel : nat) (file : path) (h : nat) (from : nat) : D (option stream) :=
  match fuel with
  | O => on_files spent
  | S fuel' =>
      block ← on_files (read_block file from block_size);
      updated ← (if (0 <? String.length block.1)%nat then EVP_DigestUpdate h block.1 else mret true);
      if negb (updated : bool) then _ ← EVP_MD_CTX_free (Some h); mret None
      else match block.2 with
           | Good => absorb fuel' file h (from + String.length block.1)
           | s => mret (Some s)
           end
  end.

(** [std::ifstream input(file)] on a regular file. *)
Definition open_input (file : path) : M bool := query (fun w => is_file w file) false.

End contexts.

(** The function of the storage worker. *)
Definition writerSha256File `{Evp} (fuel : nat) (file : path) : D (option string) :=
  input ← on_files (open_input file);
  if negb (input : bool) then mret None else
  context ← EVP_MD_CTX_new;
  match context with
  | None => _ ← EVP_MD_CTX_free None; mret None
  | Some h =>
      started ← EVP_DigestInit_ex h;
      if negb (started : bool) then _ ← EVP_MD_CTX_free (Some h); mret None else
      absorbed ← absorb fuel file h 0;
      match absorbed with
      | None => mret None
      | Some AtEnd =>
          hash ← EVP_DigestFinal_ex h;
          _ ← EVP_MD_CTX_free (Some h);
          mret (to_hex <$> hash)
      | Some _ => _ ← EVP_MD_CTX_free (Some h); mret None
      end
  end.

(** The function of the record reader. *)
Definition readerSha256File `{Evp} (fuel : nat) (file : path) : D (option string) :=
  input ← on_files (open_input file);
  context ← (if input : bool then EVP_MD_CTX_new else mret None);
  match context with
  | None => _ ← EVP_MD_CTX_free None; mret None
  | Some h =>
      started ← EVP_DigestInit_ex h;
      if negb (started : bool) then _ ← EVP_MD_CTX_free (Some h); mret None else
      absorbed ← absorb fuel file h 0;
      match absorbed with
      | None => mret None
      | Some s =>
          hash ← (if s is AtEnd then EVP_DigestFinal_ex h else mret None);
          _ ← EVP_MD_CTX_free (Some h);
          mret (to_hex <$> hash)
      end
  end.

(** ** The checksum manifest *)

(** [writeChecksumManifest] with its digests taken block by block; the relative
    name is asked of the file system. *)
Fixpoint checksumRowsStreamed `{Evp} (fuel : nat) (dir : path) (files : list path) : D (option string) :=
  match files with
  | [] => mret (Some EmptyString)
  | relative :: rest =>
      digest ← writerSha256File fuel (relative ++ dir);
      match digest with
      | None => mret None
      | Some digest =>
          named ← on_files (query (fun _ => true) false);
          if negb (named : bool) then mret None else
          rows ← checksumRowsStreamed fuel dir rest;
          mret ((fun s => checksum_row digest relative +:+ newline +:+ s) <$> rows)
      end
  end.

Definition writeManifestStreamed `{Evp} `{Traversal} (fuel : nat) (dir : path) : D bool :=
  found ← on_files (list_checksum_files dir);
  match found with
  | None => mret false
  | Some found =>
      let files := merge_sort path_le found in
      rows ← checksumRowsStreamed fuel dir files;
      match rows with
      | None => mret false
      | Some content =>
          if bool_decide (files = []) then mret false
          else on_files (storeAtomically (child dir "manifest.sha256") content)
      end
  end.

(** ** Reasoning with contexts *)

#[local] Opaque block_size.

Section rules.
Context `{Evp}.

Lemma dwp_bind {A B} (m : D A) (k : A -> D B) Q E C l w :
  wp (m l) (fun r => wp (k r.1 r.2) Q E C) E C w -> wp ((m ≫= k) l) Q E C w.
Proof. apply wp_bind. Qed.

Lemma dwp_ret {A} (a : A) l (Q : A * contexts -> world -> Prop) E C w : Q (a, l) w -> wp ((mret a : D A) l) Q E C w.
Proof. apply wp_ret. Qed.

Lemma dwp_files {A} (m : M A) l (Q : A * contexts -> world -> Prop) E C w :
  wp m (fun a => Q (a, l)) E C w -> wp (on_files m l) Q E C w.
Proof. intros Hm. apply wp_bind. eapply wp_post; [|exact Hm]. intros a w' HQ. by apply wp_ret. Qed.

Lemma dwp_free h x l (Q : unit * contexts -> world -> Prop) E C w :
  live l !! h = Some x -> Q (tt, with_live (delete h (live l)) l) w -> wp (EVP_MD_CTX_free (Some h) l) Q E C w.
Proof. intros Hl HQ. unfold EVP_MD_CTX_free. rewrite Hl. by apply wp_ret. Qed.

Lemma dwp_init h x l (Q : bool * contexts -> world -> Prop) E C w :
  live l !! h = Some x -> Q (false, l) w ->
  (forall st, evp_init h = Some st -> Q (true, with_live (<[h := Some st]> (live l)) l) w) ->
  wp (EVP_DigestInit_ex h l) Q E C w.
Proof.
  intros Hl Hno Hyes. unfold EVP_DigestInit_ex. rewrite Hl. destruct (evp_init h) as [st|]; apply wp_ret; auto.
Qed.

Lemma dwp_update h st text l (Q : bool * contexts -> world -> Prop) E C w :
  live l !! h = Some (Some st) -> Q (false, l) w ->
  (forall st', evp_update st text = Some st' -> Q (true, with_live (<[h := Some st']> (live l)) l) w) ->
  wp (EVP_DigestUpdate h text l) Q E C w.
Proof.
  intros Hl Hno Hyes. unfold EVP_DigestUpdate. rewrite Hl. destruct (evp_update st text); apply wp_ret; auto.
Qed.

Lemma dwp_final h st l (Q : option string * contexts -> world -> Prop) E C w :
  live l !! h = Some (Some st) -> Q (evp_final st, l) w -> wp (EVP_DigestFinal_ex h l) Q E C w.
Proof. intros Hl HQ. unfold EVP_DigestFinal_ex. rewrite Hl. by apply wp_ret. Qed.

Lemma dwp_new l (Q : option nat * contexts -> world -> Prop) E C w :
  Q (None, {| live := live l; issued := S (issued l) |}) w ->
  Q (Some (issued l), {| live := <[issued l := None]> (live l); issued := S (issued l) |}) w ->
  wp (EVP_MD_CTX_new l) Q E C w.
Proof. intros HNone HSome. unfold EVP_MD_CTX_new. apply wp_ret. by destruct (evp_new _). Qed.

Lemma read_block_wp file c m from n (Q : string * stream -> world -> Prop) (E C : world -> Prop) w :
  files w !! file = Some (File c m) ->
  (String.length (String.substring from n c) = n -> Q (String.substring from n c, Good) w) ->
  ((String.length c <= from + n)%nat -> Q (String.substring from n c, AtEnd) w) ->
  (forall s, Q (s, Broken) w) -> C w -> wp (read_block file from n) Q E C w.
Proof.
  intros Hf Hgood Hend Hbroken HC o. unfold read_block. rewrite Hf. destruct (next o) as [[] ?]; [|done..].
  destruct (_ =? n)%nat eqn:En; [by apply Hgood, Nat.eqb_eq|].
  apply Hend. apply Nat.eqb_neq in En. rewrite substring_length in En. lia.
Qed.

End rules.

Section streaming.
Context `{EvpSpec}.

(** Nothing has leaked and nothing else been freed. *)
Definition tidy (l l' : contexts) : Prop := live l' = live l /\ fresh l'.

(** After the loop over the blocks of a file with the content [c]. *)
Definition absorbed (c : string) (h : nat) (l : contexts) (w : world) (r : option stream * contexts) (w' : world) : Prop :=
  w' = w /\ issued r.2 = issued l /\
  match r.1 with
  | None => live r.2 = delete h (live l)
  | Some s => s <> Good /\ exists st, live r.2 = <[h := Some st]> (live l) /\ (s = AtEnd -> digesting st c)
  end.

(** A context that has been given more. *)
Lemma absorbed_later c h st l l' w r w' :
  live l' = <[h := Some st]> (live l) -> issued l' = issued l -> absorbed c h l' w r w' -> absorbed c h l w r w'.
Proof.
  intros Hl Hi (Hw & Hi' & Hr). split; [done|]. split; [congruence|]. destruct r.1 as [s|].
  - destruct Hr as (Hs & st' & Hl' & Hend). split; [done|]. exists st'. split; [|done]. by rewrite Hl', Hl, insert_insert_eq.
  - by rewrite Hr, Hl, delete_insert_eq.
Qed.

(** One round, given what the next one does. *)
Lemma absorb_round c h st l w from data s (next : D (option stream)) :
  live l !! h = Some (Some st) -> digesting st (String.substring 0 from c) ->
  (s <> Broken -> data = String.substring from block_size c) ->
  (s = AtEnd -> (String.length c <= from + block_size)%nat) ->
  (s = Good -> forall st' l', live l' !! h = Some (Some st') ->
     digesting st' (String.substring 0 from c +:+ data) -> wp (next l') (absorbed c h l' w) (fun _ => False) (eq w) w) ->
  wp ((updated ← (if (0 <? String.length data)%nat then EVP_DigestUpdate h data else mret true);
       if negb (updated : bool) then _ ← EVP_MD_CTX_free (Some h); mret None
       else match s with Good => next | s => mret (Some s) end : D _) l)
    (absorbed c h l w) (fun _ => False) (eq w) w.
Proof.
  intros Hl Hst Hdata Hend Hnext. apply dwp_bind.
  assert (Hgo : forall st' l', live l' = <[h := Some st']> (live l) -> issued l' = issued l ->
    digesting st' (String.substring 0 from c +:+ data) ->
    wp ((match s with Good => next | s => mret (Some s) end : D _) l') (absorbed c h l w) (fun _ => False) (eq w) w).
  { intros st' l' Hl' Hi Hd. eapply wp_post; [intros r w'; by eapply absorbed_later|].
    assert (Hh : live l' !! h = Some (Some st')) by (by rewrite Hl', lookup_insert_eq).
    destruct s; [by eapply Hnext|apply dwp_ret; (split; [done|]); (split; [done|]); (split; [done|])..];
      exists st'; (split; [by rewrite insert_id|]); [|done].
    intros _. rewrite Hdata in Hd by done. pose proof (substring_split 0 from block_size c) as Hsplit.
    rewrite Nat.add_0_l in Hsplit. rewrite <- Hsplit in Hd.
    rewrite (substring_more 0 (String.length c) (from + block_size)), substring_all in Hd by (specialize (Hend eq_refl); lia).
    done. }
  destruct (0 <? String.length data)%nat eqn:Epos.
  - apply (dwp_update h st); [done| |].
    + apply dwp_bind, (dwp_free h (Some st)); [done|]. by apply dwp_ret.
    + intros st' Hup. apply (Hgo st'); [done|done|]. by eapply update_digesting.
  - apply dwp_ret, (Hgo st); [by rewrite insert_id|done|].
    apply Nat.ltb_ge in Epos. destruct data; [|cbn in Epos; lia]. by rewrite app_nil_r_str.
Qed.

Lemma absorb_wp fuel file h from c m st l w :
  files w !! file = Some (File c m) -> live l !! h = Some (Some st) ->
  digesting st (String.substring 0 from c) -> (from <= String.length c)%nat ->
  (String.length c - from < fuel * block_size)%nat ->
  wp (absorb fuel file h from l) (absorbed c h l w) (fun _ => False) (eq w) w.
Proof.
  intros Hf. revert from st l. induction fuel as [|fuel IH]; intros from st l Hl Hst Hfrom Hfuel; [lia|].
  set (data := String.substring from block_size c). cbn [absorb]. apply dwp_bind, dwp_files, (read_block_wp file c m); [done| | | |done].
  - intros Hlen. apply (absorb_round c h st l w from data Good (absorb fuel file h (from + String.length data))); [done..|].
    intros _ st' l' Hl' Hd.
    pose proof block_positive. rewrite substring_length in Hlen. assert (E : String.length data = block_size) by (unfold data; rewrite substring_length; lia).
    rewrite E. apply (IH _ st'); [done| |lia|lia]. pose proof (substring_split 0 from block_size c) as Hsplit.
    rewrite Nat.add_0_l in Hsplit. by rewrite Hsplit.
  - intros Hlen. by apply (absorb_round c h st l w from data AtEnd (mret None)).
  - intros s. by apply (absorb_round c h st l w from s Broken (mret None)).
Qed.

(** Enough rounds for a file: all its blocks and the read that finds the end. *)
Definition enough (fuel : nat) (file : path) (w : world) : Prop :=
  (String.length (default "" (read_text w file)) < fuel * block_size)%nat.

(** What either function promises. *)
Definition digested (file : path) (l : contexts) (w : world) (r : option string * contexts) (w' : world) : Prop :=
  w' = w /\ tidy l r.2 /\ (r.1 = None \/ r.1 = sha256File w file).

(** What remains once the context has been given its algorithm. *)
Lemma finish_wp fuel file h c m st l w :
  files w !! file = Some (File c m) -> (String.length c < fuel * block_size)%nat ->
  live l !! h = Some (Some st) -> digesting st "" ->
  wp ((ended ← absorb fuel file h 0;
       match ended with
       | None => mret None
       | Some AtEnd => hash ← EVP_DigestFinal_ex h; _ ← EVP_MD_CTX_free (Some h); mret (to_hex <$> hash)
       | Some _ => _ ← EVP_MD_CTX_free (Some h); mret None
       end : D (option string)) l)
    (fun r w' => w' = w /\ live r.2 = delete h (live l) /\ issued r.2 = issued l /\ (r.1 = None \/ r.1 = sha256File w file))
    (fun _ => False) (eq w) w.
Proof.
  intros Hf Hfuel Hl Hst. apply dwp_bind.
  eapply wp_post; [|apply (absorb_wp fuel file h 0 c m st); [done|done|by rewrite substring_nil|lia|lia]].
  intros [[s|] l2] w' (-> & Hi & Hr); cbn [fst snd] in *; [|by apply dwp_ret; auto].
  destruct Hr as (Hs & st' & Hl2 & Hend).
  assert (Hh2 : live l2 !! h = Some (Some st')) by (by rewrite Hl2, lookup_insert_eq).
  assert (Hfree : live (with_live (delete h (live l2)) l2) = delete h (live l))
    by (cbn [live with_live]; by rewrite Hl2, delete_insert_eq).
  destruct s; [done| |].
  - apply dwp_bind, (dwp_final h st'); [done|]. apply dwp_bind, (dwp_free h (Some st')); [done|]. apply dwp_ret.
    split; [done|]. split; [done|]. split; [done|]. cbn [fst snd].
    destruct (evp_final st') as [hash|] eqn:Ehash; [right|by left].
    apply (final_digest st' c) in Ehash as ->; [|auto]. unfold sha256File, read_text. by rewrite Hf.
  - apply dwp_bind, (dwp_free h (Some st')); [done|]. apply dwp_ret. auto.
Qed.

Lemma sha256File_wp fuel file l w :
  fresh l -> enough fuel file w ->
  wp (writerSha256File fuel file l) (digested file l w) (fun _ => False) (eq w) w.
Proof.
  intros Hl Hfuel. unfold writerSha256File.
  assert (Hh : live l !! issued l = None) by (by apply Hl).
  assert (Hlater : forall l', live l' = live l -> (issued l <= issued l')%nat -> tidy l l').
  { intros l' E Hi. split; [done|]. intros h Hh'. rewrite E. apply Hl. lia. }
  assert (Hnone : forall l', live l' = live l -> (issued l <= issued l')%nat -> digested file l w (None, l') w)
    by (intros l' E Hi; split; [done|]; split; [by apply Hlater|by left]).
  apply dwp_bind, dwp_files, wp_check; [|by apply dwp_ret, Hnone|done].
  intros Hf. unfold is_file in Hf. destruct (files w !! file) as [[c m| |]|] eqn:Ef; try done. cbn [fst snd negb].
  unfold enough, read_text in Hfuel. rewrite Ef in Hfuel. simpl in Hfuel.
  apply dwp_bind, dwp_new; cbn [fst snd]; [apply dwp_bind, dwp_ret, dwp_ret, Hnone; cbn; auto with lia|].
  set (l1 := {| live := <[issued l := None]> (live l); issued := S (issued l) |}).
  assert (Hh1 : live l1 !! issued l = Some None) by apply lookup_insert_eq.
  apply dwp_bind, (dwp_init (issued l) None); [done| |].
  - apply dwp_bind, (dwp_free (issued l) None); [done|]. apply dwp_ret, Hnone; cbn; [by rewrite delete_insert_id|lia].
  - intros st Hst. cbn [fst snd negb].
    eapply wp_post; [|apply (finish_wp fuel file (issued l) c m st);
      [done|done|apply lookup_insert_eq|by eapply init_digesting]].
    intros [r l2] w' (-> & Hl2 & Hi & Hr). cbn [fst snd live with_live issued] in *. split; [done|]. split; [|done].
    apply Hlater; cbn [snd]; [|rewrite Hi; cbn; lia]. rewrite Hl2. cbn [l1 live].
    by rewrite insert_insert_eq, delete_insert_id.
Qed.

(** The two functions do the same. *)
Lemma reader_writer fuel file l o w : readerSha256File fuel file l o w = writerSha256File fuel file l o w.
Proof.
  unfold readerSha256File, writerSha256File, mbind, D_bind, mbind, M_bind, on_files, mbind, M_bind.
  destruct (open_input _ _ _) as [[] w1 o1| | |]; try done. cbn [fst snd mret M_ret negb].
  destruct (EVP_MD_CTX_new _ _ _) as [[[h|] l1] w2 o2| | |]; try done. cbn [fst snd].
  destruct (EVP_DigestInit_ex _ _ _ _) as [[[] l2] w3 o3| | |]; try done. cbn [fst snd negb].
  destruct (absorb _ _ _ _ _ _ _) as [[[[]|] l3] w4 o4| | |]; try done.
Qed.

(** ** When no call fails *)

Lemma absorb_returns `{!EvpWorks} fuel file h from c m st l w :
  files w !! file = Some (File c m) -> live l !! h = Some (Some st) -> (from <= String.length c)%nat ->
  (String.length c - from < fuel * block_size)%nat ->
  exists l' st', returns (absorb fuel file h from l) w (Some AtEnd, l') w /\ live l' !! h = Some (Some st').
Proof.
  intros Hf. revert from st l. induction fuel as [|fuel IH]; intros from st l Hl Hfrom Hfuel; [lia|].
  set (data := String.substring from block_size c). pose proof block_positive.
  assert (Elen : String.length data = Nat.min block_size (String.length c - from)) by apply substring_length.
  unfold returns. cbn [absorb]. unfold mbind, D_bind, on_files, mbind, M_bind, read_block. cbn [next]. rewrite Hf.
  fold data. cbn [fst snd mret M_ret].
  assert (Hup : exists st' l', (if (0 <? String.length data)%nat then EVP_DigestUpdate h data else mret true) l [] w =
      Done (true, l') w [] /\ live l' !! h = Some (Some st')).
  { destruct (0 <? String.length data)%nat; [|by exists st, l]. unfold EVP_DigestUpdate. rewrite Hl.
    destruct (update_works st data) as [st' Hst']. exists st'. eexists. rewrite Hst'. split; [done|]. apply lookup_insert_eq. }
  destruct Hup as (st' & l' & -> & Hl'). cbn [fst snd negb].
  destruct (_ =? block_size)%nat eqn:En; [|by exists l', st'].
  apply Nat.eqb_eq in En. apply (IH _ st'); [done|lia|lia].
Qed.

Lemma sha256File_works `{!EvpWorks} fuel file l w :
  fresh l -> enough fuel file w ->
  exists l', returns (writerSha256File fuel file l) w (sha256File w file, l') w.
Proof.
  intros Hl Hfuel. pose proof (sha256File_wp fuel file l w Hl Hfuel []) as Hwp.
  assert (Hrun : exists r l', returns (writerSha256File fuel file l) w (r, l') w /\ (r = None -> is_file w file = false)).
  { unfold returns, writerSha256File, mbind, D_bind, on_files, mbind, M_bind, open_input, query. cbn [next fst snd mret M_ret].
    destruct (is_file w file) eqn:Ef; cbn [negb]; [|by eexists _, _].
    unfold is_file in Ef. destruct (files w !! file) as [[c m| |]|] eqn:Efile; try done.
    unfold enough, read_text in Hfuel. rewrite Efile in Hfuel. simpl in Hfuel.
    unfold EVP_MD_CTX_new. rewrite new_works. cbn [fst snd mret M_ret].
    unfold EVP_DigestInit_ex. cbn [live]. rewrite lookup_insert_eq. destruct (init_works (issued l)) as [st ->].
    cbn [fst snd mret M_ret negb].
    set (l1 := with_live _ _).
    destruct (absorb_returns fuel file (issued l) 0 c m st l1 w) as (l2 & st2 & -> & Hl2);
      [done|apply lookup_insert_eq|lia|lia|]. cbn [fst snd].
    unfold EVP_DigestFinal_ex, EVP_MD_CTX_free. rewrite Hl2. cbn [fst snd mret M_ret]. rewrite Hl2.
    destruct (final_works st2) as [hash ->]. by eexists _, _. }
  destruct Hrun as (r & l' & Hrun & Hsome). unfold returns in Hrun. rewrite Hrun in Hwp. exists l'. unfold returns. rewrite Hrun.
  destruct Hwp as (_ & _ & [Hr|Hr]); cbn [fst] in Hr; [|by subst]. rewrite Hr. specialize (Hsome Hr).
  unfold sha256File, read_text. unfold is_file in Hsome. by destruct (files w !! file) as [[]|].
Qed.

(** ** The manifest *)

Lemma query_inv {A B} (f : world -> A) bad (k : A -> M B) Q E C w :
  wp (query f bad ≫= k) Q E C w -> wp (k (f w)) Q E C w /\ wp (k bad) Q E C w /\ C w.
Proof.
  intros Hq. split; [|split].
  - intros o. apply (Hq (NoFault :: o)).
  - intros o. apply (Hq (IoError 0 :: o)).
  - apply (Hq [Crash 0]).
Qed.

Lemma wp_assoc {A B A'} (m : M A) (g : A -> M B) (k : B -> M A') Q E C w :
  wp ((m ≫= g) ≫= k) Q E C w -> wp (m ≫= fun a => g a ≫= k) Q E C w.
Proof. intros Hw o. specialize (Hw o). unfold mbind, M_bind in *. by destruct (m o w). Qed.

Lemma rows_streamed {A} fuel dir fs l w (k : option string -> M A) Q E C :
  fresh l -> Forall (fun r => enough fuel (r ++ dir) w) fs ->
  wp (checksumRows dir fs ≫= k) Q E C w -> C w ->
  wp (checksumRowsStreamed fuel dir fs l) (fun r w' => tidy l r.2 /\ w' = w /\ wp (k r.1) Q E C w) E C w.
Proof.
  intros Hl Hall. revert l Hl k. induction Hall as [|r rest Hr _ IH]; intros l Hl k Hk HC; cbn [checksumRowsStreamed].
  { by apply dwp_ret. }
  cbn [checksumRows] in Hk. apply wp_assoc, query_inv in Hk as (Hdone & Hnone & _). cbn in Hnone.
  apply dwp_bind. eapply wp_mono; [| | |by apply (sha256File_wp fuel (r ++ dir) l w)]; [|done|by intros w' <-].
  intros [digest l1] w' (-> & [Hl1 Hfresh1] & Hdigest). cbn [fst snd] in *. destruct digest as [digest|]; [|by apply dwp_ret].
  destruct Hdigest as [|Hdigest]; [done|]. unfold sha256File, read_text in Hdigest.
  destruct (files w !! (r ++ dir)) as [[bytes m| |]|]; try done. injection Hdigest as ->.
  apply wp_assoc, query_inv in Hdone as (Hdone & Hunnamed & _). cbn in Hunnamed.
  apply dwp_bind, dwp_files, wp_check; [intros _|by apply dwp_ret|done]. cbn [fst snd negb].
  apply dwp_bind. cbn [negb] in Hdone. apply wp_assoc in Hdone.
  eapply wp_post; [|apply (IH l1 Hfresh1 _ Hdone HC)].
  intros [rows l2] w' ([Hl2 Hfresh2] & -> & Hrows). cbn [fst snd] in *. apply dwp_ret. split; [split; cbn [snd]; [by rewrite Hl2|done]|].
  by split.
Qed.

Lemma enough_files fuel dir w found :
  (forall r, r ∈ checksum_files w dir -> enough fuel (r ++ dir) w) -> found ⊆ checksum_files w dir ->
  Forall (fun r => enough fuel (r ++ dir) w) (merge_sort path_le found).
Proof. intros Hall Hsub. apply Forall_forall. intros r. rewrite merge_sort_Permutation. intros Hr%Hsub. by apply Hall. Qed.

(** ** Theorems *)

(** C5. Under every read error and failure of the library both functions end, leave
    the files alone, use no context after freeing it, free each one exactly once,
    and answer nothing or the checksum of the whole file; they answer it when
    nothing fails. *)
Theorem sha256File_streamed fuel file l w :
  fresh l -> enough fuel file w ->
  (forall o, readerSha256File fuel file l o w = writerSha256File fuel file l o w) /\
  wp (writerSha256File fuel file l) (digested file l w) (fun _ => False) (eq w) w /\
  (EvpWorks -> exists l', returns (writerSha256File fuel file l) w (sha256File w file, l') w).
Proof.
  intros Hl Hfuel. split; [intros o; apply reader_writer|]. split; [by apply sha256File_wp|].
  intros Hworks. by apply sha256File_works.
Qed.

(** C6. Writing the checksum manifest from digests taken block by block does
    nothing that writing it from digests taken at once would not do, under every
    fault, and leaks no context. *)
Theorem streamed_manifest_refines `{Traversal} fuel dir l w Q (E C : world -> Prop) :
  fresh l -> (forall r, r ∈ checksum_files w dir -> enough fuel (r ++ dir) w) ->
  wp (writeChecksumManifest dir) Q E C w ->
  wp (writeManifestStreamed fuel dir l) (fun r w' => tidy l r.2 /\ Q r.1 w') E C w.
Proof.
  intros Hl Hfuel Hw. pose proof (Hw [Crash 0]) as HC. cbn in HC.
  apply wp_bind_inv in Hw; [|apply list_checksum_files_replays]. unfold writeManifestStreamed.
  assert (Hsame : tidy l l) by done.
  apply dwp_bind, dwp_files. eapply wp_mono; [| | |exact (wp_and _ _ _ _ _ _ Hw
    (wp_mono _ _ _ _ _ _ _ _ (fun _ _ x => x) (fun _ _ => I) (fun _ _ => I) (list_checksum_files_wp dir w)))]; [|done|done].
  intros found w1 [Hk [-> Hsub]]. cbn [fst snd]. destruct found as [found|]; [|apply dwp_ret; split; [done|apply (Hk [])]].
  destruct (Hsub found eq_refl) as [_ Hin]. apply dwp_bind. cbv zeta in Hk.
  eapply wp_post; [|eapply rows_streamed; [done|by apply enough_files|exact Hk|done]].
  intros [rows l1] w' (Ht & -> & Hrest). cbn [fst snd] in *.
  destruct rows as [content|]; [|apply dwp_ret; split; [done|apply (Hrest [])]].
  case_bool_decide; [apply dwp_ret; split; [done|apply (Hrest [])]|].
  apply dwp_files. eapply wp_post; [|exact Hrest]. intros okb w' HQ. by split.
Qed.

End streaming.

(** ** Samples *)

(** A library that keeps the text. *)
#[local] Instance keeping_evp : Evp := {
  evp_state := string; evp_new _ := true; evp_init _ := Some EmptyString;
  evp_update st more := Some (st +:+ more); evp_final st := Some (sha256 st) }.

#[local] Instance keeping_spec : EvpSpec.
Proof.
  refine {| digesting := (fun st text => st = text) : evp_state -> string -> Prop |}.
  - by intros n st [= <-].
  - by intros st text more st' -> [= <-].
  - by intros st text hash -> [= <-].
Qed.

#[local] Instance keeping_works : EvpWorks.
Proof. split; [done|by eexists..]. Qed.

Definition no_contexts : contexts := {| live := ∅; issued := 0 |}.

Lemma no_contexts_fresh : fresh no_contexts.
Proof. intros h _. apply lookup_empty. Qed.

Lemma sample_enough r : enough 1 (r ++ event_dir) recorded_world.
Proof.
  unfold enough. rewrite Nat.mul_1_l. eapply (Nat.le_lt_trans _ 100); [|exact block_large].
  unfold read_text. destruct (files recorded_world !! (r ++ event_dir)) as [[c m| |]|] eqn:E; cbn; try lia.
  assert (Hall : map_Forall (fun _ n => match n with File c _ => (String.length c <=? 100)%nat | _ => true end = true)
    (files recorded_world)) by (apply map_Forall_to_list; vm_compute; repeat constructor).
  apply (Hall _ _) in E. by apply Nat.leb_le.
Qed.

Example streamed_run :
  match writeManifestStreamed 1 event_dir no_contexts [] recorded_world, writeChecksumManifest event_dir [] recorded_world with
  | Done (true, l) w _, Done true w' _ => bool_decide (files w = files w') && (issued l =? 2)%nat
  | _, _ => false
  end = true.
Proof. vm_compute. reflexivity. Qed.

Lemma sha256File_streamed_witness :
  exists l', returns (writerSha256File 1 (child event_dir "manifest.csv") no_contexts) recorded_world
    (Some (to_hex (sha256 "sensor,timestamp")), l') recorded_world.
Proof.
  apply (sha256File_streamed 1 (child event_dir "manifest.csv") no_contexts recorded_world);
    [exact no_contexts_fresh|exact (sample_enough ["manifest.csv"%string])|exact keeping_works].
Defined.

Lemma streamed_manifest_refines_witness :
  wp (writeManifestStreamed 1 event_dir no_contexts)
    (fun r w' => tidy no_contexts r.2 /\
       touches [child event_dir "manifest.sha256"; scratch (child event_dir "manifest.sha256")] event_dir recorded_world w')
    (fun w' => touches [child event_dir "manifest.sha256"; scratch (child event_dir "manifest.sha256")] event_dir recorded_world w')
    (fun w' => touches [child event_dir "manifest.sha256"; scratch (child event_dir "manifest.sha256")] event_dir recorded_world w')
    recorded_world.
Proof.
  apply (streamed_manifest_refines 1 event_dir no_contexts recorded_world
    (fun _ w' => touches [child event_dir "manifest.sha256"; scratch (child event_dir "manifest.sha256")] event_dir recorded_world w'));
    [exact no_contexts_fresh|intros r _; exact (sample_enough r)|exact (writeChecksumManifest_wp event_dir recorded_world)].
Defined.
